(* ===== verification/_CoqProject ===== *)
-Q . S2P
Prelude.v
Skynet.v
MQ.v
Handle.v
Timer.v
CString.v
Module.v
Prog.v
Node.v
NodeInv.v
NodeSound.v
NodeAct.v
NodeSafe.v
HashId.v
DataBuffer.v
Gate.v
GateSafe.v
Netpack.v
Seri.v
Des.v
Crypt.v
Sha1.v
Sproto.v
SocketServer.v
SocketInv.v
SocketSafe.v
SocketStream.v
SocketFlaws.v
Harbor.v
HarborRep.v
HarborNet.v
HarborStream.v
HarborSafe.v
HarborLink.v
HarborFlaws.v
Cluster.v
ClusterLink.v
