(* ===== verification/Prelude.v ===== *)
(** * skynet: a verification of the runtime and its protocols

    skynet is an actor framework in C: a node runs services, each with a message
    queue, on a few worker threads, and connects them with timers, sockets and
    other nodes.  This library models the C code of the node, of the services
    that are written in C, and of the C libraries the Lua services use for their
    protocols (directory [src/skynet]), and proves what makes each part correct.

    ** The parts and how they interact

    A message is pushed to the queue of a service (skynet_mq.c) found by its
    handle or name (skynet_handle.c).  Queues with messages are linked into a
    global run queue, from which the worker threads take them and call the
    service (skynet_server.c, skynet_start.c).  Services are instances of modules
    (skynet_module.c).  A thread turns the timer wheel (skynet_timer.c) and
    another one polls the sockets (socket_server.c); both send messages.  The
    gate (service_gate.c) cuts the streams of clients into packages for other
    services; Lua services do the same with lua-netpack.c.  Messages to other
    nodes go through the harbor service (service_harbor.c) or through clusterd
    (lua-cluster.c, clusterd.lua, socketchannel.lua).  Their content is written
    with lua-seri.c or sproto.c, and protected with lua-crypt.c and lsha1.c.

    ** The files

    - Prelude: machine integers, arrays, memory blocks, record assignment, the
      outcome type of functions called from Lua, ring buffers, tactics.
    - Skynet: the constants of the headers several parts share.
    - MQ: skynet_mq.c.  A queue is a record in a heap, [next] pointers included.
    - Handle: skynet_handle.c.  The slot table and the sorted array of names.
    - Timer: skynet_timer.c.  The wheel of 256 + 4 * 64 lists and its clocks.
    - CString: the functions of the C library that handle strings.
    - Module: skynet_module.c, with the dynamic linker as a parameter.
    - Prog: programs of atomic actions, their interleavings, and a program logic
      with owned resources.
    - Node: skynet_server.c, skynet_harbor.c, skynet_monitor.c, skynet_env.c,
      skynet_error.c, the threads of skynet_start.c, opening logs (skynet_log.c):
      one atomic action per lock section or atomic builtin, one program per
      function.  NodeInv, NodeSound, NodeAct, NodeSafe: its invariant and proof.
    - HashId, DataBuffer, Gate, GateSafe: hashid.h, databuffer.h, service_gate.c.
    - Netpack: lua-netpack.c.    Seri: lua-seri.c.
    - Des, Crypt: lua-crypt.c.   Sha1: lsha1.c.
    - Sproto: the zero packing of sproto.c.
    - SocketServer: socket_server.c and socket_epoll.h in a state monad over the
      server, the pipe, the epoll set and an operating system that is a parameter.
      SocketInv, SocketSafe, SocketStream, SocketFlaws: what is proved of it.
    - Harbor: service_harbor.c in a state monad with faults, message buffers
      being blocks with addresses.  HarborRep, HarborNet, HarborStream,
      HarborSafe, HarborLink, HarborFlaws: what is proved of it.
    - Cluster: lua-cluster.c.  ClusterLink: the parts of clusterd.lua and
      socketchannel.lua that send and receive its packages.

    Names are those of the source.  Where a function has a loop, the loop is a
    function of its own.  A state of the C code is a record with the fields of
    the struct; undefined behaviour and failed assertions are [None], [Stuck] or
    a fault, Lua errors are [Throw], and calls into parts that are not modelled
    are appended to a trace.

    ** What the theorems show

    - Refinement.  The message queue is a FIFO list (MQ), the run
      queue a list without repetition; the handle table and the name table are
      finite maps (Handle); the timer wheel counts every timeout down and fires
      it once, at its tick (Timer); the connection table is a finite map
      (HashId); netpack splits every stream as a two-line parser does (Netpack);
      the harbor service is a map of names and a list of links (HarborSafe).
    - Safety.  In no interleaving of the threads does the node use freed memory,
      fail an assertion or run a service twice at the same time (NodeSafe); the
      socket server never aborts (SocketSafe); the gate, whatever a client sends,
      stays within its arrays (GateSafe); the harbor service neither leaks nor
      frees twice, but for the faults it names (HarborSafe).
    - Streams.  The socket server writes whole messages, all of them in the end
      (SocketStream); the gate delivers exactly the packages of a stream (Gate);
      letters between harbors (HarborLink), requests and responses between
      cluster nodes (ClusterLink) arrive complete and once, however the network
      cuts and interleaves them.
    - Round trips and equivalences.  Serialisation (Seri), packing (Sproto,
      Netpack), DES, hexadecimal and base64 text (Des, Crypt); SHA-1 and HMAC are
      those of the standards (Sha1); both sides of a key exchange agree (Crypt).
    - Defects.  Where the code goes wrong a theorem shows how: SocketFlaws,
      HarborFlaws, and theorems of Handle, GateSafe, Seri, Des, Crypt, Sha1,
      Sproto and ClusterLink.

    ** Fuel and bounds

    Loops that are not structural take fuel, and the theorems say that the fuel
    given by the model is enough: a bisection or a hash chain needs less than the
    number of entries, the growth of a power of two at most 32 steps, a loop over
    a buffer one more than its bytes, unpacking four times its bytes, the
    exponentiation 64 steps, packing the depth 32 that the code itself checks.
    A write that the operating system interrupts is repeated, so that a call of
    the socket server need not end: its safety theorems hold for every fuel and
    allow [OutOfFuel]; that all data is written in the end is proved with the
    fuel that suffices when the peer goes on reading.
    Sizes that would overflow an [int] are excluded by hypotheses ([small] in
    HarborNet, sizes below 2^31 elsewhere) or are the subject of a theorem.

    ** Not modelled

    - skynet_socket.c passes requests on to the socket server and its results on
      as messages; it has no state but the server.
    - service_logger.c, the writing of skynet_log.c, skynet_main.c and
      skynet_daemon.c are input and output only.
    - service_snlua.c and the bindings lua-skynet.c, lua-socket.c,
      lua-clientsocket.c, lua-multicast.c, lua-stm.c, lua-sharedata.c,
      lua-memory.c, lua-profile.c, lua-debugchannel.c and lsproto.c move values
      between the Lua virtual machine and the functions above; what they do
      depends on that machine, which is third-party code.
    - The schema reader, encoder and decoder of sproto.c call back into Lua for
      every field; lua-bson.c, lua-mongo.c and lua-mysqlaux.c encode the formats
      of databases.
    - malloc_hook.c counts memory; spinlock.h, rwlock.h and atomic.h are compiler
      intrinsics, and what a lock protects is one step here; socket_kqueue.h is
      the poller of other systems.
    - The other Lua scripts, the configuration and the third-party code. *)

From stdpp Require Import prelude list gmap list_numbers.
From Stdlib Require Export ZArith Lia.

Open Scope Z_scope.

(** ** Machine integers

    A C integer is a [Z]; these are the reductions the language performs when a
    value is stored into an object of the given width. *)

Definition u8 (x : Z) : Z := x mod 2 ^ 8.
Definition u16 (x : Z) : Z := x mod 2 ^ 16.
Definition u32 (x : Z) : Z := x mod 2 ^ 32.
Definition u64 (x : Z) : Z := x mod 2 ^ 64.
Definition i32 (x : Z) : Z := (x + 2 ^ 31) mod 2 ^ 32 - 2 ^ 31.
Definition i64 (x : Z) : Z := (x + 2 ^ 63) mod 2 ^ 64 - 2 ^ 63.

Definition is_u32 (x : Z) : Prop := 0 <= x < 2 ^ 32.
Definition is_byte (x : Z) : Prop := 0 <= x < 256.

(** C truth values. *)
Definition c_true (x : Z) : bool := negb (x =? 0).

(** ** Arrays

    [zget]/[zset] index an array with a C [int]: an access outside the array is
    undefined behaviour, which the model reports as [None]. *)

Definition zget {A} (l : list A) (i : Z) : option A :=
  if 0 <=? i then l !! Z.to_nat i else None.

Definition zset {A} (l : list A) (i : Z) (x : A) : option (list A) :=
  if (0 <=? i) && (i <? Z.of_nat (length l)) then Some (<[Z.to_nat i := x]> l) else None.

(** ** Memory blocks

    A block of memory is a list of bytes; the content of a fresh one is unspecified. *)

Definition malloc (size : Z) : list Z := replicate (Z.to_nat size) 0.

(** The [n] bytes at [offset] of a block. *)
Definition copy_out (buffer : list Z) (offset n : Z) : option (list Z) :=
  if (0 <=? offset) && (0 <=? n) && (offset + n <=? Z.of_nat (length buffer))
  then Some (take (Z.to_nat n) (drop (Z.to_nat offset) buffer)) else None.

(** [memcpy (buffer + offset, src, n)] with the [n] first bytes of [src]. *)
Definition memcpy_to (buffer : list Z) (offset : Z) (src : list Z) (n : Z) : option (list Z) :=
  if (0 <=? offset) && (0 <=? n) && (offset + n <=? Z.of_nat (length buffer)) && (n <=? Z.of_nat (length src))
  then Some (take (Z.to_nat offset) buffer ++ take (Z.to_nat n) src ++ drop (Z.to_nat (offset + n)) buffer)
  else None.

(** ** Failure

    Operations that can run into a failed [assert] or an invalid access return
    an [option]; [c_assert b] continues only when [b] holds. *)

Definition c_assert (b : bool) : option unit := if b then Some tt else None.

(** ** Outcomes of functions called from Lua

    A result, a Lua error, an invalid memory access, or a loop cut off by the
    fuel of its model. *)

Inductive outcome (A : Type) := Ret (a : A) | Throw | Stuck | OutOfFuel.
Arguments Ret {_} _.
Arguments Throw {_}.
Arguments Stuck {_}.
Arguments OutOfFuel {_}.

#[export] Instance outcome_bind : MBind outcome := λ A B f m,
  match m with Ret a => f a | Throw => Throw | Stuck => Stuck | OutOfFuel => OutOfFuel end.

Definition lift {A} (o : option A) : outcome A := match o with Some a => Ret a | None => Stuck end.

(** ** Automation *)

Create HintDb skynet discriminated.

(** [bool_prop]: turn the boolean tests of the code in the context into
    propositions [lia] understands. *)
Ltac bool_prop :=
  repeat match goal with
  | H : _ && _ = true |- _ => apply andb_true_iff in H; destruct H
  | H : _ && _ = false |- _ => apply andb_false_iff in H
  | H : _ || _ = true |- _ => apply orb_true_iff in H
  | H : _ || _ = false |- _ => apply orb_false_iff in H; destruct H
  | H : negb _ = true |- _ => apply negb_true_iff in H
  | H : negb _ = false |- _ => apply negb_false_iff in H
  | H : (_ <? _) = true |- _ => apply Z.ltb_lt in H
  | H : (_ <? _) = false |- _ => apply Z.ltb_ge in H
  | H : (_ <=? _) = true |- _ => apply Z.leb_le in H
  | H : (_ <=? _) = false |- _ => apply Z.leb_gt in H
  | H : (_ =? _) = true |- _ => apply Z.eqb_eq in H
  | H : (_ =? _) = false |- _ => apply Z.eqb_neq in H
  end.

(** [case_if]: split on the first boolean test of the goal. *)
Ltac case_if :=
  match goal with
  | |- context [if ?b then _ else _] => destruct b eqn:?; bool_prop
  end.

(** [zify_div]: expose quotients and remainders to [lia]. *)
Ltac zify_div := Z.to_euclidean_division_equations; lia.

(** ** Field assignment

    [r <| f := v |>] is the record [r] with field [f] overwritten, the model of
    the C assignment [r->f = v].  A record becomes assignable by declaring its
    eta expansion; the setter of a field is that expansion with the projection
    replaced. *)

Class Eta (R : Type) := eta_expand : R → R.

Class FieldSet {R T : Type} (f : R → T) := field_set : T → R → R.
Arguments field_set {R T} f {_} / _ _.

Ltac solve_field_set :=
  lazymatch goal with
  | |- @FieldSet ?R ?T ?f =>
    let v := fresh "v" in let r := fresh "r" in
    refine (fun (v : T) (r : R) => _);
    let e := constr:(eta_expand r) in
    let h := lazymatch e with @eta_expand _ ?h _ => h end in
    let e := eval cbv beta delta [h eta_expand] in e in
    lazymatch eval pattern (f r) in e with
    | ?g _ => let t := eval cbv beta in (g v) in exact t
    end
  end.

#[export] Hint Extern 1 (FieldSet _) => solve_field_set : typeclass_instances.

Notation "r <| f := v |>" := (field_set f v r)
  (at level 1, f constr at level 0, v constr at level 200, left associativity,
   format "r  <| f  :=  v |>").

(** ** Lemmas on machine integers *)

Lemma u32_bound x : 0 <= u32 x < 2 ^ 32.
Proof. apply Z.mod_pos_bound. lia. Qed.

Lemma u32_small x : 0 <= x < 2 ^ 32 → u32 x = x.
Proof. apply Z.mod_small. Qed.

Lemma u32_u32 x : u32 (u32 x) = u32 x.
Proof. apply Z.mod_mod. lia. Qed.

Lemma u64_small x : 0 <= x < 2 ^ 64 → u64 x = x.
Proof. apply Z.mod_small. Qed.

Lemma i32_small x : - 2 ^ 31 <= x < 2 ^ 31 → i32 x = x.
Proof. intros. unfold i32. rewrite Z.mod_small; lia. Qed.

Lemma i32_u32 x : - 2 ^ 31 <= x < 2 ^ 31 → i32 (u32 x) = x.
Proof. intros Hx. unfold i32 at 1, u32. rewrite Zplus_mod_idemp_l. by apply i32_small. Qed.

Lemma i64_small x : - 2 ^ 63 <= x < 2 ^ 63 → i64 x = x.
Proof. intros. unfold i64. rewrite Z.mod_small; lia. Qed.

Lemma i32_bound x : - 2 ^ 31 <= i32 x < 2 ^ 31.
Proof. unfold i32. pose proof (Z.mod_pos_bound (x + 2 ^ 31) (2 ^ 32)). lia. Qed.

#[export] Hint Resolve u32_bound i32_bound : skynet.

(** ** Lemmas on array accesses *)

Lemma zget_nat {A} (l : list A) (i : nat) : zget l (Z.of_nat i) = l !! i.
Proof. unfold zget. rewrite (proj2 (Z.leb_le _ _)) by lia. by rewrite Nat2Z.id. Qed.

Lemma zget_lookup {A} (l : list A) i x : zget l i = Some x → l !! Z.to_nat i = Some x.
Proof. unfold zget. by destruct (0 <=? i). Qed.

Lemma zget_Some_lt {A} (l : list A) i x :
  zget l i = Some x → 0 <= i < Z.of_nat (length l).
Proof.
  unfold zget. case_if; [|done]. intros Hl%lookup_lt_Some. lia.
Qed.

Lemma zget_is_Some {A} (l : list A) i :
  0 <= i < Z.of_nat (length l) → ∃ x, zget l i = Some x.
Proof.
  intros [H1 H2]. unfold zget. rewrite (proj2 (Z.leb_le _ _)) by lia.
  apply lookup_lt_is_Some. lia.
Qed.

Lemma zset_Some {A} (l : list A) i x :
  0 <= i < Z.of_nat (length l) → zset l i x = Some (<[Z.to_nat i := x]> l).
Proof.
  intros [H1 H2]. unfold zset.
  by rewrite (proj2 (Z.leb_le _ _)), (proj2 (Z.ltb_lt _ _)) by lia.
Qed.

Lemma zset_inv {A} (l l' : list A) i x :
  zset l i x = Some l' → 0 <= i < Z.of_nat (length l) ∧ l' = <[Z.to_nat i := x]> l.
Proof. unfold zset. case_if; [|done]. intros [= <-]. lia || (split; [lia|done]). Qed.

Lemma zset_length {A} (l l' : list A) i x :
  zset l i x = Some l' → length l' = length l.
Proof. intros [_ ->]%zset_inv. apply length_insert. Qed.

Lemma zget_zset_eq {A} (l l' : list A) i x : zset l i x = Some l' → zget l' i = Some x.
Proof.
  intros [Hi ->]%zset_inv. unfold zget. rewrite (proj2 (Z.leb_le _ _)) by lia.
  apply list_lookup_insert_eq. lia.
Qed.

Lemma zget_zset_ne {A} (l l' : list A) i j x :
  zset l i x = Some l' → i ≠ j → zget l' j = zget l j.
Proof.
  intros [Hi ->]%zset_inv Hne. unfold zget. case_if; [|done].
  apply list_lookup_insert_ne. lia.
Qed.

#[export] Hint Resolve zget_zset_eq zset_length : skynet.

(** ** Lemmas on memory blocks *)

Lemma copy_out_spec buffer offset n :
  0 <= offset → 0 <= n → offset + n <= Z.of_nat (length buffer) →
  copy_out buffer offset n = Some (take (Z.to_nat n) (drop (Z.to_nat offset) buffer)).
Proof.
  intros. unfold copy_out.
  by rewrite (proj2 (Z.leb_le 0 offset)), (proj2 (Z.leb_le 0 n)), (proj2 (Z.leb_le _ _)) by lia.
Qed.

Lemma memcpy_to_spec buffer i src n :
  0 <= i → 0 <= n → i + n <= Z.of_nat (length buffer) → n <= Z.of_nat (length src) →
  memcpy_to buffer i src n
  = Some (take (Z.to_nat i) buffer ++ take (Z.to_nat n) src ++ drop (Z.to_nat (i + n)) buffer).
Proof. intros. unfold memcpy_to. by rewrite !(proj2 (Z.leb_le _ _)) by lia. Qed.

(** ** Lemmas on outcomes *)

Lemma outcome_ret_bind {A B} (a : A) (f : A → outcome B) : (Ret a ≫= f) = f a.
Proof. done. Qed.

(** ** Lemmas on bit masks *)

Lemma land_ones_mod a k : 0 <= k → Z.land a (2 ^ k - 1) = a mod 2 ^ k.
Proof. intros. rewrite Z.sub_1_r, <- Z.ones_equiv. by apply Z.land_ones. Qed.

(** Two numbers agree above bit [k] exactly when or-ing the low mask makes them equal. *)
Lemma lor_ones_eq a b k :
  0 <= k → Z.lor a (2 ^ k - 1) = Z.lor b (2 ^ k - 1) ↔ a / 2 ^ k = b / 2 ^ k.
Proof.
  intros Hk. rewrite !Z.sub_1_r, <- !Z.ones_equiv.
  rewrite <- !(Z.shiftr_div_pow2 _ k) by done. split; intros H; apply Z.bits_inj'; intros n Hn.
  - rewrite !Z.shiftr_spec by done.
    apply (f_equal (λ z, Z.testbit z (n + k))) in H.
    rewrite !Z.lor_spec, !(Z.ones_spec_high k) in H by lia.
    by rewrite !orb_false_r in H.
  - rewrite !Z.lor_spec. destruct (decide (n < k)).
    + rewrite !(Z.ones_spec_low k) by lia. by rewrite !orb_true_r.
    + rewrite !(Z.ones_spec_high k) by lia.
      apply (f_equal (λ z, Z.testbit z (n - k))) in H.
      rewrite !Z.shiftr_spec in H by lia. rewrite !Z.sub_add in H. by rewrite H.
Qed.

(** Or-ing a tag above bit [k] onto a number below it is an addition. *)
Lemma lor_add_high a b k : 0 <= k → 0 <= a < 2 ^ k → Z.lor a (b * 2 ^ k) = a + b * 2 ^ k.
Proof.
  intros Hk Ha. rewrite <- Z.shiftl_mul_pow2 by done.
  assert (Hz : Z.land a (Z.shiftl b k) = 0).
  { apply Z.bits_inj'. intros n Hn. rewrite Z.land_spec, Z.bits_0.
    destruct (decide (n < k)).
    - rewrite (Z.shiftl_spec_low b k n) by lia. apply andb_false_r.
    - rewrite <- (Z.mod_small a (2 ^ k)) by done.
      rewrite Z.mod_pow2_bits_high by lia. done. }
  rewrite Z.add_nocarry_lxor by done. symmetry. by apply Z.lxor_lor.
Qed.

(** A property of the integers below a bound, checked by computation. *)
Lemma forall_below n (Q : Z → bool) x :
  forallb Q (seqZ 0 n) = true → 0 <= x < n → Q x = true.
Proof. intros H Hx. rewrite forallb_forall in H. apply H, list_elem_of_In, elem_of_seqZ. lia. Qed.

(** ** Lemmas on lists *)

Lemma NoDup_sub {A} (l k : list A) : l ⊆+ k → NoDup k → NoDup l.
Proof. intros [k' ->]%submseteq_Permutation Hk. by apply NoDup_app in Hk as [? _]. Qed.

(** ** Ring buffers

    A ring of [cap] cells holds the list [l] from position [head] on; a cell
    that was never written is [None]. *)

Definition ring {A} (cells : list (option A)) (head cap : Z) (l : list A) : Prop :=
  ∀ i x, l !! i = Some x → zget cells ((head + Z.of_nat i) mod cap) = Some (Some x).

(** Positions in a ring of size [c], without the division. *)
Lemma ring_index c h i :
  0 <= h < c → 0 <= i <= c →
  (h + i) mod c = if h + i <? c then h + i else h + i - c.
Proof.
  intros. case_if.
  - apply Z.mod_small. lia.
  - replace (h + i) with (h + i - c + 1 * c) at 1 by lia.
    rewrite Z.mod_add by lia. apply Z.mod_small. lia.
Qed.

Ltac ring_solve :=
  repeat (rewrite ring_index by lia); repeat case_if; bool_prop; lia.

Lemma ring_pop {A} (cells : list (option A)) h c x l :
  0 <= h < c → ring cells h c (x :: l) →
  zget cells h = Some (Some x) ∧ ring cells ((h + 1) mod c) c l.
Proof.
  intros Hh Hr. split.
  - rewrite <- (Hr 0%nat x eq_refl), Z.add_0_r, Z.mod_small by lia. done.
  - intros i y Hi. rewrite Zplus_mod_idemp_l, <- Z.add_assoc.
    replace (1 + Z.of_nat i) with (Z.of_nat (S i)) by lia. by apply Hr.
Qed.

Lemma ring_push {A} (cells cells' : list (option A)) h c x l :
  0 <= h < c → Z.of_nat (length l) < c →
  zset cells ((h + Z.of_nat (length l)) mod c) (Some x) = Some cells' →
  ring cells h c l → ring cells' h c (l ++ [x]).
Proof.
  intros Hh Hl Hset Hr i y Hi. apply lookup_app_Some in Hi as [Hi | [Hge Hi]].
  - rewrite (zget_zset_ne _ _ _ _ _ Hset); [by apply Hr|].
    apply lookup_lt_Some in Hi. ring_solve.
  - apply list_lookup_singleton_Some in Hi as [Hi <-].
    replace i with (length l) by lia. by apply (zget_zset_eq _ _ _ _ Hset).
Qed.

(** Copying a ring out, cell by cell. *)
Lemma ring_read {A} (cells : list (option A)) h c l (f : Z → Z) n :
  0 < c → Z.of_nat (length l) = n → (∀ i, 0 <= i → f i = (h + i) mod c) → ring cells h c l →
  mapM (λ i, zget cells (f i)) (seqZ 0 n) = Some (Some <$> l).
Proof.
  intros Hc Hn Hf Hr. apply mapM_Some_2. apply Forall2_same_length_lookup_2.
  { rewrite length_fmap, length_seqZ. lia. }
  intros i z x Hz Hx. apply lookup_seqZ in Hz as [-> Hlt].
  apply list_lookup_fmap_Some in Hx as (y & -> & Hy).
  rewrite Hf by lia. by apply Hr.
Qed.

Lemma ring_laid_out {A} (l : list A) rest c :
  Z.of_nat (length l) <= c → ring ((Some <$> l) ++ rest) 0 c l.
Proof.
  intros Hl i x Hi. pose proof (lookup_lt_Some _ _ _ Hi).
  rewrite Z.mod_small, ?Z.add_0_l by lia.
  rewrite zget_nat, lookup_app_l by (rewrite length_fmap; lia).
  by rewrite list_lookup_fmap, Hi.
Qed.
