(* ===== verification/Skynet.v ===== *)
(** * Constants of the interface headers

    The message types of skynet.h, the socket message types of
    skynet_socket.h and the sizes of skynet_harbor.h and skynet_mq.h, shared by
    the node and the services written in C. *)

From S2P Require Import Prelude.

(** ** Message types (skynet.h) *)

Definition PTYPE_TEXT : Z := 0.
Definition PTYPE_RESPONSE : Z := 1.
Definition PTYPE_CLIENT : Z := 3.
Definition PTYPE_SYSTEM : Z := 4.
Definition PTYPE_HARBOR : Z := 5.
Definition PTYPE_SOCKET : Z := 6.
Definition PTYPE_ERROR : Z := 7.
Definition PTYPE_TAG_DONTCOPY : Z := 0x10000.
Definition PTYPE_TAG_ALLOCSESSION : Z := 0x20000.

(** ** Message sizes (skynet_mq.h) *)

Definition MESSAGE_TYPE_SHIFT : Z := 56.
Definition MESSAGE_TYPE_MASK : Z := 2 ^ 56 - 1.

(** ** Remote messages (skynet_harbor.h) *)

Definition GLOBALNAME_LENGTH : Z := 16.
Definition REMOTE_MAX : Z := 256.
Definition SIZEOF_REMOTE_MESSAGE : Z := 40.

(** ** Socket messages (skynet_socket.h) *)

Definition SKYNET_SOCKET_TYPE_DATA : Z := 1.
Definition SKYNET_SOCKET_TYPE_CONNECT : Z := 2.
Definition SKYNET_SOCKET_TYPE_CLOSE : Z := 3.
Definition SKYNET_SOCKET_TYPE_ACCEPT : Z := 4.
Definition SKYNET_SOCKET_TYPE_ERROR : Z := 5.
Definition SKYNET_SOCKET_TYPE_UDP : Z := 6.
Definition SKYNET_SOCKET_TYPE_WARNING : Z := 7.
