(* ===== verification/MQ.v ===== *)
(** * Message queues (skynet-src/skynet_mq.c)

    Every service owns a [message_queue], a ring buffer that doubles when it
    fills up; queues that have work are linked through their [next] pointers
    into one global run queue.  The file models the queues as objects of a
    heap, with the pointer manipulations of the C code, and shows that
    - one queue behaves as a FIFO list of messages,
    - the linked run queue behaves as a list of queues. *)

From stdpp Require Import prelude list gmap list_numbers.
From S2P Require Import Prelude.

(** ** Data *)

(** Addresses; a null pointer is [None]. *)
Abbreviation ptr := positive (only parsing).

(** [struct skynet_message]: the two low fields identify the sender, [data] is
    the payload pointer (0 is NULL) and the high byte of [sz] is its type. *)
Record skynet_message := mkMsg {
  msg_source : Z;
  msg_session : Z;
  msg_data : Z;
  msg_sz : Z
}.

#[export] Instance skynet_message_eq_dec : EqDecision skynet_message.
Proof. solve_decision. Defined.

#[export] Instance eta_skynet_message : Eta skynet_message :=
  λ m, mkMsg (msg_source m) (msg_session m) (msg_data m) (msg_sz m).

Definition DEFAULT_QUEUE_SIZE : Z := 64.
Definition MQ_IN_GLOBAL : Z := 1.
Definition MQ_OVERLOAD : Z := 1024.

(** [struct message_queue].  The cells of the [queue] array that were never
    written since [malloc] are [None]. *)
Record message_queue := mkMQ {
  mq_handle : Z;
  mq_cap : Z;
  mq_head : Z;
  mq_tail : Z;
  mq_release : Z;
  mq_in_global : Z;
  mq_overload : Z;
  mq_overload_threshold : Z;
  mq_queue : list (option skynet_message);
  mq_next : option ptr
}.

#[export] Instance eta_message_queue : Eta message_queue :=
  λ q, mkMQ (mq_handle q) (mq_cap q) (mq_head q) (mq_tail q) (mq_release q)
            (mq_in_global q) (mq_overload q) (mq_overload_threshold q)
            (mq_queue q) (mq_next q).

(** The heap of queues, and [struct global_queue *Q]. *)
Record mqs := mkMqs {
  mq_heap : gmap ptr message_queue;
  Q_head : option ptr;
  Q_tail : option ptr
}.

#[export] Instance eta_mqs : Eta mqs := λ s, mkMqs (mq_heap s) (Q_head s) (Q_tail s).

(** ** The run queue *)

Definition skynet_globalmq_push (p : ptr) (s : mqs) : option mqs :=
  queue ← mq_heap s !! p;
  _ ← c_assert (bool_decide (mq_next queue = None));
  match Q_tail s with
  | Some t =>
      tq ← mq_heap s !! t;
      Some (s <| mq_heap := <[t := tq <| mq_next := Some p |>]> (mq_heap s) |>
              <| Q_tail := Some p |>)
  | None => Some (s <| Q_head := Some p |> <| Q_tail := Some p |>)
  end.

Definition skynet_globalmq_pop (s : mqs) : option (option ptr * mqs) :=
  match Q_head s with
  | None => Some (None, s)
  | Some p =>
      mq ← mq_heap s !! p;
      tail ← (match mq_next mq with
              | None => _ ← c_assert (bool_decide (Q_tail s = Some p)); Some None
              | Some _ => Some (Q_tail s)
              end);
      Some (Some p, mkMqs (<[p := mq <| mq_next := None |>]> (mq_heap s))
                          (mq_next mq) tail)
  end.

(** ** One queue *)

(** A queue as [skynet_mq_create] initialises it. *)
Definition mq_fresh (handle : Z) : message_queue :=
  mkMQ handle DEFAULT_QUEUE_SIZE 0 0 0 MQ_IN_GLOBAL 0 MQ_OVERLOAD
       (replicate (Z.to_nat DEFAULT_QUEUE_SIZE) None) None.

(** [p] is the address [malloc] returned: no live queue has it. *)
Definition skynet_mq_create (p : ptr) (handle : Z) (s : mqs) : option mqs :=
  _ ← c_assert (bool_decide (mq_heap s !! p = None));
  Some (s <| mq_heap := <[p := mq_fresh handle]> (mq_heap s) |>).

Definition _release (p : ptr) (s : mqs) : option mqs :=
  q ← mq_heap s !! p;
  _ ← c_assert (bool_decide (mq_next q = None));
  Some (s <| mq_heap := delete p (mq_heap s) |>).

Definition skynet_mq_length (q : message_queue) : Z :=
  if mq_head q <=? mq_tail q then mq_tail q - mq_head q
  else mq_tail q + mq_cap q - mq_head q.

Definition skynet_mq_overload (q : message_queue) : Z * message_queue :=
  if c_true (mq_overload q) then (mq_overload q, q <| mq_overload := 0 |>) else (0, q).

(** [while (length > q->overload_threshold) ...]: the pair is
    [(overload, overload_threshold)].  An [int] doubles at most 31 times, so
    [fuel = 32] iterations are enough (lemma [overload_loop_spec]). *)
Fixpoint overload_loop (fuel : nat) (length : Z) (st : Z * Z) : option (Z * Z) :=
  match fuel with
  | O => None
  | S fuel =>
      if length >? st.2 then overload_loop fuel length (length, i32 (st.2 * 2))
      else Some st
  end.

(** [skynet_mq_pop]: [None] in the result stands for the return value 1. *)
Definition skynet_mq_pop (q : message_queue) : option (option skynet_message * message_queue) :=
  if negb (mq_head q =? mq_tail q) then
    cell ← zget (mq_queue q) (mq_head q);
    message ← cell;
    let head := if mq_head q + 1 >=? mq_cap q then 0 else mq_head q + 1 in
    let length := mq_tail q - head in
    let length := if length <? 0 then length + mq_cap q else length in
    '(overload, threshold) ← overload_loop 32 length (mq_overload q, mq_overload_threshold q);
    Some (Some message, q <| mq_head := head |> <| mq_overload := overload |>
                          <| mq_overload_threshold := threshold |>)
  else
    Some (None, q <| mq_overload_threshold := MQ_OVERLOAD |> <| mq_in_global := 0 |>).

Definition expand_queue (q : message_queue) : option message_queue :=
  cells ← mapM (λ i, zget (mq_queue q) (Z.rem (mq_head q + i) (mq_cap q))) (seqZ 0 (mq_cap q));
  Some (q <| mq_queue := cells ++ replicate (Z.to_nat (mq_cap q)) None |>
          <| mq_head := 0 |> <| mq_tail := mq_cap q |> <| mq_cap := i32 (mq_cap q * 2) |>).

(** The part of [skynet_mq_push] that touches only the queue's own ring. *)
Definition mq_enqueue (message : skynet_message) (q : message_queue) : option message_queue :=
  cells ← zset (mq_queue q) (mq_tail q) (Some message);
  let tail := if mq_tail q + 1 >=? mq_cap q then 0 else mq_tail q + 1 in
  let q := q <| mq_queue := cells |> <| mq_tail := tail |> in
  if mq_head q =? mq_tail q then expand_queue q else Some q.

(** ** Operations through the heap *)

Definition skynet_mq_push (p : ptr) (message : skynet_message) (s : mqs) : option mqs :=
  q ← mq_heap s !! p;
  q ← mq_enqueue message q;
  if mq_in_global q =? 0 then
    skynet_globalmq_push p
      (s <| mq_heap := <[p := q <| mq_in_global := MQ_IN_GLOBAL |>]> (mq_heap s) |>)
  else Some (s <| mq_heap := <[p := q]> (mq_heap s) |>).

Definition mq_pop_at (p : ptr) (s : mqs) : option (option skynet_message * mqs) :=
  q ← mq_heap s !! p;
  '(r, q) ← skynet_mq_pop q;
  Some (r, s <| mq_heap := <[p := q]> (mq_heap s) |>).

Definition skynet_mq_init : mqs := mkMqs ∅ None None.

Definition skynet_mq_mark_release (p : ptr) (s : mqs) : option mqs :=
  q ← mq_heap s !! p;
  _ ← c_assert (mq_release q =? 0);
  let s := s <| mq_heap := <[p := q <| mq_release := 1 |>]> (mq_heap s) |> in
  if negb (mq_in_global q =? MQ_IN_GLOBAL) then skynet_globalmq_push p s else Some s.

(** [_drop_queue] and [skynet_mq_release] call back into the server: the
    callback works on the server's state [St], of which the queues are a part
    read by [mq_of] and written by [with_mq]. *)
Section drop.
Context {St : Type} (mq_of : St → mqs) (with_mq : mqs → St → St).
Context (drop_func : skynet_message → St → option St).

Fixpoint drop_loop (fuel : nat) (p : ptr) (st : St) : option St :=
  match fuel with
  | O => None
  | S fuel =>
      '(r, s) ← mq_pop_at p (mq_of st);
      let st := with_mq s st in
      match r with
      | Some msg => st ← drop_func msg st; drop_loop fuel p st
      | None => Some st
      end
  end.

Definition _drop_queue (p : ptr) (st : St) : option St :=
  q ← mq_heap (mq_of st) !! p;
  st ← drop_loop (S (Z.to_nat (skynet_mq_length q))) p st;
  s ← _release p (mq_of st);
  Some (with_mq s st).

Definition skynet_mq_release (p : ptr) (st : St) : option St :=
  q ← mq_heap (mq_of st) !! p;
  if c_true (mq_release q) then _drop_queue p st
  else s ← skynet_globalmq_push p (mq_of st); Some (with_mq s st).
End drop.

(** ** The ring buffer is a FIFO list *)

(** [mq_repr q l]: the queue [q] holds exactly the messages [l], oldest first. *)
Record mq_repr (q : message_queue) (l : list skynet_message) : Prop := {
  repr_cap : 0 < mq_cap q < 2 ^ 31;
  repr_cells : Z.of_nat (length (mq_queue q)) = mq_cap q;
  repr_head : 0 <= mq_head q < mq_cap q;
  repr_len : Z.of_nat (length l) < mq_cap q;
  repr_tail : mq_tail q = (mq_head q + Z.of_nat (length l)) mod mq_cap q;
  repr_items : ring (mq_queue q) (mq_head q) (mq_cap q) l;
  repr_threshold : 0 < mq_overload_threshold q < 2 ^ 31
}.

Lemma mq_fresh_repr handle : mq_repr (mq_fresh handle) [].
Proof.
  split; simpl; unfold DEFAULT_QUEUE_SIZE, MQ_OVERLOAD; try done; lia.
Qed.

Lemma mq_repr_length q l : mq_repr q l → skynet_mq_length q = Z.of_nat (length l).
Proof.
  intros []. unfold skynet_mq_length. rewrite repr_tail0. ring_solve.
Qed.

Lemma mq_repr_empty q l : mq_repr q l → (mq_head q =? mq_tail q) = true ↔ l = [].
Proof.
  intros []. rewrite repr_tail0, Z.eqb_eq. split; [|intros ->; simpl in *; ring_solve].
  destruct l; [done|]. simpl length in *. ring_solve.
Qed.

(** The overload loop stops, records the length when it exceeded the threshold,
    and leaves a threshold that covers the length. *)
Lemma overload_loop_spec fuel len ov th :
  0 < th < 2 ^ 31 → len < 2 ^ 30 → len <= th * 2 ^ Z.of_nat fuel →
  ∃ th', overload_loop (S fuel) len (ov, th) = Some (if len >? th then len else ov, th')
       ∧ 0 < th' < 2 ^ 31 ∧ len <= th' ∧ th <= th' ∧ (th' = th ∨ th' < 2 * len).
Proof.
  revert ov th. induction fuel as [|fuel IH]; intros ov th Hth Hlen Hf.
  { exists th. simpl. rewrite Z.gtb_ltb. case_if; simpl in *; [lia|]. split; [done|]. lia. }
  remember (S fuel) as n. simpl. rewrite Z.gtb_ltb. case_if.
  - subst n. rewrite i32_small by lia.
    destruct (IH len (th * 2)) as (th' & -> & ? & ? & ? & ?); try lia.
    { rewrite Nat2Z.inj_succ, Z.pow_succ_r in Hf by lia. lia. }
    exists th'. split; [by destruct (len >? th * 2)|]. lia.
  - exists th. split; [done|]. lia.
Qed.

Arguments overload_loop : simpl never.

Lemma skynet_mq_pop_spec q l :
  mq_repr q l → Z.of_nat (length l) < 2 ^ 30 →
  match l with
  | [] => skynet_mq_pop q =
            Some (None, q <| mq_overload_threshold := MQ_OVERLOAD |> <| mq_in_global := 0 |>)
          ∧ mq_repr (q <| mq_overload_threshold := MQ_OVERLOAD |> <| mq_in_global := 0 |>) []
  | m :: l' => ∃ q', skynet_mq_pop q = Some (Some m, q') ∧ mq_repr q' l'
      ∧ mq_in_global q' = mq_in_global q ∧ mq_next q' = mq_next q
      ∧ mq_handle q' = mq_handle q ∧ mq_release q' = mq_release q
      ∧ mq_overload q' = (if Z.of_nat (length l') >? mq_overload_threshold q
                          then Z.of_nat (length l') else mq_overload q)
      ∧ Z.of_nat (length l') <= mq_overload_threshold q'
  end.
Proof.
  intros Hq Hlen. unfold skynet_mq_pop. pose proof (mq_repr_empty _ _ Hq) as He.
  destruct l as [|m l'].
  { rewrite (proj2 He) by done. split; [done|].
    destruct Hq; split; simpl in *; unfold MQ_OVERLOAD; done || lia. }
  destruct (mq_head q =? mq_tail q); [destruct He; naive_solver|]. clear He.
  destruct Hq. destruct (ring_pop _ _ _ _ _ repr_head0 repr_items0) as [Hi Hitems]. simpl.
  rewrite Hi. simpl.
  set (head := if _ >=? _ then _ else _).
  simpl length in repr_tail0, repr_len0, Hlen.
  assert (Hh : head = (mq_head q + 1) mod mq_cap q).
  { unfold head. rewrite Z.geb_leb, ring_index by lia. repeat case_if; lia. }
  assert (Hhb : 0 <= head < mq_cap q) by (rewrite Hh; apply Z.mod_pos_bound; lia).
  assert (Ht : mq_tail q = (head + Z.of_nat (length l')) mod mq_cap q).
  { rewrite Hh, Zplus_mod_idemp_l, repr_tail0. f_equal. lia. }
  replace (if _ <? 0 then _ else _) with (Z.of_nat (length l'))
    by (rewrite Ht; ring_solve).
  destruct (overload_loop_spec 31 (Z.of_nat (length l')) (mq_overload q)
              (mq_overload_threshold q)) as (th' & -> & ? & ? & ? & _); [lia..|].
  simpl. eexists; split; [done|]. split; [|by split_and!].
  split; simpl; auto; [lia|]. by rewrite Hh.
Qed.

(** [expand_queue] on a full ring lays the messages out from index 0. *)
Lemma expand_queue_spec q l :
  0 < mq_cap q < 2 ^ 30 → Z.of_nat (length (mq_queue q)) = mq_cap q →
  0 <= mq_head q < mq_cap q → Z.of_nat (length l) = mq_cap q →
  0 < mq_overload_threshold q < 2 ^ 31 →
  ring (mq_queue q) (mq_head q) (mq_cap q) l →
  expand_queue q = Some (q <| mq_queue := (Some <$> l) ++ replicate (Z.to_nat (mq_cap q)) None |>
     <| mq_head := 0 |> <| mq_tail := mq_cap q |> <| mq_cap := mq_cap q * 2 |>).
Proof.
  intros Hcap Hq Hh Hl _ Hitems. unfold expand_queue.
  rewrite (ring_read _ (mq_head q) (mq_cap q) l); try done; try lia.
  { simpl. rewrite i32_small by lia. done. }
  intros i Hi. apply Z.rem_mod_nonneg; lia.
Qed.

Lemma mq_enqueue_spec q l m :
  mq_repr q l → Z.of_nat (length l) + 1 < 2 ^ 30 →
  ∃ q', mq_enqueue m q = Some q' ∧ mq_repr q' (l ++ [m])
    ∧ mq_in_global q' = mq_in_global q ∧ mq_next q' = mq_next q
    ∧ mq_handle q' = mq_handle q ∧ mq_release q' = mq_release q.
Proof.
  intros [] Hlen. unfold mq_enqueue.
  set (n := Z.of_nat (length l)) in *.
  assert (Htb : 0 <= mq_tail q < mq_cap q) by (rewrite repr_tail0; apply Z.mod_pos_bound; lia).
  rewrite zset_Some by lia. simpl.
  set (cells := <[_ := _]> _). set (tail := if _ >=? _ then _ else _).
  assert (Ht : tail = (mq_head q + (n + 1)) mod mq_cap q).
  { unfold tail. rewrite Z.geb_leb, Z.add_assoc, <- Zplus_mod_idemp_l, <- repr_tail0.
    rewrite ring_index by lia. repeat case_if; lia. }
  assert (Hset : zset (mq_queue q) (mq_tail q) (Some m) = Some cells)
    by (apply zset_Some; lia).
  assert (Hitems : ring cells (mq_head q) (mq_cap q) (l ++ [m])).
  { rewrite repr_tail0 in Hset. by apply (ring_push (mq_queue q)). }
  assert (Hcl : Z.of_nat (length cells) = mq_cap q) by (unfold cells; rewrite length_insert; lia).
  assert (Hal : Z.of_nat (length (l ++ [m])) = n + 1) by (rewrite length_app; simpl; lia).
  case_if.
  - assert (n + 1 = mq_cap q) by (rewrite Ht in *; revert Heqb; ring_solve).
    rewrite (expand_queue_spec _ (l ++ [m])); simpl; try done; try lia.
    eexists; split; [done|]. split; [|done].
    split; simpl; try lia.
    + rewrite length_app, length_fmap, length_replicate. lia.
    + rewrite Hal, Z.mod_small; lia.
    + apply ring_laid_out. lia.
  - eexists; split; [done|]. split; [|done].
    assert (n + 1 ≠ mq_cap q).
    { intros Hn. apply Heqb. rewrite Ht, Hn. symmetry. ring_solve. }
    split; simpl; auto; try lia. by rewrite Hal.
Qed.

(** *** The queue against its specification *)

Inductive mq_op := op_push (m : skynet_message) | op_pop.

(** What a client of the queue observes: the result of each [skynet_mq_pop]. *)
Fixpoint mq_run (ops : list mq_op) (q : message_queue)
    : option (list (option skynet_message) * message_queue) :=
  match ops with
  | [] => Some ([], q)
  | op_push m :: ops => q ← mq_enqueue m q; mq_run ops q
  | op_pop :: ops => '(r, q) ← skynet_mq_pop q; '(rs, q) ← mq_run ops q; Some (r :: rs, q)
  end.

(** The abstract queue: a list, pushed at the end and popped at the front. *)
Fixpoint fifo_run (ops : list mq_op) (l : list skynet_message)
    : list (option skynet_message) * list skynet_message :=
  match ops with
  | [] => ([], l)
  | op_push m :: ops => fifo_run ops (l ++ [m])
  | op_pop :: ops => let '(rs, l') := fifo_run ops (tail l) in (head l :: rs, l')
  end.

Lemma mq_run_refines ops q l :
  mq_repr q l → Z.of_nat (length l) + Z.of_nat (length ops) < 2 ^ 30 →
  ∃ q', mq_run ops q = Some ((fifo_run ops l).1, q') ∧ mq_repr q' (fifo_run ops l).2.
Proof.
  revert q l. induction ops as [|[m|] ops IH]; intros q l Hq Hlen; simpl length in Hlen.
  - by exists q.
  - destruct (mq_enqueue_spec q l m) as (q1 & He & Hq1 & _); [done|lia|].
    simpl. rewrite He. simpl. apply IH; [done|]. rewrite length_app. simpl. lia.
  - simpl. pose proof (skynet_mq_pop_spec q l Hq ltac:(lia)) as Hp.
    destruct l as [|m l'].
    + destruct Hp as [-> Hq1]. simpl in *.
      destruct (IH _ [] Hq1) as (q2 & -> & Hq2); [simpl; lia|].
      simpl. destruct (fifo_run ops []); simpl in *. by exists q2.
    + destruct Hp as (q1 & -> & Hq1 & _). simpl.
      destruct (IH _ l' Hq1) as (q2 & -> & Hq2); [simpl in *; lia|].
      simpl. destruct (fifo_run ops l'); simpl in *. by exists q2.
Qed.

(** C1. A service's message queue is a FIFO: for any sequence of pushes and
    pops on a queue fresh from [skynet_mq_create] (fewer than 2^30 of them, so
    that the [int] capacity cannot overflow) no operation fails or reads an
    unwritten cell, across every wrap-around and every [expand_queue], the pops
    return exactly what a list queue returns, and the ring then holds exactly
    the remaining messages in order. *)
Theorem mq_is_fifo ops handle :
  Z.of_nat (length ops) < 2 ^ 30 →
  ∃ q', mq_run ops (mq_fresh handle) = Some ((fifo_run ops []).1, q')
      ∧ mq_repr q' (fifo_run ops []).2.
Proof. intros H. apply mq_run_refines; [apply mq_fresh_repr|simpl; lia]. Qed.

Lemma mq_is_fifo_witness :
  ∃ q', mq_run [op_push (mkMsg 1 0 0 0); op_push (mkMsg 2 0 0 0); op_pop; op_pop; op_pop]
               (mq_fresh 7)
        = Some ([Some (mkMsg 1 0 0 0); Some (mkMsg 2 0 0 0); None], q') ∧ mq_repr q' [].
Proof.
  apply (mq_is_fifo [op_push (mkMsg 1 0 0 0); op_push (mkMsg 2 0 0 0); op_pop; op_pop; op_pop] 7).
  reflexivity.
Defined.

(** ** The run queue is a list of queues *)

(** [lseg h p l]: following [next] from [p] visits exactly the queues [l]. *)
Fixpoint lseg (h : gmap ptr message_queue) (p : option ptr) (l : list ptr) : Prop :=
  match l with
  | [] => p = None
  | x :: l' => p = Some x ∧ ∃ q, h !! x = Some q ∧ lseg h (mq_next q) l'
  end.

Record run_queue (s : mqs) (l : list ptr) : Prop := {
  rq_seg : lseg (mq_heap s) (Q_head s) l;
  rq_nodup : NoDup l;
  rq_tail : Q_tail s = last l;
  rq_off : ∀ p q, mq_heap s !! p = Some q → p ∉ l → mq_next q = None
}.

(** A heap with its links forgotten: what the run queue operations must not change. *)
Definition unlink (q : message_queue) : message_queue := q <| mq_next := None |>.
Definition queues_of (s : mqs) : gmap ptr message_queue := unlink <$> mq_heap s.

Lemma lseg_insert_notin h p l x q : x ∉ l → lseg h p l → lseg (<[x := q]> h) p l.
Proof.
  revert p. induction l as [|y l IH]; intros p; simpl; [done|].
  rewrite not_elem_of_cons. intros [Hxy Hx] [-> (qy & Hqy & Hl)].
  split; [done|]. exists qy. rewrite lookup_insert_ne by done. auto.
Qed.

Lemma lseg_dom h p l x : lseg h p l → x ∈ l → is_Some (h !! x).
Proof.
  revert p. induction l as [|y l IH]; intros p; simpl; [by rewrite elem_of_nil|].
  intros [-> (q & Hq & Hl)] [->|Hx]%elem_of_cons; eauto.
Qed.

(** Overwriting the fields of a queue other than [next] keeps every segment. *)
Lemma lseg_update h p l x q q' :
  h !! x = Some q → mq_next q' = mq_next q → lseg h p l → lseg (<[x := q']> h) p l.
Proof.
  intros Hq Hn. revert p. induction l as [|y l IH]; intros p; simpl; [done|].
  intros [-> (qy & Hqy & Hl)]. split; [done|]. destruct (decide (x = y)) as [->|Hxy].
  - exists q'. rewrite lookup_insert_eq. simplify_eq. rewrite Hn. auto.
  - exists qy. rewrite lookup_insert_ne by done. auto.
Qed.

Lemma lseg_snoc h p l t tq x qx :
  NoDup (l ++ [t]) → x ∉ l ++ [t] →
  h !! t = Some tq → h !! x = Some qx → mq_next qx = None →
  lseg h p (l ++ [t]) → lseg (<[t := tq <| mq_next := Some x |>]> h) p (l ++ [t; x]).
Proof.
  intros Hnd Hx Ht Hqx Hn. revert p. induction l as [|y l IH]; intros p; simpl.
  - intros [-> _]. split; [done|]. eexists. rewrite lookup_insert_eq. split; [done|].
    simpl. split; [done|]. exists qx. rewrite lookup_insert_ne; [done|set_solver].
  - intros [-> (qy & Hqy & Hl)]. apply NoDup_cons in Hnd as [Hy Hnd].
    split; [done|]. exists qy. rewrite lookup_insert_ne by set_solver. split; [done|].
    apply IH; [done|set_solver|done].
Qed.

Lemma run_queue_live s l p : run_queue s l → p ∈ l → is_Some (mq_heap s !! p).
Proof. intros []. eauto using lseg_dom. Qed.

Lemma run_queue_update s l p q q' :
  run_queue s l → mq_heap s !! p = Some q → mq_next q' = mq_next q →
  run_queue (s <| mq_heap := <[p := q']> (mq_heap s) |>) l.
Proof.
  intros [] Hq Hn. split; simpl; eauto using lseg_update.
  intros x qx [[-> <-]|[_ Hx]]%lookup_insert_Some; [rewrite Hn|]; eauto.
Qed.

Lemma run_queue_create s l p handle :
  run_queue s l → mq_heap s !! p = None →
  run_queue (s <| mq_heap := <[p := mq_fresh handle]> (mq_heap s) |>) l.
Proof.
  intros Hr Hp. assert (p ∉ l) by (intros Hl; destruct (run_queue_live _ _ _ Hr Hl); congruence).
  destruct Hr. split; simpl; eauto using lseg_insert_notin.
  intros x qx [[-> <-]|[_ Hx]]%lookup_insert_Some; eauto.
Qed.

Lemma skynet_globalmq_push_spec s l p :
  run_queue s l → is_Some (mq_heap s !! p) → p ∉ l →
  ∃ s', skynet_globalmq_push p s = Some s' ∧ run_queue s' (l ++ [p])
      ∧ queues_of s' = queues_of s.
Proof.
  intros [Hseg Hnd Htl Hoff] [qp Hp] Hl. unfold skynet_globalmq_push. rewrite Hp. simpl.
  rewrite bool_decide_eq_true_2 by eauto. simpl. rewrite Htl.
  destruct l as [|t l _] using rev_ind.
  - simpl in *. eexists; split; [done|]. split; [|done]. split; simpl; eauto using NoDup_singleton.
    intros x qx Hx Hnx. apply (Hoff x); set_solver.
  - rewrite last_snoc.
    destruct (lseg_dom _ _ _ t Hseg) as [tq Ht]; [set_solver|]. rewrite Ht. simpl.
    eexists; split; [done|]. split.
    + split; simpl.
      * rewrite <- app_assoc. simpl. eapply lseg_snoc; eauto.
      * apply NoDup_app; split_and!; [done|set_solver|apply NoDup_singleton].
      * by rewrite last_snoc.
      * intros x qx [[-> <-]|[_ Hx]]%lookup_insert_Some Hnx; [set_solver|].
        apply (Hoff x); set_solver.
    + unfold queues_of. simpl. rewrite fmap_insert. apply insert_id.
      by rewrite lookup_fmap, Ht.
Qed.

Lemma skynet_globalmq_pop_spec s l :
  run_queue s l →
  ∃ s', skynet_globalmq_pop s = Some (head l, s') ∧ run_queue s' (tail l)
      ∧ queues_of s' = queues_of s.
Proof.
  intros [Hseg Hnd Htl Hoff]. unfold skynet_globalmq_pop.
  destruct l as [|p l]; simpl in Hseg.
  { rewrite Hseg. by exists s. }
  destruct Hseg as [-> (q & Hq & Hl)]. rewrite Hq. simpl.
  apply NoDup_cons in Hnd as [Hp Hnd].
  assert (Hqs : ∀ h t, queues_of (mkMqs (<[p := q <| mq_next := None |>]> (mq_heap s)) h t)
                = queues_of s).
  { intros. unfold queues_of. simpl. rewrite fmap_insert. apply insert_id.
    by rewrite lookup_fmap, Hq. }
  assert (Hoff' : ∀ x qx, <[p := q <| mq_next := None |>]> (mq_heap s) !! x = Some qx →
                  x ∉ l → mq_next qx = None).
  { intros x qx [[-> <-]|[? Hx]]%lookup_insert_Some Hnx; [done|].
    apply (Hoff x); set_solver. }
  destruct l as [|p' l]; simpl in Hl.
  - rewrite Hl, Htl. simpl. rewrite bool_decide_eq_true_2 by done. simpl.
    eexists; split; [done|]. split; [|apply Hqs]. by split.
  - destruct Hl as [Hn Hl]. rewrite Hn. simpl. eexists; split; [done|].
    split; [|apply Hqs]. split; simpl; auto.
    by apply (lseg_insert_notin _ _ (p' :: l)).
Qed.

Lemma mq_repr_unlink q l : mq_repr (unlink q) l ↔ mq_repr q l.
Proof. split; intros []; by split. Qed.

Lemma queues_of_lookup s p q : mq_heap s !! p = Some q → queues_of s !! p = Some (unlink q).
Proof. intros H. unfold queues_of. by rewrite lookup_fmap, H. Qed.

Lemma queues_of_inv s p q :
  queues_of s !! p = Some q → ∃ q0, mq_heap s !! p = Some q0 ∧ q = unlink q0.
Proof.
  unfold queues_of. rewrite lookup_fmap. destruct (mq_heap s !! p); simpl; [|done].
  intros [= <-]. eauto.
Qed.

Lemma queues_of_insert s p q :
  queues_of (s <| mq_heap := <[p := q]> (mq_heap s) |>) = <[p := unlink q]> (queues_of s).
Proof. unfold queues_of. simpl. by rewrite fmap_insert. Qed.

#[export] Hint Resolve queues_of_lookup : skynet.

Lemma skynet_mq_push_spec s l p q items m :
  run_queue s l → queues_of s !! p = Some q → mq_repr q items →
  Z.of_nat (length items) + 1 < 2 ^ 30 → (mq_in_global q = 0 → p ∉ l) →
  ∃ s' q', skynet_mq_push p m s = Some s'
    ∧ queues_of s' = <[p := q']> (queues_of s)
    ∧ mq_repr q' (items ++ [m])
    ∧ mq_in_global q' = (if mq_in_global q =? 0 then MQ_IN_GLOBAL else mq_in_global q)
    ∧ mq_handle q' = mq_handle q ∧ mq_release q' = mq_release q
    ∧ run_queue s' (if mq_in_global q =? 0 then l ++ [p] else l).
Proof.
  intros Hr (q0 & Hq & ->)%queues_of_inv Hrep Hlen Hg. simpl in Hg.
  rewrite mq_repr_unlink in Hrep.
  destruct (mq_enqueue_spec q0 items m Hrep Hlen) as (q1 & He & Hrep1 & Hig & Hn & Hh & Hrel).
  unfold skynet_mq_push. rewrite Hq. simpl. rewrite He. simpl. rewrite Hig. simpl. case_if.
  - set (q2 := q1 <| mq_in_global := MQ_IN_GLOBAL |>).
    destruct (skynet_globalmq_push_spec
                (s <| mq_heap := <[p := q2]> (mq_heap s) |>) l p) as (s' & Hs & Hr' & Hqs).
    { eapply run_queue_update; eauto. }
    { simpl. rewrite lookup_insert_eq. eauto. }
    { eauto. }
    exists s', (unlink q2). rewrite Hqs, queues_of_insert.
    split_and!; auto; try done. apply mq_repr_unlink. destruct Hrep1; by split.
  - eexists _, (unlink q1). split; [done|]. split; [apply queues_of_insert|].
    split_and!; auto; simpl; try congruence.
    + by apply mq_repr_unlink.
    + by apply (run_queue_update _ _ _ q0 q1).
Qed.



Lemma skynet_mq_mark_release_spec s l p q :
  run_queue s l → queues_of s !! p = Some q → mq_release q = 0 →
  (mq_in_global q ≠ MQ_IN_GLOBAL → p ∉ l) →
  ∃ s', skynet_mq_mark_release p s = Some s'
    ∧ queues_of s' = <[p := q <| mq_release := 1 |>]> (queues_of s)
    ∧ run_queue s' (if mq_in_global q =? MQ_IN_GLOBAL then l else l ++ [p]).
Proof.
  intros Hr (q0 & Hq & ->)%queues_of_inv Hrel Hg. simpl in *.
  unfold skynet_mq_mark_release. rewrite Hq. simpl. rewrite Hrel. simpl.
  set (q1 := q0 <| mq_release := 1 |>).
  assert (Hr1 : run_queue (s <| mq_heap := <[p := q1]> (mq_heap s) |>) l)
    by (eapply run_queue_update; eauto).
  destruct (mq_in_global q0 =? MQ_IN_GLOBAL) eqn:E; bool_prop; simpl.
  - eexists; split; [done|]. split; [|done]. apply queues_of_insert.
  - destruct (skynet_globalmq_push_spec _ l p Hr1) as (s' & Hs & Hr' & Hqs); [|eauto|].
    { simpl. rewrite lookup_insert_eq. eauto. }
    exists s'. split; [exact Hs|]. split; [|done]. rewrite Hqs. apply queues_of_insert.
Qed.
