(* ===== verification/Handle.v ===== *)
(** * Service handles and names (skynet-src/skynet_handle.c)

    The handle storage maps 24-bit local handles, tagged with the node's harbor
    in the high byte, to service contexts through a power-of-two slot table
    that doubles when full, and keeps a sorted array of local names that is
    searched by bisection.  The file shows that the table implements a finite
    map from handles to contexts and the array a finite map from names to
    handles. *)

From stdpp Require Import prelude list gmap list_numbers sorting.
From S2P Require Import Prelude MQ.

(** ** Data *)

Definition DEFAULT_SLOT_SIZE : Z := 4.
Definition MAX_SLOT_SIZE : Z := 0x40000000.
Definition HANDLE_MASK : Z := 0xffffff.
Definition HANDLE_REMOTE_SHIFT : Z := 24.

(** A C string: its bytes, without the terminating NUL. *)
Abbreviation cstring := (list Z) (only parsing).

Record handle_name := mkHN { hn_name : cstring; hn_handle : Z }.

(** [struct handle_storage].  [h_slot] has [slot_size] cells, [None] is NULL;
    [h_name] holds the first [name_count] entries of the name array. *)
Record handle_storage := mkHS {
  h_harbor : Z;
  h_handle_index : Z;
  h_slot_size : Z;
  h_slot : list (option ptr);
  h_name_cap : Z;
  h_name : list handle_name
}.

#[export] Instance eta_handle_storage : Eta handle_storage :=
  λ s, mkHS (h_harbor s) (h_handle_index s) (h_slot_size s) (h_slot s)
            (h_name_cap s) (h_name s).

(** [strcmp]: only the sign of the result is used by the code. *)
Fixpoint strcmp (a b : cstring) : Z :=
  match a, b with
  | [], [] => 0
  | [], _ :: _ => -1
  | _ :: _, [] => 1
  | x :: a, y :: b => if x =? y then strcmp a b else if x <? y then -1 else 1
  end.

Definition skynet_handle_init (harbor : Z) : handle_storage :=
  mkHS (u32 (Z.shiftl (Z.land harbor 0xff) HANDLE_REMOTE_SHIFT)) 1
       DEFAULT_SLOT_SIZE (replicate (Z.to_nat DEFAULT_SLOT_SIZE) None) 2 [].

(** ** Names *)

(** [while (begin<=end) ...] of [skynet_handle_findname] and [_insert_name]:
    [inl i] when entry [i] has the name, [inr begin] when the loop ends.
    Each iteration halves the interval, so one more iteration than there are
    entries is enough (lemma [name_search_spec]). *)
Fixpoint name_search (fuel : nat) (names : list handle_name) (name : cstring) (begin end_ : Z)
    : option (handle_name + Z) :=
  match fuel with
  | O => None
  | S fuel =>
      if begin <=? end_ then
        let mid := Z.quot (begin + end_) 2 in
        n ← zget names mid;
        let c := strcmp (hn_name n) name in
        if c =? 0 then Some (inl n)
        else if c <? 0 then name_search fuel names name (mid + 1) end_
        else name_search fuel names name begin (mid - 1)
      else Some (inr begin)
  end.

Definition name_count (s : handle_storage) : Z := Z.of_nat (length (h_name s)).

Definition skynet_handle_findname (name : cstring) (s : handle_storage) : option Z :=
  r ← name_search (S (length (h_name s))) (h_name s) name 0 (name_count s - 1);
  Some (match r with inl n => hn_handle n | inr _ => 0 end).

(** Entries before [before] stay, the others move up by one; the array is
    reallocated at twice the capacity when it is full. *)
Definition _insert_name_before (name : cstring) (handle before : Z) (s : handle_storage)
    : option handle_storage :=
  let k := Z.to_nat before in
  let names := take k (h_name s) ++ mkHN name handle :: drop k (h_name s) in
  if name_count s >=? h_name_cap s then
    let cap := i32 (h_name_cap s * 2) in
    _ ← c_assert (cap <=? MAX_SLOT_SIZE);
    Some (s <| h_name_cap := cap |> <| h_name := names |>)
  else Some (s <| h_name := names |>).

(** [_insert_name]: [None] in the result is the return value NULL. *)
Definition _insert_name (name : cstring) (handle : Z) (s : handle_storage)
    : option (option cstring * handle_storage) :=
  r ← name_search (S (length (h_name s))) (h_name s) name 0 (name_count s - 1);
  match r with
  | inl _ => Some (None, s)
  | inr begin => s ← _insert_name_before name handle begin s; Some (Some name, s)
  end.

Definition skynet_handle_namehandle (handle : Z) (name : cstring) (s : handle_storage)
    : option (option cstring * handle_storage) :=
  _insert_name name handle s.

(** ** Slots

    [hof c] is [skynet_context_handle (c)], the [handle] field of context [c]. *)
Section slots.
Context (hof : ptr → Z).

Definition probe_handle (s : handle_storage) (i : Z) : Z :=
  Z.land (u32 (i + h_handle_index s)) HANDLE_MASK.

Definition slot_hash (s : handle_storage) (handle : Z) : Z :=
  Z.land handle (h_slot_size s - 1).

(** [for (i=0;i<s->slot_size;i++)]: the first probed handle whose slot is free. *)
Fixpoint register_scan (s : handle_storage) (idxs : list Z) : option (option Z) :=
  match idxs with
  | [] => Some None
  | i :: idxs =>
      let handle := probe_handle s i in
      cell ← zget (h_slot s) (slot_hash s handle);
      match cell with
      | None => Some (Some handle)
      | Some _ => register_scan s idxs
      end
  end.

(** [for (i=0;i<s->slot_size;i++)] of the rehash into [new_slot]. *)
Fixpoint rehash (cells : list (option ptr)) (mask : Z) (new_slot : list (option ptr))
    : option (list (option ptr)) :=
  match cells with
  | [] => Some new_slot
  | cell :: cells =>
      c ← cell;
      let hash := Z.land (hof c) mask in
      old ← zget new_slot hash;
      _ ← c_assert (bool_decide (old = None));
      new_slot ← zset new_slot hash (Some c);
      rehash cells mask new_slot
  end.

(** The [for (;;)] of [skynet_handle_register]: after one doubling a slot is
    free, so two rounds are enough (lemma [skynet_handle_register_spec]). *)
Fixpoint register_loop (fuel : nat) (ctx : ptr) (s : handle_storage)
    : option (Z * handle_storage) :=
  match fuel with
  | O => None
  | S fuel =>
      r ← register_scan s (seqZ 0 (h_slot_size s));
      match r with
      | Some handle =>
          slot ← zset (h_slot s) (slot_hash s handle) (Some ctx);
          Some (Z.lor handle (h_harbor s),
                s <| h_slot := slot |> <| h_handle_index := handle + 1 |>)
      | None =>
          _ ← c_assert (h_slot_size s * 2 - 1 <=? HANDLE_MASK);
          new_slot ← rehash (h_slot s) (h_slot_size s * 2 - 1)
                            (replicate (Z.to_nat (h_slot_size s * 2)) None);
          register_loop fuel ctx
            (s <| h_slot := new_slot |> <| h_slot_size := h_slot_size s * 2 |>)
      end
  end.

Definition skynet_handle_register (ctx : ptr) (s : handle_storage)
    : option (Z * handle_storage) :=
  register_loop 2 ctx s.

(** [skynet_handle_retire] up to its [rwlock_wunlock]: the context to release,
    if any (the C function returns 1 exactly when there is one), and the storage. *)
Definition skynet_handle_retire (handle : Z) (s : handle_storage)
    : option (option ptr * handle_storage) :=
  let hash := slot_hash s handle in
  cell ← zget (h_slot s) hash;
  match cell with
  | Some ctx =>
      if hof ctx =? handle then
        slot ← zset (h_slot s) hash None;
        Some (Some ctx,
              s <| h_slot := slot |>
                <| h_name := filter (λ n, hn_handle n ≠ handle) (h_name s) |>)
      else Some (None, s)
  | None => Some (None, s)
  end.

(** The lookup of [skynet_handle_grab] (the caller takes the reference). *)
Definition skynet_handle_grab (handle : Z) (s : handle_storage) : option (option ptr) :=
  cell ← zget (h_slot s) (slot_hash s handle);
  Some (match cell with
        | Some ctx => if hof ctx =? handle then Some ctx else None
        | None => None
        end).
End slots.

(** ** The name array is a finite map *)

Lemma strcmp_eq a b : strcmp a b = 0 ↔ a = b.
Proof.
  revert b. induction a as [|x a IH]; intros [|y b]; simpl; try done.
  case_if; [rewrite IH; naive_solver|]. case_if; naive_solver.
Qed.

Lemma strcmp_flip a b : strcmp b a = - strcmp a b.
Proof.
  revert b. induction a as [|x a IH]; intros [|y b]; simpl; try done.
  rewrite (Z.eqb_sym y x). case_if; [done|]. repeat case_if; lia.
Qed.

Lemma strcmp_trans a b c : strcmp a b < 0 → strcmp b c < 0 → strcmp a c < 0.
Proof.
  revert b c. induction a as [|x a IH]; intros [|y b] [|z c]; simpl; try lia.
  repeat case_if; subst; try lia; eauto.
Qed.

Definition name_lt (a b : handle_name) : Prop := strcmp (hn_name a) (hn_name b) < 0.
Definition names_sorted (l : list handle_name) : Prop := StronglySorted name_lt l.

(** What the name array denotes. *)
Definition names_map (l : list handle_name) : gmap cstring Z :=
  list_to_map ((λ n, (hn_name n, hn_handle n)) <$> l).

Lemma names_sorted_unique l n n' :
  names_sorted l → n ∈ l → n' ∈ l → hn_name n = hn_name n' → n = n'.
Proof.
  unfold names_sorted. induction l as [|m l IH]; [set_solver|].
  rewrite StronglySorted_cons, Forall_forall. intros [Hm Hl] Hn Hn' Heq.
  assert (Hirr : ∀ k, k ∈ l → hn_name k = hn_name m → False).
  { intros k Hk Hkm. specialize (Hm k Hk). unfold name_lt in Hm.
    rewrite Hkm in Hm. assert (strcmp (hn_name m) (hn_name m) = 0) by by apply strcmp_eq. lia. }
  apply elem_of_cons in Hn as [->|Hn]; apply elem_of_cons in Hn' as [->|Hn']; auto;
    exfalso; eauto.
Qed.

Lemma names_map_lookup l k v :
  names_sorted l → names_map l !! k = Some v ↔ mkHN k v ∈ l.
Proof.
  intros Hs. unfold names_map. rewrite <- elem_of_list_to_map'.
  - rewrite list_elem_of_fmap. split.
    + by intros ([] & [= -> ->] & H).
    + intros H. by exists (mkHN k v).
  - intros x' (n & [= -> ->] & Hn)%list_elem_of_fmap (n' & [= Hnn ->] & Hn')%list_elem_of_fmap.
    f_equal. eauto using names_sorted_unique.
Qed.

Lemma names_map_None l k :
  names_sorted l → (∀ n, n ∈ l → hn_name n ≠ k) → names_map l !! k = None.
Proof.
  intros Hs Hk. apply eq_None_not_Some. intros [v Hv%names_map_lookup]; [|done].
  by apply Hk in Hv.
Qed.

(** The loop ends within its fuel and finds the name or its insertion point. *)
Lemma name_search_spec names name fuel b e :
  names_sorted names → 0 <= b → b <= e + 1 → e < Z.of_nat (length names) →
  e - b + 1 < Z.of_nat fuel →
  (∀ i n, names !! i = Some n → Z.of_nat i < b → strcmp (hn_name n) name < 0) →
  (∀ i n, names !! i = Some n → e < Z.of_nat i → strcmp (hn_name n) name > 0) →
  ∃ r, name_search fuel names name b e = Some r ∧
    match r with
    | inl n => n ∈ names ∧ hn_name n = name
    | inr k => 0 <= k <= Z.of_nat (length names)
        ∧ (∀ i n, names !! i = Some n → Z.of_nat i < k → strcmp (hn_name n) name < 0)
        ∧ (∀ i n, names !! i = Some n → k <= Z.of_nat i → strcmp (hn_name n) name > 0)
    end.
Proof.
  intros Hs. revert b e. induction fuel as [|fuel IH]; intros b e Hb Hbe He Hf Hlo Hhi; [lia|].
  simpl. case_if; [|].
  2: { exists (inr b). split; [done|]. split; [lia|]. split; [done|]. intros; eapply Hhi; eauto; lia. }
  set (mid := Z.quot (b + e) 2).
  assert (Hmid : b <= mid <= e) by (unfold mid; rewrite Z.quot_div_nonneg by lia; zify_div).
  destruct (zget_is_Some names mid) as [n Hn]; [lia|]. rewrite Hn. simpl.
  assert (Hl : names !! Z.to_nat mid = Some n) by (unfold zget in Hn; by destruct (0 <=? mid)).
  assert (Hord : ∀ i j x y, names !! i = Some x → names !! j = Some y → (i < j)%nat →
                 strcmp (hn_name x) (hn_name y) < 0).
  { intros i j x y Hi Hj Hij. unfold names_sorted in Hs.
    rewrite <- (take_drop_middle names j y Hj), StronglySorted_app in Hs.
    apply Hs; [|set_solver]. apply list_elem_of_lookup. exists i.
    by rewrite lookup_take_lt. }
  repeat case_if.
  - exists (inl n). split; [done|]. split; [by eapply list_elem_of_lookup_2|].
    by apply strcmp_eq.
  - apply IH; try lia; [|done]. intros i x Hi Hlt.
    destruct (decide (i = Z.to_nat mid)) as [->|]; [congruence|].
    apply (strcmp_trans _ (hn_name n)); [apply (Hord i (Z.to_nat mid)); auto; lia|done].
  - apply IH; try lia; [done|]. intros i x Hi Hlt.
    destruct (decide (i = Z.to_nat mid)) as [->|]; [simplify_eq; lia|].
    assert (strcmp (hn_name n) (hn_name x) < 0) by (apply (Hord (Z.to_nat mid) i); auto; lia).
    assert (strcmp name (hn_name n) < 0) by (rewrite strcmp_flip; lia).
    assert (strcmp name (hn_name x) < 0) by eauto using strcmp_trans.
    rewrite strcmp_flip. lia.
Qed.

Lemma name_search_all names name :
  names_sorted names →
  ∃ r, name_search (S (length names)) names name 0 (Z.of_nat (length names) - 1) = Some r ∧
    match r with
    | inl n => n ∈ names ∧ hn_name n = name
    | inr k => 0 <= k <= Z.of_nat (length names)
        ∧ (∀ i n, names !! i = Some n → Z.of_nat i < k → strcmp (hn_name n) name < 0)
        ∧ (∀ i n, names !! i = Some n → k <= Z.of_nat i → strcmp (hn_name n) name > 0)
    end.
Proof.
  intros Hs. apply name_search_spec; try done; try lia.
  intros i n Hi%lookup_lt_Some Hlt. lia.
Qed.

(** An absent name has no entry: every entry compares strictly. *)
Lemma name_absent names name k :
  names_sorted names →
  (∀ i n, names !! i = Some n → Z.of_nat i < k → strcmp (hn_name n) name < 0) →
  (∀ i n, names !! i = Some n → k <= Z.of_nat i → strcmp (hn_name n) name > 0) →
  names_map names !! name = None.
Proof.
  intros Hs Hlo Hhi. apply names_map_None; [done|].
  intros n (i & Hi)%list_elem_of_lookup Heq. apply strcmp_eq in Heq.
  destruct (decide (Z.of_nat i < k)); [specialize (Hlo _ _ Hi)|specialize (Hhi _ _ Hi)]; lia.
Qed.

Lemma findname_spec s name :
  names_sorted (h_name s) →
  skynet_handle_findname name s = Some (default 0 (names_map (h_name s) !! name)).
Proof.
  intros Hs. unfold skynet_handle_findname, name_count.
  destruct (name_search_all (h_name s) name Hs) as ([n|k] & -> & H); simpl.
  - destruct H as [Hn <-]. destruct n as [nm h].
    by rewrite (proj2 (names_map_lookup _ _ h Hs)).
  - destruct H as (_ & Hlo & Hhi). by rewrite (name_absent _ _ k).
Qed.

(** Splicing a new name in at its insertion point. *)
Lemma names_insert_sorted names name h k :
  names_sorted names → 0 <= k <= Z.of_nat (length names) →
  (∀ i n, names !! i = Some n → Z.of_nat i < k → strcmp (hn_name n) name < 0) →
  (∀ i n, names !! i = Some n → k <= Z.of_nat i → strcmp (hn_name n) name > 0) →
  let names' := take (Z.to_nat k) names ++ mkHN name h :: drop (Z.to_nat k) names in
  names_sorted names' ∧ names_map names' = <[name := h]> (names_map names).
Proof.
  intros Hs Hk Hlo Hhi names'.
  assert (Hs' : names_sorted names').
  { unfold names_sorted, names' in *. rewrite <- (take_drop (Z.to_nat k) names) in Hs.
    apply StronglySorted_app in Hs as (Hx & Ht & Hd). apply StronglySorted_app. split_and!; [|done|].
    - intros x1 x2 Hx1 Hx2. apply elem_of_cons in Hx2 as [->|Hx2]; [|by apply Hx].
      apply list_elem_of_lookup in Hx1 as (i & Hi). apply lookup_take_Some in Hi as [Hi Hlt].
      apply (Hlo i); [done|lia].
    - apply StronglySorted_cons. split; [|done]. apply Forall_forall.
      intros x (i & Hi)%list_elem_of_lookup. rewrite lookup_drop in Hi.
      unfold name_lt. simpl. rewrite strcmp_flip. apply Hhi in Hi; lia. }
  split; [done|]. apply map_eq. intros k0. apply option_eq. intros v.
  assert (Hnone : mkHN name v ∉ names).
  { rewrite <- names_map_lookup by done. rewrite (name_absent _ _ k) by done. done. }
  rewrite (names_map_lookup _ _ _ Hs'), lookup_insert_Some, names_map_lookup by done.
  assert (Hin : mkHN k0 v ∈ names ↔
                mkHN k0 v ∈ take (Z.to_nat k) names ∨ mkHN k0 v ∈ drop (Z.to_nat k) names)
    by (rewrite <- elem_of_app, take_drop; done).
  unfold names'. rewrite elem_of_app, elem_of_cons. rewrite Hin in *.
  split; [|naive_solver].
  intros [H|[[= -> ->]|H]]; auto; right; (split; [|tauto]); intros <-; naive_solver.
Qed.

Lemma namehandle_spec s name h :
  names_sorted (h_name s) → 0 < h_name_cap s <= 2 ^ 29 →
  match names_map (h_name s) !! name with
  | Some _ => skynet_handle_namehandle h name s = Some (None, s)
  | None => ∃ s', skynet_handle_namehandle h name s = Some (Some name, s')
      ∧ names_sorted (h_name s') ∧ names_map (h_name s') = <[name := h]> (names_map (h_name s))
      ∧ h_slot s' = h_slot s ∧ h_slot_size s' = h_slot_size s
      ∧ h_handle_index s' = h_handle_index s ∧ h_harbor s' = h_harbor s ∧ 0 < h_name_cap s'
  end.
Proof.
  intros Hs Hcap. unfold skynet_handle_namehandle, _insert_name, name_count.
  destruct (name_search_all (h_name s) name Hs) as ([n|k] & -> & H); simpl.
  - destruct H as [Hn <-]. destruct n as [nm h'].
    by rewrite (proj2 (names_map_lookup _ _ h' Hs)).
  - destruct H as (Hk & Hlo & Hhi). rewrite (name_absent _ _ k) by done.
    destruct (names_insert_sorted _ name h k Hs Hk Hlo Hhi) as [Hs' Hm'].
    unfold _insert_name_before, MAX_SLOT_SIZE. case_if; simpl.
    + rewrite i32_small by lia. rewrite (proj2 (Z.leb_le _ _)) by lia. simpl.
      eexists. split; [done|]. split_and!; simpl; auto; lia.
    + eexists. split; [done|]. split_and!; simpl; auto; lia.
Qed.

Lemma names_filter_spec names h :
  names_sorted names →
  names_sorted (filter (λ n, hn_handle n ≠ h) names) ∧
  names_map (filter (λ n, hn_handle n ≠ h) names) = filter (λ kv, kv.2 ≠ h) (names_map names).
Proof.
  intros Hs.
  assert (Hs' : names_sorted (filter (λ n, hn_handle n ≠ h) names)).
  { unfold names_sorted in *. induction Hs as [|n l Hl IH Hn]; [constructor|].
    rewrite filter_cons. case_decide; [|done]. constructor; [done|].
    apply Forall_forall. intros x [_ Hx]%list_elem_of_filter. by eapply Forall_forall in Hn. }
  split; [done|]. apply map_eq. intros k. apply option_eq. intros v.
  rewrite names_map_lookup, map_lookup_filter_Some, names_map_lookup, list_elem_of_filter by done.
  simpl. tauto.
Qed.

(** ** The slot table is a finite map *)

Record slots_wf (hof : ptr → Z) (s : handle_storage) : Prop := {
  sw_size : ∃ k, 2 <= k <= 24 ∧ h_slot_size s = 2 ^ k;
  sw_len : Z.of_nat (length (h_slot s)) = h_slot_size s;
  sw_harbor : ∃ r, 0 <= r < 256 ∧ h_harbor s = r * 2 ^ 24;
  sw_index : 0 <= h_handle_index s <= 2 ^ 24;
  sw_slot : ∀ i c, h_slot s !! i = Some (Some c) →
    hof c mod h_slot_size s = Z.of_nat i ∧ hof c / 2 ^ 24 * 2 ^ 24 = h_harbor s
}.

Lemma pow2_divide_24 k : 0 <= k <= 24 → (2 ^ k | 2 ^ 24).
Proof. intros. exists (2 ^ (24 - k)). rewrite <- Z.pow_add_r by lia. f_equal. lia. Qed.

Section slot_lemmas.
Context (hof : ptr → Z) (s : handle_storage) (Hwf : slots_wf hof s).

Lemma slot_size_bounds : 4 <= h_slot_size s <= 2 ^ 24.
Proof.
  destruct (sw_size _ _ Hwf) as (k & Hk & ->). split.
  - apply (Z.pow_le_mono_r 2 2 k); lia.
  - apply (Z.pow_le_mono_r 2 k 24); lia.
Qed.

Lemma slot_hash_mod h : slot_hash s h = h mod h_slot_size s.
Proof.
  unfold slot_hash. destruct (sw_size _ _ Hwf) as (k & Hk & ->).
  apply land_ones_mod. lia.
Qed.

Lemma slot_hash_bound h : 0 <= slot_hash s h < Z.of_nat (length (h_slot s)).
Proof.
  rewrite slot_hash_mod, (sw_len _ _ Hwf). apply Z.mod_pos_bound.
  pose proof slot_size_bounds. lia.
Qed.

Lemma probe_handle_mod i : 0 <= i < 2 ^ 24 →
  probe_handle s i = (i + h_handle_index s) mod 2 ^ 24.
Proof.
  intros Hi. unfold probe_handle, HANDLE_MASK. pose proof (sw_index _ _ Hwf).
  rewrite u32_small by lia. by apply (land_ones_mod _ 24).
Qed.

Lemma probe_slot i : 0 <= i < 2 ^ 24 →
  slot_hash s (probe_handle s i) = (i + h_handle_index s) mod h_slot_size s.
Proof.
  intros Hi. rewrite slot_hash_mod, probe_handle_mod by done.
  destruct (sw_size _ _ Hwf) as (k & Hk & ->).
  apply Z.mod_mod_divide, pow2_divide_24. lia.
Qed.

(** [skynet_handle_grab] finds exactly the registered contexts. *)
Lemma grab_Some h c :
  skynet_handle_grab hof h s = Some (Some c) ↔ Some c ∈ h_slot s ∧ hof c = h.
Proof.
  unfold skynet_handle_grab. pose proof (slot_hash_bound h) as Hb.
  destruct (zget_is_Some _ _ Hb) as [cell Hc]. rewrite Hc. simpl.
  assert (Hl : h_slot s !! Z.to_nat (slot_hash s h) = Some cell)
    by (unfold zget in Hc; by destruct (0 <=? slot_hash s h)).
  split.
  - destruct cell as [c'|]; [|done]. case_if; [|done]. intros [= <-].
    split; [by eapply list_elem_of_lookup_2|done].
  - intros [(i & Hi)%list_elem_of_lookup Hh].
    destruct (sw_slot _ _ Hwf _ _ Hi) as [Hm _]. rewrite Hh, <- slot_hash_mod in Hm.
    rewrite Hm, Nat2Z.id in Hl. simplify_eq. by rewrite Z.eqb_refl.
Qed.

Lemma grab_total h : ∃ r, skynet_handle_grab hof h s = Some r.
Proof.
  unfold skynet_handle_grab. destruct (zget_is_Some _ _ (slot_hash_bound h)) as [cell ->].
  simpl. eauto.
Qed.

Lemma grab_None h :
  skynet_handle_grab hof h s = Some None ↔ (∀ c, Some c ∈ h_slot s → hof c ≠ h).
Proof.
  destruct (grab_total h) as [[c|] Hr]; rewrite Hr.
  - apply grab_Some in Hr as [Hc Hh]. split; [done|]. intros Hn. by apply Hn in Hc.
  - split; [|done]. intros _ c Hc Hh.
    assert (skynet_handle_grab hof h s = Some (Some c)) by by apply grab_Some. congruence.
Qed.

(** The scan stops at a probe with a free slot, or saw only occupied slots. *)
Lemma register_scan_spec idxs :
  (∀ i, i ∈ idxs → 0 <= i < 2 ^ 24) →
  ∃ r, register_scan s idxs = Some r ∧
    match r with
    | Some h => ∃ i, i ∈ idxs ∧ h = probe_handle s i ∧ zget (h_slot s) (slot_hash s h) = Some None
    | None => ∀ i, i ∈ idxs →
        ∃ c, zget (h_slot s) (slot_hash s (probe_handle s i)) = Some (Some c)
    end.
Proof.
  induction idxs as [|i idxs IH]; intros Hi; simpl.
  { exists None. split; [done|]. set_solver. }
  destruct (zget_is_Some _ _ (slot_hash_bound (probe_handle s i))) as [[c|] Hc]; rewrite Hc; simpl.
  - destruct IH as ([h|] & -> & H); [set_solver| |].
    + exists (Some h). split; [done|]. destruct H as (j & ? & ? & ?). exists j. set_solver.
    + exists None. split; [done|]. intros j [->|Hj]%elem_of_cons; eauto.
  - exists (Some (probe_handle s i)). split; [done|]. exists i. set_solver.
Qed.

(** When no probe is free the table is full. *)
Lemma register_scan_full :
  register_scan s (seqZ 0 (h_slot_size s)) = Some None → ∃ cs, h_slot s = Some <$> cs.
Proof.
  intros Hscan. pose proof slot_size_bounds as Hb.
  destruct (register_scan_spec (seqZ 0 (h_slot_size s))) as (r & Hr & H).
  { intros i Hi%elem_of_seqZ. lia. }
  rewrite Hscan in Hr. simplify_eq. simpl in H.
  assert (Hall : ∀ j cell, h_slot s !! j = Some cell → ∃ c, cell = Some c).
  { intros j cell Hj. pose proof (lookup_lt_Some _ _ _ Hj) as Hlt.
    pose proof (sw_len _ _ Hwf).
    set (i := (Z.of_nat j - h_handle_index s) mod h_slot_size s).
    assert (Hi : 0 <= i < h_slot_size s) by (apply Z.mod_pos_bound; lia).
    destruct (H i) as [c Hc]; [apply elem_of_seqZ; lia|].
    rewrite probe_slot in Hc by lia. unfold i in Hc. rewrite Zplus_mod_idemp_l in Hc.
    rewrite Z.sub_add, Z.mod_small, zget_nat in Hc by lia. simplify_eq. eauto. }
  clear -Hall. induction (h_slot s) as [|cell l IH]; [by exists []|].
  destruct IH as [cs ->]; [intros j; apply (Hall (S j))|].
  destruct (Hall 0%nat cell eq_refl) as [c ->]. by exists (c :: cs).
Qed.
End slot_lemmas.

(** Rehashing into a table where every context of the list has its own free cell. *)
Lemma rehash_spec hof k cs new :
  0 <= k → Z.of_nat (length new) = 2 ^ k →
  NoDup ((λ c, hof c mod 2 ^ k) <$> cs) →
  (∀ c, c ∈ cs → zget new (hof c mod 2 ^ k) = Some None) →
  ∃ new', rehash hof (Some <$> cs) (2 ^ k - 1) new = Some new' ∧ length new' = length new
    ∧ (∀ c, c ∈ cs → zget new' (hof c mod 2 ^ k) = Some (Some c))
    ∧ (∀ j, (∀ c, c ∈ cs → hof c mod 2 ^ k ≠ j) → zget new' j = zget new j).
Proof.
  intros Hk. revert new. induction cs as [|c cs IH]; intros new Hlen Hnd Hfree.
  { exists new. simpl. set_solver. }
  rewrite fmap_cons in *. apply NoDup_cons in Hnd as [Hc Hnd]. simpl.
  rewrite land_ones_mod by done. rewrite (Hfree c) by set_solver. simpl.
  assert (Hb : 0 <= hof c mod 2 ^ k < Z.of_nat (length new))
    by (rewrite Hlen; apply Z.mod_pos_bound; lia).
  rewrite zset_Some by done. simpl. set (new1 := <[_ := _]> new).
  assert (Hset : zset new (hof c mod 2 ^ k) (Some c) = Some new1) by by apply zset_Some.
  assert (Hl1 : length new1 = length new) by eauto with skynet.
  assert (Hne : ∀ c', c' ∈ cs → hof c mod 2 ^ k ≠ hof c' mod 2 ^ k).
  { intros c' Hc' Heq. apply Hc. rewrite Heq. by apply (list_elem_of_fmap_2 (λ c, hof c mod 2 ^ k)). }
  destruct (IH new1) as (new' & Hr & Hl & Hin & Hout); [lia|done| |].
  { intros c' Hc'. rewrite (zget_zset_ne _ _ _ _ _ Hset); [|auto]. apply Hfree. set_solver. }
  exists new'. split; [done|]. split; [lia|]. split.
  - intros c' [->|Hc']%elem_of_cons; [|auto].
    rewrite Hout; [|intros c'' Hc''; by apply not_eq_sym, Hne]. eauto with skynet.
  - intros j Hj. rewrite Hout by set_solver.
    apply (zget_zset_ne _ _ _ _ _ Hset). set_solver.
Qed.

(** Contexts in different slots are different. *)
Lemma slots_inj hof s cs :
  slots_wf hof s → h_slot s = Some <$> cs →
  NoDup ((λ c, hof c mod h_slot_size s) <$> cs).
Proof.
  intros Hwf Hs. apply NoDup_alt. intros i j x Hi Hj.
  apply list_lookup_fmap_Some in Hi as (c & -> & Hi).
  apply list_lookup_fmap_Some in Hj as (c' & Hcc & Hj).
  destruct (sw_slot _ _ Hwf i c) as [Hc _]; [by rewrite Hs, list_lookup_fmap, Hi|].
  destruct (sw_slot _ _ Hwf j c') as [Hc' _]; [by rewrite Hs, list_lookup_fmap, Hj|].
  lia.
Qed.

(** Doubling a full table keeps the invariant and the set of contexts. *)
Lemma double_spec hof s cs :
  slots_wf hof s → h_slot s = Some <$> cs → h_slot_size s < 2 ^ 24 →
  ∃ new, rehash hof (h_slot s) (h_slot_size s * 2 - 1)
           (replicate (Z.to_nat (h_slot_size s * 2)) None) = Some new
    ∧ (∀ c, Some c ∈ new ↔ c ∈ cs)
    ∧ slots_wf hof (s <| h_slot := new |> <| h_slot_size := h_slot_size s * 2 |>).
Proof.
  intros Hwf Hs Hlt. pose proof (slots_inj _ _ _ Hwf Hs) as Hinj.
  destruct (sw_size _ _ Hwf) as (k & Hk & Hsz). rewrite Hs, Hsz in *.
  assert (Hk1 : 2 ^ k * 2 = 2 ^ (k + 1)) by (rewrite Z.pow_add_r; lia). rewrite Hk1.
  assert (Hk24 : k < 24) by (apply (Z.pow_lt_mono_r_iff 2); lia).
  assert (Hrep : ∀ z, 0 <= z < 2 ^ (k + 1) →
            zget (replicate (Z.to_nat (2 ^ (k + 1))) (@None ptr)) z = Some None).
  { intros z Hz. destruct (zget_is_Some (replicate (Z.to_nat (2 ^ (k + 1))) (@None ptr)) z) as [x Hx].
    - rewrite length_replicate. lia.
    - rewrite Hx. unfold zget in Hx. destruct (0 <=? z); [|done].
      apply lookup_replicate in Hx as [-> _]. done. }
  assert (Hb : ∀ z, 0 <= z mod 2 ^ (k + 1) < 2 ^ (k + 1))
    by (intros; apply Z.mod_pos_bound; lia).
  destruct (rehash_spec hof (k + 1) cs (replicate (Z.to_nat (2 ^ (k + 1))) None))
    as (new & Hr & Hl & Hin & Hout); [lia|rewrite length_replicate; lia| |auto|].
  { apply NoDup_alt. intros i j x Hi Hj.
    apply list_lookup_fmap_Some in Hi as (c & -> & Hi).
    apply list_lookup_fmap_Some in Hj as (c' & Hcc & Hj).
    eapply (NoDup_lookup _ i j (hof c mod 2 ^ k) Hinj); rewrite list_lookup_fmap.
    - by rewrite Hi.
    - rewrite Hj. simpl. f_equal.
      assert (Hd : (2 ^ k | 2 ^ (k + 1))) by (exists 2; lia).
      rewrite <- (Z.mod_mod_divide (hof c) _ _ Hd), Hcc.
      symmetry. by apply Z.mod_mod_divide. }
  rewrite length_replicate in Hl.
  assert (Hcell : ∀ i c, new !! i = Some (Some c) → c ∈ cs ∧ hof c mod 2 ^ (k + 1) = Z.of_nat i).
  { intros i c Hi. rewrite <- zget_nat in Hi.
    destruct (decide (Z.of_nat i ∈ (λ c, hof c mod 2 ^ (k + 1)) <$> cs)) as [Hx|Hx].
    - apply list_elem_of_fmap in Hx as (c' & Hx & Hc'). specialize (Hin c' Hc').
      rewrite <- Hx in Hin. simplify_eq. done.
    - rewrite Hout in Hi.
      + apply zget_Some_lt in Hi as Hb'. rewrite length_replicate in Hb'.
        rewrite Hrep in Hi by lia. done.
      + intros c' Hc' Heq. apply Hx. rewrite <- Heq.
        by apply (list_elem_of_fmap_2 (λ c, hof c mod 2 ^ (k + 1))). }
  exists new. split; [done|]. split.
  - intros c. split; [intros (i & [Hc _]%Hcell)%list_elem_of_lookup; done|].
    intros Hc. specialize (Hin c Hc). unfold zget in Hin.
    destruct (0 <=? _); [|done]. by eapply list_elem_of_lookup_2.
  - destruct Hwf. split; simpl; auto.
    + exists (k + 1). split; [lia|done].
    + lia.
    + intros i c Hi. destruct (Hcell i c Hi) as [Hc Hm]. split; [done|].
      apply list_elem_of_lookup in Hc as (j & Hj).
      apply (sw_slot0 j c). by rewrite Hs, list_lookup_fmap, Hj.
Qed.

(** Storing a new context at a free probe. *)
Lemma register_hit hof s ctx i :
  slots_wf hof s → 0 <= i < 2 ^ 24 → Some ctx ∉ h_slot s →
  let h := probe_handle s i in
  let H := Z.lor h (h_harbor s) in
  zget (h_slot s) (slot_hash s h) = Some None →
  ∃ slot, zset (h_slot s) (slot_hash s h) (Some ctx) = Some slot
    ∧ is_u32 H ∧ skynet_handle_grab hof H s = Some None
    ∧ (∀ c, Some c ∈ slot ↔ c = ctx ∨ Some c ∈ h_slot s)
    ∧ (∀ hof', hof' ctx = H → (∀ c, c ≠ ctx → hof' c = hof c) →
        slots_wf hof' (s <| h_slot := slot |> <| h_handle_index := h + 1 |>)).
Proof.
  intros Hwf Hi Hctx h H Hfree.
  assert (Hh : 0 <= h < 2 ^ 24)
    by (unfold h; rewrite (probe_handle_mod hof) by done; apply Z.mod_pos_bound; lia).
  destruct (sw_harbor _ _ Hwf) as (r & Hr & Hhb).
  assert (HH : H = h + r * 2 ^ 24) by (unfold H; rewrite Hhb; by apply lor_add_high).
  assert (Hmod : H mod h_slot_size s = slot_hash s h).
  { rewrite (slot_hash_mod hof) by done. destruct (sw_size _ _ Hwf) as (k & Hk & ->).
    rewrite <- (Z.mod_mod_divide H (2 ^ 24)) by (apply pow2_divide_24; lia).
    f_equal. rewrite HH, Z.mod_add, Z.mod_small; lia. }
  pose proof (slot_hash_bound _ _ Hwf h) as Hb.
  rewrite zset_Some by done. eexists; split; [done|].
  set (n := Z.to_nat (slot_hash s h)) in *.
  assert (Hn : h_slot s !! n = Some None)
    by (unfold zget in Hfree; by destruct (0 <=? slot_hash s h)).
  split_and!.
  - unfold is_u32. lia.
  - apply (grab_None _ _ Hwf). intros c (j & Hj)%list_elem_of_lookup Hc.
    destruct (sw_slot _ _ Hwf _ _ Hj) as [Hm _]. rewrite Hc, Hmod in Hm.
    unfold n in Hn. rewrite Hm, Nat2Z.id in Hn. simplify_eq.
  - intros c. split.
    + intros (j & Hj)%list_elem_of_lookup. apply list_lookup_insert_Some in Hj.
      destruct Hj as [(-> & [= ->] & _)|[_ Hj]]; [by left|right].
      by eapply list_elem_of_lookup_2.
    + intros [->|(j & Hj)%list_elem_of_lookup]; apply list_elem_of_lookup.
      * exists n. apply list_lookup_insert_eq. lia.
      * exists j. rewrite list_lookup_insert_ne; [done|]. intros ->. simplify_eq.
  - intros hof' Hc Hother. destruct Hwf. split; simpl; auto; [|lia|].
    + by rewrite length_insert.
    + intros j c Hj. apply list_lookup_insert_Some in Hj.
      destruct Hj as [(Hj & [= ->] & _)|[Hne Hj]].
      * rewrite Hc, Hmod, HH, Hhb, <- Hj. unfold n. split; [lia|]. zify_div.
      * rewrite Hother; [auto|]. intros ->. apply Hctx. by eapply list_elem_of_lookup_2.
Qed.

(** From the membership characterisation to the map view of [skynet_handle_grab]. *)
Lemma grab_insert hof hof' s s' ctx H :
  slots_wf hof s → slots_wf hof' s' → Some ctx ∉ h_slot s →
  skynet_handle_grab hof H s = Some None →
  hof' ctx = H → (∀ c, c ≠ ctx → hof' c = hof c) →
  (∀ c, Some c ∈ h_slot s' ↔ c = ctx ∨ Some c ∈ h_slot s) →
  ∀ h', skynet_handle_grab hof' h' s' =
        if h' =? H then Some (Some ctx) else skynet_handle_grab hof h' s.
Proof.
  intros Hwf Hwf' Hctx HH Hc Hother Hmem h'. case_if.
  - subst h'. apply (grab_Some _ _ Hwf'). split; [apply Hmem; by left|done].
  - destruct (grab_total _ _ Hwf h') as [[c|] Hr]; rewrite Hr.
    + apply (grab_Some _ _ Hwf) in Hr as [Hin Hh]. apply (grab_Some _ _ Hwf').
      split; [apply Hmem; by right|]. rewrite Hother; [done|]. by intros ->.
    + apply (grab_None _ _ Hwf'). rewrite (grab_None _ _ Hwf) in Hr.
      intros c Hin Hh. apply Hmem in Hin as [->|Hin]; [congruence|].
      apply (Hr c Hin). rewrite <- Hother; [done|]. by intros ->.
Qed.

(** What [skynet_handle_register] promises: [h] is a handle no live context
    has, and once the context carries it (in [hof']) the table is well formed
    and maps [h] to the context, every other handle as before. *)
Definition registered (hof : ptr → Z) (s : handle_storage) (ctx : ptr) (h : Z)
    (s' : handle_storage) : Prop :=
  is_u32 h ∧ skynet_handle_grab hof h s = Some None ∧
  h_name s' = h_name s ∧ h_harbor s' = h_harbor s ∧
  (∀ c, Some c ∈ h_slot s' ↔ c = ctx ∨ Some c ∈ h_slot s) ∧
  ∀ hof', hof' ctx = h → (∀ c, c ≠ ctx → hof' c = hof c) →
    slots_wf hof' s' ∧
    ∀ h', skynet_handle_grab hof' h' s' =
          if h' =? h then Some (Some ctx) else skynet_handle_grab hof h' s.

Lemma register_one hof s ctx h fuel :
  slots_wf hof s → Some ctx ∉ h_slot s →
  register_scan s (seqZ 0 (h_slot_size s)) = Some (Some h) →
  ∃ s', register_loop hof (S fuel) ctx s = Some (Z.lor h (h_harbor s), s')
      ∧ registered hof s ctx (Z.lor h (h_harbor s)) s'.
Proof.
  intros Hwf Hctx Hscan. pose proof (slot_size_bounds _ _ Hwf).
  destruct (register_scan_spec _ _ Hwf (seqZ 0 (h_slot_size s))) as (r & Hr & Hfound).
  { intros i Hi%elem_of_seqZ. lia. }
  rewrite Hscan in Hr. simplify_eq. destruct Hfound as (i & Hi%elem_of_seqZ & -> & Hfree).
  destruct (register_hit hof s ctx i) as (slot & Hset & Hu & Hg & Hmem & Hwf'); auto; [lia|].
  simpl. rewrite Hscan. simpl. rewrite Hset. simpl. eexists; split; [done|].
  split_and!; auto. intros hof' Hc Ho. specialize (Hwf' hof' Hc Ho).
  split; [done|]. eapply grab_insert; eauto.
Qed.

(** Lookups depend only on which contexts the table holds. *)
Lemma same_members_grab hof s s2 :
  slots_wf hof s → slots_wf hof s2 →
  (∀ c, Some c ∈ h_slot s2 ↔ Some c ∈ h_slot s) →
  ∀ h, skynet_handle_grab hof h s2 = skynet_handle_grab hof h s.
Proof.
  intros Hwf Hwf2 Hmem h. destruct (grab_total _ _ Hwf h) as [[c|] Hr]; rewrite Hr.
  - apply (grab_Some _ _ Hwf) in Hr as [Hin Hh]. apply (grab_Some _ _ Hwf2).
    by rewrite Hmem.
  - apply (grab_None _ _ Hwf2). rewrite (grab_None _ _ Hwf) in Hr.
    intros c Hin. by apply Hr, Hmem.
Qed.

(** A table twice the size of a full one, with the same contexts, is not full. *)
Lemma doubled_has_room hof s s2 cs :
  slots_wf hof s → slots_wf hof s2 → h_slot s = Some <$> cs →
  h_slot_size s2 = h_slot_size s * 2 → (∀ c, Some c ∈ h_slot s2 ↔ c ∈ cs) →
  register_scan s2 (seqZ 0 (h_slot_size s2)) ≠ Some None.
Proof.
  intros Hwf Hwf2 Hcs Hsz Hmem Hscan.
  destruct (register_scan_full _ _ Hwf2 Hscan) as [cs2 Hcs2].
  assert (Hsub : cs2 ⊆+ cs).
  { apply NoDup_submseteq; [by apply (NoDup_fmap_1 _ _ (slots_inj _ _ _ Hwf2 Hcs2))|].
    intros c Hc. apply Hmem. rewrite Hcs2. by apply list_elem_of_fmap_2. }
  apply submseteq_length in Hsub. pose proof (sw_len _ _ Hwf2) as Hl2.
  pose proof (sw_len _ _ Hwf) as Hl1. pose proof (slot_size_bounds _ _ Hwf).
  rewrite Hcs2, length_fmap in Hl2. rewrite Hcs, length_fmap in Hl1. lia.
Qed.

(** A registration in a table with the same lookups carries over. *)
Lemma registered_same hof s s2 ctx h s' :
  (∀ h, skynet_handle_grab hof h s2 = skynet_handle_grab hof h s) →
  (∀ c, Some c ∈ h_slot s2 ↔ Some c ∈ h_slot s) →
  h_name s2 = h_name s → h_harbor s2 = h_harbor s →
  registered hof s2 ctx h s' → registered hof s ctx h s'.
Proof.
  intros Hsame Hmem Hn Hb (Hu & Hg & Hnm & Hhb & Hm & Hw). split_and!; auto; try congruence.
  - intros c. by rewrite Hm, Hmem.
  - intros hof' Hc Ho. destruct (Hw hof' Hc Ho) as [Hwf' Hgr]. split; [done|].
    intros h'. by rewrite Hgr, Hsame.
Qed.

Lemma skynet_handle_register_spec hof s ctx :
  slots_wf hof s → Some ctx ∉ h_slot s →
  None ∈ h_slot s ∨ h_slot_size s < 2 ^ 24 →
  ∃ h s', skynet_handle_register hof ctx s = Some (h, s') ∧ registered hof s ctx h s'.
Proof.
  intros Hwf Hctx Hroom. unfold skynet_handle_register.
  destruct (register_scan_spec _ _ Hwf (seqZ 0 (h_slot_size s))) as ([h|] & Hscan & _).
  { intros i Hi%elem_of_seqZ. pose proof (slot_size_bounds _ _ Hwf). lia. }
  { destruct (register_one hof s ctx h 1) as (s' & ? & ?); eauto. }
  destruct (register_scan_full _ _ Hwf Hscan) as [cs Hcs].
  destruct Hroom as [Hn|Hroom].
  { rewrite Hcs in Hn. apply list_elem_of_fmap in Hn as (? & ? & ?). done. }
  destruct (double_spec hof s cs Hwf Hcs Hroom) as (new & Hre & Hmem & Hwf2).
  set (s2 := s <| h_slot := new |> <| h_slot_size := h_slot_size s * 2 |>) in *.
  assert (Hhalf : h_slot_size s <= 2 ^ 23).
  { destruct (sw_size _ _ Hwf) as (k & Hk & Hsz). rewrite Hsz in *.
    assert (k < 24) by (apply (Z.pow_lt_mono_r_iff 2); lia). apply Z.pow_le_mono_r; lia. }
  cbn [register_loop]. rewrite Hscan. cbn [mbind option_bind].
  rewrite (proj2 (Z.leb_le _ _)) by (unfold HANDLE_MASK; lia).
  cbn [c_assert mbind option_bind]. rewrite Hre. cbn [mbind option_bind]. fold s2.
  assert (Hmem2 : ∀ c, Some c ∈ h_slot s2 ↔ Some c ∈ h_slot s).
  { intros c. simpl. rewrite Hmem, Hcs. split; [apply list_elem_of_fmap_2|].
    by intros (? & [= ->] & ?)%list_elem_of_fmap. }
  destruct (register_scan_spec _ _ Hwf2 (seqZ 0 (h_slot_size s2))) as ([h|] & Hscan2 & _).
  { intros i Hi%elem_of_seqZ. pose proof (slot_size_bounds _ _ Hwf2). simpl in *. lia. }
  - destruct (register_one hof s2 ctx h 0 Hwf2) as (s' & Hreg & Hr); [by rewrite Hmem2|done|].
    exists (Z.lor h (h_harbor s)), s'. split; [exact Hreg|].
    apply (registered_same _ _ s2); auto. by apply same_members_grab.
  - by destruct (doubled_has_room hof s s2 cs Hwf Hwf2).
Qed.

(** While the index does not wrap, handles are given out in increasing order. *)
Lemma register_scan_probe s idxs h :
  register_scan s idxs = Some (Some h) → ∃ i, i ∈ idxs ∧ h = probe_handle s i.
Proof.
  induction idxs as [|i idxs IH]; simpl; [done|].
  destruct (zget (h_slot s) _) as [[c|]|]; simpl; [|naive_solver set_solver|done].
  intros H. destruct (IH H) as (j & ? & ?). exists j. set_solver.
Qed.

Lemma probe_no_wrap s i :
  0 <= i → 0 <= h_handle_index s → i + h_handle_index s < 2 ^ 24 →
  (∃ r, 0 <= r < 256 ∧ h_harbor s = r * 2 ^ 24) →
  probe_handle s i = i + h_handle_index s
  ∧ Z.lor (probe_handle s i) (h_harbor s) = h_harbor s + h_handle_index s + i.
Proof.
  intros Hi Hx Hlt (r & Hr & ->). unfold probe_handle, HANDLE_MASK.
  rewrite (land_ones_mod _ 24), u32_small, Z.mod_small by lia. split; [done|].
  rewrite lor_add_high by lia. lia.
Qed.

Lemma register_loop_increasing hof fuel ctx s h s' :
  0 <= h_slot_size s → 0 <= h_handle_index s →
  h_handle_index s + h_slot_size s * 2 ^ Z.of_nat fuel < 2 ^ 24 →
  (∃ r, 0 <= r < 256 ∧ h_harbor s = r * 2 ^ 24) →
  register_loop hof (S fuel) ctx s = Some (h, s') →
  h_harbor s + h_handle_index s <= h ∧ h_handle_index s' = h - h_harbor s + 1
  ∧ h_name_cap s' = h_name_cap s.
Proof.
  assert (Hpow : ∀ k : nat, 0 < 2 ^ Z.of_nat k) by (intros; apply Z.pow_pos_nonneg; lia).
  revert s. induction fuel as [|fuel IH]; intros s Hsz Hix Hlim Hhb Hreg;
    try specialize (Hpow fuel);
    rewrite ?Nat2Z.inj_succ, ?Z.pow_succ_r in Hlim by lia;
    unfold register_loop in Hreg; fold register_loop in Hreg;
    (destruct (register_scan s (seqZ 0 (h_slot_size s))) as [[lh|]|] eqn:Hscan; [| |done]);
    cbn [mbind option_bind] in Hreg.
  1,3: destruct (register_scan_probe _ _ _ Hscan) as (i & Hi%elem_of_seqZ & ->);
    destruct (zset _ _ _) as [slot|]; [|done]; simpl in Hreg; injection Hreg as <- <-; simpl;
    destruct (probe_no_wrap s i) as [Hp ->]; [lia|lia|simpl in Hlim; nia|done|lia].
  - destruct (c_assert _); [|done]. simpl in Hreg. by destruct (rehash _ _ _ _).
  - destruct (c_assert _); [|done]. cbn [mbind option_bind] in Hreg.
    destruct (rehash _ _ _ _) as [new|]; [|done].
    apply IH in Hreg; simpl; eauto; lia.
Qed.

(** C3. Allocating a handle.  In any well-formed handle storage with room left
    (a free slot, or fewer than 2^24 of them), registering a context that is not
    in the table succeeds, whatever doubling and rehashing it takes; the handle
    belongs to no live context, and afterwards the storage is well formed and
    looks every handle up as before, except that the new handle gives the new
    context. *)
Theorem handle_register_correct hof s ctx :
  slots_wf hof s → Some ctx ∉ h_slot s →
  None ∈ h_slot s ∨ h_slot_size s < 2 ^ 24 →
  ∃ h s', skynet_handle_register hof ctx s = Some (h, s') ∧ registered hof s ctx h s'.
Proof. apply skynet_handle_register_spec. Qed.

Lemma handle_init_wf harbor hof : slots_wf hof (skynet_handle_init harbor).
Proof.
  split; simpl.
  - exists 2. split; [lia|done].
  - done.
  - exists (Z.land harbor 0xff). rewrite (land_ones_mod _ 8) by lia.
    pose proof (Z.mod_pos_bound harbor (2 ^ 8)).
    split; [lia|]. unfold HANDLE_REMOTE_SHIFT. rewrite Z.shiftl_mul_pow2 by lia.
    apply u32_small. lia.
  - lia.
  - intros i c Hi%list_elem_of_lookup_2.
    repeat (apply elem_of_cons in Hi as [?|Hi]; [done|]). set_solver.
Qed.

Lemma handle_register_correct_witness :
  ∃ s', skynet_handle_register (λ _, 0) 7%positive (skynet_handle_init 1) = Some (0x1000001, s')
      ∧ registered (λ _, 0) (skynet_handle_init 1) 7%positive 0x1000001 s'.
Proof.
  destruct (handle_register_correct (λ _, 0) (skynet_handle_init 1) 7%positive)
    as (h & s' & H & Hr).
  - apply handle_init_wf.
  - intros Hin. vm_compute in Hin. repeat (apply elem_of_cons in Hin as [?|Hin]; [done|]).
    set_solver.
  - right. reflexivity.
  - vm_compute in H. injection H as <- <-. eexists. split; [vm_compute; reflexivity|exact Hr].
Defined.

(** Emptying the slot of a registered context. *)
Lemma clear_slot hof s h c names :
  slots_wf hof s → zget (h_slot s) (slot_hash s h) = Some (Some c) → hof c = h →
  ∃ slot, zset (h_slot s) (slot_hash s h) None = Some slot
    ∧ slots_wf hof (s <| h_slot := slot |> <| h_name := names |>)
    ∧ (∀ c', Some c' ∈ slot ↔ Some c' ∈ h_slot s ∧ c' ≠ c).
Proof.
  intros Hwf Hc Hh. pose proof (slot_hash_bound _ _ Hwf h) as Hb.
  rewrite zset_Some by done. eexists; split; [done|].
  set (n := Z.to_nat (slot_hash s h)) in *.
  assert (Hn : h_slot s !! n = Some (Some c))
    by (unfold zget in Hc; by destruct (0 <=? slot_hash s h)).
  split.
  - destruct Hwf. split; simpl; auto; [by rewrite length_insert|].
    intros i c' Hi. apply list_lookup_insert_Some in Hi as [(? & ? & ?)|[Hne Hi]]; [done|auto].
  - intros c'. split.
    + intros (i & Hi)%list_elem_of_lookup.
      apply list_lookup_insert_Some in Hi as [(? & ? & ?)|[Hne Hi]]; [done|].
      split; [by eapply list_elem_of_lookup_2|]. intros ->.
      apply (sw_slot _ _ Hwf) in Hi as [Hi _], Hn as [Hn' _]. lia.
    + intros [(i & Hi)%list_elem_of_lookup Hne]. apply list_elem_of_lookup. exists i.
      rewrite list_lookup_insert_ne; [done|]. intros <-. congruence.
Qed.

Lemma grab_delete hof s s' h c :
  slots_wf hof s → slots_wf hof s' → skynet_handle_grab hof h s = Some (Some c) →
  (∀ c', Some c' ∈ h_slot s' ↔ Some c' ∈ h_slot s ∧ c' ≠ c) →
  ∀ h', skynet_handle_grab hof h' s' =
        if h' =? h then Some None else skynet_handle_grab hof h' s.
Proof.
  intros Hwf Hwf' Hg Hmem h'. case_if.
  - subst h'. apply (grab_None _ _ Hwf'). intros c' [Hin Hne]%Hmem Hh.
    assert (skynet_handle_grab hof h s = Some (Some c')) by by apply (grab_Some _ _ Hwf).
    congruence.
  - apply (grab_Some _ _ Hwf) in Hg as [_ Hc].
    destruct (grab_total _ _ Hwf h') as [[c'|] Hr]; rewrite Hr.
    + apply (grab_Some _ _ Hwf) in Hr as [Hin Hh]. apply (grab_Some _ _ Hwf'). split; [|done].
      apply Hmem. split; [done|]. congruence.
    + apply (grab_None _ _ Hwf'). rewrite (grab_None _ _ Hwf) in Hr.
      intros c' [Hin _]%Hmem. auto.
Qed.

Lemma retire_miss hof s h :
  skynet_handle_grab hof h s = Some None → skynet_handle_retire hof h s = Some (None, s).
Proof.
  unfold skynet_handle_grab, skynet_handle_retire.
  destruct (zget (h_slot s) (slot_hash s h)) as [[c|]|]; simpl; [|done|done].
  by destruct (hof c =? h).
Qed.

Lemma retire_hit hof s h c :
  slots_wf hof s → skynet_handle_grab hof h s = Some (Some c) →
  ∃ s', skynet_handle_retire hof h s = Some (Some c, s')
    ∧ h_name s' = filter (λ n, hn_handle n ≠ h) (h_name s)
    ∧ slots_wf hof s' ∧ (∀ c', Some c' ∈ h_slot s' ↔ Some c' ∈ h_slot s ∧ c' ≠ c)
    ∧ (∀ h', skynet_handle_grab hof h' s' =
             if h' =? h then Some None else skynet_handle_grab hof h' s).
Proof.
  intros Hwf Hg. pose proof Hg as Hg'. unfold skynet_handle_grab in Hg'.
  unfold skynet_handle_retire.
  destruct (zget (h_slot s) (slot_hash s h)) as [[c0|]|] eqn:Hc; simpl in Hg'; [|done|done].
  cbn [mbind option_bind]. destruct (hof c0 =? h) eqn:Heq; bool_prop; [|done]. simplify_eq.
  destruct (clear_slot hof s (hof c) c (filter (λ n, hn_handle n ≠ hof c) (h_name s)) Hwf Hc eq_refl)
    as (slot & -> & Hwf' & Hmem).
  eexists; split; [done|]. split_and!; auto. by eapply grab_delete.
Qed.

(** C4. Retiring a handle.  [skynet_handle_retire] finds exactly the context
    [skynet_handle_grab] would (and touches nothing when there is none);
    afterwards the handle is unknown, every other handle is looked up as before,
    and of the local names exactly those bound to the handle are gone. *)
Theorem handle_retire_correct hof s h :
  slots_wf hof s → names_sorted (h_name s) →
  ∃ r s', skynet_handle_grab hof h s = Some r ∧ skynet_handle_retire hof h s = Some (r, s')
    ∧ slots_wf hof s' ∧ names_sorted (h_name s')
    ∧ (∀ h', skynet_handle_grab hof h' s' =
             if h' =? h then Some None else skynet_handle_grab hof h' s)
    ∧ names_map (h_name s') =
        match r with
        | Some _ => filter (λ kv, kv.2 ≠ h) (names_map (h_name s))
        | None => names_map (h_name s)
        end.
Proof.
  intros Hwf Hs. destruct (grab_total _ _ Hwf h) as [[c|] Hg].
  - destruct (retire_hit hof s h c Hwf Hg) as (s' & Hr & Hn & Hwf' & _ & Hgr).
    destruct (names_filter_spec (h_name s) h Hs) as [Hs' Hm'].
    exists (Some c), s'. rewrite Hn. auto 10.
  - exists None, s. rewrite (retire_miss _ _ _ Hg). split_and!; auto.
    intros h'. case_if; [by subst|done].
Qed.

(** A node with one service, handle 0x1000001, named "ab". *)
Definition one_service : handle_storage :=
  mkHS 0x1000000 2 4 [None; Some 7%positive; None; None] 2 [mkHN [97; 98] 0x1000001].

Lemma one_service_wf : slots_wf (λ _, 0x1000001) one_service ∧ names_sorted (h_name one_service).
Proof.
  split; [split; simpl|repeat constructor].
  - exists 2. split; [lia|done].
  - done.
  - exists 1. split; [lia|done].
  - lia.
  - intros i c Hi. destruct i as [|[|[|[|i]]]]; simplify_eq/=. done.
Qed.

Lemma handle_retire_correct_witness :
  ∃ s', skynet_handle_retire (λ _, 0x1000001) 0x1000001 one_service = Some (Some 7%positive, s')
      ∧ names_map (h_name s') = filter (λ kv, kv.2 ≠ 0x1000001) (names_map (h_name one_service)).
Proof.
  destruct one_service_wf as [Hwf Hs].
  destruct (handle_retire_correct (λ _, 0x1000001) one_service 0x1000001 Hwf Hs)
    as (r & s' & Hg & Hr & _ & _ & _ & Hn).
  vm_compute in Hg. injection Hg as <-. exists s'. split; [exact Hr|exact Hn].
Defined.

(** C5. The local name table.  As long as the array is sorted (it starts
    empty), bisection always terminates and finds exactly the handle the name is
    bound to (0 when unbound), registering a bound name fails and changes
    nothing, and registering a fresh name adds that binding only and keeps the
    array sorted. *)
Theorem name_table_correct s name h :
  names_sorted (h_name s) → 0 < h_name_cap s <= 2 ^ 29 →
  skynet_handle_findname name s = Some (default 0 (names_map (h_name s) !! name)) ∧
  match names_map (h_name s) !! name with
  | Some _ => skynet_handle_namehandle h name s = Some (None, s)
  | None => ∃ s', skynet_handle_namehandle h name s = Some (Some name, s')
      ∧ names_sorted (h_name s') ∧ names_map (h_name s') = <[name := h]> (names_map (h_name s))
      ∧ h_slot s' = h_slot s
  end.
Proof.
  intros Hs Hcap. split; [by apply findname_spec|].
  pose proof (namehandle_spec s name h Hs Hcap) as H.
  destruct (names_map (h_name s) !! name); [done|].
  destruct H as (s' & ? & ? & ? & ? & _). eauto.
Qed.

Lemma name_table_correct_witness :
  skynet_handle_findname [97; 98] one_service = Some 0x1000001 ∧
  ∃ s', skynet_handle_namehandle 5 [97] one_service = Some (Some [97], s')
      ∧ names_sorted (h_name s').
Proof.
  destruct one_service_wf as [_ Hs].
  destruct (name_table_correct one_service [97; 98] 5 Hs) as [H _]; [simpl; lia|].
  destruct (name_table_correct one_service [97] 5 Hs) as [_ (s' & H1 & H2 & _)]; [simpl; lia|].
  split; [exact H|]. exists s'. split; [exact H1|exact H2].
Defined.

(** ** Handle 0

    [skynet_handle_init] starts at index 1 to "reserve 0 for system", and the
    rest of the code uses handle 0 for "no service". *)

(** Launch a service and let it exit again. *)
Definition churn_step (s : handle_storage) : option handle_storage :=
  '(h, s) ← skynet_handle_register (λ _, 0) 1%positive s;
  '(_, s) ← skynet_handle_retire (λ _, h) h s;
  Some s.

Fixpoint churn (n : nat) (s : handle_storage) : option handle_storage :=
  match n with
  | O => Some s
  | S n => s ← churn_step s; churn n s
  end.

(** An empty storage of harbor 0 whose next handle is [i]. *)
Definition empty_at (i : Z) : handle_storage :=
  mkHS 0 i 4 [None; None; None; None] 2 [].

Lemma empty_at_probe i : 0 <= i <= 2 ^ 24 → probe_handle (empty_at i) 0 = i mod 2 ^ 24.
Proof.
  intros. unfold probe_handle, HANDLE_MASK. simpl. rewrite u32_small by lia.
  by apply (land_ones_mod _ 24).
Qed.

Lemma empty_at_register i :
  0 <= i <= 2 ^ 24 →
  ∃ slot, zset [None; None; None; None] (i mod 4) (Some 1%positive) = Some slot ∧
  skynet_handle_register (λ _, 0) 1%positive (empty_at i) =
    Some (i mod 2 ^ 24, mkHS 0 (i mod 2 ^ 24 + 1) 4 slot 2 []).
Proof.
  intros Hi. pose proof (Z.mod_pos_bound i 4 ltac:(lia)) as Hb.
  rewrite zset_Some by (simpl; lia). eexists; split; [done|].
  unfold skynet_handle_register. cbn [register_loop empty_at h_slot_size h_slot].
  change (seqZ 0 4) with [0; 1; 2; 3]. cbn [register_scan].
  change (mkHS 0 i 4 _ 2 []) with (empty_at i). rewrite empty_at_probe by done.
  assert (Hh : slot_hash (empty_at i) (i mod 2 ^ 24) = i mod 4).
  { unfold slot_hash. simpl. rewrite (land_ones_mod _ 2) by lia.
    apply (Z.mod_mod_divide i (2 ^ 24) 4). by exists (2 ^ 22). }
  rewrite Hh. assert (Hz : zget (h_slot (empty_at i)) (i mod 4) = Some None).
  { assert (i mod 4 = 0 ∨ i mod 4 = 1 ∨ i mod 4 = 2 ∨ i mod 4 = 3) as [->|[->|[->| ->]]] by lia; done. }
  rewrite Hz. cbn [mbind option_bind]. rewrite Hh, zset_Some by (simpl; lia). simpl.
  by rewrite Z.lor_0_r.
Qed.

Lemma churn_step_index i :
  0 <= i < 2 ^ 24 → churn_step (empty_at i) = Some (empty_at (i + 1)).
Proof.
  intros Hi. unfold churn_step.
  destruct (empty_at_register i) as (slot & Hset & ->); [lia|].
  cbn [mbind option_bind]. rewrite Z.mod_small by lia.
  unfold skynet_handle_retire, slot_hash. cbn [h_slot_size h_slot].
  change (4 - 1) with (2 ^ 2 - 1). rewrite land_ones_mod by lia. change (2 ^ 2) with 4.
  rewrite (zget_zset_eq _ _ _ _ Hset). cbn [mbind option_bind]. rewrite Z.eqb_refl.
  apply zset_inv in Hset as [Hb ->]. rewrite zset_Some by (by rewrite length_insert).
  cbn [mbind option_bind field_set]. simpl. unfold empty_at. do 2 f_equal.
  assert (i mod 4 = 0 ∨ i mod 4 = 1 ∨ i mod 4 = 2 ∨ i mod 4 = 3) as [->|[->|[->| ->]]]
    by (pose proof (Z.mod_pos_bound i 4); lia); done.
Qed.

Lemma churn_index n i :
  0 <= i → i + Z.of_nat n <= 2 ^ 24 → churn n (empty_at i) = Some (empty_at (i + Z.of_nat n)).
Proof.
  revert i. induction n as [|n IH]; intros i Hi Hn.
  - simpl. by rewrite Z.add_0_r.
  - cbn [churn]. rewrite churn_step_index by lia. cbn [mbind option_bind].
    rewrite IH by lia. do 2 f_equal. lia.
Qed.

(** C33. Handle 0 is not reserved.  On a node of harbor 0, after 2^24 - 1
    services came and went one after the other, the next service is registered
    under handle 0, the value the rest of the code uses for "no service". *)
Theorem handle_zero_is_allocated :
  ∃ s s', churn (Z.to_nat (2 ^ 24 - 1)) (skynet_handle_init 0) = Some s
        ∧ skynet_handle_register (λ _, 0) 1%positive s = Some (0, s').
Proof.
  change (skynet_handle_init 0) with (empty_at 1).
  assert (Hn : Z.of_nat (Z.to_nat (2 ^ 24 - 1)) = 2 ^ 24 - 1) by (apply Z2Nat.id; lia).
  revert Hn. generalize (Z.to_nat (2 ^ 24 - 1)) as n. intros n Hn.
  exists (empty_at (2 ^ 24)). destruct (empty_at_register (2 ^ 24)) as (slot & _ & Hr); [lia|].
  eexists. split; [|exact Hr]. rewrite churn_index by lia. by rewrite Hn.
Qed.
