(* ===== verification/Timer.v ===== *)
(** * The timer wheel (skynet-src/skynet_timer.c)

    Timeouts are kept in a hierarchical wheel: 256 near lists for the current
    256-tick block and four levels of 64 lists for blocks further away, whose
    lists are spread out again when the clock reaches their block.  The file
    shows that the wheel implements the obvious specification: a timeout set
    [t] ticks ahead is delivered by exactly the [t]-th tick, once. *)

From stdpp Require Import prelude list list_numbers sorting.
From S2P Require Import Prelude.

(** ** Data *)

Definition TIME_NEAR_SHIFT : Z := 8.
Definition TIME_NEAR : Z := Z.shiftl 1 TIME_NEAR_SHIFT.
Definition TIME_LEVEL_SHIFT : Z := 6.
Definition TIME_LEVEL : Z := Z.shiftl 1 TIME_LEVEL_SHIFT.
Definition TIME_NEAR_MASK : Z := TIME_NEAR - 1.
Definition TIME_LEVEL_MASK : Z := TIME_LEVEL - 1.

Record timer_event := mkEvent { te_handle : Z; te_session : Z }.

#[export] Instance timer_event_eq_dec : EqDecision timer_event.
Proof. solve_decision. Defined.

(** A node and the event stored behind it; a [link_list] is the list of its nodes. *)
Record timer_node := mkNode { tn_expire : Z; tn_event : timer_event }.

Record timer := mkTimer {
  T_near : list (list timer_node);
  T_t : list (list (list timer_node));
  T_time : Z;
  T_starttime : Z;
  T_current : Z;
  T_current_point : Z
}.

#[export] Instance eta_timer : Eta timer :=
  λ T, mkTimer (T_near T) (T_t T) (T_time T) (T_starttime T) (T_current T) (T_current_point T).

(** ** Operations *)

(** [link(&T->near[idx], node)] *)
Definition link_near (T : timer) (idx : Z) (node : timer_node) : option timer :=
  l ← zget (T_near T) idx;
  near ← zset (T_near T) idx (l ++ [node]);
  Some (T <| T_near := near |>).

(** [link(&T->t[level][idx], node)] *)
Definition link_level (T : timer) (level idx : Z) (node : timer_node) : option timer :=
  row ← zget (T_t T) level;
  l ← zget row idx;
  row ← zset row idx (l ++ [node]);
  t ← zset (T_t T) level row;
  Some (T <| T_t := t |>).

(** [link_clear(&T->near[idx])] and [link_clear(&T->t[level][idx])] *)
Definition clear_near (T : timer) (idx : Z) : option (list timer_node * timer) :=
  l ← zget (T_near T) idx;
  near ← zset (T_near T) idx [];
  Some (l, T <| T_near := near |>).

Definition clear_level (T : timer) (level idx : Z) : option (list timer_node * timer) :=
  row ← zget (T_t T) level;
  l ← zget row idx;
  row ← zset row idx [];
  t ← zset (T_t T) level row;
  Some (l, T <| T_t := t |>).

(** [for (i=0;i<3;i++) { if (...) break; mask <<= TIME_LEVEL_SHIFT; }], with [n = 3 - i]. *)
Fixpoint find_level (n : nat) (i mask time current_time : Z) : Z :=
  match n with
  | O => i
  | S n =>
      if Z.lor time (mask - 1) =? Z.lor current_time (mask - 1) then i
      else find_level n (i + 1) (u32 (Z.shiftl mask TIME_LEVEL_SHIFT)) time current_time
  end.

Definition add_node (T : timer) (node : timer_node) : option timer :=
  let time := tn_expire node in
  let current_time := T_time T in
  if Z.lor time TIME_NEAR_MASK =? Z.lor current_time TIME_NEAR_MASK then
    link_near T (Z.land time TIME_NEAR_MASK) node
  else
    let i := find_level 3 0 (Z.shiftl TIME_NEAR TIME_LEVEL_SHIFT) time current_time in
    link_level T i
      (Z.land (Z.shiftr time (TIME_NEAR_SHIFT + i * TIME_LEVEL_SHIFT)) TIME_LEVEL_MASK) node.

Definition timer_add (T : timer) (arg : timer_event) (time : Z) : option timer :=
  add_node T (mkNode (u32 (time + T_time T)) arg).

(** [while (current)] of [move_list]. *)
Fixpoint add_nodes (T : timer) (l : list timer_node) : option timer :=
  match l with
  | [] => Some T
  | node :: l => T ← add_node T node; add_nodes T l
  end.

Definition move_list (T : timer) (level idx : Z) : option timer :=
  '(l, T) ← clear_level T level idx;
  add_nodes T l.

(** [while ((ct & (mask-1))==0)] of [timer_shift]; [ct] is not 0, so the loop
    breaks within four rounds (lemma [timer_shift_spec]). *)
Fixpoint shift_loop (fuel : nat) (T : timer) (ct mask time i : Z) : option timer :=
  match fuel with
  | O => None
  | S fuel =>
      if Z.land ct (mask - 1) =? 0 then
        let idx := Z.land time TIME_LEVEL_MASK in
        if negb (idx =? 0) then move_list T i idx
        else shift_loop fuel T ct (i32 (Z.shiftl mask TIME_LEVEL_SHIFT))
               (Z.shiftr time TIME_LEVEL_SHIFT) (i + 1)
      else Some T
  end.

Definition timer_shift (T : timer) : option timer :=
  let ct := u32 (T_time T + 1) in
  let T := T <| T_time := ct |> in
  if ct =? 0 then move_list T 3 0
  else shift_loop 4 T ct TIME_NEAR (Z.shiftr ct TIME_NEAR_SHIFT) 0.

(** [timer_execute]: the events in the order they are dispatched.  Nothing is
    added to the list while it is dispatched, so the second test of the loop
    condition ends it. *)
Fixpoint execute_loop (fuel : nat) (T : timer) (idx : Z)
    : option (list timer_event * timer) :=
  match fuel with
  | O => None
  | S fuel =>
      l ← zget (T_near T) idx;
      match l with
      | [] => Some ([], T)
      | _ =>
          '(current, T) ← clear_near T idx;
          '(evs, T) ← execute_loop fuel T idx;
          Some ((tn_event <$> current) ++ evs, T)
      end
  end.

Definition timer_execute (T : timer) : option (list timer_event * timer) :=
  execute_loop 2 T (Z.land (T_time T) TIME_NEAR_MASK).

Definition timer_update (T : timer) : option (list timer_event * timer) :=
  '(evs1, T) ← timer_execute T;
  T ← timer_shift T;
  '(evs2, T) ← timer_execute T;
  Some (evs1 ++ evs2, T).

Definition timer_create_timer : timer :=
  mkTimer (replicate (Z.to_nat TIME_NEAR) [])
          (replicate 4 (replicate (Z.to_nat TIME_LEVEL) [])) 0 0 0 0.

(** [for (i=0;i<diff;i++) timer_update(TI);], the events tick by tick. *)
Fixpoint timer_run (n : nat) (T : timer) : option (list (list timer_event) * timer) :=
  match n with
  | O => Some ([], T)
  | S n => '(evs, T) ← timer_update T; '(evss, T) ← timer_run n T; Some (evs :: evss, T)
  end.

(** The clocks, in centiseconds, from the [timespec] the kernel returned. *)
Definition systime (tv_sec tv_nsec : Z) : Z * Z := (u32 tv_sec, u32 (Z.quot tv_nsec 10000000)).
Definition gettime (tv_sec tv_nsec : Z) : Z := u64 (u64 tv_sec * 100 + Z.quot tv_nsec 10000000).

(** [skynet_updatetime] when the monotonic clock reads [cp]. *)
Definition skynet_updatetime (cp : Z) (T : timer) : option (list (list timer_event) * timer) :=
  if cp <? T_current_point T then Some ([], T <| T_current_point := cp |>)
  else if negb (cp =? T_current_point T) then
    let diff := u32 (cp - T_current_point T) in
    timer_run (Z.to_nat diff)
      (T <| T_current_point := cp |> <| T_current := u64 (T_current T + diff) |>)
  else Some ([], T).

Definition skynet_starttime (T : timer) : Z := T_starttime T.
Definition skynet_now (T : timer) : Z := T_current T.

Definition skynet_timer_init (real_sec real_nsec mono_sec mono_nsec : Z) : timer :=
  let '(sec, current) := systime real_sec real_nsec in
  timer_create_timer <| T_starttime := sec |> <| T_current := current |>
                     <| T_current_point := gettime mono_sec mono_nsec |>.

(** ** Buckets *)

Inductive loc := Near (i : Z) | Lvl (level i : Z).

#[export] Instance loc_eq_dec : EqDecision loc.
Proof. solve_decision. Defined.

Definition valid_loc (p : loc) : Prop :=
  match p with Near i => 0 <= i < 256 | Lvl lv i => 0 <= lv < 4 ∧ 0 <= i < 64 end.

Definition bucket (T : timer) (p : loc) : option (list timer_node) :=
  match p with
  | Near i => zget (T_near T) i
  | Lvl lv i => row ← zget (T_t T) lv; zget row i
  end.

Definition set_bucket (T : timer) (p : loc) (l : list timer_node) : option timer :=
  match p with
  | Near i => near ← zset (T_near T) i l; Some (T <| T_near := near |>)
  | Lvl lv i => row ← zget (T_t T) lv; row ← zset row i l;
                t ← zset (T_t T) lv row; Some (T <| T_t := t |>)
  end.

(** All pending timeouts. *)
Definition nodes (T : timer) : list timer_node :=
  concat (T_near T) ++ concat (@concat timer_node <$> T_t T).

Record shape (T : timer) : Prop := {
  shape_near : length (T_near T) = 256%nat;
  shape_t : length (T_t T) = 4%nat;
  shape_row : ∀ lv row, T_t T !! lv = Some row → length row = 64%nat
}.

(** Replacing one list of a list of lists. *)
Lemma concat_insert {A} (ls : list (list A)) i l :
  ls !! i = Some l →
  ∃ rest, concat ls ≡ₚ l ++ rest ∧ ∀ l', concat (<[i := l']> ls) ≡ₚ l' ++ rest.
Proof.
  intros Hi. exists (concat (take i ls) ++ concat (drop (S i) ls)).
  pose proof (lookup_lt_Some _ _ _ Hi) as Hlt. split.
  - rewrite <- (take_drop_middle ls i l Hi) at 1.
    rewrite concat_app. simpl. rewrite !app_assoc. f_equiv. apply Permutation_app_comm.
  - intros l'. rewrite insert_take_drop by done. rewrite concat_app. simpl.
    rewrite !app_assoc. f_equiv. apply Permutation_app_comm.
Qed.

Lemma bucket_spec T p :
  shape T → valid_loc p →
  ∃ l, bucket T p = Some l ∧ ∃ rest, nodes T ≡ₚ l ++ rest ∧
    ∀ l', ∃ T', set_bucket T p l' = Some T' ∧ nodes T' ≡ₚ l' ++ rest ∧ shape T'
      ∧ T_time T' = T_time T
      ∧ ∀ p', bucket T' p' = if decide (p' = p) then Some l' else bucket T p'.
Proof.
  intros [] Hp. destruct p as [i|lv i]; simpl in Hp.
  - destruct (zget_is_Some (T_near T) i) as [l Hl]; [lia|]. exists l. split; [done|].
    destruct (concat_insert _ _ _ (zget_lookup _ _ _ Hl)) as (rest & Hr & Hr').
    exists (rest ++ concat (@concat timer_node <$> T_t T)). unfold nodes. split.
    { rewrite Hr. by rewrite app_assoc. }
    intros l'. simpl. pose proof (zset_Some (T_near T) i l' ltac:(lia)) as Hs. rewrite Hs. simpl.
    eexists; split; [done|]. split_and!.
    + simpl. rewrite Hr'. by rewrite app_assoc.
    + split; simpl; [by rewrite length_insert|done|done].
    + done.
    + intros [j|lv' j]; [|by rewrite decide_False]. cbn [bucket field_set T_near T_t].
      case_decide; simplify_eq; [by apply (zget_zset_eq _ _ _ _ Hs)|].
      apply (zget_zset_ne _ _ _ _ _ Hs). congruence.
  - destruct (zget_is_Some (T_t T) lv) as [row Hrow]; [lia|].
    pose proof (zget_lookup _ _ _ Hrow) as Hrow'. pose proof (shape_row0 _ _ Hrow') as Hlen.
    destruct (zget_is_Some row i) as [l Hl]; [lia|]. simpl. rewrite Hrow. simpl.
    exists l. split; [done|].
    destruct (concat_insert (@concat timer_node <$> T_t T) (Z.to_nat lv) (concat row)) as (r1 & H1 & H1').
    { by rewrite list_lookup_fmap, Hrow'. }
    destruct (concat_insert _ _ _ (zget_lookup _ _ _ Hl)) as (r2 & H2 & H2').
    exists (r2 ++ r1 ++ concat (T_near T)). unfold nodes. split.
    { rewrite H1, H2. rewrite (Permutation_app_comm (concat (T_near T))), <- !app_assoc. done. }
    intros l'. pose proof (zset_Some row i l' ltac:(lia)) as Hs1. rewrite Hs1. simpl.
    pose proof (zset_Some (T_t T) lv (<[Z.to_nat i := l']> row) ltac:(lia)) as Hs2.
    rewrite Hs2. simpl. eexists; split; [done|]. split_and!.
    + simpl. rewrite list_fmap_insert, H1', H2'.
      rewrite (Permutation_app_comm (concat (T_near T))), <- !app_assoc. done.
    + split; simpl; [done|by rewrite length_insert|].
      intros k r [(<- & <- & _)|[_ Hk]]%list_lookup_insert_Some; [by rewrite length_insert|eauto].
    + done.
    + intros [j|lv' j]; [by rewrite decide_False|]. cbn [bucket field_set T_near T_t].
      destruct (decide (lv' = lv)) as [->|Hne].
      * rewrite (zget_zset_eq _ _ _ _ Hs2). simpl. rewrite Hrow. simpl.
        case_decide; simplify_eq; [by apply (zget_zset_eq _ _ _ _ Hs1)|].
        apply (zget_zset_ne _ _ _ _ _ Hs1). congruence.
      * rewrite (zget_zset_ne _ _ _ _ _ Hs2) by done. rewrite decide_False by congruence. done.
Qed.

Lemma link_near_bucket T i n l :
  bucket T (Near i) = Some l → link_near T i n = set_bucket T (Near i) (l ++ [n]).
Proof. unfold link_near. simpl. by intros ->. Qed.

Lemma link_level_bucket T lv i n l :
  bucket T (Lvl lv i) = Some l → link_level T lv i n = set_bucket T (Lvl lv i) (l ++ [n]).
Proof.
  unfold link_level. simpl. destruct (zget (T_t T) lv); simpl; [|done]. by intros ->.
Qed.

Lemma clear_near_bucket T i l :
  bucket T (Near i) = Some l → clear_near T i = T' ← set_bucket T (Near i) []; Some (l, T').
Proof.
  unfold clear_near. simpl. intros ->. simpl. by destruct (zset (T_near T) i []).
Qed.

Lemma clear_level_bucket T lv i l :
  bucket T (Lvl lv i) = Some l →
  clear_level T lv i = T' ← set_bucket T (Lvl lv i) []; Some (l, T').
Proof.
  unfold clear_level. simpl. destruct (zget (T_t T) lv); simpl; [|done]. intros ->. simpl.
  destruct (zset l0 i []); simpl; [|done]. by destruct (zset (T_t T) lv l1).
Qed.

(** ** Where a timeout belongs *)

(** A list of level [lv] covers [span lv] ticks. *)
Definition span (lv : Z) : Z := 2 ^ (8 + 6 * lv).
Definition digit (x lv : Z) : Z := x / span lv mod 2 ^ 6.

(** The bucket of a timeout that expires at [e] when the clock reads [c]: the
    first level on which the two agree above their digit. *)
Fixpoint lvl_of (n : nat) (lv e c : Z) : loc :=
  match n with
  | O => Lvl lv (digit e lv)
  | S n => if e / span (lv + 1) =? c / span (lv + 1) then Lvl lv (digit e lv)
           else lvl_of n (lv + 1) e c
  end.

Definition loc_of (e c : Z) : loc :=
  if e / span 0 =? c / span 0 then Near (e mod span 0) else lvl_of 3 0 e c.

Lemma lvl_of_valid n lv e c :
  0 <= lv → lv + Z.of_nat n = 3 → valid_loc (lvl_of n lv e c).
Proof.
  revert lv. induction n as [|n IH]; intros lv Hlv Hn; simpl; [|case_if; [|apply IH; lia]];
    simpl; pose proof (Z.mod_pos_bound (e / span lv) (2 ^ 6)); unfold digit; lia.
Qed.

Lemma loc_of_valid e c : valid_loc (loc_of e c).
Proof.
  unfold loc_of. case_if; [|by apply lvl_of_valid]. by apply (Z.mod_pos_bound e (2 ^ 8)).
Qed.

Lemma lor_ones_eqb a b k :
  0 <= k → (Z.lor a (2 ^ k - 1) =? Z.lor b (2 ^ k - 1)) = (a / 2 ^ k =? b / 2 ^ k).
Proof.
  intros. apply eq_true_iff_eq. rewrite !Z.eqb_eq. by apply lor_ones_eq.
Qed.

(** [add_node] appends the node to the list it belongs to. *)
Lemma add_node_loc T n :
  shape T →
  add_node T n =
    l ← bucket T (loc_of (tn_expire n) (T_time T));
    set_bucket T (loc_of (tn_expire n) (T_time T)) (l ++ [n]).
Proof.
  intros HT. pose proof (loc_of_valid (tn_expire n) (T_time T)) as Hv.
  destruct (bucket_spec T _ HT Hv) as (l & Hl & _). rewrite Hl. cbn [mbind option_bind].
  revert Hl. unfold add_node, loc_of, find_level, lvl_of, digit, span. clear Hv.
  change (2 ^ (8 + 6 * 0)) with (2 ^ 8). change (2 ^ (8 + 6 * (0 + 1))) with (2 ^ 14).
  change (2 ^ (8 + 6 * (0 + 1 + 1))) with (2 ^ 20).
  change (2 ^ (8 + 6 * (0 + 1 + 1 + 1))) with (2 ^ 26).
  change TIME_NEAR_MASK with (2 ^ 8 - 1). change (Z.shiftl TIME_NEAR TIME_LEVEL_SHIFT) with (2 ^ 14).
  change (u32 (Z.shiftl (2 ^ 14) TIME_LEVEL_SHIFT)) with (2 ^ 20).
  change (u32 (Z.shiftl (2 ^ 20) TIME_LEVEL_SHIFT)) with (2 ^ 26).
  change TIME_LEVEL_MASK with (2 ^ 6 - 1).
  rewrite !lor_ones_eqb, !land_ones_mod by lia.
  destruct (tn_expire n / 2 ^ 8 =? _); [apply link_near_bucket|].
  destruct (tn_expire n / 2 ^ 14 =? _); [|destruct (tn_expire n / 2 ^ 20 =? _);
    [|destruct (tn_expire n / 2 ^ 26 =? _)]];
  rewrite Z.shiftr_div_pow2 by done; apply link_level_bucket.
Qed.

(** No access leaves the wheel, whatever it holds. *)
Lemma shape_add_node T n : shape T → ∃ T', add_node T n = Some T' ∧ shape T'.
Proof.
  intros HT. rewrite (add_node_loc T n HT).
  destruct (bucket_spec T _ HT (loc_of_valid (tn_expire n) (T_time T))) as (l & -> & rest & _ & Hset).
  destruct (Hset (l ++ [n])) as (T' & H & _ & Hs & _). exists T'. by split.
Qed.

Lemma shape_add_nodes l T : shape T → ∃ T', add_nodes T l = Some T' ∧ shape T'.
Proof.
  revert T. induction l as [|n l IH]; intros T HT; [by exists T|].
  destruct (shape_add_node T n HT) as (T1 & H1 & HT1). simpl. rewrite H1. simpl. by apply IH.
Qed.

Lemma shape_move_list T lv i : shape T → valid_loc (Lvl lv i) → ∃ T', move_list T lv i = Some T' ∧ shape T'.
Proof.
  intros HT Hv. unfold move_list.
  destruct (bucket_spec T _ HT Hv) as (l & Hl & rest & _ & Hset).
  destruct (Hset []) as (T' & H & _ & Hs & _). rewrite (clear_level_bucket _ _ _ _ Hl), H.
  by apply shape_add_nodes.
Qed.

(** The timeouts are all where they belong, and none is more than 2^31 ticks
    (or fewer than [d] ticks) ahead. *)
Definition ahead (c : Z) (n : timer_node) : Z := (tn_expire n - c) mod 2 ^ 32.

Record wheel (d : Z) (T : timer) : Prop := {
  wheel_shape : shape T;
  wheel_time : 0 <= T_time T < 2 ^ 32;
  wheel_node : ∀ p l n, bucket T p = Some l → n ∈ l →
    p = loc_of (tn_expire n) (T_time T) ∧ 0 <= tn_expire n < 2 ^ 32
    ∧ d <= ahead (T_time T) n < 2 ^ 31
}.

Lemma wheel_add_node d T n :
  wheel d T → 0 <= tn_expire n < 2 ^ 32 → d <= ahead (T_time T) n < 2 ^ 31 →
  ∃ T', add_node T n = Some T' ∧ wheel d T' ∧ nodes T' ≡ₚ n :: nodes T ∧ T_time T' = T_time T.
Proof.
  intros [Hs Ht Hn] He Ha. set (p := loc_of (tn_expire n) (T_time T)).
  destruct (bucket_spec T p Hs (loc_of_valid _ _)) as (l & Hl & rest & Hr & Hset).
  destruct (Hset (l ++ [n])) as (T' & HT' & Hr' & Hs' & Ht' & Hb').
  exists T'. rewrite (add_node_loc T n Hs). fold p. rewrite Hl. cbn [mbind option_bind].
  split_and!; auto.
  - split; [done|by rewrite Ht'|]. intros p' l' n' Hp Hin. rewrite Hb' in Hp. rewrite Ht'.
    case_decide; [|eauto]. simplify_eq. apply elem_of_app in Hin as [Hin|Hin]; [eauto|].
    apply list_elem_of_singleton in Hin as ->. done.
  - rewrite Hr', Hr. rewrite <- app_assoc. simpl. by rewrite <- Permutation_middle.
Qed.

Lemma wheel_add_nodes d T l :
  wheel d T → (∀ n, n ∈ l → 0 <= tn_expire n < 2 ^ 32 ∧ d <= ahead (T_time T) n < 2 ^ 31) →
  ∃ T', add_nodes T l = Some T' ∧ wheel d T' ∧ nodes T' ≡ₚ l ++ nodes T ∧ T_time T' = T_time T.
Proof.
  revert T. induction l as [|n l IH]; intros T Hw Hl; [by exists T|].
  destruct (Hl n) as [He Ha]; [set_solver|].
  destruct (wheel_add_node d T n Hw He Ha) as (T1 & H1 & Hw1 & Hn1 & Ht1). simpl. rewrite H1. simpl.
  destruct (IH T1 Hw1) as (T2 & H2 & Hw2 & Hn2 & Ht2).
  { intros m Hm. rewrite Ht1. apply Hl. set_solver. }
  exists T2. split_and!; auto; [|congruence]. rewrite Hn2, Hn1. by rewrite <- Permutation_middle.
Qed.

(** The list [timer_shift] spreads out when the clock arrives at [ct]: that of
    the lowest level on which [ct] has a non-zero digit. *)
Fixpoint shift_of (n : nat) (lv ct : Z) : loc :=
  match n with
  | O => Lvl lv (digit ct lv)
  | S n => if digit ct lv =? 0 then shift_of n (lv + 1) ct else Lvl lv (digit ct lv)
  end.

Definition shifted (ct : Z) : option loc :=
  if ct =? 0 then Some (Lvl 3 0)
  else if ct mod span 0 =? 0 then Some (shift_of 3 0 ct) else None.

Lemma step_div x k :
  0 <= k →
  ((x + 1) mod 2 ^ k ≠ 0 ∧ (x + 1) / 2 ^ k = x / 2 ^ k) ∨
  ((x + 1) mod 2 ^ k = 0 ∧ (x + 1) / 2 ^ k = x / 2 ^ k + 1 ∧ x mod 2 ^ k = 2 ^ k - 1).
Proof.
  intros Hk. assert (0 < 2 ^ k) as Hp by lia. revert Hp. generalize (2 ^ k) as p. clear k Hk.
  intros p Hp. pose proof (Z.div_mod x p ltac:(lia)) as Hx. pose proof (Z.mod_pos_bound x p Hp).
  destruct (decide (x mod p = p - 1)) as [Heq|Hne].
  - right. assert (x + 1 = (x / p + 1) * p + 0) as -> by lia.
    rewrite Z.add_0_r, Z.mod_mul, Z.div_mul by lia. auto.
  - left. assert (Hr : x + 1 = p * (x / p) + (x mod p + 1)) by lia.
    assert (Hb : 0 <= x mod p + 1 < p) by lia.
    pose proof (Z.mod_unique_pos _ _ _ _ Hb Hr). pose proof (Z.div_unique_pos _ _ _ _ Hb Hr). lia.
Qed.

Lemma span_pos lv : 0 <= lv → 0 < span lv.
Proof. intros. unfold span. lia. Qed.

Lemma span_succ lv : 0 <= lv → span (lv + 1) = span lv * 2 ^ 6.
Proof. intros. unfold span. rewrite <- Z.pow_add_r by lia. f_equal. lia. Qed.

Lemma block_succ lv x y :
  0 <= lv → x / span lv = y / span lv → x / span (lv + 1) = y / span (lv + 1).
Proof.
  intros Hlv H. pose proof (span_pos lv Hlv). rewrite span_succ, <- !Z.div_div by lia. by rewrite H.
Qed.

Lemma digit_zero x lv :
  0 <= lv → x mod span lv = 0 → digit x lv = 0 ↔ x mod span (lv + 1) = 0.
Proof.
  intros Hlv Hx. pose proof (span_pos lv Hlv). unfold digit. rewrite span_succ by done.
  rewrite (Z.rem_mul_r x (span lv) (2 ^ 6)), Hx by lia. rewrite Z.add_0_l, Z.mul_eq_0. intuition lia.
Qed.

(** While [e] is ahead of [c] within a block, [c] is not the block's last tick. *)
Lemma ahead_block e c lv :
  0 <= e < 2 ^ 32 → 0 <= c < 2 ^ 32 → 0 < (e - c) mod 2 ^ 32 < 2 ^ 31 → 0 <= lv <= 3 →
  c mod span lv = span lv - 1 → e / span lv ≠ c / span lv.
Proof.
  intros He Hc Ha Hk Hm Heq. pose proof (span_pos lv ltac:(lia)).
  pose proof (Z.div_mod e (span lv) ltac:(lia)). pose proof (Z.div_mod c (span lv) ltac:(lia)).
  pose proof (Z.mod_pos_bound e (span lv) ltac:(lia)).
  assert (span lv <= 2 ^ 26) by (apply Z.pow_le_mono_r; lia).
  rewrite Heq in *. assert (Hle : - 2 ^ 26 <= e - c <= 0) by lia.
  destruct (decide (e = c)) as [->|]; [rewrite Z.sub_diag, Z.mod_0_l in Ha; lia|].
  rewrite <- (Z.mod_unique_pos (e - c) (2 ^ 32) (-1) (e - c + 2 ^ 32)) in Ha; lia.
Qed.

Lemma lvl_of_same n lv e c c' :
  0 <= lv → c' / span (lv + 1) = c / span (lv + 1) → lvl_of n lv e c' = lvl_of n lv e c.
Proof.
  revert lv. induction n as [|n IH]; intros lv Hlv H; simpl; [done|].
  rewrite H. case_if; [done|]. apply IH; [lia|]. apply block_succ; [lia|done].
Qed.

(** The clock enters a new block of level [lv]: the timeouts of that block are
    those of the list that is spread out, the others stay where they are. *)
Lemma lvl_of_shift e c n lv :
  0 <= e < 2 ^ 32 → 0 <= c < 2 ^ 32 → 0 < (e - c) mod 2 ^ 32 < 2 ^ 31 →
  0 <= lv → lv + Z.of_nat n = 3 → (c + 1) mod span lv = 0 →
  lvl_of n lv e c = shift_of n lv (c + 1)
  ∨ (e / span lv ≠ (c + 1) / span lv ∧ lvl_of n lv e (c + 1) = lvl_of n lv e c).
Proof.
  intros He Hc Ha. revert lv. induction n as [|n IH]; intros lv Hlv Hn Hm; simpl.
  { destruct (decide (e / span lv = (c + 1) / span lv)) as [Heq|]; [|by right].
    left. unfold digit. by rewrite Heq. }
  pose proof (digit_zero (c + 1) lv Hlv Hm) as Hd.
  destruct (step_div c (8 + 6 * (lv + 1))) as [[Hb E]|(Hb & E & M)]; [lia| |];
    fold (span (lv + 1)) in *.
  - rewrite (proj2 (Z.eqb_neq (digit (c + 1) lv) 0)) by tauto. rewrite E.
    destruct (decide (e / span lv = (c + 1) / span lv)) as [Heq|Hne]; [left|right].
    + rewrite (proj2 (Z.eqb_eq (e / span (lv + 1)) _)).
      * unfold digit. by rewrite Heq.
      * rewrite <- E. by apply block_succ.
    + split; [done|]. case_if; [done|]. apply lvl_of_same; [lia|]. apply block_succ; [lia|done].
  - rewrite (proj2 (Z.eqb_eq (digit (c + 1) lv) 0)) by tauto.
    rewrite (proj2 (Z.eqb_neq (e / span (lv + 1)) (c / span (lv + 1))))
      by (apply ahead_block; auto; lia).
    destruct (IH (lv + 1)) as [H|[Hne H]]; [lia|lia|done|by left|right].
    split; [|by rewrite (proj2 (Z.eqb_neq (e / span (lv + 1)) _)) by done].
    intros Heq. by apply Hne, block_succ.
Qed.

(** The heart of the wheel: when the clock advances, a timeout that is still
    ahead changes its place only if it is in the list that is spread out. *)
Lemma loc_of_shift e c :
  0 <= e < 2 ^ 32 → 0 <= c < 2 ^ 32 → 0 < (e - c) mod 2 ^ 32 < 2 ^ 31 →
  Some (loc_of e c) = shifted (u32 (c + 1)) ∨ loc_of e (u32 (c + 1)) = loc_of e c.
Proof.
  intros He Hc Ha. unfold u32, shifted, loc_of.
  destruct (decide (c = 2 ^ 32 - 1)) as [->|Hlast].
  { pose proof (λ lv, ahead_block e (2 ^ 32 - 1) lv He Hc Ha) as Hblk.
    change ((2 ^ 32 - 1 + 1) mod 2 ^ 32) with 0. simpl (0 =? 0). cbn [lvl_of].
    rewrite !(proj2 (Z.eqb_neq (e / span _) ((2 ^ 32 - 1) / span _)));
      [|apply Hblk; [lia|reflexivity]..].
    unfold digit, span. simpl (2 ^ _). repeat case_if; auto; left; do 2 f_equal; zify_div. }
  rewrite (Z.mod_small (c + 1)), (proj2 (Z.eqb_neq (c + 1) 0)) by lia.
  destruct (step_div c (8 + 6 * 0)) as [[Hb E]|(Hb & E & M)]; [lia| |]; fold (span 0) in *.
  - right. rewrite E. case_if; [done|]. apply lvl_of_same; [lia|]. by apply block_succ.
  - rewrite (proj2 (Z.eqb_eq ((c + 1) mod span 0) 0)) by done.
    rewrite (proj2 (Z.eqb_neq (e / span 0) (c / span 0))) by (apply ahead_block; auto; lia).
    destruct (lvl_of_shift e c 3 0) as [H|[Hne H]]; auto; [lia| |].
    + left. by rewrite H.
    + right. by rewrite (proj2 (Z.eqb_neq (e / span 0) _)) by done.
Qed.

(** ** One tick *)

(** Assigning [T->time] leaves the lists alone. *)
Lemma bucket_time T c p : bucket (T <| T_time := c |>) p = bucket T p.
Proof. by destruct p. Qed.

Lemma shape_time T c : shape T → shape (T <| T_time := c |>).
Proof. by intros []; split. Qed.

Definition move_loc (T : timer) (p : loc) : option timer :=
  match p with Lvl lv i => move_list T lv i | Near _ => Some T end.

Lemma shift_loop_spec T ct n lv :
  0 < ct < 2 ^ 32 → 0 <= lv → lv + Z.of_nat n = 3 → ct mod span lv = 0 →
  shift_loop (S n) T ct (span lv) (ct / span lv) lv = move_loc T (shift_of n lv ct).
Proof.
  intros Hct. revert lv. induction n as [|n IH]; intros lv Hlv Hn Hm; cbn [shift_loop];
    pose proof (span_pos lv Hlv) as Hp; pose proof (digit_zero ct lv Hlv Hm) as Hd;
    unfold span at 1; rewrite land_ones_mod by lia; fold (span lv); rewrite Hm;
    change TIME_LEVEL_MASK with (2 ^ 6 - 1); rewrite land_ones_mod by lia;
    fold (digit ct lv); simpl (0 =? 0); cbn [shift_of move_loc].
  - rewrite (proj2 (Z.eqb_neq (digit ct lv) 0)); [done|]. rewrite Hd.
    assert (lv = 3) as -> by lia. change (span (3 + 1)) with (2 ^ 32). rewrite Z.mod_small; lia.
  - destruct (digit ct lv =? 0) eqn:E; [|done]. bool_prop. simpl negb. cbn iota.
    rewrite Z.shiftl_mul_pow2, Z.shiftr_div_pow2 by done. change (2 ^ TIME_LEVEL_SHIFT) with (2 ^ 6).
    rewrite <- span_succ, Z.div_div, <- span_succ by lia.
    assert (span (lv + 1) <= 2 ^ 26) by (apply Z.pow_le_mono_r; lia).
    pose proof (span_pos (lv + 1) ltac:(lia)). rewrite i32_small by lia.
    apply IH; [lia|lia|by apply Hd].
Qed.

Lemma timer_shift_eq T :
  timer_shift T =
    let ct := u32 (T_time T + 1) in
    from_option (move_loc (T <| T_time := ct |>)) (Some (T <| T_time := ct |>)) (shifted ct).
Proof.
  unfold timer_shift, shifted. set (ct := u32 (T_time T + 1)).
  pose proof (u32_bound (T_time T + 1) : 0 <= ct < 2 ^ 32) as Hb. cbn zeta.
  destruct (ct =? 0) eqn:E; [done|]. bool_prop.
  destruct (ct mod span 0 =? 0) eqn:Em.
  - bool_prop. rewrite Z.shiftr_div_pow2 by done.
    apply (shift_loop_spec _ ct 3 0); auto; lia.
  - cbn [shift_loop]. change (TIME_NEAR - 1) with (2 ^ 8 - 1). rewrite land_ones_mod by done.
    change (2 ^ 8) with (span 0). by rewrite Em.
Qed.

Lemma shifted_valid ct p : shifted ct = Some p → valid_loc p ∧ ∃ lv i, p = Lvl lv i.
Proof.
  assert (∀ x lv, 0 <= lv < 4 → valid_loc (Lvl lv (digit x lv))) as Hd.
  { intros x lv ?. split; [lia|]. by apply (Z.mod_pos_bound _ (2 ^ 6)). }
  unfold shifted. cbn [shift_of]. repeat case_if; intros [= <-]; split; eauto; try (apply Hd; lia).
  simpl. lia.
Qed.

Lemma shape_timer_shift T : shape T → ∃ T', timer_shift T = Some T' ∧ shape T'.
Proof.
  intros HT. rewrite timer_shift_eq. cbn zeta. pose proof (shape_time T (u32 (T_time T + 1)) HT) as HT'.
  destruct (shifted _) as [p|] eqn:Hp; cbn [from_option]; [|by eauto].
  destruct (shifted_valid _ p Hp) as [Hv (lv & i & ->)]. by apply shape_move_list.
Qed.

Lemma ahead_step c n :
  1 <= ahead c n → ahead (u32 (c + 1)) n = ahead c n - 1.
Proof. unfold ahead, u32. intros. zify_div. Qed.

Lemma ahead_zero c n : 0 <= c < 2 ^ 32 → 0 <= tn_expire n < 2 ^ 32 → ahead c n = 0 ↔ tn_expire n = c.
Proof. unfold ahead. intros. split; intros; [zify_div|]. subst. by rewrite Z.sub_diag. Qed.

(** After the clock has moved on, a node outside the list that is spread out is
    still where it belongs. *)
Lemma wheel_step_node T p l n :
  wheel 1 T → bucket T p = Some l → n ∈ l →
  let ct := u32 (T_time T + 1) in
  0 <= tn_expire n < 2 ^ 32 ∧ 0 <= ahead ct n < 2 ^ 31
  ∧ (shifted ct ≠ Some p → p = loc_of (tn_expire n) ct).
Proof.
  intros [_ Ht Hn] Hb Hin ct. destruct (Hn p l n Hb Hin) as (-> & He & Ha).
  subst ct. rewrite ahead_step by lia. split_and!; [lia..|]. intros Hs.
  destruct (loc_of_shift (tn_expire n) (T_time T)) as [E|E]; auto; [unfold ahead in Ha; lia|congruence].
Qed.

Lemma timer_shift_spec T :
  wheel 1 T →
  ∃ T', timer_shift T = Some T' ∧ wheel 0 T' ∧ nodes T' ≡ₚ nodes T
    ∧ T_time T' = u32 (T_time T + 1).
Proof.
  intros Hw. rewrite timer_shift_eq. cbn zeta. set (ct := u32 (T_time T + 1)).
  pose proof (u32_bound (T_time T + 1) : 0 <= ct < 2 ^ 32) as Hct.
  destruct (shifted ct) as [p|] eqn:Hp; cbn [from_option].
  - destruct (shifted_valid ct p Hp) as [Hv (lv & i & ->)]. cbn [move_loc]. unfold move_list.
    destruct (bucket_spec _ _ (shape_time T ct (wheel_shape _ _ Hw)) Hv)
      as (l & Hl & rest & Hr & Hset).
    rewrite (clear_level_bucket _ _ _ _ Hl).
    destruct (Hset []) as (T1 & H1 & Hr1 & Hs1 & Ht1 & Hb1). rewrite H1.
    cbn [mbind option_bind]. simpl in Ht1. rewrite bucket_time in Hl.
    destruct (wheel_add_nodes 0 T1 l) as (T2 & H2 & Hw2 & Hn2 & Ht2).
    + split; [done|by rewrite Ht1|]. intros p' l' n Hb Hin. rewrite Hb1 in Hb. rewrite Ht1.
      case_decide; [simplify_eq; set_solver|]. rewrite bucket_time in Hb.
      destruct (wheel_step_node T p' l' n Hw Hb Hin) as (He & Ha & Hloc).
      split; [|exact (conj He Ha)]. apply Hloc. fold ct. rewrite Hp. congruence.
    + intros n Hin. rewrite Ht1. by destruct (wheel_step_node T _ l n Hw Hl Hin) as (He & Ha & _).
    + exists T2. split_and!; [done|done| |congruence].
      rewrite Hn2, Hr1. simpl. by rewrite <- Hr.
  - eexists. split; [done|]. split_and!; [|done|done].
    split; [by apply shape_time; destruct Hw|done|].
    intros p l n Hb Hin. rewrite bucket_time in Hb.
    destruct (wheel_step_node T p l n Hw Hb Hin) as (He & Ha & Hloc).
    split; [|exact (conj He Ha)]. apply Hloc. fold ct. by rewrite Hp.
Qed.

Lemma elem_of_concat {A} (x : A) ls : x ∈ concat ls → ∃ l, x ∈ l ∧ l ∈ ls.
Proof.
  induction ls as [|l ls IH]; simpl; [by intros ?%not_elem_of_nil|].
  intros [H|(l' & ? & ?)%IH]%elem_of_app; [exists l|exists l']; split; auto; set_solver.
Qed.

Lemma elem_of_nodes T n :
  shape T → n ∈ nodes T → ∃ p l, bucket T p = Some l ∧ n ∈ l.
Proof.
  intros HT Hn. unfold nodes in Hn. apply elem_of_app in Hn as [Hn|Hn].
  - apply elem_of_concat in Hn as (l & Hin & Hl).
    apply list_elem_of_lookup in Hl as [i Hi]. exists (Near (Z.of_nat i)), l.
    simpl. by rewrite zget_nat.
  - apply elem_of_concat in Hn as (l & Hin & Hl).
    apply list_elem_of_fmap in Hl as (row & -> & Hrow).
    apply elem_of_concat in Hin as (l & Hin & Hl).
    apply list_elem_of_lookup in Hrow as [lv Hlv]. apply list_elem_of_lookup in Hl as [i Hi].
    exists (Lvl (Z.of_nat lv) (Z.of_nat i)), l. simpl. rewrite zget_nat, Hlv. simpl.
    by rewrite zget_nat.
Qed.

Lemma wheel_elem d T n :
  wheel d T → n ∈ nodes T → 0 <= tn_expire n < 2 ^ 32 ∧ d <= ahead (T_time T) n < 2 ^ 31.
Proof.
  intros [Hs _ Hn] Hin. destruct (elem_of_nodes T n Hs Hin) as (p & l & Hb & Hl).
  by apply (Hn p l n Hb Hl).
Qed.

(** The current near list holds exactly the timeouts that are due. *)
Lemma loc_of_due e c :
  0 <= e < 2 ^ 32 → 0 <= c < 2 ^ 32 → loc_of e c = Near (c mod span 0) ↔ e = c.
Proof.
  intros He Hc. unfold loc_of. split.
  - case_if; [|].
    + intros [= Hm]. pose proof (Z.div_mod e (span 0) ltac:(done)).
      pose proof (Z.div_mod c (span 0) ltac:(done)). congruence.
    + cbn [lvl_of]. by repeat case_if.
  - intros ->. by rewrite Z.eqb_refl.
Qed.

Lemma timer_execute_spec T :
  wheel 0 T →
  ∃ due T', timer_execute T = Some (tn_event <$> due, T') ∧ wheel 1 T'
    ∧ T_time T' = T_time T ∧ nodes T ≡ₚ due ++ nodes T'
    ∧ ∀ n, n ∈ due → ahead (T_time T) n = 0.
Proof.
  intros Hw. pose proof Hw as [Hs Ht Hn]. unfold timer_execute.
  change TIME_NEAR_MASK with (2 ^ 8 - 1). rewrite land_ones_mod by done.
  change (2 ^ 8) with (span 0). set (i := T_time T mod span 0).
  assert (Hv : valid_loc (Near i)) by (apply (Z.mod_pos_bound _ (2 ^ 8)); lia).
  destruct (bucket_spec T _ Hs Hv) as (l & Hl & rest & Hr & Hset).
  destruct (Hset []) as (T1 & H1 & Hr1 & Hs1 & Ht1 & Hb1).
  assert (Hdue : ∀ n, n ∈ l → ahead (T_time T) n = 0).
  { intros n Hin. destruct (Hn _ _ _ Hl Hin) as (Hloc & He & _).
    apply ahead_zero; auto. apply loc_of_due; auto. }
  assert (Hrest : ∀ p l' n, bucket T p = Some l' → n ∈ l' → p ≠ Near i →
    p = loc_of (tn_expire n) (T_time T) ∧ 0 <= tn_expire n < 2 ^ 32
    ∧ 1 <= ahead (T_time T) n < 2 ^ 31).
  { intros p l' n Hb Hin Hp. destruct (Hn p l' n Hb Hin) as (-> & He & Ha).
    do 2 (split; [done|]). enough (ahead (T_time T) n ≠ 0) by lia. intros E. apply Hp.
    apply ahead_zero in E; auto. by apply loc_of_due. }
  cbn [execute_loop]. cbn [bucket] in Hl. rewrite Hl. cbn [mbind option_bind].
  destruct l as [|n l].
  - exists [], T. split_and!; auto. split; auto. intros p l' n Hb Hin. eapply Hrest; eauto.
    intros ->. cbn [bucket] in Hb. simplify_eq. set_solver.
  - rewrite (clear_near_bucket _ _ _ Hl), H1. cbn [mbind option_bind].
    pose proof (Hb1 (Near i)) as Hempty. rewrite decide_True in Hempty by done.
    cbn [bucket] in Hempty. rewrite Hempty. cbn [mbind option_bind]. rewrite app_nil_r.
    exists (n :: l), T1. split_and!; auto.
    + split; auto; rewrite Ht1; auto. intros p l' m Hb Hin. rewrite Hb1 in Hb.
      case_decide; [simplify_eq; set_solver|eauto].
    + rewrite Hr, Hr1. done.
Qed.

(** ** The specification: countdowns

    A timeout is its event and the number of ticks left; a tick delivers the
    events with at most one tick left and decrements the others. *)

Abbreviation countdown := (list (Z * timer_event)).

Definition abs_timer (T : timer) : countdown :=
  (λ n, (ahead (T_time T) n, tn_event n)) <$> nodes T.

Definition spec_due (s : countdown) : list timer_event :=
  snd <$> filter (λ x, x.1 <= 1) s.

Definition spec_tick (s : countdown) : countdown :=
  (λ x, (x.1 - 1, x.2)) <$> filter (λ x, ¬ x.1 <= 1) s.

#[export] Instance spec_due_proper : Proper ((≡ₚ) ==> (≡ₚ)) spec_due.
Proof. intros s s' E. unfold spec_due. by rewrite E. Qed.

#[export] Instance spec_tick_proper : Proper ((≡ₚ) ==> (≡ₚ)) spec_tick.
Proof. intros s s' E. unfold spec_tick. by rewrite E. Qed.

Lemma spec_due_app s s' : spec_due (s ++ s') = spec_due s ++ spec_due s'.
Proof. unfold spec_due. by rewrite filter_app, fmap_app. Qed.

Lemma spec_tick_app s s' : spec_tick (s ++ s') = spec_tick s ++ spec_tick s'.
Proof. unfold spec_tick. by rewrite filter_app, fmap_app. Qed.

Definition counted (f : timer_node → Z) (l : list timer_node) : countdown :=
  (λ n, (f n, tn_event n)) <$> l.

Lemma counted_due f l :
  (∀ n, n ∈ l → f n <= 1) →
  spec_due (counted f l) = tn_event <$> l ∧ spec_tick (counted f l) = [].
Proof.
  intros Hf. unfold spec_due, spec_tick, counted. induction l as [|n l IH]; [done|].
  pose proof (Hf n ltac:(set_solver)). destruct IH as [IH1 IH2]; [set_solver|].
  rewrite fmap_cons, !filter_cons. cbn [fst]. rewrite decide_True, decide_False by tauto.
  rewrite fmap_cons, IH1, IH2. done.
Qed.

Lemma counted_later f l :
  (∀ n, n ∈ l → 1 < f n) →
  spec_due (counted f l) = [] ∧ spec_tick (counted f l) = counted (λ n, f n - 1) l.
Proof.
  intros Hf. unfold spec_due, spec_tick, counted. induction l as [|n l IH]; [done|].
  pose proof (Hf n ltac:(set_solver)). destruct IH as [IH1 IH2]; [set_solver|].
  rewrite !fmap_cons, !filter_cons. cbn [fst]. rewrite decide_False, decide_True by lia.
  rewrite fmap_cons, IH1, IH2. done.
Qed.

Lemma counted_ext f g l : (∀ n, n ∈ l → f n = g n) → counted f l = counted g l.
Proof.
  intros H. apply list_fmap_ext. intros i n Hn%list_elem_of_lookup_2. by rewrite H.
Qed.

Lemma wheel_weaken d d' T : wheel d T → d' <= d → wheel d' T.
Proof.
  intros [Hs Ht Hn] Hd. split; auto. intros p l n Hb Hin.
  destruct (Hn p l n Hb Hin) as (? & ? & ?). auto with lia.
Qed.

Lemma timer_update_spec T :
  wheel 0 T →
  ∃ evs T', timer_update T = Some (evs, T') ∧ wheel 1 T' ∧ T_time T' = u32 (T_time T + 1)
    ∧ evs ≡ₚ spec_due (abs_timer T) ∧ abs_timer T' ≡ₚ spec_tick (abs_timer T).
Proof.
  intros Hw. unfold timer_update.
  destruct (timer_execute_spec T Hw) as (d1 & T1 & -> & Hw1 & Ht1 & Hn1 & Hd1). cbn [mbind option_bind].
  destruct (timer_shift_spec T1 Hw1) as (T2 & -> & Hw2 & Hn2 & Ht2). cbn [mbind option_bind].
  destruct (timer_execute_spec T2 Hw2) as (d2 & T3 & -> & Hw3 & Ht3 & Hn3 & Hd3). cbn [mbind option_bind].
  assert (Hstep : ∀ n, n ∈ d2 ++ nodes T3 → ahead (T_time T2) n = ahead (T_time T) n - 1).
  { intros n Hin. rewrite Ht2, <- Ht1. apply ahead_step.
    destruct (wheel_elem 1 T1 n Hw1) as [_ ?]; [|lia]. by rewrite <- Hn2, Hn3. }
  assert (Habs : abs_timer T ≡ₚ counted (ahead (T_time T)) d1 ++ counted (ahead (T_time T)) d2
                                ++ counted (ahead (T_time T)) (nodes T3)).
  { unfold abs_timer. rewrite Hn1, <- Hn2, Hn3, !fmap_app. done. }
  destruct (counted_due (ahead (T_time T)) d1) as [E1 E1'].
  { intros n Hin. rewrite (Hd1 n Hin). lia. }
  destruct (counted_due (ahead (T_time T)) d2) as [E2 E2'].
  { intros n Hin. pose proof (Hd3 n Hin). rewrite Hstep in H by set_solver. lia. }
  destruct (counted_later (ahead (T_time T)) (nodes T3)) as [E3 E3'].
  { intros n Hin. destruct (wheel_elem 1 T3 n Hw3 Hin) as [_ Ha].
    rewrite Ht3, Hstep in Ha by set_solver. lia. }
  eexists _, T3. split; [done|]. split_and!; [done|congruence| |].
  - rewrite Habs, !spec_due_app, E1, E2, E3, app_nil_r. done.
  - rewrite Habs, !spec_tick_app, E1', E2', E3'. simpl. fold (counted (ahead (T_time T3)) (nodes T3)).
    unfold abs_timer. fold (counted (ahead (T_time T3)) (nodes T3)).
    rewrite (counted_ext _ (λ n, ahead (T_time T) n - 1)); [done|].
    intros n Hin. rewrite Ht3. apply Hstep. set_solver.
Qed.

Lemma timer_add_spec T ev t :
  wheel 0 T → 0 <= t < 2 ^ 31 →
  ∃ T', timer_add T ev t = Some T' ∧ wheel 0 T' ∧ T_time T' = T_time T
    ∧ abs_timer T' ≡ₚ (t, ev) :: abs_timer T.
Proof.
  intros Hw Ht. unfold timer_add. set (n := mkNode _ ev).
  pose proof (wheel_time _ _ Hw) as Hc.
  assert (Ha : ahead (T_time T) n = t).
  { subst n. unfold ahead, u32. simpl. zify_div. }
  destruct (wheel_add_node 0 T n Hw) as (T' & H & Hw' & Hn & Htm); [apply u32_bound|lia|].
  exists T'. split_and!; auto. unfold abs_timer. rewrite Hn, Htm. simpl. by rewrite Ha.
Qed.

Lemma replicate_nil_zget {A} k (l : list A) i : zget (replicate k []) i = Some l → l = [].
Proof. unfold zget. case_if; [|done]. by intros [-> _]%lookup_replicate. Qed.

Lemma timer_create_wheel st cu cp :
  wheel 1 (timer_create_timer <| T_starttime := st |> <| T_current := cu |>
                              <| T_current_point := cp |>).
Proof.
  split; [split; simpl; try reflexivity| |].
  - intros lv row. repeat (destruct lv as [|lv]; simpl; [by intros [= <-]|]). done.
  - simpl. lia.
  - intros p l n Hb Hin. assert (l = []) as ->; [|set_solver].
    destruct p as [i|lv i]; cbn [bucket field_set T_near T_t timer_create_timer] in Hb.
    + by eapply replicate_nil_zget.
    + destruct (zget _ lv) as [row|] eqn:E; [|done]. cbn [mbind option_bind] in Hb.
      apply zget_lookup, lookup_replicate in E as [-> _].
      by eapply replicate_nil_zget.
Qed.

(** ** Runs of the module *)

Fixpoint spec_run (n : nat) (s : countdown) : list (list timer_event) * countdown :=
  match n with
  | O => ([], s)
  | S n => let '(evss, s') := spec_run n (spec_tick s) in (spec_due s :: evss, s')
  end.

Lemma spec_run_perm n s s' :
  s ≡ₚ s' →
  Forall2 (≡ₚ) (spec_run n s).1 (spec_run n s').1 ∧ (spec_run n s).2 ≡ₚ (spec_run n s').2.
Proof.
  revert s s'. induction n as [|n IH]; intros s s' E; simpl; [by split; [constructor|]|].
  destruct (IH (spec_tick s) (spec_tick s')) as [H1 H2]; [by rewrite E|].
  destruct (spec_run n (spec_tick s)), (spec_run n (spec_tick s')). simpl in *.
  split; [|done]. constructor; [by rewrite E|done].
Qed.

(** The wheel never touches the wall clocks. *)
Definition clocks (T : timer) : Z * Z * Z := (T_starttime T, T_current T, T_current_point T).

Lemma add_node_clocks T n T' : add_node T n = Some T' → clocks T' = clocks T.
Proof. unfold add_node, link_near, link_level. intros. by case_match; simplify_option_eq. Qed.

Lemma add_nodes_clocks l T T' : add_nodes T l = Some T' → clocks T' = clocks T.
Proof.
  revert T. induction l as [|n l IH]; intros T H; simpl in H; [by simplify_eq|].
  destruct (add_node T n) as [T1|] eqn:E; [|done]. simpl in H.
  by rewrite (IH T1 H), (add_node_clocks _ _ _ E).
Qed.

Lemma move_list_clocks T lv i T' : move_list T lv i = Some T' → clocks T' = clocks T.
Proof.
  unfold move_list, clear_level. intros. simplify_option_eq.
  by erewrite add_nodes_clocks by done.
Qed.

Lemma shift_loop_clocks f T ct m t i T' : shift_loop f T ct m t i = Some T' → clocks T' = clocks T.
Proof.
  revert m t i. induction f as [|f IH]; intros m t i H; simpl in H; [done|].
  repeat case_match; [by eapply move_list_clocks|eauto|by simplify_eq].
Qed.

Lemma execute_loop_clocks f T i evs T' : execute_loop f T i = Some (evs, T') → clocks T' = clocks T.
Proof.
  revert T evs. induction f as [|f IH]; intros T evs H; simpl in H; [done|].
  destruct (zget (T_near T) i) as [[|n l]|]; simpl in H; [by simplify_eq| |done].
  destruct (clear_near T i) as [[c T1]|] eqn:Ec; [|done]. simpl in H.
  destruct (execute_loop f T1 i) as [[e T2]|] eqn:E; [|done]. simpl in H. simplify_eq.
  rewrite (IH _ _ E). unfold clear_near in Ec. by simplify_option_eq.
Qed.

Lemma timer_update_clocks T evs T' : timer_update T = Some (evs, T') → clocks T' = clocks T.
Proof.
  unfold timer_update. intros H.
  destruct (timer_execute T) as [[e1 T1]|] eqn:E1; [|done]. simpl in H.
  destruct (timer_shift T1) as [T2|] eqn:E2; [|done]. simpl in H.
  destruct (timer_execute T2) as [[e3 T3]|] eqn:E3; [|done]. simpl in H. simplify_eq.
  rewrite (execute_loop_clocks _ _ _ _ _ E3), <- (execute_loop_clocks _ _ _ _ _ E1).
  unfold timer_shift in E2. case_match;
    [by rewrite (move_list_clocks _ _ _ _ E2)|by rewrite (shift_loop_clocks _ _ _ _ _ _ _ E2)].
Qed.

Lemma timer_run_spec n T :
  wheel 0 T →
  ∃ evss T', timer_run n T = Some (evss, T') ∧ wheel 0 T' ∧ clocks T' = clocks T
    ∧ Forall2 (≡ₚ) evss (spec_run n (abs_timer T)).1
    ∧ abs_timer T' ≡ₚ (spec_run n (abs_timer T)).2.
Proof.
  revert T. induction n as [|n IH]; intros T Hw; cbn [timer_run spec_run].
  { by exists [], T. }
  destruct (timer_update_spec T Hw) as (evs & T1 & E & Hw1 & Ht1 & He & Ha). rewrite E.
  cbn [mbind option_bind].
  destruct (IH T1) as (evss & T2 & -> & Hw2 & Hc & Hes & Ha2); [by eapply wheel_weaken|].
  cbn [mbind option_bind]. exists (evs :: evss), T2.
  destruct (spec_run_perm n _ _ Ha) as [P1 P2]. destruct (spec_run n (spec_tick _)) as [s1 s2].
  simpl in *. split_and!; auto.
  - by rewrite Hc, (timer_update_clocks _ _ _ E).
  - constructor; [done|]. by etrans.
  - by rewrite Ha2.
Qed.

(** The entry points other threads call: [timer_add] of [skynet_timeout] and
    [skynet_updatetime] of the timer thread, at the clock reading it sees. *)
Inductive timer_op := OpTimeout (ev : timer_event) (t : Z) | OpUpdate (cp : Z).

Fixpoint timer_exec (ops : list timer_op) (T : timer)
    : option (list (list timer_event) * timer) :=
  match ops with
  | [] => Some ([], T)
  | OpTimeout ev t :: ops => T ← timer_add T ev t; timer_exec ops T
  | OpUpdate cp :: ops =>
      '(e1, T) ← skynet_updatetime cp T; '(e2, T) ← timer_exec ops T; Some (e1 ++ e2, T)
  end.

Fixpoint spec_exec (ops : list timer_op) (now : Z) (s : countdown) : list (list timer_event) :=
  match ops with
  | [] => []
  | OpTimeout ev t :: ops => spec_exec ops now ((t, ev) :: s)
  | OpUpdate cp :: ops =>
      let '(e, s) := spec_run (Z.to_nat (cp - now)) s in e ++ spec_exec ops cp s
  end.

(** Timeouts of less than 2^31 ticks, no 2^32 ticks between two updates. *)
Fixpoint ops_ok (ops : list timer_op) (now : Z) : Prop :=
  match ops with
  | [] => True
  | OpTimeout _ t :: ops => 0 <= t < 2 ^ 31 ∧ ops_ok ops now
  | OpUpdate cp :: ops => cp - now < 2 ^ 32 ∧ ops_ok ops cp
  end.

Lemma spec_exec_perm ops now s s' :
  s ≡ₚ s' → Forall2 (≡ₚ) (spec_exec ops now s) (spec_exec ops now s').
Proof.
  revert now s s'. induction ops as [|[ev t|cp] ops IH]; intros now s s' E; simpl; [done| |].
  - apply IH. by rewrite E.
  - destruct (spec_run_perm (Z.to_nat (cp - now)) _ _ E) as [H1 H2].
    destruct (spec_run _ s), (spec_run _ s'). apply Forall2_app; auto.
Qed.

Lemma wheel_clock d T a b :
  wheel d T → wheel d (T <| T_current_point := a |> <| T_current := b |>).
Proof. intros [[] ? Hn]. split; [by split|done|]. intros p. specialize (Hn p). by destruct p. Qed.

Lemma skynet_updatetime_spec cp T :
  wheel 0 T → cp - T_current_point T < 2 ^ 32 →
  ∃ evss T', skynet_updatetime cp T = Some (evss, T') ∧ wheel 0 T' ∧ T_current_point T' = cp
    ∧ let '(es, s) := spec_run (Z.to_nat (cp - T_current_point T)) (abs_timer T) in
      Forall2 (≡ₚ) evss es ∧ abs_timer T' ≡ₚ s.
Proof.
  intros Hw Hgap. unfold skynet_updatetime. case_if.
  - replace (Z.to_nat (cp - T_current_point T)) with O by lia. eexists [], _.
    split; [done|]. split; [|by split_and!]. exact (wheel_clock 0 T cp (T_current T) Hw).
  - destruct (cp =? T_current_point T) eqn:E; bool_prop; simpl negb; cbn iota.
    { rewrite E, Z.sub_diag. by exists [], T. }
    rewrite (u32_small (cp - _)) by lia. set (T1 := field_set _ _ _).
    destruct (timer_run_spec (Z.to_nat (cp - T_current_point T)) T1)
      as (evss & T' & -> & Hw' & Hc & He & Ha); [by apply wheel_clock|].
    exists evss, T'. split_and!; auto.
    + unfold clocks in Hc. simpl in Hc. by simplify_eq.
    + change (abs_timer T1) with (abs_timer T) in *. by destruct (spec_run _ _).
Qed.

Lemma timer_exec_refines ops T :
  wheel 0 T → ops_ok ops (T_current_point T) →
  ∃ evss T', timer_exec ops T = Some (evss, T')
    ∧ Forall2 (≡ₚ) evss (spec_exec ops (T_current_point T) (abs_timer T)).
Proof.
  revert T. induction ops as [|[ev t|cp] ops IH]; intros T Hw Hok; cbn [timer_exec spec_exec].
  - by exists [], T.
  - destruct Hok as [Ht Hok]. destruct (timer_add_spec T ev t Hw Ht) as (T1 & E & Hw1 & Htm & Ha).
    assert (Hc : T_current_point T1 = T_current_point T).
    { apply add_node_clocks in E. unfold clocks in E. by simplify_eq. }
    rewrite E. cbn [mbind option_bind]. destruct (IH T1 Hw1) as (evss & T2 & -> & He); [congruence|].
    exists evss, T2. split; [done|]. rewrite Hc in He. etrans; [done|]. by apply spec_exec_perm.
  - destruct Hok as [Hgap Hok].
    destruct (skynet_updatetime_spec cp T Hw Hgap) as (e1 & T1 & -> & Hw1 & Hc & Hs).
    cbn [mbind option_bind]. destruct (IH T1 Hw1) as (e2 & T2 & -> & He); [congruence|].
    cbn [mbind option_bind]. eexists _, T2. split; [done|]. rewrite Hc in He.
    destruct (spec_run _ (abs_timer T)) as [es s]. destruct Hs as [Hs1 Hs2].
    apply Forall2_app; [done|]. etrans; [done|]. by apply spec_exec_perm.
Qed.

(** ** Main theorems *)

(** C6. The timer module refines the countdown specification: for every
    sequence of timeouts (shorter than 2^31 ticks) and clock readings, started
    by [skynet_timer_init], no access leaves the wheel, and the ticks deliver
    the same events, tick by tick, as decrementing every pending timeout once
    per elapsed centisecond and delivering those that run out. *)
Theorem timer_refines_countdown rs rn ms mn ops :
  let T := skynet_timer_init rs rn ms mn in
  ops_ok ops (T_current_point T) →
  ∃ evss T', timer_exec ops T = Some (evss, T')
    ∧ Forall2 (≡ₚ) evss (spec_exec ops (T_current_point T) []).
Proof.
  intros T Hok. apply (timer_exec_refines ops T); [|done].
  apply (wheel_weaken 1); [apply timer_create_wheel|lia].
Qed.

Lemma timer_refines_countdown_witness :
  let ops := [OpTimeout (mkEvent 7 1) 3; OpUpdate 1002; OpTimeout (mkEvent 8 2) 300;
              OpUpdate 1001; OpUpdate 1004] in
  ∃ evss T', timer_exec ops (skynet_timer_init 5 0 10 0) = Some (evss, T')
    ∧ Forall2 (≡ₚ) evss [[]; []; [mkEvent 7 1]; []; []].
Proof. apply (timer_refines_countdown 5 0 10 0). vm_compute. intuition congruence. Defined.

Lemma spec_run_cons n s t ev j l :
  1 <= t → (spec_run n s).1 !! j = Some l →
  ∃ l', (spec_run n ((t, ev) :: s)).1 !! j = Some l'
    ∧ l' ≡ₚ if Z.of_nat j + 1 =? t then ev :: l else l.
Proof.
  revert s t j. induction n as [|n IH]; intros s t j Ht Hl; cbn [spec_run] in *; [done|].
  destruct (decide (t = 1)) as [->|Hne].
  - assert (spec_tick ((1, ev) :: s) = spec_tick s) as -> by done.
    assert (spec_due ((1, ev) :: s) = ev :: spec_due s) as -> by done.
    destruct (spec_run n (spec_tick s)) as [es s']. cbn [fst] in *.
    destruct j as [|j]; cbn [lookup list_lookup] in *; simplify_eq; [by eexists|].
    exists l. split; [done|]. rewrite (proj2 (Z.eqb_neq _ _)) by lia. done.
  - assert (spec_tick ((t, ev) :: s) = (t - 1, ev) :: spec_tick s) as ->.
    { unfold spec_tick. rewrite filter_cons_True by (simpl; lia). done. }
    assert (spec_due ((t, ev) :: s) = spec_due s) as ->.
    { unfold spec_due. rewrite filter_cons_False by (simpl; lia). done. }
    specialize (IH (spec_tick s) (t - 1)).
    destruct (spec_run n (spec_tick s)) as [es s'], (spec_run n (_ :: spec_tick s)) as [es' s''].
    cbn [fst] in *. destruct j as [|j]; cbn [lookup list_lookup] in *; simplify_eq.
    + exists (spec_due s). split; [done|]. rewrite (proj2 (Z.eqb_neq _ t)) by lia. done.
    + destruct (IH j ltac:(lia) Hl) as (l' & Hl' & HP). exists l'. split; [done|].
      rewrite HP. replace (Z.of_nat j + 1 =? t - 1) with (Z.of_nat (S j) + 1 =? t); [done|].
      apply eq_true_iff_eq. rewrite !Z.eqb_eq. lia.
Qed.

(** C7. A timeout fires once and on time: in every state of the wheel, adding
    the timeout [ev] of [t] ticks (0 < t < 2^31) changes the deliveries of the
    following ticks only at the [t]-th tick, which delivers [ev] once more. *)
Theorem timer_fires_once T ev t n :
  wheel 0 T → 0 < t < 2 ^ 31 →
  ∃ evss T1 T' evss' T2,
    timer_run n T = Some (evss, T1) ∧ timer_add T ev t = Some T'
    ∧ timer_run n T' = Some (evss', T2) ∧ length evss' = length evss
    ∧ ∀ j l, evss !! j = Some l →
        ∃ l', evss' !! j = Some l' ∧ l' ≡ₚ if Z.of_nat j + 1 =? t then ev :: l else l.
Proof.
  intros Hw Ht. destruct (timer_run_spec n T Hw) as (evss & T1 & HT1 & _ & _ & He & _).
  destruct (timer_add_spec T ev t Hw ltac:(lia)) as (T' & HT' & Hw' & _ & Ha).
  destruct (timer_run_spec n T' Hw') as (evss' & T2 & HT2 & _ & _ & He' & _).
  exists evss, T1, T', evss', T2. split_and!; auto.
  - rewrite (Forall2_length _ _ _ He), (Forall2_length _ _ _ He').
    generalize (abs_timer T), (abs_timer T'). clear. induction n as [|n IH]; intros s s'; [done|].
    simpl. specialize (IH (spec_tick s) (spec_tick s')). destruct (spec_run _ _), (spec_run _ _).
    simpl in *. by f_equal.
  - destruct (spec_run_perm n _ _ Ha) as [HP _].
    intros j l Hl. destruct (Forall2_lookup_l _ _ _ _ _ He Hl) as (l1 & Hl1 & P1).
    destruct (spec_run_cons n _ t ev j l1 ltac:(lia) Hl1) as (l2 & Hl2 & P2).
    destruct (Forall2_lookup_r _ _ _ _ _ HP Hl2) as (l3 & Hl3 & P3).
    destruct (Forall2_lookup_r _ _ _ _ _ He' Hl3) as (l4 & Hl4 & P4).
    exists l4. split; [done|]. rewrite P4, P3, P2. case_match; by rewrite P1.
Qed.

Lemma timer_fires_once_witness :
  ∃ evss T1 T' evss' T2,
    timer_run 400 timer_create_timer = Some (evss, T1)
    ∧ timer_add timer_create_timer (mkEvent 7 1) 300 = Some T'
    ∧ timer_run 400 T' = Some (evss', T2) ∧ length evss' = length evss
    ∧ ∀ j l, evss !! j = Some l →
        ∃ l', evss' !! j = Some l' ∧ l' ≡ₚ if Z.of_nat j + 1 =? 300 then mkEvent 7 1 :: l else l.
Proof.
  apply (timer_fires_once timer_create_timer (mkEvent 7 1) 300); [|lia].
  apply (wheel_weaken 1); [exact (timer_create_wheel 0 0 0)|lia].
Defined.
