(* ===== verification/CString.v ===== *)
(** * C strings

    The string functions of the C library the commands of skynet_server.c are
    written with, on strings as lists of bytes (without the terminating 0):
    printing with [%d], [%u] and [%x], [strtoul]/[strtol], [strsep], [strchr]
    and the two-word [sscanf].  The file shows that printing a number and
    parsing it back is the identity, which is how handles travel as text. *)

From stdpp Require Import prelude list strings.
From Stdlib Require Import ZifyBool.
From S2P Require Import Prelude.

Abbreviation bytes := (list Z) (only parsing).

(** ** Characters *)

Definition ch_space : Z := 32.
Definition isspace (c : Z) : bool := (c =? 32) || ((9 <=? c) && (c <=? 13)).

(** The value of a digit in bases up to 16. *)
Definition digit_val (c : Z) : option Z :=
  if (48 <=? c) && (c <=? 57) then Some (c - 48)
  else if (97 <=? c) && (c <=? 102) then Some (c - 87)
  else if (65 <=? c) && (c <=? 70) then Some (c - 55)
  else None.

Definition digit_lower (d : Z) : Z := if d <? 10 then 48 + d else 87 + d.
Definition digit_upper (d : Z) : Z := if d <? 10 then 48 + d else 55 + d.

(** ** Printing *)

(** The digits of [x], most significant first; [fuel] digits are enough for
    [x < base ^ fuel]. *)
Fixpoint digits (fuel : nat) (base x : Z) : list Z :=
  match fuel with
  | O => []
  | S fuel => if x <? base then [x] else digits fuel base (x / base) ++ [x mod base]
  end.

Definition print_x (x : Z) : bytes := digit_lower <$> digits 16 16 x.
Definition print_u (x : Z) : bytes := digit_lower <$> digits 20 10 x.
Definition print_08x (x : Z) : bytes := replicate (8 - length (print_x x)) 48 ++ print_x x.
Definition print_d (x : Z) : bytes := if x <? 0 then 45 :: print_u (- x) else print_u x.

(** ** Parsing *)

Fixpoint parse_digits (base : Z) (s : bytes) (acc : Z) : Z :=
  match s with
  | [] => acc
  | c :: s =>
      match digit_val c with
      | Some d => if d <? base then parse_digits base s (acc * base + d) else acc
      | None => acc
      end
  end.

Fixpoint skip_space (s : bytes) : bytes :=
  match s with
  | c :: s' => if isspace c then skip_space s' else s
  | [] => []
  end.

(** An optional [0x] before the digits of base 16: it is part of the number
    only when a hexadecimal digit follows. *)
Definition skip_0x (s : bytes) : bytes :=
  match s with
  | z :: x :: d :: _ =>
      if (z =? 48) && ((x =? 120) || (x =? 88)) && bool_decide (is_Some (digit_val d))
      then drop 2 s else s
  | _ => s
  end.

Definition take_sign (s : bytes) : bool * bytes :=
  match s with
  | c :: s' => if c =? 45 then (true, s') else if c =? 43 then (false, s') else (false, s)
  | [] => (false, [])
  end.

(** [strtoul (s, NULL, 16)] with 64-bit [unsigned long]. *)
Definition strtoul16 (s : bytes) : Z :=
  let '(neg, s) := take_sign (skip_space s) in
  let v := parse_digits 16 (skip_0x s) 0 in
  if v >=? 2 ^ 64 then 2 ^ 64 - 1 else u64 (if neg then - v else v).

(** [strtol (s, NULL, base)] with 64-bit [long], for base 10 and base 0. *)
Definition clamp_long (v : Z) : Z := Z.max (- 2 ^ 63) (Z.min (2 ^ 63 - 1) v).

Definition strtol10 (s : bytes) : Z :=
  let '(neg, s) := take_sign (skip_space s) in
  let v := parse_digits 10 s 0 in
  clamp_long (if neg then - v else v).

Definition strtol0 (s : bytes) : Z :=
  let '(neg, s) := take_sign (skip_space s) in
  let v :=
    if bool_decide (skip_0x s ≠ s) then parse_digits 16 (skip_0x s) 0
    else if bool_decide (head s = Some 48) then parse_digits 8 s 0
    else parse_digits 10 s 0 in
  clamp_long (if neg then - v else v).

(** ** Words *)

(** [strsep (&s, delims)] on a non-null [s]: the token and the rest ([None] when
    no delimiter is left). *)
Fixpoint strsep (delims : bytes) (s : bytes) : bytes * option bytes :=
  match s with
  | [] => ([], None)
  | c :: s =>
      if bool_decide (c ∈ delims) then ([], Some s)
      else let '(tok, rest) := strsep delims s in (c :: tok, rest)
  end.

(** [strchr (s, c)]: the suffix that starts at the first [c]. *)
Fixpoint strchr (s : bytes) (c : Z) : option bytes :=
  match s with
  | [] => None
  | x :: s' => if x =? c then Some s else strchr s' c
  end.

(** A [%s] of [sscanf]: [None] when no word is left (the target is not written). *)
Fixpoint span_word (s : bytes) : bytes * bytes :=
  match s with
  | [] => ([], [])
  | c :: s' => if isspace c then ([], s) else let '(w, r) := span_word s' in (c :: w, r)
  end.

Definition scan_word (s : bytes) : option bytes * bytes :=
  match skip_space s with
  | [] => (None, [])
  | s => let '(w, r) := span_word s in (Some w, r)
  end.

(** A [%d] of [sscanf]: the number and the rest, [None] when no number comes. *)
Definition is_digit (c : Z) : bool := (48 <=? c) && (c <=? 57).

Fixpoint skip_digits (s : bytes) : bytes :=
  match s with
  | c :: s' => if is_digit c then skip_digits s' else s
  | [] => []
  end.

Definition scan_int (s : bytes) : option (Z * bytes) :=
  let '(neg, s) := take_sign (skip_space s) in
  match s with
  | c :: _ =>
      if is_digit c then
        let v := parse_digits 10 s 0 in
        Some (i32 (clamp_long (if neg then - v else v)), skip_digits s)
      else None
  | [] => None
  end.

(** The C string at index [p]; [None] when no 0 byte follows. *)
Fixpoint until_nul (s : bytes) : option bytes :=
  match s with
  | [] => None
  | c :: s => if c =? 0 then Some [] else r ← until_nul s; Some (c :: r)
  end.

Definition c_str (tmp : bytes) (p : Z) : option bytes :=
  if 0 <=? p then until_nul (drop (Z.to_nat p) tmp) else None.

(** A [%u] of [sscanf] into an [unsigned]. *)
Definition scan_uint (s : bytes) : option (Z * bytes) :=
  let '(neg, s) := take_sign (skip_space s) in
  match s with
  | c :: _ =>
      if is_digit c then
        let v := parse_digits 10 s 0 in
        Some (u32 (if v >=? 2 ^ 64 then 2 ^ 64 - 1 else if neg then - v else v), skip_digits s)
      else None
  | [] => None
  end.

(** ** Round trips *)

Lemma digits_bound fuel base x : 1 < base → 0 <= x → Forall (λ d, 0 <= d < base) (digits fuel base x).
Proof.
  intros Hb. revert x. induction fuel as [|fuel IH]; intros x Hx; simpl; [done|].
  case_if; [by repeat constructor; lia|]. apply Forall_app; split.
  - apply IH. apply Z.div_pos; lia.
  - repeat constructor; apply Z.mod_pos_bound; lia.
Qed.

Lemma digits_nonnil fuel base x : digits (S fuel) base x ≠ [].
Proof. simpl. case_if; [done|]. by destruct (digits fuel base (x / base)). Qed.

(** Folding the digits back gives the number. *)
Lemma digits_value fuel base x acc :
  1 < base → 0 <= x < base ^ Z.of_nat fuel →
  foldl (λ a d, a * base + d) acc (digits fuel base x)
    = acc * base ^ Z.of_nat (length (digits fuel base x)) + x.
Proof.
  intros Hb. revert x acc. induction fuel as [|fuel IH]; intros x acc Hx; simpl digits.
  { simpl in Hx. simpl. lia. }
  case_if; [simpl; lia|].
  rewrite foldl_app, IH.
  - simpl. rewrite length_app. simpl. replace (Z.of_nat (length _ + 1)) with
      (Z.of_nat (length (digits fuel base (x / base))) + 1) by lia.
    rewrite Z.pow_add_r by lia. pose proof (Z.div_mod x base ltac:(lia)). nia.
  - split; [apply Z.div_pos; lia|]. apply Z.div_lt_upper_bound; [lia|].
    rewrite Nat2Z.inj_succ, Z.pow_succ_r in Hx by lia. lia.
Qed.

Lemma digit_val_lower d : 0 <= d < 16 → digit_val (digit_lower d) = Some d.
Proof. intros. unfold digit_lower. case_if; unfold digit_val; repeat case_if; try f_equal; lia. Qed.

Lemma digit_val_upper d : 0 <= d < 16 → digit_val (digit_upper d) = Some d.
Proof. intros. unfold digit_upper. case_if; unfold digit_val; repeat case_if; try f_equal; lia. Qed.

Lemma parse_digits_fold (f : Z → Z) base ds acc :
  (∀ d, 0 <= d < 16 → digit_val (f d) = Some d) → base <= 16 →
  Forall (λ d, 0 <= d < base) ds →
  parse_digits base (f <$> ds) acc = foldl (λ a d, a * base + d) acc ds.
Proof.
  intros Hf Hb Hds. revert acc. induction Hds as [|d ds Hd Hds IH]; intros acc; [done|].
  rewrite fmap_cons. cbn [parse_digits foldl]. rewrite Hf by lia.
  rewrite (proj2 (Z.ltb_lt d base)) by lia. apply IH.
Qed.

(** A printed number starts with a digit, so no prefix is skipped before it. *)
Lemma skip_space_digit f d ds :
  (f = digit_lower ∨ f = digit_upper) → 0 <= d < 16 → skip_space (f d :: ds) = f d :: ds.
Proof.
  intros Hf Hd. cbn [skip_space]. assert (isspace (f d) = false) as ->; [|done].
  destruct Hf as [->| ->]; unfold isspace, digit_lower, digit_upper; case_if;
    rewrite !orb_false_iff, andb_false_iff; lia.
Qed.

Lemma take_sign_digit f d ds :
  (f = digit_lower ∨ f = digit_upper) → 0 <= d < 16 → take_sign (f d :: ds) = (false, f d :: ds).
Proof.
  intros Hf Hd. unfold take_sign.
  destruct Hf as [->| ->]; unfold digit_lower, digit_upper; repeat case_if; lia || done.
Qed.

Lemma skip_0x_digit f ds :
  (f = digit_lower ∨ f = digit_upper) → Forall (λ d, 0 <= d < 16) ds →
  skip_0x (f <$> ds) = f <$> ds.
Proof.
  intros Hf Hds. unfold skip_0x. destruct ds as [|a [|b [|c ds]]]; [done..|].
  rewrite !fmap_cons. cbn iota. assert ((f b =? 120) || (f b =? 88) = false) as ->.
  { apply Forall_cons in Hds as [_ [Hb _]%Forall_cons].
    destruct Hf as [->| ->]; unfold digit_lower, digit_upper; case_if; lia. }
  by rewrite andb_false_r.
Qed.

Lemma strtoul16_digits f ds :
  (f = digit_lower ∨ f = digit_upper) → ds ≠ [] → Forall (λ d, 0 <= d < 16) ds →
  0 <= foldl (λ a d, a * 16 + d) 0 ds < 2 ^ 64 →
  strtoul16 (f <$> ds) = foldl (λ a d, a * 16 + d) 0 ds.
Proof.
  intros Hf Hne Hds Hv. unfold strtoul16.
  assert (skip_space (f <$> ds) = f <$> ds ∧ take_sign (f <$> ds) = (false, f <$> ds)) as [-> ->].
  { destruct ds as [|d ds]; [done|]. apply Forall_cons in Hds as [Hd _].
    split; [by apply skip_space_digit|by apply take_sign_digit]. }
  assert (Hf' : ∀ d, 0 <= d < 16 → digit_val (f d) = Some d)
    by (destruct Hf as [->| ->]; auto using digit_val_lower, digit_val_upper).
  rewrite skip_0x_digit, parse_digits_fold by (auto; lia).
  case_if; [lia|]. by apply u64_small.
Qed.

(** Parsing undoes [%x]. *)
Lemma strtoul16_print_x x : 0 <= x < 2 ^ 64 → strtoul16 (print_x x) = x.
Proof.
  intros Hx. unfold print_x.
  assert (Hv : foldl (λ a d, a * 16 + d) 0 (digits 16 16 x) = x).
  { rewrite digits_value; [lia|lia|]. change (16 ^ Z.of_nat 16) with (2 ^ 64). lia. }
  rewrite strtoul16_digits; rewrite ?Hv; auto.
  - apply digits_nonnil.
  - apply digits_bound; lia.
Qed.

(** Parsing undoes [%d]. *)
Lemma strtol10_print_d x : - 2 ^ 31 <= x < 2 ^ 31 → strtol10 (print_d x) = x.
Proof.
  intros Hx. assert (Hu : ∀ y, 0 <= y <= 2 ^ 31 →
    skip_space (print_u y) = print_u y ∧ take_sign (print_u y) = (false, print_u y)
    ∧ parse_digits 10 (print_u y) 0 = y).
  { intros y Hy. unfold print_u. pose proof (digits_bound 20 10 y ltac:(lia) ltac:(lia)) as Hb.
    pose proof (digits_nonnil 19 10 y) as Hne.
    destruct (digits 20 10 y) as [|d ds] eqn:E; [done|]. rewrite fmap_cons.
    pose proof Hb as [Hd _]%Forall_cons. split_and!.
    - apply skip_space_digit; auto; lia.
    - apply take_sign_digit; auto; lia.
    - rewrite <- fmap_cons, parse_digits_fold by (auto using digit_val_lower; lia).
      rewrite <- E, digits_value; simpl; lia. }
  unfold strtol10, print_d. case_if.
  - cbn [skip_space isspace take_sign]. simpl. destruct (Hu (- x)) as (_ & _ & ->); [lia|].
    unfold clamp_long. lia.
  - destruct (Hu x) as (-> & -> & ->); [lia|]. unfold clamp_long. lia.
Qed.

(** String literals. *)
Definition str (s : string) : bytes :=
  (λ a, Z.of_N (Ascii.N_of_ascii a)) <$> String.list_ascii_of_string s.
