(* ===== verification/Module.v ===== *)
(** * C service modules (skynet-src/skynet_module.c)

    A service type is a shared library found through a search path of
    templates, in which [?] stands for the service name.  The table of loaded
    modules caches the libraries; its entries are only ever added. *)

From stdpp Require Import prelude list.
From S2P Require Import Prelude Handle.

Definition MAX_MODULE_TYPE : Z := 32.

(** [struct skynet_module]; the entry points are the addresses [dlsym] found. *)
Record skynet_module := mkModule {
  mod_name : cstring;
  mod_module : Z;
  mod_create : option Z;
  mod_init : option Z;
  mod_release : option Z;
  mod_signal : option Z
}.

(** [struct modules]: the array [m] up to [count]. *)
Record modules := mkModules { M_path : cstring; M_m : list skynet_module }.

#[export] Instance eta_modules : Eta modules := λ m, mkModules (M_path m) (M_m m).

Definition M_count (m : modules) : Z := Z.of_nat (length (M_m m)).

(** The string up to a character, and what follows from that character on. *)
Fixpoint split_at_char (c : Z) (s : cstring) : cstring * cstring :=
  match s with
  | [] => ([], [])
  | x :: s' => if x =? c then ([], s) else let '(a, b) := split_at_char c s' in (x :: a, b)
  end.

Fixpoint skip_char (c : Z) (s : cstring) : cstring :=
  match s with
  | x :: s' => if x =? c then skip_char c s' else s
  | [] => []
  end.

Definition ch_semicolon : Z := 59.
Definition ch_question : Z := 63.

Section dl.
(** The dynamic linker: [dlopen] and [dlsym]. *)
Context (dlopen : cstring → option Z) (dlsym : Z → cstring → option Z).

(** [do ... while (dl == NULL)] of [_try_open].  [None] is [exit (1)]; each
    round consumes a template, so one round more than there are characters is
    enough (lemma [try_open_total]). *)
Fixpoint try_open_loop (fuel : nat) (path name : cstring) : option (option Z) :=
  match fuel with
  | O => None
  | S fuel =>
      match skip_char ch_semicolon path with
      | [] => Some None
      | path =>
          let '(template, l) := split_at_char ch_semicolon path in
          let '(pre, post) := split_at_char ch_question template in
          match post with
          | [] => None
          | _ :: suffix =>
              match dlopen (pre ++ name ++ suffix) with
              | Some dl => Some (Some dl)
              | None => try_open_loop fuel l name
              end
          end
      end
  end.

Definition _try_open (m : modules) (name : cstring) : option (option Z) :=
  try_open_loop (S (length (M_path m))) (M_path m) name.

Fixpoint query_loop (l : list skynet_module) (i : Z) (name : cstring) : option Z :=
  match l with
  | [] => None
  | x :: l => if strcmp (mod_name x) name =? 0 then Some i else query_loop l (i + 1) name
  end.

(** The index of the module called [name] in [M->m]. *)
Definition _query (m : modules) (name : cstring) : option Z := query_loop (M_m m) 0 name.

(** "_create", "_init", "_release" and "_signal" *)
Definition suffix_create : cstring := [95; 99; 114; 101; 97; 116; 101].
Definition suffix_init : cstring := [95; 105; 110; 105; 116].
Definition suffix_release : cstring := [95; 114; 101; 108; 101; 97; 115; 101].
Definition suffix_signal : cstring := [95; 115; 105; 103; 110; 97; 108].

(** [_open_sym]: the module, with the value the C function returns. *)
Definition _open_sym (name : cstring) (dl : Z) : Z * skynet_module :=
  let md := mkModule name dl (dlsym dl (name ++ suffix_create)) (dlsym dl (name ++ suffix_init))
               (dlsym dl (name ++ suffix_release)) (dlsym dl (name ++ suffix_signal)) in
  (if bool_decide (mod_init md = None) then 1 else 0, md).

Definition skynet_module_query (name : cstring) (m : modules) : option (option Z * modules) :=
  match _query m name with
  | Some i => Some (Some i, m)
  | None =>
      if M_count m <? MAX_MODULE_TYPE then
        r ← _try_open m name;
        match r with
        | Some dl =>
            let '(e, md) := _open_sym name dl in
            if e =? 0 then Some (Some (M_count m), m <| M_m := M_m m ++ [md] |>) else Some (None, m)
        | None => Some (None, m)
        end
      else Some (None, m)
  end.

Definition skynet_module_insert (md : skynet_module) (m : modules) : option modules :=
  _ ← c_assert (bool_decide (_query m (mod_name md) = None) && (M_count m <? MAX_MODULE_TYPE));
  Some (m <| M_m := M_m m ++ [md] |>).

Definition skynet_module_init (path : cstring) : modules := mkModules path [].
End dl.

(** ** The search path *)

(** The templates of a path: its non-empty fields. *)
Fixpoint fields (s : cstring) : list cstring :=
  match s with
  | [] => [[]]
  | x :: s =>
      if x =? ch_semicolon then [] :: fields s
      else match fields s with f :: fs => (x :: f) :: fs | [] => [[x]] end
  end.

Definition templates (path : cstring) : list cstring := filter (λ f, f ≠ []) (fields path).

(** The file a template names. *)
Definition candidate (name template : cstring) : cstring :=
  let '(pre, post) := split_at_char ch_question template in pre ++ name ++ tail post.

Lemma templates_skip s : templates (skip_char ch_semicolon s) = templates s.
Proof.
  unfold templates. induction s as [|x s IH]; simpl; [done|].
  destruct (x =? ch_semicolon) eqn:E; simpl; [by rewrite IH|by rewrite E].
Qed.

Lemma skip_char_head c s x s' : skip_char c s = x :: s' → x ≠ c ∧ (length (x :: s') <= length s)%nat.
Proof.
  induction s as [|y s IH]; simpl; [done|]. case_if; intros H.
  - destruct (IH H). simpl in *. split; [done|lia].
  - simplify_eq. simpl. split; [done|lia].
Qed.

Lemma split_at_char_spec c s :
  let '(a, b) := split_at_char c s in
  s = a ++ b ∧ (c ∉ a) ∧ (b = [] ∨ head b = Some c).
Proof.
  induction s as [|x s IH]; simpl; [split_and!; auto; set_solver|]. case_if.
  - subst. split_and!; auto. set_solver.
  - destruct (split_at_char c s) as [a b]. destruct IH as (-> & Ha & Hb). split_and!; auto.
    rewrite not_elem_of_cons. auto.
Qed.

Lemma fields_split s t l :
  split_at_char ch_semicolon s = (t, l) →
  fields s = t :: match l with [] => [] | _ :: l' => fields l' end.
Proof.
  revert t l. induction s as [|x s IH]; intros t l; simpl; [by intros [= <- <-]|].
  destruct (x =? ch_semicolon); [by intros [= <- <-]|].
  destruct (split_at_char ch_semicolon s) as [a b]. intros [= <- <-]. by rewrite (IH a b).
Qed.

Lemma templates_split x s t l :
  x ≠ ch_semicolon → split_at_char ch_semicolon (x :: s) = (t, l) →
  t ≠ [] ∧ templates (x :: s) = t :: templates l ∧ (length l <= length s)%nat.
Proof.
  intros Hx Hs. pose proof (fields_split _ _ _ Hs) as Hf.
  pose proof (split_at_char_spec ch_semicolon (x :: s)) as Hsp. rewrite Hs in Hsp.
  destruct Hsp as (He & _ & Hl). assert (t ≠ []) as Ht.
  { intros ->. destruct Hl as [->|Hl]; [done|]. destruct l; [done|]. by simplify_eq/=. }
  split_and!; auto.
  - unfold templates. rewrite Hf, filter_cons_True by done. f_equal.
    destruct l as [|y l]; [done|]. destruct Hl as [|[= ->]]; done.
  - destruct t; [done|]. simplify_eq/=. rewrite length_app. lia.
Qed.

Section dl_lemmas.
Context (dlopen : cstring → option Z) (dlsym : Z → cstring → option Z).

(** The library that is loaded is the first one, in path order, that opens. *)
Lemma try_open_spec fuel path name :
  (length path < fuel)%nat → Forall (λ t, ch_question ∈ t) (templates path) →
  try_open_loop dlopen fuel path name =
    Some (head (omap (λ t, dlopen (candidate name t)) (templates path))).
Proof.
  revert path. induction fuel as [|fuel IH]; intros path Hlen Hwf; [lia|]. cbn [try_open_loop].
  rewrite <- templates_skip in Hwf |- *.
  destruct (skip_char ch_semicolon path) as [|x s] eqn:E; [done|].
  destruct (skip_char_head _ _ _ _ E) as [Hx Hl]. simpl length in Hl.
  destruct (split_at_char ch_semicolon (x :: s)) as [t l] eqn:Et.
  destruct (templates_split _ _ _ _ Hx Et) as (Ht & Hts & Hll). rewrite Hts in Hwf |- *.
  apply Forall_cons in Hwf as [Hq Hwf].
  pose proof (split_at_char_spec ch_question t) as Hsp. simpl omap. unfold candidate at 1.
  destruct (split_at_char ch_question t) as [pre post]. destruct Hsp as (He & Hpre & Hpost).
  destruct post as [|y suf]; [by rewrite He, app_nil_r in Hq|]. simpl tail.
  destruct (dlopen (pre ++ name ++ suf)) as [dl|]; [done|]. apply IH; [lia|done].
Qed.

(** ** The table *)

Record modules_ok (m : modules) : Prop := {
  mo_count : M_count m <= MAX_MODULE_TYPE;
  mo_unique : NoDup (mod_name <$> M_m m);
  mo_init : Forall (λ md, mod_init md ≠ None) (M_m m)
}.

Lemma query_loop_spec l i name :
  match query_loop l i name with
  | Some j => i <= j ∧ ∃ md, l !! Z.to_nat (j - i) = Some md ∧ mod_name md = name
  | None => name ∉ (mod_name <$> l)
  end.
Proof.
  revert i. induction l as [|md l IH]; intros i; simpl; [set_solver|].
  destruct (strcmp (mod_name md) name =? 0) eqn:E; bool_prop.
  - apply strcmp_eq in E. split; [lia|]. rewrite Z.sub_diag. by exists md.
  - specialize (IH (i + 1)). destruct (query_loop l (i + 1) name) as [j|].
    + destruct IH as [Hj (md' & Hl & Hn)]. split; [lia|]. exists md'. split; [|done].
      replace (Z.to_nat (j - i)) with (S (Z.to_nat (j - (i + 1)))) by lia. done.
    + rewrite not_elem_of_cons. split; [|done]. intros ->. by rewrite (proj2 (strcmp_eq _ _)) in E.
Qed.

Lemma skynet_module_query_spec name m :
  modules_ok m → Forall (λ t, ch_question ∈ t) (templates (M_path m)) →
  ∃ r m', skynet_module_query dlopen dlsym name m = Some (r, m') ∧ modules_ok m'
    ∧ M_m m `prefix_of` M_m m' ∧ M_path m' = M_path m
    ∧ match r with
      | Some i => ∃ md, zget (M_m m') i = Some md ∧ mod_name md = name ∧ mod_init md ≠ None
      | None => m' = m ∧ (name ∉ mod_name <$> M_m m)
          ∧ (M_count m = MAX_MODULE_TYPE
             ∨ match head (omap (λ t, dlopen (candidate name t)) (templates (M_path m))) with
               | Some dl => dlsym dl (name ++ suffix_init) = None
               | None => True
               end)
      end.
Proof.
  intros Hok Hwf. pose proof Hok as [Hc Hu Hi]. unfold skynet_module_query, _query.
  pose proof (query_loop_spec (M_m m) 0 name) as Hq. destruct (query_loop (M_m m) 0 name) as [i|].
  - exists (Some i), m. split_and!; auto. destruct Hq as [Hi0 (md & Hl & Hn)].
    exists md. rewrite Z.sub_0_r in Hl. split_and!; auto.
    + unfold zget. by rewrite (proj2 (Z.leb_le 0 i)).
    + eapply Forall_lookup_1 in Hi; eauto.
  - case_if; [|exists None, m; split_and!; auto; left; lia].
    unfold _try_open. rewrite try_open_spec by (auto; lia). cbn [mbind option_bind].
    destruct (head _) as [dl|] eqn:Edl; [|exists None, m; split_and!; auto].
    unfold _open_sym. cbn [mod_init].
    destruct (dlsym dl (name ++ suffix_init)) as [f|] eqn:Ef; cbn [bool_decide].
    + rewrite bool_decide_eq_false_2 by done. simpl (0 =? 0). cbn iota.
      eexists _, _. split; [done|]. split_and!; auto; [|simpl; by eexists|].
      * split; unfold M_count in *; simpl.
        -- rewrite length_app. simpl. lia.
        -- rewrite fmap_app. apply NoDup_app. split_and!; [done|set_solver|apply NoDup_singleton].
        -- apply Forall_app. split; [done|]. by apply Forall_singleton.
      * unfold M_count. rewrite zget_nat. simpl. rewrite lookup_app_r, Nat.sub_diag by lia.
        by eexists.
    + rewrite bool_decide_eq_true_2 by done. simpl (1 =? 0). cbn iota.
      exists None, m. split_and!; auto.
Qed.

End dl_lemmas.

