(* ===== verification/Prog.v ===== *)
(** * Programs of atomic sections

    The functions of skynet_server.c run in many threads; what is atomic in
    them are the sections under a spin or rw lock and the atomic builtins.
    Such a function is modelled as a program: a tree of atomic actions, whose
    continuations receive the action's result, and of calls of procedures
    (service code reached through function pointers, and loops).  The file is
    generic in the actions: it defines
    - [run], the execution of one program alone,
    - [step], the interleaving of several threads at the granularity of actions,
    - [wp], a small program logic in which a thread owns a list of resources,
    and proves that threads verified with [wp] never run into an action that
    fails, in any interleaving ([reach_inv], [reach_safe]). *)

From stdpp Require Import prelude list.
From S2P Require Import Prelude.

Section prog.
Context {act fn : Type → Type}.

Inductive prog (A : Type) : Type :=
| Ret (a : A)
| Act {X : Type} (a : act X) (k : X → prog A)
| Call {X : Type} (f : fn X) (k : X → prog A).

#[global] Arguments Ret {A} a.
#[global] Arguments Act {A X} a k.
#[global] Arguments Call {A X} f k.

Fixpoint bind {A B} (p : prog A) (k : A → prog B) : prog B :=
  match p with
  | Ret a => k a
  | Act a k' => Act a (λ x, bind (k' x) k)
  | Call f k' => Call f (λ x, bind (k' x) k)
  end.

Definition do_act {X} (a : act X) : prog X := Act a Ret.
Definition do_call {X} (f : fn X) : prog X := Call f Ret.

(** ** Semantics *)

Context {world : Type}.
Context (astep : ∀ X, act X → world → option (X * world)).
Context (env : ∀ X, fn X → prog X).

(** One program alone; [fuel] bounds the depth of calls. *)
Fixpoint run (fuel : nat) {A} (p : prog A) : world → option (A * world) :=
  (fix go (p : prog A) (w : world) : option (A * world) :=
    match p with
    | Ret a => Some (a, w)
    | Act a k => '(x, w) ← astep _ a w; go (k x) w
    | Call f k =>
        match fuel with
        | O => None
        | S fuel => run fuel (bind (env _ f) k) w
        end
    end) p.

(** Several threads.  [ok] restricts the schedules that are considered. *)
Context (ok : ∀ X, act X → world → Prop).

Inductive step : list (prog ()) * world → list (prog ()) * world → Prop :=
| step_act ts i X (a : act X) k w x w' :
    ts !! i = Some (Act a k) → ok X a w → astep X a w = Some (x, w') →
    step (ts, w) (<[i := k x]> ts, w')
| step_call ts i X (f : fn X) k w :
    ts !! i = Some (Call f k) →
    step (ts, w) (<[i := bind (env X f) k]> ts, w).

(** A thread is about to do something undefined (or to fail an assertion). *)
Definition goes_wrong (c : list (prog ()) * world) : Prop :=
  ∃ i X (a : act X) k, c.1 !! i = Some (Act a k) ∧ ok X a c.2 ∧ astep X a c.2 = None.

(** ** Resources *)

Context {res : Type} (droppable : res → Prop).
Context (aspec : ∀ X, act X → list res → (X → list res → Prop) → Prop).
Context (fspec : ∀ X, fn X → list res → (X → list res → Prop) → Prop).
Context (inv : list res → world → Prop).

(** [wp p R Q]: a thread that owns [R] can run [p], and owns a list allowed by
    [Q] when [p] is done.  An action or call takes the resources [C] its
    specification names, the frame [F] is kept, and [G] is given up. *)
Fixpoint wp {A} (p : prog A) (R : list res) (Q : A → list res → Prop) : Prop :=
  match p with
  | Ret a => ∃ R' G, Forall droppable G ∧ R ≡ₚ R' ++ G ∧ Q a R'
  | Act a k => ∃ C P F G, aspec _ a C P ∧ Forall droppable G ∧ R ≡ₚ C ++ F ++ G ∧
      ∀ x Rs, P x Rs → wp (k x) (Rs ++ F) Q
  | Call f k => ∃ C P F G, fspec _ f C P ∧ Forall droppable G ∧ R ≡ₚ C ++ F ++ G ∧
      ∀ x Rs, P x Rs → wp (k x) (Rs ++ F) Q
  end.

Lemma wp_mono {A} (p : prog A) R (Q Q' : A → list res → Prop) :
  wp p R Q → (∀ a R', Q a R' → Q' a R') → wp p R Q'.
Proof.
  intros Hp HQ. revert R Hp. induction p as [a|X a k IH|X f k IH]; simpl; intros R Hp.
  - destruct Hp as (R' & G & HG & HR & H). eauto 10.
  - destruct Hp as (C & P & F & G & Hs & HG & HR & Hk); exists C, P, F, G; split_and!; auto.
  - destruct Hp as (C & P & F & G & Hs & HG & HR & Hk); exists C, P, F, G; split_and!; auto.
Qed.

Lemma wp_weaken {A} (p : prog A) R R' G (Q : A → list res → Prop) :
  wp p R' Q → R ≡ₚ R' ++ G → Forall droppable G → wp p R Q.
Proof.
  intros Hp HP HG. destruct p as [a|X a k|X f k]; simpl in *.
  - destruct Hp as (R0 & G0 & HG0 & HR & H). exists R0, (G0 ++ G).
    split_and!; auto using Forall_app_2. by rewrite HP, HR, app_assoc.
  - destruct Hp as (C & P & F & G0 & Hs & HG0 & HR & Hk). exists C, P, F, (G0 ++ G).
    split_and!; auto using Forall_app_2. by rewrite HP, HR, <- !app_assoc.
  - destruct Hp as (C & P & F & G0 & Hs & HG0 & HR & Hk). exists C, P, F, (G0 ++ G).
    split_and!; auto using Forall_app_2. by rewrite HP, HR, <- !app_assoc.
Qed.

Lemma wp_perm {A} (p : prog A) R R' (Q : A → list res → Prop) :
  wp p R' Q → R ≡ₚ R' → wp p R Q.
Proof. intros Hp HR. apply (wp_weaken p R R' []); [done|by rewrite app_nil_r|done]. Qed.

Lemma wp_frame {A} (p : prog A) R F (Q : A → list res → Prop) :
  wp p R Q → wp p (R ++ F) (λ a R', ∃ R0, R' = R0 ++ F ∧ Q a R0).
Proof.
  revert R. induction p as [a|X a k IH|X f k IH]; simpl; intros R Hp.
  - destruct Hp as (R' & G & HG & HR & H). exists (R' ++ F), G. split_and!; eauto.
    rewrite HR, <- !app_assoc. f_equiv. apply Permutation_app_comm.
  - destruct Hp as (C & P & F' & G & Hs & HG & HR & Hk); exists C, P, (F' ++ F), G.
    split_and!; auto; [|intros x Rs HPx; rewrite app_assoc; by apply IH, Hk].
    rewrite HR, <- !app_assoc. do 2 f_equiv. apply Permutation_app_comm.
  - destruct Hp as (C & P & F' & G & Hs & HG & HR & Hk); exists C, P, (F' ++ F), G.
    split_and!; auto; [|intros x Rs HPx; rewrite app_assoc; by apply IH, Hk].
    rewrite HR, <- !app_assoc. do 2 f_equiv. apply Permutation_app_comm.
Qed.

Lemma wp_bind {A B} (p : prog A) (k : A → prog B) R Q :
  wp p R (λ a R', wp (k a) R' Q) → wp (bind p k) R Q.
Proof.
  revert R. induction p as [a|X a k' IH|X f k' IH]; simpl; intros R Hp.
  - destruct Hp as (R' & G & HG & HR & H). by eapply wp_weaken.
  - destruct Hp as (C & P & F & G & Hs & HG & HR & Hk); exists C, P, F, G; split_and!; auto.
  - destruct Hp as (C & P & F & G & Hs & HG & HR & Hk); exists C, P, F, G; split_and!; auto.
Qed.

Lemma wp_assoc {A B C} (p : prog A) (k : A → prog B) (k' : B → prog C) R Q :
  wp (bind (bind p k) k') R Q → wp (bind p (λ x, bind (k x) k')) R Q.
Proof.
  revert R. induction p as [a|X a k0 IH|X f k0 IH]; simpl; intros R Hp; [done|..];
    destruct Hp as (D & P & F & G & Hs & HG & HR & Hk); exists D, P, F, G; split_and!; auto.
Qed.

(** The usual way to use a specified program [p] inside a bigger one. *)
Lemma wp_use {A B} (p : prog A) (k : A → prog B) R R1 F (Q1 : A → list res → Prop) Q :
  wp p R1 Q1 → R ≡ₚ R1 ++ F →
  (∀ a R', Q1 a R' → wp (k a) (R' ++ F) Q) → wp (bind p k) R Q.
Proof.
  intros Hp HR Hk. apply wp_bind. eapply wp_perm; [|apply HR].
  eapply wp_mono; [apply (wp_frame p R1 F Q1 Hp)|]. intros a R' (R0 & -> & HQ). auto.
Qed.

(** ** Soundness *)

Context (inv_perm : ∀ R R' w, R ≡ₚ R' → inv R w → inv R' w).
Context (inv_drop : ∀ G R w, Forall droppable G → inv (G ++ R) w → inv R w).
Context (aspec_sound : ∀ X (a : act X) C P F w,
  aspec X a C P → inv (C ++ F) w → ok X a w →
  ∃ x w' Rs, astep X a w = Some (x, w') ∧ P x Rs ∧ inv (Rs ++ F) w').
Context (env_sound : ∀ X (f : fn X) C P, fspec X f C P → wp (env X f) C P).

(** Every thread is verified with what it owns, and the invariant covers all of it. *)
Definition owned (c : list (prog ()) * world) : Prop :=
  ∃ Rs, Forall2 (λ (t : prog ()) R, wp t R (λ _ _, True)) c.1 Rs ∧ inv (concat Rs) c.2.

Lemma concat_split (Rs : list (list res)) i R :
  Rs !! i = Some R →
  ∃ rest, concat Rs ≡ₚ R ++ rest ∧ ∀ R', concat (<[i := R']> Rs) ≡ₚ R' ++ rest.
Proof.
  intros Hi. exists (concat (take i Rs) ++ concat (drop (S i) Rs)).
  pose proof (lookup_lt_Some _ _ _ Hi). split; [|intros R'].
  - rewrite <- (take_drop_middle Rs i R Hi) at 1. rewrite concat_app. simpl.
    by rewrite Permutation_app_swap_app.
  - rewrite insert_take_drop by done. rewrite concat_app. simpl. by rewrite Permutation_app_swap_app.
Qed.

Lemma wp_act_run {X} (a : act X) (k : X → prog ()) R rest w :
  wp (Act a k) R (λ _ _, True) → inv (R ++ rest) w → ok X a w →
  ∃ x w' R', astep X a w = Some (x, w') ∧ wp (k x) R' (λ _ _, True) ∧ inv (R' ++ rest) w'.
Proof.
  intros (C & P & F & G & Hs & HG & HR & Hk) Hinv Hok.
  assert (Hi : inv (C ++ F ++ rest) w).
  { apply (inv_drop G); [done|]. eapply inv_perm; [|apply Hinv]. rewrite HR.
    rewrite <- !app_assoc. rewrite (Permutation_app_swap_app G C). f_equiv.
    by rewrite (Permutation_app_swap_app G F). }
  destruct (aspec_sound _ a C P (F ++ rest) w Hs Hi Hok) as (x & w' & Rs & Ha & HP & Hi').
  exists x, w', (Rs ++ F). split_and!; auto. by rewrite <- app_assoc.
Qed.

Lemma wp_call_run {X} (f : fn X) (k : X → prog ()) R rest w :
  wp (Call f k) R (λ _ _, True) → inv (R ++ rest) w →
  ∃ R', wp (bind (env X f) k) R' (λ _ _, True) ∧ inv (R' ++ rest) w.
Proof.
  intros (C & P & F & G & Hs & HG & HR & Hk) Hinv. exists (C ++ F). split.
  - eapply (wp_use _ _ _ C F); [by apply env_sound|done|done].
  - apply (inv_drop G); [done|]. eapply inv_perm; [|apply Hinv]. rewrite HR.
    rewrite <- !app_assoc. rewrite (Permutation_app_swap_app G C). f_equiv.
    by rewrite (Permutation_app_swap_app G F).
Qed.

Lemma owned_step c c' : owned c → step c c' → owned c'.
Proof.
  intros (Rs & Hts & Hinv) Hs. destruct Hs as [ts i X a k w x w' Hi Hok Ha|ts i X f k w Hi];
    simpl in *; destruct (Forall2_lookup_l _ _ _ _ _ Hts Hi) as (R & HR & Hwp);
    destruct (concat_split Rs i R HR) as (rest & Hr & Hr').
  - destruct (wp_act_run a k R rest w) as (x1 & w1 & R' & Ha1 & Hwp' & Hi'); auto.
    { by eapply inv_perm. }
    rewrite Ha1 in Ha. simplify_eq. exists (<[i := R']> Rs). split.
    + by apply Forall2_insert.
    + eapply inv_perm; [|apply Hi']. by rewrite Hr'.
  - destruct (wp_call_run f k R rest w) as (R' & Hwp' & Hi'); auto.
    { by eapply inv_perm. }
    exists (<[i := R']> Rs). split; [by apply Forall2_insert|].
    eapply inv_perm; [|apply Hi']. by rewrite Hr'.
Qed.

Lemma owned_safe c : owned c → ¬ goes_wrong c.
Proof.
  intros (Rs & Hts & Hinv) (i & X & a & k & Hi & Hok & Hbad).
  destruct (Forall2_lookup_l _ _ _ _ _ Hts Hi) as (R & HR & Hwp).
  destruct (concat_split Rs i R HR) as (rest & Hr & _).
  destruct (wp_act_run a k R rest c.2) as (x1 & w1 & R' & Ha1 & _); auto; [|congruence].
  by eapply inv_perm.
Qed.

(** Verified threads stay verified, and never go wrong, in every interleaving. *)
Lemma reach_inv c c' : owned c → rtc step c c' → owned c'.
Proof. intros Hc H. induction H; eauto using owned_step. Qed.

Lemma reach_safe c c' : owned c → rtc step c c' → ¬ goes_wrong c'.
Proof. intros Hc H. by apply owned_safe, (reach_inv c). Qed.
End prog.

Declare Scope prog_scope.
Delimit Scope prog_scope with prog.
Notation "x <- p ;; k" := (bind p (λ x, k))
  (at level 100, p at next level, right associativity) : prog_scope.
Notation "p ;; k" := (bind p (λ _, k)) (at level 100, right associativity) : prog_scope.
