(* ===== verification/Node.v ===== *)
(** * The node (skynet-src/skynet_server.c and the files around it)

    Service contexts, message sending, launching and killing of services, the
    dispatch loop of the worker threads, and the text commands.  The state of
    the node is one record; what the C code does under a lock or with an
    atomic builtin is one atomic action on it, and every function is a program
    of such actions (see Prog.v), so that the same definition can be run alone
    and interleaved with other threads.

    Also here: skynet_harbor.c, skynet_monitor.c, skynet_env.c, skynet_error.c,
    the parts of skynet_handle.c, skynet_mq.c and skynet_timer.c that call back
    into the server, and the threads of skynet_start.c. *)

From stdpp Require Import prelude list gmap list_numbers strings.
From S2P Require Import Prelude Skynet MQ Handle Timer Module CString Prog.

(** ** State *)

(** Allocated memory that messages carry: plain bytes, or the
    [struct remote_message] handed to the harbor service. *)
Inductive block :=
| Bytes (l : list Z)
| Rmsg (name : list Z) (handle : Z) (message : Z) (sz : Z).

(** [struct skynet_context]; [cb] is the callback and its [ud].  The lock
    [calling] is the one of the CALLING_CHECK build. *)
Record context := mkCtx {
  ctx_mod : Z;
  ctx_instance : Z;
  ctx_cb : option Z;
  ctx_queue : ptr;
  ctx_logfile : option Z;
  ctx_handle : Z;
  ctx_session_id : Z;
  ctx_ref : Z;
  ctx_init : bool;
  ctx_endless : bool;
  ctx_calling : bool
}.

#[export] Instance eta_context : Eta context :=
  λ c, mkCtx (ctx_mod c) (ctx_instance c) (ctx_cb c) (ctx_queue c) (ctx_logfile c) (ctx_handle c)
             (ctx_session_id c) (ctx_ref c) (ctx_init c) (ctx_endless c) (ctx_calling c).

Record skynet_monitor := mkMonitor {
  sm_version : Z;
  sm_check_version : Z;
  sm_source : Z;
  sm_destination : Z
}.

#[export] Instance eta_monitor : Eta skynet_monitor :=
  λ m, mkMonitor (sm_version m) (sm_check_version m) (sm_source m) (sm_destination m).

(** The node: [G_NODE], [H], [Q], [TI], [M], [E], [REMOTE], [HARBOR], the
    static [logger] of [skynet_error], the monitors, the heap of contexts and
    of message blocks.  [w_next] and [w_next_data] are the addresses the
    allocator uses next; a context and its queue, which are allocated together,
    get the same address in their separate heaps.  [w_clock] are the readings
    of the monotonic clock still to come, [w_sig] the values of the flag [SIG], set
    by the signal handler, still to be read, [w_fopen] the files that can be opened. *)
Record world := mkWorld {
  w_mq : mqs;
  w_hs : handle_storage;
  w_ctx : gmap ptr context;
  w_mem : gmap Z block;
  w_next : ptr;
  w_next_data : Z;
  w_total : Z;
  w_monitor_exit : Z;
  w_harbor : Z;
  w_remote : option ptr;
  w_logger : Z;
  w_timer : timer;
  w_mods : modules;
  w_env : gmap cstring cstring;
  w_monitors : list skynet_monitor;
  w_quit : bool;
  w_clock : list Z;
  w_sig : list bool;
  w_fopen : cstring → option Z
}.

#[export] Instance eta_world : Eta world :=
  λ w, mkWorld (w_mq w) (w_hs w) (w_ctx w) (w_mem w) (w_next w) (w_next_data w) (w_total w)
               (w_monitor_exit w) (w_harbor w) (w_remote w) (w_logger w) (w_timer w) (w_mods w)
               (w_env w) (w_monitors w) (w_quit w) (w_clock w) (w_sig w) (w_fopen w).

(** [skynet_context_handle] *)
Definition hof (w : world) (c : ptr) : Z := default 0 (ctx_handle <$> w_ctx w !! c).

(** Reading the handle of a context in a slot is valid: the context is allocated. *)
Definition slots_live (w : world) : bool :=
  forallb (λ cell, match cell with Some c => bool_decide (is_Some (w_ctx w !! c)) | None => true end)
          (h_slot (w_hs w)).

(** ** Atomic actions *)

Inductive act : Type → Type :=
(* skynet_handle.c *)
| AGrab (handle : Z) : act (option ptr)
| ARetire (handle : Z) : act (option ptr)
| ASlotHandle (i : Z) : act (option Z)
| AFindName (name : cstring) : act Z
| ANameHandle (handle : Z) (name : cstring) : act (option cstring)
(* contexts *)
| APublish (mod_ : Z) (inst : Z) : act (ptr * ptr)
| ALaunched (c : ptr) : act (option Z)
| AInc (c : ptr) : act unit
| ADec (c : ptr) : act Z
| AFreeContext (c : ptr) : act unit
| AContextDec : act unit
| ATotal : act Z
| AHandle (c : ptr) : act Z
| ANewSession (c : ptr) : act Z
| AModule (c : ptr) : act (Z * Z)
| ACb (c : ptr) : act (option Z)
| ASetCb (c : ptr) (cb : option Z) : act unit
| AInit (c : ptr) : act bool
| AEndless (c : ptr) : act bool
| ASetEndless (c : ptr) (b : bool) : act unit
| ALogfile (c : ptr) : act (option Z)
| ACasLogfile (c : ptr) (old new : option Z) : act bool
| ACallingBegin (c : ptr) : act unit
| ACallingEnd (c : ptr) : act unit
(* queues *)
| APush (c : ptr) (m : skynet_message) : act unit
| AQueueLength (c : ptr) : act Z
| AQueueOf (c : ptr) : act ptr
| AMarkRelease (c : ptr) : act unit
| AQHandle (q : ptr) : act Z
| APop (q : ptr) : act (option skynet_message)
| ALength (q : ptr) : act Z
| AOverload (q : ptr) : act Z
| AReleaseTest (q : ptr) : act bool
| AFreeQueue (q : ptr) : act unit
| AGlobalPush (q : ptr) : act unit
| AGlobalPop : act (option ptr)
(* memory *)
| AAlloc (b : block) : act Z
| AFree (d : Z) : act unit
| ARead (d sz : Z) : act (list Z)
| ARmsgType (d : Z) : act Z
| AAssert (b : bool) : act unit
(* harbor *)
| AHarbor : act Z
| AHarborSend (d source type session : Z) : act unit
| ASetRemote (c : ptr) : act unit
| AClearRemote : act (option ptr)
(* the other globals *)
| AMonitorExit : act Z
| ASetMonitorExit (h : Z) : act unit
| ALogger : act Z
| ASetLogger (h : Z) : act unit
| AGetenv (key : cstring) : act (option cstring)
| ASetenv (key value : cstring) : act unit
| AFopen (path : cstring) : act (option Z)
| AModuleQuery (name : cstring) : act (option Z)
| AModuleOf (i : Z) : act skynet_module
| AQuit : act bool
| ASetQuit : act unit
| ASig : act bool
(* monitors *)
| ATrigger (i source destination : Z) : act unit
| ACheck (i : Z) : act (option (Z * Z * Z))
(* timer *)
| AStarttime : act Z
| AClock : act Z
| APoint : act Z
| ASetPoint (cp : Z) : act unit
| AAddCurrent (diff : Z) : act unit
| ATimerAdd (ev : timer_event) (t : Z) : act unit
| ATimerFirst : act (list timer_event + list timer_event)
| ATimerTake : act (list timer_event).

(** ** Semantics of the actions

    [None] is undefined behaviour (an access through a dangling pointer, an
    index outside an array) or a failed [assert]. *)

Definition get_ctx (c : ptr) (w : world) : option context := w_ctx w !! c.

Definition set_ctx (c : ptr) (x : context) (w : world) : world :=
  w <| w_ctx := <[c := x]> (w_ctx w) |>.

Definition get_queue (q : ptr) (w : world) : option message_queue := mq_heap (w_mq w) !! q.

(** [skynet_handle_grab], with [skynet_context_grab] inside the lock. *)
Definition grab_step (handle : Z) (w : world) : option (option ptr * world) :=
  _ ← c_assert (slots_live w);
  r ← skynet_handle_grab (hof w) handle (w_hs w);
  match r with
  | Some c => x ← get_ctx c w; Some (Some c, set_ctx c (x <| ctx_ref := i32 (ctx_ref x + 1) |>) w)
  | None => Some (None, w)
  end.

(** The part of [skynet_handle_retire] under the lock. *)
Definition retire_step (handle : Z) (w : world) : option (option ptr * world) :=
  _ ← c_assert (slots_live w);
  '(r, hs) ← skynet_handle_retire (hof w) handle (w_hs w);
  Some (r, w <| w_hs := hs |>).

(** One round of the inner loop of [skynet_handle_retireall]: the handle in
    slot [i], 0 for an empty slot, [None] at the end of the table. *)
Definition slot_handle_step (i : Z) (w : world) : option (option Z * world) :=
  if i <? h_slot_size (w_hs w) then
    _ ← c_assert (slots_live w);
    cell ← zget (h_slot (w_hs w)) i;
    Some (Some (match cell with Some c => hof w c | None => 0 end), w)
  else Some (None, w).

(** [skynet_context_new] from the allocation of the context to [context_inc]:
    the context is registered, gets its handle and its queue.  The C code does
    this in several steps; another thread that uses the new handle in between
    finds the handle or the queue not set yet. *)
Definition publish_step (mod_ inst : Z) (w : world) : option ((ptr * ptr) * world) :=
  let c := w_next w in
  let x := mkCtx mod_ inst None c None 0 0 2 false false false in
  let w := set_ctx c x w in
  _ ← c_assert (slots_live w);
  '(handle, hs) ← skynet_handle_register (hof w) c (w_hs w);
  mq ← skynet_mq_create c handle (w_mq w);
  Some ((c, c), (set_ctx c (x <| ctx_handle := handle |>) w)
                  <| w_hs := hs |> <| w_mq := mq |> <| w_next := Pos.succ c |>
                  <| w_total := i32 (w_total w + 1) |>).

(** [ret = skynet_context_release (ctx); if (ret) ctx->init = true;] of
    [skynet_context_new], with the handle [skynet_error (ret, ...)] and the
    caller read from [ret]; [None] when the context has to be deleted. *)
Definition launched_step (c : ptr) (w : world) : option (option Z * world) :=
  x ← get_ctx c w;
  let r := i32 (ctx_ref x - 1) in
  let x := x <| ctx_ref := r |> in
  if r =? 0 then Some (None, set_ctx c x w)
  else Some (Some (ctx_handle x), set_ctx c (x <| ctx_init := true |>) w).

Definition add_ref (c : ptr) (d : Z) (w : world) : option (Z * world) :=
  x ← get_ctx c w;
  let r := i32 (ctx_ref x + d) in
  Some (r, set_ctx c (x <| ctx_ref := r |>) w).

(** [int session = ++ctx->session_id; if (session <= 0) ...] *)
Definition skynet_context_newsession (x : context) : Z * context :=
  let session := i32 (ctx_session_id x + 1) in
  let x := x <| ctx_session_id := session |> in
  if session <=? 0 then (1, x <| ctx_session_id := 1 |>) else (session, x).

Definition with_mq (s : mqs) (w : world) : world := w <| w_mq := s |>.

Definition push_step (c : ptr) (m : skynet_message) (w : world) : option (unit * world) :=
  x ← get_ctx c w;
  mq ← skynet_mq_push (ctx_queue x) m (w_mq w);
  Some (tt, with_mq mq w).

Definition pop_step (q : ptr) (w : world) : option (option skynet_message * world) :=
  '(r, mq) ← mq_pop_at q (w_mq w);
  Some (r, with_mq mq w).

Definition overload_step (q : ptr) (w : world) : option (Z * world) :=
  x ← get_queue q w;
  let '(r, x) := skynet_mq_overload x in
  Some (r, with_mq ((w_mq w) <| mq_heap := <[q := x]> (mq_heap (w_mq w)) |>) w).

(** The test of [skynet_mq_release] under the lock: [true] when the queue has
    to be dropped; otherwise it went back to the global queue. *)
Definition release_test_step (q : ptr) (w : world) : option (bool * world) :=
  x ← get_queue q w;
  if c_true (mq_release x) then Some (true, w)
  else mq ← skynet_globalmq_push q (w_mq w); Some (false, with_mq mq w).

Definition alloc_step (b : block) (w : world) : option (Z * world) :=
  let d := w_next_data w in
  Some (d, w <| w_mem := <[d := b]> (w_mem w) |> <| w_next_data := d + 1 |>).

Definition free_step (d : Z) (w : world) : option (unit * world) :=
  if d =? 0 then Some (tt, w)
  else _ ← w_mem w !! d; Some (tt, w <| w_mem := delete d (w_mem w) |>).

Definition read_step (d sz : Z) (w : world) : option (list Z * world) :=
  b ← w_mem w !! d;
  match b with
  | Bytes l => if (0 <=? sz) && (sz <=? Z.of_nat (length l))
               then Some (take (Z.to_nat sz) l, w) else None
  | Rmsg _ _ _ _ => None
  end.

(** [type = rmsg->sz >> MESSAGE_TYPE_SHIFT; rmsg->sz &= MESSAGE_TYPE_MASK;] *)
Definition rmsg_type_step (d : Z) (w : world) : option (Z * world) :=
  b ← w_mem w !! d;
  match b with
  | Rmsg n h m sz =>
      Some (Z.shiftr sz MESSAGE_TYPE_SHIFT,
            w <| w_mem := <[d := Rmsg n h m (Z.land sz MESSAGE_TYPE_MASK)]> (w_mem w) |>)
  | Bytes _ => None
  end.

(** [skynet_context_send]: no reference is taken, the caller guarantees [ctx]. *)
Definition message_for (d sz source type session : Z) : skynet_message :=
  mkMsg source session d (Z.lor sz (u64 (Z.shiftl type MESSAGE_TYPE_SHIFT))).

(** [assert (REMOTE)] and [skynet_context_send (REMOTE, ...)] *)
Definition harbor_send_step (d source type session : Z) (w : world) : option (unit * world) :=
  c ← w_remote w;
  push_step c (message_for d SIZEOF_REMOTE_MESSAGE source type session) w.

Definition skynet_monitor_new : skynet_monitor := mkMonitor 0 0 0 0.

Definition skynet_monitor_trigger (source destination : Z) (m : skynet_monitor) : skynet_monitor :=
  m <| sm_source := source |> <| sm_destination := destination |>
    <| sm_version := i32 (sm_version m + 1) |>.

Definition trigger_step (i source destination : Z) (w : world) : option (unit * world) :=
  m ← zget (w_monitors w) i;
  ms ← zset (w_monitors w) i (skynet_monitor_trigger source destination m);
  Some (tt, w <| w_monitors := ms |>).

(** The reads and writes of [skynet_monitor_check]: the message to complain about, if any. *)
Definition check_step (i : Z) (w : world) : option (option (Z * Z * Z) * world) :=
  m ← zget (w_monitors w) i;
  if sm_version m =? sm_check_version m then
    Some (if c_true (sm_destination m)
          then Some (sm_source m, sm_destination m, sm_version m) else None, w)
  else
    ms ← zset (w_monitors w) i (m <| sm_check_version := sm_version m |>);
    Some (None, w <| w_monitors := ms |>).

(** [timer_execute] up to the unlock: the events of the current near list, taken off it. *)
Definition timer_take (T : timer) : option (list timer_event * timer) :=
  let idx := Z.land (T_time T) TIME_NEAR_MASK in
  match zget (T_near T) idx with
  | None => None
  | Some [] => Some ([], T)
  | Some _ => '(l, T) ← clear_near T idx; Some ((tn_event <$> l : list timer_event), T : timer)
  end.

(** The first locked section of [timer_update]: events that are already due are
    taken ([inl]); if there are none, the clock shifts and the events that are
    due now are taken ([inr]). *)
Definition timer_first (T : timer) : option ((list timer_event + list timer_event) * timer) :=
  '(evs, T) ← timer_take T;
  if bool_decide (evs = []) then
    T ← timer_shift T; '(evs, T) ← timer_take T; Some (inr evs, T)
  else Some (inl evs, T).

(** The globals of the Lua state of skynet_env.c, as a map of strings. *)
Definition skynet_getenv (key : cstring) (env : gmap cstring cstring) : option cstring := env !! key.

Definition skynet_setenv (key value : cstring) (env : gmap cstring cstring)
    : option (gmap cstring cstring) :=
  _ ← c_assert (bool_decide (env !! key = None)); Some (<[key := value]> env).

(** [HARBOR], shifted to the high byte of a handle. *)
Definition skynet_harbor_init (harbor : Z) : Z := u32 (Z.shiftl harbor HANDLE_REMOTE_SHIFT).

Section actions.
(** The dynamic linker, for [skynet_module_query]. *)
Context (dlopen : cstring → option Z) (dlsym : Z → cstring → option Z).

Definition on_ctx {X} (c : ptr) (f : context → X) (w : world) : option (X * world) :=
  x ← get_ctx c w; Some (f x, w).

Definition upd_ctx (c : ptr) (f : context → context) (w : world) : option (unit * world) :=
  x ← get_ctx c w; Some (tt, set_ctx c (f x) w).

Definition with_timer {X} (r : option (X * timer)) (w : world) : option (X * world) :=
  '(x, T) ← r; Some (x, w <| w_timer := T |>).

Definition astep (X : Type) (a : act X) (w : world) : option (X * world) :=
  match a in act X return option (X * world) with
  | AGrab h => grab_step h w
  | ARetire h => retire_step h w
  | ASlotHandle i => slot_handle_step i w
  | AFindName n => h ← skynet_handle_findname n (w_hs w); Some (h, w)
  | ANameHandle h n =>
      '(r, hs) ← skynet_handle_namehandle h n (w_hs w); Some (r, w <| w_hs := hs |>)
  | APublish m i => publish_step m i w
  | ALaunched c => launched_step c w
  | AInc c => '(_, w) ← add_ref c 1 w; Some (tt, w)
  | ADec c => add_ref c (-1) w
  | AFreeContext c =>
      _ ← get_ctx c w;
      Some (tt, w <| w_ctx := delete c (w_ctx w) |> <| w_total := i32 (w_total w - 1) |>)
  | AContextDec => Some (tt, w <| w_total := i32 (w_total w - 1) |>)
  | ATotal => Some (w_total w, w)
  | AHandle c => on_ctx c ctx_handle w
  | ANewSession c =>
      x ← get_ctx c w;
      let '(s, x) := skynet_context_newsession x in Some (s, set_ctx c x w)
  | AModule c => on_ctx c (λ x, (ctx_mod x, ctx_instance x)) w
  | ACb c => on_ctx c ctx_cb w
  | ASetCb c cb => upd_ctx c (λ x, x <| ctx_cb := cb |>) w
  | AInit c => on_ctx c ctx_init w
  | AEndless c => on_ctx c ctx_endless w
  | ASetEndless c b => upd_ctx c (λ x, x <| ctx_endless := b |>) w
  | ALogfile c => on_ctx c ctx_logfile w
  | ACasLogfile c old new =>
      x ← get_ctx c w;
      if bool_decide (ctx_logfile x = old) then Some (true, set_ctx c (x <| ctx_logfile := new |>) w)
      else Some (false, w)
  | ACallingBegin c =>
      x ← get_ctx c w;
      _ ← c_assert (negb (ctx_calling x));
      Some (tt, set_ctx c (x <| ctx_calling := true |>) w)
  | ACallingEnd c => upd_ctx c (λ x, x <| ctx_calling := false |>) w
  | APush c m => push_step c m w
  | AQueueLength c =>
      x ← get_ctx c w; q ← get_queue (ctx_queue x) w; Some (skynet_mq_length q, w)
  | AQueueOf c => on_ctx c ctx_queue w
  | AMarkRelease c =>
      x ← get_ctx c w; mq ← skynet_mq_mark_release (ctx_queue x) (w_mq w); Some (tt, with_mq mq w)
  | AQHandle q => x ← get_queue q w; Some (mq_handle x, w)
  | APop q => pop_step q w
  | ALength q => x ← get_queue q w; Some (skynet_mq_length x, w)
  | AOverload q => overload_step q w
  | AReleaseTest q => release_test_step q w
  | AFreeQueue q => mq ← _release q (w_mq w); Some (tt, with_mq mq w)
  | AGlobalPush q => mq ← skynet_globalmq_push q (w_mq w); Some (tt, with_mq mq w)
  | AGlobalPop => '(r, mq) ← skynet_globalmq_pop (w_mq w); Some (r, with_mq mq w)
  | AAlloc b => alloc_step b w
  | AFree d => free_step d w
  | ARead d sz => read_step d sz w
  | ARmsgType d => rmsg_type_step d w
  | AAssert b => _ ← c_assert b; Some (tt, w)
  | AHarbor => Some (w_harbor w, w)
  | AHarborSend d source type session => harbor_send_step d source type session w
  | ASetRemote c => Some (tt, w <| w_remote := Some c |>)
  | AClearRemote => Some (w_remote w, w <| w_remote := None |>)
  | AMonitorExit => Some (w_monitor_exit w, w)
  | ASetMonitorExit h => Some (tt, w <| w_monitor_exit := h |>)
  | ALogger => Some (w_logger w, w)
  | ASetLogger h => Some (tt, w <| w_logger := h |>)
  | AGetenv k => Some (skynet_getenv k (w_env w), w)
  | ASetenv k v =>
      env ← skynet_setenv k v (w_env w); Some (tt, w <| w_env := env |>)
  | AFopen path => Some (w_fopen w path, w)
  | AModuleQuery n =>
      '(r, m) ← skynet_module_query dlopen dlsym n (w_mods w); Some (r, w <| w_mods := m |>)
  | AModuleOf i => m ← zget (M_m (w_mods w)) i; Some (m, w)
  | AQuit => Some (w_quit w, w)
  | ASetQuit => Some (tt, w <| w_quit := true |>)
  | ASig => Some (default false (head (w_sig w)), w <| w_sig := tail (w_sig w) |>)
  | ATrigger i source destination => trigger_step i source destination w
  | ACheck i => check_step i w
  | AStarttime => Some (skynet_starttime (w_timer w), w)
  | AClock => Some (default (T_current_point (w_timer w)) (head (w_clock w)),
                    w <| w_clock := tail (w_clock w) |>)
  | APoint => Some (T_current_point (w_timer w), w)
  | ASetPoint cp => Some (tt, w <| w_timer := (w_timer w) <| T_current_point := cp |> |>)
  | AAddCurrent diff =>
      Some (tt, w <| w_timer := (w_timer w) <| T_current := u64 (T_current (w_timer w) + diff) |> |>)
  | ATimerAdd ev t => T ← timer_add (w_timer w) ev t; Some (tt, w <| w_timer := T |>)
  | ATimerFirst => with_timer (timer_first (w_timer w)) w
  | ATimerTake => with_timer (timer_take (w_timer w)) w
  end.
End actions.

(** ** Procedures

    Service code is reached through the function pointers of its module and of
    the callback; it is given by the instance of [Services].  The other
    procedures are the loops of the server. *)

Inductive sfn : Type → Type :=
| SCreate (f : Z) : sfn (option Z)
| SInit (f inst : Z) (c : ptr) (param : option cstring) : sfn Z
| SRelease (f inst : Z) : sfn unit
| SSignal (f inst sig : Z) : sfn unit
| SCallback (cb : Z) (c : ptr) (type session source d sz : Z) : sfn Z
| SSocketPoll : sfn Z.

Inductive fn : Type → Type :=
| FService {X} (s : sfn X) : fn X
| FDrop (q : ptr) (handle : Z) : fn unit
| FRun (sm : Z) (q c : ptr) (handle weight i n : Z) : fn (option (option ptr))
| FDispatchAll (c q : ptr) : fn unit
| FRetireAll (i n : Z) : fn unit
| FTimerFirst : fn unit
| FTimerRest : fn unit
| FThreadTimer : fn unit
| FThreadSocket : fn unit
| FThreadMonitor (n : Z) : fn unit
| FThreadWorker (id weight : Z) (q : option ptr) : fn unit.

Abbreviation program := (@prog act fn).
Notation "'atom' a" := (do_act (fn := fn) a) (at level 10, a at level 9) : prog_scope.
Notation "'proc' f" := (do_call (act := act) f) (at level 10, f at level 9) : prog_scope.

Open Scope prog_scope.

Definition when (b : bool) (p : program unit) : program unit := if b then p else Ret tt.

(** ** Contexts *)

(** [skynet_module_instance_create]: a module without a [create] gets [~0] as its instance. *)
Definition skynet_module_instance_create (i : Z) : program (option Z) :=
  m <- atom (AModuleOf i) ;;
  match mod_create m with
  | Some f => proc (FService (SCreate f))
  | None => Ret (Some (2 ^ 64 - 1))
  end.

Definition skynet_module_instance_init (i inst : Z) (c : ptr) (param : option cstring) : program Z :=
  m <- atom (AModuleOf i) ;;
  match mod_init m with
  | Some f => proc (FService (SInit f inst c param))
  | None => atom (AAssert false) ;; Ret 0
  end.

Definition skynet_module_instance_release (i inst : Z) : program unit :=
  m <- atom (AModuleOf i) ;;
  match mod_release m with
  | Some f => proc (FService (SRelease f inst))
  | None => Ret tt
  end.

Definition skynet_module_instance_signal (i inst sig : Z) : program unit :=
  m <- atom (AModuleOf i) ;;
  match mod_signal m with
  | Some f => proc (FService (SSignal f inst sig))
  | None => Ret tt
  end.

Definition delete_context (c : ptr) : program unit :=
  _ <- atom (ALogfile c) ;;
  m <- atom (AModule c) ;;
  skynet_module_instance_release m.1 m.2 ;;
  atom (AMarkRelease c) ;;
  atom (AFreeContext c).

Definition skynet_context_release (c : ptr) : program (option ptr) :=
  r <- atom (ADec c) ;;
  if r =? 0 then (delete_context c ;; Ret None) else Ret (Some c).

Definition skynet_context_reserve (c : ptr) : program unit :=
  atom (AInc c) ;;
  atom AContextDec.

Definition skynet_context_push (handle : Z) (m : skynet_message) : program Z :=
  r <- atom (AGrab handle) ;;
  match r with
  | None => Ret (-1)
  | Some c =>
      atom (APush c m) ;;
      skynet_context_release c ;;
      Ret 0
  end.

Definition skynet_context_endless (handle : Z) : program unit :=
  r <- atom (AGrab handle) ;;
  match r with
  | None => Ret tt
  | Some c =>
      atom (ASetEndless c true) ;;
      skynet_context_release c ;;
      Ret tt
  end.

(** [skynet_handle_retire] *)
Definition handle_retire (handle : Z) : program Z :=
  r <- atom (ARetire handle) ;;
  match r with
  | Some c => skynet_context_release c ;; Ret 1
  | None => Ret 0
  end.

(** ** Errors go to the service named "logger"

    [fmt] is what [vsnprintf] prints, [None] when it fails.  [source] is the
    handle of the context, 0 for NULL. *)

Definition name_logger : cstring := str "logger".

Definition error_from (source : Z) (fmt : option cstring) : program unit :=
  logger <- atom ALogger ;;
  (if logger =? 0 then (h <- atom (AFindName name_logger) ;; atom (ASetLogger h)) else Ret tt) ;;
  logger <- atom ALogger ;;
  if logger =? 0 then Ret tt else
  match fmt with
  | None => Ret tt
  | Some text =>
      d <- atom (AAlloc (Bytes (text ++ [0]))) ;;
      skynet_context_push logger
        (mkMsg source 0 d (Z.lor (Z.of_nat (length text)) (Z.shiftl PTYPE_TEXT MESSAGE_TYPE_SHIFT))) ;;
      Ret tt
  end.

Definition skynet_error (context : option ptr) (fmt : option cstring) : program unit :=
  match context with
  | None => error_from 0 fmt
  | Some c => h <- atom (AHandle c) ;; error_from h fmt
  end.

(** ** Harbor *)

Definition skynet_harbor_message_isremote (handle : Z) : program bool :=
  HARBOR <- atom AHarbor ;;
  atom (AAssert (negb (HARBOR =? 2 ^ 32 - 1))) ;;
  let h := Z.land handle (2 ^ 32 - 1 - HANDLE_MASK) in
  Ret (negb (h =? HARBOR) && negb (h =? 0)).

Definition skynet_harbor_send (rmsg source session : Z) : program unit :=
  type <- atom (ARmsgType rmsg) ;;
  atom (AAssert (negb (type =? PTYPE_SYSTEM) && negb (type =? PTYPE_HARBOR))) ;;
  atom (AHarborSend rmsg source type session).

Definition skynet_harbor_start (c : ptr) : program unit :=
  skynet_context_reserve c ;;
  atom (ASetRemote c).

Definition skynet_harbor_exit : program unit :=
  r <- atom AClearRemote ;;
  match r with Some c => skynet_context_release c ;; Ret tt | None => Ret tt end.

(** ** Sending *)

(** [_filter_args]: the session, the payload and the size with the type in its high byte. *)
Definition _filter_args (context : option ptr) (type session data sz : Z) : program (Z * Z * Z) :=
  session <- (if c_true (Z.land type PTYPE_TAG_ALLOCSESSION) then
                (atom (AAssert (session =? 0)) ;;
                 match context with
                 | Some c => atom (ANewSession c)
                 | None => atom (AAssert false) ;; Ret 0
                 end)
              else Ret session) ;;
  data <- (if negb (c_true (Z.land type PTYPE_TAG_DONTCOPY)) && c_true data then
             (bs <- atom (ARead data sz) ;; atom (AAlloc (Bytes (bs ++ [0]))))
           else Ret data) ;;
  Ret (session, data, Z.lor sz (u64 (Z.shiftl (Z.land type 0xff) MESSAGE_TYPE_SHIFT))).

(** [skynet_context_handle (context)], where [context] must not be NULL. *)
Definition own_handle (context : option ptr) : program Z :=
  match context with
  | Some c => atom (AHandle c)
  | None => atom (AAssert false) ;; Ret 0
  end.

Definition skynet_send (context : option ptr) (source destination type session data sz : Z)
    : program Z :=
  if negb (Z.land sz MESSAGE_TYPE_MASK =? sz) then
    skynet_error context (Some (str "The message to " ++ print_x destination ++ str " is too large")) ;;
    when (c_true (Z.land type PTYPE_TAG_DONTCOPY)) (atom (AFree data)) ;;
    Ret (-1)
  else
  a <- _filter_args context type session data sz ;;
  let '(session, data, sz) := a in
  source <- (if source =? 0 then own_handle context else Ret source) ;;
  if destination =? 0 then Ret session else
  remote <- skynet_harbor_message_isremote destination ;;
  if remote : bool then
    rmsg <- atom (AAlloc (Rmsg [] destination data sz)) ;;
    skynet_harbor_send rmsg source session ;;
    Ret session
  else
    r <- skynet_context_push destination (mkMsg source session data sz) ;;
    if c_true r then (atom (AFree data) ;; Ret (-1)) else Ret session.

(** [copy_name]: the first 16 characters, padded with 0. *)
Definition copy_name (addr : cstring) : list Z :=
  let name := take (Z.to_nat GLOBALNAME_LENGTH) addr in
  name ++ replicate (Z.to_nat GLOBALNAME_LENGTH - length name) 0.

Definition ch_colon : Z := 58.
Definition ch_dot : Z := 46.

Definition skynet_sendname (context : option ptr) (source : Z) (addr : cstring)
    (type session data sz : Z) : program Z :=
  source <- (if source =? 0 then own_handle context else Ret source) ;;
  match addr with
  | c :: rest =>
      if c =? ch_colon then
        skynet_send context source (u32 (strtoul16 rest)) type session data sz
      else if c =? ch_dot then
        des <- atom (AFindName rest) ;;
        if des =? 0 then
          when (c_true (Z.land type PTYPE_TAG_DONTCOPY)) (atom (AFree data)) ;;
          Ret (-1)
        else skynet_send context source des type session data sz
      else
        a <- _filter_args context type session data sz ;;
        let '(session, data, sz) := a in
        rmsg <- atom (AAlloc (Rmsg (copy_name addr) 0 data sz)) ;;
        skynet_harbor_send rmsg source session ;;
        Ret session
  | [] =>
      a <- _filter_args context type session data sz ;;
      let '(session, data, sz) := a in
      rmsg <- atom (AAlloc (Rmsg (copy_name addr) 0 data sz)) ;;
      skynet_harbor_send rmsg source session ;;
      Ret session
  end.

(** ** Dropping a queue *)

Definition drop_message (handle : Z) (m : skynet_message) : program unit :=
  atom (AFree (msg_data m)) ;;
  atom (AAssert (c_true handle)) ;;
  skynet_send None handle (msg_source m) PTYPE_ERROR 0 0 0 ;;
  Ret tt.

(** [while (!skynet_mq_pop (q, &msg)) drop_func (&msg, ud);] *)
Definition drop_body (q : ptr) (handle : Z) : program unit :=
  r <- atom (APop q) ;;
  match r with
  | Some m => drop_message handle m ;; proc (FDrop q handle)
  | None => Ret tt
  end.

(** [skynet_mq_release (q, drop_message, { handle })] with [_drop_queue] *)
Definition mq_release_drop (q : ptr) (handle : Z) : program unit :=
  b <- atom (AReleaseTest q) ;;
  when b (proc (FDrop q handle) ;; atom (AFreeQueue q)).

(** ** Launching *)

Definition param_text (param : option cstring) : cstring := default [] param.

(** [skynet_context_new]: the handle of the new service. *)
Definition skynet_context_new (name : cstring) (param : option cstring) : program (option (ptr * Z)) :=
  m <- atom (AModuleQuery name) ;;
  match m with
  | None => Ret None
  | Some m =>
  i <- skynet_module_instance_create m ;;
  match i with
  | None => Ret None
  | Some inst =>
  cq <- atom (APublish m inst) ;;
  let '(c, queue) := cq in
  atom (ACallingBegin c) ;;
  r <- skynet_module_instance_init m inst c param ;;
  atom (ACallingEnd c) ;;
  if r =? 0 then
    ret <- atom (ALaunched c) ;;
    match ret with
    | None =>
        delete_context c ;;
        atom (AGlobalPush queue) ;;
        Ret None
    | Some handle =>
        atom (AGlobalPush queue) ;;
        error_from handle (Some (str "LAUNCH " ++ name ++ str " " ++ param_text param)) ;;
        Ret (Some (c, handle))
    end
  else
    skynet_error (Some c) (Some (str "FAILED launch " ++ name)) ;;
    handle <- atom (AHandle c) ;;
    skynet_context_release c ;;
    handle_retire handle ;;
    mq_release_drop queue handle ;;
    Ret None
  end end.

(** ** Dispatching *)

Definition dispatch_message (c : ptr) (m : skynet_message) : program unit :=
  i <- atom (AInit c) ;;
  atom (AAssert i) ;;
  atom (ACallingBegin c) ;;
  _ <- atom (AHandle c) ;;
  let type := Z.shiftr (msg_sz m) MESSAGE_TYPE_SHIFT in
  let sz := Z.land (msg_sz m) MESSAGE_TYPE_MASK in
  _ <- atom (ALogfile c) ;;
  cb <- atom (ACb c) ;;
  r <- match cb with
       | Some cb => proc (FService (SCallback cb c type (msg_session m) (msg_source m) (msg_data m) sz))
       | None => atom (AAssert false) ;; Ret 0
       end ;;
  when (negb (c_true r)) (atom (AFree (msg_data m))) ;;
  atom (ACallingEnd c).

(** [while (!skynet_mq_pop (q, &msg)) dispatch_message (ctx, &msg);] *)
Definition dispatchall_body (c q : ptr) : program unit :=
  r <- atom (APop q) ;;
  match r with
  | Some m => dispatch_message c m ;; proc (FDispatchAll c q)
  | None => Ret tt
  end.

Definition skynet_context_dispatchall (c : ptr) : program unit :=
  q <- atom (AQueueOf c) ;;
  proc (FDispatchAll c q).

(** The [for] loop of [skynet_context_message_dispatch]: [Some nq] when the
    function returns [nq] from inside the loop. *)
Definition run_body (sm : Z) (q c : ptr) (handle weight i n : Z) : program (option (option ptr)) :=
  if i <? n then
    r <- atom (APop q) ;;
    match r with
    | None =>
        skynet_context_release c ;;
        nq <- atom AGlobalPop ;;
        Ret (Some nq)
    | Some m =>
        n <- (if (i =? 0) && (weight >=? 0)
              then (len <- atom (ALength q) ;; Ret (Z.shiftr len weight)) else Ret n) ;;
        overload <- atom (AOverload q) ;;
        when (c_true overload)
          (skynet_error (Some c)
             (Some (str "May overload, message queue length = " ++ print_d overload))) ;;
        atom (ATrigger sm (msg_source m) handle) ;;
        cb <- atom (ACb c) ;;
        match cb with
        | None => atom (AFree (msg_data m))
        | Some _ => dispatch_message c m
        end ;;
        atom (ATrigger sm 0 0) ;;
        proc (FRun sm q c handle weight (i + 1) n)
    end
  else Ret None.

Definition skynet_context_message_dispatch (sm : Z) (q : option ptr) (weight : Z)
    : program (option ptr) :=
  q <- match q with Some q => Ret (Some q) | None => atom AGlobalPop end ;;
  match q with
  | None => Ret None
  | Some q =>
      handle <- atom (AQHandle q) ;;
      r <- atom (AGrab handle) ;;
      match r with
      | None =>
          mq_release_drop q handle ;;
          atom AGlobalPop
      | Some c =>
          e <- proc (FRun sm q c handle weight 0 1) ;;
          match e with
          | Some nq => Ret nq
          | None =>
              cq <- atom (AQueueOf c) ;;
              atom (AAssert (bool_decide (q = cq))) ;;
              nq <- atom AGlobalPop ;;
              q <- match nq with
                   | Some nq => atom (AGlobalPush q) ;; Ret (Some nq)
                   | None => Ret (Some q)
                   end ;;
              skynet_context_release c ;;
              Ret q
          end
      end
  end.

(** ** Retiring everything *)

(** [skynet_handle_retireall]: slot [i] of the current pass, [n] services
    retired in it so far. *)
Definition retireall_body (i n : Z) : program unit :=
  h <- atom (ASlotHandle i) ;;
  match h with
  | Some handle =>
      r <- (if c_true handle then handle_retire handle else Ret 0) ;;
      proc (FRetireAll (i + 1) (if c_true r then n + 1 else n))
  | None => if n =? 0 then Ret tt else proc (FRetireAll 0 0)
  end.

Definition skynet_handle_retireall : program unit := proc (FRetireAll 0 0).

(** ** Timer *)

Definition response_message (session : Z) : skynet_message :=
  mkMsg 0 session 0 (Z.shiftl PTYPE_RESPONSE MESSAGE_TYPE_SHIFT).

Fixpoint dispatch_list (evs : list timer_event) : program unit :=
  match evs with
  | [] => Ret tt
  | ev :: evs =>
      skynet_context_push (te_handle ev) (response_message (te_session ev)) ;;
      dispatch_list evs
  end.

Definition skynet_timeout (handle time session : Z) : program Z :=
  if time <=? 0 then
    r <- skynet_context_push handle (response_message session) ;;
    Ret (if c_true r then -1 else session)
  else
    atom (ATimerAdd (mkEvent handle session) time) ;;
    Ret session.

(** [timer_update]: the sections between the unlocks of [timer_execute]. *)
Definition timer_first_body : program unit :=
  r <- atom ATimerFirst ;;
  match r with
  | inl evs => dispatch_list evs ;; proc FTimerFirst
  | inr evs => if bool_decide (evs = []) then Ret tt else (dispatch_list evs ;; proc FTimerRest)
  end.

Definition timer_rest_body : program unit :=
  evs <- atom ATimerTake ;;
  if bool_decide (evs = []) then Ret tt else (dispatch_list evs ;; proc FTimerRest).

Fixpoint timer_updates (n : nat) : program unit :=
  match n with
  | O => Ret tt
  | S n => proc FTimerFirst ;; timer_updates n
  end.

Definition updatetime : program unit :=
  cp <- atom AClock ;;
  point <- atom APoint ;;
  if cp <? point then
    skynet_error None (Some (str "time diff error: change from " ++ print_d cp ++
                             str " to " ++ print_d point)) ;;
    atom (ASetPoint cp)
  else if negb (cp =? point) then
    let diff := u32 (cp - point) in
    atom (ASetPoint cp) ;;
    atom (AAddCurrent diff) ;;
    timer_updates (Z.to_nat diff)
  else Ret tt.

(** ** Commands *)

(** [":%08X"], by [id_to_hex] *)
Definition hex_upper (id : Z) (i : Z) : Z :=
  digit_upper (Z.land (Z.shiftr id ((7 - i) * 4)) 0xf).

Definition id_to_hex (id : Z) : cstring := ch_colon :: (hex_upper id <$> seqZ 0 8).

(** [":%x"] *)
Definition print_handle (h : Z) : cstring := ch_colon :: print_x h.

(** A parameter that is dereferenced. *)
Definition with_param {A} (param : option cstring) (k : cstring → program A) (dflt : A) : program A :=
  match param with Some p => k p | None => atom (AAssert false) ;; Ret dflt end.

Definition tohandle (context : ptr) (param : cstring) : program Z :=
  match param with
  | c :: rest =>
      if c =? ch_colon then Ret (u32 (strtoul16 rest))
      else if c =? ch_dot then atom (AFindName rest)
      else skynet_error (Some context) (Some (str "Can't convert " ++ param ++ str " to handle")) ;; Ret 0
  | [] => skynet_error (Some context) (Some (str "Can't convert  to handle")) ;; Ret 0
  end.

Definition skynet_queryname (context : ptr) (name : cstring) : program Z :=
  match name with
  | c :: rest =>
      if c =? ch_colon then Ret (u32 (strtoul16 rest))
      else if c =? ch_dot then atom (AFindName rest)
      else skynet_error (Some context) (Some (str "Don't support query global name " ++ name)) ;; Ret 0
  | [] => skynet_error (Some context) (Some (str "Don't support query global name ")) ;; Ret 0
  end.

Definition handle_exit (context : ptr) (handle : Z) : program unit :=
  handle <- (if handle =? 0 then
               (h <- atom (AHandle context) ;; skynet_error (Some context) (Some (str "KILL self")) ;; Ret h)
             else (skynet_error (Some context) (Some (str "KILL :" ++ print_x handle)) ;; Ret handle)) ;;
  m <- atom AMonitorExit ;;
  (if c_true m then (skynet_send (Some context) handle m PTYPE_CLIENT 0 0 0 ;; Ret tt) else Ret tt) ;;
  handle_retire handle ;;
  Ret tt.

Definition cmd_timeout (context : ptr) (param : cstring) : program (option cstring) :=
  let ti := i32 (strtol10 param) in
  session <- atom (ANewSession context) ;;
  h <- atom (AHandle context) ;;
  skynet_timeout h ti session ;;
  Ret (Some (print_d session)).

Definition cmd_reg (context : ptr) (param : option cstring) : program (option cstring) :=
  match param with
  | None | Some [] => h <- atom (AHandle context) ;; Ret (Some (print_handle h))
  | Some (c :: rest) =>
      if c =? ch_dot then h <- atom (AHandle context) ;; atom (ANameHandle h rest)
      else skynet_error (Some context)
             (Some (str "Can't register global name " ++ c :: rest ++ str " in C")) ;; Ret None
  end.

Definition cmd_query (context : ptr) (param : cstring) : program (option cstring) :=
  match param with
  | c :: rest =>
      if c =? ch_dot then
        handle <- atom (AFindName rest) ;;
        Ret (if c_true handle then Some (print_handle handle) else None)
      else Ret None
  | [] => Ret None
  end.

(** [sscanf (param, "%s %s", name, handle)]: when a word is missing the code
    reads an array that was never written. *)
Definition cmd_name (context : ptr) (param : cstring) : program (option cstring) :=
  let '(name, rest) := scan_word param in
  match name, (scan_word rest).1 with
  | Some name, Some (c :: hex) =>
      if negb (c =? ch_colon) then Ret None else
      let handle_id := u32 (strtoul16 hex) in
      if handle_id =? 0 then Ret None else
      match name with
      | c :: n =>
          if c =? ch_dot then atom (ANameHandle handle_id n)
          else skynet_error (Some context)
                 (Some (str "Can't set global name " ++ name ++ str " in C")) ;; Ret None
      | [] => Ret None
      end
  | _, _ => atom (AAssert false) ;; Ret None
  end.

Definition cmd_exit (context : ptr) : program (option cstring) :=
  handle_exit context 0 ;; Ret None.

Definition cmd_kill (context : ptr) (param : cstring) : program (option cstring) :=
  handle <- tohandle context param ;;
  (if c_true handle then handle_exit context handle else Ret tt) ;;
  Ret None.

Definition cmd_launch (context : ptr) (param : cstring) : program (option cstring) :=
  let '(mod_, args) := strsep (str " " ++ [9; 13; 10]) param in
  let args := args ← args; Some (strsep [13; 10] args).1 in
  inst <- skynet_context_new mod_ args ;;
  Ret (match inst with Some (_, handle) => Some (id_to_hex handle) | None => None end).

Definition cmd_getenv (param : cstring) : program (option cstring) := atom (AGetenv param).

Definition cmd_setenv (param : cstring) : program (option cstring) :=
  let '(key, rest) := split_at_char ch_space param in
  match rest with
  | [] => Ret None
  | _ :: value => atom (ASetenv key value) ;; Ret None
  end.

Definition cmd_starttime : program (option cstring) :=
  sec <- atom AStarttime ;; Ret (Some (print_u sec)).

Definition cmd_endless (context : ptr) : program (option cstring) :=
  e <- atom (AEndless context) ;;
  if e : bool then atom (ASetEndless context false) ;; Ret (Some (str "1")) else Ret None.

Definition cmd_abort : program (option cstring) := skynet_handle_retireall ;; Ret None.

Definition cmd_monitor (context : ptr) (param : option cstring) : program (option cstring) :=
  match param with
  | None | Some [] =>
      m <- atom AMonitorExit ;; Ret (if c_true m then Some (print_handle m) else None)
  | Some p => handle <- tohandle context p ;; atom (ASetMonitorExit handle) ;; Ret None
  end.

Definition cmd_mqlen (context : ptr) : program (option cstring) :=
  len <- atom (AQueueLength context) ;; Ret (Some (print_d len)).

(** ["%08x"] *)
Definition print_08x (h : Z) : cstring :=
  let hex := print_x h in replicate (8 - length hex) 48 ++ hex.

(** ["%s/%08x.log"] *)
Definition log_path (logpath : cstring) (handle : Z) : cstring :=
  logpath ++ str "/" ++ print_08x handle ++ str ".log".

Definition skynet_log_open (context : ptr) (handle : Z) : program (option Z) :=
  logpath <- atom (AGetenv (str "logpath")) ;;
  match logpath with
  | None => Ret None
  | Some logpath =>
      let tmp := log_path logpath handle in
      f <- atom (AFopen tmp) ;;
      skynet_error (Some context)
        (Some (str "Open log file " ++ tmp ++ match f with Some _ => [] | None => str " fail" end)) ;;
      Ret f
  end.

Definition cmd_logon (context : ptr) (param : cstring) : program (option cstring) :=
  handle <- tohandle context param ;;
  if handle =? 0 then Ret None else
  r <- atom (AGrab handle) ;;
  match r with
  | None => Ret None
  | Some c =>
      lastf <- atom (ALogfile c) ;;
      match lastf with
      | Some _ => Ret tt
      | None =>
          f <- skynet_log_open context handle ;;
          match f with Some f => atom (ACasLogfile c None (Some f)) ;; Ret tt | None => Ret tt end
      end ;;
      skynet_context_release c ;;
      Ret None
  end.

Definition cmd_logoff (context : ptr) (param : cstring) : program (option cstring) :=
  handle <- tohandle context param ;;
  if handle =? 0 then Ret None else
  r <- atom (AGrab handle) ;;
  match r with
  | None => Ret None
  | Some c =>
      f <- atom (ALogfile c) ;;
      match f with
      | None => Ret tt
      | Some _ =>
          ok <- atom (ACasLogfile c f None) ;;
          when ok (skynet_error (Some context)
                     (Some (str "Close log file :" ++ print_08x handle)))
      end ;;
      skynet_context_release c ;;
      Ret None
  end.

Definition cmd_signal (context : ptr) (param : cstring) : program (option cstring) :=
  handle <- tohandle context param ;;
  if handle =? 0 then Ret None else
  r <- atom (AGrab handle) ;;
  match r with
  | None => Ret None
  | Some c =>
      let sig := match strchr param ch_space with Some p => i32 (strtol0 p) | None => 0 end in
      m <- atom (AModule c) ;;
      skynet_module_instance_signal m.1 m.2 sig ;;
      skynet_context_release c ;;
      Ret None
  end.

(** [cmd_funcs] *)
Definition cmd_funcs : list (cstring * (ptr → option cstring → program (option cstring))) :=
  [(str "TIMEOUT", λ c p, with_param p (cmd_timeout c) None);
   (str "REG", cmd_reg);
   (str "QUERY", λ c p, with_param p (cmd_query c) None);
   (str "NAME", λ c p, with_param p (cmd_name c) None);
   (str "EXIT", λ c _, cmd_exit c);
   (str "KILL", λ c p, with_param p (cmd_kill c) None);
   (str "LAUNCH", λ c p, with_param p (cmd_launch c) None);
   (str "GETENV", λ _ p, with_param p cmd_getenv None);
   (str "SETENV", λ _ p, with_param p cmd_setenv None);
   (str "STARTTIME", λ _ _, cmd_starttime);
   (str "ENDLESS", λ c _, cmd_endless c);
   (str "ABORT", λ _ _, cmd_abort);
   (str "MONITOR", cmd_monitor);
   (str "MQLEN", λ c _, cmd_mqlen c);
   (str "LOGON", λ c p, with_param p (cmd_logon c) None);
   (str "LOGOFF", λ c p, with_param p (cmd_logoff c) None);
   (str "SIGNAL", λ c p, with_param p (cmd_signal c) None)].

Fixpoint command_lookup (cmd : cstring)
    (l : list (cstring * (ptr → option cstring → program (option cstring))))
    : option (ptr → option cstring → program (option cstring)) :=
  match l with
  | [] => None
  | (name, f) :: l => if strcmp cmd name =? 0 then Some f else command_lookup cmd l
  end.

Definition skynet_command (context : ptr) (cmd : cstring) (param : option cstring)
    : program (option cstring) :=
  match command_lookup cmd cmd_funcs with
  | Some f => f context param
  | None => Ret None
  end.

(** The harbor part of a handle, with whether the handle is on another node. *)
Definition skynet_isremote (handle : Z) : program (bool * Z) :=
  r <- skynet_harbor_message_isremote handle ;;
  Ret (r, Z.shiftr handle HANDLE_REMOTE_SHIFT).

(** ** Monitors and threads (skynet_monitor.c, skynet_start.c) *)

Definition skynet_monitor_check (i : Z) : program unit :=
  r <- atom (ACheck i) ;;
  match r with
  | Some (source, destination, version) =>
      skynet_context_endless destination ;;
      skynet_error None (Some (str "A message from [ :" ++ print_08x source ++ str " ] to [ :" ++
        print_08x destination ++ str " ] maybe in an endless loop (version = " ++
        print_d version ++ str ")"))
  | None => Ret tt
  end.

Fixpoint monitor_checks (n : nat) (i : Z) : program unit :=
  match n with
  | O => Ret tt
  | S n => skynet_monitor_check i ;; monitor_checks n (i + 1)
  end.

(** The [sleep (1)] rounds between two passes only test [CHECK_ABORT]. *)
Fixpoint monitor_sleep (n : nat) : program bool :=
  match n with
  | O => Ret false
  | S n => t <- atom ATotal ;; if t =? 0 then Ret true else monitor_sleep n
  end.

Definition thread_monitor_body (n : Z) : program unit :=
  t <- atom ATotal ;;
  if t =? 0 then Ret tt else
  monitor_checks (Z.to_nat n) 0 ;;
  monitor_sleep 5 ;;
  proc (FThreadMonitor n).

Definition thread_socket_body : program unit :=
  r <- proc (FService SSocketPoll) ;;
  if r =? 0 then Ret tt
  else if r <? 0 then (t <- atom ATotal ;; if t =? 0 then Ret tt else proc FThreadSocket)
  else proc FThreadSocket.

(** A message of type PTYPE_SYSTEM makes the logger reopen its file. *)
Definition signal_hup : program unit :=
  logger <- atom (AFindName name_logger) ;;
  when (c_true logger)
    (skynet_context_push logger (mkMsg 0 0 0 (Z.shiftl PTYPE_SYSTEM MESSAGE_TYPE_SHIFT)) ;; Ret tt).

Definition thread_timer_body : program unit :=
  updatetime ;;
  t <- atom ATotal ;;
  if t =? 0 then atom ASetQuit else
  sig <- atom ASig ;;
  when sig signal_hup ;;
  proc FThreadTimer.

Definition thread_worker_body (id weight : Z) (q : option ptr) : program unit :=
  quit <- atom AQuit ;;
  if quit : bool then Ret tt else
  q <- skynet_context_message_dispatch id q weight ;;
  proc (FThreadWorker id weight q).

(** ** The procedure table *)

Class Services := service_code : ∀ X, sfn X → program X.

Definition node_env `{Services} (X : Type) (f : fn X) : program X :=
  match f in fn X return program X with
  | FService s => service_code _ s
  | FDrop q h => drop_body q h
  | FRun sm q c h weight i n => run_body sm q c h weight i n
  | FDispatchAll c q => dispatchall_body c q
  | FRetireAll i n => retireall_body i n
  | FTimerFirst => timer_first_body
  | FTimerRest => timer_rest_body
  | FThreadTimer => thread_timer_body
  | FThreadSocket => thread_socket_body
  | FThreadMonitor n => thread_monitor_body n
  | FThreadWorker id weight q => thread_worker_body id weight q
  end.

(** ** Start *)

(** The initialisation calls of [skynet_start], with the readings of the clocks. *)
Definition node_init (harbor : Z) (path : cstring) (rs rn ms mn : Z) (threads : nat)
    (env : gmap cstring cstring) (clock : list Z) (sig : list bool) (fopen : cstring → option Z) : world :=
  mkWorld skynet_mq_init (skynet_handle_init harbor) ∅ ∅ 1 1 0 0
    (skynet_harbor_init harbor) None 0 (skynet_timer_init rs rn ms mn)
    (skynet_module_init path) env (replicate threads skynet_monitor_new) false clock sig fopen.

Definition worker_weights : list Z :=
  [-1; -1; -1; -1; 0; 0; 0; 0; 1; 1; 1; 1; 1; 1; 1; 1;
   2; 2; 2; 2; 2; 2; 2; 2; 3; 3; 3; 3; 3; 3; 3; 3].

(** The threads [start] creates. *)
Definition start_threads (thread : nat) : list (program unit) :=
  proc (FThreadMonitor (Z.of_nat thread)) :: proc FThreadTimer :: proc FThreadSocket ::
  ((λ i, proc (FThreadWorker (Z.of_nat i) (default 0 (worker_weights !! i)) None)) <$> seq 0 thread).

(** [bootstrap], before the threads exist: when the first service cannot be
    launched, the messages to the logger are dispatched and the process exits.
    With fewer than two words an array that was never written is read. *)
Definition bootstrap (logger : ptr) (cmdline : cstring) : program bool :=
  let '(name, rest) := scan_word cmdline in
  match name, (scan_word rest).1 with
  | Some name, Some args =>
      ctx <- skynet_context_new name (Some args) ;;
      match ctx with
      | Some _ => Ret true
      | None =>
          skynet_error None (Some (str "Bootstrap error : " ++ cmdline ++ [10])) ;;
          skynet_context_dispatchall logger ;;
          Ret false
      end
  | _, _ => atom (AAssert false) ;; Ret false
  end.

(** The main thread of [skynet_start] up to [start]; [false] is [exit (1)]. *)
Definition skynet_start_services (logservice : cstring) (logger : option cstring) (boot : cstring)
    : program bool :=
  ctx <- skynet_context_new logservice logger ;;
  match ctx with
  | None => Ret false
  | Some (c, _) => bootstrap c boot
  end.
