(* ===== verification/NodeInv.v ===== *)
(** * The invariant of the node

    What the threads of a node own, and the invariant that ties it to the
    state: reference counts count references, every queue is either scheduled
    once, held by one thread, or idle and empty, a queue outlives its context
    and is freed once, and message blocks have one owner.  [aspec] says what each
    atomic action takes and gives; NodeSound.v and NodeAct.v prove it. *)

From stdpp Require Import prelude list gmap list_numbers strings.
From S2P Require Import Prelude Skynet MQ Handle Timer Module CString Prog Node.

(** ** Resources *)

(** How a thread holds a queue that is not in the global queue. *)
Inductive qstate :=
| QHeld               (* popped from the global queue *)
| QHandle (h : Z)     (* its handle was read *)
| QRun                (* its service was found: messages may be dispatched *)
| QCall               (* inside the callback of the service *)
| QNew                (* created, its service is being launched *)
| QNewH (h : Z)       (* launch failed, its handle was read *)
| QCallNew.           (* inside the init function of the service *)

Inductive res :=
| RRef (c : ptr)              (* a counted reference to a context *)
| RQ (q : ptr) (st : qstate)  (* a queue *)
| RDead (q : ptr)             (* a queue without a service, being dropped *)
| RDel (c : ptr)              (* a context whose last reference is gone *)
| RDying (c : ptr)            (* the same, its queue already marked *)
| RData (d : Z)               (* a message block *)
| RRmsg (d sz : Z)            (* a [struct remote_message], with its [sz] *)
| RMod (m : Z)                (* a loaded module *)
| RCb (c : ptr).              (* the callback of the context is set *)

#[export] Instance qstate_eq_dec : EqDecision qstate.
Proof. solve_decision. Defined.
#[export] Instance res_eq_dec : EqDecision res.
Proof. solve_decision. Defined.

Definition droppable (r : res) : Prop :=
  match r with RData _ | RRmsg _ _ | RMod _ | RCb _ => True | _ => False end.

Fixpoint refcount (c : ptr) (R : list res) : Z :=
  match R with
  | [] => 0
  | RRef c' :: R => (if decide (c' = c) then 1 else 0) + refcount c R
  | _ :: R => refcount c R
  end.

Definition heldq (R : list res) : list ptr :=
  omap (λ r, match r with RQ q _ => Some q | _ => None end) R.
Definition deadq (R : list res) : list ptr :=
  omap (λ r, match r with RDead q => Some q | _ => None end) R.
Definition dels (R : list res) : list ptr :=
  omap (λ r, match r with RDel c | RDying c => Some c | _ => None end) R.
Definition datas (R : list res) : list Z :=
  omap (λ r, match r with RData d | RRmsg d _ => Some d | _ => None end) R.

(** ** The parts of the invariant *)

Definition valid_mod (w : world) (m : Z) : Prop := ∃ md, zget (M_m (w_mods w)) m = Some md ∧ mod_init md ≠ None.

(** Tables that own nothing. *)
Record tables (n : Z) (w : world) : Prop := {
  tb_names : names_sorted (h_name (w_hs w));
  tb_cap : 0 < h_name_cap (w_hs w);
  tb_index : 0 < h_handle_index (w_hs w);
  tb_harbor : w_harbor w ≠ 2 ^ 32 - 1;
  tb_timer : shape (w_timer w);
  tb_mods : modules_ok (w_mods w);
  tb_path : Forall (λ t, ch_question ∈ t) (templates (M_path (w_mods w)));
  tb_monitors : Z.of_nat (length (w_monitors w)) = n
}.

Definition slotn (w : world) (c : ptr) : Z := if decide (Some c ∈ h_slot (w_hs w)) then 1 else 0.
Definition remoten (w : world) (c : ptr) : Z := if decide (w_remote w = Some c) then 1 else 0.

Definition launching (R : list res) (c : ptr) : Prop :=
  RQ c QNew ∈ R ∨ (∃ h, RQ c (QNewH h) ∈ R) ∨ RQ c QCallNew ∈ R.

Record ctx_ok (R : list res) (w : world) (c : ptr) (x : context) : Prop := {
  co_ref : ctx_ref x = slotn w c + remoten w c + refcount c R;
  co_bound : ctx_ref x < 2 ^ 31;
  co_zero : ctx_ref x = 0 ↔ c ∈ dels R;
  co_queue : ctx_queue x = c;
  co_mod : valid_mod w (ctx_mod x);
  co_calling : ctx_calling x = true ↔ RQ c QCall ∈ R ∨ RQ c QCallNew ∈ R;
  co_init : ctx_init x = false → launching R c ∨ Some c ∉ h_slot (w_hs w);
  co_run : RQ c QRun ∈ R ∨ RQ c QCall ∈ R → ctx_init x = true;
  co_mq : RDying c ∉ R →
    ∃ q, mq_heap (w_mq w) !! c = Some q ∧ mq_handle q = ctx_handle x ∧ mq_release q = 0
}.

Record contexts (R : list res) (w : world) : Prop := {
  cx_slots : slots_wf (hof w) (w_hs w);
  cx_slot_live : ∀ c, Some c ∈ h_slot (w_hs w) → is_Some (w_ctx w !! c);
  cx_ctx : ∀ c x, w_ctx w !! c = Some x → ctx_ok R w c x;
  cx_live : ∀ c, RRef c ∈ R ∨ c ∈ dels R ∨ w_remote w = Some c → is_Some (w_ctx w !! c);
  cx_dels : NoDup (dels R);
  cx_mod : ∀ m, RMod m ∈ R → valid_mod w m
}.

Record queue_ok (R : list res) (w : world) (l : list ptr) (p : ptr) (q : message_queue) : Prop := {
  qo_release :
    (mq_release q = 0 ∧ is_Some (w_ctx w !! p) ∧ RDying p ∉ R)
    ∨ (mq_release q = 1 ∧ (w_ctx w !! p = None ∨ RDying p ∈ R));
  qo_sched :
    (p ∈ deadq R ∧ mq_release q = 1)
    ∨ ((p ∉ deadq R) ∧ (mq_in_global q = 1 ∨ mq_release q = 1) ∧ (p ∈ l ∨ p ∈ heldq R))
    ∨ ((p ∉ deadq R) ∧ mq_in_global q = 0 ∧ ¬ (p ∈ l ∨ p ∈ heldq R) ∧ mq_release q = 0);
  qo_handle : ∀ h, RQ p (QHandle h) ∈ R ∨ RQ p (QNewH h) ∈ R → mq_handle q = h;
  qo_range : h_harbor (w_hs w) <= mq_handle q < h_harbor (w_hs w) + h_handle_index (w_hs w)
             ∧ 0 < mq_handle q
}.

Record queues (R : list res) (w : world) (l : list ptr) : Prop := {
  qs_run : run_queue (w_mq w) l;
  qs_nodup : NoDup (l ++ heldq R ++ deadq R);
  qs_live : ∀ p, p ∈ heldq R ++ deadq R → is_Some (mq_heap (w_mq w) !! p);
  qs_ok : ∀ p q, mq_heap (w_mq w) !! p = Some q → queue_ok R w l p q;
  qs_inj : ∀ p p' q q', mq_heap (w_mq w) !! p = Some q → mq_heap (w_mq w) !! p' = Some q' →
    mq_handle q = mq_handle q' → p = p';
  qs_fresh : ∀ p, (w_next w <= p)%positive → w_ctx w !! p = None ∧ mq_heap (w_mq w) !! p = None
}.

(** The payloads in a list of messages, and in all queues. *)
Definition mdata (m : skynet_message) : list Z := if msg_data m =? 0 then [] else [msg_data m].
Definition data_of (m : skynet_message) : list res := RData <$> mdata m.
Definition payloads (l : list skynet_message) : list Z := concat (mdata <$> l).
Definition queued (I : gmap ptr (list skynet_message)) : list Z :=
  concat ((λ kv, payloads kv.2) <$> map_to_list I).

(** [items] are the messages of queue [p]; an idle queue is empty. *)
Definition holds (R : list res) (w : world) (p : ptr) (items : option (list skynet_message)) : Prop :=
  match mq_heap (w_mq w) !! p, items with
  | Some q, Some items => mq_repr q items ∧ Z.of_nat (length items) < 2 ^ 30
                          ∧ (mq_in_global q = 0 → p ∉ deadq R → items = [])
  | None, None => True
  | _, _ => False
  end.

Record messages (R : list res) (w : world) (I : gmap ptr (list skynet_message)) : Prop := {
  ms_repr : ∀ p, holds R w p (I !! p);
  ms_nodup : NoDup (queued I ++ datas R);
  ms_live : ∀ d, d ∈ queued I ++ datas R → d ≠ 0 ∧ is_Some (w_mem w !! d);
  ms_rmsg : ∀ d sz, RRmsg d sz ∈ R → ∃ nm h m, w_mem w !! d = Some (Rmsg nm h m sz);
  ms_fresh : 0 < w_next_data w ∧ ∀ d, w_next_data w <= d → w_mem w !! d = None
}.

Definition node_inv (n : Z) (R : list res) (w : world) : Prop :=
  tables n w ∧ contexts R w ∧ (∃ l, queues R w l) ∧ (∃ I, messages R w I).

(** ** The invariant does not depend on the order of the resources *)

Lemma refcount_perm c R R' : R ≡ₚ R' → refcount c R = refcount c R'.
Proof.
  induction 1 as [|r R R' _ IH|r r' R|R1 R2 R3 _ IH1 _ IH2]; simpl; try done.
  - destruct r; by rewrite ?IH.
  - destruct r, r'; simpl; lia.
  - congruence.
Qed.

Lemma refcount_app c R R' : refcount c (R ++ R') = refcount c R + refcount c R'.
Proof. induction R as [|[] R IH]; simpl; rewrite ?IH; lia. Qed.

Lemma refcount_pos c R : 0 <= refcount c R.
Proof. induction R as [|[] R IH]; simpl; try case_decide; lia. Qed.

Lemma refcount_elem c R : 0 < refcount c R ↔ RRef c ∈ R.
Proof.
  induction R as [|r R IH]; simpl; [split; [lia|set_solver]|]. rewrite elem_of_cons.
  destruct r as [c'| | | | | | | |]; try (rewrite IH; naive_solver).
  pose proof (refcount_pos c R). case_decide; subst; [naive_solver lia|]. rewrite Z.add_0_l, IH.
  naive_solver.
Qed.

#[export] Instance heldq_proper : Proper ((≡ₚ) ==> (≡ₚ)) heldq.
Proof. intros R R' E. unfold heldq. by rewrite E. Qed.
#[export] Instance deadq_proper : Proper ((≡ₚ) ==> (≡ₚ)) deadq.
Proof. intros R R' E. unfold deadq. by rewrite E. Qed.
#[export] Instance dels_proper : Proper ((≡ₚ) ==> (≡ₚ)) dels.
Proof. intros R R' E. unfold dels. by rewrite E. Qed.
#[export] Instance datas_proper : Proper ((≡ₚ) ==> (≡ₚ)) datas.
Proof. intros R R' E. unfold datas. by rewrite E. Qed.

Lemma elem_of_heldq p R : p ∈ heldq R ↔ ∃ st, RQ p st ∈ R.
Proof.
  unfold heldq. rewrite list_elem_of_omap. split.
  - intros ([] & H & Hr); simplify_eq; eauto.
  - intros [st H]. by exists (RQ p st).
Qed.

Lemma elem_of_deadq p R : p ∈ deadq R ↔ RDead p ∈ R.
Proof.
  unfold deadq. rewrite list_elem_of_omap. split.
  - intros ([] & H & Hr); simplify_eq; eauto.
  - intros H. by exists (RDead p).
Qed.

Lemma elem_of_dels c R : c ∈ dels R ↔ RDel c ∈ R ∨ RDying c ∈ R.
Proof.
  unfold dels. rewrite list_elem_of_omap. split.
  - intros ([] & H & Hr); simplify_eq; eauto.
  - intros [H|H]; [by exists (RDel c)|by exists (RDying c)].
Qed.

Lemma elem_of_datas d R : d ∈ datas R ↔ RData d ∈ R ∨ ∃ sz, RRmsg d sz ∈ R.
Proof.
  unfold datas. rewrite list_elem_of_omap. split.
  - intros ([] & H & Hr); simplify_eq; eauto.
  - intros [H|[sz H]]; [by exists (RData d)|by exists (RRmsg d sz)].
Qed.

(** ** Resources about one object *)

Definition about (c : ptr) (r : res) : Prop :=
  match r with
  | RRef c' | RQ c' _ | RDead c' | RDel c' | RDying c' => c' = c
  | RData _ | RRmsg _ _ | RMod _ | RCb _ => False
  end.

#[export] Instance about_dec c r : Decision (about c r).
Proof. destruct r; simpl; apply _. Defined.

Definition view (c : ptr) (R : list res) : list res := filter (about c) R.

Lemma view_elem c R r : about c r → r ∈ view c R ↔ r ∈ R.
Proof. intros H. unfold view. rewrite list_elem_of_filter. tauto. Qed.

Lemma view_refcount c R : refcount c (view c R) = refcount c R.
Proof.
  unfold view. induction R as [|r R IH]; [done|]. rewrite filter_cons. case_decide.
  - destruct r; simpl; rewrite ?IH; done.
  - rewrite IH. destruct r; simpl in *; try done. rewrite decide_False by done. done.
Qed.

(** The views of [R] and [R'] at [c] agree. *)
Definition same_view (c : ptr) (R R' : list res) : Prop := view c R ≡ₚ view c R'.

#[export] Instance same_view_equiv c : Equivalence (same_view c).
Proof.
  unfold same_view. split; [by intros R|by intros R R'|]. intros R1 R2 R3 H1 H2. by etrans.
Qed.

Lemma same_view_elem c R R' r : same_view c R R' → about c r → r ∈ R ↔ r ∈ R'.
Proof.
  unfold same_view. intros H Ha. rewrite <- (view_elem c R r Ha), <- (view_elem c R' r Ha). by rewrite H.
Qed.

Lemma same_view_refcount c R R' : same_view c R R' → refcount c R = refcount c R'.
Proof. intros H. rewrite <- (view_refcount c R), <- (view_refcount c R'). by apply refcount_perm. Qed.

Lemma same_view_perm c R R' : R ≡ₚ R' → same_view c R R'.
Proof. intros H. unfold same_view, view. by rewrite H. Qed.

Lemma same_view_other c C C' F :
  Forall (λ r, ¬ about c r) C → Forall (λ r, ¬ about c r) C' → same_view c (C ++ F) (C' ++ F).
Proof.
  intros H H'. unfold same_view, view. rewrite !filter_app.
  assert (∀ D, Forall (λ r, ¬ about c r) D → filter (about c) D = []) as Hn.
  { induction 1; [done|]. by rewrite filter_cons_False. }
  by rewrite (Hn C), (Hn C').
Qed.

Lemma same_view_heldq c R R' : same_view c R R' → c ∈ heldq R ↔ c ∈ heldq R'.
Proof.
  intros H. rewrite !elem_of_heldq. f_equiv. intros st. by apply (same_view_elem c).
Qed.

Lemma same_view_deadq c R R' : same_view c R R' → c ∈ deadq R ↔ c ∈ deadq R'.
Proof. intros H. rewrite !elem_of_deadq. by apply (same_view_elem c). Qed.

Lemma same_view_dels c R R' : same_view c R R' → c ∈ dels R ↔ c ∈ dels R'.
Proof. intros H. rewrite !elem_of_dels. f_equiv; by apply (same_view_elem c). Qed.

(** What [ctx_ok] reads besides the resources about [c]. *)
Record same_ctx_env (w w' : world) (c : ptr) : Prop := {
  se_slot : Some c ∈ h_slot (w_hs w) ↔ Some c ∈ h_slot (w_hs w');
  se_remote : w_remote w = Some c ↔ w_remote w' = Some c;
  se_mods : ∀ m, valid_mod w m → valid_mod w' m;
  se_queue : ∀ q, mq_heap (w_mq w) !! c = Some q → mq_release q = 0 →
    ∃ q', mq_heap (w_mq w') !! c = Some q' ∧ mq_handle q' = mq_handle q ∧ mq_release q' = 0
}.

Lemma slotn_iff w w' c :
  (Some c ∈ h_slot (w_hs w) ↔ Some c ∈ h_slot (w_hs w')) → slotn w c = slotn w' c.
Proof. intros H. unfold slotn. repeat case_decide; tauto. Qed.

Lemma remoten_iff w w' c : (w_remote w = Some c ↔ w_remote w' = Some c) → remoten w c = remoten w' c.
Proof. intros H. unfold remoten. repeat case_decide; tauto. Qed.

Lemma ctx_ok_view R R' w w' c x :
  same_view c R R' → same_ctx_env w w' c → ctx_ok R w c x → ctx_ok R' w' c x.
Proof.
  intros Hv [Hs Hr Hm Hq] []. assert (Hst : ∀ st, RQ c st ∈ R ↔ RQ c st ∈ R')
    by (intros; by apply (same_view_elem c)).
  split.
  - by rewrite <- (slotn_iff w w' c Hs), <- (remoten_iff w w' c Hr), <- (same_view_refcount c R R').
  - done.
  - by rewrite <- (same_view_dels c R R').
  - done.
  - auto.
  - by rewrite <- !Hst.
  - intros Hi. destruct (co_init0 Hi) as [Hl|Hl]; [left|right; by rewrite <- Hs].
    unfold launching in *. rewrite <- !Hst. destruct Hl as [?|[[h Hh]|?]]; auto.
    right; left. exists h. by rewrite <- Hst.
  - by rewrite <- !Hst.
  - intros Hd. destruct co_mq0 as (q & Hq1 & Hq2 & Hq3).
    { by rewrite (same_view_elem c R R'). }
    destruct (Hq q Hq1 Hq3) as (q' & ? & ? & ?). exists q'. split_and!; congruence.
Qed.

(** What [queue_ok] reads. *)
Record same_queue_env (w w' : world) (l l' : list ptr) (p : ptr) (q q' : message_queue) : Prop := {
  sq_ctx : is_Some (w_ctx w !! p) ↔ is_Some (w_ctx w' !! p);
  sq_run : p ∈ l ↔ p ∈ l';
  sq_handle : mq_handle q' = mq_handle q;
  sq_release : mq_release q' = mq_release q;
  sq_global : mq_in_global q' = mq_in_global q;
  sq_harbor : h_harbor (w_hs w') = h_harbor (w_hs w);
  sq_index : h_handle_index (w_hs w) <= h_handle_index (w_hs w')
}.

(** What [queue_ok] reads of the resources. *)
Record same_qview (p : ptr) (R R' : list res) : Prop := {
  sv_dying : RDying p ∈ R ↔ RDying p ∈ R';
  sv_held : p ∈ heldq R ↔ p ∈ heldq R';
  sv_dead : p ∈ deadq R ↔ p ∈ deadq R';
  sv_handle : ∀ h, RQ p (QHandle h) ∈ R' ∨ RQ p (QNewH h) ∈ R' →
    RQ p (QHandle h) ∈ R ∨ RQ p (QNewH h) ∈ R
}.

Lemma same_view_qview p R R' : same_view p R R' → same_qview p R R'.
Proof.
  intros Hv. split.
  - by apply (same_view_elem p).
  - by apply same_view_heldq.
  - by apply same_view_deadq.
  - intros h. rewrite !(same_view_elem p R R') by done. done.
Qed.

Lemma queue_ok_view R R' w w' l l' p q q' :
  same_qview p R R' → same_queue_env w w' l l' p q q' →
  queue_ok R w l p q → queue_ok R' w' l' p q'.
Proof.
  intros [Hdy Hhq Hdq Hst] [Hc Hl Hh Hr Hg Hb Hi] []. split.
  - rewrite Hr, <- Hdy, <- Hc. destruct qo_release0 as [?|[? [Hn|?]]]; [tauto| |tauto].
    right. split; [done|]. left. apply eq_None_not_Some. intros Hs%Hc. rewrite Hn in Hs. by destruct Hs.
  - by rewrite Hr, Hg, <- Hl, <- Hhq, <- Hdq.
  - intros h H%Hst. rewrite Hh. auto.
  - rewrite Hh, Hb. lia.
Qed.

(** ** Transferring the parts of the invariant *)

(** The queues changed only in fields the contexts do not read. *)
Definition queues_kept (w w' : world) : Prop :=
  ∀ c q, mq_heap (w_mq w) !! c = Some q → mq_release q = 0 →
    ∃ q', mq_heap (w_mq w') !! c = Some q' ∧ mq_handle q' = mq_handle q ∧ mq_release q' = 0.

Lemma queues_kept_refl w w' : w_mq w' = w_mq w → queues_kept w w'.
Proof. intros E c q Hq Hr. rewrite E. eauto. Qed.

Lemma hof_eq w w' c : w_ctx w' !! c = w_ctx w !! c → hof w' c = hof w c.
Proof. unfold hof. by intros ->. Qed.

Lemma slots_wf_ext f g s :
  (∀ c, Some c ∈ h_slot s → f c = g c) → slots_wf f s → slots_wf g s.
Proof.
  intros E []. split; auto. intros i c Hi. rewrite <- E; [auto|by eapply list_elem_of_lookup_2].
Qed.

Record same_slots (s s' : handle_storage) : Prop := {
  ss_slot : h_slot s' = h_slot s;
  ss_size : h_slot_size s' = h_slot_size s;
  ss_harbor : h_harbor s' = h_harbor s;
  ss_index : h_handle_index s' = h_handle_index s
}.

Lemma same_slots_refl s s' : s' = s → same_slots s s'.
Proof. by intros ->. Qed.

Lemma same_slots_wf f s s' : same_slots s s' → slots_wf f s → slots_wf f s'.
Proof. intros [E1 E2 E3 E4] []. split; rewrite ?E1, ?E2, ?E3, ?E4; auto. Qed.

Lemma contexts_frame R R' w w' :
  contexts R w → (∀ c, same_view c R R') → dels R' ≡ₚ dels R →
  w_ctx w' = w_ctx w → same_slots (w_hs w) (w_hs w') → w_remote w' = w_remote w → queues_kept w w' →
  (∀ m, valid_mod w m → valid_mod w' m) →
  (∀ m, RMod m ∈ R' → RMod m ∈ R ∨ valid_mod w' m) → contexts R' w'.
Proof.
  intros [] Hv Hd Hc Hh Hr Hq Hm Hm'. split.
  - eapply slots_wf_ext; [|by eapply same_slots_wf]. intros c _. symmetry. apply hof_eq. by rewrite Hc.
  - rewrite (ss_slot _ _ Hh), Hc. done.
  - intros c x. rewrite Hc. intros Hx. eapply ctx_ok_view; [apply Hv| |by apply cx_ctx0].
    split; rewrite ?(ss_slot _ _ Hh), ?Hr; auto.
  - intros c H. rewrite Hc. apply cx_live0. rewrite Hr in H.
    rewrite (same_view_elem c R R' (RRef c)), (same_view_dels c R R') by done. done.
  - by rewrite Hd.
  - intros m H. destruct (Hm' m H); auto.
Qed.

Definition same_dom (w w' : world) : Prop :=
  ∀ p, is_Some (w_ctx w !! p) ↔ is_Some (w_ctx w' !! p).

Lemma same_dom_refl w w' : w_ctx w' = w_ctx w → same_dom w w'.
Proof. intros E p. by rewrite E. Qed.

Lemma same_dom_insert w w' c x x' :
  w_ctx w !! c = Some x → w_ctx w' = <[c := x']> (w_ctx w) → same_dom w w'.
Proof. intros Hx E p. rewrite E, lookup_insert_is_Some'. naive_solver. Qed.

Lemma queues_frame R R' w w' l :
  queues R w l → (∀ p, same_qview p R R') → heldq R' ++ deadq R' ≡ₚ heldq R ++ deadq R →
  same_dom w w' → w_mq w' = w_mq w → w_next w' = w_next w →
  h_harbor (w_hs w') = h_harbor (w_hs w) → h_handle_index (w_hs w') = h_handle_index (w_hs w) →
  queues R' w' l.
Proof.
  intros [] Hv Hd Hc Hm Hn Hh Hi. split; rewrite ?Hm, ?Hn; auto.
  - by rewrite Hd.
  - intros p Hp. apply qs_live0. by rewrite <- Hd.
  - intros p q Hq. eapply queue_ok_view; [apply Hv| |by apply qs_ok0].
    split; rewrite ?Hh, ?Hi; auto with lia.
  - intros p Hp. destruct (qs_fresh0 p Hp) as [H1 H2]. split; [|done].
    apply eq_None_not_Some. rewrite <- (Hc p), H1. apply is_Some_None.
Qed.

Lemma messages_frame R R' w w' I :
  messages R w I → deadq R' ≡ₚ deadq R → datas R' ≡ₚ datas R →
  (∀ d sz, RRmsg d sz ∈ R' → RRmsg d sz ∈ R) →
  w_mq w' = w_mq w → w_mem w' = w_mem w → w_next_data w' = w_next_data w → messages R' w' I.
Proof.
  intros [] Hd Hdt Hrm Hm He Hn. split; rewrite ?Hm, ?He, ?Hn, ?Hdt; auto.
  - intros p. specialize (ms_repr0 p). unfold holds in *. rewrite Hm. repeat case_match; auto.
    destruct ms_repr0 as (? & ? & ?). split_and!; auto. by rewrite Hd.
  - intros d. rewrite Hdt. auto.
Qed.

Lemma node_inv_perm n R R' w : R ≡ₚ R' → node_inv n R w → node_inv n R' w.
Proof.
  intros E (Ht & Hc & [l Hq] & [I Hm]). split_and!; [done| |exists l|exists I].
  - eapply contexts_frame; eauto using same_view_perm, queues_kept_refl, same_slots_refl; [by rewrite E|].
    intros m. rewrite E. auto.
  - eapply queues_frame; eauto using same_dom_refl, same_view_qview, same_view_perm. by rewrite E.
  - eapply messages_frame; eauto; intros; by rewrite E.
Qed.

Lemma droppable_views G R :
  Forall droppable G →
  (∀ c, same_view c (G ++ R) R) ∧ dels (G ++ R) = dels R ∧ heldq (G ++ R) = heldq R
  ∧ deadq (G ++ R) = deadq R ∧ datas R `suffix_of` datas (G ++ R).
Proof.
  induction 1 as [|r G Hr HG (IH1 & IH2 & IH3 & IH4 & IH5)]; [by split_and!|].
  split_and!.
  - intros c. etrans; [|apply IH1]. apply (same_view_other c [r] []); [|done].
    apply Forall_singleton. destruct r; simpl in *; tauto.
  - by destruct r.
  - by destruct r.
  - by destruct r.
  - destruct r; simpl; auto; by apply suffix_cons_r.
Qed.

Lemma node_inv_drop n G R w : Forall droppable G → node_inv n (G ++ R) w → node_inv n R w.
Proof.
  intros HG (Ht & Hc & [l Hq] & [I Hm]).
  destruct (droppable_views G R HG) as (Hv & Hd & Hh & Hdq & Hdt).
  split_and!; [done| |exists l|exists I].
  - eapply contexts_frame; eauto using queues_kept_refl, same_slots_refl; [by rewrite Hd|].
    intros m. rewrite elem_of_app. auto.
  - eapply queues_frame; eauto using same_dom_refl, same_view_qview. by rewrite Hh, Hdq.
  - destruct Hm. split; auto.
    + intros p. specialize (ms_repr0 p). unfold holds in *. by rewrite Hdq in ms_repr0.
    + destruct Hdt as [k Hk]. rewrite Hk in ms_nodup0.
      apply NoDup_app in ms_nodup0 as (H1 & H2 & H3). apply NoDup_app. split_and!; auto.
      * intros d Hd1 Hd2. apply (H2 d Hd1). set_solver.
      * by apply NoDup_app in H3 as (_ & _ & ?).
    + intros d Hin. apply ms_live0. destruct Hdt as [k Hk]. rewrite Hk. set_solver.
    + intros d sz Hin. apply ms_rmsg0. set_solver.
Qed.

(** A change at one context [c]. *)
Lemma contexts_change c R R' w w' :
  contexts R w →
  (∀ c', c' ≠ c → w_ctx w' !! c' = w_ctx w !! c' ∧ same_view c' R R' ∧ same_ctx_env w w' c') →
  slots_wf (hof w') (w_hs w') →
  (Some c ∈ h_slot (w_hs w') ∨ RRef c ∈ R' ∨ c ∈ dels R' ∨ w_remote w' = Some c →
   is_Some (w_ctx w' !! c)) →
  (∀ x, w_ctx w' !! c = Some x → ctx_ok R' w' c x) → NoDup (dels R') →
  (∀ m, valid_mod w m → valid_mod w' m) →
  (∀ m, RMod m ∈ R' → RMod m ∈ R ∨ valid_mod w m) → contexts R' w'.
Proof.
  intros [] Ho Hs Hlive Hok Hd Hm Hm'. split; auto.
  - intros c' Hin. destruct (decide (c' = c)) as [->|Hne]; [auto|].
    destruct (Ho c' Hne) as (-> & _ & [Hsl _ _ _]). apply cx_slot_live0. by rewrite Hsl.
  - intros c' x Hx. destruct (decide (c' = c)) as [->|Hne]; [auto|].
    destruct (Ho c' Hne) as (E & Hv & He). rewrite E in Hx. eapply ctx_ok_view; eauto.
  - intros c' H. destruct (decide (c' = c)) as [->|Hne]; [auto|].
    destruct (Ho c' Hne) as (-> & Hv & [_ Hr _ _]). apply cx_live0.
    rewrite (same_view_elem c' R R' (RRef c')), (same_view_dels c' R R'), Hr by done. done.
  - intros m H. destruct (Hm' m H); auto.
Qed.

(** ** Changes of the queues *)

(** Resources whose presence matters to a context. *)
Record same_cview (R R' : list res) : Prop := {
  cv_ref : ∀ c, refcount c R' = refcount c R;
  cv_dels : dels R' ≡ₚ dels R;
  cv_dying : ∀ c, RDying c ∈ R' ↔ RDying c ∈ R;
  cv_call : ∀ c, (RQ c QCall ∈ R' ∨ RQ c QCallNew ∈ R') ↔ (RQ c QCall ∈ R ∨ RQ c QCallNew ∈ R);
  cv_launch : ∀ c, launching R c → launching R' c;
  cv_run : ∀ c, RQ c QRun ∈ R' ∨ RQ c QCall ∈ R' → RQ c QRun ∈ R ∨ RQ c QCall ∈ R;
  cv_mod : ∀ m, RMod m ∈ R' → RMod m ∈ R
}.

Lemma contexts_queues R R' w w' :
  contexts R w → same_cview R R' → w_ctx w' = w_ctx w → w_hs w' = w_hs w →
  w_remote w' = w_remote w → w_mods w' = w_mods w → queues_kept w w' → contexts R' w'.
Proof.
  intros [] [Href Hd Hdy Hcall Hl Hrun Hmod] Hc Hh Hr Hm Hq. split.
  - rewrite Hh. eapply slots_wf_ext; [|done]. intros c _. symmetry. apply hof_eq. by rewrite Hc.
  - rewrite Hh, Hc. done.
  - intros c x. rewrite Hc. intros Hx. destruct (cx_ctx0 c x Hx). split; auto.
    + unfold slotn, remoten. rewrite Hh, Hr, Href. done.
    + by rewrite Hd.
    + unfold valid_mod. by rewrite Hm.
    + by rewrite Hcall.
    + rewrite Hh. intros Hi. destruct (co_init0 Hi); auto.
    + intros Hdn. destruct co_mq0 as (q & H1 & H2 & H3); [by rewrite <- Hdy|].
      destruct (Hq c q H1 H3) as (q' & ? & ? & ?). exists q'. split_and!; congruence.
  - intros c H. rewrite Hc. apply cx_live0. rewrite Hr, Hd in H.
    rewrite <- (refcount_elem c R') in H. rewrite Href, refcount_elem in H. done.
  - by rewrite Hd.
  - intros m H. unfold valid_mod. rewrite Hm. apply cx_mod0. auto.
Qed.

Lemma queues_change p R R' w w' l l' :
  queues R w l → run_queue (w_mq w') l' → NoDup (l' ++ heldq R' ++ deadq R') →
  (∀ p', p' ≠ p → same_qview p' R R' ∧ (p' ∈ l ↔ p' ∈ l')
     ∧ queues_of (w_mq w') !! p' = queues_of (w_mq w) !! p') →
  (p ∈ heldq R' ++ deadq R' → is_Some (mq_heap (w_mq w') !! p)) →
  (∀ q', mq_heap (w_mq w') !! p = Some q' →
     queue_ok R' w' l' p q' ∧ ∃ q, mq_heap (w_mq w) !! p = Some q ∧ mq_handle q' = mq_handle q) →
  (∀ p', p' ≠ p → is_Some (w_ctx w !! p') ↔ is_Some (w_ctx w' !! p')) →
  (is_Some (w_ctx w' !! p) → is_Some (w_ctx w !! p)) →
  w_next w' = w_next w → w_hs w' = w_hs w → queues R' w' l'.
Proof.
  intros [] Hrun Hnd Ho Hlive Hp Hdom Hdomp Hn Hh.
  assert (Hoq : ∀ p' q', p' ≠ p → mq_heap (w_mq w') !! p' = Some q' →
    ∃ q, mq_heap (w_mq w) !! p' = Some q ∧ unlink q' = unlink q).
  { intros p' q' Hne Hq'. destruct (Ho p' Hne) as (_ & _ & E).
    rewrite (queues_of_lookup _ _ _ Hq') in E. symmetry in E.
    by apply queues_of_inv in E as (q & ? & ?); exists q. }
  assert (Hback : ∀ p' q', mq_heap (w_mq w') !! p' = Some q' →
    ∃ q, mq_heap (w_mq w) !! p' = Some q ∧ mq_handle q' = mq_handle q).
  { intros p' q' Hq'. destruct (decide (p' = p)) as [->|Hne]; [by apply Hp|].
    destruct (Hoq p' q' Hne Hq') as (q & Hq & E). exists q. split; [done|].
    by apply (f_equal mq_handle) in E. }
  split; auto.
  - intros p' Hin. destruct (decide (p' = p)) as [->|Hne]; [auto|].
    destruct (Ho p' Hne) as ([_ H1 H2 _] & _ & E).
    rewrite elem_of_app, <- H1, <- H2, <- elem_of_app in Hin. destruct (qs_live0 p' Hin) as [q Hq].
    rewrite (queues_of_lookup _ _ _ Hq) in E. by apply queues_of_inv in E as (q' & ? & ?); exists q'.
  - intros p' q' Hq'. destruct (decide (p' = p)) as [->|Hne]; [by apply Hp|].
    destruct (Hoq p' q' Hne Hq') as (q & Hq & E). destruct (Ho p' Hne) as (Hv & Hl & _).
    eapply (queue_ok_view R R' w w' l l' p' q q'); [done| |by apply qs_ok0].
    split; rewrite ?Hh; auto; try lia; [by apply (f_equal mq_handle) in E|
      by apply (f_equal mq_release) in E|by apply (f_equal mq_in_global) in E].
  - intros p1 p2 q1 q2 H1 H2 E. destruct (Hback p1 q1 H1) as (q1' & H1' & E1).
    destruct (Hback p2 q2 H2) as (q2' & H2' & E2). apply (qs_inj0 p1 p2 q1' q2'); auto. congruence.
  - rewrite Hn. intros p' Hp'. destruct (qs_fresh0 p' Hp') as [H1 H2]. split.
    + apply eq_None_not_Some. intros Hs. assert (is_Some (w_ctx w !! p')) as [x Hx]; [|congruence].
      destruct (decide (p' = p)) as [->|Hne]; [auto|by apply Hdom].
    + destruct (mq_heap (w_mq w') !! p') as [q'|] eqn:E; [|done].
      destruct (Hback p' q' E) as (q & Hq & _). congruence.
Qed.

Lemma queued_insert (I : gmap ptr (list skynet_message)) p items :
  I !! p = Some items →
  ∃ rest, queued I ≡ₚ payloads items ++ rest ∧ queued (delete p I) ≡ₚ rest
    ∧ ∀ items', queued (<[p := items']> I) ≡ₚ payloads items' ++ rest.
Proof.
  intros Hp. exists (queued (delete p I)). unfold queued. split_and!; [|done|].
  - rewrite <- (insert_id I p items Hp) at 1. rewrite <- insert_delete_eq.
    rewrite map_to_list_insert by apply lookup_delete_eq. done.
  - intros items'. rewrite <- insert_delete_eq.
    rewrite map_to_list_insert by apply lookup_delete_eq. done.
Qed.

Lemma queued_fresh (I : gmap ptr (list skynet_message)) p :
  I !! p = None → queued (<[p := []]> I) ≡ₚ queued I.
Proof. intros Hp. unfold queued. by rewrite map_to_list_insert. Qed.

Lemma payloads_snoc items m : payloads (items ++ [m]) = payloads items ++ mdata m.
Proof. unfold payloads. rewrite fmap_app, concat_app. simpl. by rewrite app_nil_r. Qed.

Lemma datas_app R R' : datas (R ++ R') = datas R ++ datas R'.
Proof. apply omap_app. Qed.

Lemma datas_data_of m : datas (data_of m) = mdata m.
Proof. unfold data_of, mdata. by case_if. Qed.

Lemma messages_change p R R' w w' I I' :
  messages R w I →
  (∀ p', p' ≠ p → (p' ∈ deadq R ↔ p' ∈ deadq R')
     ∧ queues_of (w_mq w') !! p' = queues_of (w_mq w) !! p' ∧ I' !! p' = I !! p') →
  holds R' w' p (I' !! p) →
  queued I' ++ datas R' ⊆+ queued I ++ datas R → w_mem w' = w_mem w →
  w_next_data w' = w_next_data w → (∀ d sz, RRmsg d sz ∈ R' → RRmsg d sz ∈ R) → messages R' w' I'.
Proof.
  intros [] Ho Hp Hs Hm Hn Hr. split; rewrite ?Hm, ?Hn; auto.
  - intros p'. destruct (decide (p' = p)) as [->|Hne]; [done|].
    destruct (Ho p' Hne) as (Hd & Hq & ->). specialize (ms_repr0 p'). unfold holds in *.
    unfold queues_of in Hq. rewrite !lookup_fmap in Hq.
    destruct (mq_heap (w_mq w') !! p') as [q'|], (mq_heap (w_mq w) !! p') as [q|]; try done.
    destruct (I !! p'); [|done]. apply (inj Some) in Hq. destruct ms_repr0 as (H1 & H2 & H3).
    pose proof (f_equal mq_in_global Hq) as E. simpl in E. rewrite E, <- Hd. split_and!; auto.
    apply mq_repr_unlink. rewrite Hq. by apply mq_repr_unlink.
  - by eapply NoDup_sub.
  - intros d Hd. apply ms_live0. eapply elem_of_submseteq; eauto.
Qed.

(** Routine facts about explicit lists of resources. *)
Ltac res_side :=
  simpl in *; rewrite ?decide_True by done;
  first [done | lia | by (repeat constructor) | set_solver | idtac].

Ltac not_about :=
  repeat first [apply Forall_nil_2 | apply Forall_cons_2; [simpl; first [tauto | congruence]|]].

(** ** Specifications of the actions *)

(** The schedules considered: the node stays below the limits of its counters
    (2^24 handles ever allocated, 2^31 references, 2^30 messages in a queue,
    2^29 names), buffers passed to a copying send are valid, an environment
    variable is set once, and nothing is sent to another node before the
    harbor service is up. *)
Definition ok (X : Type) (a : act X) (w : world) : Prop :=
  match a with
  | AGrab _ | AInc _ => ∀ c x, w_ctx w !! c = Some x → ctx_ref x + 1 < 2 ^ 31
  | APublish _ _ => h_handle_index (w_hs w) + 2 * h_slot_size (w_hs w) < 2 ^ 24
  | ANameHandle _ _ => h_name_cap (w_hs w) <= 2 ^ 29
  | APush c _ => ∀ q, mq_heap (w_mq w) !! c = Some q → skynet_mq_length q + 1 < 2 ^ 30
  | AHarborSend _ _ _ _ => ∃ c, w_remote w = Some c ∧
      ∀ q, mq_heap (w_mq w) !! c = Some q → skynet_mq_length q + 1 < 2 ^ 30
  | ASetRemote _ => w_remote w = None
  | ASetenv k _ => w_env w !! k = None
  | ARead d sz => ∃ l, w_mem w !! d = Some (Bytes l) ∧ 0 <= sz <= Z.of_nat (length l)
  | _ => True
  end.

Definition ref_of (r : option ptr) : list res := match r with Some c => [RRef c] | None => [] end.
Definition queue_of (r : option ptr) : list res := match r with Some q => [RQ q QHeld] | None => [] end.

(** A resource that keeps the context [c] allocated. *)
Definition keeps (c : ptr) (r : res) : Prop := r = RRef c ∨ r = RDel c.

(** Actions that read or write only tables nobody owns. *)
Definition plain (n : Z) (X : Type) (a : act X) : Prop :=
  match a with
  | AFindName _ | ANameHandle _ _ | AContextDec | ATotal | AMonitorExit | ASetMonitorExit _
  | ALogger | ASetLogger _ | AGetenv _ | ASetenv _ _ | AFopen _ | AQuit | ASetQuit | ASig | AStarttime
  | AClock | APoint | ASetPoint _ | AAddCurrent _ | ATimerAdd _ _ | ATimerFirst | ATimerTake => True
  | AAssert b => b = true
  | ASlotHandle i => 0 <= i
  | ATrigger i _ _ | ACheck i => 0 <= i < n
  | _ => False
  end.

(** Actions on fields of a context that the invariant does not mention. *)
Definition local_ctx (c : ptr) (X : Type) (a : act X) : Prop :=
  match a with
  | ASetCb c' cb => c' = c ∧ cb ≠ None
  | AHandle c' | ANewSession c' | ACb c' | AInit c' | AEndless c' | ASetEndless c' _
  | ALogfile c' | ACasLogfile c' _ _ => c' = c
  | _ => False
  end.

Inductive aspec (n : Z) : ∀ X, act X → list res → (X → list res → Prop) → Prop :=
| sp_plain X (a : act X) : plain n X a → aspec n X a [] (λ _ Rs, Rs = [])
| sp_local c r X (a : act X) : keeps c r → local_ctx c X a → aspec n X a [r] (λ _ Rs, Rs = [r])
| sp_grab h : aspec n _ (AGrab h) [] (λ r Rs, Rs = ref_of r)
| sp_grab_run q h : aspec n _ (AGrab h) [RQ q (QHandle h)]
    (λ r Rs, match r with
             | Some c => c = q ∧ Rs = [RRef q; RQ q QRun]
             | None => Rs = [RQ q QHeld]
             end)
| sp_retire h : aspec n _ (ARetire h) [] (λ r Rs, Rs = ref_of r)
| sp_retire_new q h : aspec n _ (ARetire h) [RQ q (QNewH h)] (λ r Rs, Rs = RQ q QHeld :: ref_of r)
| sp_publish m inst : aspec n _ (APublish m inst) [RMod m]
    (λ r Rs, r.2 = r.1 ∧ Rs = [RRef r.1; RQ r.1 QNew; RMod m])
| sp_launched c : aspec n _ (ALaunched c) [RRef c; RQ c QNew]
    (λ r Rs, Rs = match r with Some _ => [RQ c QHeld] | None => [RDel c; RQ c QHeld] end)
| sp_inc c : aspec n _ (AInc c) [RRef c] (λ _ Rs, Rs = [RRef c; RRef c])
| sp_dec c : aspec n _ (ADec c) [RRef c] (λ r Rs, Rs = if r =? 0 then [RDel c] else [])
| sp_free_context c : aspec n _ (AFreeContext c) [RDying c] (λ _ Rs, Rs = [])
| sp_handle_new c : aspec n _ (AHandle c) [RRef c; RQ c QNew] 
    (λ h Rs, 0 < h ∧ Rs = [RRef c; RQ c (QNewH h)])
| sp_module c r : keeps c r → aspec n _ (AModule c) [r] (λ m Rs, Rs = [r; RMod m.1])
| sp_init c : aspec n _ (AInit c) [RRef c; RQ c QRun] (λ b Rs, b = true ∧ Rs = [RRef c; RQ c QRun])
| sp_begin c : aspec n _ (ACallingBegin c) [RRef c; RQ c QRun] (λ _ Rs, Rs = [RRef c; RQ c QCall])
| sp_end c : aspec n _ (ACallingEnd c) [RRef c; RQ c QCall] (λ _ Rs, Rs = [RRef c; RQ c QRun])
| sp_begin_new c :
    aspec n _ (ACallingBegin c) [RRef c; RQ c QNew] (λ _ Rs, Rs = [RRef c; RQ c QCallNew])
| sp_end_new c : aspec n _ (ACallingEnd c) [RRef c; RQ c QCallNew] (λ _ Rs, Rs = [RRef c; RQ c QNew])
| sp_push c m : aspec n _ (APush c m) (RRef c :: data_of m) (λ _ Rs, Rs = [RRef c])
| sp_queue_length c : aspec n _ (AQueueLength c) [RRef c] (λ _ Rs, Rs = [RRef c])
| sp_queue_of c : aspec n _ (AQueueOf c) [RRef c] (λ q Rs, q = c ∧ Rs = [RRef c])
| sp_mark c : aspec n _ (AMarkRelease c) [RDel c] (λ _ Rs, Rs = [RDying c])
| sp_qhandle q : aspec n _ (AQHandle q) [RQ q QHeld] (λ h Rs, 0 < h ∧ Rs = [RQ q (QHandle h)])
| sp_pop q : aspec n _ (APop q) [RRef q; RQ q QRun]
    (λ r Rs, Rs = RRef q :: match r with Some m => RQ q QRun :: data_of m | None => [] end)
| sp_pop_dead q : aspec n _ (APop q) [RDead q]
    (λ r Rs, Rs = match r with Some m => RDead q :: data_of m | None => [RDead q] end)
| sp_length q : aspec n _ (ALength q) [RQ q QRun] (λ _ Rs, Rs = [RQ q QRun])
| sp_overload q : aspec n _ (AOverload q) [RQ q QRun] (λ _ Rs, Rs = [RQ q QRun])
| sp_release_test q : aspec n _ (AReleaseTest q) [RQ q QHeld]
    (λ b Rs, Rs = if b : bool then [RDead q] else [])
| sp_free_queue q : aspec n _ (AFreeQueue q) [RDead q] (λ _ Rs, Rs = [])
| sp_gpush q st : st = QHeld ∨ st = QRun → aspec n _ (AGlobalPush q) [RQ q st] (λ _ Rs, Rs = [])
| sp_gpop : aspec n _ AGlobalPop [] (λ r Rs, Rs = queue_of r)
| sp_gpop_run q : aspec n _ AGlobalPop [RQ q QRun] (λ r Rs, Rs = RQ q QHeld :: queue_of r)
| sp_alloc l : aspec n _ (AAlloc (Bytes l)) [] (λ d Rs, d ≠ 0 ∧ Rs = [RData d])
| sp_alloc_rmsg nm h m sz : aspec n _ (AAlloc (Rmsg nm h m sz)) [] (λ d Rs, Rs = [RRmsg d sz])
| sp_free d : aspec n _ (AFree d) (if d =? 0 then [] else [RData d]) (λ _ Rs, Rs = [])
| sp_read d sz : aspec n _ (ARead d sz) [RData d] (λ _ Rs, Rs = [RData d])
| sp_rmsg_type d sz : aspec n _ (ARmsgType d) [RRmsg d sz]
    (λ t Rs, t = Z.shiftr sz MESSAGE_TYPE_SHIFT ∧ Rs = [RRmsg d (Z.land sz MESSAGE_TYPE_MASK)])
| sp_harbor : aspec n _ AHarbor [] (λ x Rs, x ≠ 2 ^ 32 - 1 ∧ Rs = [])
| sp_harbor_send d sz source type session :
    aspec n _ (AHarborSend d source type session) [RRmsg d sz] (λ _ Rs, Rs = [])
| sp_set_remote c : aspec n _ (ASetRemote c) [RRef c] (λ _ Rs, Rs = [])
| sp_clear_remote : aspec n _ AClearRemote [] (λ r Rs, Rs = ref_of r)
| sp_module_query name : aspec n _ (AModuleQuery name) []
    (λ r Rs, Rs = match r with Some m => [RMod m] | None => [] end)
| sp_module_of i : aspec n _ (AModuleOf i) [RMod i] (λ m Rs, mod_init m ≠ None ∧ Rs = [RMod i]).
