(* ===== verification/NodeSound.v ===== *)
(** * Soundness of the actions

    Every atomic action, used as its specification in NodeInv.v says, neither
    fails nor breaks the invariant of the node: actions on the tables, on
    reference counts and on queues.  NodeAct.v has the rest. *)

From stdpp Require Import prelude list gmap list_numbers strings.
From S2P Require Import Prelude MQ Handle Timer Module CString Prog Node NodeInv.

Section sound.
Context (dlopen : cstring → option Z) (dlsym : Z → cstring → option Z) (n : Z).

Abbreviation step a w := (astep dlopen dlsym _ a w).

(** ** Tables *)

Lemma inv_tables R w w' :
  node_inv n R w → tables n w' →
  w_mq w' = w_mq w → w_ctx w' = w_ctx w → w_mem w' = w_mem w → w_next w' = w_next w →
  w_next_data w' = w_next_data w → w_remote w' = w_remote w → same_slots (w_hs w) (w_hs w') →
  (∀ m, valid_mod w m → valid_mod w' m) → node_inv n R w'.
Proof.
  intros (_ & Hc & [l Hq] & [I Hm]) Ht E1 E2 E3 E4 E5 E6 Hs Hv.
  split_and!; [done| |exists l|exists I].
  - by eapply contexts_frame; eauto using queues_kept_refl.
  - destruct Hs. eapply queues_frame; eauto using same_dom_refl. intros p. by apply same_view_qview.
  - by eapply messages_frame; eauto.
Qed.

Lemma timer_take_shape T : shape T → ∃ evs T', timer_take T = Some (evs, T') ∧ shape T'.
Proof.
  intros HT. unfold timer_take. change TIME_NEAR_MASK with (2 ^ 8 - 1). rewrite land_ones_mod by done.
  assert (Hv : valid_loc (Near (T_time T mod 2 ^ 8))) by (apply Z.mod_pos_bound; lia).
  destruct (bucket_spec T _ HT Hv) as (l & Hl & rest & _ & Hset).
  destruct (Hset []) as (T' & H & _ & Hs & _). pose proof Hl as Hl'. cbn [bucket] in Hl'. rewrite Hl'.
  destruct l; [by eauto|]. rewrite (clear_near_bucket _ _ _ Hl), H. cbn [mbind option_bind]. eauto.
Qed.

Lemma timer_first_shape T : shape T → ∃ r T', timer_first T = Some (r, T') ∧ shape T'.
Proof.
  intros HT. unfold timer_first.
  destruct (timer_take_shape T HT) as (evs & T1 & -> & HT1). cbn [mbind option_bind].
  case_bool_decide; [|by eauto]. destruct (shape_timer_shift T1 HT1) as (T2 & -> & HT2).
  cbn [mbind option_bind]. destruct (timer_take_shape T2 HT2) as (evs2 & T3 & -> & HT3).
  cbn [mbind option_bind]. eauto.
Qed.

(** A step that only writes globals outside the tables. *)
Ltac easy_global :=
  match goal with
  | H : node_inv _ _ ?w |- _ =>
      eexists _, _, []; split; [reflexivity|]; split; [done|];
      eapply inv_tables; [exact H| |done..|by apply same_slots_refl|done];
      destruct H as ([] & _); split; done
  end.

Lemma inv_timer R w T : node_inv n R w → shape T → node_inv n R (w <| w_timer := T |>).
Proof.
  intros H HT. eapply inv_tables; [exact H| |done..|by apply same_slots_refl|done].
  destruct H as ([] & _). by split.
Qed.

Lemma inv_monitors R w ms :
  node_inv n R w → length ms = length (w_monitors w) → node_inv n R (w <| w_monitors := ms |>).
Proof.
  intros H Hl. eapply inv_tables; [exact H| |done..|by apply same_slots_refl|done].
  destruct H as ([] & _). split; simpl; auto. by rewrite Hl.
Qed.

Lemma inv_add_mod R w m : node_inv n R w → valid_mod w m → node_inv n (RMod m :: R) w.
Proof.
  clear dlopen dlsym. intros (Ht & Hc & [l Hq] & [I Hm]) Hv.
  assert (Hvw : ∀ c, same_view c R (RMod m :: R))
    by (intros c; apply (same_view_other c [] [RMod m]); repeat constructor; simpl; tauto).
  split_and!; [done| |exists l|exists I].
  - eapply contexts_frame; eauto using queues_kept_refl, same_slots_refl.
    intros m' [[= ->]|?]%elem_of_cons; auto.
  - eapply queues_frame; eauto using same_dom_refl, same_view_qview.
  - eapply messages_frame; eauto; try done. set_solver.
Qed.

(** Slots hold live contexts. *)
Lemma slots_live_true R w : contexts R w → slots_live w = true.
Proof.
  intros Hc. unfold slots_live. apply forallb_forall. intros [c|] Hin; [|done].
  apply bool_decide_eq_true_2. apply (cx_slot_live _ _ Hc). by apply list_elem_of_In.
Qed.

Lemma slot_handle_sound i F w :
  0 <= i → node_inv n F w → ∃ r, slot_handle_step i w = Some (r, w).
Proof.
  intros Hi (_ & Hc & _). unfold slot_handle_step. case_if; [|eauto].
  rewrite (slots_live_true F w Hc). simpl.
  destruct (zget_is_Some (h_slot (w_hs w)) i) as [cell ->]; [|simpl; eauto].
  destruct Hc as [[_ Hl _ _ _] _ _ _ _ _]. lia.
Qed.

Lemma namehandle_sound h name F w :
  node_inv n F w → ok _ (ANameHandle h name) w →
  ∃ r w', step (ANameHandle h name) w = Some (r, w') ∧ node_inv n F w'.
Proof.
  intros Hi Hok. pose proof Hi as ([] & _). simpl in *.
  pose proof (namehandle_spec (w_hs w) name h tb_names ltac:(lia)) as Hs.
  destruct (names_map (h_name (w_hs w)) !! name); [rewrite Hs; simpl; eexists _, _; split; [done|]|].
  - by destruct w.
  - destruct Hs as (s' & -> & Hsort & _ & H1 & H2 & H3 & H4 & H5). simpl. eexists _, _. split; [done|].
    eapply inv_tables; [exact Hi| |done..|by split|done]. split; simpl; auto; by rewrite ?H3.
Qed.

Lemma plain_sound X (a : act X) F w :
  plain n X a → node_inv n F w → ok X a w →
  ∃ x w' Rs, step a w = Some (x, w') ∧ Rs = [] ∧ node_inv n (Rs ++ F) w'.
Proof.
  intros Hp Hi Hok. pose proof Hi as (Ht & _). destruct Ht as [Hn _ _ _ HT _ _ Hm].
  destruct a; try done; simpl in Hp; try easy_global.
  - destruct (slot_handle_sound i F w Hp Hi) as [r Hr]. by exists r, w, [].
  - eexists _, w, []. simpl. by rewrite findname_spec.
  - destruct (namehandle_sound handle name F w Hi Hok) as (r & w' & H & Hi'). by exists r, w', [].
  - subst. by exists tt, w, [].
  - simpl in Hok. simpl. unfold skynet_setenv. rewrite bool_decide_eq_true_2 by done. easy_global.
  - simpl. unfold trigger_step. destruct (zget_is_Some (w_monitors w) i) as [m ->]; [lia|]. simpl.
    rewrite zset_Some by lia. simpl. eexists _, _, []. split; [done|]. split; [done|].
    apply inv_monitors; [done|]. apply length_insert.
  - simpl. unfold check_step. destruct (zget_is_Some (w_monitors w) i) as [m ->]; [lia|].
    cbn [mbind option_bind]. case_if; [by eexists _, w, []|].
    rewrite zset_Some by lia. cbn [mbind option_bind]. eexists _, _, []. split; [done|]. split; [done|].
    apply inv_monitors; [done|]. apply length_insert.
  - eexists _, _, []. split; [done|]. split; [done|]. apply inv_timer; [done|]. by destruct HT; split.
  - eexists _, _, []. split; [done|]. split; [done|]. apply inv_timer; [done|]. by destruct HT; split.
  - simpl. unfold timer_add. destruct (shape_add_node (w_timer w) (mkNode (u32 (t + T_time (w_timer w))) ev) HT)
      as (T' & -> & HT'). eexists _, _, []. split; [done|]. split; [done|]. by apply inv_timer.
  - simpl. destruct (timer_first_shape _ HT) as (r & T' & -> & HT').
    eexists _, _, []. split; [done|]. split; [done|]. by apply inv_timer.
  - simpl. destruct (timer_take_shape _ HT) as (r & T' & -> & HT').
    eexists _, _, []. split; [done|]. split; [done|]. by apply inv_timer.
Qed.
(** ** Contexts *)

Lemma set_ctx_id c x w : w_ctx w !! c = Some x → set_ctx c x w = w.
Proof. intros H. unfold set_ctx. rewrite insert_id by done. by destruct w. Qed.

Lemma hof_set_ctx c x x' w c' :
  w_ctx w !! c = Some x → ctx_handle x' = ctx_handle x → hof (set_ctx c x' w) c' = hof w c'.
Proof.
  intros Hx Hh. unfold hof. simpl. destruct (decide (c' = c)) as [->|].
  - rewrite lookup_insert_eq, Hx. simpl. done.
  - by rewrite lookup_insert_ne.
Qed.

Lemma same_env_set_ctx c x w c' : same_ctx_env w (set_ctx c x w) c'.
Proof. split; simpl; eauto. Qed.

(** A change of one context and of the resources about it, without touching queues. *)
Lemma inv_at c C C' F w x x' :
  node_inv n (C ++ F) w → w_ctx w !! c = Some x → ctx_handle x' = ctx_handle x →
  Forall (λ r, about c r ∨ ∃ m, r = RMod m) C → Forall (λ r, about c r ∨ ∃ m, r = RMod m) C' →
  ctx_ok (C' ++ F) (set_ctx c x' w) c x' → NoDup (dels (C' ++ F)) →
  (∀ m, RMod m ∈ C' → RMod m ∈ C ∨ valid_mod w m) →
  same_qview c (C ++ F) (C' ++ F) → heldq C' ++ deadq C' ≡ₚ heldq C ++ deadq C →
  deadq C' = deadq C →
  node_inv n (C' ++ F) (set_ctx c x' w).
Proof.
  intros (Ht & Hc & [l Hq] & [I Hm]) Hx Hh HC HC' Hok Hd Hmods Hqv Hhq Hdq.
  assert (Hother : ∀ c', c' ≠ c → same_view c' (C ++ F) (C' ++ F)).
  { intros c' Hne. apply same_view_other; eapply Forall_impl; [apply HC| |apply HC'|];
      intros r [Ha|[m ->]]; simpl; auto; by destruct r; simpl in *; subst. }
  assert (Hnodata : ∀ D, Forall (λ r, about c r ∨ ∃ m, r = RMod m) D → datas D = [] ∧ ∀ d sz, RRmsg d sz ∉ D).
  { intros D. induction 1 as [|r D Hr HD [IH1 IH2]]; [split; [done|set_solver]|].
    destruct r; simpl in *; try (split; [done|set_solver]); by destruct Hr as [|[]]. }
  destruct (Hnodata C HC) as [HdC _]. destruct (Hnodata C' HC') as [HdC' HrC'].
  split_and!; [by destruct Ht; split| |exists l|exists I].
  - eapply (contexts_change c); eauto; try done.
    + intros c' Hne. split_and!; [|by apply Hother|apply same_env_set_ctx].
      simpl. by rewrite lookup_insert_ne.
    + eapply slots_wf_ext; [|apply (cx_slots _ _ Hc)]. intros c' _. symmetry. by eapply hof_set_ctx.
    + intros _. simpl. rewrite lookup_insert_eq. eauto.
    + intros y. simpl. rewrite lookup_insert_eq. by intros [= <-].
    + intros m [Hin|Hin]%elem_of_app; [|left; set_solver].
      destruct (Hmods m Hin); [left; set_solver|by right].
  - eapply queues_frame; eauto using same_dom_insert; try done.
    + intros p. destruct (decide (p = c)) as [->|Hne]; [done|]. by apply same_view_qview, Hother.
    + unfold heldq, deadq in *. rewrite !omap_app.
      rewrite <- !app_assoc, !(Permutation_app_swap_app (omap _ F)), !app_assoc.
      do 2 f_equiv. by rewrite Hhq.
  - eapply messages_frame; eauto; try done.
    + unfold deadq in *. rewrite !omap_app. by rewrite Hdq.
    + unfold datas in *. rewrite !omap_app. by rewrite HdC, HdC'.
    + intros d sz [Hin|Hin]%elem_of_app; [by apply HrC' in Hin|set_solver].
Qed.

Lemma keeps_live c r F w : keeps c r → contexts (r :: F) w → ∃ x, w_ctx w !! c = Some x.
Proof.
  intros Hk Hc. apply (cx_live _ _ Hc). destruct Hk as [->| ->]; [left|right; left].
  - set_solver.
  - apply elem_of_dels. set_solver.
Qed.

(** The fields of a context the invariant mentions. *)
Definition core (x : context) : Z * ptr * Z * Z * bool * bool :=
  (ctx_ref x, ctx_queue x, ctx_handle x, ctx_mod x, ctx_init x, ctx_calling x).

Lemma ctx_ok_core R w c x x' : core x' = core x → ctx_ok R w c x → ctx_ok R w c x'.
Proof. unfold core. intros [= E1 E2 E3 E4 E5 E6] []. split; rewrite ?E1, ?E2, ?E3, ?E4, ?E5, ?E6; auto. Qed.

Lemma inv_core c r F w x x' :
  keeps c r → node_inv n (r :: F) w → w_ctx w !! c = Some x → core x' = core x →
  node_inv n (r :: F) (set_ctx c x' w).
Proof.
  intros Hk Hi Hx Hcore. pose proof Hi as (_ & Hc & _).
  assert (about c r) by by destruct Hk as [->| ->].
  eapply (inv_at c [r] [r]); eauto; try done.
  - unfold core in Hcore. congruence.
  - eapply ctx_ok_core; [done|]. eapply ctx_ok_view; [reflexivity|apply same_env_set_ctx|].
    by apply (cx_ctx _ _ Hc).
  - apply Hc.
Qed.

Lemma local_sound c r X (a : act X) F w :
  keeps c r → local_ctx c X a → node_inv n (r :: F) w →
  ∃ x w' Rs, step a w = Some (x, w') ∧ Rs = [r] ∧ node_inv n (Rs ++ F) w'.
Proof.
  intros Hk Ha Hi. pose proof Hi as (_ & Hc & _). destruct (keeps_live c r F w Hk Hc) as [x Hx].
  destruct a; try done; simpl in Ha; destruct_and?; subst; simpl; unfold on_ctx, upd_ctx, get_ctx; rewrite Hx; simpl.
  - by eexists _, w, [r].
  - unfold skynet_context_newsession. case_if; eexists _, _, [r]; (split; [done|]; split; [done|]);
      by eapply inv_core.
  - by eexists _, w, [r].
  - eexists _, _, [r]. split; [done|]. split; [done|]. by eapply inv_core.
  - by eexists _, w, [r].
  - by eexists _, w, [r].
  - eexists _, _, [r]. split; [done|]. split; [done|]. by eapply inv_core.
  - by eexists _, w, [r].
  - case_bool_decide; [|by eexists _, w, [r]].
    eexists _, _, [r]. split; [done|]. split; [done|]. by eapply inv_core.
Qed.
(** Changing the reference count of [c] by [d], together with the references held. *)
Lemma ctx_ok_ref R R' w w' c x d :
  ctx_ok R w c x → ctx_ref x + d < 2 ^ 31 →
  slotn w' c + remoten w' c + refcount c R' = slotn w c + remoten w c + refcount c R + d →
  (Some c ∈ h_slot (w_hs w') → Some c ∈ h_slot (w_hs w)) → w_mq w' = w_mq w → w_mods w' = w_mods w →
  (∀ st, RQ c st ∈ R' ↔ RQ c st ∈ R) → (RDying c ∈ R' ↔ RDying c ∈ R) →
  (ctx_ref x + d = 0 ↔ c ∈ dels R') →
  ctx_ok R' w' c (x <| ctx_ref := ctx_ref x + d |>).
Proof.
  intros [] Hb Hs Hsl Hmq Hmod Hst Hdy Hz. split; simpl; rewrite ?Hmq; auto.
  - lia.
  - unfold valid_mod. by rewrite Hmod.
  - by rewrite !Hst.
  - intros Hin. destruct (co_init Hin) as [Hl|Hl]; [left|right; tauto].
    unfold launching. rewrite !Hst. destruct Hl as [|[[h Hh]|]]; auto. right; left. exists h. by rewrite Hst.
  - by rewrite !Hst.
  - by rewrite Hdy.
Qed.

Lemma ctx_ref_nonneg R w c x : ctx_ok R w c x → 0 <= ctx_ref x.
Proof.
  intros []. pose proof (refcount_pos c R). unfold slotn, remoten in *. repeat case_decide; lia.
Qed.

Lemma slot_ref_pos R w c x : ctx_ok R w c x → Some c ∈ h_slot (w_hs w) → 0 < ctx_ref x.
Proof.
  intros [] Hin. pose proof (refcount_pos c R). unfold slotn, remoten in *.
  rewrite decide_True in co_ref by done. case_decide; lia.
Qed.

Lemma ref_ref_pos R w c x : ctx_ok R w c x → RRef c ∈ R → 0 < ctx_ref x.
Proof.
  intros [] Hin%refcount_elem. unfold slotn, remoten in *. repeat case_decide; lia.
Qed.

(** What [skynet_handle_grab] finds. *)
Lemma grab_cases R w h :
  contexts R w →
  (skynet_handle_grab (hof w) h (w_hs w) = Some None ∧ ∀ c, Some c ∈ h_slot (w_hs w) → hof w c ≠ h) ∨
  ∃ c x, skynet_handle_grab (hof w) h (w_hs w) = Some (Some c) ∧ w_ctx w !! c = Some x
    ∧ Some c ∈ h_slot (w_hs w) ∧ ctx_handle x = h.
Proof.
  intros Hc. destruct (grab_total _ _ (cx_slots _ _ Hc) h) as [[c|] Hg].
  - right. pose proof Hg as [Hin Hh]%(grab_Some _ _ (cx_slots _ _ Hc)).
    destruct (cx_slot_live _ _ Hc c Hin) as [x Hx]. exists c, x. split_and!; auto.
    unfold hof in Hh. by rewrite Hx in Hh.
  - left. split; [done|]. by apply (grab_None _ _ (cx_slots _ _ Hc)).
Qed.

(** The resources [C] about [c] are exchanged for [C'], the count grows by [d]. *)
Lemma inv_ref c C C' F w x d :
  node_inv n (C ++ F) w → w_ctx w !! c = Some x → ctx_ref x + d < 2 ^ 31 →
  Forall (about c) C → Forall (about c) C' →
  refcount c C' = refcount c C + d →
  (∀ st, RQ c st ∈ C' ↔ RQ c st ∈ C) → (RDying c ∈ C' ↔ RDying c ∈ C) → (RDead c ∈ C' ↔ RDead c ∈ C) →
  heldq C' = heldq C → deadq C' = deadq C →
  (ctx_ref x + d = 0 ↔ c ∈ dels (C' ++ F)) → NoDup (dels (C' ++ F)) →
  node_inv n (C' ++ F) (set_ctx c (x <| ctx_ref := ctx_ref x + d |>) w).
Proof.
  intros Hi Hx Hb HC HC' Hr Hst Hdy Hdd Hhq Hdq Hz Hnd. pose proof Hi as (_ & Hc & _).
  assert (∀ D, Forall (about c) D → Forall (λ r, about c r ∨ ∃ m, r = RMod m) D) as Hab.
  { intros D HD. eapply Forall_impl; [done|]. auto. }
  eapply (inv_at c C C'); eauto.
  - eapply ctx_ok_ref; [apply (cx_ctx _ _ Hc c x Hx)|done| |done..| | |done].
    + rewrite !refcount_app. change (slotn (set_ctx _ _ w) c) with (slotn w c).
      change (remoten (set_ctx _ _ w) c) with (remoten w c). lia.
    + intros st. rewrite !elem_of_app, Hst. done.
    + rewrite !elem_of_app, Hdy. done.
  - intros m Hm. eapply Forall_forall in HC'; [|done]. done.
  - split.
    + rewrite !elem_of_app, Hdy. done.
    + unfold heldq in *. rewrite !omap_app, Hhq. done.
    + unfold deadq in *. rewrite !omap_app, Hdq. done.
    + intros h. rewrite !elem_of_app, !Hst. done.
  - by rewrite Hhq, Hdq.
Qed.

Lemma grab_sound h F w :
  node_inv n F w → ok _ (AGrab h) w →
  ∃ r w', step (AGrab h) w = Some (r, w') ∧ node_inv n (ref_of r ++ F) w'.
Proof.
  intros Hi Hok. pose proof Hi as (_ & Hc & _). simpl. unfold grab_step.
  rewrite (slots_live_true F w Hc). simpl.
  destruct (grab_cases F w h Hc) as [[-> _]|(c & x & -> & Hx & Hin & Hh)].
  { by exists None, w. }
  cbn [mbind option_bind]. unfold get_ctx. rewrite Hx. cbn [mbind option_bind].
  pose proof (cx_ctx _ _ Hc c x Hx) as Hcx. pose proof (slot_ref_pos _ _ _ _ Hcx Hin).
  rewrite i32_small by (simpl in Hok; specialize (Hok c x Hx); lia).
  eexists _, _. split; [done|].
  eapply (inv_ref c [] [RRef c]); eauto; res_side.
  - rewrite <- (co_zero _ _ _ _ Hcx). lia.
  - apply Hc.
Qed.

Lemma inc_sound c F w :
  node_inv n (RRef c :: F) w → ok _ (AInc c) w →
  ∃ w', step (AInc c) w = Some (tt, w') ∧ node_inv n (RRef c :: RRef c :: F) w'.
Proof.
  intros Hi Hok. pose proof Hi as (_ & Hc & _).
  destruct (keeps_live c (RRef c) F w (or_introl eq_refl) Hc) as [x Hx].
  pose proof (cx_ctx _ _ Hc c x Hx) as Hcx.
  assert (0 < ctx_ref x) by (eapply ref_ref_pos; [done|set_solver]).
  simpl. unfold add_ref, get_ctx. rewrite Hx. cbn [mbind option_bind].
  rewrite i32_small by (simpl in Hok; specialize (Hok c x Hx); lia).
  eexists. split; [done|].
  eapply (inv_ref c [RRef c] [RRef c; RRef c]); eauto; res_side.
  - rewrite <- (co_zero _ _ _ _ Hcx). lia.
  - apply Hc.
Qed.

(** Giving a reference back: with the last one comes the duty to delete. *)
Lemma inv_dec c F w x :
  node_inv n (RRef c :: F) w → w_ctx w !! c = Some x →
  node_inv n ((if ctx_ref x - 1 =? 0 then [RDel c] else []) ++ F)
    (set_ctx c (x <| ctx_ref := ctx_ref x - 1 |>) w).
Proof.
  intros Hi Hx. pose proof Hi as (_ & Hc & _). pose proof (cx_ctx _ _ Hc c x Hx) as Hcx.
  assert (0 < ctx_ref x) by (eapply ref_ref_pos; [done|set_solver]).
  pose proof (co_zero _ _ _ _ Hcx) as Hz. pose proof (cx_dels _ _ Hc) as Hnd.
  pose proof (co_bound _ _ _ _ Hcx).
  assert (Hnot : c ∉ dels F) by (intros Hin; assert (ctx_ref x = 0) by (apply Hz; exact Hin); lia).
  simpl in Hnd. case_if.
  - apply (inv_ref c [RRef c] [RDel c] F w x (-1)); auto; res_side.
  - apply (inv_ref c [RRef c] [] F w x (-1)); auto; res_side.
Qed.

Lemma dec_sound c F w :
  node_inv n (RRef c :: F) w →
  ∃ r w', step (ADec c) w = Some (r, w') ∧ node_inv n ((if r =? 0 then [RDel c] else []) ++ F) w'.
Proof.
  intros Hi. pose proof Hi as (_ & Hc & _).
  destruct (keeps_live c (RRef c) F w (or_introl eq_refl) Hc) as [x Hx].
  pose proof (cx_ctx _ _ Hc c x Hx) as Hcx. pose proof (co_bound _ _ _ _ Hcx).
  assert (0 < ctx_ref x) by (eapply ref_ref_pos; [done|set_solver]).
  simpl. unfold add_ref, get_ctx. rewrite Hx. cbn [mbind option_bind]. rewrite i32_small by lia.
  eexists _, _. split; [done|]. by apply inv_dec.
Qed.
(** ** States of a held queue *)

(** A held queue is held once. *)
Lemma held_unique q st F w l st' : queues (RQ q st :: F) w l → RQ q st' ∉ F.
Proof.
  intros [_ Hnd _ _ _ _] Hin. simpl in Hnd. apply NoDup_app in Hnd as (_ & _ & Hnd).
  apply NoDup_cons in Hnd as [Hn _]. apply Hn. apply elem_of_app. left. apply elem_of_heldq. eauto.
Qed.

(** What the state [st] of the held queue [q] says about its context. *)
Record state_ok (st : qstate) (w : world) (q : ptr) (x : context) : Prop := {
  so_calling : ctx_calling x = true ↔ st = QCall ∨ st = QCallNew;
  so_init : ctx_init x = false →
    st = QNew ∨ (∃ h, st = QNewH h) ∨ st = QCallNew ∨ Some q ∉ h_slot (w_hs w);
  so_run : st = QRun ∨ st = QCall → ctx_init x = true
}.

Lemma state_ok_intro st F w l q x :
  queues (RQ q st :: F) w l → ctx_ok (RQ q st :: F) w q x → state_ok st w q x.
Proof.
  intros Hq []. pose proof (λ st', held_unique q st F w l st' Hq) as Hu.
  assert (Hst : ∀ st', RQ q st' ∈ RQ q st :: F ↔ st' = st) by set_solver.
  split.
  - rewrite co_calling, !Hst. naive_solver.
  - intros Hi. destruct (co_init Hi) as [[Hl|[[h Hl]|Hl]]|Hl]; rewrite ?Hst in Hl; subst; eauto.
  - rewrite !Hst in co_run. naive_solver.
Qed.

(** Changing the state of a held queue, and with it the context. *)
Lemma ctx_ok_state st st' F w q x x' l :
  queues (RQ q st :: F) w l → ctx_ok (RQ q st :: F) w q x →
  (ctx_ref x', ctx_queue x', ctx_handle x', ctx_mod x')
    = (ctx_ref x, ctx_queue x, ctx_handle x, ctx_mod x) →
  state_ok st' w q x' → ctx_ok (RQ q st' :: F) (set_ctx q x' w) q x'.
Proof.
  intros Hq [] [= E1 E2 E3 E4] [H1 H2 H3]. pose proof (λ s, held_unique q st F w l s Hq) as Hu.
  assert (Hst : ∀ s, RQ q s ∈ RQ q st' :: F ↔ s = st') by set_solver.
  split; simpl; rewrite ?E1, ?E2, ?E3, ?E4; auto.
  - rewrite !Hst, H1. naive_solver.
  - intros Hi. unfold launching. rewrite !Hst. destruct (H2 Hi) as [->|[[h ->]|[->|?]]]; auto.
    left. right. left. exists h. by rewrite Hst.
  - rewrite !Hst. naive_solver.
  - intros Hd. apply co_mq. set_solver.
Qed.

Definition state_handle (st : qstate) (h : Z) : Prop := st = QHandle h ∨ st = QNewH h.

Lemma queues_state st st' F w w' q l :
  queues (RQ q st :: F) w l → same_dom w w' → w_mq w' = w_mq w → w_next w' = w_next w →
  w_hs w' = w_hs w →
  (∀ mq h, mq_heap (w_mq w) !! q = Some mq → state_handle st' h → mq_handle mq = h) →
  queues (RQ q st' :: F) w' l.
Proof.
  intros Hq Hd Hm Hn Hh Hs. pose proof (λ s, held_unique q st F w l s Hq) as Hu. destruct Hq.
  split; rewrite ?Hm, ?Hn; auto.
  - intros p mq Hp. destruct (decide (p = q)) as [->|Hne].
    + destruct (qs_ok q mq Hp). split; rewrite ?Hh; auto.
      * destruct qo_release as [(? & ? & ?)|(? & [E|?])]; [left|right|right]; split_and!; auto.
        -- by apply Hd.
        -- set_solver.
        -- left. apply eq_None_not_Some. rewrite <- (Hd q), E. apply is_Some_None.
        -- right. set_solver.
      * intros h Hin. apply (Hs mq h Hp). unfold state_handle. set_solver.
    + eapply (queue_ok_view (RQ q st :: F) _ w w' l l); [|split; rewrite ?Hh; auto; lia|by apply qs_ok].
      apply same_view_qview. apply (same_view_other p [RQ q st] [RQ q st']); not_about.
  - intros p Hp. destruct (qs_fresh p Hp) as [H1 H2]. split; [|done].
    apply eq_None_not_Some. rewrite <- (Hd p), H1. apply is_Some_None.
Qed.

Lemma inv_state st st' F w q x x' :
  node_inv n (RQ q st :: F) w → w_ctx w !! q = Some x →
  (ctx_ref x', ctx_queue x', ctx_handle x', ctx_mod x')
    = (ctx_ref x, ctx_queue x, ctx_handle x, ctx_mod x) →
  state_ok st' w q x' →
  (∀ mq h, mq_heap (w_mq w) !! q = Some mq → state_handle st' h → mq_handle mq = h) →
  node_inv n (RQ q st' :: F) (set_ctx q x' w).
Proof.
  intros (Ht & Hc & [l Hq] & [I Hm]) Hx Hf Hs Hh. split_and!; [by destruct Ht; split| |exists l|exists I].
  - pose proof Hf as [= E1 E2 E3 E4]. eapply (contexts_change q); eauto; try done.
    + intros c' Hne. split_and!; [by simpl; rewrite lookup_insert_ne| |apply same_env_set_ctx].
      apply (same_view_other c' [RQ q st] [RQ q st']); not_about.
    + eapply slots_wf_ext; [|apply (cx_slots _ _ Hc)]. intros c' _. symmetry. by eapply hof_set_ctx.
    + intros _. simpl. rewrite lookup_insert_eq. eauto.
    + intros y. simpl. rewrite lookup_insert_eq. intros [= <-].
      eapply ctx_ok_state; eauto. by apply (cx_ctx _ _ Hc).
    + apply (cx_dels _ _ Hc).
    + intros m Hin. left. set_solver.
  - eapply queues_state; eauto using same_dom_insert.
  - eapply messages_frame; eauto; try done. set_solver.
Qed.

(** The same when the context is gone already. *)
Lemma inv_state_dead st st' F w q :
  node_inv n (RQ q st :: F) w → w_ctx w !! q = None →
  (∀ mq h, mq_heap (w_mq w) !! q = Some mq → state_handle st' h → mq_handle mq = h) →
  node_inv n (RQ q st' :: F) w.
Proof.
  intros (Ht & Hc & [l Hq] & [I Hm]) Hx Hh. split_and!; [done| |exists l|exists I].
  - eapply (contexts_change q); eauto; try done.
    + intros c' Hne. split_and!; [done| |split; eauto].
      apply (same_view_other c' [RQ q st] [RQ q st']); not_about.
    + apply Hc.
    + intros [H|H]; [by apply (cx_slot_live _ _ Hc)|apply (cx_live _ _ Hc)].
      destruct H as [H|[H|H]]; [left; set_solver|auto..].
    + intros x. by rewrite Hx.
    + apply (cx_dels _ _ Hc).
    + intros m Hin. left. set_solver.
  - eapply queues_state; eauto using same_dom_refl.
  - eapply messages_frame; eauto; try done. set_solver.
Qed.
Lemma inv_state_same st st' F w q :
  node_inv n (RQ q st :: F) w →
  (∀ x, w_ctx w !! q = Some x → state_ok st w q x → state_ok st' w q x) →
  (∀ mq h, mq_heap (w_mq w) !! q = Some mq → state_handle st' h → mq_handle mq = h) →
  node_inv n (RQ q st' :: F) w.
Proof.
  intros Hi Hs Hh. destruct (w_ctx w !! q) as [x|] eqn:Hx; [|by eapply inv_state_dead].
  rewrite <- (set_ctx_id q x w Hx). eapply inv_state; eauto.
  pose proof Hi as (_ & Hc & [l Hq] & _). apply Hs; [done|].
  eapply state_ok_intro; [done|by apply (cx_ctx _ _ Hc)].
Qed.

(** States that say nothing about the context. *)
Definition neutral (st : qstate) : Prop := match st with QHeld | QHandle _ => True | _ => False end.

Lemma state_ok_neutral st st' w q x : neutral st → neutral st' → state_ok st w q x → state_ok st' w q x.
Proof.
  intros Hn Hn' [H1 H2 H3]. split.
  - rewrite H1. destruct st, st'; naive_solver.
  - intros Hi. destruct (H2 Hi) as [->|[[h ->]|[->|?]]]; auto; done.
  - destruct st'; naive_solver.
Qed.

Lemma state_ok_unrun w q x : state_ok QRun w q x → state_ok QHeld w q x.
Proof. intros [H1 H2 H3]. split; [naive_solver| |naive_solver]. rewrite H3 by auto. done. Qed.

(** The queue with the handle of a registered service is the service's queue. *)
Lemma handle_queue R w q c x mq :
  node_inv n R w → Some c ∈ h_slot (w_hs w) → w_ctx w !! c = Some x →
  mq_heap (w_mq w) !! q = Some mq → mq_handle mq = ctx_handle x → c = q.
Proof.
  intros (_ & Hc & [l Hq] & _) Hin Hx Hmq Hh. pose proof (cx_ctx _ _ Hc c x Hx) as Hcx.
  destruct (co_mq _ _ _ _ Hcx) as (mq' & Hmq' & Hh' & _).
  { intros Hd. assert (ctx_ref x = 0) by (apply (co_zero _ _ _ _ Hcx), elem_of_dels; auto).
    pose proof (slot_ref_pos _ _ _ _ Hcx Hin). lia. }
  apply (qs_inj _ _ _ Hq c q mq' mq); auto. congruence.
Qed.

Lemma held_queue q st F w l :
  queues (RQ q st :: F) w l → ∃ mq, mq_heap (w_mq w) !! q = Some mq
    ∧ (∀ h, state_handle st h → mq_handle mq = h).
Proof.
  intros []. destruct (qs_live q) as [mq Hmq]; [set_solver|]. exists mq. split; [done|].
  intros h Hs. apply (qo_handle _ _ _ _ _ (qs_ok q mq Hmq)). destruct Hs; subst; set_solver.
Qed.

Lemma grab_run_sound q h F w :
  node_inv n (RQ q (QHandle h) :: F) w → ok _ (AGrab h) w →
  ∃ r w' Rs, step (AGrab h) w = Some (r, w')
    ∧ match r with
      | Some c => c = q ∧ Rs = [RRef q; RQ q QRun]
      | None => Rs = [RQ q QHeld]
      end ∧ node_inv n (Rs ++ F) w'.
Proof.
  intros Hi Hok. destruct (grab_sound h _ w Hi Hok) as (r & w' & Hs & Hi').
  pose proof Hi as (_ & Hc & [l Hq] & _).
  destruct (held_queue _ _ _ _ _ Hq) as (mq & Hmq & Hmh).
  assert (Hqh : mq_handle mq = h) by (apply Hmh; by left).
  exists r, w'. revert Hs. simpl. unfold grab_step. rewrite (slots_live_true _ w Hc). simpl.
  destruct (grab_cases _ w h Hc) as [[-> _]|(c & x & -> & Hx & Hin & Hh)]; simpl.
  - intros [= <- <-]. eexists; split_and!; eauto. simpl in *. eapply inv_state_same; [done|..].
    + intros x _. by apply state_ok_neutral.
    + intros ? ? _ [|]; done.
  - unfold get_ctx. rewrite Hx. simpl. intros [= <- <-].
    assert (c = q) as -> by (eapply (handle_queue _ w); eauto; congruence).
    eexists; split_and!; eauto. simpl in *.
    pose proof (state_ok_intro _ _ _ _ _ _ Hq (cx_ctx _ _ Hc q x Hx)) as [H1 H2 H3].
    eapply node_inv_perm; [apply Permutation_swap|]. eapply inv_state_same.
    { eapply node_inv_perm; [apply Permutation_swap|]. exact Hi'. }
    + intros y. simpl. rewrite lookup_insert_eq. intros [= <-] _. split; simpl; [naive_solver|..].
      * intros Hf. destruct (H2 Hf) as [|[[]|[|]]]; done.
      * intros _. destruct (ctx_init x) eqn:E; [done|]. destruct (H2 eq_refl) as [|[[]|[|]]]; done.
    + intros ? ? _ [|]; done.
Qed.
(** ** Retiring *)

Lemma retire_fields f h s r s' :
  skynet_handle_retire f h s = Some (r, s') →
  h_slot_size s' = h_slot_size s ∧ h_harbor s' = h_harbor s
  ∧ h_handle_index s' = h_handle_index s ∧ h_name_cap s' = h_name_cap s.
Proof.
  unfold skynet_handle_retire. intros H. destruct (zget (h_slot s) (slot_hash s h)) as [[c|]|]; simpl in H.
  - destruct (f c =? h); [destruct (zset _ _ _); simpl in H|]; by simplify_eq.
  - by simplify_eq.
  - done.
Qed.

(** The service leaves the table; its reference goes to the caller. *)
Lemma inv_retire c h x F w hs :
  node_inv n F w → w_ctx w !! c = Some x → Some c ∈ h_slot (w_hs w) →
  skynet_handle_retire (hof w) h (w_hs w) = Some (Some c, hs) →
  h_name hs = filter (λ nm, hn_handle nm ≠ h) (h_name (w_hs w)) → slots_wf (hof w) hs →
  (∀ c', Some c' ∈ h_slot hs ↔ Some c' ∈ h_slot (w_hs w) ∧ c' ≠ c) →
  node_inv n (RRef c :: F) (w <| w_hs := hs |>).
Proof.
  intros Hi Hx Hin Hr Hn Hwf Hmem. destruct (retire_fields _ _ _ _ _ Hr) as (E1 & E2 & E3 & E4).
  pose proof Hi as (Ht & Hc & [l Hq] & [I Hm]). split_and!; [| |exists l|exists I].
  - destruct Ht. split; simpl; rewrite ?Hn, ?E3, ?E4; auto. by apply names_filter_spec.
  - eapply (contexts_change c); eauto; try done.
    + intros c' Hne. split_and!; [done| |].
      * apply (same_view_other c' [] [RRef c]); not_about.
      * split; simpl; eauto. rewrite Hmem. tauto.
    + pose proof (cx_ctx _ _ Hc c x Hx) as Hcx. pose proof (co_bound _ _ _ _ Hcx).
      intros y Hy. simpl in Hy. rewrite Hx in Hy. simplify_eq.
      assert (ctx_ok (RRef c :: F) (w <| w_hs := hs |>) c (y <| ctx_ref := ctx_ref y + 0 |>)) as Hz.
      { eapply (ctx_ok_ref F _ w); [done|lia| | |done|done|set_solver|set_solver|].
        2: { simpl. rewrite Hmem. tauto. }
        - unfold slotn, remoten. simpl. rewrite (decide_True (P := Some c ∈ h_slot (w_hs w))) by done.
          rewrite decide_False by (rewrite Hmem; tauto). rewrite (decide_True (P := c = c)) by done. lia.
        - rewrite Z.add_0_r. apply (co_zero _ _ _ _ Hcx). }
      rewrite Z.add_0_r in Hz. by destruct y.
    + apply Hc.
    + intros m Hm'. left. set_solver.
  - eapply queues_frame; eauto using same_dom_refl; try done.
    intros p. split; simpl; try done; set_solver.
  - eapply messages_frame; eauto; try done. set_solver.
Qed.

Lemma retire_sound h F w :
  node_inv n F w →
  ∃ r w', step (ARetire h) w = Some (r, w') ∧ node_inv n (ref_of r ++ F) w'
    ∧ w_mq w' = w_mq w ∧ w_ctx w' = w_ctx w ∧ ∀ c, Some c ∈ h_slot (w_hs w') → hof w c ≠ h.
Proof.
  intros Hi. pose proof Hi as (_ & Hc & _). simpl. unfold retire_step.
  rewrite (slots_live_true F w Hc). simpl.
  destruct (grab_cases F w h Hc) as [[Hg Hno]|(c & x & Hg & Hx & Hin & Hh)].
  - rewrite (retire_miss _ _ _ Hg). simpl. exists None, w. split; [by destruct w|]. done.
  - destruct (retire_hit _ _ _ _ (cx_slots _ _ Hc) Hg) as (hs & Hr & Hn & Hwf & Hmem & _).
    rewrite Hr. simpl. eexists _, _. split; [done|]. split; [by eapply inv_retire|].
    split_and!; try done. simpl. intros c' [Hin' Hne]%Hmem Hh'.
    assert (skynet_handle_grab (hof w) h (w_hs w) = Some (Some c'))
      by by apply (grab_Some _ _ (cx_slots _ _ Hc)). congruence.
Qed.

Lemma retire_new_sound q h F w :
  node_inv n (RQ q (QNewH h) :: F) w →
  ∃ r w', step (ARetire h) w = Some (r, w') ∧ node_inv n ((RQ q QHeld :: ref_of r) ++ F) w'.
Proof.
  intros Hi. destruct (retire_sound h _ w Hi) as (r & w' & Hs & Hi' & Emq & Ectx & Hno).
  exists r, w'. split; [done|]. simpl. pose proof Hi as (_ & Hc & [l Hq] & _).
  destruct (held_queue _ _ _ _ _ Hq) as (mq & Hmq & Hmh).
  assert (Hqh : mq_handle mq = h) by (apply Hmh; by right).
  eapply inv_state_same.
  { eapply node_inv_perm; [symmetry; apply Permutation_middle|]. exact Hi'. }
  - intros x. rewrite Ectx. intros Hx [H1 H2 H3]. split; [naive_solver| |naive_solver].
    intros _. right; right; right. intros Hin. apply (Hno q Hin). unfold hof. rewrite Hx. simpl.
    pose proof (cx_ctx _ _ Hc q x Hx) as Hcx.
    destruct (co_mq _ _ _ _ Hcx) as (mq' & Hmq' & Hh' & _); [|congruence].
    intros Hd. pose proof Hi' as (_ & Hc' & _). rewrite <- Ectx in Hx.
    pose proof (cx_ctx _ _ Hc' q x Hx) as Hcx'. pose proof (slot_ref_pos _ _ _ _ Hcx' Hin).
    assert (ctx_ref x = 0) by (apply (co_zero _ _ _ _ Hcx), elem_of_dels; auto). lia.
  - intros ? ? _ [|]; done.
Qed.
(** ** Launching and calling *)

Lemma set_ctx_twice c x y w : set_ctx c x (set_ctx c y w) = set_ctx c x w.
Proof. unfold set_ctx. simpl. by rewrite insert_insert_eq. Qed.

(** A thread with a reference and the queue of [c]. *)
Lemma ref_state_ok c st F w :
  node_inv n (RRef c :: RQ c st :: F) w →
  ∃ x, w_ctx w !! c = Some x ∧ ctx_ok (RRef c :: RQ c st :: F) w c x ∧ state_ok st w c x.
Proof.
  intros (_ & Hc & [l Hq] & _).
  destruct (keeps_live c (RRef c) _ w (or_introl eq_refl) Hc) as [x Hx]. exists x.
  pose proof (cx_ctx _ _ Hc c x Hx) as Hcx. split_and!; auto.
  eapply (state_ok_intro st (RRef c :: F)).
  - eapply queues_frame; eauto using same_dom_refl.
    intros p. apply same_view_qview, same_view_perm, Permutation_swap.
  - eapply ctx_ok_view; [| |done]; [apply same_view_perm, Permutation_swap|split; eauto].
Qed.

(** Changing the state of the held queue of a referenced context. *)
Lemma inv_ref_state c st st' F w x x' :
  node_inv n (RRef c :: RQ c st :: F) w → w_ctx w !! c = Some x →
  (ctx_ref x', ctx_queue x', ctx_handle x', ctx_mod x')
    = (ctx_ref x, ctx_queue x, ctx_handle x, ctx_mod x) →
  state_ok st' w c x' →
  (∀ mq h, mq_heap (w_mq w) !! c = Some mq → state_handle st' h → mq_handle mq = h) →
  node_inv n (RRef c :: RQ c st' :: F) (set_ctx c x' w).
Proof.
  intros Hi Hx Hf Hs Hh. eapply node_inv_perm; [apply Permutation_swap|].
  eapply inv_state; eauto. eapply node_inv_perm; [apply Permutation_swap|done].
Qed.

Lemma not_calling st w c x :
  state_ok st w c x → st ≠ QCall → st ≠ QCallNew → ctx_calling x = false.
Proof. intros [H _ _] H1 H2. destruct (ctx_calling x); [|done]. naive_solver. Qed.

Lemma no_handle st (h : Z) : (∀ h, st ≠ QHandle h ∧ st ≠ QNewH h) → ¬ state_handle st h.
Proof. intros H [->| ->]; [by destruct (H h)|by destruct (H h)]. Qed.

Definition called (st : qstate) : qstate := match st with QNew => QCallNew | _ => QCall end.

Lemma begin_sound c st F w :
  st = QRun ∨ st = QNew → node_inv n (RRef c :: RQ c st :: F) w →
  ∃ w', step (ACallingBegin c) w = Some (tt, w') ∧ node_inv n (RRef c :: RQ c (called st) :: F) w'.
Proof.
  intros Hst Hi. destruct (ref_state_ok c st F w Hi) as (x & Hx & Hcx & Hs).
  simpl. unfold get_ctx. rewrite Hx. simpl.
  rewrite (not_calling st w c x Hs) by (destruct Hst; subst; done). simpl. eexists; split; [done|].
  eapply inv_ref_state; eauto.
  - destruct Hs as [H1 H2 H3]. split; simpl.
    + destruct Hst; subst; simpl; naive_solver.
    + intros E. destruct Hst as [->| ->]; simpl; auto.
      destruct (H2 E) as [|[[]|[|]]]; auto; done.
    + destruct Hst as [->| ->]; simpl; auto. naive_solver.
  - intros mq h _ Hh. exfalso. eapply no_handle; [|done]. by destruct Hst; subst.
Qed.

Lemma end_sound c st F w :
  st = QRun ∨ st = QNew → node_inv n (RRef c :: RQ c (called st) :: F) w →
  ∃ w', step (ACallingEnd c) w = Some (tt, w') ∧ node_inv n (RRef c :: RQ c st :: F) w'.
Proof.
  intros Hst Hi. destruct (ref_state_ok c _ F w Hi) as (x & Hx & Hcx & Hs).
  simpl. unfold upd_ctx, get_ctx. rewrite Hx. simpl. eexists; split; [done|].
  eapply inv_ref_state; eauto.
  - destruct Hs as [H1 H2 H3]. split; simpl.
    + destruct Hst; subst; simpl; naive_solver.
    + intros E. destruct Hst as [->| ->]; simpl; auto.
      simpl in *. rewrite H3 in E by auto. done.
    + destruct Hst as [->| ->]; simpl; auto. naive_solver.
  - intros mq h _ Hh. exfalso. eapply no_handle; [|done]. by destruct Hst; subst.
Qed.

Lemma init_sound c F w :
  node_inv n (RRef c :: RQ c QRun :: F) w → step (AInit c) w = Some (true, w).
Proof.
  intros Hi. destruct (ref_state_ok c _ F w Hi) as (x & Hx & _ & [_ _ H3]).
  simpl. unfold on_ctx, get_ctx. rewrite Hx. simpl. by rewrite H3 by auto.
Qed.

Lemma handle_new_sound c F w :
  node_inv n (RRef c :: RQ c QNew :: F) w →
  ∃ h, step (AHandle c) w = Some (h, w) ∧ 0 < h ∧ node_inv n (RRef c :: RQ c (QNewH h) :: F) w.
Proof.
  intros Hi. destruct (ref_state_ok c _ F w Hi) as (x & Hx & Hcx & Hs).
  pose proof Hi as (_ & _ & [l Hq] & _).
  destruct (co_mq _ _ _ _ Hcx) as (mq & Hmq & Hh & _).
  { assert (0 < ctx_ref x) by (eapply ref_ref_pos; [done|set_solver]).
    intros Hd. assert (ctx_ref x = 0) by (apply (co_zero _ _ _ _ Hcx), elem_of_dels; auto). lia. }
  simpl. unfold on_ctx, get_ctx. rewrite Hx. simpl. eexists; split; [done|].
  split; [rewrite <- Hh; by apply (qo_range _ _ _ _ _ (qs_ok _ _ _ Hq _ _ Hmq))|].
  rewrite <- (set_ctx_id c x w Hx). eapply inv_ref_state; eauto.
  - destruct Hs as [H1 H2 H3]. split; [|by eauto|by intros [|]].
    rewrite H1. by split; intros [|].
  - intros mq' h Hmq' [|[= <-]]; [done|]. congruence.
Qed.

Lemma launched_sound c F w :
  node_inv n (RRef c :: RQ c QNew :: F) w →
  ∃ r w', step (ALaunched c) w = Some (r, w')
    ∧ node_inv n (match r with Some _ => [RQ c QHeld] | None => [RDel c; RQ c QHeld] end ++ F) w'.
Proof.
  intros Hi. destruct (ref_state_ok c _ F w Hi) as (x & Hx & Hcx & Hs).
  pose proof (co_bound _ _ _ _ Hcx). assert (0 < ctx_ref x) by (eapply ref_ref_pos; [done|set_solver]).
  pose proof (inv_dec c _ w x Hi Hx) as Hi'. simpl. unfold launched_step, get_ctx. rewrite Hx. simpl.
  rewrite i32_small by lia. set (x1 := x <| ctx_ref := ctx_ref x - 1 |>) in *.
  assert (Hx1 : w_ctx (set_ctx c x1 w) !! c = Some x1) by (simpl; by rewrite lookup_insert_eq).
  destruct Hs as [H1 H2 H3]. destruct (ctx_ref x - 1 =? 0) eqn:E; bool_prop; simpl in Hi'.
  - eexists _, _. split; [done|]. simpl. eapply node_inv_perm; [apply Permutation_swap|].
    eapply inv_state_same; [eapply node_inv_perm; [apply Permutation_swap|exact Hi']| |].
    + intros y Hy _. simpl in Hy. rewrite lookup_insert_eq in Hy. injection Hy as <-.
      split; simpl; [rewrite H1; by split; intros [|]| |by intros [|]].
      intros _. right; right; right. intros Hin. pose proof Hi' as (_ & Hc' & _).
      pose proof (cx_ctx _ _ Hc' c x1 Hx1) as Hcx1. pose proof (slot_ref_pos _ _ _ _ Hcx1 Hin).
      simpl in *. lia.
    + intros ? ? _ [|]; done.
  - eexists _, _. split; [done|]. simpl. rewrite <- (set_ctx_twice c _ x1).
    eapply (inv_state QNew); [exact Hi'|exact Hx1|done| |].
    + split; simpl; [rewrite H1; by split; intros [|]|done|done].
    + intros ? ? _ [|]; done.
Qed.

Lemma module_sound c r F w :
  keeps c r → node_inv n (r :: F) w →
  ∃ m, step (AModule c) w = Some (m, w) ∧ node_inv n (r :: RMod m.1 :: F) w.
Proof.
  intros Hk Hi. pose proof Hi as (_ & Hc & _). destruct (keeps_live c r F w Hk Hc) as [x Hx].
  simpl. unfold on_ctx, get_ctx. rewrite Hx. simpl. eexists; split; [done|]. simpl.
  pose proof (cx_ctx _ _ Hc c x Hx) as Hcx. pose proof (co_mod _ _ _ _ Hcx) as Hm.
  eapply node_inv_perm; [apply Permutation_swap|]. by apply inv_add_mod.
Qed.
(** ** Queues *)

(** The queue of a context that is not being deleted. *)
Lemma ctx_has_queue R w c x :
  contexts R w → w_ctx w !! c = Some x → RDying c ∉ R →
  ctx_queue x = c ∧ ∃ q, mq_heap (w_mq w) !! c = Some q ∧ mq_release q = 0.
Proof.
  intros Hc Hx Hd. destruct (cx_ctx _ _ Hc c x Hx). split; [done|].
  destruct co_mq as (q & ? & _ & ?); eauto.
Qed.

(** Only queue [c] changed, and neither its handle nor its release flag. *)
Lemma queues_kept_at w w' c q q' :
  mq_heap (w_mq w) !! c = Some q → queues_of (w_mq w') = <[c := q']> (queues_of (w_mq w)) →
  mq_handle q' = mq_handle q → mq_release q' = mq_release q → queues_kept w w'.
Proof.
  intros Hq E Hh Hr p qp Hp Hrel. pose proof (queues_of_lookup _ _ _ Hp) as Hp'.
  assert (∃ q1, queues_of (w_mq w') !! p = Some q1 ∧ mq_handle q1 = mq_handle qp ∧ mq_release q1 = 0)
    as (q1 & H1 & H2 & H3).
  { rewrite E. destruct (decide (p = c)) as [->|Hne].
    - rewrite lookup_insert_eq. simplify_eq. exists q'. split_and!; congruence.
    - rewrite lookup_insert_ne, Hp' by done. exists (unlink qp). by split_and!. }
  apply queues_of_inv in H1 as (q2 & ? & ->). by exists q2.
Qed.

Lemma inv_push c x m R R' w :
  node_inv n R w → w_ctx w !! c = Some x → RDying c ∉ R →
  (∀ q, mq_heap (w_mq w) !! c = Some q → skynet_mq_length q + 1 < 2 ^ 30) →
  same_cview R R' → (∀ p, same_qview p R R') → heldq R' ++ deadq R' ≡ₚ heldq R ++ deadq R →
  deadq R' ≡ₚ deadq R → datas R ≡ₚ mdata m ++ datas R' → (∀ d sz, RRmsg d sz ∈ R' → RRmsg d sz ∈ R) →
  ∃ w', push_step c m w = Some (tt, w') ∧ node_inv n R' w'.
Proof.
  intros (Ht & Hc & [l Hq] & [I Hm]) Hx Hdy Hlen Hcv Hqv Hhd Hdd Hdat Hrm.
  destruct (ctx_has_queue R w c x Hc Hx Hdy) as (Hcq & q & Hcell & Hrel).
  pose proof (ms_repr _ _ _ Hm c) as Hh. unfold holds in Hh. rewrite Hcell in Hh.
  destruct (I !! c) as [items|] eqn:HI; [|done]. destruct Hh as (Hrep & Hlt & Hidle).
  specialize (Hlen q Hcell). rewrite (mq_repr_length _ _ Hrep) in Hlen.
  pose proof (qs_ok _ _ _ Hq c q Hcell) as Hqo. destruct (qo_sched _ _ _ _ _ Hqo) as [[_ ?]|Hsch]; [congruence|].
  destruct (skynet_mq_push_spec (w_mq w) l c (unlink q) items m)
    as (s' & q' & Hs & Eq & Hrep' & Hg & Hh' & Hr' & Hrun).
  { apply Hq. } { by apply queues_of_lookup. } { by apply mq_repr_unlink. } { lia. }
  { simpl. intros E. destruct Hsch as [(_ & [?|?] & _)|(_ & _ & Hn & _)]; [congruence..|tauto]. }
  simpl in Hg, Hh', Hr', Hrun. unfold push_step, get_ctx. rewrite Hx. cbn [mbind option_bind].
  rewrite Hcq, Hs. cbn [mbind option_bind]. eexists; split; [done|].
  assert (Hnew : ∃ q1, mq_heap s' !! c = Some q1 ∧ q' = unlink q1).
  { apply queues_of_inv. rewrite Eq. apply lookup_insert_eq. }
  destruct Hnew as (q1 & Hq1 & ->). simpl in Hg, Hh', Hr'.
  set (l' := if mq_in_global q =? 0 then l ++ [c] else l) in *.
  assert (Hl' : ∀ p, p ∈ l' ↔ p ∈ l ∨ (mq_in_global q = 0 ∧ p = c)).
  { intros p. unfold l'. case_if; set_solver. }
  split_and!; [by destruct Ht; split| |exists l'|exists (<[c := items ++ [m]]> I)].
  - eapply contexts_queues; eauto; try done. by eapply (queues_kept_at w _ c q (unlink q1)).
  - apply (queues_change c R R' w _ l l'); auto; try done.
    + destruct Hq. rewrite Hhd. unfold l'. case_if; [|done].
      rewrite <- app_assoc. simpl. rewrite <- Permutation_middle. apply NoDup_cons. split; [|done].
      destruct Hsch as [(_ & [?|?] & _)|(Hn1 & _ & Hn2 & _)]; [congruence..|]. set_solver.
    + intros p Hne. split_and!; [done|rewrite Hl'; naive_solver|]. simpl. by rewrite Eq, lookup_insert_ne.
    + intros q2 Hq2. simpl in Hq2. rewrite Hq1 in Hq2. injection Hq2 as <-. split; [|by exists q].
      destruct (Hqv c) as [V1 V2 V3 V4]. destruct Hqo. split; simpl; rewrite ?Hh', ?Hr', <- ?V1, <- ?V2, <- ?V3; auto.
      * rewrite Hg, Hl'. case_if; destruct Hsch as [(? & [?|?] & ?)|(? & ? & ? & ?)]; try congruence;
          right; left; (split; [done|]; split; [by left|]); tauto.
  - apply (messages_change c R R' w _ I); auto; try done.
    + intros p Hne. split_and!; [by rewrite Hdd| |by rewrite lookup_insert_ne]. simpl.
      by rewrite Eq, lookup_insert_ne.
    + unfold holds. simpl. rewrite Hq1, lookup_insert_eq. split_and!.
      * by rewrite mq_repr_unlink in Hrep'.
      * rewrite length_app. simpl. lia.
      * intros E. rewrite Hg in E. destruct (mq_in_global q =? 0) eqn:E0; bool_prop; [done|congruence].
    + destruct (queued_insert I c items HI) as (rest & E1 & _ & E2).
      rewrite (E2 (items ++ [m])), E1, Hdat, payloads_snoc, <- !app_assoc.
      rewrite (Permutation_app_swap_app (mdata m) rest). done.
Qed.

Lemma drop_cview G R :
  Forall droppable G → same_cview (G ++ R) R ∧ ∀ p, same_qview p (G ++ R) R.
Proof.
  intros HG. destruct (droppable_views G R HG) as (Hv & Hd & Hh & Hq & _).
  assert (Hel : ∀ c r, about c r → r ∈ G ++ R ↔ r ∈ R) by (intros c r; by apply same_view_elem).
  assert (Hst : ∀ c st, RQ c st ∈ G ++ R ↔ RQ c st ∈ R) by (intros c st; by apply (Hel c)).
  split; [split|intros p; by apply same_view_qview].
  - intros c. symmetry. by apply same_view_refcount.
  - by rewrite Hd.
  - intros c. symmetry. by apply (Hel c).
  - intros c. by rewrite !Hst.
  - intros c. unfold launching. rewrite !Hst. intros [?|[[h Hh']|?]]; auto.
    right; left. exists h. by rewrite <- Hst.
  - intros c. by rewrite !Hst.
  - intros m Hm. set_solver.
Qed.

Lemma data_of_droppable m : Forall droppable (data_of m).
Proof. unfold data_of. apply Forall_fmap, Forall_true. done. Qed.

Lemma not_dying R w c x :
  ctx_ok R w c x → 0 < ctx_ref x → RDying c ∉ R.
Proof.
  intros Hcx Hr Hd. assert (ctx_ref x = 0) by (apply (co_zero _ _ _ _ Hcx), elem_of_dels; auto). lia.
Qed.

Lemma push_sound c m F w :
  node_inv n (data_of m ++ RRef c :: F) w → ok _ (APush c m) w →
  ∃ w', step (APush c m) w = Some (tt, w') ∧ node_inv n (RRef c :: F) w'.
Proof.
  intros Hi Hok. pose proof Hi as (_ & Hc & _).
  destruct (cx_live _ _ Hc c) as [x Hx]; [left; set_solver|].
  pose proof (cx_ctx _ _ Hc c x Hx) as Hcx.
  assert (0 < ctx_ref x) by (eapply ref_ref_pos; [done|set_solver]).
  destruct (drop_cview (data_of m) (RRef c :: F) (data_of_droppable m)) as [Hcv Hqv].
  destruct (droppable_views (data_of m) (RRef c :: F) (data_of_droppable m)) as (_ & _ & Hh & Hd & _).
  eapply inv_push; eauto.
  - by eapply not_dying.
  - by rewrite Hh, Hd.
  - by rewrite Hd.
  - by rewrite datas_app, datas_data_of.
  - set_solver.
Qed.

Lemma harbor_send_sound d sz source type session F w :
  node_inv n (RRmsg d sz :: F) w → ok _ (AHarborSend d source type session) w →
  ∃ w', step (AHarborSend d source type session) w = Some (tt, w') ∧ node_inv n F w'.
Proof.
  intros Hi (c & Hrem & Hlen). pose proof Hi as (_ & Hc & _ & [I Hm]).
  destruct (cx_live _ _ Hc c) as [x Hx]; [auto|]. pose proof (cx_ctx _ _ Hc c x Hx) as Hcx.
  assert (0 < ctx_ref x).
  { destruct Hcx as [-> _ _ _ _ _ _ _ _]. pose proof (refcount_pos c (RRmsg d sz :: F)).
    unfold slotn, remoten. rewrite (decide_True (P := w_remote w = Some c)) by done. case_decide; lia. }
  destruct (drop_cview [RRmsg d sz] F) as [Hcv Hqv]; [by repeat constructor|].
  destruct (ms_live _ _ _ Hm d) as [Hd0 _]; [set_solver|].
  simpl. unfold harbor_send_step. rewrite Hrem. cbn [mbind option_bind].
  eapply inv_push; eauto; simpl.
  - by eapply not_dying.
  - unfold message_for, mdata. simpl. by rewrite (proj2 (Z.eqb_neq d 0)).
  - set_solver.
Qed.

Lemma queue_length_sound c F w :
  node_inv n (RRef c :: F) w → ∃ r, step (AQueueLength c) w = Some (r, w).
Proof.
  intros (_ & Hc & _). destruct (keeps_live c (RRef c) _ w (or_introl eq_refl) Hc) as [x Hx].
  pose proof (cx_ctx _ _ Hc c x Hx) as Hcx.
  assert (0 < ctx_ref x) by (eapply ref_ref_pos; [done|set_solver]).
  destruct (ctx_has_queue _ w c x Hc Hx) as (Hcq & q & Hq & _); [by eapply not_dying|].
  simpl. unfold get_ctx. rewrite Hx. simpl. rewrite Hcq. unfold get_queue. rewrite Hq. simpl. eauto.
Qed.

Lemma queue_of_sound c F w :
  node_inv n (RRef c :: F) w → step (AQueueOf c) w = Some (c, w).
Proof.
  intros (_ & Hc & _). destruct (keeps_live c (RRef c) _ w (or_introl eq_refl) Hc) as [x Hx].
  simpl. unfold on_ctx, get_ctx. rewrite Hx. simpl. by rewrite (co_queue _ _ _ _ (cx_ctx _ _ Hc c x Hx)).
Qed.
Lemma view_cview R R' :
  (∀ c, same_view c R R') → dels R' ≡ₚ dels R → (∀ m, RMod m ∈ R' → RMod m ∈ R) → same_cview R R'.
Proof.
  intros Hv Hd Hm. assert (Hst : ∀ c st, RQ c st ∈ R' ↔ RQ c st ∈ R)
    by (intros; symmetry; by apply (same_view_elem c)).
  split; auto.
  - intros c. symmetry. by apply same_view_refcount.
  - intros c. symmetry. by apply (same_view_elem c).
  - intros c. by rewrite !Hst.
  - intros c. unfold launching. rewrite !Hst. intros [?|[[h Hh]|?]]; auto.
    right; left. exists h. by rewrite Hst.
  - intros c. by rewrite !Hst.
Qed.

(** Receiving blocks. *)
Lemma add_data_views m R :
  same_cview R (data_of m ++ R) ∧ (∀ p, same_qview p R (data_of m ++ R))
  ∧ heldq (data_of m ++ R) = heldq R ∧ deadq (data_of m ++ R) = deadq R
  ∧ datas (data_of m ++ R) = mdata m ++ datas R ∧ ∀ d sz, RRmsg d sz ∈ data_of m ++ R → RRmsg d sz ∈ R.
Proof.
  destruct (droppable_views (data_of m) R (data_of_droppable m)) as (Hv & Hd & Hh & Hq & _).
  assert (Hel : ∀ r, r ∈ data_of m → ∃ d, r = RData d)
    by (intros r (d & -> & _)%list_elem_of_fmap; eauto).
  split_and!; auto.
  - apply view_cview; [by symmetry|by rewrite Hd|].
    intros k [H|H]%elem_of_app; [by apply Hel in H as [? ?]|done].
  - intros p. apply same_view_qview. by symmetry.
  - by rewrite datas_app, datas_data_of.
  - intros d sz [H|H]%elem_of_app; [by apply Hel in H as [? ?]|done].
Qed.

(** One queue is rewritten in place. *)
Lemma inv_queue_at q mq mq' R R' w l I items' :
  tables n w → contexts R w → queues R w l → messages R w I →
  mq_heap (w_mq w) !! q = Some mq → mq_next mq' = mq_next mq → mq_handle mq' = mq_handle mq →
  mq_release mq' = mq_release mq → same_cview R R' → (∀ p, p ≠ q → same_qview p R R') →
  NoDup (l ++ heldq R' ++ deadq R') →
  let w' := with_mq ((w_mq w) <| mq_heap := <[q := mq']> (mq_heap (w_mq w)) |>) w in
  queue_ok R' w' l q mq' →
  mq_repr mq' items' → Z.of_nat (length items') < 2 ^ 30 →
  (mq_in_global mq' = 0 → q ∉ deadq R' → items' = []) →
  queued (<[q := items']> I) ++ datas R' ⊆+ queued I ++ datas R →
  (∀ d sz, RRmsg d sz ∈ R' → RRmsg d sz ∈ R) → node_inv n R' w'.
Proof.
  intros Ht Hc Hq Hm Hmq Hn Hh Hr Hcv Hqv Hnd w' Hqo Hrep Hlen Hidle Hsub Hrm.
  assert (Eq : queues_of (w_mq w') = <[q := unlink mq']> (queues_of (w_mq w))) by apply queues_of_insert.
  assert (Hmq' : mq_heap (w_mq w') !! q = Some mq') by (simpl; by rewrite lookup_insert_eq).
  split_and!; [by destruct Ht; split| |exists l|exists (<[q := items']> I)].
  - eapply contexts_queues; eauto; try done. by eapply (queues_kept_at w w' q mq (unlink mq')).
  - apply (queues_change q R R' w w' l l); auto; try done.
    + eapply run_queue_update; eauto. apply Hq.
    + intros p Hne. split_and!; [by apply Hqv|done|]. by rewrite Eq, lookup_insert_ne.
    + intros mq1 H1. rewrite Hmq' in H1. injection H1 as <-. eauto.
  - apply (messages_change q R R' w w' I); auto; try done.
    + intros p Hne. split_and!; [by destruct (Hqv p Hne)| |by rewrite lookup_insert_ne].
      by rewrite Eq, lookup_insert_ne.
    + unfold holds. rewrite Hmq', lookup_insert_eq. auto.
Qed.

Lemma held_cell R w l I q :
  queues R w l → messages R w I → q ∈ heldq R ++ deadq R →
  ∃ mq items, mq_heap (w_mq w) !! q = Some mq ∧ I !! q = Some items ∧ mq_repr mq items
    ∧ Z.of_nat (length items) < 2 ^ 30 ∧ queue_ok R w l q mq.
Proof.
  intros Hq Hm Hin. destruct (qs_live _ _ _ Hq q Hin) as [mq Hmq]. exists mq.
  pose proof (ms_repr _ _ _ Hm q) as Hh. unfold holds in Hh. rewrite Hmq in Hh.
  destruct (I !! q) as [items|]; [|done]. exists items. destruct Hh as (? & ? & _).
  split_and!; auto. by apply (qs_ok _ _ _ Hq).
Qed.
(** States without meaning for the context: they may be given up. *)
Definition passive (st : qstate) : Prop :=
  match st with QHeld | QHandle _ | QRun => True | _ => False end.

Lemma cview_give q st F : passive st → same_cview (RQ q st :: F) F.
Proof.
  intros Hst. split; simpl; auto.
  - intros c. set_solver.
  - intros c. destruct st; set_solver.
  - intros c [H|[[h H]|H]]; apply elem_of_cons in H as [H|H]; try (by simplify_eq); unfold launching; eauto.
  - intros c. set_solver.
  - set_solver.
Qed.

Lemma qview_give p q st F : p ≠ q → same_qview p (RQ q st :: F) F.
Proof. intros Hne. split; simpl; set_solver. Qed.

(** Facts about a queue that is held. *)
Lemma held_facts q st F w l :
  queues (RQ q st :: F) w l → (q ∉ l) ∧ (q ∉ heldq F) ∧ (q ∉ deadq F) ∧ NoDup (l ++ heldq F ++ deadq F).
Proof.
  intros [_ Hnd _ _ _ _]. simpl in Hnd. rewrite <- Permutation_middle in Hnd.
  apply NoDup_cons in Hnd as [Hn Hnd]. rewrite !elem_of_app in Hn. naive_solver.
Qed.

Lemma dead_facts q F w l :
  queues (RDead q :: F) w l → (q ∉ l) ∧ (q ∉ heldq F) ∧ (q ∉ deadq F) ∧ NoDup (l ++ heldq F ++ deadq F).
Proof.
  intros [_ Hnd _ _ _ _]. simpl in Hnd. rewrite app_assoc, <- Permutation_middle, <- app_assoc in Hnd.
  apply NoDup_cons in Hnd as [Hn Hnd]. rewrite !elem_of_app in Hn. naive_solver.
Qed.

Lemma heap_ctx_release R w c x mq :
  contexts R w → w_ctx w !! c = Some x → RDying c ∉ R → mq_heap (w_mq w) !! c = Some mq →
  mq_release mq = 0.
Proof.
  intros Hc Hx Hd Hq. destruct (ctx_has_queue R w c x Hc Hx Hd) as (_ & q & H1 & H2). congruence.
Qed.

Lemma payloads_cons m items : payloads (m :: items) = mdata m ++ payloads items.
Proof. done. Qed.

Lemma pop_sound q F w :
  node_inv n (RQ q QRun :: RRef q :: F) w →
  ∃ r w', step (APop q) w = Some (r, w')
    ∧ node_inv n (match r with Some m => data_of m ++ RQ q QRun :: RRef q :: F | None => RRef q :: F end) w'.
Proof.
  intros (Ht & Hc & [l Hq] & [I Hm]).
  destruct (held_cell _ w l I q Hq Hm) as (mq & items & Hmq & HI & Hrep & Hlen & Hqo); [set_solver|].
  destruct (held_facts _ _ _ _ _ Hq) as (Hl & Hh & Hd & Hnd).
  destruct (cx_live _ _ Hc q) as [x Hx]; [left; set_solver|].
  pose proof (cx_ctx _ _ Hc q x Hx) as Hcx.
  assert (Hdy : RDying q ∉ RQ q QRun :: RRef q :: F)
    by (eapply not_dying; [done|eapply ref_ref_pos; [done|set_solver]]).
  pose proof (heap_ctx_release _ w q x mq Hc Hx Hdy Hmq) as Hrel.
  pose proof (skynet_mq_pop_spec mq items Hrep Hlen) as Hpop.
  simpl. unfold pop_step, mq_pop_at. rewrite Hmq. cbn [mbind option_bind].
  destruct items as [|m items].
  - destruct Hpop as [-> Hrep']. cbn [mbind option_bind]. eexists _, _. split; [done|].
    eapply inv_queue_at; eauto using cview_give, qview_give; try done.
    + by apply cview_give.
    + destruct Hqo. split; simpl; auto.
      * left. split_and!; [done|by rewrite Hx|set_solver].
      * right; right. split_and!; auto. set_solver.
      * intros h Hin. apply qo_handle. set_solver.
    + by rewrite insert_id.
    + set_solver.
  - destruct Hpop as (mq' & -> & Hrep' & Hg & Hn & Hh' & Hr' & _ & _). cbn [mbind option_bind].
    eexists _, _. split; [done|].
    destruct (add_data_views m (RQ q QRun :: RRef q :: F)) as (A1 & A2 & A3 & A4 & A5 & A6).
    simpl length in Hlen. eapply inv_queue_at; eauto; try done.
    + rewrite A3, A4. apply Hq.
    + eapply queue_ok_view; [apply A2| |exact Hqo]. split; auto; simpl; lia.
    + lia.
    + rewrite A4, Hg. intros E. destruct (qo_sched _ _ _ _ _ Hqo) as [[H1 _]|[(_ & [H1|H1] & _)|(_ & _ & H1 & _)]];
        [simpl in H1; set_solver|congruence|congruence|simpl in H1; set_solver].
    + destruct (queued_insert I q _ HI) as (rest & E1 & _ & E2).
      rewrite (E2 items), E1, A5, payloads_cons, <- !app_assoc.
      rewrite (Permutation_app_swap_app rest (mdata m)), (Permutation_app_swap_app (payloads items)). done.
Qed.
Lemma cview_refl R : same_cview R R.
Proof. by split. Qed.

Lemma pop_dead_sound q F w :
  node_inv n (RDead q :: F) w →
  ∃ r w', step (APop q) w = Some (r, w')
    ∧ node_inv n (match r with Some m => data_of m ++ RDead q :: F | None => RDead q :: F end) w'.
Proof.
  intros (Ht & Hc & [l Hq] & [I Hm]).
  destruct (held_cell _ w l I q Hq Hm) as (mq & items & Hmq & HI & Hrep & Hlen & Hqo); [set_solver|].
  assert (Hin : q ∈ deadq (RDead q :: F)) by set_solver.
  pose proof (skynet_mq_pop_spec mq items Hrep Hlen) as Hpop.
  simpl. unfold pop_step, mq_pop_at. rewrite Hmq. cbn [mbind option_bind].
  destruct items as [|m items].
  - destruct Hpop as [-> Hrep']. cbn [mbind option_bind]. eexists _, _. split; [done|].
    eapply inv_queue_at; eauto using cview_refl; try done.
    + apply Hq.
    + destruct Hqo. split; simpl; auto. destruct qo_sched as [?|[(?&_)|(?&_)]]; auto; done.
    + by rewrite insert_id.
  - destruct Hpop as (mq' & -> & Hrep' & Hg & Hn & Hh' & Hr' & _ & _). cbn [mbind option_bind].
    eexists _, _. split; [done|].
    destruct (add_data_views m (RDead q :: F)) as (A1 & A2 & A3 & A4 & A5 & A6).
    simpl length in Hlen. eapply inv_queue_at; eauto; try done.
    + rewrite A3, A4. apply Hq.
    + eapply queue_ok_view; [apply A2| |exact Hqo]. split; auto; simpl; lia.
    + lia.
    + rewrite A4. done.
    + destruct (queued_insert I q _ HI) as (rest & E1 & _ & E2).
      rewrite (E2 items), E1, A5, payloads_cons, <- !app_assoc.
      rewrite (Permutation_app_swap_app rest (mdata m)), (Permutation_app_swap_app (payloads items)). done.
Qed.

Lemma overload_sound q F w :
  node_inv n (RQ q QRun :: F) w →
  ∃ r w', step (AOverload q) w = Some (r, w') ∧ node_inv n (RQ q QRun :: F) w'.
Proof.
  intros (Ht & Hc & [l Hq] & [I Hm]).
  destruct (held_cell _ w l I q Hq Hm) as (mq & items & Hmq & HI & Hrep & Hlen & Hqo); [set_solver|].
  pose proof (ms_repr _ _ _ Hm q) as Hh. unfold holds in Hh. rewrite Hmq, HI in Hh. destruct Hh as (_ & _ & Hid).
  simpl. unfold overload_step, get_queue. rewrite Hmq. cbn [mbind option_bind].
  assert (∃ ov, skynet_mq_overload mq = (mq_overload mq, mq <| mq_overload := ov |>)
          ∨ skynet_mq_overload mq = (0, mq <| mq_overload := ov |>)) as [ov Hov].
  { unfold skynet_mq_overload. case_if; [by exists 0; left|]. exists (mq_overload mq). right. by destruct mq. }
  destruct Hov as [-> | ->]; cbn [mbind option_bind]; eexists _, _; (split; [done|]);
    (eapply inv_queue_at; eauto using cview_refl; try done;
      [apply Hq|by destruct Hqo; split|by destruct Hrep; split|by rewrite insert_id]).
Qed.

Lemma length_sound q F w : node_inv n (RQ q QRun :: F) w → ∃ r, step (ALength q) w = Some (r, w).
Proof.
  intros (_ & _ & [l Hq] & _). destruct (held_queue _ _ _ _ _ Hq) as (mq & Hmq & _).
  simpl. unfold get_queue. rewrite Hmq. simpl. eauto.
Qed.

Lemma qhandle_sound q F w :
  node_inv n (RQ q QHeld :: F) w →
  ∃ h, step (AQHandle q) w = Some (h, w) ∧ 0 < h ∧ node_inv n (RQ q (QHandle h) :: F) w.
Proof.
  intros Hi. pose proof Hi as (_ & _ & [l Hq] & _). destruct (held_queue _ _ _ _ _ Hq) as (mq & Hmq & _).
  simpl. unfold get_queue. rewrite Hmq. simpl. eexists; split; [done|].
  split; [by apply (qo_range _ _ _ _ _ (qs_ok _ _ _ Hq _ _ Hmq))|]. eapply inv_state_same; [done|..].
  - intros x _. by apply state_ok_neutral.
  - intros mq' h' Hmq' [[= <-]|]; [congruence|done].
Qed.
(** ** The global queue *)

(** Only the links of the queues changed; [q] enters or leaves the run queue. *)
Lemma inv_relink q R R' w s' l l' I :
  tables n w → contexts R w → queues R w l → messages R w I →
  run_queue s' l' → queues_of s' = queues_of (w_mq w) → same_cview R R' →
  NoDup (l' ++ heldq R' ++ deadq R') →
  (∀ p, p ≠ q → same_qview p R R' ∧ (p ∈ l ↔ p ∈ l')) →
  (∃ mq, mq_heap (w_mq w) !! q = Some mq ∧
     (∀ mq', unlink mq' = unlink mq → queue_ok R' (with_mq s' w) l' q mq') ∧
     (mq_in_global mq = 0 → q ∉ deadq R' → q ∉ deadq R)) →
  datas R' = datas R → (∀ d sz, RRmsg d sz ∈ R' → RRmsg d sz ∈ R) →
  node_inv n R' (with_mq s' w).
Proof.
  intros Ht Hc Hq Hm Hrun Eq Hcv Hnd Ho (mq & Hmq & Hok & Hid) Hdat Hrm.
  assert (Hnew : ∃ mq1, mq_heap s' !! q = Some mq1 ∧ unlink mq1 = unlink mq).
  { pose proof (queues_of_lookup _ _ _ Hmq) as E. rewrite <- Eq in E.
    by apply queues_of_inv in E as (mq1 & ? & ?); exists mq1. }
  destruct Hnew as (mq1 & Hmq1 & Hu).
  split_and!; [by destruct Ht; split| |exists l'|exists I].
  - eapply contexts_queues; eauto; try done.
    apply (queues_kept_at w _ q mq (unlink mq)); auto. simpl. rewrite Eq. symmetry. apply insert_id.
    by apply queues_of_lookup.
  - apply (queues_change q R R' w _ l l'); auto; try done.
    + intros p Hne. destruct (Ho p Hne). split_and!; auto. simpl. by rewrite Eq.
    + intros mq2 H2. simpl in H2. rewrite Hmq1 in H2. injection H2 as <-. split; [auto|].
      exists mq. split; [done|]. by apply (f_equal mq_handle) in Hu.
  - apply (messages_change q R R' w _ I); auto; try done.
    + intros p Hne. destruct (Ho p Hne) as [[_ _ Hd _] _]. split_and!; auto. simpl. by rewrite Eq.
    + pose proof (ms_repr _ _ _ Hm q) as Hh. unfold holds in *. simpl. rewrite Hmq in Hh. rewrite Hmq1.
      destruct (I !! q); [|done]. destruct Hh as (H1 & H2 & H3).
      pose proof (f_equal mq_in_global Hu) as E. simpl in E. rewrite E. split_and!; auto.
      apply mq_repr_unlink. rewrite Hu. by apply mq_repr_unlink.
    + by rewrite Hdat.
Qed.

(** [queue_ok] does not read the link. *)
Lemma queue_ok_unlink R w l p q q' : unlink q' = unlink q → queue_ok R w l p q → queue_ok R w l p q'.
Proof.
  intros Hu []. pose proof (f_equal mq_in_global Hu) as E1. pose proof (f_equal mq_release Hu) as E2.
  pose proof (f_equal mq_handle Hu) as E3. simpl in *.
  split; rewrite ?E1, ?E2, ?E3; auto.
Qed.

Lemma gpush_sound q st F w :
  st = QHeld ∨ st = QRun → node_inv n (RQ q st :: F) w →
  ∃ w', step (AGlobalPush q) w = Some (tt, w') ∧ node_inv n F w'.
Proof.
  intros Hst (Ht & Hc & [l Hq] & [I Hm]).
  destruct (held_cell _ w l I q Hq Hm) as (mq & items & Hmq & HI & Hrep & Hlen & Hqo); [set_solver|].
  destruct (held_facts _ _ _ _ _ Hq) as (Hl & Hh & Hd & Hnd).
  destruct (skynet_globalmq_push_spec (w_mq w) l q) as (s' & Hs & Hrun & Eq); [apply Hq|eauto|done|].
  simpl. rewrite Hs. simpl. eexists; split; [done|].
  eapply (inv_relink q _ F w s' l (l ++ [q]) I); eauto; try done.
  - apply cview_give. by destruct Hst; subst.
  - rewrite <- app_assoc. simpl. rewrite <- Permutation_middle. apply NoDup_cons. split; [set_solver|done].
  - intros p Hne. split; [by apply qview_give|set_solver].
  - exists mq. split; [done|]. split; [|done]. intros mq' Hu. eapply queue_ok_unlink; [done|].
    destruct Hqo. split; auto.
    + destruct qo_release as [(?&?&?)|(?&[?|?])]; [left|right|right]; split_and!; auto; set_solver.
    + destruct qo_sched as [(?&_)|[(_&?&_)|(_&_&H&_)]]; [done|right; left|simpl in H; set_solver].
      split_and!; auto. left. set_solver.
    + intros h Hin. apply qo_handle. set_solver.
  - set_solver.
Qed.

Lemma gpop_sound F w :
  node_inv n F w → ∃ r w', step AGlobalPop w = Some (r, w') ∧ node_inv n (queue_of r ++ F) w'.
Proof.
  intros (Ht & Hc & [l Hq] & [I Hm]).
  destruct (skynet_globalmq_pop_spec (w_mq w) l) as (s' & Hs & Hrun & Eq); [apply Hq|].
  simpl. rewrite Hs. simpl. eexists _, _. split; [done|].
  destruct l as [|q l]; simpl in *.
  - assert (s' = w_mq w) as ->.
    { unfold skynet_globalmq_pop in Hs. destruct Hq as [[Hseg _ _ _] _ _ _ _ _]. simpl in Hseg.
      rewrite Hseg in Hs. by simplify_eq. }
    assert (with_mq (w_mq w) w = w) as -> by by destruct w. by split_and!; eauto.
  - destruct (run_queue_live _ _ q (qs_run _ _ _ Hq)) as [mq Hmq]; [set_solver|].
    pose proof (qs_ok _ _ _ Hq q mq Hmq) as Hqo. pose proof (qs_nodup _ _ _ Hq) as Hnd.
    simpl in Hnd. apply NoDup_cons in Hnd as [Hn Hnd]. rewrite !elem_of_app in Hn.
    eapply (inv_relink q F _ w s' (q :: l) l I); eauto; try done.
    + split; simpl; auto.
      * intros c. set_solver.
      * intros c. set_solver.
      * intros c [H|[[h H]|H]]; unfold launching; set_solver.
      * intros c. set_solver.
      * set_solver.
    + simpl. rewrite <- Permutation_middle. apply NoDup_cons. split; [set_solver|done].
    + intros p Hne. split; [|set_solver]. split; simpl; set_solver.
    + exists mq. split; [done|]. split; [|done]. intros mq' Hu. eapply queue_ok_unlink; [done|].
      destruct Hqo. split; auto.
      * destruct qo_release as [(?&?&?)|(?&[?|?])]; [left|right|right]; split_and!; auto; set_solver.
      * destruct qo_sched as [(?&_)|[(?&?&_)|(_&_&H&_)]]; [tauto|right; left|set_solver].
        split_and!; auto. right. simpl. set_solver.
      * intros h Hin. apply qo_handle. set_solver.
    + set_solver.
Qed.
Lemma gpop_run_sound q F w :
  node_inv n (RQ q QRun :: F) w →
  ∃ r w', step AGlobalPop w = Some (r, w') ∧ node_inv n (RQ q QHeld :: queue_of r ++ F) w'.
Proof.
  intros Hi. destruct (gpop_sound _ w Hi) as (r & w' & Hs & Hi'). exists r, w'. split; [done|].
  eapply (inv_state_same QRun).
  - eapply node_inv_perm; [symmetry; apply Permutation_middle|done].
  - intros x _. apply state_ok_unrun.
  - intros ? ? _ [|]; done.
Qed.

Lemma with_mq_id w : with_mq (w_mq w) w = w.
Proof. by destruct w. Qed.

(** ** The end of a queue *)

Lemma release_test_sound q F w :
  node_inv n (RQ q QHeld :: F) w →
  ∃ b w', step (AReleaseTest q) w = Some (b, w')
    ∧ node_inv n ((if b : bool then [RDead q] else []) ++ F) w'.
Proof.
  intros Hi. pose proof Hi as (Ht & Hc & [l Hq] & [I Hm]).
  destruct (held_cell _ w l I q Hq Hm) as (mq & items & Hmq & HI & Hrep & Hlen & Hqo); [set_solver|].
  destruct (held_facts _ _ _ _ _ Hq) as (Hl & Hh & Hd & Hnd).
  simpl. unfold release_test_step, get_queue. rewrite Hmq. cbn [mbind option_bind].
  unfold c_true. destruct (mq_release mq =? 0) eqn:E; bool_prop; simpl negb; cbn iota.
  - destruct (gpush_sound q QHeld F w (or_introl eq_refl) Hi) as (w' & Hs & Hi'). simpl in Hs.
    destruct (skynet_globalmq_push q (w_mq w)); simpl in *; [|done]. simplify_eq. by eexists _, _.
  - assert (Hrel : mq_release mq = 1) by (destruct (qo_release _ _ _ _ _ Hqo) as [(?&_)|(?&_)]; [lia|done]).
    eexists _, _. split; [done|]. simpl. rewrite <- (with_mq_id w).
    eapply (inv_relink q (RQ q QHeld :: F) _ w (w_mq w) l l I); eauto; try done.
    + apply Hq.
    + split; simpl; auto.
      * intros c. set_solver.
      * intros c. set_solver.
      * intros c [H|[[h H]|H]]; unfold launching; set_solver.
      * intros c. set_solver.
      * set_solver.
    + simpl. rewrite app_assoc, <- Permutation_middle, <- app_assoc. apply NoDup_cons. split; [set_solver|done].
    + intros p Hne. split; [|done]. split; simpl; set_solver.
    + exists mq. split; [done|]. split; [|simpl; set_solver]. intros mq' Hu.
      eapply queue_ok_unlink; [done|]. rewrite with_mq_id. destruct Hqo. split; auto.
      * right. split; [done|]. destruct qo_release as [(?&_)|(_&[?|?])]; [congruence|by left|right; set_solver].
      * left. split; [|done]. simpl. set_solver.
      * intros h Hin. apply qo_handle. set_solver.
    + set_solver.
Qed.

Lemma run_queue_delete s l q :
  run_queue s l → q ∉ l → run_queue (s <| mq_heap := delete q (mq_heap s) |>) l.
Proof.
  intros [Hseg Hnd Htl Hoff] Hq. split; simpl; auto.
  - clear Hnd Htl Hoff. revert Hq Hseg. generalize (Q_head s). induction l as [|p l IH]; intros o Hq; simpl; [done|].
    intros [-> (mq & Hmq & Hl)]. split; [done|]. exists mq. apply not_elem_of_cons in Hq as [Hne Hq].
    rewrite lookup_delete_ne by done. auto.
  - intros p mq [_ Hp]%lookup_delete_Some. eauto.
Qed.

Lemma free_queue_sound q F w :
  node_inv n (RDead q :: F) w → ∃ w', step (AFreeQueue q) w = Some (tt, w') ∧ node_inv n F w'.
Proof.
  intros (Ht & Hc & [l Hq] & [I Hm]).
  destruct (held_cell _ w l I q Hq Hm) as (mq & items & Hmq & HI & Hrep & Hlen & Hqo); [set_solver|].
  destruct (dead_facts _ _ _ _ Hq) as (Hl & Hh & Hd & Hnd).
  assert (Hrel : mq_release mq = 1).
  { destruct (qo_sched _ _ _ _ _ Hqo) as [[_ ?]|[(H&_)|(H&_)]]; [done|simpl in H; set_solver..]. }
  simpl. unfold _release. rewrite Hmq. simpl.
  rewrite bool_decide_eq_true_2 by (by eapply (rq_off _ _ (qs_run _ _ _ Hq))). simpl.
  eexists; split; [done|].
  assert (Hcv : same_cview (RDead q :: F) F).
  { split; simpl; auto; intros c.
    - set_solver.
    - set_solver.
    - intros [H|[[h H]|H]]; unfold launching; set_solver.
    - set_solver.
    - set_solver. }
  split_and!; [by destruct Ht; split| |exists l|exists (delete q I)].
  - eapply contexts_queues; eauto; try done. intros p mqp Hp Hr. simpl.
    rewrite lookup_delete_ne by (intros ->; congruence). eauto.
  - apply (queues_change q (RDead q :: F) F w _ l l); auto; try done.
    + by apply run_queue_delete; [apply Hq|].
    + intros p Hne. split_and!; [split; simpl; set_solver|done|]. unfold queues_of. simpl.
      by rewrite !lookup_fmap, lookup_delete_ne.
    + intros Hin. apply elem_of_app in Hin. tauto.
    + intros q'. simpl. by rewrite lookup_delete_eq.
  - apply (messages_change q (RDead q :: F) F w _ I); auto; try done.
    + intros p Hne. split_and!; [simpl; set_solver| |by rewrite lookup_delete_ne]. unfold queues_of. simpl.
      by rewrite !lookup_fmap, lookup_delete_ne.
    + unfold holds. simpl. by rewrite !lookup_delete_eq.
    + destruct (queued_insert I q _ HI) as (rest & E1 & E2 & _). rewrite E1, E2. simpl.
      rewrite <- app_assoc. by apply submseteq_inserts_l.
    + set_solver.
Qed.

Lemma mark_sound c F w :
  node_inv n (RDel c :: F) w →
  ∃ w', step (AMarkRelease c) w = Some (tt, w') ∧ node_inv n (RDying c :: F) w'.
Proof.
  intros (Ht & Hc & [l Hq] & [I Hm]).
  destruct (keeps_live c (RDel c) F w (or_intror eq_refl) Hc) as [x Hx].
  pose proof (cx_ctx _ _ Hc c x Hx) as Hcx. pose proof (cx_dels _ _ Hc) as Hnd. simpl in Hnd.
  apply NoDup_cons in Hnd as [Hnotdel Hnd]. rewrite elem_of_dels in Hnotdel.
  destruct (ctx_has_queue _ w c x Hc Hx) as (Hcq & q & Hcell & Hrel); [set_solver|].
  pose proof (qs_ok _ _ _ Hq c q Hcell) as Hqo. pose proof (qo_sched _ _ _ _ _ Hqo) as Hsch. simpl in Hsch.
  destruct (skynet_mq_mark_release_spec (w_mq w) l c (unlink q)) as (s' & Hs & Eq & Hrun).
  { apply Hq. } { by apply queues_of_lookup. } { done. }
  { simpl. unfold MQ_IN_GLOBAL. intros E. destruct Hsch as [[_ ?]|[(_&[?|?]&_)|(_&_&?&_)]]; try congruence. tauto. }
  simpl. unfold get_ctx. rewrite Hx. cbn [mbind option_bind]. rewrite Hcq, Hs. cbn [mbind option_bind].
  eexists; split; [done|]. simpl in Hrun. set (l' := if _ =? _ then l else l ++ [c]) in *.
  assert (Hl' : ∀ p, p ∈ l' ↔ p ∈ l ∨ (mq_in_global q ≠ 1 ∧ p = c)).
  { intros p. unfold l', MQ_IN_GLOBAL. case_if; set_solver. }
  assert (Hnew : ∃ q1, mq_heap s' !! c = Some q1 ∧ (unlink q) <| mq_release := 1 |> = unlink q1).
  { apply queues_of_inv. rewrite Eq. apply lookup_insert_eq. }
  destruct Hnew as (q1 & Hq1 & Hu). pose proof (f_equal mq_release Hu) as E1.
  pose proof (f_equal mq_handle Hu) as E2. pose proof (f_equal mq_in_global Hu) as E3. simpl in E1, E2, E3.
  split_and!; [by destruct Ht; split| |exists l'|exists I].
  - apply (contexts_change c (RDel c :: F) _ w); auto; try done.
    + intros c' Hne. split_and!; [done|apply (same_view_other c' [RDel c] [RDying c]); not_about|].
      split; simpl; auto. intros q2 Hq2 Hr2. pose proof (queues_of_lookup _ _ _ Hq2) as H2.
      assert (queues_of s' !! c' = Some (unlink q2)) as H3 by (rewrite Eq, lookup_insert_ne; done). clear H2.
      apply queues_of_inv in H3 as (q3 & H3 & Hu3). exists q3. split; [done|].
      apply (f_equal mq_handle) in Hu3 as Ha. apply (f_equal mq_release) in Hu3 as Hb. simpl in *. split; congruence.
    + apply Hc.
    + intros y Hy. simpl in Hy. rewrite Hx in Hy. injection Hy as <-. destruct Hcx. split; simpl in *; auto.
      * rewrite co_calling. set_solver.
      * intros H. destruct (co_init H) as [[H1|[[h H1]|H1]]|H1]; [left|left|left|by right]; unfold launching; set_solver.
      * intros H. apply co_run. set_solver.
      * intros H. set_solver.
    + simpl. apply NoDup_cons. by rewrite elem_of_dels.
    + set_solver.
  - apply (queues_change c (RDel c :: F) _ w _ l l'); auto; try done.
    + unfold l', MQ_IN_GLOBAL. simpl. case_if; [apply Hq|].
      rewrite <- app_assoc. simpl. rewrite <- Permutation_middle. apply NoDup_cons. split; [|apply Hq].
      destruct Hsch as [[_ ?]|[(_&[?|?]&_)|(?&_&?&_)]]; try congruence. set_solver.
    + intros p Hne. split_and!; [split; simpl; set_solver|rewrite Hl'; naive_solver|].
      simpl. by rewrite Eq, lookup_insert_ne.
    + intros q2 Hq2. simpl in Hq2. rewrite Hq1 in Hq2. injection Hq2 as <-. split; [|exists q; split; [done|congruence]].
      destruct Hqo. split; simpl; rewrite <- ?E1, <- ?E2, <- ?E3; auto.
      * right. split; [done|]. right. set_solver.
      * rewrite Hl'. right; left.
        destruct Hsch as [[_ ?]|[(?&[?|?]&?)|(?&?&?&_)]]; try congruence; split_and!; auto; [tauto|].
        left. right. split; [lia|done].
      * intros h Hin. apply qo_handle. set_solver.
  - apply (messages_change c (RDel c :: F) _ w _ I); auto; try done.
    + intros p Hne. split_and!; [done| |done]. simpl. by rewrite Eq, lookup_insert_ne.
    + pose proof (ms_repr _ _ _ Hm c) as Hh. unfold holds in *. simpl. rewrite Hcell in Hh. rewrite Hq1, <- E3.
      destruct (I !! c); [|done]. destruct Hh as (H1 & H2 & H3). split_and!; auto.
      apply mq_repr_unlink. rewrite <- Hu. destruct H1. by split.
    + set_solver.
Qed.

End sound.
