(* ===== verification/NodeAct.v ===== *)
(** * Soundness of the action specifications

    The actions that free a context, publish a new one, manage message blocks,
    the harbor service and the modules; and [action_sound], which says that every
    specification of [aspec] is met by the action: from a state in the
    invariant it is defined, and the invariant holds afterwards. *)

From stdpp Require Import prelude list gmap list_numbers strings.
From S2P Require Import Prelude Skynet MQ Handle Timer Module CString Prog Node NodeInv NodeSound.

Section sound.
Context (dlopen : cstring → option Z) (dlsym : Z → cstring → option Z) (n : Z).

Abbreviation step a w := (astep dlopen dlsym _ a w).

(** ** Contexts *)

Lemma dying_facts c F w x :
  contexts (RDying c :: F) w → w_ctx w !! c = Some x →
  (Some c ∉ h_slot (w_hs w)) ∧ w_remote w ≠ Some c ∧ (RRef c ∉ F) ∧ (c ∉ dels F).
Proof.
  intros Hc Hx. pose proof (cx_ctx _ _ Hc c x Hx) as Hcx. pose proof (cx_dels _ _ Hc) as Hnd.
  simpl in Hnd. apply NoDup_cons in Hnd as [Hnot _].
  assert (Hz : ctx_ref x = 0) by (apply (co_zero _ _ _ _ Hcx); set_solver).
  rewrite (co_ref _ _ _ _ Hcx) in Hz. unfold slotn, remoten in Hz. simpl in Hz.
  pose proof (refcount_pos c F). rewrite <- refcount_elem.
  repeat case_decide; split_and!; auto; lia.
Qed.

Lemma free_context_sound c F w :
  node_inv n (RDying c :: F) w → ∃ w', step (AFreeContext c) w = Some (tt, w') ∧ node_inv n F w'.
Proof.
  intros (Ht & Hc & [l Hq] & [I Hm]).
  destruct (cx_live _ _ Hc c) as [x Hx]; [set_solver|].
  destruct (dying_facts c F w x Hc Hx) as (Hs & Hr & Href & Hd).
  simpl. unfold get_ctx. rewrite Hx. simpl. eexists; split; [done|].
  split_and!; [by destruct Ht; split| |exists l|exists I].
  - apply (contexts_change c (RDying c :: F) F w); auto; try done.
    + intros c' Hne. split_and!; [simpl; by rewrite lookup_delete_ne|
        apply (same_view_other c' [RDying c] []); not_about|split; simpl; eauto].
    + simpl. eapply slots_wf_ext; [|apply Hc]. intros c' Hin. symmetry. apply hof_eq. simpl.
      apply lookup_delete_ne. by intros ->.
    + simpl. tauto.
    + intros y. simpl. by rewrite lookup_delete_eq.
    + pose proof (cx_dels _ _ Hc) as H. simpl in H. by apply NoDup_cons in H as [_ ?].
    + set_solver.
  - apply (queues_change c (RDying c :: F) F w _ l l); auto; try done; try apply Hq.
    + intros p Hne. split_and!; [split; simpl; set_solver|done|done].
    + intros q Hcell. simpl in Hcell. split; [|by exists q].
      destruct (qs_ok _ _ _ Hq c q Hcell). split; simpl in *; auto.
      * right. split; [|left; by rewrite lookup_delete_eq].
        destruct qo_release as [(_&_&H)|[? _]]; [set_solver|done].
      * intros h H. apply qo_handle. set_solver.
    + intros p Hne. simpl. by rewrite lookup_delete_ne.
  - eapply messages_frame; eauto; try done. set_solver.
Qed.

(** ** Message blocks *)

Lemma inv_mem G G' F w m k :
  node_inv n (G ++ F) w → Forall droppable G → Forall droppable G' →
  (∀ i, RMod i ∈ G' → RMod i ∈ G) →
  (∀ I, messages (G ++ F) w I → messages (G' ++ F) (w <| w_mem := m |> <| w_next_data := k |>) I) →
  node_inv n (G' ++ F) (w <| w_mem := m |> <| w_next_data := k |>).
Proof.
  intros (Ht & Hc & [l Hq] & [I Hm]) HG HG' Hmod Hmsg.
  destruct (droppable_views G F HG) as (Hv & Hd & Hh & Hdq & _).
  destruct (droppable_views G' F HG') as (Hv' & Hd' & Hh' & Hdq' & _).
  assert (Hvw : ∀ c, same_view c (G ++ F) (G' ++ F)) by (intros c; rewrite Hv, Hv'; done).
  split_and!; [by destruct Ht; split| |exists l|exists I; auto].
  - eapply contexts_frame; eauto using queues_kept_refl, same_slots_refl; [by rewrite Hd, Hd'|].
    intros i. rewrite !elem_of_app. naive_solver.
  - eapply queues_frame; eauto using same_dom_refl, same_view_qview. by rewrite Hh, Hdq, Hh', Hdq'.
Qed.

Lemma holds_same R R' w w' p items :
  w_mq w' = w_mq w → deadq R' = deadq R → holds R w p items → holds R' w' p items.
Proof. intros E1 E2. unfold holds. by rewrite E1, E2. Qed.

(** The resource for a fresh block with contents [b]. *)
Definition block_res (d : Z) (b : block) : res :=
  match b with Bytes _ => RData d | Rmsg _ _ _ sz => RRmsg d sz end.

Lemma alloc_sound b F w :
  node_inv n F w → ∃ d w', step (AAlloc b) w = Some (d, w') ∧ d ≠ 0 ∧ node_inv n (block_res d b :: F) w'.
Proof.
  intros Hi. simpl. unfold alloc_step. do 2 eexists. split; [done|].
  assert (Hd : w_next_data w ≠ 0) by (destruct Hi as (_ & _ & _ & [I []]); lia).
  split; [done|]. apply (inv_mem [] [_] F); auto;
    [destruct b; by repeat constructor|destruct b; set_solver|].
  intros I []. set (d := w_next_data w) in *.
  assert (Hfr : d ∉ queued I ++ datas F).
  { intros H. destruct (ms_live d H) as [_ [b' Hb]]. rewrite (proj2 ms_fresh d) in Hb by lia. done. }
  assert (Hds : datas (block_res d b :: F) = d :: datas F) by by destruct b.
  simpl app. split.
  - intros p. eapply holds_same; [done| |apply ms_repr]. by destruct b.
  - rewrite Hds, <- Permutation_middle. by apply NoDup_cons.
  - intros e. rewrite Hds, <- Permutation_middle, elem_of_cons. simpl.
    destruct (decide (e = d)) as [->|Hne]; [rewrite lookup_insert_eq; eauto|].
    rewrite lookup_insert_ne by done. naive_solver.
  - intros e sz H. simpl. rewrite elem_of_cons in H. destruct H as [H|H].
    + destruct b; simplify_eq/=. rewrite lookup_insert_eq. eauto.
    + rewrite lookup_insert_ne; eauto. intros <-. apply Hfr. rewrite elem_of_app, elem_of_datas. eauto.
  - simpl. split; [lia|]. intros e He. rewrite lookup_insert_ne by lia. apply ms_fresh. lia.
Qed.

Lemma free_sound d F w :
  node_inv n ((if d =? 0 then [] else [RData d]) ++ F) w →
  ∃ w', step (AFree d) w = Some (tt, w') ∧ node_inv n F w'.
Proof.
  intros Hi. simpl. unfold free_step. destruct (d =? 0) eqn:E; [eauto|].
  destruct Hi as (Ht & Hc & Hq & [I Hm]).
  destruct (ms_live _ _ _ Hm d) as [Hd [b Hb]]; [set_solver|]. rewrite Hb. simpl.
  eexists; split; [done|].
  cut (node_inv n F (w <| w_mem := delete d (w_mem w) |> <| w_next_data := w_next_data w |>)); [by destruct w|].
  apply (inv_mem [RData d] [] F); [by split_and!; eauto|by repeat constructor|done|set_solver|].
  clear I Hm. intros I []. simpl app in *. simpl datas in *.
  rewrite <- Permutation_middle in ms_nodup. apply NoDup_cons in ms_nodup as [Hnot Hnd].
  split; simpl; auto.
  - intros e He. rewrite lookup_delete_ne by (by intros ->). apply ms_live. set_solver.
  - intros e sz He. rewrite lookup_delete_ne; [apply ms_rmsg; set_solver|].
    intros ->. apply Hnot. rewrite elem_of_app, elem_of_datas. eauto.
  - split; [apply ms_fresh|]. intros e He. rewrite lookup_delete_None. right. by apply ms_fresh.
Qed.

Lemma rmsg_type_sound d sz F w :
  node_inv n (RRmsg d sz :: F) w →
  ∃ w', step (ARmsgType d) w = Some (Z.shiftr sz MESSAGE_TYPE_SHIFT, w')
    ∧ node_inv n (RRmsg d (Z.land sz MESSAGE_TYPE_MASK) :: F) w'.
Proof.
  intros Hi. destruct Hi as (Ht & Hc & Hq & [I Hm]).
  destruct (ms_rmsg _ _ _ Hm d sz) as (nm & h & m & Hb); [set_solver|].
  simpl. unfold rmsg_type_step. rewrite Hb. cbn [mbind option_bind]. eexists; split; [done|].
  set (b := Rmsg _ _ _ _).
  cut (node_inv n (RRmsg d (Z.land sz MESSAGE_TYPE_MASK) :: F)
         (w <| w_mem := <[d := b]> (w_mem w) |> <| w_next_data := w_next_data w |>)); [by destruct w|].
  apply (inv_mem [RRmsg d sz] [RRmsg d _] F);
    [by split_and!; eauto|by repeat constructor|by repeat constructor|set_solver|].
  clear I Hm. intros I []. simpl app in *. simpl datas in *.
  assert (Hnot : d ∉ queued I ++ datas F).
  { rewrite <- Permutation_middle in ms_nodup. by apply NoDup_cons in ms_nodup as [? _]. }
  split; simpl; auto.
  - intros e He. destruct (decide (e = d)) as [->|Hne]; [rewrite lookup_insert_eq|rewrite lookup_insert_ne by done; auto].
    split; [by apply (ms_live d He)|eauto].
  - intros e sz' [[= -> ->]|He]%elem_of_cons; [rewrite lookup_insert_eq; eauto|].
    rewrite lookup_insert_ne; [apply ms_rmsg; set_solver|].
    intros ->. apply Hnot. rewrite elem_of_app, elem_of_datas. eauto.
  - split; [apply ms_fresh|]. intros e He. rewrite lookup_insert_ne; [by apply ms_fresh|].
    intros ->. rewrite (proj2 ms_fresh) in Hb by done. done.
Qed.

(** ** The harbor service *)

Lemma set_remote_sound c F w :
  node_inv n (RRef c :: F) w → w_remote w = None →
  ∃ w', step (ASetRemote c) w = Some (tt, w') ∧ node_inv n F w'.
Proof.
  intros (Ht & Hc & [l Hq] & [I Hm]) Hr. simpl. eexists; split; [done|].
  destruct (cx_live _ _ Hc c) as [x Hx]; [set_solver|].
  split_and!; [by destruct Ht; split| |exists l|exists I].
  - apply (contexts_change c (RRef c :: F) F w); auto; try done.
    + intros c' Hne. split_and!; [done|apply (same_view_other c' [RRef c] []); not_about|].
      split; simpl; eauto. rewrite Hr. naive_solver.
    + apply Hc.
    + intros y Hy. simpl in Hy. rewrite Hx in Hy. injection Hy as <-.
      destruct (cx_ctx _ _ Hc c x Hx). split; simpl in *; auto.
      * rewrite co_ref. unfold slotn, remoten. simpl. rewrite Hr.
        repeat case_decide; simplify_eq; lia.
      * rewrite co_calling. set_solver.
      * intros H. destruct (co_init H) as [[?|[[h ?]|?]]|?]; auto; left; unfold launching; set_solver.
      * intros H. apply co_run. set_solver.
      * intros H. apply co_mq. set_solver.
    + apply Hc.
    + set_solver.
  - eapply (queues_frame (RRef c :: F) F w); eauto using same_dom_refl.
    intros p. split; simpl; set_solver.
  - eapply messages_frame; eauto; try done. set_solver.
Qed.

Lemma clear_remote_sound F w :
  node_inv n F w →
  ∃ w', step AClearRemote w = Some (w_remote w, w') ∧ node_inv n (ref_of (w_remote w) ++ F) w'.
Proof.
  intros (Ht & Hc & [l Hq] & [I Hm]). simpl. eexists; split; [done|].
  destruct (w_remote w) as [c|] eqn:Hr; simpl; [|by destruct w; simpl in *; subst; split_and!; eauto].
  destruct (cx_live _ _ Hc c) as [x Hx]; [by auto|].
  split_and!; [by destruct Ht; split| |exists l|exists I].
  - apply (contexts_change c F (RRef c :: F) w); auto; try done.
    + intros c' Hne. split_and!; [done|apply (same_view_other c' [] [RRef c]); not_about|].
      split; simpl; eauto. rewrite Hr. naive_solver.
    + apply Hc.
    + intros y Hy. simpl in Hy. rewrite Hx in Hy. injection Hy as <-.
      destruct (cx_ctx _ _ Hc c x Hx). split; simpl in *; auto.
      * rewrite co_ref. unfold slotn, remoten. simpl. rewrite Hr.
        repeat case_decide; simplify_eq; lia.
      * rewrite co_calling. set_solver.
      * intros H. destruct (co_init H) as [[?|[[h ?]|?]]|?]; auto; left; unfold launching; set_solver.
      * intros H. apply co_run. set_solver.
      * intros H. apply co_mq. set_solver.
    + apply Hc.
    + set_solver.
  - eapply (queues_frame F (RRef c :: F) w); eauto using same_dom_refl.
    intros p. split; simpl; set_solver.
  - eapply messages_frame; eauto; try done. set_solver.
Qed.
(** ** Modules *)

Lemma module_query_sound name F w :
  node_inv n F w →
  ∃ r w', step (AModuleQuery name) w = Some (r, w')
    ∧ node_inv n (match r with Some m => [RMod m] | None => [] end ++ F) w'.
Proof.
  intros Hi. pose proof Hi as ([] & _).
  destruct (skynet_module_query_spec dlopen dlsym name (w_mods w)) as (r & m' & Hq & Hok & Hpre & Hp & Hr);
    [done..|].
  simpl. rewrite Hq. simpl. eexists _, _. split; [done|].
  assert (Hv : ∀ m, valid_mod w m → valid_mod (w <| w_mods := m' |>) m).
  { intros m (md & Hmd & Hin). exists md. split; [|done]. simpl. destruct Hpre as [k ->].
    unfold zget in *. destruct (0 <=? m); [|done]. by apply lookup_app_l_Some. }
  assert (Hi' : node_inv n F (w <| w_mods := m' |>)).
  { eapply inv_tables; [exact Hi| |done..|by apply same_slots_refl|done]. split; simpl; rewrite ?Hp; auto. }
  destruct r as [i|]; [|done]. destruct Hr as (md & H1 & _ & H2). apply (inv_add_mod n F); [done|].
  by exists md.
Qed.

Lemma module_of_sound i F w :
  node_inv n (RMod i :: F) w → ∃ md, step (AModuleOf i) w = Some (md, w) ∧ mod_init md ≠ None.
Proof.
  intros (_ & Hc & _). destruct (cx_mod _ _ Hc i) as (md & H1 & H2); [set_solver|].
  exists md. simpl. by rewrite H1.
Qed.

(** ** A new service *)

(** Nothing refers to the address the allocator gives out next. *)
Lemma fresh_facts R w l I c :
  contexts R w → queues R w l → messages R w I → c = w_next w →
  w_ctx w !! c = None ∧ mq_heap (w_mq w) !! c = None ∧ I !! c = None ∧ refcount c R = 0
  ∧ (Some c ∉ h_slot (w_hs w)) ∧ w_remote w ≠ Some c ∧ (c ∉ dels R) ∧ (c ∉ heldq R) ∧ (c ∉ deadq R)
  ∧ (c ∉ l).
Proof.
  intros Hc Hq Hm ->. set (c := w_next w). destruct (qs_fresh _ _ _ Hq c) as [Hx Hh]; [done|].
  assert (HI : I !! c = None).
  { pose proof (ms_repr _ _ _ Hm c) as H. unfold holds in H. rewrite Hh in H. by destruct (I !! c). }
  assert (Hno : ∀ P, (P → is_Some (w_ctx w !! c)) → ¬ P).
  { intros P HP H. apply HP in H as [x H]. congruence. }
  assert (Hnq : ∀ P, (P → is_Some (mq_heap (w_mq w) !! c)) → ¬ P).
  { intros P HP H. apply HP in H as [x H]. congruence. }
  split_and!; auto.
  - pose proof (refcount_pos c R). assert (¬ 0 < refcount c R); [|lia].
    apply Hno. rewrite refcount_elem. intros H1. apply (cx_live _ _ Hc). auto.
  - apply Hno. apply (cx_slot_live _ _ Hc).
  - apply Hno. intros H. apply (cx_live _ _ Hc). auto.
  - apply Hno. intros H. apply (cx_live _ _ Hc). auto.
  - apply Hnq. intros H. apply (qs_live _ _ _ Hq). set_solver.
  - apply Hnq. intros H. apply (qs_live _ _ _ Hq). set_solver.
  - apply Hnq. intros H. by eapply run_queue_live; [apply Hq|].
Qed.

Lemma publish_register w c x0 :
  slots_wf (hof w) (w_hs w) → Some c ∉ h_slot (w_hs w) →
  (∀ c', Some c' ∈ h_slot (w_hs w) → is_Some (w_ctx w !! c')) → ctx_handle x0 = 0 →
  h_handle_index (w_hs w) + 2 * h_slot_size (w_hs w) < 2 ^ 24 →
  slots_live (set_ctx c x0 w) = true ∧
  ∃ h hs, skynet_handle_register (hof (set_ctx c x0 w)) c (w_hs w) = Some (h, hs)
    ∧ registered (hof (set_ctx c x0 w)) (w_hs w) c h hs
    ∧ h_harbor (w_hs w) + h_handle_index (w_hs w) <= h
    ∧ h_handle_index hs = h - h_harbor (w_hs w) + 1 ∧ h_name_cap hs = h_name_cap (w_hs w).
Proof.
  intros Hwf Hc Hlive Hx0 Hlim. split.
  { unfold slots_live. simpl. apply forallb_forall. intros [c'|] Hin; [|done].
    apply bool_decide_eq_true_2. rewrite lookup_insert_is_Some'. right. apply Hlive.
    by apply list_elem_of_In. }
  assert (Hwf' : slots_wf (hof (set_ctx c x0 w)) (w_hs w)).
  { eapply slots_wf_ext; [|done]. intros c' Hin. symmetry. apply hof_eq. simpl.
    apply lookup_insert_ne. by intros <-. }
  pose proof (slot_size_bounds _ _ Hwf) as Hb. pose proof (sw_index _ _ Hwf) as Hix.
  destruct (skynet_handle_register_spec _ (w_hs w) c Hwf' Hc) as (h & hs & Hr & Hreg); [right; lia|].
  exists h, hs. split; [done|]. split; [done|].
  apply (register_loop_increasing _ 1 c (w_hs w)) in Hr; auto; try apply Hwf; lia.
Qed.

Lemma publish_contexts m inst F w l I h hs :
  contexts (RMod m :: F) w → queues (RMod m :: F) w l → messages (RMod m :: F) w I →
  let c := w_next w in
  let x0 := mkCtx m inst None c None 0 0 2 false false false in
  let x := x0 <| ctx_handle := h |> in
  registered (hof (set_ctx c x0 w)) (w_hs w) c h hs →
  contexts (RRef c :: RQ c QNew :: RMod m :: F)
    ((set_ctx c x w) <| w_hs := hs |>
       <| w_mq := (w_mq w) <| mq_heap := <[c := mq_fresh h]> (mq_heap (w_mq w)) |> |>
       <| w_next := Pos.succ c |> <| w_total := i32 (w_total w + 1) |>).
Proof.
  intros Hc Hq Hm c x0 x (_ & _ & _ & _ & Hmem & Hwf).
  destruct (fresh_facts _ w l I c Hc Hq Hm eq_refl)
    as (Hx & Hh & HI & Href & Hsl & Hrem & Hdel & Hhq & Hdq & Hl).
  simpl in Href, Hdel, Hhq, Hdq. rewrite elem_of_heldq in Hhq. rewrite elem_of_dels in Hdel.
  assert (Hv : valid_mod w m) by (apply (cx_mod _ _ Hc); set_solver).
  apply (contexts_change c (RMod m :: F) _ w); auto.
  - intros c' Hne. split_and!; [simpl; by rewrite lookup_insert_ne| |].
    { apply (same_view_other c' [] [RRef c; RQ c QNew]); not_about. }
    split; simpl; auto; [rewrite Hmem; naive_solver|].
    intros q Hcell Hr. rewrite lookup_insert_ne by done. eauto.
  - apply Hwf; [unfold hof; simpl; by rewrite lookup_insert_eq|].
    intros c' Hne. apply hof_eq. simpl. by rewrite !lookup_insert_ne.
  - intros _. simpl. rewrite lookup_insert_eq. eauto.
  - intros y. simpl. rewrite lookup_insert_eq. intros [= <-]. split; simpl.
    + unfold slotn, remoten. simpl. rewrite decide_True by (apply Hmem; auto).
      rewrite decide_False, decide_True, Href by done. lia.
    + lia.
    + rewrite elem_of_dels. naive_solver.
    + done.
    + done.
    + rewrite !elem_of_cons. naive_solver.
    + intros _. left. left. set_solver.
    + rewrite !elem_of_cons. naive_solver.
    + intros _. rewrite lookup_insert_eq. by exists (mq_fresh h).
  - apply Hc.
  - intros k. rewrite !elem_of_cons. naive_solver.
Qed.

Lemma publish_queues m F w l I x h hs :
  contexts (RMod m :: F) w → queues (RMod m :: F) w l → messages (RMod m :: F) w I →
  let c := w_next w in
  h_harbor hs = h_harbor (w_hs w) → 0 < h_harbor (w_hs w) + h_handle_index (w_hs w) <= h →
  h_handle_index hs = h - h_harbor (w_hs w) + 1 →
  queues (RRef c :: RQ c QNew :: RMod m :: F)
    ((set_ctx c x w) <| w_hs := hs |>
       <| w_mq := (w_mq w) <| mq_heap := <[c := mq_fresh h]> (mq_heap (w_mq w)) |> |>
       <| w_next := Pos.succ c |> <| w_total := i32 (w_total w + 1) |>) l.
Proof.
  intros Hc Hq Hm c Hhb Hlo Hix.
  destruct (fresh_facts _ w l I c Hc Hq Hm eq_refl)
    as (Hx & Hh & HI & Href & Hsl & Hrem & Hdel & Hhq & Hdq & Hl). simpl in Hhq, Hdq, Hdel.
  assert (Hlt : ∀ p q, mq_heap (w_mq w) !! p = Some q → mq_handle q < h).
  { intros p q Hp. pose proof (qo_range _ _ _ _ _ (qs_ok _ _ _ Hq p q Hp)). lia. }
  destruct Hq. split; simpl.
  - by apply run_queue_create.
  - simpl in qs_nodup. rewrite <- Permutation_middle. apply NoDup_cons. set_solver.
  - intros p. rewrite lookup_insert_is_Some'. simpl in qs_live. set_solver.
  - intros p q [[<- <-]|[Hne Hp]]%lookup_insert_Some.
    + rewrite elem_of_heldq in Hhq. rewrite elem_of_dels in Hdel. split; simpl.
      * left. rewrite lookup_insert_eq. split_and!; auto. rewrite !elem_of_cons. naive_solver.
      * right; left. split_and!; auto. right. set_solver.
      * intros k. rewrite !elem_of_cons. naive_solver.
      * pose proof (sw_index _ _ (cx_slots _ _ Hc)). rewrite Hhb, Hix. lia.
    + apply (queue_ok_view (RMod m :: F) _ w _ l l p q q); [|split; simpl; auto|by apply qs_ok].
      * apply same_view_qview, (same_view_other p [] [RRef c; RQ c QNew]); not_about.
      * by rewrite lookup_insert_ne.
      * pose proof (qo_range _ _ _ _ _ (qs_ok p q Hp)). lia.
  - intros p p' q q' [[<- <-]|[Hne Hp]]%lookup_insert_Some [[<- <-]|[Hne' Hp']]%lookup_insert_Some;
      simpl; auto; intros E.
    + specialize (Hlt _ _ Hp'). lia.
    + specialize (Hlt _ _ Hp). lia.
    + by eapply qs_inj.
  - intros p Hp. rewrite !lookup_insert_ne by (unfold c; lia). apply qs_fresh. unfold c in Hp. lia.
Qed.

Lemma publish_sound m inst F w :
  node_inv n (RMod m :: F) w → ok _ (APublish m inst) w →
  ∃ c w', step (APublish m inst) w = Some ((c, c), w')
    ∧ node_inv n (RRef c :: RQ c QNew :: RMod m :: F) w'.
Proof.
  intros (Ht & Hc & [l Hq] & [I Hm]) Hlim. simpl in Hlim. set (c := w_next w).
  destruct (fresh_facts _ w l I c Hc Hq Hm eq_refl)
    as (Hx & Hh & HI & Href & Hsl & Hrem & Hdel & Hhq & Hdq & Hl).
  set (x0 := mkCtx m inst None c None 0 0 2 false false false).
  destruct (publish_register w c x0) as (Hlive & h & hs & Hr & Hreg & Hlo & Hix & Hcap); auto; try apply Hc.
  pose proof Hreg as (_ & _ & Hnm & Hhb & _).
  destruct (sw_harbor _ _ (cx_slots _ _ Hc)) as (r & Hr0 & Hrb).
  exists c. eexists. split.
  { simpl. unfold publish_step. fold c x0. rewrite Hlive. cbn [c_assert mbind option_bind].
    simpl w_hs in *. rewrite Hr. cbn [mbind option_bind]. unfold skynet_mq_create.
    rewrite bool_decide_eq_true_2 by done. cbn [c_assert mbind option_bind]. unfold set_ctx at 1.
    simpl. rewrite insert_insert_eq. done. }
  pose proof (publish_contexts m inst F w l I h hs Hc Hq Hm Hreg) as Hc'.
  pose proof (publish_queues m F w l I (x0 <| ctx_handle := h |>) h hs Hc Hq Hm Hhb) as Hq'.
  destruct Ht. split_and!; [|exact Hc'|exists l; apply Hq'; lia|exists (<[c := []]> I)].
  - split; simpl; rewrite ?Hnm, ?Hcap; auto. lia.
  - destruct Hm. split; simpl; auto.
    + intros p. destruct (decide (p = c)) as [->|Hne].
      * unfold holds. simpl. rewrite !lookup_insert_eq. split_and!; [apply mq_fresh_repr|simpl; lia|done].
      * specialize (ms_repr p). unfold holds in *. simpl. by rewrite !lookup_insert_ne by done.
    + by rewrite queued_fresh.
    + intros d. rewrite queued_fresh by done. auto.
    + intros d sz. rewrite !elem_of_cons. intros [?|[?|[?|?]]]; try done. apply ms_rmsg. set_solver.
Qed.

(** ** All specifications *)

(** Conclude from a step and the invariant after it. *)
Ltac stepped :=
  do 3 eexists; split; [eassumption|split];
  [first [reflexivity|split; reflexivity|split; [eassumption|reflexivity]]|simpl; eassumption].

Lemma pop_specs q F w r w' :
  node_inv n (match r with Some m => data_of m ++ RQ q QRun :: RRef q :: F | None => RRef q :: F end) w' →
  step (APop q) w = Some (r, w') →
  ∃ x w' Rs, step (APop q) w = Some (x, w')
    ∧ Rs = RRef q :: match x with Some m => RQ q QRun :: data_of m | None => [] end
    ∧ node_inv n (Rs ++ F) w'.
Proof.
  intros Hi Hs. exists r, w'. eexists. split_and!; [done|done|]. destruct r as [m|]; [|done].
  eapply node_inv_perm; [|exact Hi]. simpl.
  rewrite <- !Permutation_middle. apply Permutation_swap.
Qed.

Lemma pop_dead_specs q F w r w' :
  node_inv n (match r with Some m => data_of m ++ RDead q :: F | None => RDead q :: F end) w' →
  step (APop q) w = Some (r, w') →
  ∃ x w' Rs, step (APop q) w = Some (x, w')
    ∧ Rs = match x with Some m => RDead q :: data_of m | None => [RDead q] end
    ∧ node_inv n (Rs ++ F) w'.
Proof.
  intros Hi Hs. exists r, w'. eexists. split_and!; [done|done|]. destruct r as [m|]; [|done].
  eapply node_inv_perm; [|exact Hi]. simpl. by rewrite Permutation_middle.
Qed.

(** Every specified action is defined in a state of the invariant, gives what
    its specification says, and keeps the invariant. *)
Lemma action_sound X (a : act X) C P F w :
  aspec n X a C P → node_inv n (C ++ F) w → ok X a w →
  ∃ x w' Rs, step a w = Some (x, w') ∧ P x Rs ∧ node_inv n (Rs ++ F) w'.
Proof.
  intros Hs Hi Hok. destruct Hs; simpl app in Hi.
  - by apply plain_sound.
  - by apply (local_sound dlopen dlsym n c).
  - edestruct grab_sound as (? & ? & ? & ?); eauto. stepped.
  - edestruct grab_run_sound as (? & ? & ? & ? & ? & ?); eauto 10.
  - edestruct retire_sound as (? & ? & ? & ? & _); eauto. stepped.
  - edestruct retire_new_sound as (? & ? & ? & ?); eauto. stepped.
  - edestruct publish_sound as (c & w' & ? & ?); eauto. by exists (c, c), w', [RRef c; RQ c QNew; RMod m].
  - edestruct launched_sound as (? & ? & ? & ?); eauto. stepped.
  - edestruct inc_sound as (? & ? & ?); eauto. stepped.
  - edestruct dec_sound as (? & ? & ? & ?); eauto. stepped.
  - edestruct free_context_sound as (? & ? & ?); eauto. stepped.
  - edestruct handle_new_sound as (? & ? & ? & ?); eauto. stepped.
  - edestruct module_sound as (? & ? & ?); eauto. stepped.
  - pose proof (init_sound dlopen dlsym _ _ _ _ Hi). stepped.
  - edestruct (begin_sound dlopen dlsym n c QRun) as (? & ? & ?); eauto. stepped.
  - edestruct (end_sound dlopen dlsym n c QRun) as (? & ? & ?); eauto. stepped.
  - edestruct (begin_sound dlopen dlsym n c QNew) as (? & ? & ?); eauto. stepped.
  - edestruct (end_sound dlopen dlsym n c QNew) as (? & ? & ?); eauto. stepped.
  - edestruct push_sound as (? & ? & ?); eauto; [|stepped].
    eapply node_inv_perm; [|exact Hi]. by rewrite Permutation_middle.
  - edestruct queue_length_sound as (? & ?); eauto. stepped.
  - pose proof (queue_of_sound dlopen dlsym _ _ _ _ Hi). stepped.
  - edestruct mark_sound as (? & ? & ?); eauto. stepped.
  - edestruct qhandle_sound as (? & ? & ? & ?); eauto. stepped.
  - edestruct (pop_sound dlopen dlsym n q F w) as (? & ? & ? & ?); [|by eapply pop_specs].
    eapply node_inv_perm; [apply Permutation_swap|done].
  - edestruct (pop_dead_sound dlopen dlsym n q F w) as (? & ? & ? & ?); [done|by eapply pop_dead_specs].
  - edestruct length_sound as (? & ?); eauto. stepped.
  - edestruct overload_sound as (? & ? & ? & ?); eauto. stepped.
  - edestruct release_test_sound as (? & ? & ? & ?); eauto. stepped.
  - edestruct free_queue_sound as (? & ? & ?); eauto. stepped.
  - edestruct gpush_sound as (? & ? & ?); eauto. stepped.
  - edestruct gpop_sound as (? & ? & ? & ?); eauto. stepped.
  - edestruct gpop_run_sound as (? & ? & ? & ?); eauto. stepped.
  - edestruct (alloc_sound (Bytes l)) as (? & ? & ? & ? & ?); eauto. stepped.
  - edestruct (alloc_sound (Rmsg nm h m sz)) as (? & ? & ? & ? & ?); eauto. stepped.
  - edestruct free_sound as (? & ? & ?); eauto. stepped.
  - destruct Hok as (l & Hl & Hsz). eexists _, w, _. simpl. unfold read_step. rewrite Hl. simpl.
    rewrite (proj2 (andb_true_iff _ _)) by (split; apply Z.leb_le; lia). by split_and!.
  - edestruct rmsg_type_sound as (? & ? & ?); eauto. stepped.
  - exists (w_harbor w), w, []. split_and!; auto. by destruct Hi as ([] & _).
  - edestruct harbor_send_sound as (? & ? & ?); eauto. stepped.
  - edestruct set_remote_sound as (? & ? & ?); eauto. stepped.
  - edestruct clear_remote_sound as (? & ? & ?); eauto. stepped.
  - edestruct module_query_sound as (? & ? & ? & ?); eauto. stepped.
  - edestruct module_of_sound as (? & ? & ?); eauto. stepped.
Qed.
(** ** Callbacks are never unset *)

Definition keeps_cb (w w' : world) : Prop :=
  (w_next w <= w_next w')%positive ∧
  ∀ c x', w_ctx w' !! c = Some x' →
    (w_next w <= c)%positive ∨ ∃ x, w_ctx w !! c = Some x ∧ (ctx_cb x ≠ None → ctx_cb x' ≠ None).

Definition unsets_cb (X : Type) (a : act X) : bool :=
  match a with ASetCb _ None => true | _ => false end.

Lemma keeps_cb_same w w' : w_ctx w' = w_ctx w → w_next w' = w_next w → keeps_cb w w'.
Proof. intros E1 E2. split; [rewrite E2; lia|]. rewrite E1. eauto. Qed.

Lemma keeps_cb_set w c x x' :
  get_ctx c w = Some x → (ctx_cb x ≠ None → ctx_cb x' ≠ None) → keeps_cb w (set_ctx c x' w).
Proof.
  intros Hx Hcb. split; [done|]. intros c0 x0; simpl. intros [[<- <-]|[_ H]]%lookup_insert_Some; eauto.
Qed.

Lemma step_keeps_cb X (a : act X) w x w' :
  step a w = Some (x, w') → unsets_cb X a = false → keeps_cb w w'.
Proof.
  destruct a; simpl;
    unfold grab_step, retire_step, slot_handle_step, launched_step, add_ref, upd_ctx, on_ctx, push_step,
      pop_step, overload_step, release_test_step, alloc_step, free_step, read_step, rmsg_type_step,
      harbor_send_step, trigger_step, check_step, with_timer, skynet_context_newsession, skynet_setenv, push_step;
    intros H Hu;
    try solve [simplify_option_eq; repeat (case_match; simplify_option_eq);
               first [by apply keeps_cb_same | by eapply keeps_cb_set]].
  - unfold publish_step in H. destruct (c_assert _); [|done]. cbn [mbind option_bind] in H.
    destruct (skynet_handle_register _ _ _) as [[h hs]|]; [|done]. cbn [mbind option_bind] in H.
    destruct (skynet_mq_create _ _ _) as [mq|]; [|done]. simplify_eq/=. split; simpl; [lia|].
    intros c x0 [[<- _]|[Hne H]]%lookup_insert_Some; [left; lia|].
    rewrite lookup_insert_ne in H by done. eauto.
  - simplify_option_eq. split; simpl; [lia|]. intros c' x' [_ H]%lookup_delete_Some. eauto.
Qed.

Definition callbacks (R : list res) (w : world) : Prop :=
  ∀ c, RCb c ∈ R → (c < w_next w)%positive ∧ ∀ x, w_ctx w !! c = Some x → ctx_cb x ≠ None.

(** The invariant of the node with what is known about callbacks. *)
Definition safe_inv (R : list res) (w : world) : Prop := node_inv n R w ∧ callbacks R w.

(** The specifications of the actions, and that a callback once seen stays. *)
Inductive sspec : ∀ X, act X → list res → (X → list res → Prop) → Prop :=
| ss_act X (a : act X) C P : aspec n X a C P → sspec X a C P
| ss_cb c : sspec _ (ACb c) [RRef c]
    (λ r Rs, Rs = RRef c :: match r with Some _ => [RCb c] | None => [] end)
| ss_cb_set c : sspec _ (ACb c) [RRef c; RCb c] (λ r Rs, r ≠ None ∧ Rs = [RRef c; RCb c]).

Lemma aspec_cb X (a : act X) C P :
  aspec n X a C P → unsets_cb X a = false ∧ ∀ x Rs c, P x Rs → RCb c ∉ Rs.
Proof.
  assert (Hd : ∀ c m, RCb c ∉ data_of m) by (intros c m (? & ? & ?)%list_elem_of_fmap; done).
  intros Hs. split.
  - destruct Hs; try done; destruct a; try done. simpl in *. destruct cb; naive_solver.
  - intros x Rs c0 HP. destruct Hs; simpl in HP; destruct_and?; subst; unfold ref_of, queue_of;
      repeat case_match; destruct_and?; subst; try set_solver.
    + intros [<-|?]%elem_of_cons; [by destruct H|set_solver].
    + intros [<-|?]%elem_of_cons; [by destruct H|set_solver].
Qed.

Lemma callbacks_step R R' w w' :
  callbacks R w → keeps_cb w w' → (∀ c, RCb c ∈ R' → RCb c ∈ R) → callbacks R' w'.
Proof.
  intros Hcb [Hn Hk] Hsub c Hin. destruct (Hcb c (Hsub c Hin)) as [Hlt Hc]. split; [lia|].
  intros x' Hx'. destruct (Hk c x' Hx') as [?|(x & Hx & Himp)]; [lia|eauto].
Qed.

Lemma node_inv_cb c R w : node_inv n R w → node_inv n (RCb c :: R) w.
Proof.
  intros (Ht & Hc & [l Hq] & [I Hm]).
  assert (Hvw : ∀ c', same_view c' R (RCb c :: R))
    by (intros c'; apply (same_view_other c' [] [RCb c]); repeat constructor; simpl; tauto).
  split_and!; [done| |exists l|exists I].
  - eapply contexts_frame; eauto using queues_kept_refl, same_slots_refl. set_solver.
  - eapply queues_frame; eauto using same_dom_refl, same_view_qview.
  - eapply messages_frame; eauto; try done. set_solver.
Qed.

Lemma safe_inv_perm R R' w : R ≡ₚ R' → safe_inv R w → safe_inv R' w.
Proof.
  clear dlopen dlsym. intros E [Hi Hcb]. split; [by eapply node_inv_perm|]. intros c. rewrite <- E. apply Hcb.
Qed.

Lemma safe_inv_drop G R w : Forall droppable G → safe_inv (G ++ R) w → safe_inv R w.
Proof.
  clear dlopen dlsym. intros HG [Hi Hcb]. split; [by eapply node_inv_drop|]. intros c H. apply Hcb. set_solver.
Qed.

Lemma read_cb_sound c F w :
  safe_inv (RRef c :: F) w →
  ∃ x, w_ctx w !! c = Some x ∧ step (ACb c) w = Some (ctx_cb x, w) ∧ (c < w_next w)%positive.
Proof.
  intros [(_ & Hc & [l Hq] & _) _]. destruct (cx_live _ _ Hc c) as [x Hx]; [set_solver|].
  exists x. simpl. unfold on_ctx, get_ctx. rewrite Hx. split_and!; auto.
  destruct (decide (c < w_next w)%positive) as [|H]; [done|].
  destruct (qs_fresh _ _ _ Hq c) as [? _]; [lia|]. congruence.
Qed.

Lemma safe_action_sound X (a : act X) C P F w :
  sspec X a C P → safe_inv (C ++ F) w → ok X a w →
  ∃ x w' Rs, step a w = Some (x, w') ∧ P x Rs ∧ safe_inv (Rs ++ F) w'.
Proof.
  intros Hs Hi Hok. destruct Hs as [X a C P Hs|c|c].
  - destruct Hi as [Hi Hcb]. destruct (action_sound X a C P F w Hs Hi Hok) as (x & w' & Rs & Hst & HP & Hi').
    exists x, w', Rs. do 3 (split; [done|]). destruct (aspec_cb X a C P Hs) as [Hu Hno].
    eapply callbacks_step; [done|by eapply step_keeps_cb|].
    intros c. rewrite !elem_of_app. intros [H|?]; [|auto]. by destruct (Hno x Rs c HP).
  - destruct (read_cb_sound c F w Hi) as (x & Hx & Hst & Hlt). do 3 eexists. split; [done|]. split; [done|].
    destruct (ctx_cb x) eqn:Ex; simpl; [|done]. apply (safe_inv_perm (RCb c :: RRef c :: F)); [constructor|].
    split; [by apply node_inv_cb, Hi|]. intros c' [[= ->]|H]%elem_of_cons; [|by apply Hi].
    split; [done|]. intros y Hy. congruence.
  - destruct (read_cb_sound c (RCb c :: F) w Hi) as (x & Hx & Hst & Hlt). exists (ctx_cb x), w, [RRef c; RCb c].
    split; [done|]. split; [split; [|done]|done]. apply (proj2 Hi c); [set_solver|done].
Qed.
End sound.
