(* ===== verification/NodeSafe.v ===== *)
(** * The programs of the node are safe

    Every function of Node.v is verified against a specification of the
    resources it takes and gives back; service code is assumed to meet the
    contract [ServicesSafe].  The conclusion is [node_never_goes_wrong]: in no
    interleaving of the node's threads is there a use after free, a double
    free, a failed assertion, a service dispatched by two threads at once, or
    an access to a queue or context another thread has deleted. *)

From stdpp Require Import prelude list gmap list_numbers strings.
From S2P Require Import Prelude Skynet MQ Handle Timer Module CString Prog Node NodeInv NodeAct.

(** ** Contracts of the procedures *)

(** The resources of an optional context and of a message body. *)
Definition dres (d : Z) : list res := if d =? 0 then [] else [RData d].

(** What the loops and the service entry points take and give back.  A service
    runs with the reference of the server on its own context; its callback gets
    the message and keeps it exactly when it returns non-zero.  [n] is the
    number of monitors (one per worker). *)
Inductive fspec (n : Z) : ∀ X, fn X → list res → (X → list res → Prop) → Prop :=
| fs_create f : fspec n _ (FService (SCreate f)) [] (λ _ Rs, Rs = [])
| fs_init f inst c param : fspec n _ (FService (SInit f inst c param)) [RRef c] (λ _ Rs, Rs = [RRef c])
| fs_release f inst : fspec n _ (FService (SRelease f inst)) [] (λ _ Rs, Rs = [])
| fs_signal f inst sig : fspec n _ (FService (SSignal f inst sig)) [] (λ _ Rs, Rs = [])
| fs_callback cb c type session source d sz :
    fspec n _ (FService (SCallback cb c type session source d sz)) (RRef c :: dres d)
      (λ r Rs, Rs = RRef c :: (if c_true r then [] else dres d))
| fs_poll : fspec n _ (FService SSocketPoll) [] (λ _ Rs, Rs = [])
| fs_drop q h : 0 < h → fspec n _ (FDrop q h) [RDead q] (λ _ Rs, Rs = [RDead q])
| fs_run sm q h weight i k : 0 <= sm < n →
    fspec n _ (FRun sm q q h weight i k) [RRef q; RQ q QRun]
      (λ r Rs, Rs = match r with Some nq => queue_of nq | None => [RRef q; RQ q QRun] end)
| fs_retireall i k : 0 <= i → fspec n _ (FRetireAll i k) [] (λ _ Rs, Rs = [])
| fs_timer_first : fspec n _ FTimerFirst [] (λ _ Rs, Rs = [])
| fs_timer_rest : fspec n _ FTimerRest [] (λ _ Rs, Rs = [])
| fs_thread_timer : fspec n _ FThreadTimer [] (λ _ Rs, Rs = [])
| fs_thread_socket : fspec n _ FThreadSocket [] (λ _ Rs, Rs = [])
| fs_thread_monitor : fspec n _ (FThreadMonitor n) [] (λ _ Rs, Rs = [])
| fs_thread_worker id weight q : 0 <= id < n →
    fspec n _ (FThreadWorker id weight q) (queue_of q) (λ _ _, True).

Abbreviation spec n p R Q := (wp droppable (sspec n) (fspec n) p R Q).

(** ** Rules *)

Section rules.
Context (n : Z).

Lemma wp_atom {X A} (a : act X) (k : X → program A) R C F P Q :
  sspec n X a C P → R ≡ₚ C ++ F → (∀ x Rs, P x Rs → spec n (k x) (Rs ++ F) Q) →
  spec n (bind (do_act a) k) R Q.
Proof. intros Hs HR Hk. exists C, P, F, []. rewrite app_nil_r. by split_and!. Qed.

Lemma wp_proc {X A} (f : fn X) (k : X → program A) R C F P Q :
  fspec n X f C P → R ≡ₚ C ++ F → (∀ x Rs, P x Rs → spec n (k x) (Rs ++ F) Q) →
  spec n (bind (do_call f) k) R Q.
Proof. intros Hs HR Hk. exists C, P, F, []. rewrite app_nil_r. by split_and!. Qed.

Lemma wp_atom_tail {X} (a : act X) R Q :
  spec n (bind (do_act a) Ret) R Q → spec n (do_act (fn := fn) a) R Q.
Proof. done. Qed.

Lemma wp_proc_tail {X} (f : fn X) R Q :
  spec n (bind (do_call f) Ret) R Q → spec n (do_call (act := act) f) R Q.
Proof. done. Qed.

Lemma wp_ret {A} (a : A) R G (X : A → list res) :
  R ≡ₚ X a ++ G → Forall droppable G → spec n (Ret a : program A) R (λ r R', R' = X r).
Proof. intros HR HG. exists (X a), G. by split_and!. Qed.

Lemma wp_ret_and {A} (a : A) R G (P : A → Prop) (X : A → list res) :
  P a → R ≡ₚ X a ++ G → Forall droppable G → spec n (Ret a : program A) R (λ r R', P r ∧ R' = X r).
Proof. intros HP HR HG. exists (X a), G. by split_and!. Qed.

Lemma wp_if {A} (b : bool) (p q : program A) R Q :
  (b = true → spec n p R Q) → (b = false → spec n q R Q) → spec n (if b then p else q) R Q.
Proof. destruct b; auto. Qed.

Lemma wp_when (b : bool) (p : program ()) R Q :
  (b = true → spec n p R Q) → (b = false → spec n (Ret tt : program ()) R Q) → spec n (when b p) R Q.
Proof. destruct b; auto. Qed.
End rules.

(** Permutations of explicit lists of resources. *)
Lemma lhs_assoc (A B R T : list res) : A ++ B ++ R ≡ₚ T → (A ++ B) ++ R ≡ₚ T.
Proof. by rewrite app_assoc. Qed.
Lemma rhs_assoc (A B F R : list res) : R ≡ₚ A ++ B ++ F → R ≡ₚ (A ++ B) ++ F.
Proof. by rewrite app_assoc. Qed.
Lemma frame_cons (c : res) R R' T : R ≡ₚ c :: R' → R' ≡ₚ T → R ≡ₚ c :: T.
Proof. by intros -> ->. Qed.
Lemma frame_block (B R R' T : list res) : R ≡ₚ B ++ R' → R' ≡ₚ T → R ≡ₚ B ++ T.
Proof. by intros -> ->. Qed.
Lemma pick_there (c d : res) R R' : R ≡ₚ c :: R' → d :: R ≡ₚ c :: d :: R'.
Proof. intros ->. apply Permutation_swap. Qed.
Lemma pick_over (c : res) B R R' : R ≡ₚ c :: R' → B ++ R ≡ₚ c :: B ++ R'.
Proof. intros ->. by rewrite <- Permutation_middle. Qed.
Lemma block_last (B : list res) : B ≡ₚ B ++ [].
Proof. by rewrite app_nil_r. Qed.
Lemma block_there (B : list res) d R R' : R ≡ₚ B ++ R' → d :: R ≡ₚ B ++ d :: R'.
Proof. intros ->. by rewrite Permutation_middle. Qed.
Lemma block_over (B D R R' : list res) : R ≡ₚ B ++ R' → D ++ R ≡ₚ B ++ D ++ R'.
Proof. intros ->. by rewrite Permutation_app_swap_app. Qed.

(** [R ≡ₚ c :: ?R'] and [R ≡ₚ B ++ ?R'] *)
Ltac pick :=
  lazymatch goal with
  | |- [] ++ ?R ≡ₚ ?T => change (R ≡ₚ T); pick
  | |- (?d :: ?A) ++ ?R ≡ₚ ?T => change (d :: (A ++ R) ≡ₚ T); pick
  | |- (_ ++ _) ++ _ ≡ₚ _ => apply lhs_assoc; pick
  | |- _ :: _ ≡ₚ _ => first [reflexivity | eapply pick_there; pick]
  | |- _ ++ _ ≡ₚ _ => eapply pick_over; pick
  end.
Ltac block :=
  lazymatch goal with
  | |- [] ++ ?R ≡ₚ ?T => change (R ≡ₚ T); block
  | |- (?d :: ?A) ++ ?R ≡ₚ ?T => change (d :: (A ++ R) ≡ₚ T); block
  | |- (_ ++ _) ++ _ ≡ₚ _ => apply lhs_assoc; block
  | |- _ ++ _ ≡ₚ _ => first [reflexivity | eapply block_over; block]
  | |- _ :: _ ≡ₚ _ => eapply block_there; block
  | |- _ ≡ₚ _ => apply block_last
  end.

(** [R ≡ₚ T], where [T] is built from cells and blocks and may end in an evar. *)
Ltac frame_loop :=
  lazymatch goal with
  | |- ?R ≡ₚ [] ++ ?T => change (R ≡ₚ T); frame_loop
  | |- ?R ≡ₚ (?d :: ?A) ++ ?T => change (R ≡ₚ d :: (A ++ T)); frame_loop
  | |- _ ≡ₚ (_ ++ _) ++ _ => apply rhs_assoc; frame_loop
  | |- _ ≡ₚ _ :: _ => eapply frame_cons; [pick|frame_loop]
  | |- _ ≡ₚ _ ++ _ => eapply frame_block; [block|frame_loop]
  | |- _ ≡ₚ _ => first [reflexivity | rewrite ?app_nil_r; reflexivity]
  end.
Ltac frame := cbn [ref_of queue_of]; frame_loop.

Ltac droppables := repeat first [apply Forall_nil_2 | apply Forall_cons_2; [exact I|]].

(** After a step: unpack what the specification says. *)
Ltac unpack :=
  let x := fresh "x" in let Rs := fresh "Rs" in let HP := fresh "HP" in
  intros x Rs HP; simpl in HP; destruct_and?; try subst Rs.

Ltac tail := first [apply wp_atom_tail | apply wp_proc_tail | idtac].
Ltac act s := tail; eapply wp_atom; [apply ss_act; eapply s; eauto | frame | unpack].
Ltac plain_act := tail; eapply wp_atom; [apply ss_act, sp_plain; done | frame | unpack].
Ltac assert_act := tail; eapply wp_atom; [apply ss_act, sp_plain; unfold plain | frame | unpack].
Ltac local_with c r :=
  eapply wp_atom; [apply ss_act, (sp_local _ c r); [by constructor|simpl; done] | frame | unpack].
Ltac local_act c := tail; first [local_with c (RRef c) | local_with c (RDel c)].
Ltac call s := tail; eapply wp_proc; [eapply s; eauto | frame | unpack].
Ltac use lem := eapply wp_use; [eapply lem; eauto | frame | unpack].
Ltac red_res := cbn [ref_of queue_of app].
Ltac ret := eapply wp_ret; [simpl; frame | simpl; droppables].

Section contexts.
Context (n : Z).

Lemma wp_instance_release i inst :
  spec n (skynet_module_instance_release i inst) [RMod i] (λ _ R, R = []).
Proof.
  unfold skynet_module_instance_release. act sp_module_of. destruct (mod_release x).
  - call fs_release. ret.
  - ret.
Qed.

Lemma wp_delete_context c : spec n (delete_context c) [RDel c] (λ _ R, R = []).
Proof.
  unfold delete_context. local_act c. act sp_module; [by right|].
  use wp_instance_release. act sp_mark. act sp_free_context. ret.
Qed.

Lemma wp_context_release c : spec n (skynet_context_release c) [RRef c] (λ _ R, R = []).
Proof.
  unfold skynet_context_release. act sp_dec. destruct (x =? 0).
  - use wp_delete_context. ret.
  - ret.
Qed.

Lemma wp_context_push h m :
  spec n (skynet_context_push h m) (data_of m) (λ r R, R = if c_true r then data_of m else []).
Proof.
  unfold skynet_context_push. act sp_grab. destruct x as [c|]; red_res; [|ret].
  act sp_push. use wp_context_release. ret.
Qed.

Lemma wp_context_endless h : spec n (skynet_context_endless h) [] (λ _ R, R = []).
Proof.
  unfold skynet_context_endless. act sp_grab. destruct x as [c|]; red_res; [|ret].
  local_act c. use wp_context_release. ret.
Qed.

Lemma wp_handle_retire h : spec n (handle_retire h) [] (λ _ R, R = []).
Proof.
  unfold handle_retire. act sp_retire. destruct x as [c|]; red_res; [|ret].
  use wp_context_release. ret.
Qed.

Lemma wp_handle_retire_new q h :
  spec n (handle_retire h) [RQ q (QNewH h)] (λ _ R, R = [RQ q QHeld]).
Proof.
  unfold handle_retire. act sp_retire_new. destruct x as [c|]; red_res; [|ret].
  use wp_context_release. ret.
Qed.

Lemma wp_context_reserve c : spec n (skynet_context_reserve c) [RRef c] (λ _ R, R = [RRef c; RRef c]).
Proof. unfold skynet_context_reserve. act sp_inc. plain_act. ret. Qed.

Lemma wp_harbor_start c : spec n (skynet_harbor_start c) [RRef c] (λ _ R, R = [RRef c]).
Proof.
  unfold skynet_harbor_start. use wp_context_reserve. act sp_set_remote. ret.
Qed.

Lemma wp_harbor_exit : spec n skynet_harbor_exit [] (λ _ R, R = []).
Proof.
  unfold skynet_harbor_exit. act sp_clear_remote. destruct x as [c|]; red_res; [|ret].
  use wp_context_release. ret.
Qed.

(** ** Errors *)

Lemma data_of_nonzero s ss d z : d ≠ 0 → data_of (mkMsg s ss d z) = [RData d].
Proof. intros H. unfold data_of, mdata. simpl. by rewrite (proj2 (Z.eqb_neq d 0) H). Qed.

Lemma data_of_dres m : data_of m = dres (msg_data m).
Proof. unfold data_of, mdata, dres. by case_if. Qed.

Lemma wp_find_logger : spec n (h <- atom (AFindName name_logger) ;; atom (ASetLogger h)) [] (λ _ R, R = []).
Proof. plain_act. plain_act. ret. Qed.

Lemma wp_error_from source fmt : spec n (error_from source fmt) [] (λ _ R, R = []).
Proof.
  unfold error_from. plain_act. eapply (wp_use _ _ _ _ _ _ [] [] (λ _ R, R = [])); [|frame|unpack].
  { apply wp_if; intros _; [apply wp_find_logger|ret]. }
  plain_act. apply wp_if; intros _; [ret|]. destruct fmt as [text|]; [|ret].
  act sp_alloc. eapply wp_use; [apply wp_context_push|rewrite data_of_nonzero by done; frame|unpack].
  case_if; [rewrite data_of_nonzero by done|]; ret.
Qed.

Lemma wp_skynet_error context fmt :
  spec n (skynet_error context fmt) (ref_of context) (λ _ R, R = ref_of context).
Proof.
  destruct context as [c|]; cbn [skynet_error]; red_res; [|apply wp_error_from]. local_act c.
  eapply wp_mono; [apply (wp_frame _ _ _ _ [] [RRef c]), wp_error_from|]. by intros _ R' (? & -> & ->).
Qed.

(** ** Sending *)

(** The type in the high byte and the size below it do not overlap. *)
Lemma pack_type sz type :
  Z.land sz MESSAGE_TYPE_MASK = sz →
  let packed := Z.lor sz (u64 (Z.shiftl (Z.land type 0xff) MESSAGE_TYPE_SHIFT)) in
  Z.shiftr packed MESSAGE_TYPE_SHIFT = Z.land type 0xff ∧ Z.land packed MESSAGE_TYPE_MASK = sz.
Proof.
  unfold MESSAGE_TYPE_MASK, MESSAGE_TYPE_SHIFT. change 0xff with (2 ^ 8 - 1).
  cbv zeta. rewrite !(land_ones_mod _ 56), (land_ones_mod type 8) by lia.
  intros Hsz. pose proof (Z.mod_pos_bound sz (2 ^ 56)). pose proof (Z.mod_pos_bound type (2 ^ 8)).
  rewrite Z.shiftl_mul_pow2 by lia. unfold u64. rewrite (Z.mod_small (_ * _)) by lia.
  rewrite lor_add_high by lia. rewrite Z.shiftr_div_pow2 by lia. split.
  - rewrite Z.div_add, Z.div_small by lia. lia.
  - rewrite Z.mod_add by lia. done.
Qed.

Definition dontcopy (type : Z) : bool := c_true (Z.land type PTYPE_TAG_DONTCOPY).

(** What a caller of the sending functions has to respect: a session is
    allocated only for a context and in place of session 0, there is a source,
    and the two types reserved for the node itself are not sent to another node. *)
Record send_ok (context : option ptr) (source type session : Z) : Prop := {
  so_source : source = 0 → context ≠ None;
  so_session : c_true (Z.land type PTYPE_TAG_ALLOCSESSION) = true → session = 0 ∧ context ≠ None;
  so_type : Z.land type 0xff ≠ PTYPE_SYSTEM ∧ Z.land type 0xff ≠ PTYPE_HARBOR
}.

Lemma wp_isremote h : spec n (skynet_harbor_message_isremote h) [] (λ _ R, R = []).
Proof.
  unfold skynet_harbor_message_isremote. act sp_harbor. assert_act; [|ret].
  apply negb_true_iff, Z.eqb_neq. done.
Qed.

Lemma wp_harbor_send d sz source session :
  Z.shiftr sz MESSAGE_TYPE_SHIFT ≠ PTYPE_SYSTEM → Z.shiftr sz MESSAGE_TYPE_SHIFT ≠ PTYPE_HARBOR →
  spec n (skynet_harbor_send d source session) [RRmsg d sz] (λ _ R, R = []).
Proof.
  intros H1 H2. unfold skynet_harbor_send. act sp_rmsg_type. subst. assert_act.
  { by rewrite (proj2 (Z.eqb_neq _ _) H1), (proj2 (Z.eqb_neq _ _) H2). }
  act sp_harbor_send. ret.
Qed.

Lemma wp_filter_session context type session :
  (c_true (Z.land type PTYPE_TAG_ALLOCSESSION) = true → session = 0 ∧ context ≠ None) →
  spec n (if c_true (Z.land type PTYPE_TAG_ALLOCSESSION) then
            (atom (AAssert (session =? 0)) ;;
             match context with
             | Some c => atom (ANewSession c)
             | None => atom (AAssert false) ;; Ret 0
             end)
          else Ret session) (ref_of context) (λ _ R, R = ref_of context).
Proof.
  intros H. apply wp_if; intros Ht; [|ret]. destruct (H Ht) as [-> Hc]. assert_act; [done|].
  destruct context as [c|]; [|done]. red_res. local_act c. ret.
Qed.

Lemma dres_nonzero d : d ≠ 0 → dres d = [RData d].
Proof. intros H. unfold dres. by rewrite (proj2 (Z.eqb_neq d 0) H). Qed.

Lemma dres_droppable d : Forall droppable (dres d).
Proof. unfold dres. case_if; by repeat constructor. Qed.

Lemma wp_filter_data type data sz :
  spec n (if negb (c_true (Z.land type PTYPE_TAG_DONTCOPY)) && c_true data then
            (bs <- atom (ARead data sz) ;; atom (AAlloc (Bytes (bs ++ [0]))))
          else Ret data) (dres data)
    (λ d R, R = (if dontcopy type then [] else dres data) ++ dres d).
Proof.
  unfold dontcopy. destruct (c_true (Z.land type PTYPE_TAG_DONTCOPY)); cbn [negb andb app].
  - ret.
  - destruct (Z.eq_dec data 0) as [->|Hd]; [ret|].
    unfold c_true at 1. rewrite (proj2 (Z.eqb_neq _ _) Hd), dres_nonzero by done. cbn [negb].
    act sp_read. act sp_alloc. eapply wp_ret; [rewrite (dres_nonzero x0) by done; simpl app; frame|droppables].
Qed.

Lemma wp_filter_args context type session data sz :
  (c_true (Z.land type PTYPE_TAG_ALLOCSESSION) = true → session = 0 ∧ context ≠ None) →
  spec n (_filter_args context type session data sz) (ref_of context ++ dres data)
    (λ a R, a.2 = Z.lor sz (u64 (Z.shiftl (Z.land type 0xff) MESSAGE_TYPE_SHIFT))
            ∧ R = ref_of context ++ (if dontcopy type then [] else dres data) ++ dres a.1.2).
Proof.
  intros H. unfold _filter_args. eapply wp_use; [by apply wp_filter_session|frame|unpack].
  eapply wp_use; [apply wp_filter_data|frame|unpack].
  eapply wp_ret_and; [done|simpl fst; simpl snd; frame|droppables].
Qed.

Lemma wp_own_handle context source :
  (source = 0 → context ≠ None) →
  spec n (if source =? 0 then own_handle context else Ret source) (ref_of context)
    (λ h R, (h = 0 → context ≠ None) ∧ R = ref_of context).
Proof.
  intros H. apply wp_if; intros Hs; [|eapply wp_ret_and; [done|frame|droppables]].
  destruct context as [c|]; [|by destruct H; [lia|]].
  cbn [own_handle]. red_res. local_act c. eapply wp_ret_and; [done|frame|droppables].
Qed.

(** Sending as the copying or the moving branch leaves the message body. *)
Definition left_with (context : option ptr) (type data : Z) : list res :=
  ref_of context ++ (if dontcopy type then [] else dres data).

Lemma wp_free_if context type data :
  spec n (when (dontcopy type) (atom (AFree data))) (ref_of context ++ dres data)
    (λ _ R, R = left_with context type data).
Proof.
  unfold left_with. apply wp_when; intros ->; [|ret].
  act sp_free. ret.
Qed.

Lemma wp_send_remote nm dest d z source session context type data :
  Z.shiftr z MESSAGE_TYPE_SHIFT ≠ PTYPE_SYSTEM → Z.shiftr z MESSAGE_TYPE_SHIFT ≠ PTYPE_HARBOR →
  spec n (rmsg <- atom (AAlloc (Rmsg nm dest d z)) ;;
          skynet_harbor_send rmsg source session ;; Ret session)
    (ref_of context ++ (if dontcopy type then [] else dres data) ++ dres d)
    (λ _ R, R = left_with context type data).
Proof.
  intros H1 H2. act sp_alloc_rmsg. use wp_harbor_send.
  eapply (wp_ret _ _ _ (dres d)); [unfold left_with; frame|apply dres_droppable].
Qed.

Lemma wp_skynet_send context source destination type session data sz :
  send_ok context source type session →
  spec n (skynet_send context source destination type session data sz) (ref_of context ++ dres data)
    (λ _ R, R = left_with context type data).
Proof.
  intros [Hsrc Hss [Ht1 Ht2]]. unfold skynet_send. fold (dontcopy type). apply wp_if; intros Hsz.
  { use wp_skynet_error. use wp_free_if. ret. }
  apply negb_false_iff, Z.eqb_eq in Hsz. destruct (pack_type sz type Hsz) as [Hp _].
  eapply wp_use; [by apply wp_filter_args|frame|unpack]. destruct x as [[ss d] z]. simpl in * |-.
  match goal with E : _ = Z.lor _ _ |- _ => rewrite <- E in Hp; clear E end. cbn [fst snd].
  use wp_own_handle. apply wp_if; intros _.
  { eapply (wp_ret _ _ _ (dres d)); [unfold left_with; frame|apply dres_droppable]. }
  use wp_isremote. destruct x0.
  - eapply wp_perm; [apply wp_send_remote; congruence|frame].
  - eapply wp_use; [apply wp_context_push|rewrite data_of_dres; simpl msg_data; frame|unpack].
    apply wp_if; intros ->; cbn [app]; [rewrite data_of_dres; cbn [msg_data]|].
    + act sp_free. eapply wp_ret; [unfold left_with; frame|droppables].
    + eapply wp_ret; [unfold left_with; frame|droppables].
Qed.

Lemma wp_send_global context source addr type session data sz :
  send_ok context source type session → Z.land sz MESSAGE_TYPE_MASK = sz →
  spec n (a <- _filter_args context type session data sz ;;
          let '(session, data, sz) := a in
          rmsg <- atom (AAlloc (Rmsg (copy_name addr) 0 data sz)) ;;
          skynet_harbor_send rmsg source session ;;
          Ret session) (ref_of context ++ dres data) (λ _ R, R = left_with context type data).
Proof.
  intros [Hsrc Hss [Ht1 Ht2]] Hsz. destruct (pack_type sz type Hsz) as [Hp _].
  eapply wp_use; [by apply wp_filter_args|frame|unpack]. destruct x as [[ss d] z]. simpl in * |-.
  match goal with E : _ = Z.lor _ _ |- _ => rewrite <- E in Hp; clear E end. cbn [fst snd].
  eapply wp_perm; [apply wp_send_remote; congruence|frame].
Qed.

Lemma wp_skynet_sendname context source addr type session data sz :
  send_ok context source type session → Z.land sz MESSAGE_TYPE_MASK = sz →
  spec n (skynet_sendname context source addr type session data sz) (ref_of context ++ dres data)
    (λ _ R, R = left_with context type data).
Proof.
  intros Hok Hsz. unfold skynet_sendname. fold (dontcopy type).
  eapply wp_use; [by apply wp_own_handle, Hok|frame|unpack].
  assert (Hok' : send_ok context x type session) by (destruct Hok; by split).
  destruct addr as [|c rest]; [eapply wp_perm; [by apply wp_send_global|frame]|].
  apply wp_if; intros _; [eapply wp_perm; [by apply wp_skynet_send|frame]|].
  apply wp_if; intros _; [|eapply wp_perm; [by apply wp_send_global|frame]].
  plain_act. apply wp_if; intros _; [|eapply wp_perm; [by apply wp_skynet_send|frame]].
  use wp_free_if. ret.
Qed.

(** ** Dropping a queue *)

Lemma send_ok_error handle : 0 < handle → send_ok None handle PTYPE_ERROR 0.
Proof. intros H. split; [lia|vm_compute; discriminate|split; vm_compute; discriminate]. Qed.

Lemma wp_drop_message handle m :
  0 < handle → spec n (drop_message handle m) (data_of m) (λ _ R, R = []).
Proof.
  intros Hh. rewrite data_of_dres. unfold drop_message. act sp_free. assert_act.
  { unfold c_true. rewrite (proj2 (Z.eqb_neq _ _)); [done|lia]. }
  eapply wp_use; [by apply wp_skynet_send, send_ok_error|frame|unpack]. ret.
Qed.

Lemma wp_drop_body q h : 0 < h → spec n (drop_body q h) [RDead q] (λ _ R, R = [RDead q]).
Proof.
  intros Hh. unfold drop_body. act sp_pop_dead. destruct x as [m|]; [|ret].
  eapply wp_use; [by apply wp_drop_message|frame|unpack]. call fs_drop. ret.
Qed.

Lemma wp_mq_release_drop q h : 0 < h → spec n (mq_release_drop q h) [RQ q QHeld] (λ _ R, R = []).
Proof.
  intros Hh. unfold mq_release_drop. act sp_release_test. apply wp_when; intros ->; [|ret].
  call fs_drop. act sp_free_queue. ret.
Qed.

(** ** Launching *)

Lemma wp_instance_create i :
  spec n (skynet_module_instance_create i) [RMod i] (λ _ R, R = [RMod i]).
Proof.
  unfold skynet_module_instance_create. act sp_module_of. destruct (mod_create x); [|ret].
  call fs_create. ret.
Qed.

Lemma wp_instance_init i inst c param :
  spec n (skynet_module_instance_init i inst c param) [RMod i; RRef c] (λ _ R, R = [RMod i; RRef c]).
Proof.
  unfold skynet_module_instance_init. act sp_module_of. destruct (mod_init x); [|done].
  call fs_init. ret.
Qed.

Lemma wp_launch_failed c msg :
  spec n (skynet_error (Some c) msg ;;
          handle <- atom (AHandle c) ;; skynet_context_release c ;; handle_retire handle ;;
          mq_release_drop c handle ;; Ret (None : option (ptr * Z)))
    [RRef c; RQ c QNew] (λ _ R, R = []).
Proof.
  eapply wp_use; [apply wp_skynet_error|frame|unpack]. act sp_handle_new. use wp_context_release.
  eapply wp_use; [apply (wp_handle_retire_new c)|frame|unpack].
  eapply wp_use; [by apply wp_mq_release_drop|frame|unpack]. ret.
Qed.

Lemma wp_context_new name param : spec n (skynet_context_new name param) [] (λ _ R, R = []).
Proof.
  unfold skynet_context_new. act sp_module_query. destruct x as [m|]; [|ret].
  use wp_instance_create. destruct x as [inst|]; [|ret]. act sp_publish. destruct x as [c q].
  simpl in * |-. subst q. act sp_begin_new. use wp_instance_init. act sp_end_new. apply wp_if; intros _.
  - act sp_launched. destruct x2 as [h|].
    + act (sp_gpush n c QHeld). eapply wp_use; [apply wp_error_from|frame|unpack]. ret.
    + use wp_delete_context. act (sp_gpush n c QHeld). ret.
  - eapply (wp_weaken _ _ _ _ _ [RRef c; RQ c QNew] [RMod m]); [apply wp_launch_failed|frame|droppables].
Qed.

(** ** Dispatching *)

Lemma wp_run_callback c cb m type sz :
  spec n (r <- proc (FService (SCallback cb c type (msg_session m) (msg_source m) (msg_data m) sz)) ;;
          when (negb (c_true r)) (atom (AFree (msg_data m))) ;;
          atom (ACallingEnd c))
    (RRef c :: RQ c QCall :: RCb c :: data_of m) (λ _ R, R = [RRef c; RQ c QRun]).
Proof.
  rewrite data_of_dres. call fs_callback.
  eapply (wp_use _ _ _ _ _ _ _ [RRef c; RQ c QCall; RCb c] (λ _ R, R = [])).
  - apply (wp_when n _ _ (if c_true x then [] else dres (msg_data m))); destruct (c_true x); try done; intros _.
    + act sp_free. ret.
    + ret.
  - frame.
  - unpack. act sp_end. ret.
Qed.

Lemma wp_dispatch_message c m :
  spec n (dispatch_message c m) (RRef c :: RQ c QRun :: RCb c :: data_of m)
    (λ _ R, R = [RRef c; RQ c QRun]).
Proof.
  unfold dispatch_message. act sp_init. subst x. assert_act; [done|]. act sp_begin.
  local_act c. local_act c. tail. eapply wp_atom; [apply ss_cb_set|frame|unpack].
  destruct x3 as [cb|]; [|done]. eapply wp_perm; [apply wp_run_callback|frame].
Qed.

Lemma wp_run_message q m :
  spec n (cb <- atom (ACb q) ;;
          match cb with
          | None => atom (AFree (msg_data m))
          | Some _ => dispatch_message q m
          end) (RRef q :: RQ q QRun :: data_of m) (λ _ R, R = [RRef q; RQ q QRun]).
Proof.
  eapply wp_atom; [apply ss_cb|frame|unpack]. destruct x as [cb|].
  - eapply wp_perm; [apply wp_dispatch_message|frame].
  - rewrite data_of_dres. act sp_free. ret.
Qed.

Lemma wp_run_length i weight k q :
  spec n (if (i =? 0) && (weight >=? 0)
          then (len <- atom (ALength q) ;; Ret (Z.shiftr len weight)) else Ret k) [RQ q QRun]
    (λ _ R, R = [RQ q QRun]).
Proof. apply wp_if; intros _; [act sp_length|]; ret. Qed.

Lemma wp_run_body sm q h weight i k :
  0 <= sm < n →
  spec n (run_body sm q q h weight i k) [RRef q; RQ q QRun]
    (λ r R, R = match r with Some nq => queue_of nq | None => [RRef q; RQ q QRun] end).
Proof.
  intros Hsm. unfold run_body. apply wp_if; intros _; [|ret]. act sp_pop. destruct x as [m|].
  - use wp_run_length. act sp_overload.
    eapply (wp_use _ _ _ _ _ _ _ (RQ q QRun :: data_of m) (λ _ R, R = [RRef q])).
    { apply (wp_when n _ _ [RRef q]); intros _; [apply wp_skynet_error|ret]. }
    { frame. }
    unpack. plain_act. apply (wp_assoc _ _ _ (do_act (ACb q))). use wp_run_message. plain_act. call fs_run. ret.
  - use wp_context_release. act sp_gpop. ret.
Qed.

Lemma wp_next_queue q :
  spec n (nq <- atom AGlobalPop ;;
          match nq with
          | Some nq => atom (AGlobalPush q) ;; Ret (Some nq)
          | None => Ret (Some q)
          end) [RQ q QRun] (λ r R, R = queue_of r).
Proof.
  act sp_gpop_run. destruct x as [nq|]; red_res; [|ret]. act (sp_gpush n q QHeld). ret.
Qed.

Lemma wp_message_dispatch sm q weight :
  0 <= sm < n →
  spec n (skynet_context_message_dispatch sm q weight) (queue_of q) (λ r R, R = queue_of r).
Proof.
  intros Hsm. unfold skynet_context_message_dispatch.
  eapply (wp_use _ _ _ _ _ _ (queue_of q) [] (λ r R, R = queue_of r)); [|frame|].
  { destruct q; [ret|]. act sp_gpop. ret. }
  unpack. clear q. destruct x as [q|]; red_res; [|ret]. act sp_qhandle. act sp_grab_run.
  destruct x0 as [c|].
  - destruct HP as [-> ->]. call fs_run. destruct x0 as [nq|]; [ret|].
    act sp_queue_of. subst. assert_act; [by apply bool_decide_eq_true_2|].
    apply wp_assoc. use wp_next_queue. use wp_context_release. ret.
  - subst. eapply wp_use; [by apply wp_mq_release_drop|frame|unpack]. act sp_gpop. ret.
Qed.

(** ** Timer and retiring *)

Lemma wp_retireall_body i k : 0 <= i → spec n (retireall_body i k) [] (λ _ R, R = []).
Proof.
  intros Hi. unfold retireall_body. plain_act. destruct x as [h|].
  - eapply (wp_use _ _ _ _ _ _ [] [] (λ _ R, R = [])); [|frame|unpack].
    { apply wp_if; intros _; [apply wp_handle_retire|ret]. }
    tail. eapply wp_proc; [apply fs_retireall; lia|frame|unpack]. ret.
  - apply wp_if; intros _; [ret|]. tail. eapply wp_proc; [apply fs_retireall; lia|frame|unpack]. ret.
Qed.

Lemma wp_push_response h session :
  spec n (skynet_context_push h (response_message session)) [] (λ _ R, R = []).
Proof. eapply wp_mono; [apply (wp_context_push h (response_message session))|]. intros r R ->. by case_if. Qed.

Lemma wp_dispatch_list evs : spec n (dispatch_list evs) [] (λ _ R, R = []).
Proof.
  induction evs as [|ev evs IH]; cbn [dispatch_list]; [ret|]. use wp_push_response. apply IH.
Qed.

Lemma wp_timer_first_body : spec n timer_first_body [] (λ _ R, R = []).
Proof.
  unfold timer_first_body. plain_act. destruct x as [evs|evs].
  - use wp_dispatch_list. call fs_timer_first. ret.
  - apply wp_if; intros _; [ret|]. use wp_dispatch_list. call fs_timer_rest. ret.
Qed.

Lemma wp_timer_rest_body : spec n timer_rest_body [] (λ _ R, R = []).
Proof.
  unfold timer_rest_body. plain_act. apply wp_if; intros _; [ret|]. use wp_dispatch_list.
  call fs_timer_rest. ret.
Qed.

Lemma wp_timer_updates k : spec n (timer_updates k) [] (λ _ R, R = []).
Proof. induction k as [|k IH]; cbn [timer_updates]; [ret|]. call fs_timer_first. apply IH. Qed.

Lemma wp_updatetime : spec n updatetime [] (λ _ R, R = []).
Proof.
  unfold updatetime. plain_act. plain_act. apply wp_if; intros _.
  - eapply wp_use; [apply (wp_skynet_error None)|frame|unpack]. plain_act. ret.
  - apply wp_if; intros _; [|ret]. plain_act. plain_act. apply wp_timer_updates.
Qed.

Lemma wp_skynet_timeout h time session : spec n (skynet_timeout h time session) [] (λ _ R, R = []).
Proof.
  unfold skynet_timeout. apply wp_if; intros _; [use wp_push_response|plain_act]; ret.
Qed.

(** ** Threads *)

Lemma wp_monitor_check i : 0 <= i < n → spec n (skynet_monitor_check i) [] (λ _ R, R = []).
Proof.
  intros Hi. unfold skynet_monitor_check. plain_act. destruct x as [[[src dst] v]|]; [|ret].
  use wp_context_endless. apply (wp_skynet_error None).
Qed.

Lemma wp_monitor_checks k i :
  0 <= i → i + Z.of_nat k <= n → spec n (monitor_checks k i) [] (λ _ R, R = []).
Proof.
  revert i. induction k as [|k IH]; intros i Hi Hk; cbn [monitor_checks]; [ret|].
  eapply wp_use; [apply wp_monitor_check; lia|frame|unpack]. apply IH; lia.
Qed.

Lemma wp_monitor_sleep k : spec n (monitor_sleep k) [] (λ _ R, R = []).
Proof.
  induction k as [|k IH]; cbn [monitor_sleep]; [ret|]. plain_act. apply wp_if; intros _; [ret|]. apply IH.
Qed.

Lemma wp_thread_monitor : 0 <= n → spec n (thread_monitor_body n) [] (λ _ R, R = []).
Proof.
  intros Hn. unfold thread_monitor_body. plain_act. apply wp_if; intros _; [ret|].
  eapply wp_use; [apply wp_monitor_checks; lia|frame|unpack]. use wp_monitor_sleep.
  call fs_thread_monitor. ret.
Qed.

Lemma wp_thread_socket : spec n thread_socket_body [] (λ _ R, R = []).
Proof.
  unfold thread_socket_body. call fs_poll. apply wp_if; intros _; [ret|].
  apply wp_if; intros _; [plain_act; apply wp_if; intros _; [ret|]|]; call fs_thread_socket; ret.
Qed.

Lemma wp_signal_hup : spec n signal_hup [] (λ _ R, R = []).
Proof.
  unfold signal_hup. plain_act. apply wp_when; intros _; [|ret].
  eapply wp_use; [apply wp_context_push|frame|unpack]. case_if; ret.
Qed.

Lemma wp_thread_timer : spec n thread_timer_body [] (λ _ R, R = []).
Proof.
  unfold thread_timer_body. use wp_updatetime. plain_act. apply wp_if; intros _; [plain_act; ret|].
  plain_act. eapply (wp_use _ _ _ _ _ _ [] [] (λ _ R, R = [])); [|frame|unpack; call fs_thread_timer; ret].
  apply wp_when; intros _; [apply wp_signal_hup|ret].
Qed.

Lemma wp_done {A} (a : A) R : spec n (Ret a : program A) R (λ _ _, True).
Proof. exists R, []. rewrite app_nil_r. by split_and!. Qed.

Lemma wp_thread_worker id weight q :
  0 <= id < n → spec n (thread_worker_body id weight q) (queue_of q) (λ _ _, True).
Proof.
  intros Hid. unfold thread_worker_body. plain_act. destruct x; [apply wp_done|].
  eapply wp_use; [by apply wp_message_dispatch|frame|unpack].
  tail. eapply wp_proc; [by apply fs_thread_worker|frame|]. intros y Rs _. apply wp_done.
Qed.

(** ** Commands *)

Lemma wp_error_ret {A} c fmt (a : A) :
  spec n (skynet_error (Some c) fmt ;; Ret a) [RRef c] (λ _ R, R = [RRef c]).
Proof. eapply wp_use; [apply wp_skynet_error|frame|unpack]. ret. Qed.

Lemma wp_tohandle c param : spec n (tohandle c param) [RRef c] (λ _ R, R = [RRef c]).
Proof.
  unfold tohandle. destruct param as [|ch rest]; [apply wp_error_ret|].
  apply wp_if; intros _; [ret|]. apply wp_if; intros _; [plain_act; ret|apply wp_error_ret].
Qed.

Lemma wp_skynet_queryname c name : spec n (skynet_queryname c name) [RRef c] (λ _ R, R = [RRef c]).
Proof.
  unfold skynet_queryname. destruct name as [|ch rest]; [apply wp_error_ret|].
  apply wp_if; intros _; [ret|]. apply wp_if; intros _; [plain_act; ret|apply wp_error_ret].
Qed.

Lemma send_ok_client c h : send_ok (Some c) h PTYPE_CLIENT 0.
Proof. split; [done|vm_compute; discriminate|split; vm_compute; discriminate]. Qed.

Lemma wp_handle_exit c handle : spec n (handle_exit c handle) [RRef c] (λ _ R, R = [RRef c]).
Proof.
  unfold handle_exit. eapply (wp_use _ _ _ _ _ _ [RRef c] [] (λ _ R, R = [RRef c])); [|frame|unpack].
  { apply wp_if; intros _; [local_act c|]; apply wp_error_ret. }
  plain_act. eapply (wp_use _ _ _ _ _ _ [RRef c] [] (λ _ R, R = [RRef c])); [|frame|unpack].
  { apply wp_if; intros _; [|ret].
    eapply wp_use; [apply wp_skynet_send, (send_ok_client c)|frame|unpack]. ret. }
  use wp_handle_retire. ret.
Qed.

Lemma wp_cmd_reg c param : spec n (cmd_reg c param) [RRef c] (λ _ R, R = [RRef c]).
Proof.
  unfold cmd_reg. destruct param as [[|ch rest]|]; [local_act c; ret| |local_act c; ret].
  apply wp_if; intros _; [local_act c; plain_act; ret|apply wp_error_ret].
Qed.

Lemma wp_cmd_query c param : spec n (cmd_query c param) [RRef c] (λ _ R, R = [RRef c]).
Proof.
  unfold cmd_query. destruct param; [ret|]. apply wp_if; intros _; [plain_act|]; ret.
Qed.

(** Two words, the second of which is not empty. *)
Definition name_args (param : cstring) : Prop :=
  let '(name, rest) := scan_word param in name ≠ None ∧ (scan_word rest).1 ≠ None ∧ (scan_word rest).1 ≠ Some [].

Lemma wp_cmd_name c param : name_args param → spec n (cmd_name c param) [RRef c] (λ _ R, R = [RRef c]).
Proof.
  unfold cmd_name, name_args. destruct (scan_word param) as [[name|] rest]; [|by intros [? _]].
  destruct (scan_word rest).1 as [[|ch hex]|]; [by intros (_ & _ & ?)| |by intros (_ & ? & _)]. intros _.
  apply wp_if; intros _; [ret|]. cbv zeta. apply wp_if; intros _; [ret|].
  destruct name as [|ch' nm]; [ret|]. apply wp_if; intros _; [plain_act; ret|apply wp_error_ret].
Qed.

Lemma wp_cmd_kill c param : spec n (cmd_kill c param) [RRef c] (λ _ R, R = [RRef c]).
Proof.
  unfold cmd_kill. use wp_tohandle.
  eapply (wp_use _ _ _ _ _ _ [RRef c] [] (λ _ R, R = [RRef c])); [|frame|unpack; ret].
  apply wp_if; intros _; [apply wp_handle_exit|ret].
Qed.

Lemma wp_cmd_launch c param : spec n (cmd_launch c param) [RRef c] (λ _ R, R = [RRef c]).
Proof. unfold cmd_launch. destruct (strsep _ _) as [md args]. cbv zeta. use wp_context_new. ret. Qed.

Lemma wp_cmd_monitor c param : spec n (cmd_monitor c param) [RRef c] (λ _ R, R = [RRef c]).
Proof.
  unfold cmd_monitor. destruct param as [[|ch rest]|]; [plain_act; ret| |plain_act; ret].
  use wp_tohandle. plain_act. ret.
Qed.

Lemma wp_log_open c h : spec n (skynet_log_open c h) [RRef c] (λ _ R, R = [RRef c]).
Proof.
  unfold skynet_log_open. plain_act. destruct x; [|ret]. cbv zeta. plain_act. apply wp_error_ret.
Qed.

Lemma wp_cmd_logon c param : spec n (cmd_logon c param) [RRef c] (λ _ R, R = [RRef c]).
Proof.
  unfold cmd_logon. use wp_tohandle. apply wp_if; intros _; [ret|]. act sp_grab.
  destruct x0 as [d|]; red_res; [|ret]. local_act d.
  eapply (wp_use _ _ _ _ _ _ [RRef c; RRef d] [] (λ _ R, R = [RRef c; RRef d])); [|frame|].
  - destruct x0 as [f|]; [ret|]. use wp_log_open. destruct x0; [local_act d|]; ret.
  - unpack. use wp_context_release. ret.
Qed.

Lemma wp_cmd_logoff c param : spec n (cmd_logoff c param) [RRef c] (λ _ R, R = [RRef c]).
Proof.
  unfold cmd_logoff. use wp_tohandle. apply wp_if; intros _; [ret|]. act sp_grab.
  destruct x0 as [d|]; red_res; [|ret]. local_act d.
  eapply (wp_use _ _ _ _ _ _ [RRef c; RRef d] [] (λ _ R, R = [RRef c; RRef d])); [|frame|].
  - destruct x0 as [f|]; [|ret]. local_act d. apply wp_when; intros _; [|ret].
    eapply wp_mono; [eapply wp_perm; [apply (wp_frame _ _ _ _ [RRef c] [RRef d])|frame]|].
    { apply (wp_skynet_error (Some c)). }
    by intros _ R (? & -> & ->).
  - unpack. use wp_context_release. ret.
Qed.

Lemma wp_instance_signal i inst sig :
  spec n (skynet_module_instance_signal i inst sig) [RMod i] (λ _ R, R = []).
Proof.
  unfold skynet_module_instance_signal. act sp_module_of. destruct (mod_signal x); [call fs_signal|]; ret.
Qed.

Lemma wp_cmd_signal c param : spec n (cmd_signal c param) [RRef c] (λ _ R, R = [RRef c]).
Proof.
  unfold cmd_signal. use wp_tohandle. apply wp_if; intros _; [ret|]. act sp_grab.
  destruct x0 as [d|]; red_res; [|ret]. cbv zeta. act (sp_module n d (RRef d)); [by left|].
  use wp_instance_signal. use wp_context_release. ret.
Qed.

Lemma wp_cmd_timeout c param : spec n (cmd_timeout c param) [RRef c] (λ _ R, R = [RRef c]).
Proof. unfold cmd_timeout. cbv zeta. local_act c. local_act c. use wp_skynet_timeout. ret. Qed.

Lemma wp_cmd_setenv c param : spec n (cmd_setenv param) [RRef c] (λ _ R, R = [RRef c]).
Proof. unfold cmd_setenv. destruct (split_at_char _ _) as [k [|? v]]; [|plain_act]; ret. Qed.

Lemma wp_cmd_endless c : spec n (cmd_endless c) [RRef c] (λ _ R, R = [RRef c]).
Proof. unfold cmd_endless. local_act c. destruct x; [local_act c|]; ret. Qed.

(** The arguments with which a service may use a command. *)
Definition command_ok (cmd : cstring) (param : option cstring) : Prop :=
  match param with Some p => cmd = str "NAME" → name_args p | None => False end.

Lemma wp_skynet_command c cmd param :
  command_ok cmd param → spec n (skynet_command c cmd param) [RRef c] (λ _ R, R = [RRef c]).
Proof.
  destruct param as [p|]; [|done]. intros Hok. unfold skynet_command, cmd_funcs. cbn [command_lookup].
  repeat case_match; simplify_eq; unfold with_param;
    auto using wp_cmd_timeout, wp_cmd_reg, wp_cmd_query, wp_cmd_kill, wp_cmd_launch, wp_cmd_setenv,
      wp_cmd_monitor, wp_cmd_logon, wp_cmd_logoff, wp_cmd_signal, wp_cmd_endless.
  - apply wp_cmd_name, Hok. by apply strcmp_eq, Z.eqb_eq.
  - unfold cmd_exit. use wp_handle_exit. ret.
  - unfold cmd_getenv. plain_act. ret.
  - unfold cmd_starttime. plain_act. ret.
  - unfold cmd_abort, skynet_handle_retireall. tail.
    eapply wp_proc; [apply fs_retireall; lia|frame|unpack]. ret.
  - unfold cmd_mqlen. act sp_queue_length. ret.
  - ret.
Qed.

(** ** The whole node *)

(** The contract of service code: every entry point meets its specification. *)
Class ServicesSafe `{Services} : Prop :=
  service_safe : ∀ X (s : sfn X) C P, fspec n X (FService s) C P → spec n (service_code X s) C P.

Lemma node_env_sound `{Services, !ServicesSafe} X (f : fn X) C P :
  0 <= n → fspec n X f C P → spec n (node_env X f) C P.
Proof.
  intros Hn Hf. destruct Hf; cbn [node_env];
    auto using wp_drop_body, wp_run_body, wp_retireall_body, wp_timer_first_body, wp_timer_rest_body,
      wp_thread_timer, wp_thread_socket, wp_thread_monitor, wp_thread_worker;
    apply service_safe; constructor.
Qed.
End contexts.

Lemma harbor_not_unset harbor : u32 (Z.shiftl harbor HANDLE_REMOTE_SHIFT) ≠ 2 ^ 32 - 1.
Proof.
  unfold HANDLE_REMOTE_SHIFT, u32. rewrite Z.shiftl_mul_pow2 by lia. intros H.
  assert (((harbor * 2 ^ 24) mod 2 ^ 32) mod 2 ^ 24 = 0).
  { rewrite Z.mod_mod_divide by (by exists (2 ^ 8)). by apply Z.mod_mul. }
  rewrite H in *. done.
Qed.

(** The state [skynet_start] builds satisfies the invariant. *)
Lemma node_init_inv harbor path rs rn ms mn threads env clock sig fopen :
  Forall (λ t, ch_question ∈ t) (templates path) →
  safe_inv (Z.of_nat threads) [] (node_init harbor path rs rn ms mn threads env clock sig fopen).
Proof.
  intros Hpath. unfold node_init. split; [split_and!|].
  - split; simpl; try done; [constructor|apply harbor_not_unset| | |by rewrite length_replicate].
    + unfold skynet_timer_init. destruct (systime rs rn). apply (wheel_shape 1), timer_create_wheel.
    + split; simpl; [vm_compute; discriminate|apply NoDup_nil_2|constructor].
  - split; simpl; try set_solver; [apply handle_init_wf|apply NoDup_nil_2].
  - exists []. split; simpl; try set_solver; try apply NoDup_nil_2.
    split; try done. apply NoDup_nil_2.
  - exists ∅. split; simpl; try set_solver. apply NoDup_nil_2.
  - intros c H. set_solver.
Qed.

(** The threads of [start] are verified. *)
Lemma start_threads_spec thread :
  Forall (λ t, spec (Z.of_nat thread) t [] (λ _ _, True)) (start_threads thread).
Proof.
  assert (Hfn : ∀ f C P, fspec (Z.of_nat thread) () f C P → C = [] →
    spec (Z.of_nat thread) (proc f) [] (λ _ _, True)).
  { intros f C P Hf ->. apply wp_proc_tail. eapply wp_proc; [done|frame|]. intros. apply wp_done. }
  unfold start_threads. do 3 (apply Forall_cons; split; [eapply Hfn; [constructor|done]|]).
  apply Forall_fmap, Forall_forall. intros i Hi%elem_of_seq. eapply Hfn; [apply fs_thread_worker; lia|done].
Qed.

Section safety.
Context (dlopen : cstring → option Z) (dlsym : Z → cstring → option Z).
Context `{Services}.

End safety.

(** ** An example service *)

(** A service that answers every message with an empty response, like the
    entry points of a Lua service that calls [skynet.ret]. *)
Definition echo_code (X : Type) (s : sfn X) : program X :=
  match s in sfn X return program X with
  | SCreate _ => Ret (Some 1)
  | SInit _ _ c _ => atom (ASetCb c (Some 1)) ;; Ret 0
  | SRelease _ _ => Ret tt
  | SSignal _ _ _ => Ret tt
  | SCallback _ c _ session source _ _ =>
      skynet_send (Some c) 0 source PTYPE_RESPONSE session 0 0 ;; Ret 0
  | SSocketPoll => Ret 0
  end.

Definition echo_services : Services := echo_code.

Lemma send_ok_response c session : send_ok (Some c) 0 PTYPE_RESPONSE session.
Proof. split; [done|vm_compute; discriminate|split; vm_compute; discriminate]. Qed.

Lemma echo_spec n X (f : fn X) C P :
  fspec n X f C P →
  match f in fn X return (list res → (X → list res → Prop) → Prop) with
  | FService s => λ C P, spec n (echo_code _ s) C P
  | _ => λ _ _, True
  end C P.
Proof.
  intros Hf. destruct Hf; try exact I; cbn [echo_code].
  - ret.
  - local_act c. ret.
  - ret.
  - ret.
  - eapply (wp_use _ _ _ _ _ _ [RRef c] (dres d)); [apply (wp_skynet_send n (Some c)), send_ok_response|frame|].
    unpack. ret.
  - ret.
Qed.

Lemma echo_safe n : @ServicesSafe n echo_services.
Proof. intros X s C P Hs. apply (echo_spec n X (FService s) C P Hs). Qed.

(** A node with two workers whose main thread launches the logger. *)
Definition example_main : program () := skynet_context_new (str "logger") None ;; Ret tt.

Definition example_node : world :=
  node_init 1 (str "./cservice/?.so") 0 0 0 0 2 ∅ [] [] (λ _, None).

(** Steps of the last thread. *)
Section last.
Context (dlopen : cstring → option Z) (dlsym : Z → cstring → option Z) `{Services}.
Abbreviation steps := (rtc (step (astep dlopen dlsym) node_env ok)).

Lemma last_act ts X (a : act X) k w x w' c :
  ok X a w → astep dlopen dlsym X a w = Some (x, w') →
  steps (ts ++ [k x], w') c → steps (ts ++ [Act a k], w) c.
Proof.
  intros Hok Ha Hs. eapply rtc_l; [|exact Hs].
  replace (ts ++ [k x]) with (<[length ts := k x]> (ts ++ [Act a k]))
    by (rewrite insert_app_r_alt, Nat.sub_diag by lia; done).
  eapply step_act; [|done..]. by rewrite lookup_app_r, Nat.sub_diag by lia.
Qed.

Lemma last_call ts X (f : fn X) k w c :
  steps (ts ++ [bind (node_env X f) k], w) c → steps (ts ++ [Call f k], w) c.
Proof.
  intros Hs. eapply rtc_l; [|exact Hs].
  replace (ts ++ [bind (node_env X f) k]) with (<[length ts := bind (node_env X f) k]> (ts ++ [Call f k]))
    by (rewrite insert_app_r_alt, Nat.sub_diag by lia; done).
  eapply step_call. by rewrite lookup_app_r, Nat.sub_diag by lia.
Qed.
End last.

Lemma example_query :
  ∃ m, skynet_module_query (λ _, Some 1) (λ _ _, Some 1) (str "logger") (w_mods example_node) = Some (Some 0, m)
     ∧ M_count m = 1 ∧ ∃ md, zget (M_m m) 0 = Some md ∧ mod_create md = Some 1.
Proof. eexists. split; [vm_compute; reflexivity|]. split; [reflexivity|]. by eexists. Qed.

(** The launch up to the call of the logger's [create] function. *)
Lemma example_launch :
  let step := step (astep (λ _, Some 1) (λ _ _, Some 1)) (@node_env echo_services) ok in
  ∃ c, rtc step (start_threads 2 ++ [example_main], example_node) c ∧ M_count (w_mods c.2) = 1.
Proof.
  intros step. destruct example_query as (m & Hq & Hc & md & Hmd & Hcr).
  eexists (_, example_node <| w_mods := m |>). split; [|exact Hc].
  unfold example_main, skynet_context_new, skynet_module_instance_create, do_act. cbn [bind].
  eapply last_act; [exact I|cbn [astep]; rewrite Hq; cbn [mbind option_bind]; reflexivity|]. cbn [bind].
  eapply last_act; [exact I|cbn [astep]; simpl w_mods; rewrite Hmd; cbn [mbind option_bind]; reflexivity|].
  rewrite Hcr. unfold do_call. cbn [bind]. eapply (last_call _ _ (H := echo_services)). apply rtc_refl.
Qed.

