(* ===== verification/HashId.v ===== *)
(** * Connection ids (service-src/hashid.h)

    A hash table from socket ids to indices of a fixed array, used by the gate
    for its connections.  The nodes live in an array and are chained by index
    (a pointer [c] is the index [c - hi->id]).  The file shows that the table
    implements a finite map from ids to distinct indices. *)

From stdpp Require Import prelude list gmap list_numbers.
From S2P Require Import Prelude.

(** ** Data *)

Record hashid_node := mkHashidNode { hin_id : Z; hin_next : option Z }.

#[export] Instance eta_hashid_node : Eta hashid_node := λ n, mkHashidNode (hin_id n) (hin_next n).

Record hashid := mkHashid {
  hi_hashmod : Z;
  hi_cap : Z;
  hi_count : Z;
  hi_id : list hashid_node;
  hi_hash : list (option Z)
}.

#[export] Instance eta_hashid : Eta hashid :=
  λ h, mkHashid (hi_hashmod h) (hi_cap h) (hi_count h) (hi_id h) (hi_hash h).

(** ** Operations *)

(** [while (hashcap < max) hashcap *= 2;], which ends for [max <= 2^30]. *)
Fixpoint hashcap_loop (fuel : nat) (hashcap max : Z) : option Z :=
  match fuel with
  | O => None
  | S fuel => if hashcap <? max then hashcap_loop fuel (i32 (hashcap * 2)) max else Some hashcap
  end.

Definition hashid_init (max : Z) : option hashid :=
  hashcap ← hashcap_loop 32 16 max;
  Some (mkHashid (hashcap - 1) max 0 (replicate (Z.to_nat max) (mkHashidNode (-1) None))
                 (replicate (Z.to_nat hashcap) None)).

Definition hashid_clear (hi : hashid) : hashid := mkHashid 1 0 0 [] [].

(** Chains are followed for at most as many steps as there are nodes. *)
Fixpoint lookup_loop (fuel : nat) (nodes : list hashid_node) (c : option Z) (id : Z) : option Z :=
  match fuel, c with
  | _, None => Some (-1)
  | O, Some _ => None
  | S fuel, Some c =>
      n ← zget nodes c;
      if hin_id n =? id then Some c else lookup_loop fuel nodes (hin_next n) id
  end.

Definition hashid_lookup (hi : hashid) (id : Z) : option Z :=
  let h := Z.land id (hi_hashmod hi) in
  c ← zget (hi_hash hi) h;
  lookup_loop (length (hi_id hi)) (hi_id hi) c id.

(** [while (c->next) ...]: the removed node and the array with the node unlinked. *)
Fixpoint remove_loop (fuel : nat) (nodes : list hashid_node) (c id : Z)
    : option (option (Z * list hashid_node)) :=
  match fuel with
  | O => None
  | S fuel =>
      n ← zget nodes c;
      match hin_next n with
      | None => Some None
      | Some t =>
          temp ← zget nodes t;
          if hin_id temp =? id
          then nodes' ← zset nodes c (n <| hin_next := hin_next temp |>); Some (Some (t, nodes'))
          else remove_loop fuel nodes t id
      end
  end.

(** [_clear:] *)
Definition clear_node (hi : hashid) (c : Z) : option (Z * hashid) :=
  nodes ← zset (hi_id hi) c (mkHashidNode (-1) None);
  Some (c, hi <| hi_id := nodes |> <| hi_count := hi_count hi - 1 |>).

Definition hashid_remove (hi : hashid) (id : Z) : option (Z * hashid) :=
  let h := Z.land id (hi_hashmod hi) in
  start ← zget (hi_hash hi) h;
  match start with
  | None => Some (-1, hi)
  | Some c =>
      n ← zget (hi_id hi) c;
      if hin_id n =? id then
        hash ← zset (hi_hash hi) h (hin_next n);
        clear_node (hi <| hi_hash := hash |>) c
      else
        r ← remove_loop (length (hi_id hi)) (hi_id hi) c id;
        match r with
        | Some (t, nodes) => clear_node (hi <| hi_id := nodes |>) t
        | None => Some (-1, hi)
        end
  end.

(** [for (i=0;i<hi->cap;i++)]: the first free node, probing from [id]. *)
Fixpoint insert_scan (nodes : list hashid_node) (cap id : Z) (idxs : list Z) : option (option Z) :=
  match idxs with
  | [] => Some None
  | i :: idxs =>
      let index := Z.rem (i + id) cap in
      n ← zget nodes index;
      if hin_id n =? -1 then Some (Some index) else insert_scan nodes cap id idxs
  end.

Definition hashid_insert (hi : hashid) (id : Z) : option (Z * hashid) :=
  r ← insert_scan (hi_id hi) (hi_cap hi) id (seqZ 0 (hi_cap hi));
  c ← r;
  n ← zget (hi_id hi) c;
  _ ← c_assert (bool_decide (hin_next n = None));
  let h := Z.land id (hi_hashmod hi) in
  start ← zget (hi_hash hi) h;
  nodes ← zset (hi_id hi) c (mkHashidNode id start);
  hash ← zset (hi_hash hi) h (Some c);
  Some (c, hi <| hi_id := nodes |> <| hi_hash := hash |> <| hi_count := hi_count hi + 1 |>).

Definition hashid_full (hi : hashid) : bool := hi_count hi =? hi_cap hi.

(** ** Chains *)

Fixpoint chain (nodes : list hashid_node) (start : option Z) (l : list Z) : Prop :=
  match l with
  | [] => start = None
  | i :: l => start = Some i ∧ ∃ n, zget nodes i = Some n ∧ chain nodes (hin_next n) l
  end.

Lemma chain_insert_notin nodes nodes' i n start l :
  zset nodes i n = Some nodes' → i ∉ l → chain nodes start l → chain nodes' start l.
Proof.
  intros Hset. revert start. induction l as [|j l IH]; intros start Hi; simpl; [done|].
  apply not_elem_of_cons in Hi as [Hne Hi]. intros [-> (m & Hm & Hc)]. split; [done|].
  exists m. split; [by rewrite (zget_zset_ne _ _ _ _ _ Hset)|auto].
Qed.

Lemma chain_lookup nodes start l i :
  chain nodes start l → i ∈ l → ∃ n, zget nodes i = Some n.
Proof.
  revert start. induction l as [|j l IH]; intros start; simpl; [set_solver|].
  intros [-> (n & Hn & Hc)] [->|Hi]%elem_of_cons; eauto.
Qed.

(** Unlinking the node after [c]. *)
Lemma chain_unlink nodes nodes' start a c n t nt b :
  NoDup (a ++ c :: t :: b) → chain nodes start (a ++ c :: t :: b) →
  zget nodes c = Some n → zget nodes t = Some nt →
  zset nodes c (n <| hin_next := hin_next nt |>) = Some nodes' →
  chain nodes' start (a ++ c :: b).
Proof.
  intros Hnd Hc Hn Ht Hset. revert start Hc. induction a as [|x a IH]; intros start; simpl.
  - intros [-> (n' & Hn' & [Hnx (nt' & Ht' & Hb)])]. simplify_eq. split; [done|].
    eexists. split; [by eapply zget_zset_eq|]. simpl.
    eapply chain_insert_notin; [done| |done]. simpl in Hnd.
    apply NoDup_cons in Hnd as [Hnd _]. set_solver.
  - intros [-> (n' & Hn' & Hx)]. apply NoDup_cons in Hnd as [Hx' Hnd]. split; [done|].
    exists n'. split; [|auto]. rewrite (zget_zset_ne _ _ _ _ _ Hset); [done|]. set_solver.
Qed.

(** ** The table as a finite map *)

(** [m] maps ids to indices, [L h] are the nodes chained in bucket [h]. *)
Record table_ok (hi : hashid) (m : gmap Z Z) (L : Z → list Z) : Prop := {
  to_mod : ∃ k, 4 <= k <= 30 ∧ hi_hashmod hi = 2 ^ k - 1 ∧ Z.of_nat (length (hi_hash hi)) = 2 ^ k;
  to_cap : Z.of_nat (length (hi_id hi)) = hi_cap hi;
  to_chain : ∀ h start, zget (hi_hash hi) h = Some start → chain (hi_id hi) start (L h);
  to_nodup : ∀ h, NoDup (L h);
  to_in : ∀ h i, i ∈ L h ↔ ∃ j, m !! j = Some i ∧ Z.land j (hi_hashmod hi) = h;
  to_node : ∀ j i, m !! j = Some i → 0 <= j ∧ ∃ nx, zget (hi_id hi) i = Some (mkHashidNode j nx);
  to_free : ∀ i n, zget (hi_id hi) i = Some n → (∀ j, m !! j ≠ Some i) → n = mkHashidNode (-1) None;
  to_count : hi_count hi = Z.of_nat (size m)
}.

Definition hashid_ok (hi : hashid) (m : gmap Z Z) : Prop := ∃ L, table_ok hi m L.

Section table.
Context (hi : hashid) (m : gmap Z Z) (L : Z → list Z) (Hok : table_ok hi m L).

Lemma bucket_start id : ∃ start, zget (hi_hash hi) (Z.land id (hi_hashmod hi)) = Some start.
Proof.
  destruct (to_mod _ _ _ Hok) as (k & Hk & -> & Hlen). apply zget_is_Some.
  rewrite land_ones_mod, Hlen by lia. apply Z.mod_pos_bound. lia.
Qed.

Lemma table_inj j j' i : m !! j = Some i → m !! j' = Some i → j = j'.
Proof.
  intros H H'. destruct (to_node _ _ _ Hok _ _ H) as (_ & nx & Hn).
  destruct (to_node _ _ _ Hok _ _ H') as (_ & nx' & Hn'). congruence.
Qed.

Lemma table_index j i : m !! j = Some i → 0 <= i < hi_cap hi.
Proof.
  intros H. destruct (to_node _ _ _ Hok _ _ H) as (_ & nx & Hn).
  rewrite <- (to_cap _ _ _ Hok). by apply zget_Some_lt in Hn.
Qed.

(** The values of [m] are distinct indices. *)
Lemma table_indices : NoDup (map_to_list m).*2.
Proof.
  apply NoDup_fmap_2_strong; [|apply NoDup_map_to_list].
  intros [j i] [j' i'] H%elem_of_map_to_list H'%elem_of_map_to_list. simpl. intros ->.
  by rewrite (table_inj j j' i').
Qed.

Lemma table_size : Z.of_nat (size m) <= hi_cap hi.
Proof.
  assert (Hs : (map_to_list m).*2 ⊆+ seqZ 0 (hi_cap hi)).
  { apply NoDup_submseteq; [apply table_indices|]. intros i ([j i'] & -> & H)%list_elem_of_fmap.
    apply elem_of_map_to_list in H. apply elem_of_seqZ. apply table_index in H. simpl. lia. }
  apply submseteq_length in Hs. rewrite length_fmap, length_map_to_list, length_seqZ in Hs.
  pose proof (to_cap _ _ _ Hok). lia.
Qed.

Lemma table_free_exists : Z.of_nat (size m) < hi_cap hi →
  ∃ i, 0 <= i < hi_cap hi ∧ ∀ j, m !! j ≠ Some i.
Proof.
  intros Hlt. destruct (decide (Forall (λ i, i ∈ (map_to_list m).*2) (seqZ 0 (hi_cap hi)))) as [Hall|Hne].
  - assert (Hs : seqZ 0 (hi_cap hi) ⊆+ (map_to_list m).*2)
      by (apply NoDup_submseteq; [apply NoDup_seqZ|by apply Forall_forall]).
    apply submseteq_length in Hs. rewrite length_fmap, length_map_to_list, length_seqZ in Hs. lia.
  - apply not_Forall_Exists in Hne; [|intros ?; apply _]. apply Exists_exists in Hne as (i & Hi & Hn).
    exists i. split; [apply elem_of_seqZ in Hi; lia|]. intros j Hj. apply Hn.
    apply list_elem_of_fmap. exists (j, i). split; [done|]. by apply elem_of_map_to_list.
Qed.

(** ** Lookup *)

Lemma lookup_loop_spec id start l fuel :
  chain (hi_id hi) start l → (length l <= fuel)%nat →
  (∀ i, i ∈ l → ∃ j, m !! j = Some i) →
  ∃ r, lookup_loop fuel (hi_id hi) start id = Some r ∧
    ((r ∈ l ∧ m !! id = Some r) ∨ (r = -1 ∧ ∀ i, i ∈ l → m !! id ≠ Some i)).
Proof.
  revert start fuel. induction l as [|c l IH]; intros start fuel Hc Hf Hin; simpl in Hc.
  - subst start. exists (-1). split; [by destruct fuel|]. right. set_solver.
  - destruct Hc as [-> (n & Hn & Hc)]. destruct fuel as [|fuel]; simpl in Hf; [lia|].
    simpl. rewrite Hn. simpl. destruct (Hin c) as (j & Hj); [set_solver|].
    destruct (to_node _ _ _ Hok _ _ Hj) as (_ & nx & Hn'). simplify_eq. simpl in *. case_if.
    + subst j. exists c. split; [done|]. left. split; [set_solver|done].
    + destruct (IH nx fuel Hc) as (r & Hr & H); [lia|set_solver|]. exists r. split; [done|].
      destruct H as [[? ?]|[-> H]]; [left; split; [set_solver|done]|]. right. split; [done|].
      intros i [->|Hi]%elem_of_cons; [|auto]. intros He. by rewrite (table_inj j id c) in *.
Qed.

Lemma bucket_length h : (length (L h) <= length (hi_id hi))%nat.
Proof.
  assert (Hs : L h ⊆+ (map_to_list m).*2).
  { apply NoDup_submseteq; [apply Hok|]. intros i (j & Hj & _)%(to_in _ _ _ Hok).
    apply list_elem_of_fmap. exists (j, i). split; [done|]. by apply elem_of_map_to_list. }
  apply submseteq_length in Hs. rewrite length_fmap, length_map_to_list in Hs.
  pose proof table_size. rewrite <- (to_cap _ _ _ Hok) in *. lia.
Qed.

Lemma hashid_lookup_spec id : hashid_lookup hi id = Some (default (-1) (m !! id)).
Proof.
  unfold hashid_lookup. destruct (bucket_start id) as [start Hs]. rewrite Hs. simpl.
  pose proof (to_chain _ _ _ Hok _ _ Hs) as Hc.
  destruct (lookup_loop_spec id _ _ (length (hi_id hi)) Hc) as (r & -> & H).
  { apply bucket_length. }
  { intros i (j & Hj & _)%(to_in _ _ _ Hok). eauto. }
  destruct H as [[_ ->]|[-> H]]; [done|]. destruct (m !! id) as [i|] eqn:E; [|done].
  exfalso. apply (H i); [|done]. apply (to_in _ _ _ Hok). eauto.
Qed.

(** ** Insertion *)

Lemma insert_scan_spec id idxs :
  0 <= id → 0 < hi_cap hi → (∀ i, i ∈ idxs → 0 <= i) →
  ∃ r, insert_scan (hi_id hi) (hi_cap hi) id idxs = Some r ∧
    match r with
    | Some c => 0 <= c < hi_cap hi ∧ zget (hi_id hi) c = Some (mkHashidNode (-1) None) ∧ ∀ j, m !! j ≠ Some c
    | None => ∀ i, i ∈ idxs → ∃ j, m !! j = Some ((i + id) mod hi_cap hi)
    end.
Proof.
  intros Hid Hcap. induction idxs as [|i idxs IH]; intros Hi; simpl.
  { exists None. split; [done|]. set_solver. }
  rewrite Z.rem_mod_nonneg by (try lia; specialize (Hi i); set_solver by lia).
  set (c := (i + id) mod hi_cap hi). assert (Hc : 0 <= c < hi_cap hi) by (apply Z.mod_pos_bound; lia).
  destruct (zget_is_Some (hi_id hi) c) as [n Hn]; [rewrite (to_cap _ _ _ Hok); lia|]. rewrite Hn. simpl.
  destruct (decide (Exists (λ kv, kv.2 = c) (map_to_list m))) as [Hx|Hx].
  - apply Exists_exists in Hx as ([j i'] & Hj%elem_of_map_to_list & Hij). simpl in *. subst i'.
    destruct (to_node _ _ _ Hok _ _ Hj) as (Hj0 & nx & Hn'). simplify_eq. simpl.
    rewrite (proj2 (Z.eqb_neq j (-1))) by lia. destruct IH as (r & Hr & H); [set_solver|].
    exists r. split; [done|]. destruct r; [done|]. intros i0 [->|?]%elem_of_cons; eauto.
  - assert (Hnone : ∀ j, m !! j ≠ Some c).
    { intros j Hj. apply Hx, Exists_exists. exists (j, c). split; [by apply elem_of_map_to_list|done]. }
    pose proof (to_free _ _ _ Hok _ _ Hn Hnone) as ->. simpl. exists (Some c).
    split; [done|]. split; [lia|]. by split.
Qed.

Lemma insert_scan_found id :
  0 <= id → Z.of_nat (size m) < hi_cap hi →
  ∃ c, insert_scan (hi_id hi) (hi_cap hi) id (seqZ 0 (hi_cap hi)) = Some (Some c)
    ∧ 0 <= c < hi_cap hi ∧ zget (hi_id hi) c = Some (mkHashidNode (-1) None) ∧ ∀ j, m !! j ≠ Some c.
Proof.
  intros Hid Hlt. destruct (insert_scan_spec id (seqZ 0 (hi_cap hi))) as ([c|] & Hr & H); [lia..| |eauto 10|].
  { intros i Hi%elem_of_seqZ. lia. }
  destruct (table_free_exists Hlt) as (i & Hi & Hn). exfalso.
  destruct (H ((i - id) mod hi_cap hi)) as (j & Hj).
  { apply elem_of_seqZ. pose proof (Z.mod_pos_bound (i - id) (hi_cap hi)). lia. }
  rewrite Zplus_mod_idemp_l, Z.sub_add, Z.mod_small in Hj by lia. by apply (Hn j).
Qed.

Lemma hashid_insert_spec id :
  0 <= id → m !! id = None → Z.of_nat (size m) < hi_cap hi →
  ∃ c hi', hashid_insert hi id = Some (c, hi') ∧ 0 <= c < hi_cap hi ∧ (∀ j, m !! j ≠ Some c)
    ∧ hashid_ok hi' (<[id := c]> m) ∧ hi_cap hi' = hi_cap hi.
Proof.
  intros Hid Hnone Hlt. destruct (insert_scan_found id Hid Hlt) as (c & Hscan & Hc & Hn & Hfree).
  unfold hashid_insert. rewrite Hscan. simpl. rewrite Hn. simpl.
  set (h := Z.land id (hi_hashmod hi)).
  destruct (bucket_start id) as [start Hs]. fold h in Hs. rewrite Hs. simpl.
  destruct (zset (hi_id hi) c (mkHashidNode id start)) as [nodes|] eqn:Hset.
  2:{ rewrite zset_Some in Hset; [done|]. rewrite (to_cap _ _ _ Hok). lia. }
  destruct (zset (hi_hash hi) h (Some c)) as [hash|] eqn:Hhash.
  2:{ rewrite zset_Some in Hhash; [done|]. by apply zget_Some_lt in Hs. }
  simpl. eexists _, _. split; [done|]. split_and!; auto; [lia|lia|].
  assert (Hnotin : ∀ h', c ∉ L h').
  { intros h' (j & Hj & _)%(to_in _ _ _ Hok). by apply (Hfree j). }
  exists (λ h', if decide (h' = h) then c :: L h else L h').
  pose proof (to_chain _ _ _ Hok _ _ Hs) as Hch. destruct Hok as [Hmod Hcap Hchain Hnd Hin Hnode Hfr Hcnt].
  split; simpl.
  - destruct Hmod as (k & ? & ? & ?). exists k. split_and!; auto; try lia.
    by rewrite (zset_length _ _ _ _ Hhash).
  - by rewrite (zset_length _ _ _ _ Hset).
  - intros h' start' Hst. case_decide as E.
    + subst h'. rewrite (zget_zset_eq _ _ _ _ Hhash) in Hst. simplify_eq. split; [done|].
      eexists. split; [by eapply zget_zset_eq|]. simpl. by eapply chain_insert_notin.
    + rewrite (zget_zset_ne _ _ _ _ _ Hhash) in Hst by done. eapply chain_insert_notin; eauto.
  - intros h'. case_decide; [|done]. by apply NoDup_cons.
  - intros h' i. case_decide as E.
    + subst h'. rewrite elem_of_cons, Hin. split.
      * intros [->|(j & Hj & Hjh)]; [exists id; by rewrite lookup_insert_eq|].
        exists j. rewrite lookup_insert_ne by congruence. done.
      * intros (j & [[<- <-]|[_ Hj]]%lookup_insert_Some & Hjh); eauto.
    + rewrite Hin. split; intros (j & Hj & Hjh); exists j.
      * rewrite lookup_insert_ne by congruence. done.
      * apply lookup_insert_Some in Hj as [[<- <-]|[_ Hj]]; done.
  - intros j i [[<- <-]|[Hne Hj]]%lookup_insert_Some.
    + split; [done|]. exists start. by eapply zget_zset_eq.
    + destruct (Hnode _ _ Hj) as (? & nx & Hx). split; [done|]. exists nx.
      rewrite (zget_zset_ne _ _ _ _ _ Hset); [done|]. intros ->. by apply (Hfree j).
  - intros i n Hi Hno. destruct (decide (i = c)) as [->|Hne].
    + exfalso. apply (Hno id). apply lookup_insert_eq.
    + rewrite (zget_zset_ne _ _ _ _ _ Hset) in Hi by done. apply (Hfr i); [done|].
      intros j Hj. apply (Hno j). rewrite lookup_insert_ne; [done|]. congruence.
  - rewrite map_size_insert_None by done. lia.
Qed.

(** ** Removal *)

(** The node of [id] was taken out of its chain; clearing it gives a table without [id]. *)
Lemma clear_node_ok id t nodes hash l' :
  m !! id = Some t → length nodes = length (hi_id hi) → length hash = length (hi_hash hi) →
  (∀ h start, zget hash h = Some start →
     chain nodes start (if decide (h = Z.land id (hi_hashmod hi)) then l' else L h)) →
  NoDup l' → (∀ i, i ∈ l' ↔ i ∈ L (Z.land id (hi_hashmod hi)) ∧ i ≠ t) →
  (∀ i n, zget (hi_id hi) i = Some n →
     ∃ n', zget nodes i = Some n' ∧ hin_id n' = hin_id n ∧ (hin_id n = -1 → n' = n)) →
  ∃ hi', clear_node (hi <| hi_id := nodes |> <| hi_hash := hash |>) t = Some (t, hi')
    ∧ hashid_ok hi' (delete id m) ∧ hi_cap hi' = hi_cap hi.
Proof.
  intros Hid Hln Hlh Hch Hnd' Hmem Hids. unfold clear_node. simpl.
  destruct (zset nodes t (mkHashidNode (-1) None)) as [nodes2|] eqn:Hset.
  2:{ rewrite zset_Some in Hset; [done|]. rewrite Hln, (to_cap _ _ _ Hok). by apply (table_index id). }
  simpl. eexists. split; [done|]. split; [|done]. set (h := Z.land id (hi_hashmod hi)) in *.
  exists (λ h', if decide (h' = h) then l' else L h').
  assert (Hdel : ∀ j i, i ≠ t → m !! j = Some i → delete id m !! j = Some i).
  { intros j i Hne Hj. rewrite lookup_delete_ne; [done|]. congruence. }
  destruct Hok as [Hmod Hcap Hchain Hnd Hin Hnode Hfr Hcnt]. split; simpl.
  - destruct Hmod as (k & ? & ? & ?). exists k. rewrite Hlh. split_and!; auto; lia.
  - by rewrite (zset_length _ _ _ _ Hset), Hln.
  - intros h' start Hst. eapply chain_insert_notin; [done| |by apply Hch]. case_decide as E.
    + rewrite Hmem. tauto.
    + rewrite Hin. intros (j & Hj & Hjh). apply E. by rewrite <- Hjh, (table_inj j id t).
  - intros h'. by case_decide.
  - intros h' i. case_decide as E.
    + subst h'. rewrite Hmem, Hin. split.
      * intros [(j & Hj & Hjh) Hne]. eauto.
      * intros (j & [Hne Hj]%lookup_delete_Some & Hjh). split; [eauto|]. intros ->.
        by apply Hne, (table_inj id j t).
    + rewrite Hin. split; intros (j & Hj & Hjh); exists j; [|by apply lookup_delete_Some in Hj as [_ ?]].
      split; [|done]. rewrite lookup_delete_ne; [done|]. intros <-. done.
  - intros j i [Hne Hj]%lookup_delete_Some. destruct (Hnode _ _ Hj) as (? & nx & Hx). split; [done|].
    destruct (Hids _ _ Hx) as (n' & Hn' & Hi & _). destruct n' as [j' nx']. simpl in Hi. subst j'.
    exists nx'. rewrite (zget_zset_ne _ _ _ _ _ Hset); [done|]. intros <-. by apply Hne, (table_inj id j t).
  - intros i n Hi Hno. destruct (decide (i = t)) as [->|Hne].
    { rewrite (zget_zset_eq _ _ _ _ Hset) in Hi. by simplify_eq. }
    rewrite (zget_zset_ne _ _ _ _ _ Hset) in Hi by done.
    destruct (zget_is_Some (hi_id hi) i) as [n0 Hn0]; [apply zget_Some_lt in Hi; lia|].
    destruct (Hids _ _ Hn0) as (n' & Hn' & Hidn & Hsame). simplify_eq.
    assert (Hn : n0 = mkHashidNode (-1) None).
    { apply (Hfr i); [done|]. intros j Hj. apply (Hno j). eauto. }
    subst n0. by apply Hsame.
  - rewrite map_size_delete_Some by done. assert (size m ≠ 0%nat) by (eapply map_size_ne_0_lookup_2; eauto). lia.
Qed.

Lemma remove_loop_spec id c l fuel :
  chain (hi_id hi) (Some c) (c :: l) → (length l < fuel)%nat → (∀ i, i ∈ l → ∃ j, m !! j = Some i) →
  ∃ r, remove_loop fuel (hi_id hi) c id = Some r ∧
    match r with
    | None => ∀ i, i ∈ l → m !! id ≠ Some i
    | Some (t, nodes) => m !! id = Some t ∧ ∃ l1 l2 p np nt, c :: l = l1 ++ p :: t :: l2
        ∧ zget (hi_id hi) p = Some np ∧ zget (hi_id hi) t = Some nt
        ∧ zset (hi_id hi) p (np <| hin_next := hin_next nt |>) = Some nodes
    end.
Proof.
  revert c fuel. induction l as [|t l IH]; intros c fuel [_ (n & Hn & Hc)] Hf Hin;
    (destruct fuel as [|fuel]; [simpl in Hf; lia|]); cbn [remove_loop]; rewrite Hn; cbn [mbind option_bind].
  - simpl in Hc. rewrite Hc. exists None. split; [done|]. set_solver.
  - destruct Hc as [-> (nt & Ht & Hc)]. rewrite Ht. cbn [mbind option_bind].
    destruct (Hin t) as (j & Hj); [set_solver|].
    destruct (to_node _ _ _ Hok _ _ Hj) as (_ & nx & Ht'). rewrite Ht in Ht'. simplify_eq. cbn [hin_id]. case_if.
    + subst j. rewrite zset_Some by (by eapply zget_Some_lt). eexists. split; [done|]. split; [done|].
      exists [], l, c, n, (mkHashidNode id nx). split_and!; auto. apply zset_Some. by eapply zget_Some_lt.
    + destruct (IH t fuel) as (r & Hr & H); [by split; eauto|simpl in Hf; lia|set_solver|].
      exists r. split; [done|]. destruct r as [[t' nodes]|].
      * destruct H as (Ht' & l1 & l2 & p & np & nt & E & H). split; [done|].
        exists (c :: l1), l2, p, np, nt. rewrite E. split; [done|]. done.
      * intros i [->|Hi]%elem_of_cons; [|auto]. intros He. by apply (table_inj j id t) in Hj.
Qed.

(** Changing the link of a node in use. *)
Lemma relink_ids p np x nodes j :
  m !! j = Some p → zget (hi_id hi) p = Some np →
  zset (hi_id hi) p (np <| hin_next := x |>) = Some nodes →
  ∀ i n, zget (hi_id hi) i = Some n →
    ∃ n', zget nodes i = Some n' ∧ hin_id n' = hin_id n ∧ (hin_id n = -1 → n' = n).
Proof.
  intros Hj Hp Hset i n Hi. destruct (decide (i = p)) as [->|Hne].
  - simplify_eq. eexists. split; [by eapply zget_zset_eq|]. split; [done|].
    destruct (to_node _ _ _ Hok _ _ Hj) as (? & nx & Hx). simplify_eq. simpl. lia.
  - exists n. by rewrite (zget_zset_ne _ _ _ _ _ Hset).
Qed.

Lemma hashid_remove_head id c l n :
  chain (hi_id hi) (Some c) (c :: l) → L (Z.land id (hi_hashmod hi)) = c :: l →
  zget (hi_hash hi) (Z.land id (hi_hashmod hi)) = Some (Some c) → zget (hi_id hi) c = Some n →
  m !! id = Some c →
  ∃ hi', (hash ← zset (hi_hash hi) (Z.land id (hi_hashmod hi)) (hin_next n);
          clear_node (hi <| hi_hash := hash |>) c) = Some (c, hi')
    ∧ hashid_ok hi' (delete id m) ∧ hi_cap hi' = hi_cap hi.
Proof.
  intros [_ (n' & Hn' & Hc)] HL Hs Hn Hid. assert (n' = n) as -> by congruence. set (h := Z.land id (hi_hashmod hi)) in *.
  destruct (zset (hi_hash hi) h (hin_next n)) as [hash|] eqn:Hset.
  2:{ rewrite zset_Some in Hset; [done|]. by apply zget_Some_lt in Hs. }
  cbn [mbind option_bind]. replace (hi <| hi_hash := hash |>)
    with (hi <| hi_id := hi_id hi |> <| hi_hash := hash |>) by by destruct hi.
  assert (Hnd : NoDup (c :: l)) by (rewrite <- HL; apply Hok). apply NoDup_cons in Hnd as [Hcl Hnd].
  apply (clear_node_ok id c _ _ l); auto; fold h.
  - by rewrite (zset_length _ _ _ _ Hset).
  - intros h' start Hst. case_decide as E.
    + subst h'. rewrite (zget_zset_eq _ _ _ _ Hset) in Hst. by simplify_eq.
    + rewrite (zget_zset_ne _ _ _ _ _ Hset) in Hst by done. by apply (to_chain _ _ _ Hok).
  - intros i. rewrite HL, elem_of_cons. naive_solver.
  - intros i n0 Hi. exists n0. done.
Qed.

Lemma hashid_remove_spec id :
  match m !! id with
  | Some c => ∃ hi', hashid_remove hi id = Some (c, hi') ∧ hashid_ok hi' (delete id m)
                     ∧ hi_cap hi' = hi_cap hi
  | None => hashid_remove hi id = Some (-1, hi)
  end.
Proof.
  unfold hashid_remove. set (h := Z.land id (hi_hashmod hi)).
  destruct (bucket_start id) as [start Hs]. fold h in Hs. rewrite Hs. cbn [mbind option_bind].
  pose proof (to_chain _ _ _ Hok _ _ Hs) as Hch. pose proof (to_in _ _ _ Hok h) as Hin.
  pose proof (to_nodup _ _ _ Hok h) as Hnd. pose proof (bucket_length h) as Hbl.
  destruct (L h) as [|c l] eqn:HL; simpl in Hch.
  { subst start. destruct (m !! id) eqn:E; [|done].
    exfalso. assert (z ∈ @nil Z) by (apply Hin; eauto). set_solver. }
  destruct Hch as [-> (n & Hn & Hc)]. rewrite Hn. cbn [mbind option_bind].
  destruct (proj1 (Hin c)) as (j & Hj & _); [set_solver|].
  destruct (to_node _ _ _ Hok _ _ Hj) as (Hj0 & nx & Hn'). rewrite Hn in Hn'. injection Hn' as ->. cbn [hin_id].
  destruct (j =? id) eqn:E; bool_prop.
  { subst j. rewrite Hj. apply (hashid_remove_head id c l); auto. split; [done|]. eauto. }
  destruct (remove_loop_spec id c l (length (hi_id hi))) as (r & Hr & H).
  { split; [done|]. eauto. } { simpl in Hbl. lia. }
  { intros i Hi. destruct (proj1 (Hin i)) as (j' & ? & _); [set_solver|]. eauto. }
  rewrite Hr. cbn [mbind option_bind]. destruct r as [[t nodes]|].
  - destruct H as (Hid & l1 & l2 & p & np & nt & El & Hp & Ht & Hset). rewrite Hid.
    destruct (proj1 (Hin p)) as (jp & Hjp & _); [rewrite El; set_solver|].
    replace (hi <| hi_id := nodes |>) with (hi <| hi_id := nodes |> <| hi_hash := hi_hash hi |>) by by destruct hi.
    rewrite El in Hnd. assert (Htn : t ∉ l1 ++ p :: l2).
    { assert (Hp' : l1 ++ p :: t :: l2 ≡ₚ t :: l1 ++ p :: l2)
        by (rewrite (Permutation_swap t p l2); by rewrite <- Permutation_middle).
      rewrite Hp' in Hnd. by apply NoDup_cons in Hnd as [? _]. }
    apply (clear_node_ok id t _ _ (l1 ++ p :: l2)); auto; fold h.
    + by rewrite (zset_length _ _ _ _ Hset).
    + intros h' start Hst. case_decide as E'.
      * subst h'. eapply chain_unlink; [exact Hnd| |done..]. rewrite <- El, <- HL.
        by apply (to_chain _ _ _ Hok).
      * eapply chain_insert_notin; [exact Hset| |by apply (to_chain _ _ _ Hok)].
        rewrite (to_in _ _ _ Hok). intros (j' & Hj' & Hjh'). apply E'.
        rewrite <- Hjh', (table_inj j' jp p) by done.
        assert (p ∈ L h) as (j2 & Hj2 & <-)%(to_in _ _ _ Hok) by (rewrite HL, El; set_solver).
        by rewrite (table_inj jp j2 p).
    + assert (Hs2 : l1 ++ p :: l2 ⊆+ l1 ++ p :: t :: l2) by (by apply submseteq_skips_l, submseteq_skip, submseteq_cons).
      by eapply NoDup_sub.
    + intros i. rewrite HL, El. rewrite !elem_of_app, !elem_of_cons. set_solver.
    + by eapply relink_ids.
  - destruct (m !! id) as [t|] eqn:Hid; [|done]. exfalso.
    assert (Ht : t ∈ c :: l) by (apply Hin; eauto). apply elem_of_cons in Ht as [->|Ht]; [|by apply (H t)].
    by apply E, (table_inj j id c).
Qed.
End table.

Lemma hashcap_loop_spec fuel k max :
  4 <= k → max <= 2 ^ 30 → k + Z.of_nat fuel >= 31 → k <= 30 →
  ∃ k', hashcap_loop fuel (2 ^ k) max = Some (2 ^ k') ∧ k <= k' <= 30 ∧ max <= 2 ^ k'.
Proof.
  revert k. induction fuel as [|fuel IH]; intros k Hk Hmax Hf Hk30; [lia|]. cbn [hashcap_loop]. case_if.
  - assert (k < 30) by (assert (2 ^ k < 2 ^ 30) by lia; by apply (Z.pow_lt_mono_r_iff 2)).
    replace (2 ^ k * 2) with (2 ^ (k + 1)) by (rewrite Z.pow_add_r; lia).
    assert (2 ^ (k + 1) <= 2 ^ 30) by (apply Z.pow_le_mono_r; lia).
    rewrite i32_small by lia. destruct (IH (k + 1)) as (k' & ? & ? & ?); [lia..|].
    exists k'. split_and!; auto; lia.
  - exists k. split_and!; auto; lia.
Qed.

(** A larger [max] overflows [hashcap], which then stays 0: the loop never ends. *)
Lemma hashid_init_diverges max : 2 ^ 30 < max → hashid_init max = None.
Proof.
  intros Hmax. unfold hashid_init.
  assert (hashcap_loop 32 16 max = None) as ->; [|done].
  assert (Hstep : ∀ n h, h <= 2 ^ 30 → hashcap_loop (S n) h max = hashcap_loop n (i32 (h * 2)) max).
  { intros n h Hh. cbn [hashcap_loop]. by rewrite (proj2 (Z.ltb_lt _ max)) by lia. }
  do 32 (rewrite Hstep by lia;
         match goal with |- context [i32 ?x] => let v := eval vm_compute in (i32 x) in change (i32 x) with v end).
  done.
Qed.

Lemma hashid_init_spec max :
  0 < max <= 2 ^ 30 → ∃ hi, hashid_init max = Some hi ∧ hashid_ok hi ∅ ∧ hi_cap hi = max.
Proof.
  intros Hmax. unfold hashid_init. change 16 with (2 ^ 4).
  destruct (hashcap_loop_spec 32 4 max) as (k & -> & Hk & Hle); [lia..|]. simpl.
  eexists. split; [done|]. split; [|done]. exists (λ _, []). split; simpl.
  - exists k. rewrite length_replicate. split_and!; auto; lia.
  - rewrite length_replicate. lia.
  - intros h start. unfold zget. case_if; [|done]. by intros [-> _]%lookup_replicate.
  - intros h. apply NoDup_nil_2.
  - intros h i. split; [set_solver|]. intros (j & Hj & _). by rewrite lookup_empty in Hj.
  - intros j i Hj. by rewrite lookup_empty in Hj.
  - intros i n. unfold zget. case_if; [|done]. by intros [-> _]%lookup_replicate.
  - by rewrite map_size_empty.
Qed.


