(* ===== verification/DataBuffer.v ===== *)
(** * Stream buffers (service-src/databuffer.h)

    The gate collects what arrives on a connection in a linked list of blocks,
    reads it across block borders, and splits it into packages with a 2 or 4
    byte big-endian length in front.  A linked list of messages is a list; of
    the pool of message structures only the numbers of blocks and of free
    structures matter.  The file shows that a [databuffer] is a queue of bytes. *)

From stdpp Require Import prelude list gmap list_numbers.
From S2P Require Import Prelude.

(** ** Data *)

Definition MESSAGEPOOL : Z := 1023.

Record message := mkMessage { m_buffer : list Z; m_size : Z }.

(** [db_list] are the messages from [head] to [tail]. *)
Record databuffer := mkDb {
  db_header : Z;
  db_offset : Z;
  db_size : Z;
  db_list : list message
}.

#[export] Instance eta_databuffer : Eta databuffer :=
  λ d, mkDb (db_header d) (db_offset d) (db_size d) (db_list d).

(** The number of [messagepool_list] blocks, and the length of the free list. *)
Record messagepool := mkPool { mp_pool : Z; mp_freelist : Z }.

#[export] Instance eta_messagepool : Eta messagepool := λ p, mkPool (mp_pool p) (mp_freelist p).

Definition databuffer_empty : databuffer := mkDb 0 0 0 [].

(** ** Operations *)

Definition messagepool_free (mp : messagepool) : messagepool := mkPool 0 0.

(** The head leaves the list (the callers continue with the tail) and its
    structure joins the free list. *)
Definition _return_message (mp : messagepool) : messagepool := mp <| mp_freelist := mp_freelist mp + 1 |>.

(** The [for (;;)] of [databuffer_read]: the bytes, the messages left and the offset. *)
Fixpoint read_loop (msgs : list message) (offset sz : Z) (mp : messagepool)
    : option (list Z * (list message * Z) * messagepool) :=
  match msgs with
  | [] => None
  | current :: rest =>
      let bsz := m_size current - offset in
      if sz <? bsz then
        b ← copy_out (m_buffer current) offset sz;
        Some (b, (msgs, offset + sz), mp)
      else if bsz =? sz then
        b ← copy_out (m_buffer current) offset sz;
        Some (b, (rest, 0), _return_message mp)
      else
        b ← copy_out (m_buffer current) offset bsz;
        '(b', st, mp) ← read_loop rest 0 (sz - bsz) (_return_message mp);
        Some (b ++ b', st, mp)
  end.

Definition databuffer_read (db : databuffer) (mp : messagepool) (sz : Z)
    : option (list Z * databuffer * messagepool) :=
  _ ← c_assert (sz <=? db_size db);
  '(b, (msgs, offset), mp) ← read_loop (db_list db) (db_offset db) sz mp;
  Some (b, db <| db_size := db_size db - sz |> <| db_offset := offset |> <| db_list := msgs |>, mp).

Definition databuffer_push (db : databuffer) (mp : messagepool) (data : list Z) (sz : Z)
    : databuffer * messagepool :=
  let mp :=
    if 0 <? mp_freelist mp then mp <| mp_freelist := mp_freelist mp - 1 |>
    else mkPool (mp_pool mp + 1) (MESSAGEPOOL - 1) in
  (db <| db_size := i32 (db_size db + sz) |> <| db_list := db_list db ++ [mkMessage data sz] |>, mp).

(** [plen[0] << 8 | plen[1]] and [plen[0] << 24 | ...], converted to [int]. *)
Definition be_header (plen : list Z) : Z :=
  i32 (foldl (λ acc b, Z.lor (Z.shiftl acc 8) b) 0 plen).

Definition databuffer_readheader (db : databuffer) (mp : messagepool) (header_size : Z)
    : option (Z * databuffer * messagepool) :=
  let pending (db : databuffer) (mp : messagepool) :=
    Some (if db_size db <? db_header db then -1 else db_header db, db, mp) in
  if db_header db =? 0 then
    if db_size db <? header_size then Some (-1, db, mp)
    else
      '(plen, db, mp) ← databuffer_read db mp header_size;
      pending (db <| db_header := be_header plen |>) mp
  else pending db mp.

Definition databuffer_reset (db : databuffer) : databuffer := db <| db_header := 0 |>.

(** [while (db->head) _return_message (db, mp);] and [memset]. *)
Definition databuffer_clear (db : databuffer) (mp : messagepool) : databuffer * messagepool :=
  (databuffer_empty, mp <| mp_freelist := mp_freelist mp + Z.of_nat (length (db_list db)) |>).

(** ** A queue of bytes *)

Definition content (msgs : list message) : list Z := concat (m_buffer <$> msgs).

(** [s] are the bytes that were pushed and not read yet. *)
Record db_ok (db : databuffer) (s : list Z) : Prop := {
  do_content : s = drop (Z.to_nat (db_offset db)) (content (db_list db));
  do_sizes : Forall (λ m, m_size m = Z.of_nat (length (m_buffer m))) (db_list db);
  do_offset : db_offset db = 0 ∨
    ∃ m rest, db_list db = m :: rest ∧ 0 <= db_offset db < m_size m;
  do_size : db_size db = Z.of_nat (length s)
}.

Lemma read_loop_spec msgs offset sz mp :
  Forall (λ m, m_size m = Z.of_nat (length (m_buffer m))) msgs →
  (offset = 0 ∨ ∃ m rest, msgs = m :: rest ∧ 0 <= offset < m_size m) →
  0 < sz <= Z.of_nat (length (drop (Z.to_nat offset) (content msgs))) →
  ∃ msgs' offset' mp',
    read_loop msgs offset sz mp
      = Some (take (Z.to_nat sz) (drop (Z.to_nat offset) (content msgs)), (msgs', offset'), mp')
    ∧ drop (Z.to_nat offset') (content msgs') = drop (Z.to_nat sz) (drop (Z.to_nat offset) (content msgs))
    ∧ Forall (λ m, m_size m = Z.of_nat (length (m_buffer m))) msgs'
    ∧ (offset' = 0 ∨ ∃ m rest, msgs' = m :: rest ∧ 0 <= offset' < m_size m).
Proof.
  revert offset sz mp. induction msgs as [|m msgs IH]; intros offset sz mp Hsz Hoff Hle.
  { unfold content in Hle. simpl in Hle. rewrite drop_nil in Hle. simpl in Hle. lia. }
  apply Forall_cons in Hsz as [Hm Hsz]. assert (Ho : 0 <= offset <= m_size m).
  { destruct Hoff as [->|(m' & rest & [= <- <-] & ?)]; lia. }
  assert (Hc : content (m :: msgs) = m_buffer m ++ content msgs) by done.
  rewrite Hc in Hle |- *. rewrite drop_app_le in Hle |- * by lia. rewrite length_app, length_drop in Hle.
  cbn [read_loop]. case_if; [|case_if].
  - rewrite copy_out_spec by lia. cbn [mbind option_bind]. eexists _, _, _. split.
    + rewrite take_app_le by (rewrite length_drop; lia). done.
    + split_and!.
      * rewrite Hc, drop_app_le, drop_app_le by (rewrite ?length_drop; lia). rewrite drop_drop. do 2 f_equal. lia.
      * by constructor.
      * right. exists m, msgs. split; [done|]. lia.
  - rewrite copy_out_spec by lia. cbn [mbind option_bind]. eexists _, _, _. split.
    + rewrite take_app_le by (rewrite length_drop; lia). done.
    + split_and!; auto. rewrite drop_app_ge by (rewrite length_drop; lia).
      rewrite length_drop. replace (Z.to_nat sz - _)%nat with 0%nat by lia. done.
  - rewrite copy_out_spec by lia. cbn [mbind option_bind].
    destruct (IH 0 (sz - (m_size m - offset)) (_return_message mp)) as (msgs' & off' & mp' & -> & Hd & Hs' & Ho');
      [done|by left|rewrite drop_0 by done; simpl; lia|].
    cbn [mbind option_bind]. change (Z.to_nat 0) with 0%nat in *. rewrite drop_0 in *.
    eexists _, _, _. split.
    + rewrite take_app_ge by (rewrite length_drop; lia). rewrite length_drop.
      do 4 f_equal; [apply take_ge; rewrite length_drop; lia|f_equal; lia].
    + split_and!; auto. rewrite Hd, drop_app_ge by (rewrite length_drop; lia). f_equal. rewrite length_drop. lia.
Qed.

Lemma databuffer_read_spec db mp s sz :
  db_ok db s → 0 < sz <= Z.of_nat (length s) →
  ∃ db' mp', databuffer_read db mp sz = Some (take (Z.to_nat sz) s, db', mp')
    ∧ db_ok db' (drop (Z.to_nat sz) s) ∧ db_header db' = db_header db.
Proof.
  intros [Hs Hsz Ho Hl] Hle. unfold databuffer_read. rewrite (proj2 (Z.leb_le _ _)) by lia.
  cbn [c_assert mbind option_bind]. rewrite Hs in Hle.
  destruct (read_loop_spec (db_list db) (db_offset db) sz mp Hsz Ho Hle)
    as (msgs & off & mp' & -> & Hd & Hsz' & Ho').
  cbn [mbind option_bind]. rewrite <- Hs in Hd, Hle |- *. eexists _, _. split; [done|]. split; [|done].
  split; simpl; auto. rewrite length_drop. lia.
Qed.

Lemma databuffer_push_spec db mp s data :
  db_ok db s → Z.of_nat (length s) + Z.of_nat (length data) < 2 ^ 31 →
  ∃ db' mp', databuffer_push db mp data (Z.of_nat (length data)) = (db', mp')
    ∧ db_ok db' (s ++ data) ∧ db_header db' = db_header db.
Proof.
  intros [Hs Hsz Ho Hl] Hlt. unfold databuffer_push. eexists _, _. split; [done|]. split; [|done].
  assert (Hle : (Z.to_nat (db_offset db) <= length (content (db_list db)))%nat).
  { destruct Ho as [->|(m & rest & E & Ho)]; [simpl; lia|]. rewrite E in Hsz |- *.
    apply Forall_cons in Hsz as [Hm _]. unfold content. simpl. rewrite length_app. lia. }
  split; simpl.
  - unfold content. rewrite fmap_app, concat_app. simpl. rewrite app_nil_r, drop_app_le by done.
    by rewrite Hs at 1.
  - apply Forall_app. split; [done|]. by apply Forall_singleton.
  - destruct Ho as [->|(m & rest & E & Ho)]; [by left|]. right. exists m. rewrite E. eexists. by split.
  - rewrite length_app, i32_small by lia. lia.
Qed.

Lemma databuffer_clear_spec db mp : db_ok (databuffer_clear db mp).1 [].
Proof. by split; simpl; auto. Qed.

(** ** Package headers *)

(** [n] bytes of [x], most significant first. *)
Fixpoint be_bytes (n : nat) (x : Z) : list Z :=
  match n with
  | O => []
  | S n => be_bytes n (x / 256) ++ [x mod 256]
  end.

Lemma length_be_bytes n x : length (be_bytes n x) = n.
Proof. revert x. induction n as [|n IH]; intros x; simpl; [done|]. rewrite length_app, IH. simpl. lia. Qed.

Lemma be_header_i32 n x : 0 <= x < 256 ^ Z.of_nat n → be_header (be_bytes n x) = i32 x.
Proof.
  intros Hx. unfold be_header. f_equal.
  revert x Hx. induction n as [|n IH]; intros x Hx; simpl; [simpl in Hx; lia|].
  rewrite foldl_app. simpl. rewrite IH by (rewrite Nat2Z.inj_succ, Z.pow_succ_r in Hx by lia; zify_div).
  rewrite Z.shiftl_mul_pow2, Z.lor_comm, lor_add_high by zify_div. zify_div.
Qed.

Lemma be_header_bytes n x :
  0 <= x < 256 ^ Z.of_nat n → x < 2 ^ 31 → be_header (be_bytes n x) = x.
Proof. intros Hx Hlt. rewrite be_header_i32 by done. apply i32_small. lia. Qed.

(** Reading a header that is complete. *)
Lemma databuffer_readheader_spec db mp s hs :
  db_ok db s → db_header db = 0 → 0 < hs <= Z.of_nat (length s) →
  ∃ db' mp', let h := be_header (take (Z.to_nat hs) s) in
    databuffer_readheader db mp hs
      = Some (if Z.of_nat (length s) - hs <? h then -1 else h, db', mp')
    ∧ db_ok db' (drop (Z.to_nat hs) s) ∧ db_header db' = h.
Proof.
  intros Hok Hh Hhs. unfold databuffer_readheader. rewrite Hh. simpl.
  rewrite (proj2 (Z.ltb_ge _ _)) by (rewrite (do_size _ _ Hok); lia).
  destruct (databuffer_read_spec db mp s hs Hok Hhs) as (db' & mp' & -> & Hok' & _).
  cbn [mbind option_bind]. set (h := be_header _). exists (db' <| db_header := h |>), mp'.
  split; [|split; [|done]].
  - simpl. rewrite (do_size _ _ Hok'), length_drop.
    replace (Z.of_nat (length s - Z.to_nat hs)) with (Z.of_nat (length s) - hs) by lia. done.
  - by destruct Hok'; split.
Qed.

Lemma db_ok_header db s h : db_ok db s → db_ok (db <| db_header := h |>) s.
Proof. by intros []; split. Qed.
