(* ===== verification/Gate.v ===== *)
(** * The gate service (service-src/service_gate.c)

    A TCP front end: it owns a table of connections, cuts each incoming byte
    stream into packages and forwards every package to the broker, the agent of
    the connection or the watchdog.  The state of the service is a record
    [gate]; the calls it makes on the node ([skynet_send], [skynet_socket_...],
    [skynet_error]) are appended to the trace [g_ctx] that stands for its
    context.  What [skynet_queryname] and [skynet_socket_listen] answer are
    parameters.  Undefined behaviour is [None]. *)

From stdpp Require Import prelude list gmap list_numbers strings.
From S2P Require Import Prelude Skynet CString HashId DataBuffer.

(** ** Data *)

Definition BACKLOG : Z := 32.

(** A [skynet_socket_message]; the bytes that follow the structure in the same
    block ([message+1]) are the last field. *)
Record skynet_socket_message := mkSocketMessage {
  sm_type : Z;
  sm_id : Z;
  sm_ud : Z;
  sm_buffer : bytes;
  sm_tail : bytes
}.

(** The calls on the node. *)
Inductive gate_call :=
  | Csend (source destination type session : Z) (data : bytes)
  | Csocket_close (id : Z)
  | Csocket_start (id : Z)
  | Csocket_send (id : Z) (data : bytes)
  | Csocket_listen (host : bytes) (port backlog : Z)
  | Cerror (text : bytes).

Record connection := mkConnection {
  c_id : Z;
  c_agent : Z;
  c_client : Z;
  c_remote_name : bytes;
  c_buffer : databuffer
}.

#[export] Instance eta_connection : Eta connection :=
  λ c, mkConnection (c_id c) (c_agent c) (c_client c) (c_remote_name c) (c_buffer c).

Record gate := mkGate {
  g_ctx : list gate_call;
  g_listen_id : Z;
  g_watchdog : Z;
  g_broker : Z;
  g_client_tag : Z;
  g_header_size : Z;
  g_max_connection : Z;
  g_hash : hashid;
  g_conn : list connection;
  g_mp : messagepool
}.

#[export] Instance eta_gate : Eta gate := λ g, mkGate (g_ctx g) (g_listen_id g) (g_watchdog g) (g_broker g)
  (g_client_tag g) (g_header_size g) (g_max_connection g) (g_hash g) (g_conn g) (g_mp g).

(** A call on [g->ctx]. *)
Definition call (e : gate_call) (g : gate) : gate := g <| g_ctx := g_ctx g ++ [e] |>.

(** A zeroed connection with [id = -1]. *)
Definition closed_connection : connection := mkConnection (-1) 0 0 (replicate 32 0) databuffer_empty.

(** ** Creation and release *)

Definition gate_create : gate := mkGate [] (-1) 0 0 0 0 0 (mkHashid 0 0 0 [] []) [] (mkPool 0 0).

(** The calls of the loop over [g->conn]. *)
Definition release_conns (conns : list connection) : list gate_call :=
  flat_map (λ c, if 0 <=? c_id c then [Csocket_close (c_id c)] else []) conns.

(** [messagepool_free], [hashid_clear] and the two [skynet_free]. *)
Definition gate_release (g : gate) : gate :=
  let g := g <| g_ctx := g_ctx g ++ release_conns (take (Z.to_nat (g_max_connection g)) (g_conn g)) |> in
  let g := if 0 <=? g_listen_id g then call (Csocket_close (g_listen_id g)) g else g in
  let g := g <| g_mp := messagepool_free (g_mp g) |> in
  let g := g <| g_hash := hashid_clear (g_hash g) |> in
  g <| g_conn := [] |>.

(** ** Text commands

    The text is copied to a buffer [tmp] of [sz+1] bytes; pointers into it are
    indices. *)

(** [memcmp (command, literal, n) == 0], which stops at the first difference;
    [None] when it would read behind the literal and its terminating 0. *)
Fixpoint memcmp_eq (a lit : bytes) (n : nat) : option bool :=
  match n, a, lit with
  | O, _, _ => Some true
  | S n, x :: a, y :: lit => if x =? y then memcmp_eq a lit n else Some false
  | S _, _, _ => None
  end.

Definition is_command (tmp : bytes) (literal : string) (i : Z) : option bool :=
  memcmp_eq tmp (str literal ++ [0]) (Z.to_nat i).

(** [while (command_sz < sz) ...] of [_parm]; [n] is [sz - command_sz]. *)
Fixpoint parm_skip (n : nat) (msg : bytes) (command_sz : Z) : option Z :=
  match n with
  | O => Some command_sz
  | S n => c ← zget msg command_sz; if c =? 32 then parm_skip n msg (command_sz + 1) else Some command_sz
  end.

(** [msg[i-command_sz] = msg[i]] for [n] values of [i], and the final 0. *)
Fixpoint parm_move (n : nat) (msg : bytes) (i command_sz : Z) : option bytes :=
  match n with
  | O => zset msg (i - command_sz) 0
  | S n => c ← zget msg i; msg ← zset msg (i - command_sz) c; parm_move n msg (i + 1) command_sz
  end.

Definition _parm (msg : bytes) (sz command_sz : Z) : option bytes :=
  command_sz ← parm_skip (Z.to_nat (sz - command_sz)) msg command_sz;
  parm_move (Z.to_nat (sz - command_sz)) msg command_sz command_sz.

(** [strsep (&p, " ")] inside the buffer: the blank that ends the token is
    overwritten with 0. *)
Fixpoint find_blank (s : bytes) (p : Z) : option (option Z) :=
  match s with
  | [] => None
  | c :: s => if c =? 0 then Some None else if c =? 32 then Some (Some p) else find_blank s (p + 1)
  end.

Definition strsep_at (tmp : bytes) (p : Z) : option (bytes * option Z) :=
  r ← find_blank (drop (Z.to_nat p) tmp) p;
  match r with
  | None => Some (tmp, None)
  | Some q => tmp ← zset tmp q 0; Some (tmp, Some (q + 1))
  end.

Definition with_conn (g : gate) (i : Z) (f : connection → connection) : option gate :=
  c ← zget (g_conn g) i;
  conn ← zset (g_conn g) i (f c);
  Some (g <| g_conn := conn |>).

Definition _forward_agent (g : gate) (fd agentaddr clientaddr : Z) : option gate :=
  id ← hashid_lookup (g_hash g) fd;
  if 0 <=? id then with_conn g id (λ c, c <| c_agent := agentaddr |> <| c_client := clientaddr |>)
  else Some g.

(** [kick] and [start]: a call on the socket whose number follows, if it is ours. *)
Definition socket_command (g : gate) (tmp : bytes) (sz i : Z) (c : Z → gate_call) : option gate :=
  tmp ← _parm tmp sz i;
  command ← c_str tmp 0;
  let uid := i32 (strtol10 command) in
  id ← hashid_lookup (g_hash g) uid;
  Some (if 0 <=? id then call (c uid) g else g).

Definition forward_command (g : gate) (tmp : bytes) (sz i : Z) : option gate :=
  tmp ← _parm tmp sz i;
  '(tmp, client) ← strsep_at tmp 0;
  match client with
  | None => Some g
  | Some agent =>
      idstr ← c_str tmp 0;
      let id := i32 (strtol10 idstr) in
      '(tmp, client) ← strsep_at tmp agent;
      match client with
      | None => Some g
      | Some client =>
          a ← c_str tmp (agent + 1);
          c ← c_str tmp (client + 1);
          _forward_agent g id (u32 (strtoul16 a)) (u32 (strtoul16 c))
      end
  end.

(** [for (i=0;i<sz;i++) if (command[i]==' ') break;] *)
Fixpoint command_length (msg : bytes) : nat :=
  match msg with
  | [] => 0
  | c :: msg => if c =? 32 then 0 else S (command_length msg)
  end.

Section commands.

Context (queryname : bytes → Z) (listen : bytes → Z → Z).

Definition _ctrl (g : gate) (msg : bytes) : option gate :=
  let sz := Z.of_nat (length msg) in
  let tmp := msg ++ [0] in
  if sz =? 0 then Some g
  else
    let i := Z.of_nat (command_length msg) in
    kick ← is_command tmp "kick" i;
    if (kick : bool) then socket_command g tmp sz i Csocket_close
    else
      forward ← is_command tmp "forward" i;
      if (forward : bool) then forward_command g tmp sz i
      else
        broker ← is_command tmp "broker" i;
        if (broker : bool) then
          tmp ← _parm tmp sz i;
          command ← c_str tmp 0;
          Some (g <| g_broker := u32 (queryname command) |>)
        else
          start ← is_command tmp "start" i;
          if (start : bool) then socket_command g tmp sz i Csocket_start
          else
            close ← is_command tmp "close" i;
            if (close : bool) then
              Some (if 0 <=? g_listen_id g
                    then (call (Csocket_close (g_listen_id g)) g) <| g_listen_id := -1 |>
                    else g)
            else
              command ← c_str tmp 0;
              Some (call (Cerror (str "[gate] Unkown command : " ++ command)) g).

(** ** Packages *)

Definition _report (g : gate) (text : bytes) : gate :=
  if g_watchdog g =? 0 then g else call (Csend 0 (g_watchdog g) PTYPE_TEXT 0 text) g.

(** [databuffer_read (&c->buffer, &g->mp, ...)] on the connection at index [i]. *)
Definition conn_read (g : gate) (i size : Z) : option (bytes * gate) :=
  c ← zget (g_conn g) i;
  '(b, db, mp) ← databuffer_read (c_buffer c) (g_mp g) size;
  g ← with_conn (g <| g_mp := mp |>) i (λ c, c <| c_buffer := db |>);
  Some (b, g).

Definition _forward (g : gate) (i size : Z) : option gate :=
  c ← zget (g_conn g) i;
  if c_true (g_broker g) then
    '(temp, g) ← conn_read g i size;
    Some (call (Csend 0 (g_broker g) (Z.lor (g_client_tag g) PTYPE_TAG_DONTCOPY) 0 temp) g)
  else if c_true (c_agent c) then
    '(temp, g) ← conn_read g i size;
    Some (call (Csend (c_client c) (c_agent c) (Z.lor (g_client_tag g) PTYPE_TAG_DONTCOPY) 0 temp) g)
  else if c_true (g_watchdog g) then
    let prefix := print_d (c_id c) ++ str " data " in
    '(tmp, g) ← conn_read g i size;
    Some (call (Csend 0 (g_watchdog g) (Z.lor PTYPE_TEXT PTYPE_TAG_DONTCOPY) 0 (prefix ++ tmp)) g)
  else Some g.

(** The [for (;;)] of [dispatch_message]. *)
Fixpoint dispatch_loop (fuel : nat) (g : gate) (i id : Z) : option gate :=
  match fuel with
  | O => None
  | S fuel =>
      c ← zget (g_conn g) i;
      '(size, db, mp) ← databuffer_readheader (c_buffer c) (g_mp g) (g_header_size g);
      g ← with_conn (g <| g_mp := mp |>) i (λ c, c <| c_buffer := db |>);
      if size <? 0 then Some g
      else if 0 <? size then
        if 0x1000000 <=? size then
          let '(db, mp) := databuffer_clear db mp in
          g ← with_conn (g <| g_mp := mp |>) i (λ c, c <| c_buffer := db |>);
          Some (call (Cerror (str "Recv socket message > 16M")) (call (Csocket_close id) g))
        else
          g ← _forward g i size;
          g ← with_conn g i (λ c, c <| c_buffer := databuffer_reset (c_buffer c) |>);
          dispatch_loop fuel g i id
      else dispatch_loop fuel g i id
  end.

(** Every turn but the first consumes a header. *)
Definition dispatch_message (g : gate) (i id : Z) (data : bytes) (sz : Z) : option gate :=
  c ← zget (g_conn g) i;
  let '(db, mp) := databuffer_push (c_buffer c) (g_mp g) data sz in
  g ← with_conn (g <| g_mp := mp |>) i (λ c, c <| c_buffer := db |>);
  dispatch_loop (Z.to_nat (db_size db) + 2) g i id.

(** ** Socket events *)

Definition on_accept (g : gate) (message : skynet_socket_message) (sz : Z) : option gate :=
  if hashid_full (g_hash g) then Some (call (Csocket_close (sm_ud message)) g)
  else
    '(i, hash) ← hashid_insert (g_hash g) (sm_ud message);
    let g := g <| g_hash := hash |> in
    let sz := if 32 <=? sz then 31 else sz in
    name ← copy_out (sm_tail message) 0 sz;
    g ← with_conn g i (λ c,
      c <| c_id := sm_ud message |>
        <| c_remote_name := name ++ [0] ++ drop (Z.to_nat sz + 1) (c_remote_name c) |>);
    c ← zget (g_conn g) i;
    remote ← until_nul (c_remote_name c);
    let n := print_d (c_id c) in
    let g := _report g (n ++ str " open " ++ n ++ str " " ++ remote ++ str ":0") in
    Some (call (Cerror (str "socket open: " ++ print_x (u32 (c_id c)))) g).

Definition on_close (g : gate) (message : skynet_socket_message) : option gate :=
  '(i, hash) ← hashid_remove (g_hash g) (sm_id message);
  let g := g <| g_hash := hash |> in
  if 0 <=? i then
    c ← zget (g_conn g) i;
    let '(db, mp) := databuffer_clear (c_buffer c) (g_mp g) in
    g ← with_conn (g <| g_mp := mp |>) i (λ _, closed_connection);
    Some (_report g (print_d (sm_id message) ++ str " close"))
  else Some g.

Definition dispatch_socket_message (g : gate) (message : skynet_socket_message) (sz : Z) : option gate :=
  let type := sm_type message in
  if type =? SKYNET_SOCKET_TYPE_DATA then
    id ← hashid_lookup (g_hash g) (sm_id message);
    if 0 <=? id then dispatch_message g id (sm_id message) (sm_buffer message) (sm_ud message)
    else
      let g := call (Cerror (str "Drop unknown connection " ++ print_d (sm_id message) ++ str " message")) g in
      Some (call (Csocket_close (sm_id message)) g)
  else if type =? SKYNET_SOCKET_TYPE_CONNECT then
    if sm_id message =? g_listen_id g then Some g
    else
      id ← hashid_lookup (g_hash g) (sm_id message);
      if id <? 0 then
        let g := call (Cerror (str "Close unknown connection " ++ print_d (sm_id message))) g in
        Some (call (Csocket_close (sm_id message)) g)
      else Some g
  else if (type =? SKYNET_SOCKET_TYPE_CLOSE) || (type =? SKYNET_SOCKET_TYPE_ERROR) then on_close g message
  else if type =? SKYNET_SOCKET_TYPE_ACCEPT then
    _ ← c_assert (g_listen_id g =? sm_id message);
    on_accept g message sz
  else if type =? SKYNET_SOCKET_TYPE_WARNING then
    Some (call (Cerror (str "fd (" ++ print_d (sm_id message) ++ str ") send buffer ("
                        ++ print_d (sm_ud message) ++ str ")K")) g)
  else Some g.

(** ** The callback *)

(** What a message of the gate points to: bytes, or a socket message. *)
Inductive gate_msg := Mbytes (b : bytes) | Msocket (m : skynet_socket_message).

(** The last 4 bytes of a client message, little endian. *)
Definition client_id (msg : bytes) : option Z :=
  let sz := Z.of_nat (length msg) in
  b0 ← zget msg (sz - 4); b1 ← zget msg (sz - 3); b2 ← zget msg (sz - 2); b3 ← zget msg (sz - 1);
  Some (u32 (Z.lor (Z.lor (Z.lor b0 (Z.shiftl b1 8)) (Z.shiftl b2 16)) (Z.shiftl b3 24))).

(** The result is 1 when the message must not be freed. *)
Definition _cb (g : gate) (type source : Z) (msg : gate_msg) : option (gate * Z) :=
  if type =? PTYPE_TEXT then
    match msg with
    | Mbytes b => g ← _ctrl g b; Some (g, 0)
    | Msocket _ => None
    end
  else if type =? PTYPE_CLIENT then
    match msg with
    | Mbytes b =>
        let sz := Z.of_nat (length b) in
        if sz <=? 4 then
          Some (call (Cerror (str "Invalid client message from " ++ print_x source)) g, 0)
        else
          uid ← client_id b;
          id ← hashid_lookup (g_hash g) (i32 uid);
          if 0 <=? id then
            Some (call (Csocket_send (i32 uid) (take (Z.to_nat (sz - 4)) b)) g, 1)
          else
            Some (call (Cerror (str "Invalid client id " ++ print_d (i32 uid) ++ str " from " ++ print_x source)) g, 0)
    | Msocket _ => None
    end
  else if type =? PTYPE_SOCKET then
    match msg with
    | Msocket m => g ← dispatch_socket_message g m (Z.of_nat (length (sm_tail m))); Some (g, 0)
    | Mbytes _ => None
    end
  else Some (g, 0).

(** ** Initialisation *)

Definition ch_colon : Z := 58.

Definition start_listen (g : gate) (listen_addr : bytes) : gate * Z :=
  let listen_at (host : bytes) (port : Z) :=
    let lid := listen host port in
    let g := (call (Csocket_listen host port BACKLOG) g) <| g_listen_id := lid |> in
    if lid <? 0 then (g, 1) else (call (Csocket_start lid) g, 0) in
  let invalid := (call (Cerror (str "Invalid gate address " ++ listen_addr)) g, 1) in
  match strchr listen_addr ch_colon with
  | None =>
      let port := i32 (strtol10 listen_addr) in
      if port <=? 0 then invalid else listen_at [] port
  | Some portstr =>
      let port := i32 (strtol10 (drop 1 portstr)) in
      if port <=? 0 then invalid
      else listen_at (take (length listen_addr - length portstr) listen_addr) port
  end.

(** [sscanf (parm, "%c %s %s %d %d", ...)]: the number of conversions and what
    they stored; [header] is unset without the first. *)
Definition gate_parm (parm : bytes) : Z * (Z * bytes * bytes * Z * Z) :=
  match parm with
  | [] => (-1, (0, [], [], 0, 0))
  | header :: s =>
      match scan_word s with
      | (None, _) => (1, (header, [], [], 0, 0))
      | (Some watchdog, s) =>
          match scan_word s with
          | (None, _) => (2, (header, watchdog, [], 0, 0))
          | (Some binding, s) =>
              match scan_int s with
              | None => (3, (header, watchdog, binding, 0, 0))
              | Some (client_tag, s) =>
                  match scan_int s with
                  | None => (4, (header, watchdog, binding, client_tag, 0))
                  | Some (max, _) => (5, (header, watchdog, binding, client_tag, max))
                  end
              end
          end
      end
  end.

Definition ch_S : Z := 83.
Definition ch_L : Z := 76.
Definition ch_bang : Z := 33.

(** The part of [gate_init] after the parameters were accepted; [watchdog] is
    the handle it resolved to. *)
Definition gate_setup (g : gate) (header watchdog : Z) (binding : bytes) (client_tag max : Z) : option (gate * Z) :=
  hash ← hashid_init max;
  let g := g <| g_watchdog := watchdog |> <| g_hash := hash |>
             <| g_conn := replicate (Z.to_nat max) closed_connection |> <| g_max_connection := max |>
             <| g_client_tag := client_tag |> <| g_header_size := if header =? ch_S then 2 else 4 |> in
  Some (start_listen g binding).

Definition gate_init (g : gate) (parm : option bytes) : option (gate * Z) :=
  match parm with
  | None => Some (g, 1)
  | Some parm =>
      let '(n, (header, watchdog, binding, client_tag, max)) := gate_parm parm in
      if n <? 4 then Some (call (Cerror (str "Invalid gate parm " ++ parm)) g, 1)
      else if max <=? 0 then Some (call (Cerror (str "Need max connection")) g, 1)
      else if negb (header =? ch_S) && negb (header =? ch_L) then
        Some (call (Cerror (str "Invalid data header style")) g, 1)
      else
        let client_tag := if client_tag =? 0 then PTYPE_CLIENT else client_tag in
        if bool_decide (head watchdog = Some ch_bang) then gate_setup g header 0 binding client_tag max
        else
          let w := u32 (queryname watchdog) in
          if w =? 0 then Some ((call (Cerror (str "Invalid watchdog " ++ watchdog)) g) <| g_watchdog := 0 |>, 1)
          else gate_setup g header w binding client_tag max
  end.
End commands.

(** ** Reassembly of packages *)

(** What the wire carries for a package: its length on [hs] bytes, then its bytes. *)
Definition encode (hs : Z) (p : bytes) : bytes := be_bytes (Z.to_nat hs) (Z.of_nat (length p)) ++ p.

(** The message a package of connection [c] becomes. *)
Definition package_call (g : gate) (c : connection) (p : bytes) : gate_call :=
  if c_true (g_broker g) then Csend 0 (g_broker g) (Z.lor (g_client_tag g) PTYPE_TAG_DONTCOPY) 0 p
  else if c_true (c_agent c) then Csend (c_client c) (c_agent c) (Z.lor (g_client_tag g) PTYPE_TAG_DONTCOPY) 0 p
  else Csend 0 (g_watchdog g) (Z.lor PTYPE_TEXT PTYPE_TAG_DONTCOPY) 0 (print_d (c_id c) ++ str " data " ++ p).

(** Packages without bytes are skipped. *)
Definition package_calls (g : gate) (c : connection) (ps : list bytes) : list gate_call :=
  package_call g c <$> filter (λ p, p ≠ []) ps.

Definition has_destination (g : gate) (c : connection) : Prop :=
  g_broker g ≠ 0 ∨ c_agent c ≠ 0 ∨ g_watchdog g ≠ 0.

(** The bytes of a connection that have not been delivered: a header that was
    read stands in front of the buffered bytes. *)
Definition undelivered (hs : Z) (db : databuffer) (st : bytes) : Prop :=
  ∃ s, db_ok db s ∧
    (db_header db = 0 ∧ st = s
     ∨ 0 < db_header db ∧ ∃ hb, Z.of_nat (length hb) = hs ∧ be_header hb = db_header db ∧ st = hb ++ s).

(** [rest] is a proper prefix of the next package of [ps]. *)
Definition incomplete (hs : Z) (rest : bytes) (ps : list bytes) : Prop :=
  match ps with
  | [] => rest = []
  | p :: _ => ∃ tail, tail ≠ [] ∧ encode hs p = rest ++ tail
  end.

Lemma app_proper_prefix {A} (a b e x : list A) :
  a ++ b = e ++ x → (length a < length e)%nat → ∃ t, t ≠ [] ∧ e = a ++ t.
Proof.
  intros Heq Hlt. exists (drop (length a) e). split.
  - intros H%(f_equal length). rewrite length_drop in H. simpl in H. lia.
  - rewrite <- (take_drop (length a) e) at 1. f_equal.
    rewrite <- (take_app_le e x), <- Heq by lia. apply take_app_length.
Qed.

Section reassembly.

Context (g : gate) (i : Z) (c : connection).
Context (Hc : zget (g_conn g) i = Some c).

(** [g] with the buffer of the connection, the pool and the trace replaced. *)
Definition at_conn (ctx : list gate_call) (db : databuffer) (mp : messagepool) : gate :=
  g <| g_ctx := ctx |> <| g_mp := mp |> <| g_conn := <[Z.to_nat i := c <| c_buffer := db |>]> (g_conn g) |>.

Lemma at_conn_get ctx db mp : zget (g_conn (at_conn ctx db mp)) i = Some (c <| c_buffer := db |>).
Proof using Hc.
  pose proof (zget_Some_lt _ _ _ Hc). simpl. unfold zget. rewrite (proj2 (Z.leb_le _ _)) by lia.
  apply list_lookup_insert_eq. lia.
Qed.

Lemma at_conn_upd ctx db mp db' f :
  f (c <| c_buffer := db |>) = c <| c_buffer := db' |> →
  with_conn (at_conn ctx db mp) i f = Some (at_conn ctx db' mp).
Proof using Hc.
  intros Hf. pose proof (zget_Some_lt _ _ _ Hc). unfold with_conn. rewrite at_conn_get.
  cbn [mbind option_bind]. rewrite Hf. simpl g_conn. rewrite zset_Some by (rewrite length_insert; lia).
  cbn [mbind option_bind]. rewrite list_insert_insert_eq. done.
Qed.

Lemma at_conn_set ctx db mp db' mp' :
  with_conn ((at_conn ctx db mp) <| g_mp := mp' |>) i (λ c, c <| c_buffer := db' |>)
  = Some (at_conn ctx db' mp').
Proof using Hc. by apply (at_conn_upd ctx db mp' db'). Qed.

Lemma at_conn_id : at_conn (g_ctx g) (c_buffer c) (g_mp g) = g.
Proof using Hc.
  unfold at_conn. pose proof (zget_Some_lt _ _ _ Hc). revert Hc. unfold zget. case_if; [|done]. intros H'.
  rewrite list_insert_id; [by destruct g|]. rewrite H'. by destruct c.
Qed.

Context (Hdest : has_destination g c).
Context (Hhs : g_header_size g = 2 ∨ g_header_size g = 4).

(** A whole package is sent and removed. *)
Lemma forward_spec ctx db mp p s :
  p ≠ [] → db_ok db (p ++ s) →
  ∃ db' mp', _forward (at_conn ctx db mp) i (Z.of_nat (length p))
      = Some (at_conn (ctx ++ [package_call g c p]) db' mp') ∧ db_ok db' s.
Proof using Hc Hdest.
  intros Hp Hok. destruct (databuffer_read_spec db mp (p ++ s) (Z.of_nat (length p)) Hok)
    as (db' & mp' & Hr & Hok' & _).
  { rewrite length_app. destruct p; [done|simpl; lia]. }
  rewrite Nat2Z.id, drop_app_length in Hok'. rewrite Nat2Z.id, take_app_length in Hr.
  assert (Hread : conn_read (at_conn ctx db mp) i (Z.of_nat (length p)) = Some (p, at_conn ctx db' mp')).
  { unfold conn_read. rewrite at_conn_get. cbn [mbind option_bind]. simpl c_buffer. simpl g_mp. rewrite Hr.
    cbn [mbind option_bind]. by rewrite at_conn_set. }
  exists db', mp'. split; [|done]. unfold _forward, package_call. rewrite at_conn_get.
  cbn [mbind option_bind]. simpl g_broker. simpl c_agent. simpl g_watchdog.
  destruct (c_true (g_broker g)) eqn:Eb; [by rewrite Hread|].
  destruct (c_true (c_agent c)) eqn:Ea; [by rewrite Hread|].
  destruct (c_true (g_watchdog g)) eqn:Ew; [by rewrite Hread; simpl; rewrite <- (assoc_L (++))|].
  unfold c_true in *. bool_prop. destruct Hdest as [?|[?|?]]; lia.
Qed.

(** A header that is complete is read; the bytes not delivered stay the same. *)
Lemma readheader_step db mp st p st' tail :
  undelivered (g_header_size g) db st → Z.of_nat (length p) < 2 ^ 24 →
  (Z.of_nat (length p) < 256 ^ g_header_size g) → st ++ tail = encode (g_header_size g) p ++ st' →
  (Z.of_nat (length st) < g_header_size g
   ∧ databuffer_readheader db mp (g_header_size g) = Some (-1, db, mp))
  ∨ ∃ db' mp' s, st = be_bytes (Z.to_nat (g_header_size g)) (Z.of_nat (length p)) ++ s ∧ s ++ tail = p ++ st'
    ∧ databuffer_readheader db mp (g_header_size g)
      = Some (if Z.of_nat (length s) <? Z.of_nat (length p) then -1 else Z.of_nat (length p), db', mp')
    ∧ db_ok db' s ∧ db_header db' = Z.of_nat (length p)
    ∧ db_size db' <= db_size db - (if decide (p = []) then 1 else 0).
Proof using Hhs.
  intros (s & Hok & Hst) Hp24 Hp Heq. unfold encode in Heq. set (hs := g_header_size g) in *.
  set (hb := be_bytes (Z.to_nat hs) (Z.of_nat (length p))) in *.
  assert (Hhb : length hb = Z.to_nat hs) by apply length_be_bytes.
  assert (Hbe : be_header hb = Z.of_nat (length p)).
  { apply be_header_bytes; [|lia]. rewrite Z2Nat.id by lia. lia. }
  destruct Hst as [[Hh ->]|(Hh & hb' & Hl & Hbe' & ->)].
  - destruct (decide (Z.of_nat (length s) < hs)) as [Hlt|Hge].
    + left. split; [done|]. unfold databuffer_readheader. rewrite Hh. simpl.
      rewrite (do_size _ _ Hok). by rewrite (proj2 (Z.ltb_lt _ _)) by done.
    + right. destruct (databuffer_readheader_spec db mp s hs Hok Hh) as (db' & mp' & Hr & Hok' & Hh'); [lia|].
      assert (Htk : take (Z.to_nat hs) s = hb).
      { rewrite <- (take_app_le s tail), Heq, <- (assoc_L (++)) by lia. rewrite <- Hhb. apply take_app_length. }
      rewrite Htk, Hbe in Hr, Hh'. exists db', mp', (drop (Z.to_nat hs) s). split_and!; auto.
      * by rewrite <- Htk, take_drop.
      * rewrite <- (take_drop (Z.to_nat hs) s), Htk, <- !(assoc_L (++)) in Heq. by apply app_inv_head in Heq.
      * rewrite Hr, length_drop. by replace (Z.of_nat (length s - Z.to_nat hs)) with (Z.of_nat (length s) - hs) by lia.
      * rewrite (do_size _ _ Hok), (do_size _ _ Hok'), length_drop. case_decide; lia.
  - right. rewrite <- !(assoc_L (++)) in Heq. apply app_inj_1 in Heq as [-> Heq]; [|lia].
    exists db, mp, s. rewrite Hbe in Hbe'. split_and!; auto; [|case_decide; [subst p; simpl in Hbe'|]; lia].
    unfold databuffer_readheader. rewrite (proj2 (Z.eqb_neq _ _)) by lia.
    by rewrite (do_size _ _ Hok), <- Hbe'.
Qed.

Lemma package_calls_app ps1 ps2 :
  package_calls g c (ps1 ++ ps2) = package_calls g c ps1 ++ package_calls g c ps2.
Proof. unfold package_calls. by rewrite filter_app, fmap_app. Qed.

(** A turn that has to wait for more bytes ends the loop. *)
Lemma wait_step fuel ctx db mp db' mp' size id :
  databuffer_readheader db mp (g_header_size g) = Some (size, db', mp') → size < 0 →
  dispatch_loop (S fuel) (at_conn ctx db mp) i id = Some (at_conn ctx db' mp').
Proof using Hc.
  intros Hr Hneg. cbn [dispatch_loop]. rewrite at_conn_get. cbn [mbind option_bind]. simpl c_buffer.
  simpl g_mp. simpl g_header_size. rewrite Hr. cbn [mbind option_bind]. rewrite at_conn_set.
  cbn [mbind option_bind]. by rewrite (proj2 (Z.ltb_lt _ _)).
Qed.

(** A turn on a package that is complete. *)
Lemma deliver_step fuel ctx db0 mp0 db mp p s id :
  databuffer_readheader db0 mp0 (g_header_size g) = Some (Z.of_nat (length p), db, mp) →
  db_ok db (p ++ s) → Z.of_nat (length p) < 2 ^ 24 → db_header db = Z.of_nat (length p) →
  ∃ db' mp',
    dispatch_loop (S fuel) (at_conn ctx db0 mp0) i id
      = dispatch_loop fuel (at_conn (ctx ++ package_calls g c [p]) db' mp') i id
    ∧ db_ok db' s ∧ db_header db' = 0 ∧ db_size db' <= db_size db - (if decide (p = []) then 0 else 1).
Proof using Hc Hdest.
  intros Hr Hok Hp Hh. cbn [dispatch_loop]. rewrite at_conn_get. cbn [mbind option_bind]. simpl c_buffer.
  simpl g_mp. simpl g_header_size. rewrite Hr. cbn [mbind option_bind]. rewrite at_conn_set.
  cbn [mbind option_bind]. rewrite (proj2 (Z.ltb_ge _ 0)) by lia. unfold package_calls. rewrite filter_cons.
  destruct (decide (p = [])) as [->|Hne].
  - simpl. rewrite app_nil_r. exists db, mp. split_and!; auto. lia.
  - assert (0 < Z.of_nat (length p)) by (destruct p; [done|simpl; lia]).
    rewrite (proj2 (Z.ltb_lt _ _)), (proj2 (Z.leb_gt _ _)), decide_True by (done || lia).
    destruct (forward_spec ctx db mp p s Hne Hok) as (db' & mp' & -> & Hok'). cbn [mbind option_bind].
    exists (databuffer_reset db'), mp'. split_and!; auto.
    + by rewrite (at_conn_upd _ db' mp' (databuffer_reset db')).
    + by apply db_ok_header.
    + simpl. rewrite (do_size _ _ Hok), (do_size _ _ Hok'), length_app. lia.
Qed.

(** The loop delivers the complete packages and keeps the rest. *)
Lemma dispatch_loop_spec ps : ∀ fuel ctx db mp st tail id,
  undelivered (g_header_size g) db st →
  Forall (λ p, Z.of_nat (length p) < Z.min (2 ^ 24) (256 ^ g_header_size g)) ps →
  st ++ tail = concat (encode (g_header_size g) <$> ps) →
  db_size db + 2 <= Z.of_nat fuel →
  ∃ ps1 ps2 rest db' mp',
    dispatch_loop fuel (at_conn ctx db mp) i id = Some (at_conn (ctx ++ package_calls g c ps1) db' mp')
    ∧ ps = ps1 ++ ps2 ∧ st = concat (encode (g_header_size g) <$> ps1) ++ rest
    ∧ incomplete (g_header_size g) rest ps2 ∧ undelivered (g_header_size g) db' rest.
Proof using Hc Hdest Hhs.
  induction ps as [|p ps IH]; intros fuel ctx db mp st tail id Hun Hlen Heq Hfuel;
    (destruct fuel as [|fuel]; [destruct Hun as (s & Hok & _); rewrite (do_size _ _ Hok) in Hfuel; lia|]).
  - apply app_nil in Heq as [-> ->]. exists [], [], [], db, mp. rewrite app_nil_r.
    destruct Hun as (s & Hok & [[Hh Hs]|(_ & hb & Hl & _ & Hs)]);
      [|symmetry in Hs; apply app_nil in Hs as [-> _]; simpl in Hl; lia].
    subst s. split_and!; try done; [|by exists []; auto].
    apply (wait_step _ _ _ _ _ _ (-1)); [|lia]. unfold databuffer_readheader. rewrite Hh, (do_size _ _ Hok). simpl.
    by rewrite (proj2 (Z.ltb_lt _ _)) by lia.
  - apply Forall_cons in Hlen as [Hp Hlen]. rewrite fmap_cons in Heq. cbn [concat] in Heq.
    set (hs := g_header_size g) in *.
    assert (Z.of_nat (length p) < 2 ^ 24 ∧ Z.of_nat (length p) < 256 ^ hs) as [Hp24 Hp256] by lia.
    destruct (readheader_step db mp st p _ tail Hun Hp24 Hp256 Heq)
      as [[Hlt Hr]|(db' & mp' & s & Hst & Hs & Hr & Hok & Hh & Hsz)];
      [|fold hs in Hst; destruct (Z.ltb_spec (Z.of_nat (length s)) (Z.of_nat (length p)))].
    + exists [], (p :: ps), st, db, mp. rewrite app_nil_r. split_and!; auto; [by eapply wait_step|].
      eapply app_proper_prefix; [done|]. unfold encode. rewrite length_app, length_be_bytes. lia.
    + exists [], (p :: ps), st, db', mp'. rewrite app_nil_r. split_and!; auto; [by eapply wait_step| |].
      * eapply app_proper_prefix; [done|]. rewrite Hst. unfold encode. rewrite !length_app. lia.
      * exists s. split; [done|]. right. rewrite Hh. split; [lia|]. eexists. split_and!; [| |exact Hst].
        -- rewrite length_be_bytes. lia.
        -- apply be_header_bytes; [rewrite Z2Nat.id by lia|]; lia.
    + assert (s = p ++ drop (length p) s) as Hs'.
      { rewrite <- (take_drop (length p) s) at 1. f_equal.
        rewrite <- (take_app_le s tail), Hs by lia. apply take_app_length. }
      destruct (deliver_step fuel ctx db mp db' mp' p (drop (length p) s) id) as (db2 & mp2 & -> & Hok2 & Hh2 & Hsz2);
        [done|by rewrite <- Hs'|lia|done|].
      destruct (IH fuel (ctx ++ package_calls g c [p]) db2 mp2 (drop (length p) s) tail id)
        as (ps1 & ps2 & rest & db3 & mp3 & -> & -> & Hd & Hin & Hun3); [by eexists; eauto|done| |case_decide; lia|].
      { rewrite Hs', <- (assoc_L (++)) in Hs. by apply app_inv_head in Hs. }
      exists (p :: ps1), ps2, rest, db3, mp3. split_and!; auto.
      * by rewrite <- (assoc_L (++)), <- package_calls_app.
      * rewrite fmap_cons. cbn [concat]. unfold encode at 1. rewrite Hst, Hs', Hd at 1. by rewrite !(assoc_L (++)).
Qed.

Lemma dispatch_message_spec ps ctx db mp st data tail id :
  undelivered (g_header_size g) db st →
  Z.of_nat (length st) + Z.of_nat (length data) < 2 ^ 31 →
  Forall (λ p, Z.of_nat (length p) < Z.min (2 ^ 24) (256 ^ g_header_size g)) ps →
  (st ++ data) ++ tail = concat (encode (g_header_size g) <$> ps) →
  ∃ ps1 ps2 rest db' mp',
    dispatch_message (at_conn ctx db mp) i id data (Z.of_nat (length data))
      = Some (at_conn (ctx ++ package_calls g c ps1) db' mp')
    ∧ ps = ps1 ++ ps2 ∧ st ++ data = concat (encode (g_header_size g) <$> ps1) ++ rest
    ∧ incomplete (g_header_size g) rest ps2 ∧ undelivered (g_header_size g) db' rest.
Proof using Hc Hdest Hhs.
  intros (s & Hok & Hst) Hlt Hlen Heq.
  assert (Hs : (length s <= length st)%nat).
  { destruct Hst as [[_ ->]|(_ & hb & _ & _ & ->)]; [done|]. rewrite length_app. lia. }
  unfold dispatch_message. rewrite at_conn_get. cbn [mbind option_bind]. simpl c_buffer. simpl g_mp.
  destruct (databuffer_push_spec db mp s data Hok) as (db' & mp' & -> & Hok' & Hh'); [lia|].
  rewrite at_conn_set. cbn [mbind option_bind]. eapply dispatch_loop_spec; eauto.
  - exists (s ++ data). split; [done|]. rewrite Hh'.
    destruct Hst as [[? ->]|(? & hb & ? & ? & ->)]; [by left|right]. split; [done|].
    exists hb. by rewrite (assoc_L (++)).
  - rewrite (do_size _ _ Hok'). lia.
Qed.

(** The socket events that carry a stream, chunk by chunk. *)
Definition data_message (id : Z) (data : bytes) : skynet_socket_message :=
  mkSocketMessage SKYNET_SOCKET_TYPE_DATA id (Z.of_nat (length data)) data [].

Lemma chunks_spec chunks : ∀ ps ctx db mp st tail id,
  hashid_lookup (g_hash g) id = Some i →
  undelivered (g_header_size g) db st → incomplete (g_header_size g) st ps →
  Z.of_nat (length (st ++ concat chunks)) < 2 ^ 31 →
  Forall (λ p, Z.of_nat (length p) < Z.min (2 ^ 24) (256 ^ g_header_size g)) ps →
  (st ++ concat chunks) ++ tail = concat (encode (g_header_size g) <$> ps) →
  ∃ ps1 ps2 rest db' mp',
    foldl (λ r data, g ← r; dispatch_socket_message g (data_message id data) 0) (Some (at_conn ctx db mp)) chunks
      = Some (at_conn (ctx ++ package_calls g c ps1) db' mp')
    ∧ ps = ps1 ++ ps2 ∧ st ++ concat chunks = concat (encode (g_header_size g) <$> ps1) ++ rest
    ∧ incomplete (g_header_size g) rest ps2.
Proof using Hc Hdest Hhs.
  induction chunks as [|d chunks IH]; intros ps ctx db mp st tail id Hid Hun Hin Hlt Hlen Heq; simpl.
  { exists [], ps, st, db, mp. by rewrite !app_nil_r. }
  simpl in Hlt, Heq. rewrite (assoc_L (++) st), length_app, (length_app st) in Hlt.
  rewrite (assoc_L (++) st), <- (assoc_L (++) (st ++ d)) in Heq.
  destruct (dispatch_message_spec ps ctx db mp st d (concat chunks ++ tail) id)
    as (ps1 & ps2 & rest & db' & mp' & Hd & -> & Hst & Hin' & Hun'); [done|lia|done|done|].
  unfold dispatch_socket_message at 2. simpl sm_type. simpl sm_id. simpl sm_ud. simpl sm_buffer. simpl g_hash.
  rewrite Hid. cbn [mbind option_bind Z.eqb SKYNET_SOCKET_TYPE_DATA Pos.eqb].
  pose proof (zget_Some_lt _ _ _ Hc). rewrite (proj2 (Z.leb_le _ _)), Hd by lia.
  rewrite Hst, <- (assoc_L (++)), fmap_app, concat_app in Heq. apply app_inv_head in Heq.
  destruct (IH ps2 (ctx ++ package_calls g c ps1) db' mp' rest tail id)
    as (ps3 & ps4 & rest' & db2 & mp2 & -> & -> & Hst' & Hin2); auto.
  { apply (f_equal length) in Hst. rewrite length_app in Hst |- *. rewrite length_app in Hst. lia. }
  { by apply Forall_app in Hlen as [_ ?]. }
  { by rewrite <- (assoc_L (++)). }
  exists (ps1 ++ ps3), ps4, rest', db2, mp2.
  rewrite package_calls_app, !(assoc_L (++)), Hst, fmap_app, concat_app, <- !(assoc_L (++)), Hst'.
  by rewrite !(assoc_L (++)).
Qed.

End reassembly.

