(* ===== verification/GateSafe.v ===== *)
(** * Safety of the gate

    An invariant of the gate that ties its connection table to the hash table
    and its buffers to byte queues, and the proof that every callback, whatever
    bytes a client sends, runs to its end without undefined behaviour and keeps
    the invariant. *)

From stdpp Require Import prelude list gmap list_numbers strings.
From S2P Require Import Prelude Skynet CString HashId DataBuffer Gate.

(** ** The invariant *)

(** A connection: its buffer is a byte queue, its name a C string of 32 bytes. *)
Record conn_ok (c : connection) : Prop := {
  co_buffer : ∃ s, db_ok (c_buffer c) s;
  co_name : length (c_remote_name c) = 32%nat
}.

(** The hash table maps exactly the ids of the open connections to their indices. *)
Record gate_ok (g : gate) : Prop := {
  go_table : ∃ m, hashid_ok (g_hash g) m
    ∧ hi_cap (g_hash g) = Z.of_nat (length (g_conn g))
    ∧ (∀ i c, zget (g_conn g) i = Some c → 0 <= c_id c → m !! c_id c = Some i)
    ∧ (∀ id i, m !! id = Some i → 0 <= id ∧ ∃ c, zget (g_conn g) i = Some c ∧ c_id c = id);
  go_conns : Forall conn_ok (g_conn g);
  go_header : g_header_size g = 2 ∨ g_header_size g = 4
}.

(** Parts of the state the invariant does not look at. *)
Definition same_table (g g' : gate) : Prop :=
  g_hash g' = g_hash g ∧ g_header_size g' = g_header_size g ∧ g_conn g' = g_conn g.

Lemma same_table_ok g g' : same_table g g' → gate_ok g → gate_ok g'.
Proof.
  intros (Hh & Hs & Hc) [Ht Hf Hhs]. split; rewrite ?Hh, ?Hs, ?Hc; auto.
Qed.

Lemma call_ok e g : gate_ok g → gate_ok (call e g).
Proof. by apply same_table_ok. Qed.

#[export] Hint Resolve call_ok : skynet.

Lemma zget_insert {A} (l : list A) i j x y :
  zget l i = Some y → zget (<[Z.to_nat i := x]> l) j = if decide (j = i) then Some x else zget l j.
Proof.
  intros Hi. pose proof (zset_Some l i x (zget_Some_lt _ _ _ Hi)) as Hset. case_decide as Hj.
  - subst j. eapply zget_zset_eq; eauto.
  - eapply zget_zset_ne; eauto.
Qed.

(** A connection changes, but not its id. *)
Lemma with_conn_ok g i c f :
  gate_ok g → zget (g_conn g) i = Some c → conn_ok (f c) → c_id (f c) = c_id c →
  ∃ g', with_conn g i f = Some g' ∧ gate_ok g'
    ∧ g' = g <| g_conn := <[Z.to_nat i := f c]> (g_conn g) |>.
Proof.
  intros Hg Hc Hf Hid. pose proof (zget_Some_lt _ _ _ Hc) as Hi. unfold with_conn. rewrite Hc.
  cbn [mbind option_bind]. rewrite zset_Some by done. cbn [mbind option_bind]. eexists. split; [done|].
  split; [|done]. destruct Hg as [(m & Hm & Hcap & H1 & H2) Hcs Hhs].
  split; simpl; auto.
  - exists m. rewrite length_insert. split_and!; auto.
    + intros j c' Hj Hpos. rewrite (zget_insert _ _ _ _ _ Hc) in Hj. case_decide; [|by eauto]. simplify_eq. rewrite Hid in *. eauto.
    + intros id j Hj. destruct (H2 id j Hj) as (Hpos & c' & Hc' & Hid'). split; [done|].
      rewrite (zget_insert _ _ _ _ _ Hc). case_decide; [|by eauto]. subst j. assert (c' = c) as -> by congruence.
      exists (f c). split; [done|]. congruence.
  - by apply Forall_insert.
Qed.

(** ** Packages *)

Lemma zget_conn_ok g i c : gate_ok g → zget (g_conn g) i = Some c → conn_ok c.
Proof.
  intros [_ Hf _] Hc. revert Hc. unfold zget. case_if; [|done]. intros Hc. by eapply Forall_lookup_1 in Hf.
Qed.

Lemma set_buffer_ok g i c mp db s :
  gate_ok g → zget (g_conn g) i = Some c → db_ok db s →
  ∃ g', with_conn (g <| g_mp := mp |>) i (λ c, c <| c_buffer := db |>) = Some g' ∧ gate_ok g'
    ∧ zget (g_conn g') i = Some (c <| c_buffer := db |>) ∧ g_header_size g' = g_header_size g.
Proof.
  intros Hg Hc Hdb.
  destruct (with_conn_ok (g <| g_mp := mp |>) i c (λ c, c <| c_buffer := db |>)) as (g' & Hw & Hg' & ->); auto.
  { by apply (same_table_ok g). }
  { split; [by eauto|]. by apply (co_name _ (zget_conn_ok _ _ _ Hg Hc)). }
  eexists. split; [done|]. split; [done|]. split; [|done]. simpl.
  eapply zget_zset_eq, zset_Some, zget_Some_lt, Hc.
Qed.

(** Forwarding takes the package out of the buffer, or leaves it there. *)
Lemma forward_ok g i c s size :
  gate_ok g → zget (g_conn g) i = Some c → db_ok (c_buffer c) s → 0 < size <= Z.of_nat (length s) →
  ∃ g' db' s', _forward g i size = Some g' ∧ gate_ok g' ∧ zget (g_conn g') i = Some (c <| c_buffer := db' |>)
    ∧ db_ok db' s' ∧ (length s' <= length s)%nat ∧ g_header_size g' = g_header_size g.
Proof.
  intros Hg Hc Hdb Hsz. unfold _forward. rewrite Hc. cbn [mbind option_bind].
  destruct (databuffer_read_spec (c_buffer c) (g_mp g) s size Hdb Hsz) as (db' & mp' & Hr & Hdb' & _).
  destruct (set_buffer_ok g i c mp' db' _ Hg Hc Hdb') as (g' & Hw & Hg' & Hc' & Hhs').
  assert (Hread : conn_read g i size = Some (take (Z.to_nat size) s, g')).
  { unfold conn_read. rewrite Hc. cbn [mbind option_bind]. rewrite Hr. cbn [mbind option_bind]. by rewrite Hw. }
  repeat case_if; try (rewrite Hread; cbn [mbind option_bind]; eexists _, db', _;
    split_and!; eauto with skynet; rewrite length_drop; lia).
  exists g, (c_buffer c), s. split_and!; auto. by destruct c.
Qed.

(** Reading a header consumes it or changes nothing. *)
Lemma readheader_ok db mp s hs :
  db_ok db s → 0 < hs →
  ∃ size db' mp' s', databuffer_readheader db mp hs = Some (size, db', mp') ∧ db_ok db' s'
    ∧ (size < 0 ∨ size = db_header db' ∧ 0 <= size <= Z.of_nat (length s')
                 ∧ (db_header db = 0 ∧ Z.of_nat (length s') = Z.of_nat (length s) - hs
                    ∨ db_header db ≠ 0 ∧ s' = s ∧ db' = db)).
Proof.
  intros Hdb Hhs. destruct (decide (db_header db = 0)) as [Hh|Hh].
  - destruct (decide (Z.of_nat (length s) < hs)).
    + exists (-1), db, mp, s. unfold databuffer_readheader. rewrite Hh, (do_size _ _ Hdb). simpl.
      rewrite (proj2 (Z.ltb_lt _ _)) by lia. split_and!; auto. left. lia.
    + destruct (databuffer_readheader_spec db mp s hs Hdb Hh) as (db' & mp' & Hr & Hdb' & Hh'); [lia|].
      set (h := be_header _) in *. eexists _, db', mp', _. split; [exact Hr|]. split; [done|].
      case_if; [left; lia|]. rewrite length_drop. destruct (decide (h < 0)); [by left|right]. split; [done|].
      split; [lia|]. left. split; [done|lia].
  - unfold databuffer_readheader. rewrite (proj2 (Z.eqb_neq _ _)) by done. eexists _, db, mp, s.
    split; [done|]. split; [done|]. rewrite (do_size _ _ Hdb).
    case_if; [left; lia|]. destruct (decide (db_header db < 0)); [by left|right]. split; [done|]. split; [lia|by right].
Qed.

(** The loop ends whatever the bytes are: every turn but the first consumes a header. *)
Lemma dispatch_loop_ok fuel : ∀ g i c s id,
  gate_ok g → zget (g_conn g) i = Some c → db_ok (c_buffer c) s →
  (Z.of_nat (length s) + (if db_header (c_buffer c) =? 0 then 1 else 2) <= Z.of_nat fuel) →
  ∃ g', dispatch_loop fuel g i id = Some g' ∧ gate_ok g'.
Proof.
  induction fuel as [|fuel IH]; intros g i c s id Hg Hc Hdb Hf; [revert Hf; case_if; lia|].
  assert (Hhs : 2 <= g_header_size g) by (destruct (go_header _ Hg); lia).
  cbn [dispatch_loop]. rewrite Hc. cbn [mbind option_bind].
  destruct (readheader_ok (c_buffer c) (g_mp g) s (g_header_size g) Hdb) as (size & db & mp & s1 & -> & Hdb1 & Hsize);
    [lia|]. cbn [mbind option_bind].
  destruct (set_buffer_ok g i c mp db s1 Hg Hc Hdb1) as (g1 & -> & Hg1 & Hc1 & Hhs1). cbn [mbind option_bind].
  case_if; [by eauto|]. destruct Hsize as [?|(Hh & Hle & Hcase)]; [lia|]. case_if; [case_if|].
  - destruct (set_buffer_ok g1 i _ (databuffer_clear db mp).2 databuffer_empty [] Hg1 Hc1) as (g2 & Hw & Hg2 & _).
    { apply (databuffer_clear_spec databuffer_empty (mkPool 0 0)). }
    simpl in Hw |- *. rewrite Hw. cbn [mbind option_bind]. eauto with skynet.
  - destruct (forward_ok g1 i _ s1 size Hg1 Hc1) as (g2 & db2 & s2 & -> & Hg2 & Hc2 & Hdb2 & Hl2 & Hhs2); [done|lia|].
    cbn [mbind option_bind].
    assert (Hdb3 : db_ok (databuffer_reset db2) s2) by by apply db_ok_header.
    destruct (with_conn_ok g2 i _ (λ c, c <| c_buffer := databuffer_reset (c_buffer c) |>) Hg2 Hc2)
      as (g3 & -> & Hg3 & E); [split; [by eauto|by apply (co_name _ (zget_conn_ok _ _ _ Hg2 Hc2))]|done|].
    cbn [mbind option_bind]. eapply IH; [exact Hg3| | |].
    + rewrite E. simpl. eapply zget_zset_eq, zset_Some, zget_Some_lt, Hc2.
    + exact Hdb3.
    + simpl. revert Hf. case_if; destruct Hcase as [[??]|(? & -> & ->)]; lia.
  - eapply IH; [done|exact Hc1|exact Hdb1|]. simpl. rewrite <- Hh. assert (size = 0) as -> by lia. simpl.
    revert Hf. case_if; destruct Hcase as [[??]|(? & -> & ->)]; lia.
Qed.

(** ** Text commands *)

Lemma until_nul_Some s : 0 ∈ s → ∃ r, until_nul s = Some r.
Proof.
  induction s as [|x s IH]; intros Hin; [set_solver|]. simpl. case_if; [eauto|].
  destruct IH as [r ->]; [set_solver|]. simpl. eauto.
Qed.

(** A C string starts at every index up to some 0 byte. *)
Lemma c_str_Some tmp p k : 0 <= p <= k → zget tmp k = Some 0 → ∃ r, c_str tmp p = Some r.
Proof.
  intros Hp Hk. unfold c_str. rewrite (proj2 (Z.leb_le _ _)) by lia. apply until_nul_Some.
  revert Hk. unfold zget. case_if; [|done]. intros Hk. apply list_elem_of_lookup.
  exists (Z.to_nat k - Z.to_nat p)%nat. rewrite lookup_drop. rewrite <- Hk. f_equal. lia.
Qed.

(** On text without 0 bytes [memcmp] stops inside the literal. *)
Lemma memcmp_eq_Some a b lit n :
  Forall (λ x, x ≠ 0) a → (n <= length a)%nat → ∃ r, memcmp_eq (a ++ b) (lit ++ [0]) n = Some r.
Proof.
  intros Ha. revert lit n. induction Ha as [|x a Hx Ha IH]; intros lit n Hn; destruct n as [|n]; simpl; eauto.
  { exists true. by destruct b. }
  { simpl in Hn. lia. }
  destruct lit as [|y lit]; simpl.
  - rewrite (proj2 (Z.eqb_neq _ _)) by done. eauto.
  - case_if; [|eauto]. apply IH. simpl in Hn. lia.
Qed.

Lemma command_length_le msg : (command_length msg <= length msg)%nat.
Proof. induction msg as [|x msg IH]; simpl; [done|]. case_if; lia. Qed.

Lemma parm_skip_spec n msg k :
  0 <= k → k + Z.of_nat n < Z.of_nat (length msg) →
  ∃ k', parm_skip n msg k = Some k' ∧ k <= k' <= k + Z.of_nat n.
Proof.
  revert k. induction n as [|n IH]; intros k Hk Hn; cbn [parm_skip]; [exists k; split; [done|lia]|].
  destruct (zget_is_Some msg k) as [x ->]; [lia|]. cbn [mbind option_bind]. case_if.
  - destruct (IH (k + 1)) as (k' & -> & ?); [lia..|]. exists k'. split; [done|lia].
  - exists k. split; [done|lia].
Qed.

Lemma parm_move_spec n : ∀ msg i k sz,
  0 <= k <= i → i + Z.of_nat n = sz → Z.of_nat (length msg) = sz + 1 →
  ∃ msg', parm_move n msg i k = Some msg' ∧ length msg' = length msg
    ∧ zget msg' (sz - k) = Some 0 ∧ (∀ j, sz - k < j → zget msg' j = zget msg j).
Proof.
  induction n as [|n IH]; intros msg i k sz Hk Hi Hl; cbn [parm_move].
  - assert (i = sz) as -> by lia. destruct (zset msg (sz - k) 0) as [msg'|] eqn:Hset;
      [|rewrite zset_Some in Hset; [done|lia]].
    exists msg'. split_and!; eauto with skynet. intros j Hj. eapply zget_zset_ne; [done|lia].
  - destruct (zget_is_Some msg i) as [x ->]; [lia|]. cbn [mbind option_bind].
    destruct (zset msg (i - k) x) as [msg'|] eqn:Hset; [|rewrite zset_Some in Hset; [done|lia]].
    cbn [mbind option_bind]. pose proof (zset_length _ _ _ _ Hset) as Hl'.
    destruct (IH msg' (i + 1) k sz) as (m2 & -> & Hl2 & H0 & Hj); [lia..|].
    exists m2. split_and!; [done|lia|done|]. intros j Hlt. rewrite Hj by done. eapply zget_zset_ne; [done|lia].
Qed.

(** After [_parm] the parameter is a C string, and after it the old bytes remain. *)
Lemma parm_spec msg sz i :
  0 <= i <= sz → Z.of_nat (length msg) = sz + 1 →
  ∃ msg' k, _parm msg sz i = Some msg' ∧ length msg' = length msg ∧ i <= k <= sz
    ∧ zget msg' (sz - k) = Some 0 ∧ (∀ j, sz - k < j → zget msg' j = zget msg j).
Proof.
  intros Hi Hl. unfold _parm.
  destruct (parm_skip_spec (Z.to_nat (sz - i)) msg i) as (k & -> & Hk); [lia..|]. cbn [mbind option_bind].
  destruct (parm_move_spec (Z.to_nat (sz - k)) msg k k sz) as (msg' & -> & ? & ? & ?); [lia..|].
  exists msg', k. split_and!; auto; lia.
Qed.

Lemma find_blank_spec s p k :
  s !! k = Some 0 → ∃ r, find_blank s p = Some r ∧ ∀ q, r = Some q → p <= q < p + Z.of_nat k.
Proof.
  revert p k. induction s as [|x s IH]; intros p k Hk; [done|]. cbn [find_blank].
  case_if; [by exists None|]. destruct k as [|k]; [simpl in Hk; congruence|]. case_if.
  - eexists. split; [done|]. intros q [= <-]. lia.
  - destruct (IH (p + 1) k) as (r & -> & Hr); [done|]. eexists. split; [done|]. intros q Hq. specialize (Hr q Hq). lia.
Qed.

(** [strsep] before a 0 byte at [k]: the next token starts at or before [k]. *)
Lemma strsep_at_spec tmp p k :
  0 <= p <= k → zget tmp k = Some 0 →
  ∃ tmp' r, strsep_at tmp p = Some (tmp', r) ∧
    match r with
    | None => tmp' = tmp
    | Some q => p < q <= k ∧ zget tmp' (q - 1) = Some 0 ∧ (∀ j, q <= j → zget tmp' j = zget tmp j)
    end.
Proof.
  intros Hp Hk. pose proof (zget_Some_lt _ _ _ Hk) as Hlt. unfold strsep_at.
  destruct (find_blank_spec (drop (Z.to_nat p) tmp) p (Z.to_nat k - Z.to_nat p)) as (r & -> & Hr).
  { revert Hk. unfold zget. case_if; [|done]. intros Hk. rewrite lookup_drop, <- Hk. f_equal. lia. }
  cbn [mbind option_bind]. destruct r as [q|]; [|by eexists _, None].
  specialize (Hr q eq_refl). destruct (zset tmp q 0) as [tmp'|] eqn:Hset;
    [|rewrite zset_Some in Hset; [done|lia]].
  cbn [mbind option_bind]. eexists _, (Some (q + 1)). split; [done|]. split; [lia|].
  replace (q + 1 - 1) with q by lia. split; [by eapply zget_zset_eq|].
  intros j Hj. eapply zget_zset_ne; [done|lia].
Qed.

Lemma zget_last msg : zget (msg ++ [0]) (Z.of_nat (length msg)) = Some 0.
Proof. rewrite zget_nat. apply list_lookup_middle. done. Qed.

Section commands.

Context (queryname : bytes → Z).

Lemma lookup_ok g id : gate_ok g →
  ∃ i, hashid_lookup (g_hash g) id = Some i ∧ (0 <= i → ∃ c, zget (g_conn g) i = Some c ∧ c_id c = id).
Proof.
  intros [(m & [L Hm] & _ & _ & H2) _ _]. exists (default (-1) (m !! id)).
  split; [by eapply hashid_lookup_spec|]. destruct (m !! id) as [i|] eqn:E; simpl; [|lia].
  intros _. by destruct (H2 id i E) as (_ & c & ? & ?); eauto.
Qed.

Lemma socket_command_ok g msg i e :
  gate_ok g → 0 <= i <= Z.of_nat (length msg) →
  ∃ g', socket_command g (msg ++ [0]) (Z.of_nat (length msg)) i e = Some g' ∧ gate_ok g'.
Proof.
  intros Hg Hi. unfold socket_command.
  destruct (parm_spec (msg ++ [0]) (Z.of_nat (length msg)) i) as (tmp & k & -> & _ & Hk & H0 & _);
    [done|rewrite length_app; simpl; lia|]. cbn [mbind option_bind].
  destruct (c_str_Some tmp 0 (Z.of_nat (length msg) - k)) as [r ->]; [lia|done|]. cbn [mbind option_bind].
  destruct (lookup_ok g (i32 (strtol10 r)) Hg) as (id & -> & _). cbn [mbind option_bind].
  eexists. split; [done|]. case_if; eauto with skynet.
Qed.

Lemma forward_command_ok g msg i :
  gate_ok g → 0 < i <= Z.of_nat (length msg) →
  ∃ g', forward_command g (msg ++ [0]) (Z.of_nat (length msg)) i = Some g' ∧ gate_ok g'.
Proof.
  intros Hg Hi. unfold forward_command. set (sz := Z.of_nat (length msg)) in *.
  destruct (parm_spec (msg ++ [0]) sz i) as (tmp & k & -> & Hl & Hk & H0 & Hj);
    [lia|rewrite length_app; simpl; lia|]. cbn [mbind option_bind].
  assert (Hlast : zget tmp sz = Some 0) by (rewrite Hj by lia; apply zget_last).
  destruct (strsep_at_spec tmp 0 (sz - k)) as (tmp1 & r1 & -> & H1); [lia|done|]. cbn [mbind option_bind].
  destruct r1 as [agent|]; [|by eauto]. destruct H1 as (Ha & H1 & Hj1).
  destruct (c_str_Some tmp1 0 (agent - 1)) as [idstr ->]; [lia|done|]. cbn [mbind option_bind].
  destruct (strsep_at_spec tmp1 agent (sz - k)) as (tmp2 & r2 & -> & H2); [lia|by rewrite Hj1 by lia|].
  cbn [mbind option_bind]. destruct r2 as [client|]; [|by eauto]. destruct H2 as (Hcl & H2 & Hj2).
  assert (Hlast2 : zget tmp2 sz = Some 0) by (rewrite Hj2, Hj1 by lia; done).
  destruct (c_str_Some tmp2 (agent + 1) sz) as [a ->]; [lia|done|].
  destruct (c_str_Some tmp2 (client + 1) sz) as [c ->]; [lia|done|]. cbn [mbind option_bind].
  unfold _forward_agent. destruct (lookup_ok g (i32 (strtol10 idstr)) Hg) as (id & -> & Hid). cbn [mbind option_bind].
  case_if; [|by eauto]. destruct Hid as (cn & Hcn & _); [lia|].
  destruct (with_conn_ok g id cn (λ c0, c0 <| c_agent := u32 (strtoul16 a) |> <| c_client := u32 (strtoul16 c) |>) Hg Hcn)
    as (g' & -> & Hg' & _); [by destruct (zget_conn_ok _ _ _ Hg Hcn); split|done|by eauto].
Qed.

Lemma ctrl_ok g msg :
  gate_ok g → Forall (λ x, x ≠ 0) msg → ∃ g', _ctrl queryname g msg = Some g' ∧ gate_ok g'.
Proof.
  intros Hg Hmsg. unfold _ctrl. case_if; [by eauto|].
  set (i := Z.of_nat (command_length msg)). pose proof (command_length_le msg) as Hi.
  assert (Hcmd : ∀ lit, ∃ r, is_command (msg ++ [0]) lit i = Some r).
  { intros lit. apply memcmp_eq_Some; [done|]. lia. }
  destruct (Hcmd "kick") as [[] Hkick]; rewrite Hkick; cbn [mbind option_bind]; [apply socket_command_ok; [done|lia]|].
  assert (0 < i) by (destruct (decide (i = 0)) as [E|]; [rewrite E in Hkick; by destruct msg|lia]).
  destruct (Hcmd "forward") as [[] ->]; cbn [mbind option_bind]; [apply forward_command_ok; [done|lia]|].
  destruct (Hcmd "broker") as [[] ->]; cbn [mbind option_bind].
  { destruct (parm_spec (msg ++ [0]) (Z.of_nat (length msg)) i) as (tmp & k & -> & _ & Hk & H0 & _);
      [lia|rewrite length_app; simpl; lia|]. cbn [mbind option_bind].
    destruct (c_str_Some tmp 0 (Z.of_nat (length msg) - k)) as [r ->]; [lia|done|]. cbn [mbind option_bind].
    eexists. split; [done|]. by apply (same_table_ok g). }
  destruct (Hcmd "start") as [[] ->]; cbn [mbind option_bind]; [apply socket_command_ok; [done|lia]|].
  destruct (Hcmd "close") as [[] ->]; cbn [mbind option_bind].
  - eexists. split; [done|]. case_if; [|done]. by apply (same_table_ok g).
  - destruct (c_str_Some (msg ++ [0]) 0 (Z.of_nat (length msg))) as [r ->]; [lia|apply zget_last|].
    cbn [mbind option_bind]. eauto with skynet.
Qed.

End commands.

(** ** Socket events *)

Lemma report_ok g text : gate_ok g → gate_ok (_report g text).
Proof. intros Hg. unfold _report. case_if; eauto with skynet. Qed.

#[export] Hint Resolve report_ok : skynet.

Lemma accept_ok g message sz :
  gate_ok g → sz = Z.of_nat (length (sm_tail message)) →
  0 <= sm_ud message → (∀ i c, zget (g_conn g) i = Some c → c_id c ≠ sm_ud message) →
  ∃ g', on_accept g message sz = Some g' ∧ gate_ok g'.
Proof.
  intros Hg Hsz Hud Hnew. unfold on_accept. case_if; [by eauto with skynet|].
  pose proof Hg as [(m & [L Hm] & Hcap & H1 & H2) Hcs Hhs].
  assert (Hnone : m !! sm_ud message = None).
  { destruct (m !! sm_ud message) as [i|] eqn:E; [|done]. destruct (H2 _ _ E) as (_ & c & Hc & Hid).
    by destruct (Hnew i c Hc). }
  destruct (hashid_insert_spec (g_hash g) m L Hm (sm_ud message)) as (i & hash & -> & Hi & Hfree & Hm' & Hcap'); auto.
  { unfold hashid_full in *. bool_prop. pose proof (table_size _ _ _ Hm). pose proof (to_count _ _ _ Hm). lia. }
  cbn [mbind option_bind]. set (sz' := if 32 <=? sz then 31 else sz).
  assert (0 <= sz' <= 31 ∧ sz' <= Z.of_nat (length (sm_tail message))) as [Hs1 Hs2] by (subst sz'; case_if; lia).
  rewrite copy_out_spec by lia. change (Z.to_nat 0) with 0%nat. rewrite drop_0. cbn [mbind option_bind].
  destruct (zget_is_Some (g_conn g) i) as [c Hc]; [lia|]. unfold with_conn. simpl g_conn. rewrite Hc.
  cbn [mbind option_bind]. rewrite zset_Some by lia. cbn [mbind option_bind]. simpl g_conn.
  rewrite (zget_insert _ _ _ _ _ Hc), decide_True by done. cbn [mbind option_bind]. simpl c_remote_name.
  destruct (until_nul_Some (take (Z.to_nat sz') (sm_tail message) ++ 0 :: drop (Z.to_nat sz' + 1) (c_remote_name c)))
    as [r ->]; [set_solver|]. cbn [mbind option_bind].
  eexists. split; [done|]. apply call_ok, report_ok. split; simpl; [|apply Forall_insert; [done|]|done].
  - exists (<[sm_ud message := i]> m). rewrite length_insert. split_and!; [done|lia| |].
    + intros j c' Hj Hpos. rewrite (zget_insert _ _ _ _ _ Hc) in Hj. case_decide as Hji.
      * simplify_eq. simpl. apply lookup_insert_eq.
      * rewrite lookup_insert_ne; [by eauto|]. intros E. by apply (Hnew j c' Hj).
    + intros id j. rewrite lookup_insert_Some. intros [[<- <-]|[Hne Hj]].
      * split; [done|]. eexists. split; [by rewrite (zget_insert _ _ _ _ _ Hc), decide_True|done].
      * destruct (H2 id j Hj) as (Hpos & c' & Hc' & Hid). split; [done|]. exists c'. split; [|done].
        rewrite (zget_insert _ _ _ _ _ Hc), decide_False; [done|]. intros ->. by apply (Hfree id).
  - destruct (zget_conn_ok _ _ _ Hg Hc) as [Hb Hn]. split; [done|]. simpl.
    rewrite length_app, length_take. simpl. rewrite length_drop. lia.
Qed.

Lemma close_ok g message : gate_ok g → ∃ g', on_close g message = Some g' ∧ gate_ok g'.
Proof.
  intros Hg. pose proof Hg as [(m & [L Hm] & Hcap & H1 & H2) Hcs Hhs]. unfold on_close.
  pose proof (hashid_remove_spec (g_hash g) m L Hm (sm_id message)) as Hr.
  destruct (m !! sm_id message) as [i|] eqn:E.
  - destruct Hr as (hash & -> & Hm' & Hcap'). cbn [mbind option_bind].
    destruct (H2 _ _ E) as (Hpos & c & Hc & Hid). pose proof (zget_Some_lt _ _ _ Hc) as Hi.
    rewrite (proj2 (Z.leb_le _ _)) by lia. simpl g_conn. rewrite Hc. cbn [mbind option_bind databuffer_clear].
    unfold with_conn. simpl g_conn. rewrite Hc. cbn [mbind option_bind]. rewrite zset_Some by lia.
    cbn [mbind option_bind]. eexists. split; [done|]. apply report_ok.
    split; simpl; [|apply Forall_insert; [done|]|done].
    + exists (delete (sm_id message) m). rewrite length_insert. split_and!; [done|lia| |].
      * intros j c' Hj Hp. rewrite (zget_insert _ _ _ _ _ Hc) in Hj. case_decide; [simplify_eq; simpl in Hp; lia|].
        rewrite lookup_delete_ne; [by eauto|]. intros E'. specialize (H1 j c' Hj Hp). congruence.
      * intros id j [Hne Hj]%lookup_delete_Some. destruct (H2 id j Hj) as (Hp & c' & Hc' & Hid'). split; [done|].
        exists c'. split; [|done]. rewrite (zget_insert _ _ _ _ _ Hc), decide_False; [done|].
        intros ->. congruence.
    + split; [|done]. exists []. apply (databuffer_clear_spec databuffer_empty (mkPool 0 0)).
  - rewrite Hr. cbn [mbind option_bind]. eexists. split; [done|]. simpl. by apply (same_table_ok g).
Qed.

(** What the node promises about the messages it delivers: text is free of 0
    bytes; received data has the announced size and the connection buffers less
    than 2 GB; an accepted socket is new. *)
Definition gate_msg_ok (g : gate) (type : Z) (msg : gate_msg) : Prop :=
  match msg with
  | Mbytes b => type ≠ PTYPE_SOCKET ∧ (type = PTYPE_TEXT → Forall (λ x, x ≠ 0) b)
  | Msocket m => type ≠ PTYPE_TEXT ∧ type ≠ PTYPE_CLIENT
      ∧ (sm_type m = SKYNET_SOCKET_TYPE_DATA → sm_ud m = Z.of_nat (length (sm_buffer m))
         ∧ ∀ i c, zget (g_conn g) i = Some c → c_id c = sm_id m → db_size (c_buffer c) + sm_ud m < 2 ^ 31)
      ∧ (sm_type m = SKYNET_SOCKET_TYPE_ACCEPT → sm_id m = g_listen_id g ∧ 0 <= sm_ud m
         ∧ ∀ i c, zget (g_conn g) i = Some c → c_id c ≠ sm_ud m)
  end.

Lemma socket_message_ok g m :
  gate_ok g → gate_msg_ok g PTYPE_SOCKET (Msocket m) →
  ∃ g', dispatch_socket_message g m (Z.of_nat (length (sm_tail m))) = Some g' ∧ gate_ok g'.
Proof.
  intros Hg (_ & _ & Hdata & Hacc). unfold dispatch_socket_message.
  destruct (lookup_ok g (sm_id m) Hg) as (i & Hl & Hi). case_if; [|case_if; [|case_if; [|case_if; [|case_if]]]].
  - rewrite Hl. cbn [mbind option_bind]. case_if; [|by eauto with skynet].
    destruct Hi as (c & Hc & Hid); [lia|]. destruct Hdata as [Hud Hlt]; [done|]. specialize (Hlt i c Hc Hid).
    destruct (co_buffer _ (zget_conn_ok _ _ _ Hg Hc)) as [s Hdb]. unfold dispatch_message. rewrite Hc.
    cbn [mbind option_bind]. rewrite Hud in *.
    destruct (databuffer_push_spec (c_buffer c) (g_mp g) s (sm_buffer m) Hdb) as (db & mp & -> & Hdb' & Hh);
      [rewrite <- (do_size _ _ Hdb); lia|].
    destruct (set_buffer_ok g i c mp db _ Hg Hc Hdb') as (g1 & -> & Hg1 & Hc1 & _). cbn [mbind option_bind].
    eapply dispatch_loop_ok; [exact Hg1|exact Hc1|exact Hdb'|]. simpl. rewrite (do_size _ _ Hdb').
    case_if; lia.
  - case_if; [by eauto|]. rewrite Hl. cbn [mbind option_bind]. case_if; eauto with skynet.
  - by apply close_ok.
  - destruct Hacc as (-> & ? & ?); [done|]. rewrite Z.eqb_refl. cbn [c_assert mbind option_bind].
    by apply accept_ok.
  - eauto with skynet.
  - eauto.
Qed.

Lemma client_id_Some b : (4 < length b)%nat → ∃ uid, client_id b = Some uid.
Proof.
  intros Hl. unfold client_id.
  repeat match goal with |- context [zget b ?k] =>
    let x := fresh "x" in destruct (zget_is_Some b k) as [x ->]; [lia|]; cbn [mbind option_bind] end.
  eauto.
Qed.


(** ** Initialisation *)

Lemma start_listen_table listen g addr : same_table g (start_listen listen g addr).1.
Proof. unfold start_listen. destruct (strchr addr ch_colon); repeat case_if; done. Qed.

Lemma gate_setup_ok listen header w binding tag max g r :
  0 < max → gate_setup listen gate_create header w binding tag max = Some (g, r) → gate_ok g.
Proof.
  intros Hpos. unfold gate_setup. destruct (decide (2 ^ 30 < max)); [by rewrite hashid_init_diverges|].
  destruct (hashid_init_spec max) as (hash & -> & Hm & Hcap); [lia|]. cbn [mbind option_bind].
  match goal with |- Some (start_listen _ ?g0 _) = _ → _ => set (g1 := g0); assert (Hg : gate_ok g1) end.
  { split; simpl.
    - exists ∅. rewrite length_replicate. split_and!; [done|lia| |intros id i; by rewrite lookup_empty].
      intros i c. unfold zget. case_if; [|done]. intros [-> _]%lookup_replicate. simpl. lia.
    - apply Forall_replicate. split; [|done]. exists []. apply (databuffer_clear_spec databuffer_empty (mkPool 0 0)).
    - case_if; auto. }
  intros Hl. apply Some_inj in Hl. eapply same_table_ok; [|exact Hg].
  pose proof (start_listen_table listen g1 binding) as Ht. by rewrite Hl in Ht.
Qed.

(** A gate that initialised successfully satisfies the invariant. *)
Lemma gate_init_ok queryname listen parm g :
  gate_init queryname listen gate_create parm = Some (g, 0) → gate_ok g.
Proof.
  unfold gate_init. destruct parm as [parm|]; [|done].
  destruct (gate_parm parm) as [n [[[[header watchdog] binding] client_tag] max]].
  case_if; [done|]. case_if; [done|]. case_if; [done|].
  assert (Hsetup : ∀ w tag, gate_setup listen gate_create header w binding tag max = Some (g, 0) → gate_ok g).
  { intros w tag. by apply gate_setup_ok. }
  case_bool_decide; [by apply Hsetup|]. case_if; [done|]. by apply Hsetup.
Qed.

(** ** Examples *)

Definition example_queryname (name : bytes) : Z := 16.
Definition example_listen (host : bytes) (port : Z) : Z := 5.

(** A gate with 2-byte headers, no watchdog and 4 connections, after the
    connection of socket 7. *)
Definition example_messages : list (Z * gate_msg) :=
  [(PTYPE_SOCKET, Msocket (mkSocketMessage SKYNET_SOCKET_TYPE_ACCEPT 5 7 [] (str "10.0.0.1:4000")));
   (PTYPE_TEXT, Mbytes (str "start 7"))].

Definition run_gate (g : gate) (msgs : list (Z * gate_msg)) : option gate :=
  foldl (λ r m, g ← r; fst <$> _cb example_queryname g m.1 1 m.2) (Some g) msgs.

Definition example_gate (parm : bytes) : option gate :=
  '(g, _) ← gate_init example_queryname example_listen gate_create (Some parm);
  run_gate g example_messages.



(** A length of 2 GB or more is not refused like the other lengths above
    16 MB: it is read as a negative [int], and from then on the connection is
    neither closed nor served, whatever arrives. *)
Theorem gate_negative_length_stalls g i c s id data :
  zget (g_conn g) i = Some c → db_ok (c_buffer c) s → g_header_size g = 4 →
  Z.of_nat (length (s ++ data)) < 2 ^ 31 →
  (db_header (c_buffer c) < 0
   ∨ db_header (c_buffer c) = 0 ∧ ∃ n, 2 ^ 31 <= n < 2 ^ 32 ∧ take 4 (s ++ data) = be_bytes 4 n) →
  ∃ g' c', dispatch_message g i id data (Z.of_nat (length data)) = Some g' ∧ g_ctx g' = g_ctx g
    ∧ zget (g_conn g') i = Some c' ∧ db_header (c_buffer c') < 0.
Proof.
  intros Hc Hdb Hhs Hlt Hh. unfold dispatch_message. rewrite Hc. cbn [mbind option_bind].
  destruct (databuffer_push_spec (c_buffer c) (g_mp g) s data Hdb) as (db & mp & -> & Hdb' & Hh');
    [rewrite length_app in Hlt; lia|].
  pose proof (at_conn_set g i c Hc (g_ctx g) (c_buffer c) (g_mp g) db mp) as Hset.
  rewrite (at_conn_id g i c Hc) in Hset. rewrite Hset. cbn [mbind option_bind]. rewrite Nat.add_comm.
  assert (Hr : ∃ size db' mp', databuffer_readheader db mp (g_header_size g) = Some (size, db', mp')
    ∧ size < 0 ∧ db_header db' < 0).
  { destruct Hh as [Hneg|(H0 & n & Hn & Htk)].
    - eexists _, db, mp. unfold databuffer_readheader. rewrite (proj2 (Z.eqb_neq _ _)) by lia.
      split; [done|]. rewrite Hh'. split; [|done]. case_if; lia.
    - rewrite Hhs. pose proof (f_equal length Htk) as Hl. rewrite length_take, length_be_bytes in Hl.
      destruct (databuffer_readheader_spec db mp (s ++ data) 4 Hdb') as (db' & mp' & Hr & _ & Hd); [congruence|lia|].
      change (Z.to_nat 4) with 4%nat in *. rewrite Htk, be_header_i32 in Hr, Hd by (simpl; lia).
      assert (i32 n = n - 2 ^ 32) as E.
      { unfold i32. rewrite <- (Z_mod_plus_full (n + 2 ^ 31) (-1)), Z.mod_small; lia. }
      rewrite E in Hr, Hd. eexists _, db', mp'. split; [exact Hr|]. split; [case_if; lia|lia]. }
  destruct Hr as (size & db' & mp' & Hr & Hneg & Hd). cbn [Nat.add].
  rewrite (wait_step g i c Hc _ _ _ _ _ _ _ _ Hr Hneg). eexists _, _. split; [done|]. split; [done|].
  split; [apply (at_conn_get g i c Hc)|done].
Qed.

(** The connection of socket 7 after [example_messages]. *)
Definition example_connection : connection :=
  mkConnection 7 0 0 (str "10.0.0.1:4000" ++ replicate 19 0) databuffer_empty.

Lemma gate_negative_length_stalls_witness :
  ∃ g g' c', example_gate (str "L ! 8888 0 4") = Some g
    ∧ dispatch_message g 3 7 [255; 0; 0; 0] 4 = Some g' ∧ g_ctx g' = g_ctx g
    ∧ zget (g_conn g') 3 = Some c' ∧ db_header (c_buffer c') < 0.
Proof.
  destruct (example_gate (str "L ! 8888 0 4")) as [g|] eqn:E; [|vm_compute in E; discriminate].
  assert (zget (g_conn g) 3 = Some example_connection ∧ g_header_size g = 4) as [Hc Hhs].
  { vm_compute in E. injection E as <-. split; reflexivity. }
  destruct (gate_negative_length_stalls g 3 example_connection [] 7 [255; 0; 0; 0] Hc) as (g' & c' & H).
  - apply (databuffer_clear_spec databuffer_empty (mkPool 0 0)).
  - exact Hhs.
  - reflexivity.
  - right. split; [reflexivity|]. exists (255 * 2 ^ 24). split; [lia|reflexivity].
  - exists g, g', c'. auto.
Defined.

