(* ===== verification/Netpack.v ===== *)
(** * Packages for Lua services (lualib-src/lua-netpack.c)

    The Lua gate passes every socket event through [lfilter], which cuts the
    streams of all its sockets into packages with a 2-byte big-endian length.
    Complete packages are returned at once or collected in a ring buffer,
    incomplete ones wait in a hash table by socket.  The Lua value at stack index
    1, the userdata that holds all this or [nil], is an [option queue] threaded
    through the functions.  The file shows that the whole is equivalent to
    splitting each stream with a two-line reference parser. *)

From stdpp Require Import prelude list gmap list_numbers.
From S2P Require Import Prelude.

Abbreviation bytes := (list Z) (only parsing).

(** ** Data *)

Definition QUEUESIZE : Z := 1024.
Definition HASHSIZE : Z := 4096.

Record netpack := mkNetpack { np_id : Z; np_size : Z; np_buffer : bytes }.

#[export] Instance eta_netpack : Eta netpack := λ p, mkNetpack (np_id p) (np_size p) (np_buffer p).

(** The [next] field is the order of the list an [uncomplete] is in. *)
Record uncomplete := mkUncomplete { uc_pack : netpack; uc_read : Z; uc_header : Z }.

#[export] Instance eta_uncomplete : Eta uncomplete := λ u, mkUncomplete (uc_pack u) (uc_read u) (uc_header u).

Record queue := mkQueue {
  q_cap : Z;
  q_head : Z;
  q_tail : Z;
  q_hash : list (list uncomplete);
  q_queue : list netpack
}.

#[export] Instance eta_queue : Eta queue :=
  λ q, mkQueue (q_cap q) (q_head q) (q_tail q) (q_hash q) (q_queue q).

(** What [lfilter] returns after the queue. *)
Inductive filtered :=
  | Fnothing
  | Fdata (fd : Z) (msg : bytes) (size : Z)
  | Fmore
  | Ferror (fd : Z) (msg : bytes)
  | Fopen (fd : Z) (msg : bytes)
  | Fclose (fd : Z)
  | Fwarning (fd : Z) (size : Z).

Inductive socket_event :=
  | Edata (id : Z) (buffer : bytes)
  | Econnect (id : Z)
  | Eclose (id : Z)
  | Eaccept (id ud : Z) (name : bytes)
  | Eerror (id : Z) (text : bytes)
  | Ewarning (id ud : Z).

(** ** The ring of complete packages *)

Definition no_pack : netpack := mkNetpack 0 0 [].

(** [lua_newuserdata] with the fields [get_queue] sets; the slots of the ring are unset. *)
Definition new_queue : queue :=
  mkQueue QUEUESIZE 0 0 (replicate (Z.to_nat HASHSIZE) []) (replicate (Z.to_nat QUEUESIZE) no_pack).

Definition get_queue (L : option queue) : queue := default new_queue L.

(** [nq->queue[i] = q->queue[(q->head + i) % q->cap]] for the [n] values of [i] from [i]. *)
Fixpoint expand_copy (n : nat) (q : queue) (i : Z) : option (list netpack) :=
  match n with
  | O => Some []
  | S n => x ← zget (q_queue q) (Z.rem (q_head q + i) (q_cap q)); xs ← expand_copy n q (i + 1); Some (x :: xs)
  end.

Definition expand_queue (q : queue) : option queue :=
  packs ← expand_copy (Z.to_nat (q_cap q)) q 0;
  Some (mkQueue (q_cap q + QUEUESIZE) 0 (q_cap q) (q_hash q)
                (packs ++ replicate (Z.to_nat QUEUESIZE) no_pack)).

(** [push_data]; [buffer] is the package (a copy when [clone] is set). *)
Definition push_data (L : option queue) (fd : Z) (buffer : bytes) (size : Z) : option (option queue) :=
  let q := get_queue L in
  let tail := q_tail q + 1 in
  packs ← zset (q_queue q) (q_tail q) (mkNetpack fd size buffer);
  let q := q <| q_tail := if q_cap q <=? tail then tail - q_cap q else tail |> <| q_queue := packs |> in
  if q_head q =? q_tail q then q ← expand_queue q; Some (Some q) else Some (Some q).

Definition lpop (L : option queue) : option (option queue * option netpack) :=
  match L with
  | None => Some (L, None)
  | Some q =>
      if q_head q =? q_tail q then Some (L, None)
      else
        np ← zget (q_queue q) (q_head q);
        let head := q_head q + 1 in
        Some (Some (q <| q_head := if q_cap q <=? head then 0 else head |>), Some np)
  end.

(** ** The table of incomplete packages *)

Definition hash_fd (fd : Z) : Z :=
  u32 (Z.shiftr fd 24 + Z.shiftr fd 12 + fd) mod HASHSIZE.

(** The first entry of [fd] in a bucket, and the bucket without it. *)
Fixpoint unlink (bucket : list uncomplete) (fd : Z) : option (uncomplete * list uncomplete) :=
  match bucket with
  | [] => None
  | uc :: next =>
      if np_id (uc_pack uc) =? fd then Some (uc, next)
      else '(found, next) ← unlink next fd; Some (found, uc :: next)
  end.

Definition find_uncomplete (L : option queue) (fd : Z) : option (option queue * option uncomplete) :=
  match L with
  | None => Some (None, None)
  | Some q =>
      let h := hash_fd fd in
      bucket ← zget (q_hash q) h;
      match unlink bucket fd with
      | None => Some (L, None)
      | Some (uc, bucket) => hash ← zset (q_hash q) h bucket; Some (Some (q <| q_hash := hash |>), Some uc)
      end
  end.

(** [uc->next = q->hash[h]; q->hash[h] = uc;] *)
Definition link_uncomplete (q : queue) (uc : uncomplete) : option queue :=
  let h := hash_fd (np_id (uc_pack uc)) in
  bucket ← zget (q_hash q) h;
  hash ← zset (q_hash q) h (uc :: bucket);
  Some (q <| q_hash := hash |>).

(** [save_uncomplete] with the fields the callers set on its result. *)
Definition save_uncomplete (L : option queue) (fd read header size : Z) (buffer : bytes) : option (option queue) :=
  q ← link_uncomplete (get_queue L) (mkUncomplete (mkNetpack fd size buffer) read header);
  Some (Some q).

Definition close_uncomplete (L : option queue) (fd : Z) : option (option queue) :=
  '(L, _) ← find_uncomplete L fd; Some L.

Definition clear_list (uc : list uncomplete) : list uncomplete := [].

(** Every bucket is emptied, the ring too. *)
Definition lclear (L : option queue) : option queue :=
  match L with
  | None => None
  | Some q => Some (q <| q_hash := clear_list <$> q_hash q |> <| q_head := 0 |> <| q_tail := 0 |>)
  end.

(** ** Filtering *)

Definition read_size (buffer : bytes) : option Z :=
  b0 ← zget buffer 0; b1 ← zget buffer 1; Some (Z.lor (Z.shiftl b0 8) b1).

(** The part of a package that has arrived is kept: one byte of the length, or
    the length and some bytes ([buffer] is what follows the length). *)
Definition save_header (L : option queue) (fd : Z) (buffer : bytes) : option (option queue) :=
  b ← zget buffer 0; save_uncomplete L fd (-1) b 0 [].

Definition save_part (L : option queue) (fd pack_size : Z) (buffer : bytes) : option (option queue) :=
  let size := Z.of_nat (length buffer) in
  b ← memcpy_to (malloc pack_size) 0 buffer size;
  save_uncomplete L fd size 0 pack_size b.

(** [size] is the length of [buffer]; every call but the last takes a package off it. *)
Fixpoint push_more (fuel : nat) (L : option queue) (fd : Z) (buffer : bytes) : option (option queue) :=
  match fuel with
  | O => None
  | S fuel =>
      let size := Z.of_nat (length buffer) in
      if size =? 1 then save_header L fd buffer
      else
        pack_size ← read_size buffer;
        let buffer := drop 2 buffer in
        let size := size - 2 in
        if size <? pack_size then save_part L fd pack_size buffer
        else
          L ← push_data L fd (take (Z.to_nat pack_size) buffer) pack_size;
          let buffer := drop (Z.to_nat pack_size) buffer in
          let size := size - pack_size in
          if 0 <? size then push_more fuel L fd buffer else Some L
  end.

(** [if (uc->read < 0) ...]: the second byte of the length. *)
Definition complete_header (uc : uncomplete) (buffer : bytes) : option (uncomplete * bytes) :=
  if uc_read uc <? 0 then
    _ ← c_assert (uc_read uc =? -1);
    b ← zget buffer 0;
    let pack_size := Z.lor b (Z.shiftl (uc_header uc) 8) in
    Some (uc <| uc_pack := mkNetpack (np_id (uc_pack uc)) pack_size (malloc pack_size) |> <| uc_read := 0 |>,
          drop 1 buffer)
  else Some (uc, buffer).

(** The branch of [filter_data_] that continues an incomplete package. *)
Definition fill_uncomplete (L : option queue) (fd : Z) (uc : uncomplete) (buffer : bytes)
    : option (option queue * filtered) :=
  '(uc, buffer) ← complete_header uc buffer;
  let size := Z.of_nat (length buffer) in
  let need := np_size (uc_pack uc) - uc_read uc in
  if size <? need then
    b ← memcpy_to (np_buffer (uc_pack uc)) (uc_read uc) buffer size;
    let uc := uc <| uc_pack := (uc_pack uc) <| np_buffer := b |> |> <| uc_read := uc_read uc + size |> in
    q ← L;
    q ← link_uncomplete q uc;
    Some (Some q, Fnothing)
  else
    b ← memcpy_to (np_buffer (uc_pack uc)) (uc_read uc) buffer need;
    let buffer := drop (Z.to_nat need) buffer in
    let size := size - need in
    if size =? 0 then Some (L, Fdata fd b (np_size (uc_pack uc)))
    else
      L ← push_data L fd b (np_size (uc_pack uc));
      L ← push_more (length buffer) L fd buffer;
      Some (L, Fmore).

Definition filter_data_ (L : option queue) (fd : Z) (buffer : bytes) : option (option queue * filtered) :=
  '(L, uc) ← find_uncomplete L fd;
  match uc with
  | Some uc => fill_uncomplete L fd uc buffer
  | None =>
      let size := Z.of_nat (length buffer) in
      if size =? 1 then L ← save_header L fd buffer; Some (L, Fnothing)
      else
        pack_size ← read_size buffer;
        let buffer := drop 2 buffer in
        let size := size - 2 in
        if size <? pack_size then L ← save_part L fd pack_size buffer; Some (L, Fnothing)
        else if size =? pack_size then Some (L, Fdata fd buffer size)
        else
          L ← push_data L fd (take (Z.to_nat pack_size) buffer) pack_size;
          let buffer := drop (Z.to_nat pack_size) buffer in
          L ← push_more (length buffer) L fd buffer;
          Some (L, Fmore)
  end.

Definition filter_data (L : option queue) (fd : Z) (buffer : bytes) : option (option queue * filtered) :=
  filter_data_ L fd buffer.

Definition lfilter (L : option queue) (message : socket_event) : option (option queue * filtered) :=
  match message with
  | Edata id buffer => filter_data L id buffer
  | Econnect _ => Some (L, Fnothing)
  | Eclose id => L ← close_uncomplete L id; Some (L, Fclose id)
  | Eaccept _ ud name => Some (L, Fopen ud name)
  | Eerror id text => L ← close_uncomplete L id; Some (L, Ferror id text)
  | Ewarning id ud => Some (L, Fwarning id ud)
  end.

(** ** Packing *)

Definition write_size (len : Z) : bytes := [Z.land (Z.shiftr len 8) 255; Z.land len 255].

(** [None] is the Lua error for data that is too long. *)
Definition lpack (msg : bytes) : option bytes :=
  let len := Z.of_nat (length msg) in
  if 0x10000 <=? len then None else Some (write_size len ++ msg).

Definition ltostring (ptr : option bytes) (size : Z) : bytes :=
  match ptr with None => [] | Some msg => take (Z.to_nat size) msg end.

(** ** The reference *)

(** The complete packages of a stream, and the bytes after them. *)
Fixpoint split_packages (fuel : nat) (s : bytes) : list bytes * bytes :=
  match fuel, s with
  | S fuel, b0 :: b1 :: s' =>
      let n := Z.to_nat (b0 * 256 + b1) in
      if (length s' <? n)%nat then ([], s)
      else let '(ps, rest) := split_packages fuel (drop n s') in (take n s' :: ps, rest)
  | _, _ => ([], s)
  end.

Definition packages (s : bytes) : list bytes * bytes := split_packages (length s) s.

(** The bytes that wait for each socket, and the packages not popped yet. *)
Record pool := mkPackages { p_waiting : gmap Z bytes; p_ready : list (Z * bytes) }.

Definition wait (m : gmap Z bytes) (fd : Z) (rest : bytes) : gmap Z bytes :=
  match rest with [] => delete fd m | _ => <[fd := rest]> m end.

Definition ready (fd : Z) (ps : list bytes) : list (Z * bytes) := (λ msg, (fd, msg)) <$> ps.

(** A data event: a single package is returned at once, more are collected. *)
Definition data_outcome (m : gmap Z bytes) (l : list (Z * bytes)) (fd : Z) (r : list bytes * bytes)
    : pool * filtered :=
  match r with
  | ([], rest) => (mkPackages (wait m fd rest) l, Fnothing)
  | ([msg], []) => (mkPackages (wait m fd []) l, Fdata fd msg (Z.of_nat (length msg)))
  | (ps, rest) => (mkPackages (wait m fd rest) (l ++ ready fd ps), Fmore)
  end.

Definition spec_filter (p : pool) (e : socket_event) : pool * filtered :=
  match e with
  | Edata fd data =>
      data_outcome (p_waiting p) (p_ready p) fd (packages (default [] (p_waiting p !! fd) ++ data))
  | Econnect _ => (p, Fnothing)
  | Eclose id => (mkPackages (delete id (p_waiting p)) (p_ready p), Fclose id)
  | Eaccept _ ud name => (p, Fopen ud name)
  | Eerror id text => (mkPackages (delete id (p_waiting p)) (p_ready p), Ferror id text)
  | Ewarning id ud => (p, Fwarning id ud)
  end.

(** ** The ring *)

Definition pack_of (x : Z * bytes) : netpack := mkNetpack x.1 (Z.of_nat (length x.2)) x.2.

Record ring (q : queue) (l : list (Z * bytes)) : Prop := {
  ri_length : Z.of_nat (length (q_queue q)) = q_cap q;
  ri_head : 0 <= q_head q < q_cap q;
  ri_fill : Z.of_nat (length l) < q_cap q;
  ri_tail : q_tail q = (q_head q + Z.of_nat (length l)) mod q_cap q;
  ri_slots : ∀ k x, l !! k = Some x →
    zget (q_queue q) ((q_head q + Z.of_nat k) mod q_cap q) = Some (pack_of x)
}.

Lemma ring_hash q l hash : ring q l → ring (q <| q_hash := hash |>) l.
Proof. by intros []; split. Qed.

Lemma expand_copy_spec n q l i :
  Z.of_nat (length (q_queue q)) = q_cap q → 0 <= q_head q < q_cap q → 0 <= i →
  (∀ k x, l !! k = Some x → zget (q_queue q) ((q_head q + (i + Z.of_nat k)) mod q_cap q) = Some (pack_of x)) →
  length l = n → expand_copy n q i = Some (pack_of <$> l).
Proof.
  intros Hl Hh. revert l i. induction n as [|n IH]; intros l i Hi Hs Hn; destruct l as [|x l]; try done.
  cbn [expand_copy]. pose proof (Hs 0%nat x eq_refl) as H0. rewrite Z.add_0_r in H0.
  rewrite Z.rem_mod_nonneg, H0 by lia. cbn [mbind option_bind].
  rewrite (IH l (i + 1)); [done|lia| |simpl in Hn; lia].
  intros k y Hk. specialize (Hs (S k) y Hk). rewrite <- Hs. do 2 f_equal. lia.
Qed.

(** Where the next slot is. *)
Lemma next_slot cap h n t :
  0 <= h < cap → 0 <= n < cap → t = (h + n) mod cap →
  0 <= t < cap ∧ (if cap <=? t + 1 then t + 1 - cap else t + 1) = (h + (n + 1)) mod cap.
Proof.
  intros Hh Hn ->. split; [apply Z.mod_pos_bound; lia|].
  assert ((h + (n + 1)) mod cap = ((h + n) mod cap + 1) mod cap) as ->.
  { rewrite Z.add_assoc. by rewrite Zplus_mod_idemp_l. }
  pose proof (Z.mod_pos_bound (h + n) cap ltac:(lia)). case_if.
  - symmetry. rewrite <- (Z_mod_plus_full _ (-1)), Z.mod_small; lia.
  - symmetry. apply Z.mod_small. lia.
Qed.

Lemma slots_distinct cap h i j :
  0 <= h < cap → 0 <= i < cap → 0 <= j < cap → (h + i) mod cap = (h + j) mod cap → i = j.
Proof.
  intros Hh Hi Hj E. apply (f_equal (λ z, (z - h) mod cap)) in E. rewrite !Zminus_mod_idemp_l in E.
  replace (h + i - h) with i in E by lia. replace (h + j - h) with j in E by lia.
  by rewrite !Z.mod_small in E by lia.
Qed.

Lemma push_data_ring q l fd msg :
  ring q l →
  ∃ q', push_data (Some q) fd msg (Z.of_nat (length msg)) = Some (Some q') ∧ ring q' (l ++ [(fd, msg)])
    ∧ q_hash q' = q_hash q.
Proof.
  intros [Hl Hh Hf Ht Hs]. unfold push_data. simpl get_queue.
  destruct (next_slot (q_cap q) (q_head q) (Z.of_nat (length l)) (q_tail q)) as [Htb Hnext]; [lia|lia|done|].
  destruct (zset (q_queue q) (q_tail q) (mkNetpack fd (Z.of_nat (length msg)) msg)) as [packs|] eqn:Hset;
    [|rewrite zset_Some in Hset; [done|lia]].
  cbn [mbind option_bind]. simpl q_head. simpl q_tail. rewrite Hnext.
  assert (Hslots : ∀ k x, (l ++ [(fd, msg)]) !! k = Some x →
    zget packs ((q_head q + Z.of_nat k) mod q_cap q) = Some (pack_of x)).
  { intros k x [Hk|[Hk Hx]]%lookup_app_Some.
    - rewrite (zget_zset_ne _ _ _ _ _ Hset); [by apply Hs|]. intros E. rewrite Ht in E.
      apply lookup_lt_Some in Hk. apply slots_distinct in E; lia.
    - apply list_lookup_singleton_Some in Hx as [Hk0 <-]. replace k with (length l) by lia. rewrite <- Ht.
      by apply (zget_zset_eq _ _ _ _ Hset). }
  pose proof (zset_length _ _ _ _ Hset) as Hlen. case_if.
  - assert (Hfull : Z.of_nat (length l) + 1 = q_cap q).
    { destruct (decide (Z.of_nat (length l) + 1 = q_cap q)) as [|Hne]; [done|].
      assert (Z.of_nat (length l) + 1 = 0); [|lia].
      eapply (slots_distinct (q_cap q) (q_head q)); [lia..|]. rewrite Z.add_0_r.
      rewrite <- Heqb. by rewrite Z.mod_small. }
    unfold expand_queue. simpl.
    rewrite (expand_copy_spec _ _ (l ++ [(fd, msg)]) 0); simpl; [|lia|lia|lia|done|rewrite length_app; simpl; lia].
    cbn [mbind option_bind]. eexists. split; [done|]. split; [|done].
    split; simpl; rewrite ?length_app, ?length_fmap, ?length_app, ?length_replicate; simpl; unfold QUEUESIZE; [lia..| |].
    + rewrite Z.mod_small; lia.
    + intros k x Hk. pose proof (lookup_lt_Some _ _ _ Hk) as Hlt. rewrite length_app in Hlt. simpl in Hlt.
      rewrite Z.mod_small, ?Z.add_0_l, zget_nat, lookup_app_l by (rewrite ?length_fmap, ?length_app; simpl; lia).
      by rewrite list_lookup_fmap, Hk.
  - eexists. split; [done|]. split; [|done]. split; simpl; rewrite ?length_app; simpl; [lia..| | |done].
    + destruct (decide (Z.of_nat (length l) + 1 = q_cap q)) as [E|]; [|lia]. exfalso. apply Heqb.
      rewrite E. replace (q_head q + q_cap q) with (q_head q + 1 * q_cap q) by lia.
      by rewrite Z_mod_plus_full, Z.mod_small.
    + f_equal. lia.
Qed.

Lemma lpop_ring q l :
  ring q l →
  match l with
  | [] => lpop (Some q) = Some (Some q, None)
  | x :: l => ∃ q', lpop (Some q) = Some (Some q', Some (pack_of x)) ∧ ring q' l ∧ q_hash q' = q_hash q
  end.
Proof.
  intros [Hl Hh Hf Ht Hs]. unfold lpop. destruct l as [|x l].
  - rewrite Ht, Z.add_0_r, Z.mod_small by lia. by rewrite Z.eqb_refl.
  - simpl in Hf, Ht. pose proof (Hs 0%nat x eq_refl) as H0. rewrite Z.add_0_r, Z.mod_small in H0 by lia.
    rewrite (proj2 (Z.eqb_neq _ _)), H0.
    2:{ rewrite Ht. intros E. assert (0 = Z.of_nat (S (length l))); [|lia].
        eapply (slots_distinct (q_cap q) (q_head q)); [lia..|]. by rewrite <- E, Z.add_0_r, Z.mod_small. }
    cbn [mbind option_bind]. eexists. split; [done|]. split; [|done].
    assert (Hhd : (if q_cap q <=? q_head q + 1 then 0 else q_head q + 1) = (q_head q + 1) mod q_cap q).
    { case_if; [|by rewrite Z.mod_small by lia]. replace (q_head q + 1) with (q_cap q) by lia.
      by rewrite Z_mod_same_full. }
    split; simpl; rewrite ?Hhd; [lia|apply Z.mod_pos_bound; lia|lia| |].
    + rewrite Zplus_mod_idemp_l, Ht. f_equal. lia.
    + intros k y Hk. rewrite Zplus_mod_idemp_l. specialize (Hs (S k) y Hk). rewrite <- Hs. do 2 f_equal. lia.
Qed.

(** ** The table *)

(** The bytes an incomplete package stands for. *)
Definition uc_bytes (uc : uncomplete) : bytes :=
  if uc_read uc <? 0 then [uc_header uc]
  else [np_size (uc_pack uc) / 256; np_size (uc_pack uc) mod 256]
       ++ take (Z.to_nat (uc_read uc)) (np_buffer (uc_pack uc)).

Definition uc_ok (uc : uncomplete) : Prop :=
  uc_read uc = -1 ∧ is_byte (uc_header uc)
  ∨ 0 <= uc_read uc < np_size (uc_pack uc) ∧ np_size (uc_pack uc) < 65536
    ∧ Z.of_nat (length (np_buffer (uc_pack uc))) = np_size (uc_pack uc).

Definition uc_fd (uc : uncomplete) : Z := np_id (uc_pack uc).

Definition bucket_ok (m : gmap Z bytes) (h : Z) (bucket : list uncomplete) : Prop :=
  NoDup (uc_fd <$> bucket)
  ∧ (∀ uc, uc ∈ bucket → uc_ok uc ∧ hash_fd (uc_fd uc) = h ∧ m !! uc_fd uc = Some (uc_bytes uc))
  ∧ (∀ fd s, m !! fd = Some s → hash_fd fd = h → ∃ uc, uc ∈ bucket ∧ uc_fd uc = fd).

Definition table (q : queue) (m : gmap Z bytes) : Prop :=
  Z.of_nat (length (q_hash q)) = HASHSIZE
  ∧ ∀ h bucket, zget (q_hash q) h = Some bucket → bucket_ok m h bucket.

Lemma hash_fd_bound fd : 0 <= hash_fd fd < HASHSIZE.
Proof. apply Z.mod_pos_bound. done. Qed.

Lemma unlink_spec bucket fd :
  NoDup (uc_fd <$> bucket) →
  match unlink bucket fd with
  | None => ∀ uc, uc ∈ bucket → uc_fd uc ≠ fd
  | Some (uc, rest) => uc_fd uc = fd ∧ bucket ≡ₚ uc :: rest
  end.
Proof.
  induction bucket as [|uc bucket IH]; intros Hnd; simpl; [set_solver|]. case_if; [done|].
  apply NoDup_cons in Hnd as [_ Hnd]. specialize (IH Hnd).
  destruct (unlink bucket fd) as [[found rest]|]; simpl.
  - destruct IH as [? ->]. split; [done|]. apply Permutation_swap.
  - intros uc' [->|Hin]%elem_of_cons; [done|]. by apply IH.
Qed.

(** Changing the entry of [fd] in its bucket. *)
Lemma table_update q m fd bucket bucket' m' :
  table q m → zget (q_hash q) (hash_fd fd) = Some bucket →
  (∀ fd', fd' ≠ fd → m' !! fd' = m !! fd') → bucket_ok m' (hash_fd fd) bucket' →
  ∃ hash, zset (q_hash q) (hash_fd fd) bucket' = Some hash ∧ table (q <| q_hash := hash |>) m'.
Proof.
  intros [Hlen Hb] Hg Hm Hb'. pose proof (hash_fd_bound fd) as Hh.
  destruct (zset (q_hash q) (hash_fd fd) bucket') as [hash|] eqn:Hset; [|rewrite zset_Some in Hset; [done|lia]].
  exists hash. split; [done|]. split; simpl; [by rewrite (zset_length _ _ _ _ Hset)|].
  intros h b Hget. destruct (decide (h = hash_fd fd)) as [->|Hne].
  { rewrite (zget_zset_eq _ _ _ _ Hset) in Hget. by simplify_eq. }
  rewrite (zget_zset_ne _ _ _ _ _ Hset) in Hget by done. destruct (Hb h b Hget) as (Hnd & H1 & H2).
  split; [done|]. split.
  - intros uc Huc. destruct (H1 uc Huc) as (? & ? & ?). split; [done|]. split; [done|].
    rewrite Hm; [done|]. intros E. congruence.
  - intros fd' s Hs Hh'. apply (H2 fd' s); [|done]. rewrite <- Hm; [done|]. intros E. congruence.
Qed.

Lemma find_uncomplete_spec q m fd :
  table q m →
  match m !! fd with
  | None => find_uncomplete (Some q) fd = Some (Some q, None)
  | Some s => ∃ q' uc, find_uncomplete (Some q) fd = Some (Some q', Some uc) ∧ table q' (delete fd m)
      ∧ uc_ok uc ∧ uc_fd uc = fd ∧ uc_bytes uc = s ∧ q' = q <| q_hash := q_hash q' |>
  end.
Proof.
  intros Ht. pose proof Ht as [Hlen Hb]. unfold find_uncomplete.
  destruct (zget_is_Some (q_hash q) (hash_fd fd)) as [bucket Hg]; [pose proof (hash_fd_bound fd); lia|].
  rewrite Hg. cbn [mbind option_bind]. destruct (Hb _ _ Hg) as (Hnd & H1 & H2).
  pose proof (unlink_spec bucket fd Hnd) as Hu. destruct (unlink bucket fd) as [[uc rest]|].
  - destruct Hu as [Hfd Hp]. destruct (H1 uc) as (Hok & _ & Hm); [rewrite Hp; set_solver|].
    rewrite <- Hfd, Hm, Hfd. destruct (table_update q m fd bucket rest (delete fd m) Ht Hg) as (hash & -> & Ht').
    + intros. by rewrite lookup_delete_ne.
    + rewrite Hp in Hnd. simpl in Hnd. apply NoDup_cons in Hnd as [Hnot Hnd]. split; [done|]. split.
      * intros uc' Hin. destruct (H1 uc') as (? & ? & ?); [rewrite Hp; set_solver|]. split; [done|]. split; [done|].
        rewrite lookup_delete_ne; [done|]. intros E. apply Hnot. rewrite Hfd, E. by apply list_elem_of_fmap_2.
      * intros fd' s [Hne Hs]%lookup_delete_Some Hh. destruct (H2 fd' s Hs Hh) as (uc' & Hin & <-).
        exists uc'. rewrite Hp in Hin. apply elem_of_cons in Hin as [->|?]; [by destruct Hne|done].
    + cbn [mbind option_bind]. eexists _, uc. split_and!; auto.
  - destruct (m !! fd) as [s|] eqn:E; [|done]. destruct (H2 fd s E) as (uc & Hin & Hfd); [done|].
    by destruct (Hu uc Hin).
Qed.

Lemma link_uncomplete_spec q m uc :
  table q m → uc_ok uc → m !! uc_fd uc = None →
  ∃ hash, link_uncomplete q uc = Some (q <| q_hash := hash |>)
    ∧ table (q <| q_hash := hash |>) (<[uc_fd uc := uc_bytes uc]> m).
Proof.
  intros Ht Hok Hnone. pose proof Ht as [Hlen Hb]. unfold link_uncomplete. fold (uc_fd uc).
  destruct (zget_is_Some (q_hash q) (hash_fd (uc_fd uc))) as [bucket Hg]; [pose proof (hash_fd_bound (uc_fd uc)); lia|].
  rewrite Hg. cbn [mbind option_bind]. destruct (Hb _ _ Hg) as (Hnd & H1 & H2).
  destruct (table_update q m (uc_fd uc) bucket (uc :: bucket) (<[uc_fd uc := uc_bytes uc]> m) Ht Hg)
    as (hash & -> & Ht'); [by intros; rewrite lookup_insert_ne| |].
  - assert (Hnot : uc_fd uc ∉ uc_fd <$> bucket).
    { intros (uc' & E & Hin)%list_elem_of_fmap. destruct (H1 uc' Hin) as (_ & _ & Hm). congruence. }
    split; [by apply NoDup_cons|]. split.
    + intros uc' [->|Hin]%elem_of_cons; [by rewrite lookup_insert_eq|].
      destruct (H1 uc' Hin) as (? & ? & Hm). split; [done|]. split; [done|].
      rewrite lookup_insert_ne; [done|]. intros E. congruence.
    + intros fd s [[<- <-]|[Hne Hs]]%lookup_insert_Some Hh; [exists uc; set_solver|].
      destruct (H2 fd s Hs Hh) as (uc' & ? & ?). exists uc'. set_solver.
  - cbn [mbind option_bind]. eauto.
Qed.

(** ** The reference parser *)

Lemma split_packages_fuel fuel s : (length s <= fuel)%nat → split_packages fuel s = packages s.
Proof.
  unfold packages. assert (H : ∀ n s f1 f2, (length s <= n)%nat → (length s <= f1)%nat → (length s <= f2)%nat →
    split_packages f1 s = split_packages f2 s).
  { clear fuel s. induction n as [|n IH]; intros s f1 f2 Hn H1 H2; destruct s as [|b0 [|b1 s]]; simpl in *;
      (destruct f1, f2; simpl in *; try lia; try done).
    case_match; [done|]. rewrite (IH (drop _ s) f1 f2); [done|rewrite length_drop; lia..]. }
  intros Hf. by apply (H (length s)).
Qed.

Lemma split_packages_step fuel b0 b1 s :
  split_packages (S fuel) (b0 :: b1 :: s) =
    let n := Z.to_nat (b0 * 256 + b1) in
    if (length s <? n)%nat then ([], b0 :: b1 :: s)
    else let '(ps, rest) := split_packages fuel (drop n s) in (take n s :: ps, rest).
Proof. done. Qed.

(** No byte is dropped. *)
Lemma packages_nonempty s : s ≠ [] → packages s ≠ ([], []).
Proof.
  intros Hne. unfold packages. destruct s as [|b0 [|b1 s]]; [done|done|]. cbn [length]. rewrite split_packages_step.
  cbv zeta. case_match; [done|]. by destruct (split_packages _ _).
Qed.

(** A stream that starts with the length [n]. *)
Lemma packages_cons n body :
  0 <= n →
  packages ([n / 256; n mod 256] ++ body) =
    if Z.of_nat (length body) <? n then ([], [n / 256; n mod 256] ++ body)
    else let '(ps, rest) := packages (drop (Z.to_nat n) body) in (take (Z.to_nat n) body :: ps, rest).
Proof.
  intros Hn. unfold packages at 1. cbn [length app]. rewrite split_packages_step.
  cbv zeta. replace (n / 256 * 256 + n mod 256) with n by zify_div.
  replace (length body <? Z.to_nat n)%nat with (Z.of_nat (length body) <? n) by
    (destruct (Nat.ltb_spec (length body) (Z.to_nat n)), (Z.ltb_spec (Z.of_nat (length body)) n); (done || lia)).
  case_if; [done|]. by rewrite split_packages_fuel by (rewrite length_drop; lia).
Qed.

(** Two bytes are a length. *)
Lemma header_bytes b0 b1 :
  is_byte b0 → is_byte b1 →
  let n := Z.lor (Z.shiftl b0 8) b1 in 0 <= n < 65536 ∧ b0 = n / 256 ∧ b1 = n mod 256.
Proof.
  intros H0 H1 n. unfold is_byte in *.
  assert (n = b1 + b0 * 2 ^ 8) as -> by (subst n; rewrite Z.shiftl_mul_pow2, Z.lor_comm by lia; apply lor_add_high; lia).
  split; [lia|]. split; zify_div.
Qed.

(** ** Saving and pushing *)

Definition repr (L : option queue) (p : pool) : Prop :=
  match L with
  | None => p = mkPackages ∅ []
  | Some q => table q (p_waiting p) ∧ ring q (p_ready p)
  end.

Lemma new_queue_repr : repr (Some new_queue) (mkPackages ∅ []).
Proof.
  split.
  - split; [by unfold new_queue; cbn [q_hash]; rewrite length_replicate|].
    intros h bucket. unfold zget. case_if; [|done]. unfold new_queue. cbn [q_hash]. intros [-> _]%lookup_replicate. split; [apply NoDup_nil_2|].
    split; [set_solver|]. intros fd s Hs. simpl in Hs. by rewrite lookup_empty in Hs.
  - unfold new_queue. cbn [p_ready]. split; cbn [q_queue q_cap q_head q_tail length];
      [by rewrite length_replicate|unfold QUEUESIZE; lia|done|done|done].
Qed.

Opaque new_queue.

Lemma get_queue_repr L p : repr L p → repr (Some (get_queue L)) p.
Proof. destruct L as [q|]; [done|]. intros ->. apply new_queue_repr. Qed.

Lemma push_data_spec L m l fd msg :
  repr L (mkPackages m l) →
  ∃ L', push_data L fd msg (Z.of_nat (length msg)) = Some L' ∧ repr L' (mkPackages m (l ++ [(fd, msg)])).
Proof.
  intros [Ht Hr]%get_queue_repr. destruct (push_data_ring (get_queue L) l fd msg Hr) as (q' & Hp & Hr' & Hh).
  exists (Some q'). split; [exact Hp|]. split; [|done]. unfold table. by rewrite Hh.
Qed.

Lemma link_repr q m l uc :
  repr (Some q) (mkPackages m l) → uc_ok uc → m !! uc_fd uc = None →
  ∃ q', link_uncomplete q uc = Some q' ∧ repr (Some q') (mkPackages (<[uc_fd uc := uc_bytes uc]> m) l).
Proof.
  intros [Ht Hr] Hok Hnone. destruct (link_uncomplete_spec q m uc Ht Hok Hnone) as (hash & -> & Ht').
  eexists. split; [done|]. split; [done|]. by apply ring_hash.
Qed.

Lemma save_header_spec L m l fd b :
  repr L (mkPackages m l) → m !! fd = None → is_byte b →
  ∃ L', save_header L fd [b] = Some L' ∧ repr L' (mkPackages (<[fd := [b]]> m) l).
Proof.
  intros HL%get_queue_repr Hnone Hb. unfold save_header, save_uncomplete.
  generalize dependent (get_queue L). intros q0 HL. change (zget [b] 0) with (Some b). cbn [mbind option_bind].
  destruct (link_repr q0 m l (mkUncomplete (mkNetpack fd 0 []) (-1) b) HL) as (q & Hq & Hr); [by left|done|].
  rewrite Hq. eauto.
Qed.

Lemma save_part_spec L m l fd n buffer :
  repr L (mkPackages m l) → m !! fd = None → Z.of_nat (length buffer) < n < 65536 →
  ∃ L', save_part L fd n buffer = Some L'
    ∧ repr L' (mkPackages (<[fd := [n / 256; n mod 256] ++ buffer]> m) l).
Proof.
  intros HL%get_queue_repr Hnone Hn. unfold save_part, save_uncomplete.
  generalize dependent (get_queue L). intros q0 HL.
  assert (Hm : Z.of_nat (length (malloc n)) = n) by (unfold malloc; rewrite length_replicate; lia).
  rewrite memcpy_to_spec by lia. cbn [mbind option_bind].
  rewrite Nat2Z.id, firstn_all. set (buf := take (Z.to_nat 0) _ ++ _).
  assert (Hbuf : Z.of_nat (length buf) = n).
  { subst buf. simpl. rewrite length_app, length_drop. lia. }
  destruct (link_repr q0 m l (mkUncomplete (mkNetpack fd n buf) (Z.of_nat (length buffer)) 0) HL)
    as (q & -> & Hr); [right; simpl; lia|done|].
  eexists. split; [done|]. unfold uc_bytes in Hr. simpl in Hr. revert Hr. case_if; [lia|].
  assert (take (Z.to_nat (Z.of_nat (length buffer))) buf = buffer) as ->; [|done].
  subst buf. rewrite Nat2Z.id. change (take (Z.to_nat 0) (malloc n)) with (@nil Z).
  rewrite app_nil_l. apply take_app_length.
Qed.

(** ** Filtering *)

Lemma wait_some m fd s : s ≠ [] → wait m fd s = <[fd := s]> m.
Proof. by destruct s. Qed.

Lemma read_size_spec b0 b1 s : read_size (b0 :: b1 :: s) = Some (Z.lor (Z.shiftl b0 8) b1).
Proof. done. Qed.

Lemma push_more_spec fuel : ∀ L m l fd s,
  repr L (mkPackages m l) → m !! fd = None → Forall is_byte s → s ≠ [] → (length s <= fuel)%nat →
  ∃ L', push_more fuel L fd s = Some L'
    ∧ repr L' (mkPackages (wait m fd (packages s).2) (l ++ ready fd (packages s).1)).
Proof.
  induction fuel as [|fuel IH]; intros L m l fd s HL Hnone Hs Hne Hf; [destruct s; simpl in Hf; [done|lia]|].
  cbn [push_more]. destruct s as [|b0 [|b1 s]]; [done| |].
  { apply Forall_cons in Hs as [Hb _]. destruct (save_header_spec L m l fd b0 HL Hnone Hb) as (L' & Hsv & HL').
    exists L'. split; [exact Hsv|]. simpl. by rewrite app_nil_r. }
  apply Forall_cons in Hs as [H0 Hs]. apply Forall_cons in Hs as [H1 Hs].
  rewrite (proj2 (Z.eqb_neq _ _)), read_size_spec by (simpl; lia). cbn [mbind option_bind].
  destruct (header_bytes b0 b1 H0 H1) as (Hn & E0 & E1). set (n := Z.lor (Z.shiftl b0 8) b1) in *.
  rewrite E0, E1. change (n / 256 :: n mod 256 :: s) with ([n / 256; n mod 256] ++ s).
  rewrite packages_cons, length_app by lia. change (drop 2 ([n / 256; n mod 256] ++ s)) with s. simpl length.
  replace (Z.of_nat (2 + length s) - 2) with (Z.of_nat (length s)) by lia. case_if.
  - destruct (save_part_spec L m l fd n s HL Hnone) as (L' & Hsv & HL'); [lia|]. exists L'. split; [done|].
    cbn [fst snd]. rewrite wait_some by done. by rewrite app_nil_r.
  - assert (Hl : Z.of_nat (length (take (Z.to_nat n) s)) = n) by (rewrite length_take; lia).
    destruct (push_data_spec L m l fd (take (Z.to_nat n) s) HL) as (L1 & Hp & HL1). rewrite Hl in Hp. rewrite Hp.
    cbn [mbind option_bind]. case_if.
    + destruct (IH L1 m (l ++ [(fd, take (Z.to_nat n) s)]) fd (drop (Z.to_nat n) s)) as (L2 & -> & HL2); auto.
      { by apply Forall_drop. }
      { intros E%(f_equal length). rewrite length_drop in E. simpl in E. lia. }
      { rewrite length_drop. simpl in Hf. lia. }
      exists L2. split; [done|]. destruct (packages (drop (Z.to_nat n) s)) as [ps rest]. simpl in *.
      by rewrite <- (assoc_L (++)) in HL2.
    + exists L1. split; [done|]. rewrite (drop_ge s) by lia. simpl. by rewrite delete_id.
Qed.

Lemma complete_header_spec uc data :
  uc_ok uc → Forall is_byte data → data ≠ [] →
  ∃ uc' data', complete_header uc data = Some (uc', data')
    ∧ uc_fd uc' = uc_fd uc ∧ Forall is_byte data'
    ∧ 0 <= uc_read uc' <= np_size (uc_pack uc') ∧ np_size (uc_pack uc') < 65536
    ∧ Z.of_nat (length (np_buffer (uc_pack uc'))) = np_size (uc_pack uc')
    ∧ uc_bytes uc ++ data = [np_size (uc_pack uc') / 256; np_size (uc_pack uc') mod 256]
        ++ take (Z.to_nat (uc_read uc')) (np_buffer (uc_pack uc')) ++ data'.
Proof.
  intros Hok Hd Hne. unfold complete_header, uc_bytes. destruct Hok as [[Hr Hh]|(Hr & Hn & Hl)].
  - rewrite Hr. destruct data as [|b data]; [done|]. apply Forall_cons in Hd as [Hb Hd].
    change (zget (b :: data) 0) with (Some b). cbn [Z.ltb Z.compare Z.eqb Pos.eqb c_assert mbind option_bind].
    rewrite Z.lor_comm. destruct (header_bytes _ _ Hh Hb) as (Hn & E0 & E1).
    set (n := Z.lor (Z.shiftl (uc_header uc) 8) b) in *. eexists _, data. split; [done|].
    split; [done|]. split; [done|]. simpl. unfold malloc. rewrite length_replicate.
    split; [lia|]. split; [lia|]. split; [lia|]. by rewrite <- E0, <- E1.
  - rewrite (proj2 (Z.ltb_ge _ 0)) by lia. exists uc, data. split_and!; auto; lia.
Qed.


(** A package that is complete, followed by more bytes. *)
Lemma more_spec L m l fd msg s :
  repr L (mkPackages m l) → m !! fd = None → Forall is_byte s → s ≠ [] →
  ∃ L1 L2, push_data L fd msg (Z.of_nat (length msg)) = Some L1 ∧ push_more (length s) L1 fd s = Some L2
    ∧ repr L2 (data_outcome m l fd (let '(ps, rest) := packages s in (msg :: ps, rest))).1
    ∧ (data_outcome m l fd (let '(ps, rest) := packages s in (msg :: ps, rest))).2 = Fmore.
Proof.
  intros HL Hnone Hs Hne. destruct (push_data_spec L m l fd msg HL) as (L1 & Hp & HL1).
  destruct (push_more_spec (length s) L1 m (l ++ [(fd, msg)]) fd s) as (L2 & Hm & HL2); auto.
  exists L1, L2. split; [done|]. split; [done|]. rewrite <- (assoc_L (++)) in HL2.
  pose proof (packages_nonempty s Hne) as Hpk. destruct (packages s) as [ps rest]. simpl in *.
  destruct ps as [|p ps]; [|by destruct rest]. destruct rest; [by destruct Hpk|done].
Qed.

Lemma fill_uncomplete_spec q m l fd uc data :
  repr (Some q) (mkPackages m l) → m !! fd = None → uc_ok uc → uc_fd uc = fd →
  Forall is_byte data → data ≠ [] →
  ∃ L', fill_uncomplete (Some q) fd uc data = Some (L', (data_outcome m l fd (packages (uc_bytes uc ++ data))).2)
    ∧ repr L' (data_outcome m l fd (packages (uc_bytes uc ++ data))).1.
Proof.
  intros HL Hnone Hok Hfd Hd Hne. unfold fill_uncomplete.
  destruct (complete_header_spec uc data Hok Hd Hne) as (u & s & -> & Hfd' & Hs & Hr & Hn & Hl & ->).
  cbn [mbind option_bind]. set (n := np_size (uc_pack u)) in *. set (buf := np_buffer (uc_pack u)) in *.
  rewrite packages_cons, length_app, length_take by lia.
  replace (Z.of_nat (Nat.min (Z.to_nat (uc_read u)) (length buf) + length s))
    with (uc_read u + Z.of_nat (length s)) by lia.
  replace (Z.of_nat (length s) <? n - uc_read u) with (uc_read u + Z.of_nat (length s) <? n)
    by (destruct (Z.ltb_spec (uc_read u + Z.of_nat (length s)) n), (Z.ltb_spec (Z.of_nat (length s)) (n - uc_read u)); (done || lia)).
  case_if.
  - rewrite memcpy_to_spec by lia. cbn [mbind option_bind]. rewrite Nat2Z.id, firstn_all.
    match goal with |- context [link_uncomplete q ?u'] => set (u1 := u') end.
    assert (Hu1 : uc_bytes u1 = [n / 256; n mod 256] ++ take (Z.to_nat (uc_read u)) buf ++ s).
    { unfold uc_bytes. simpl. fold n. rewrite (proj2 (Z.ltb_ge _ 0)) by lia. do 2 f_equal.
      rewrite (assoc_L (++)), take_app_le by (rewrite length_app, length_take; lia).
      apply take_ge. rewrite length_app, length_take. lia. }
    destruct (link_repr q m l u1 HL) as (q' & -> & Hq').
    + right. simpl. fold n. split; [lia|]. split; [done|].
      rewrite !length_app, length_take, length_drop. lia.
    + by change (uc_fd u1) with (uc_fd u); rewrite Hfd', Hfd.
    + cbn [mbind option_bind]. eexists. split; [done|].
      rewrite Hu1 in Hq'. change (uc_fd u1) with (uc_fd u) in Hq'. rewrite Hfd', Hfd in Hq'. done.
  - rewrite memcpy_to_spec by lia. cbn [mbind option_bind].
    replace (uc_read u + (n - uc_read u)) with n by lia. rewrite (drop_ge buf), app_nil_r by lia.
    rewrite take_app_ge, length_take by (rewrite length_take; lia).
    rewrite drop_app_ge, length_take by (rewrite length_take; lia).
    replace (Z.to_nat n - Nat.min (Z.to_nat (uc_read u)) (length buf))%nat with (Z.to_nat (n - uc_read u)) by lia.
    set (msg := take (Z.to_nat (uc_read u)) buf ++ take (Z.to_nat (n - uc_read u)) s).
    assert (Hmsg : n = Z.of_nat (length msg)).
    { subst msg. rewrite length_app, !length_take. lia. }
    case_if.
    + rewrite (drop_ge s) by lia. simpl. rewrite Hmsg. eexists. split; [done|]. by rewrite delete_id.
    + destruct (more_spec (Some q) m l fd msg (drop (Z.to_nat (n - uc_read u)) s) HL Hnone) as (L1 & L2 & Hp & Hm & HL2 & E).
      { by apply Forall_drop. }
      { intros E%(f_equal length). rewrite length_drop in E. simpl in E. lia. }
      rewrite <- Hmsg in Hp. rewrite Hp. cbn [mbind option_bind]. rewrite Hm. cbn [mbind option_bind]. rewrite <- E. eauto.
Qed.

Lemma data_outcome_delete m l fd r : data_outcome (delete fd m) l fd r = data_outcome m l fd r.
Proof.
  assert (H : ∀ rest, wait (delete fd m) fd rest = wait m fd rest).
  { intros [|x rest]; simpl; [by rewrite delete_delete_eq|by rewrite insert_delete_eq]. }
  destruct r as [[|msg [|msg' ps]] [|x rest]]; cbn [data_outcome]; by rewrite H.
Qed.

Lemma filter_data_none L m l fd s :
  repr L (mkPackages m l) → m !! fd = None → find_uncomplete L fd = Some (L, None) →
  Forall is_byte s → s ≠ [] →
  ∃ L', filter_data L fd s = Some (L', (data_outcome m l fd (packages s)).2)
    ∧ repr L' (data_outcome m l fd (packages s)).1.
Proof.
  intros HL Hnone Hfind Hs Hne. unfold filter_data, filter_data_. rewrite Hfind. cbn [mbind option_bind].
  destruct s as [|b0 [|b1 s]]; [done| |].
  { apply Forall_cons in Hs as [Hb _]. destruct (save_header_spec L m l fd b0 HL Hnone Hb) as (L' & Hsv & HL').
    exists L'. change (Z.of_nat (length [b0]) =? 1) with true. cbv iota. rewrite Hsv. by split. }
  apply Forall_cons in Hs as [H0 Hs]. apply Forall_cons in Hs as [H1 Hs].
  rewrite (proj2 (Z.eqb_neq _ _)), read_size_spec by (cbn [length]; lia). cbn [mbind option_bind].
  destruct (header_bytes b0 b1 H0 H1) as (Hn & E0 & E1). set (n := Z.lor (Z.shiftl b0 8) b1) in *.
  rewrite E0, E1. change (n / 256 :: n mod 256 :: s) with ([n / 256; n mod 256] ++ s).
  rewrite packages_cons, length_app by lia. change (drop 2 ([n / 256; n mod 256] ++ s)) with s. cbn [length].
  replace (Z.of_nat (2 + length s) - 2) with (Z.of_nat (length s)) by lia. case_if; [|case_if].
  - destruct (save_part_spec L m l fd n s HL Hnone) as (L' & Hsv & HL'); [lia|]. rewrite Hsv. cbn [mbind option_bind].
    by exists L'.
  - rewrite take_ge, drop_ge by lia. exists L. split; [done|]. simpl. by rewrite delete_id.
  - assert (Hl : Z.of_nat (length (take (Z.to_nat n) s)) = n) by (rewrite length_take; lia).
    destruct (more_spec L m l fd (take (Z.to_nat n) s) (drop (Z.to_nat n) s) HL Hnone) as (L1 & L2 & Hp & Hm & HL2 & E).
    { by apply Forall_drop. }
    { intros E%(f_equal length). rewrite length_drop in E. simpl in E. lia. }
    rewrite Hl in Hp. rewrite Hp. cbn [mbind option_bind]. rewrite Hm. cbn [mbind option_bind]. rewrite <- E. eauto.
Qed.

Lemma filter_data_spec L p fd data :
  repr L p → Forall is_byte data → data ≠ [] →
  ∃ L', filter_data L fd data = Some (L', (spec_filter p (Edata fd data)).2)
    ∧ repr L' (spec_filter p (Edata fd data)).1.
Proof.
  destruct p as [m l]. intros HL Hd Hne. simpl. destruct L as [q|].
  - pose proof HL as [Ht Hr]. pose proof (find_uncomplete_spec q m fd Ht) as Hf.
    destruct (m !! fd) as [s|] eqn:E; [|by apply filter_data_none].
    destruct Hf as (q' & uc & Hf & Ht' & Hok & Hfd & Hs & Hq). unfold filter_data, filter_data_. rewrite Hf.
    cbn [mbind option_bind default]. rewrite <- Hs, <- (data_outcome_delete m).
    apply fill_uncomplete_spec; auto; [|apply lookup_delete_eq].
    split; [done|]. rewrite Hq. by apply ring_hash.
  - injection HL as -> ->. rewrite lookup_empty.
    apply filter_data_none; [done|apply lookup_empty|done|done|done].
Qed.

Lemma close_uncomplete_spec L p fd :
  repr L p → ∃ L', close_uncomplete L fd = Some L' ∧ repr L' (mkPackages (delete fd (p_waiting p)) (p_ready p)).
Proof.
  destruct p as [m l]. intros HL. unfold close_uncomplete. destruct L as [q|]; cbn [p_waiting p_ready].
  - pose proof HL as [Ht Hr]. pose proof (find_uncomplete_spec q m fd Ht) as Hf. cbn [p_waiting p_ready] in *.
    destruct (m !! fd) as [s|] eqn:E.
    + destruct Hf as (q' & uc & -> & Ht' & _ & _ & _ & Hq). cbn [mbind option_bind]. eexists. split; [done|]. split; [done|].
      rewrite Hq. by apply ring_hash.
    + rewrite Hf. cbn [mbind option_bind]. eexists. split; [done|]. by rewrite delete_id.
  - injection HL as -> ->. eexists. split; [done|]. cbn [repr]. by rewrite delete_empty.
Qed.

(** ** Runs *)

Inductive np_op := Ofilter (e : socket_event) | Opop | Oclear.
Inductive np_out := Rfilter (f : filtered) | Rpop (x : option netpack) | Rclear.

Definition np_exec (L : option queue) (op : np_op) : option (option queue * np_out) :=
  match op with
  | Ofilter e => '(L, f) ← lfilter L e; Some (L, Rfilter f)
  | Opop => '(L, x) ← lpop L; Some (L, Rpop x)
  | Oclear => Some (lclear L, Rclear)
  end.

Definition np_spec (p : pool) (op : np_op) : pool * np_out :=
  match op with
  | Ofilter e => let '(p, f) := spec_filter p e in (p, Rfilter f)
  | Opop =>
      match p_ready p with
      | [] => (p, Rpop None)
      | x :: l => (mkPackages (p_waiting p) l, Rpop (Some (pack_of x)))
      end
  | Oclear => (mkPackages ∅ [], Rclear)
  end.

Fixpoint np_run (L : option queue) (ops : list np_op) : option (list np_out) :=
  match ops with
  | [] => Some []
  | op :: ops => '(L, o) ← np_exec L op; os ← np_run L ops; Some (o :: os)
  end.

Fixpoint np_spec_run (p : pool) (ops : list np_op) : list np_out :=
  match ops with
  | [] => []
  | op :: ops => let '(p, o) := np_spec p op in o :: np_spec_run p ops
  end.

(** The socket server reports data only when bytes were received. *)
Definition np_op_ok (op : np_op) : Prop :=
  match op with Ofilter (Edata _ data) => Forall is_byte data ∧ data ≠ [] | _ => True end.

Lemma lclear_spec L p : repr L p → repr (lclear L) (mkPackages ∅ []).
Proof.
  destruct L as [q|]; [|by intros _]. intros [[Hlen Hb] [Hl Hh Hf Ht Hs]]. split.
  - split; simpl; [by rewrite length_fmap|]. intros h bucket. unfold zget. case_if; [|done].
    rewrite list_lookup_fmap, fmap_Some. intros (? & _ & ->). split; [apply NoDup_nil_2|].
    split; [set_solver|]. intros fd s Hm. by rewrite lookup_empty in Hm.
  - split; simpl; try done; lia.
Qed.

Lemma np_exec_spec L p op :
  repr L p → np_op_ok op → ∃ L', np_exec L op = Some (L', (np_spec p op).2) ∧ repr L' (np_spec p op).1.
Proof.
  intros HL Hop. destruct op as [e| |]; cbn [np_exec].
  - assert (∃ L', lfilter L e = Some (L', (spec_filter p e).2) ∧ repr L' (spec_filter p e).1) as (L' & -> & HL').
    { destruct e as [fd data|id|id|id ud name|id text|id ud]; cbn [lfilter]; [|by eexists| |by eexists| |by eexists].
      - by apply filter_data_spec; [|apply Hop..].
      - destruct (close_uncomplete_spec L p id HL) as (L' & -> & HL'). by eexists.
      - destruct (close_uncomplete_spec L p id HL) as (L' & -> & HL'). by eexists. }
    cbn [mbind option_bind np_spec]. destruct (spec_filter p e). by exists L'.
  - destruct L as [q|]; [|by rewrite HL; eexists]. destruct HL as [Ht Hr]. destruct p as [m l]. cbn [np_spec p_ready p_waiting] in *.
    pose proof (lpop_ring q l Hr) as Hp. destruct l as [|x l].
    + rewrite Hp. eexists. by split.
    + destruct Hp as (q' & -> & Hr' & Hh). eexists. split; [done|]. split; [|done]. unfold table. by rewrite Hh.
  - eexists. split; [done|]. by eapply lclear_spec.
Qed.

Lemma np_run_spec ops L p : repr L p → Forall np_op_ok ops → np_run L ops = Some (np_spec_run p ops).
Proof.
  intros HL Hops. revert L p HL. induction Hops as [|op ops Hop Hops IH]; intros L p HL; [done|].
  cbn [np_run np_spec_run]. destruct (np_exec_spec L p op HL Hop) as (L' & -> & HL'). cbn [mbind option_bind].
  rewrite (IH L' _ HL'). simpl. by destruct (np_spec p op).
Qed.

(** C19. The package filter is equivalent to the reference: whatever sockets the
    events come from and however they interleave with pops and clears, [lfilter]
    and [lpop] return what the machine returns that keeps the unread bytes of
    each socket, splits them with [packages], and queues complete packages in a
    list.  In particular the hash table with its chains and the growing ring
    never lose, mix or reorder bytes, and no access is out of range. *)
Theorem netpack_refines ops :
  Forall np_op_ok ops → np_run None ops = Some (np_spec_run (mkPackages ∅ []) ops).
Proof. intros Hops. by apply np_run_spec. Qed.

Lemma netpack_refines_witness :
  let ops := [Ofilter (Edata 3 [0]); Ofilter (Edata 4099 [0; 1; 7; 0]); Ofilter (Edata 3 [2; 65; 66; 0]); Opop; Opop] in
  np_run None ops = Some (np_spec_run (mkPackages ∅ []) ops).
Proof.
  apply (netpack_refines [Ofilter (Edata 3 [0]); Ofilter (Edata 4099 [0; 1; 7; 0]);
                          Ofilter (Edata 3 [2; 65; 66; 0]); Opop; Opop]).
  repeat constructor; discriminate.
Defined.

(** ** Sending and receiving *)

(** The service pops until the queue is empty, at most as often as the ring is long. *)
Fixpoint drain (fuel : nat) (L : option queue) : option (option queue * list (Z * bytes)) :=
  match fuel with
  | O => None
  | S fuel =>
      '(L, x) ← lpop L;
      match x with
      | None => Some (L, [])
      | Some np => '(L, xs) ← drain fuel L; Some (L, (np_id np, np_buffer np) :: xs)
      end
  end.

Definition ring_size (L : option queue) : nat :=
  match L with None => 1 | Some q => Z.to_nat (q_cap q) end.

(** One data event and the packages the service takes for it. *)
Definition receive (L : option queue) (fd : Z) (data : bytes) : option (option queue * list (Z * bytes)) :=
  '(L, f) ← lfilter L (Edata fd data);
  match f with
  | Fdata fd msg _ => Some (L, [(fd, msg)])
  | Fmore => drain (ring_size L) L
  | _ => Some (L, [])
  end.

Fixpoint receive_all (L : option queue) (fd : Z) (chunks : list bytes) : option (list (Z * bytes)) :=
  match chunks with
  | [] => Some []
  | data :: chunks => '(L, xs) ← receive L fd data; ys ← receive_all L fd chunks; Some (xs ++ ys)
  end.

Lemma packages_app s t :
  Forall is_byte s →
  packages (s ++ t) =
    let '(ps, rest) := packages s in let '(qs, rest') := packages (rest ++ t) in (ps ++ qs, rest').
Proof.
  remember (length s) as n eqn:Hn. revert s Hn. induction (lt_wf n) as [n _ IH]. intros s -> Hs.
  destruct s as [|b0 [|b1 s]]; simpl; [by destruct (packages t)|by destruct (packages (b0 :: t))|].
  apply Forall_cons in Hs as [H0 Hs]. apply Forall_cons in Hs as [H1 Hs].
  destruct (header_bytes b0 b1 H0 H1) as (Hr & E0 & E1). set (k := Z.lor (Z.shiftl b0 8) b1) in *.
  change (b0 :: b1 :: s ++ t) with ([b0; b1] ++ (s ++ t)). change (b0 :: b1 :: s) with ([b0; b1] ++ s).
  rewrite E0, E1, !packages_cons by lia. rewrite length_app. destruct (Z.ltb_spec (Z.of_nat (length s)) k) as [Hlt|Hge].
  - rewrite <- (assoc_L (++)), packages_cons, length_app by lia. case_if; [done|].
    by destruct (packages (drop (Z.to_nat k) (s ++ t))).
  - rewrite (proj2 (Z.ltb_ge _ _)) by lia. rewrite drop_app_le, take_app_le by lia.
    rewrite (IH (length (drop (Z.to_nat k) s))); [|rewrite length_drop; simpl; lia|done|by apply Forall_drop].
    destruct (packages (drop (Z.to_nat k) s)) as [ps rest]. by destruct (packages (rest ++ t)).
Qed.

Lemma drain_spec m l : ∀ fuel L,
  repr L (mkPackages m l) → (length l < fuel)%nat →
  ∃ L', drain fuel L = Some (L', l) ∧ repr L' (mkPackages m []).
Proof.
  induction l as [|x l IH]; intros fuel L HL Hf; (destruct fuel as [|fuel]; [lia|]); cbn [drain].
  - destruct (np_exec_spec L _ Opop HL I) as (L' & He & HL'). cbn [np_exec np_spec p_ready fst snd] in He, HL'.
    destruct (lpop L) as [[L1 o]|]; [|done]. cbn [mbind option_bind] in *. injection He as -> ->. eauto.
  - destruct (np_exec_spec L _ Opop HL I) as (L' & He & HL'). cbn [np_exec np_spec p_ready p_waiting fst snd] in He, HL'.
    destruct (lpop L) as [[L1 o]|]; [|done]. cbn [mbind option_bind] in *. injection He as -> ->.
    destruct (IH fuel L' HL') as (L2 & -> & HL2); [simpl in Hf; lia|]. cbn [mbind option_bind]. exists L2.
    by destruct x.
Qed.

Lemma receive_spec L m fd data :
  repr L (mkPackages m []) → Forall is_byte data → data ≠ [] →
  let r := packages (default [] (m !! fd) ++ data) in
  ∃ L', receive L fd data = Some (L', ready fd r.1) ∧ repr L' (mkPackages (wait m fd r.2) []).
Proof.
  intros HL Hd Hne r. unfold receive. cbn [lfilter].
  destruct (filter_data_spec L _ fd data HL Hd Hne) as (L' & -> & HL'). cbn [mbind option_bind].
  cbn [spec_filter p_waiting p_ready] in *. fold r in HL' |- *. destruct r as [ps rest].
  assert (Hdrain : repr L' (mkPackages (wait m fd rest) (ready fd ps)) →
    ∃ L2, drain (ring_size L') L' = Some (L2, ready fd ps) ∧ repr L2 (mkPackages (wait m fd rest) [])).
  { intros Hr. apply drain_spec; [done|]. destruct L' as [q|]; simpl.
    - destruct Hr as [_ Hri]. pose proof (ri_fill _ _ Hri). simpl in *. lia.
    - injection Hr as _ ->. simpl. lia. }
  destruct ps as [|msg [|msg' ps]], rest as [|x rest]; cbn [data_outcome fst snd] in *;
    first [by exists L'|by apply Hdrain].
Qed.

Lemma wait_lookup m fd s : default [] (wait m fd s !! fd) = s.
Proof. destruct s; simpl; [by rewrite lookup_delete_eq|by rewrite lookup_insert_eq]. Qed.

Lemma packages_rest_bytes s : Forall is_byte s → Forall is_byte (packages s).2.
Proof.
  remember (length s) as n eqn:Hn. revert s Hn. induction (lt_wf n) as [n _ IH]. intros s -> Hs.
  destruct s as [|b0 [|b1 s]]; [done|done|]. pose proof Hs as Hs'.
  apply Forall_cons in Hs as [H0 Hs]. apply Forall_cons in Hs as [H1 Hs].
  destruct (header_bytes b0 b1 H0 H1) as (Hr & E0 & E1). set (k := Z.lor (Z.shiftl b0 8) b1) in *.
  rewrite E0, E1 in Hs' |- *. change (k / 256 :: k mod 256 :: s) with ([k / 256; k mod 256] ++ s) in *.
  rewrite packages_cons by lia. case_if; [done|].
  specialize (IH (length (drop (Z.to_nat k) s)) ltac:(rewrite length_drop; simpl; lia) _ eq_refl (Forall_drop _ _ _ Hs)).
  by destruct (packages (drop (Z.to_nat k) s)).
Qed.

Lemma receive_all_spec chunks : ∀ L m fd,
  repr L (mkPackages m []) → Forall (λ c, Forall is_byte c ∧ c ≠ []) chunks →
  Forall is_byte (default [] (m !! fd)) → (packages (default [] (m !! fd))).1 = [] →
  receive_all L fd chunks = Some (ready fd (packages (default [] (m !! fd) ++ concat chunks)).1).
Proof.
  induction chunks as [|c chunks IH]; intros L m fd HL Hc Hb Hnone; cbn [receive_all concat].
  { by rewrite app_nil_r, Hnone. }
  apply Forall_cons in Hc as [[Hcb Hne] Hc].
  destruct (receive_spec L m fd c HL Hcb Hne) as (L' & -> & HL'). cbn [mbind option_bind].
  set (w := default [] (m !! fd)) in *. assert (Hwc : Forall is_byte (w ++ c)) by by apply Forall_app.
  rewrite (assoc_L (++)), (packages_app (w ++ c)) by done. pose proof (packages_rest_bytes _ Hwc) as Hrest.
  pose proof (packages_app (w ++ c) [] Hwc) as Hidem. rewrite app_nil_r in Hidem.
  destruct (packages (w ++ c)) as [ps rest]. cbn [fst snd] in *. rewrite app_nil_r in Hidem.
  rewrite (IH L' (wait m fd rest) fd); rewrite ?wait_lookup; auto.
  - cbn [mbind option_bind]. destruct (packages (rest ++ concat chunks)) as [qs rest']. cbn [fst].
    unfold ready. by rewrite fmap_app.
  - destruct (packages rest) as [qs r]. cbn [fst]. injection Hidem as Hps _.
    apply (f_equal length) in Hps. rewrite length_app in Hps. destruct qs; [done|simpl in Hps; lia].
Qed.

Lemma lpack_inv msg e :
  lpack msg = Some e → e = [Z.of_nat (length msg) / 256; Z.of_nat (length msg) mod 256] ++ msg.
Proof.
  unfold lpack, write_size. case_if; [done|]. intros [= <-]. set (n := Z.of_nat (length msg)) in *.
  change 255 with (2 ^ 8 - 1). rewrite !land_ones_mod, Z.shiftr_div_pow2 by lia.
  rewrite (Z.mod_small (n / 2 ^ 8)) by zify_div. done.
Qed.

Lemma packages_packed msgs es : Forall2 (λ msg e, lpack msg = Some e) msgs es → packages (concat es) = (msgs, []).
Proof.
  induction 1 as [|msg e msgs es He%lpack_inv Hes IH]; [done|]. cbn [concat].
  rewrite He, <- (assoc_L (++)), packages_cons, length_app by lia. rewrite (proj2 (Z.ltb_ge _ _)) by lia.
  rewrite Nat2Z.id, drop_app_length, take_app_length, IH. done.
Qed.

(** C20. Round trip: messages packed with [lpack] and sent over a socket arrive
    as they were, whatever chunks the network cuts the stream into. *)
Theorem netpack_roundtrip fd msgs es chunks :
  Forall2 (λ msg e, lpack msg = Some e) msgs es →
  Forall (λ c, Forall is_byte c ∧ c ≠ []) chunks → concat chunks = concat es →
  receive_all None fd chunks = Some ((λ msg, (fd, msg)) <$> msgs).
Proof.
  intros Hes Hc Heq. rewrite (receive_all_spec chunks None ∅ fd); rewrite ?lookup_empty; [|done..].
  cbn [default app]. by rewrite Heq, (packages_packed msgs es Hes).
Qed.

Lemma netpack_roundtrip_witness :
  receive_all None 5 [[0; 2; 65]; [66; 0]; [0; 0; 1; 67]] = Some [(5, [65; 66]); (5, []); (5, [67])].
Proof.
  apply (netpack_roundtrip 5 [[65; 66]; []; [67]] [[0; 2; 65; 66]; [0; 0]; [0; 1; 67]]).
  - repeat constructor.
  - repeat constructor; discriminate.
  - reflexivity.
Defined.
