(* ===== verification/Seri.v ===== *)
(** * Serialisation of Lua values (lualib-src/lua-seri.c)

    Messages between Lua services are Lua values written to a chain of 128-byte
    blocks and read back from one buffer.  A table is the list of its pairs in
    the order [lua_next] visits them; what [lua_rawlen] answers for a table and
    which floats Lua turns into integer keys are parameters.  A Lua error is
    [Throw], an access outside a buffer is [Stuck].  The file shows that unpacking what was packed gives the value back,
    that unpacking ends on every buffer, and where it leaves the buffer. *)

From stdpp Require Import prelude list list_numbers.
From S2P Require Import Prelude.

Abbreviation bytes := (list Z) (only parsing).

(** ** Values *)

(** [VReal] holds the 64 bits of the double, [VOther] is a value of a type that
    cannot be sent.  A table whose metatable has [__pairs] is a [VTable true] of
    the pairs the metamethod produces. *)
#[warnings="-register-all"]
Inductive value :=
  | VNil
  | VBool (b : bool)
  | VInt (v : Z)
  | VReal (bits : Z)
  | VPtr (p : Z)
  | VString (s : bytes)
  | VTable (meta : bool) (pairs : list (value * value))
  | VOther.

#[export] Instance is_nil_dec (v : value) : Decision (v = VNil).
Proof. destruct v; [by left|by right..]. Defined.

Definition TYPE_NIL : Z := 0.
Definition TYPE_BOOLEAN : Z := 1.
Definition TYPE_NUMBER : Z := 2.
Definition TYPE_NUMBER_ZERO : Z := 0.
Definition TYPE_NUMBER_BYTE : Z := 1.
Definition TYPE_NUMBER_WORD : Z := 2.
Definition TYPE_NUMBER_DWORD : Z := 4.
Definition TYPE_NUMBER_QWORD : Z := 6.
Definition TYPE_NUMBER_REAL : Z := 8.
Definition TYPE_USERDATA : Z := 3.
Definition TYPE_SHORT_STRING : Z := 4.
Definition TYPE_LONG_STRING : Z := 5.
Definition TYPE_TABLE : Z := 6.
Definition MAX_COOKIE : Z := 32.
Definition BLOCK_SIZE : Z := 128.
Definition MAX_DEPTH : Z := 32.

(** [COMBINE_TYPE], stored in a [uint8_t]. *)
Definition COMBINE_TYPE (t v : Z) : Z := u8 (Z.lor t (Z.shiftl v 3)).

(** The memory of an integer, little endian. *)
Fixpoint le_bytes (n : nat) (x : Z) : bytes :=
  match n with O => [] | S n => x mod 256 :: le_bytes n (x / 256) end.

Fixpoint le_value (s : bytes) : Z :=
  match s with [] => 0 | b :: s => b + 256 * le_value s end.

(** ** Write blocks *)

(** [wb_full] are the blocks before [current]. *)
Record write_block := mkWb { wb_full : list bytes; wb_current : bytes; wb_len : Z; wb_ptr : Z }.

#[export] Instance eta_write_block : Eta write_block :=
  λ b, mkWb (wb_full b) (wb_current b) (wb_len b) (wb_ptr b).

Definition blk_alloc : bytes := malloc BLOCK_SIZE.

(** [b->current = b->current->next = blk_alloc(); b->ptr = 0;] *)
Definition next_block (b : write_block) : write_block :=
  b <| wb_full := wb_full b ++ [wb_current b] |> <| wb_current := blk_alloc |> <| wb_ptr := 0 |>.

(** The copy of [wb_push], repeated from [_again]. *)
Fixpoint push_loop (fuel : nat) (b : write_block) (buffer : bytes) : outcome write_block :=
  match fuel with
  | O => OutOfFuel
  | S fuel =>
      let sz := Z.of_nat (length buffer) in
      if wb_ptr b <=? BLOCK_SIZE - sz then
        cur ← lift (memcpy_to (wb_current b) (wb_ptr b) buffer sz);
        Ret (b <| wb_current := cur |> <| wb_ptr := wb_ptr b + sz |> <| wb_len := i32 (wb_len b + sz) |>)
      else
        let copy := BLOCK_SIZE - wb_ptr b in
        cur ← lift (memcpy_to (wb_current b) (wb_ptr b) buffer copy);
        push_loop fuel (next_block (b <| wb_current := cur |> <| wb_len := i32 (wb_len b + copy) |>))
                  (drop (Z.to_nat copy) buffer)
  end.

(** Every turn but the first copies a whole block. *)
Definition wb_push (b : write_block) (buffer : bytes) : outcome write_block :=
  push_loop (length buffer + 2) (if wb_ptr b =? BLOCK_SIZE then next_block b else b) buffer.

Definition wb_init : write_block := mkWb [] blk_alloc 0 0.

Definition wb_free (wb : write_block) : write_block := mkWb [] [] 0 0.

(** The blocks from [b] on; [None] for the null [next] of the last one. *)
Fixpoint seri_loop (blocks : list bytes) (len : Z) : outcome bytes :=
  if len <=? 0 then Ret []
  else
    match blocks with
    | [] => Stuck
    | b :: next =>
        if BLOCK_SIZE <=? len then
          c ← lift (copy_out b 0 BLOCK_SIZE); r ← seri_loop next (len - BLOCK_SIZE); Ret (c ++ r)
        else lift (copy_out b 0 len)
    end.

Definition seri (wb : write_block) : outcome bytes :=
  seri_loop (wb_full wb ++ [wb_current wb]) (wb_len wb).

(** ** Packing *)

Definition wb_nil (wb : write_block) : outcome write_block := wb_push wb [TYPE_NIL].

Definition wb_boolean (wb : write_block) (boolean : bool) : outcome write_block :=
  wb_push wb [COMBINE_TYPE TYPE_BOOLEAN (if boolean then 1 else 0)].

Definition wb_integer (wb : write_block) (v : Z) : outcome write_block :=
  let type := TYPE_NUMBER in
  if v =? 0 then wb_push wb [COMBINE_TYPE type TYPE_NUMBER_ZERO]
  else if negb (v =? i32 v) then
    wb ← wb_push wb [COMBINE_TYPE type TYPE_NUMBER_QWORD]; wb_push wb (le_bytes 8 (u64 v))
  else if v <? 0 then
    wb ← wb_push wb [COMBINE_TYPE type TYPE_NUMBER_DWORD]; wb_push wb (le_bytes 4 (u32 v))
  else if v <? 0x100 then
    wb ← wb_push wb [COMBINE_TYPE type TYPE_NUMBER_BYTE]; wb_push wb (le_bytes 1 (u8 v))
  else if v <? 0x10000 then
    wb ← wb_push wb [COMBINE_TYPE type TYPE_NUMBER_WORD]; wb_push wb (le_bytes 2 (u16 v))
  else
    wb ← wb_push wb [COMBINE_TYPE type TYPE_NUMBER_DWORD]; wb_push wb (le_bytes 4 (u32 v)).

Definition wb_real (wb : write_block) (v : Z) : outcome write_block :=
  wb ← wb_push wb [COMBINE_TYPE TYPE_NUMBER TYPE_NUMBER_REAL]; wb_push wb (le_bytes 8 v).

Definition wb_pointer (wb : write_block) (v : Z) : outcome write_block :=
  wb ← wb_push wb [TYPE_USERDATA]; wb_push wb (le_bytes 8 v).

Definition wb_string (wb : write_block) (str : bytes) : outcome write_block :=
  let len := i32 (Z.of_nat (length str)) in
  if len <? MAX_COOKIE then
    wb ← wb_push wb [COMBINE_TYPE TYPE_SHORT_STRING len];
    if 0 <? len then wb_push wb str else Ret wb
  else
    wb ← (if len <? 0x10000 then
            wb ← wb_push wb [COMBINE_TYPE TYPE_LONG_STRING 2]; wb_push wb (le_bytes 2 (u16 len))
          else
            wb ← wb_push wb [COMBINE_TYPE TYPE_LONG_STRING 4]; wb_push wb (le_bytes 4 (u32 len)));
    wb_push wb str.

(** Raw equality of keys.  A table is equal to itself only, and every unpacked
    table is a new one. *)
Definition same_key (a b : value) : bool :=
  match a, b with
  | VBool x, VBool y => Bool.eqb x y
  | VInt x, VInt y | VReal x, VReal y | VPtr x, VPtr y => x =? y
  | VString x, VString y => bool_decide (x = y)
  | _, _ => false
  end.

Fixpoint rawget (t : list (value * value)) (k : value) : value :=
  match t with
  | [] => VNil
  | (k', v) :: t => if same_key k' k then v else rawget t k
  end.

Section seri.

Context (rawlen : list (value * value) → Z).
Context (float_to_integer : Z → option Z).

(** [for (i=1;i<=array_size;i++)], [n] turns from [i]. *)
Fixpoint array_loop (pack : write_block → value → outcome write_block) (t : list (value * value))
    (wb : write_block) (n : nat) (i : Z) : outcome write_block :=
  match n with
  | O => Ret wb
  | S n => wb ← pack wb (rawget t (VInt i)); array_loop pack t wb n (i + 1)
  end.

Definition wb_table_array (pack : write_block → value → outcome write_block) (wb : write_block)
    (t : list (value * value)) : outcome (write_block * Z) :=
  let array_size := rawlen t in
  wb ← (if MAX_COOKIE - 1 <=? array_size then
          wb ← wb_push wb [COMBINE_TYPE TYPE_TABLE (MAX_COOKIE - 1)]; wb_integer wb array_size
        else wb_push wb [COMBINE_TYPE TYPE_TABLE array_size]);
  wb ← array_loop pack t wb (Z.to_nat array_size) 1;
  Ret (wb, array_size).

Definition in_array (array_size : Z) (k : value) : bool :=
  match k with VInt x => (0 <? x) && (x <=? array_size) | _ => false end.

Fixpoint wb_table_hash (pack : write_block → value → outcome write_block) (wb : write_block)
    (t : list (value * value)) (array_size : Z) : outcome write_block :=
  match t with
  | [] => wb_nil wb
  | (k, v) :: t =>
      if in_array array_size k then wb_table_hash pack wb t array_size
      else wb ← pack wb k; wb ← pack wb v; wb_table_hash pack wb t array_size
  end.

Fixpoint metapairs_loop (pack : write_block → value → outcome write_block) (wb : write_block)
    (t : list (value * value)) : outcome write_block :=
  match t with
  | [] => wb_nil wb
  | (k, v) :: t => wb ← pack wb k; wb ← pack wb v; metapairs_loop pack wb t
  end.

Definition wb_table_metapairs (pack : write_block → value → outcome write_block) (wb : write_block)
    (t : list (value * value)) : outcome write_block :=
  wb ← wb_push wb [COMBINE_TYPE TYPE_TABLE 0]; metapairs_loop pack wb t.

Definition wb_table (pack : write_block → value → outcome write_block) (wb : write_block)
    (meta : bool) (t : list (value * value)) : outcome write_block :=
  if meta then wb_table_metapairs pack wb t
  else '(wb, array_size) ← wb_table_array pack wb t; wb_table_hash pack wb t array_size.

(** The depth is at most [MAX_DEPTH + 1], so a fuel of [MAX_DEPTH + 2] is enough. *)
Fixpoint pack_one (fuel : nat) (depth : Z) (b : write_block) (v : value) : outcome write_block :=
  match fuel with
  | O => OutOfFuel
  | S fuel =>
      if MAX_DEPTH <? depth then Throw
      else
        match v with
        | VNil => wb_nil b
        | VInt x => wb_integer b x
        | VReal x => wb_real b x
        | VBool x => wb_boolean b x
        | VString s => wb_string b s
        | VPtr p => wb_pointer b p
        | VTable meta t => wb_table (pack_one fuel (depth + 1)) b meta t
        | VOther => Throw
        end
  end.

Definition pack_fuel : nat := Z.to_nat MAX_DEPTH + 2.

Fixpoint pack_from (b : write_block) (args : list value) : outcome write_block :=
  match args with
  | [] => Ret b
  | v :: args => b ← pack_one pack_fuel 0 b v; pack_from b args
  end.

Definition luaseri_pack (args : list value) : outcome bytes :=
  wb ← pack_from wb_init args; seri wb.

(** ** Unpacking *)

Record read_block := mkRb { rb_buffer : bytes; rb_len : Z; rb_ptr : Z }.

#[export] Instance eta_read_block : Eta read_block := λ b, mkRb (rb_buffer b) (rb_len b) (rb_ptr b).

Definition rball_init (buffer : bytes) (size : Z) : read_block := mkRb buffer size 0.

(** The pointer (an offset) is [None] for NULL. *)
Definition rb_read (rb : read_block) (sz : Z) : option Z * read_block :=
  if rb_len rb <? sz then (None, rb)
  else (Some (rb_ptr rb), rb <| rb_ptr := rb_ptr rb + sz |> <| rb_len := rb_len rb - sz |>).

(** [rb_read] of [sz] bytes and the access through the pointer; NULL is an invalid stream. *)
Definition read_bytes (rb : read_block) (sz : Z) : outcome (bytes * read_block) :=
  match rb_read rb sz with
  | (None, _) => Throw
  | (Some p, rb) => b ← lift (copy_out (rb_buffer rb) p sz); Ret (b, rb)
  end.

Definition get_integer (rb : read_block) (cookie : Z) : outcome (Z * read_block) :=
  if cookie =? TYPE_NUMBER_ZERO then Ret (0, rb)
  else if cookie =? TYPE_NUMBER_BYTE then '(n, rb) ← read_bytes rb 1; Ret (le_value n, rb)
  else if cookie =? TYPE_NUMBER_WORD then '(n, rb) ← read_bytes rb 2; Ret (le_value n, rb)
  else if cookie =? TYPE_NUMBER_DWORD then '(n, rb) ← read_bytes rb 4; Ret (i32 (le_value n), rb)
  else if cookie =? TYPE_NUMBER_QWORD then '(n, rb) ← read_bytes rb 8; Ret (i64 (le_value n), rb)
  else Throw.

Definition get_real (rb : read_block) : outcome (Z * read_block) :=
  '(n, rb) ← read_bytes rb 8; Ret (le_value n, rb).

Definition get_pointer (rb : read_block) : outcome (Z * read_block) :=
  '(n, rb) ← read_bytes rb 8; Ret (le_value n, rb).

(** [len] is an [int]. *)
Definition get_buffer (rb : read_block) (len : Z) : outcome (value * read_block) :=
  '(s, rb) ← read_bytes rb len; Ret (VString s, rb).

(** Whether the bits are those of a NaN. *)
Definition is_nan (bits : Z) : bool :=
  (Z.land (Z.shiftr bits 52) 2047 =? 2047) && negb (Z.land bits (2 ^ 52 - 1) =? 0).

(** [lua_rawset]: a float key with an integer value becomes an integer, NaN is an
    error, nil removes. *)
Fixpoint assign (t : list (value * value)) (k v : value) : list (value * value) :=
  match t with
  | [] => match v with VNil => [] | _ => [(k, v)] end
  | (k', v') :: t =>
      if same_key k' k then match v with VNil => t | _ => (k', v) :: t end else (k', v') :: assign t k v
  end.

Definition rawset (t : list (value * value)) (k v : value) : outcome (list (value * value)) :=
  match k with
  | VNil => Throw
  | VReal bits =>
      if is_nan bits then Throw
      else Ret (assign t (match float_to_integer bits with Some i => VInt i | None => k end) v)
  | _ => Ret (assign t k v)
  end.

(** The size of the array part: in the cookie, or an integer after it. *)
Definition get_array_size (rb : read_block) (array_size : Z) : outcome (Z * read_block) :=
  if array_size =? MAX_COOKIE - 1 then
    '(t, rb) ← read_bytes rb 1;
    let type := le_value t in
    let cookie := Z.shiftr type 3 in
    if negb (Z.land type 7 =? TYPE_NUMBER) || (cookie =? TYPE_NUMBER_REAL) then Throw
    else '(n, rb) ← get_integer rb cookie; Ret (i32 n, rb)
  else Ret (array_size, rb).

(** The cases of [push_value] other than tables. *)
Definition push_scalar (rb : read_block) (type cookie : Z) : outcome (value * read_block) :=
  if type =? TYPE_NIL then Ret (VNil, rb)
  else if type =? TYPE_BOOLEAN then Ret (VBool (c_true cookie), rb)
  else if type =? TYPE_NUMBER then
    if cookie =? TYPE_NUMBER_REAL then '(n, rb) ← get_real rb; Ret (VReal n, rb)
    else '(n, rb) ← get_integer rb cookie; Ret (VInt n, rb)
  else if type =? TYPE_USERDATA then '(p, rb) ← get_pointer rb; Ret (VPtr p, rb)
  else if type =? TYPE_SHORT_STRING then get_buffer rb cookie
  else if type =? TYPE_LONG_STRING then
    if cookie =? 2 then '(n, rb) ← read_bytes rb 2; get_buffer rb (le_value n)
    else if negb (cookie =? 4) then Throw
    else '(n, rb) ← read_bytes rb 4; get_buffer rb (i32 (le_value n))
  else Throw.

(** Every call consumes a byte or ends a loop. *)
Fixpoint push_value (fuel : nat) (rb : read_block) (type cookie : Z) : outcome (value * read_block) :=
  match fuel with
  | O => OutOfFuel
  | S fuel =>
      if type =? TYPE_TABLE then
        '(array_size, rb) ← get_array_size rb cookie;
        '(t, rb) ← unpack_array fuel rb [] 1 array_size;
        '(t, rb) ← unpack_pairs fuel rb t;
        Ret (VTable false t, rb)
      else push_scalar rb type cookie
  end
with unpack_one (fuel : nat) (rb : read_block) : outcome (value * read_block) :=
  match fuel with
  | O => OutOfFuel
  | S fuel =>
      '(t, rb) ← read_bytes rb 1;
      let type := le_value t in
      push_value fuel rb (Z.land type 7) (Z.shiftr type 3)
  end
with unpack_array (fuel : nat) (rb : read_block) (t : list (value * value)) (i array_size : Z)
    : outcome (list (value * value) * read_block) :=
  match fuel with
  | O => OutOfFuel
  | S fuel =>
      if i <=? array_size then
        '(v, rb) ← unpack_one fuel rb;
        unpack_array fuel rb (assign t (VInt i) v) (i + 1) array_size
      else Ret (t, rb)
  end
with unpack_pairs (fuel : nat) (rb : read_block) (t : list (value * value))
    : outcome (list (value * value) * read_block) :=
  match fuel with
  | O => OutOfFuel
  | S fuel =>
      '(k, rb) ← unpack_one fuel rb;
      match k with
      | VNil => Ret (t, rb)
      | _ => '(v, rb) ← unpack_one fuel rb; t ← rawset t k v; unpack_pairs fuel rb t
      end
  end.

Definition unpack_fuel (rb : read_block) : nat := 4 * Z.to_nat (rb_len rb) + 4.

(** The [for] of [luaseri_unpack]. *)
Fixpoint unpack_all (fuel : nat) (rb : read_block) : outcome (list value) :=
  match fuel with
  | O => OutOfFuel
  | S fuel =>
      match rb_read rb 1 with
      | (None, _) => Ret []
      | (Some p, rb) =>
          t ← lift (copy_out (rb_buffer rb) p 1);
          let type := le_value t in
          '(v, rb) ← push_value (unpack_fuel rb) rb (Z.land type 7) (Z.shiftr type 3);
          vs ← unpack_all fuel rb;
          Ret (v :: vs)
      end
  end.

Definition luaseri_unpack (buffer : bytes) : outcome (list value) :=
  let len := i32 (Z.of_nat (length buffer)) in
  if len =? 0 then Ret [] else unpack_all (S (length buffer)) (rball_init buffer len).

End seri.

(** ** The chain of blocks is a byte buffer *)

Record wb_ok (wb : write_block) (s : bytes) : Prop := {
  wo_full : Forall (λ b, length b = 128%nat) (wb_full wb);
  wo_current : length (wb_current wb) = 128%nat;
  wo_ptr : 0 <= wb_ptr wb <= 128;
  wo_content : concat (wb_full wb) ++ take (Z.to_nat (wb_ptr wb)) (wb_current wb) = s;
  wo_len : wb_len wb = i32 (Z.of_nat (length s))
}.

Lemma i32_add x y : i32 (i32 x + y) = i32 (x + y).
Proof. unfold i32. zify_div. Qed.

Lemma wb_init_ok : wb_ok wb_init [].
Proof. by split. Qed.

Lemma next_block_ok wb s : wb_ok wb s → wb_ptr wb = 128 → wb_ok (next_block wb) s.
Proof.
  intros [Hf Hc Hp Hs Hl] E. split; cbn -[malloc]; auto.
  - apply Forall_app. by split; [|constructor].
  - lia.
  - rewrite concat_app. simpl. rewrite !app_nil_r, <- Hs, E. f_equal. symmetry. apply take_ge. simpl. lia.
Qed.

Lemma push_loop_spec fuel : ∀ wb s buffer,
  wb_ok wb s → (wb_ptr wb = 128 → buffer = []) → (length buffer < fuel)%nat →
  ∃ wb', push_loop fuel wb buffer = Ret wb' ∧ wb_ok wb' (s ++ buffer).
Proof.
  induction fuel as [|fuel IH]; intros wb s buffer Hwb Hptr Hf; [lia|].
  destruct Hwb as [Hfull Hc Hp Hs Hl]. cbn [push_loop]. unfold BLOCK_SIZE. case_if.
  - rewrite memcpy_to_spec by lia. cbn [lift mbind outcome_bind]. eexists. split; [done|].
    rewrite Nat2Z.id, firstn_all. split; simpl; auto.
    + rewrite !length_app, length_take, length_drop. lia.
    + lia.
    + rewrite (assoc_L (++) (take _ _)), take_app_le, take_ge
        by (rewrite length_app, length_take; lia). by rewrite <- Hs, <- !(assoc_L (++)).
    + rewrite length_app, Hl, Nat2Z.inj_add. apply i32_add.
  - rewrite memcpy_to_spec by lia. cbn [lift mbind outcome_bind].
    set (k := 128 - wb_ptr wb). assert (0 < k).
    { destruct (decide (wb_ptr wb = 128)) as [E|]; [|lia]. rewrite (Hptr E) in *. simpl in *. lia. }
    replace (wb_ptr wb + k) with 128 by lia. change (Z.to_nat 128) with 128%nat. rewrite (drop_ge (wb_current wb)) by lia.
    rewrite app_nil_r. set (cur := take _ (wb_current wb) ++ take (Z.to_nat k) buffer).
    assert (Hcur : length cur = 128%nat) by (subst cur; rewrite length_app, !length_take; lia).
    match goal with |- context [push_loop fuel (next_block ?w)] => set (w1 := w) end.
    assert (Hnext : wb_ok (next_block w1) (s ++ take (Z.to_nat k) buffer)).
    { split; cbn -[malloc]; auto.
      - apply Forall_app. by split; [|constructor].
      - lia.
      - rewrite concat_app. simpl. rewrite !app_nil_r, <- Hs. subst cur. by rewrite (assoc_L (++)).
      - rewrite length_app, length_take, Hl, Nat2Z.inj_add, i32_add. do 2 f_equal. lia. }
    destruct (IH _ _ (drop (Z.to_nat k) buffer) Hnext) as (wb' & -> & Hwb').
    + simpl. lia.
    + rewrite length_drop. lia.
    + exists wb'. split; [done|]. by rewrite <- (assoc_L (++)), take_drop in Hwb'.
Qed.

Lemma seri_loop_spec full cur n :
  Forall (λ b, length b = 128%nat) full → (n <= length cur)%nat → length cur = 128%nat →
  seri_loop (full ++ [cur]) (Z.of_nat (length full * 128 + n)) = Ret (concat full ++ take n cur).
Proof.
  intros Hf Hn Hc. induction Hf as [|b full Hb Hf IH]; cbn [app length Nat.mul concat seri_loop]; unfold BLOCK_SIZE.
  - case_if; [destruct n; [done|lia]|]. case_if.
    + assert (n = 128)%nat as -> by lia. rewrite copy_out_spec by lia. cbn [lift mbind outcome_bind].
      change (Z.of_nat (0 + 128) - 128) with 0. cbn [seri_loop Z.leb Z.compare mbind outcome_bind].
      by rewrite app_nil_r.
    + rewrite copy_out_spec by lia. cbn [lift]. rewrite drop_0. f_equal. f_equal. lia.
  - rewrite (proj2 (Z.leb_gt _ _)), (proj2 (Z.leb_le _ _)) by lia. rewrite copy_out_spec by lia.
    cbn [lift mbind outcome_bind]. replace (Z.of_nat _ - 128) with (Z.of_nat (length full * 128 + n)) by lia.
    rewrite IH. cbn [mbind outcome_bind]. rewrite drop_0, take_ge by (rewrite Hb; simpl; lia).
    by rewrite <- (assoc_L (++)).
Qed.

(** What was pushed is what is sent. *)
Lemma seri_spec wb s : wb_ok wb s → Z.of_nat (length s) < 2 ^ 31 → seri wb = Ret s.
Proof.
  intros [Hf Hc Hp Hs Hl] Hlt. unfold seri. rewrite Hl, i32_small, <- Hs, length_app, length_take, Hc by lia.
  assert (length (concat (wb_full wb)) = length (wb_full wb) * 128)%nat as ->.
  { clear -Hf. induction Hf as [|b full Hb Hf IH]; simpl; [done|]. rewrite length_app. lia. }
  rewrite (Nat.min_l (Z.to_nat (wb_ptr wb))) by lia. apply seri_loop_spec; auto. lia.
Qed.

(** [emits m s]: running [m] appends [s] to what was written. *)
Definition emits (m : write_block → outcome write_block) (s : bytes) : Prop :=
  ∀ wb s0, wb_ok wb s0 → ∃ wb', m wb = Ret wb' ∧ wb_ok wb' (s0 ++ s).

Lemma emits_push s : emits (λ wb, wb_push wb s) s.
Proof.
  intros wb s0 Hwb. unfold wb_push, BLOCK_SIZE. case_if.
  - apply push_loop_spec; [by apply next_block_ok|done|lia].
  - apply push_loop_spec; [done|done|lia].
Qed.

Lemma emits_bind m k s t : emits m s → emits k t → emits (λ wb, wb ← m wb; k wb) (s ++ t).
Proof.
  intros Hm Hk wb s0 Hwb. destruct (Hm wb s0 Hwb) as (wb1 & -> & Hwb1).
  destruct (Hk wb1 _ Hwb1) as (wb2 & H2 & Hwb2). exists wb2. split; [done|]. by rewrite (assoc_L (++)).
Qed.

Lemma emits_ret : emits (λ wb, Ret wb) [].
Proof. intros wb s Hwb. exists wb. by rewrite app_nil_r. Qed.

Create HintDb seri discriminated.
#[export] Hint Resolve emits_push emits_bind emits_ret : seri.

(** ** The read block is a byte stream *)

Record rb_ok (rb : read_block) (r : bytes) : Prop := {
  ro_ptr : 0 <= rb_ptr rb;
  ro_content : drop (Z.to_nat (rb_ptr rb)) (rb_buffer rb) = r;
  ro_len : rb_len rb = Z.of_nat (length r);
  ro_bound : rb_ptr rb <= Z.of_nat (length (rb_buffer rb))
}.

Lemma rball_init_ok buffer : rb_ok (rball_init buffer (Z.of_nat (length buffer))) buffer.
Proof. split; simpl; try done; lia. Qed.

Lemma rb_read_ok rb r n :
  rb_ok rb r → 0 <= n <= Z.of_nat (length r) →
  ∃ rb', rb_read rb n = (Some (rb_ptr rb), rb') ∧ rb_ok rb' (drop (Z.to_nat n) r)
    ∧ copy_out (rb_buffer rb') (rb_ptr rb) n = Some (take (Z.to_nat n) r).
Proof.
  intros [Hp Hr Hl Hb] Hn. unfold rb_read. rewrite (proj2 (Z.ltb_ge _ _)) by lia.
  pose proof (f_equal length Hr) as Hlen. rewrite length_drop in Hlen.
  eexists. split; [done|]. split.
  - split; simpl; [lia| |rewrite length_drop; lia|lia].
    rewrite <- Hr, drop_drop. f_equal. lia.
  - simpl. rewrite copy_out_spec by lia. by rewrite Hr.
Qed.

Lemma read_bytes_app rb s r :
  rb_ok rb (s ++ r) → ∃ rb', read_bytes rb (Z.of_nat (length s)) = Ret (s, rb') ∧ rb_ok rb' r.
Proof.
  intros Hrb. destruct (rb_read_ok rb (s ++ r) (Z.of_nat (length s)) Hrb) as (rb' & Hrd & Hok & Hc);
    [rewrite length_app; lia|].
  rewrite Nat2Z.id, take_app_length in Hc. rewrite Nat2Z.id, drop_app_length in Hok.
  exists rb'. split; [|done]. unfold read_bytes. by rewrite Hrd, Hc.
Qed.

Lemma length_le_bytes n x : length (le_bytes n x) = n.
Proof. revert x. induction n as [|n IH]; intros x; simpl; [done|]. by rewrite IH. Qed.

Lemma le_value_bytes n x : le_value (le_bytes n x) = x mod 256 ^ Z.of_nat n.
Proof.
  revert x. induction n as [|n IH]; intros x; simpl; [by rewrite Z.mod_1_r|].
  rewrite IH, Nat2Z.inj_succ, Z.pow_succ_r by lia.
  rewrite Z.rem_mul_r; [lia|lia|]. apply Z.pow_pos_nonneg; lia.
Qed.

(** Reading an unsigned integer of [n] bytes. *)
Lemma read_le rb n x r :
  0 <= x < 256 ^ Z.of_nat n → rb_ok rb (le_bytes n x ++ r) →
  ∃ rb' s, read_bytes rb (Z.of_nat n) = Ret (s, rb') ∧ le_value s = x ∧ rb_ok rb' r.
Proof.
  intros Hx Hrb. destruct (read_bytes_app rb (le_bytes n x) r Hrb) as (rb' & Hr & Hok).
  rewrite length_le_bytes in Hr. eexists rb', _. split; [done|]. split; [|done].
  rewrite le_value_bytes. by apply Z.mod_small.
Qed.

Lemma combine_type t v :
  0 <= t < 8 → 0 <= v < 32 →
  is_byte (COMBINE_TYPE t v) ∧ Z.land (COMBINE_TYPE t v) 7 = t ∧ Z.shiftr (COMBINE_TYPE t v) 3 = v.
Proof.
  intros Ht Hv. unfold COMBINE_TYPE, u8. rewrite Z.shiftl_mul_pow2, lor_add_high by lia.
  rewrite Z.mod_small by lia. change 7 with (2 ^ 3 - 1). rewrite land_ones_mod, Z.shiftr_div_pow2 by lia.
  unfold is_byte. split; [lia|]. split; zify_div.
Qed.

(** Reading a type byte. *)
Lemma read_type rb t v r :
  0 <= t < 8 → 0 <= v < 32 → rb_ok rb (COMBINE_TYPE t v :: r) →
  ∃ rb' s, read_bytes rb 1 = Ret (s, rb') ∧ Z.land (le_value s) 7 = t ∧ Z.shiftr (le_value s) 3 = v ∧ rb_ok rb' r.
Proof.
  intros Ht Hv Hrb. destruct (combine_type t v Ht Hv) as (_ & H1 & H2).
  destruct (read_bytes_app rb [COMBINE_TYPE t v] r Hrb) as (rb' & Hr & Hok).
  eexists rb', _. split; [exact Hr|]. cbn [le_value]. rewrite Z.mul_0_r, Z.add_0_r. auto.
Qed.

(** ** Integers *)

Definition int_cookie (v : Z) : Z :=
  if v =? 0 then TYPE_NUMBER_ZERO
  else if negb (v =? i32 v) then TYPE_NUMBER_QWORD
  else if v <? 0 then TYPE_NUMBER_DWORD
  else if v <? 0x100 then TYPE_NUMBER_BYTE
  else if v <? 0x10000 then TYPE_NUMBER_WORD else TYPE_NUMBER_DWORD.

Definition int_body (v : Z) : bytes :=
  if v =? 0 then []
  else if negb (v =? i32 v) then le_bytes 8 (u64 v)
  else if v <? 0 then le_bytes 4 (u32 v)
  else if v <? 0x100 then le_bytes 1 (u8 v)
  else if v <? 0x10000 then le_bytes 2 (u16 v) else le_bytes 4 (u32 v).

Definition int_bytes (v : Z) : bytes := COMBINE_TYPE TYPE_NUMBER (int_cookie v) :: int_body v.

Lemma wb_integer_emits v : emits (λ wb, wb_integer wb v) (int_bytes v).
Proof.
  unfold wb_integer, int_bytes, int_cookie, int_body.
  repeat case_if; try apply emits_push;
    match goal with |- emits _ (?x :: ?s) => apply (emits_bind _ (λ wb, wb_push wb s) [x]); apply emits_push end.
Qed.

Lemma int_cookie_range v : 0 <= int_cookie v < 32 ∧ int_cookie v ≠ TYPE_NUMBER_REAL.
Proof. unfold int_cookie. repeat case_if; (split; [split; done|done]). Qed.

Lemma i64_u64 v : - 2 ^ 63 <= v < 2 ^ 63 → i64 (u64 v) = v.
Proof. intros. unfold i64, u64. zify_div. Qed.

Lemma get_integer_spec rb v r :
  - 2 ^ 63 <= v < 2 ^ 63 → rb_ok rb (int_body v ++ r) →
  ∃ rb', get_integer rb (int_cookie v) = Ret (v, rb') ∧ rb_ok rb' r.
Proof.
  intros Hv. pose proof (i32_bound v) as Hi. unfold int_cookie, int_body, get_integer.
  case_if; [|case_if; [|case_if; [|case_if; [|case_if]]]]; intros Hrb;
    [exists rb; by subst v|..];
    match type of Hrb with rb_ok _ (le_bytes ?n ?x ++ _) =>
      destruct (read_le rb n x r) as (rb' & s & Hr & Hs & Hok);
        [unfold u64, u32, u16, u8; simpl Z.of_nat; apply Z.mod_pos_bound; lia|done|] end;
    cbn [Z.eqb TYPE_NUMBER_ZERO TYPE_NUMBER_BYTE TYPE_NUMBER_WORD TYPE_NUMBER_DWORD TYPE_NUMBER_QWORD Pos.eqb];
    match type of Hr with read_bytes _ ?k = _ => let k' := eval vm_compute in k in change k with k' in Hr end;
    rewrite Hr; cbn [mbind outcome_bind]; rewrite Hs; exists rb'; (split; [|done]); do 2 f_equal.
  - by apply i64_u64.
  - apply i32_u32. lia.
  - unfold u8. apply Z.mod_small. lia.
  - unfold u16. apply Z.mod_small. lia.
  - apply i32_u32. lia.
Qed.

(** ** Well-formed values *)

Definition is_table (v : value) : bool := match v with VTable _ _ => true | _ => false end.

(** A table is unpacked as a plain table with the same pairs in some order. *)
#[warnings="-register-all"]
Inductive veq : value → value → Prop :=
  | veq_scalar v : is_table v = false → veq v v
  | veq_table m t t' u :
      t' ≡ₚ t → Forall2 (λ p q, veq p.1 q.1 ∧ veq p.2 q.2) t' u → veq (VTable m t) (VTable false u).

Fixpoint keys_distinct (t : list (value * value)) : Prop :=
  match t with
  | [] => True
  | p :: t => Forall (λ q, same_key p.1 q.1 = false) t ∧ keys_distinct t
  end.

Section roundtrip.

Context (rawlen : list (value * value) → Z).
Context (float_to_integer : Z → option Z).

(** What [lua_rawlen] is documented to return: a border. *)
Context (Hborder : ∀ t, rawlen t = 0 ∨ rawget t (VInt (rawlen t)) ≠ VNil).

(** Keys a table can have: not nil, not NaN, no float with an integer value. *)
Definition key_ok (k : value) : Prop :=
  match k with
  | VNil => False
  | VReal bits => is_nan bits = false ∧ float_to_integer bits = None
  | _ => True
  end.

(** Values that can be sent when [d] levels of nesting are left: numbers in
    their width, strings and arrays shorter than 2 GB, tables as Lua has them. *)
Fixpoint sendable (d : nat) (v : value) : Prop :=
  match d with
  | O => False
  | S d =>
      match v with
      | VNil | VBool _ => True
      | VInt x => - 2 ^ 63 <= x < 2 ^ 63
      | VReal x | VPtr x => 0 <= x < 2 ^ 64
      | VString s => Z.of_nat (length s) < 2 ^ 31
      | VTable m t =>
          0 <= rawlen t < 2 ^ 31 ∧ keys_distinct t
          ∧ Forall (λ p, key_ok p.1 ∧ p.2 ≠ VNil ∧ sendable d p.1 ∧ sendable d p.2) t
      | VOther => False
      end
  end.

(** [reads s v]: the stream [s] is read as [v], whatever follows it. *)
Definition reads (s : bytes) (v : value) : Prop :=
  s ≠ [] ∧ ∀ rb r f, rb_ok rb (s ++ r) → (3 * length (s ++ r) + 1 <= f)%nat →
    ∃ rb', unpack_one float_to_integer f rb = Ret (v, rb') ∧ rb_ok rb' r.

(** *** Scalars *)

Lemma reads_scalar t c body v :
  0 <= t < 8 → t ≠ TYPE_TABLE → 0 <= c < 32 →
  (∀ rb r, rb_ok rb (body ++ r) → ∃ rb', push_scalar rb t c = Ret (v, rb') ∧ rb_ok rb' r) →
  reads (COMBINE_TYPE t c :: body) v.
Proof.
  intros Ht Hne Hc Hbody. split; [done|]. intros rb r f Hrb Hf. cbn [app] in *.
  destruct f as [|[|f]]; [simpl in Hf; lia..|].
  destruct (read_type rb t c (body ++ r) Ht Hc Hrb) as (rb1 & s & Hr & E1 & E2 & Hrb1).
  cbn [unpack_one]. rewrite Hr. cbn [mbind outcome_bind]. rewrite E1, E2. cbn [push_value].
  rewrite (proj2 (Z.eqb_neq _ _)) by done. by apply Hbody.
Qed.

Lemma nil_spec : reads [TYPE_NIL] VNil.
Proof. apply (reads_scalar TYPE_NIL 0 []); [done..|]. intros rb r Hrb. by exists rb. Qed.

Lemma boolean_spec (b : bool) : reads [COMBINE_TYPE TYPE_BOOLEAN (if b then 1 else 0)] (VBool b).
Proof.
  apply (reads_scalar _ _ []); [done|done|by destruct b|]. intros rb r Hrb. exists rb. by destruct b.
Qed.

Lemma integer_spec x : - 2 ^ 63 <= x < 2 ^ 63 → reads (int_bytes x) (VInt x).
Proof.
  intros Hx. destruct (int_cookie_range x) as [Hc Hne]. apply reads_scalar; [done..|].
  intros rb r Hrb. unfold push_scalar. change (TYPE_NUMBER =? TYPE_NIL) with false.
  change (TYPE_NUMBER =? TYPE_BOOLEAN) with false. change (TYPE_NUMBER =? TYPE_NUMBER) with true. cbv iota.
  rewrite (proj2 (Z.eqb_neq _ _)) by done.
  destruct (get_integer_spec rb x r Hx Hrb) as (rb' & -> & Hok). by exists rb'.
Qed.

Lemma real_spec x : 0 <= x < 2 ^ 64 → reads (COMBINE_TYPE TYPE_NUMBER TYPE_NUMBER_REAL :: le_bytes 8 x) (VReal x).
Proof.
  intros Hx. apply reads_scalar; [done..|]. intros rb r Hrb.
  destruct (read_le rb 8 x r) as (rb' & s & Hr & Hs & Hok); [done..|]. exists rb'. split; [|done].
  unfold push_scalar, get_real. change (Z.of_nat 8) with 8 in Hr. simpl. rewrite Hr. cbn. by rewrite Hs.
Qed.

Lemma pointer_spec x : 0 <= x < 2 ^ 64 → reads (TYPE_USERDATA :: le_bytes 8 x) (VPtr x).
Proof.
  intros Hx. apply (reads_scalar TYPE_USERDATA 0); [done..|]. intros rb r Hrb.
  destruct (read_le rb 8 x r) as (rb' & s & Hr & Hs & Hok); [done..|]. exists rb'. split; [|done].
  unfold push_scalar, get_pointer. change (Z.of_nat 8) with 8 in Hr. simpl. rewrite Hr. cbn. by rewrite Hs.
Qed.

Lemma get_buffer_spec rb s r :
  rb_ok rb (s ++ r) → ∃ rb', get_buffer rb (Z.of_nat (length s)) = Ret (VString s, rb') ∧ rb_ok rb' r.
Proof.
  intros Hrb. destruct (read_bytes_app rb s r Hrb) as (rb' & Hr & Hok). exists rb'. split; [|done].
  unfold get_buffer. by rewrite Hr.
Qed.

Lemma string_spec s :
  Z.of_nat (length s) < 2 ^ 31 → ∃ bs, emits (λ wb, wb_string wb s) bs ∧ reads bs (VString s).
Proof.
  intros Hl. unfold wb_string, MAX_COOKIE. rewrite i32_small by lia. case_if; [|case_if].
  - exists (COMBINE_TYPE TYPE_SHORT_STRING (Z.of_nat (length s)) :: s). split.
    + apply (emits_bind _ _ [_]); [apply emits_push|]. case_if; [apply emits_push|].
      destruct s; [apply emits_ret|simpl in *; lia].
    + apply reads_scalar; [done|done|lia|]. intros rb r Hrb. by apply get_buffer_spec.
  - exists (COMBINE_TYPE TYPE_LONG_STRING 2 :: le_bytes 2 (u16 (Z.of_nat (length s))) ++ s). split.
    + apply (emits_bind _ _ (_ :: _)); [|apply emits_push]. apply (emits_bind _ _ [_]); apply emits_push.
    + apply reads_scalar; [done..|]. intros rb r Hrb. rewrite <- (assoc_L (++)) in Hrb.
      destruct (read_le rb 2 (u16 (Z.of_nat (length s))) (s ++ r)) as (rb1 & b & Hr & Hb & Hok);
        [by apply Z.mod_pos_bound|done|].
      change (Z.of_nat 2) with 2 in Hr. unfold push_scalar. simpl. rewrite Hr. cbn [mbind outcome_bind]. rewrite Hb.
      unfold u16. rewrite Z.mod_small by lia. by apply get_buffer_spec.
  - exists (COMBINE_TYPE TYPE_LONG_STRING 4 :: le_bytes 4 (u32 (Z.of_nat (length s))) ++ s). split.
    + apply (emits_bind _ _ (_ :: _)); [|apply emits_push]. apply (emits_bind _ _ [_]); apply emits_push.
    + apply reads_scalar; [done..|]. intros rb r Hrb. rewrite <- (assoc_L (++)) in Hrb.
      destruct (read_le rb 4 (u32 (Z.of_nat (length s))) (s ++ r)) as (rb1 & b & Hr & Hb & Hok);
        [by apply Z.mod_pos_bound|done|].
      change (Z.of_nat 4) with 4 in Hr. unfold push_scalar. simpl. rewrite Hr. cbn [mbind outcome_bind]. rewrite Hb.
      rewrite i32_u32 by lia. by apply get_buffer_spec.
Qed.

(** *** Keys *)

Definition veq_pair (p q : value * value) : Prop := veq p.1 q.1 ∧ veq p.2 q.2.

Lemma same_key_sym a b : same_key a b = same_key b a.
Proof.
  destruct a, b; simpl; try done; try apply Z.eqb_sym.
  - apply eq_iff_eq_true. rewrite !Bool.eqb_true_iff. done.
  - by apply bool_decide_ext.
Qed.

Lemma keys_distinct_perm t u : t ≡ₚ u → keys_distinct t → keys_distinct u.
Proof.
  induction 1 as [|p t u Htu IH|p q t|t u w Htu IH1 Huw IH2]; simpl; auto.
  - intros [Hp Ht]. split; [by rewrite <- Htu|auto].
  - intros ([Hpq Hp]%Forall_cons & Hq & Ht). rewrite same_key_sym in Hpq. split_and!; auto.
Qed.

(** Unpacked keys differ where the original ones do. *)
Lemma same_key_veq a a' b b' : veq a a' → veq b b' → same_key a b = false → same_key a' b' = false.
Proof. intros [] []; simpl; auto. Qed.

Lemma veq_nil v v' : veq v v' → v' = VNil ↔ v = VNil.
Proof. by intros []. Qed.

Lemma assign_new t k v :
  Forall (λ p, same_key p.1 k = false) t → v ≠ VNil → assign t k v = t ++ [(k, v)].
Proof.
  intros Ht Hv. induction Ht as [|[k' v'] t Hk Ht IH]; simpl in *; [by destruct v|]. by rewrite Hk, IH.
Qed.

Lemma assign_nil t k : Forall (λ p, same_key p.1 k = false) t → assign t k VNil = t.
Proof. induction 1 as [|[k' v'] t Hk Ht IH]; simpl in *; [done|]. by rewrite Hk, IH. Qed.

(** The pairs that the array part of a table writes. *)
Definition entry (k v : value) : list (value * value) := match v with VNil => [] | _ => [(k, v)] end.

Fixpoint array_pairs (t : list (value * value)) (n : nat) (i : Z) : list (value * value) :=
  match n with
  | O => []
  | S n => entry (VInt i) (rawget t (VInt i)) ++ array_pairs t n (i + 1)
  end.

Lemma rawget_None t k : Forall (λ q, same_key q.1 k = false) t → rawget t k = VNil.
Proof. induction 1 as [|[k' v'] t Hk Ht IH]; simpl in *; [done|]. by rewrite Hk. Qed.

Lemma filter_key t x :
  keys_distinct t → Forall (λ p, p.2 ≠ VNil) t →
  List.filter (λ p, same_key p.1 (VInt x)) t = entry (VInt x) (rawget t (VInt x)).
Proof.
  intros Hd Hv. induction Hv as [|[k v] t Hp Hv IH]; [done|]. simpl in *. destruct Hd as [Hk Hd].
  rewrite IH by done. destruct (same_key k (VInt x)) eqn:E; [|done].
  destruct k; try done. simpl in E. bool_prop. subst v0. rewrite rawget_None.
  - by destruct v.
  - eapply Forall_impl; [exact Hk|]. intros q Hq. by rewrite same_key_sym.
Qed.

Lemma filter_split {A} (P Q R : A → bool) l :
  (∀ x, P x = Q x || R x) → (∀ x, Q x && R x = false) →
  List.filter P l ≡ₚ List.filter Q l ++ List.filter R l.
Proof.
  intros HP HQR. induction l as [|x l IH]; simpl; [done|]. specialize (HQR x). rewrite HP.
  destruct (Q x), (R x); simpl in *; try done; rewrite IH; [done|]. by rewrite Permutation_middle.
Qed.

(** The array part and the rest of the pairs make up the table. *)
Lemma array_pairs_perm t n i :
  keys_distinct t → Forall (λ p, p.2 ≠ VNil) t →
  array_pairs t n i ≡ₚ
    List.filter (λ p, match p.1 with VInt x => (i <=? x) && (x <? i + Z.of_nat n) | _ => false end) t.
Proof.
  intros Hd Hv. revert i. induction n as [|n IH]; intros i; cbn [array_pairs].
  - assert (∀ l : list (value * value), List.filter (λ p, match p.1 with VInt x => (i <=? x) && (x <? i + Z.of_nat 0) | _ => false end) l = []) as ->; [|done].
    intros l. induction l as [|[k v] l IHl]; simpl; [done|]. rewrite IHl. destruct k; try done.
    destruct ((i <=? v0) && (v0 <? i + Z.of_nat 0)) eqn:E; [|done]. bool_prop. lia.
  - rewrite IH, <- filter_key by done. symmetry. apply filter_split; intros [k v]; destruct k; try done; cbn [fst same_key].
    + apply eq_iff_eq_true. rewrite orb_true_iff, !andb_true_iff, !Z.leb_le, !Z.ltb_lt, Z.eqb_eq. lia.
    + apply not_true_is_false. rewrite !andb_true_iff, Z.leb_le, Z.ltb_lt, Z.eqb_eq. lia.
Qed.

Lemma table_split t :
  keys_distinct t → Forall (λ p, p.2 ≠ VNil) t → 0 <= rawlen t →
  array_pairs t (Z.to_nat (rawlen t)) 1 ++ List.filter (λ p, negb (in_array (rawlen t) p.1)) t ≡ₚ t.
Proof.
  intros Hd Hv Hn. rewrite array_pairs_perm by done.
  transitivity (List.filter (λ _ : value * value, true) t);
    [|clear; induction t as [|p t IH]; simpl; [done|by rewrite IH]].
  symmetry. apply filter_split; intros [k v]; unfold in_array; simpl; destruct k; try done.
  - apply eq_iff_eq_true. rewrite orb_true_iff, negb_true_iff, andb_false_iff, andb_true_iff, Z.leb_le, Z.ltb_lt, Z.ltb_ge, Z.leb_gt. lia.
  - apply not_true_is_false. rewrite !andb_true_iff, negb_true_iff, andb_false_iff, Z.leb_le, Z.ltb_lt, Z.ltb_ge, Z.leb_gt. lia.
Qed.

Lemma wb_table_hash_filter pack wb t n :
  wb_table_hash pack wb t n = metapairs_loop pack wb (List.filter (λ p, negb (in_array n p.1)) t).
Proof.
  revert wb. induction t as [|[k v] t IH]; intros wb; simpl; [done|]. destruct (in_array n k); simpl; [done|].
  destruct (pack wb k) as [wb1| | |]; simpl; try done. destruct (pack wb1 v); simpl; done.
Qed.

(** *** Tables *)

(** [packs pack v]: [pack] writes [v] so that it is read back. *)
Definition packs (pack : write_block → value → outcome write_block) (v : value) : Prop :=
  ∃ bs v', emits (λ wb, pack wb v) bs ∧ reads bs v' ∧ veq v v'.

Lemma veq_keys done acc k k' :
  Forall2 veq_pair done acc → veq k k' → Forall (λ q, same_key k q.1 = false) done →
  Forall (λ q, same_key q.1 k' = false) acc.
Proof.
  intros H2 Hk. induction H2 as [|p q done acc [Hp _] H2 IH]; intros Hd; [done|].
  apply Forall_cons in Hd as [H1 Hd]. constructor; [|by apply IH]. rewrite same_key_sym. by eapply same_key_veq.
Qed.

Lemma keys_distinct_app done p todo :
  keys_distinct (done ++ p :: todo) → Forall (λ q, same_key p.1 q.1 = false) done.
Proof.
  induction done as [|q done IH]; simpl; [done|]. intros [Hq Hd]. constructor; [|by apply IH].
  apply Forall_app in Hq as [_ Hq]. apply Forall_cons in Hq as [Hq _]. by rewrite same_key_sym.
Qed.

Lemma rawset_new acc k k' v :
  key_ok k → veq k k' → v ≠ VNil → Forall (λ q, same_key q.1 k' = false) acc →
  rawset float_to_integer acc k' v = Ret (acc ++ [(k', v)]).
Proof.
  intros Hk Hveq Hv Hacc. rewrite <- assign_new by done. unfold rawset.
  destruct Hveq as [k Hs|]; [|done]. destruct k; try done. simpl in Hk. destruct Hk as [-> ->]. done.
Qed.

Lemma pairs_spec pack todo :
  Forall (λ p, key_ok p.1 ∧ p.2 ≠ VNil ∧ packs pack p.1 ∧ packs pack p.2) todo →
  ∃ bs u, emits (λ wb, metapairs_loop pack wb todo) bs ∧ Forall2 veq_pair todo u ∧
    ∀ rb r f done acc, Forall2 veq_pair done acc → keys_distinct (done ++ todo) →
      rb_ok rb (bs ++ r) → (3 * length (bs ++ r) + 2 <= f)%nat →
      ∃ rb', unpack_pairs float_to_integer f rb acc = Ret (acc ++ u, rb') ∧ rb_ok rb' r.
Proof.
  induction 1 as [|[k v] todo (Hk & Hv & (kb & k' & Hke & [Hkn Hkr] & Hkv) & (vb & v' & Hve & [Hvn Hvr] & Hvv)) _ IH].
  - exists [TYPE_NIL], []. split_and!; [apply emits_push|done|]. intros rb r f done acc _ _ Hrb Hf.
    destruct f as [|f]; [lia|]. destruct nil_spec as [_ Hnil]. destruct (Hnil rb r f Hrb) as (rb' & Hu & Hrb'); [lia|].
    exists rb'. split; [|done]. cbn [unpack_pairs]. rewrite Hu. simpl. by rewrite app_nil_r.
  - destruct IH as (bs & u & He & H2 & Hr). exists (kb ++ vb ++ bs), ((k', v') :: u). cbn [fst snd] in *.
    split; [|split; [by constructor|]].
    { cbn [metapairs_loop]. apply emits_bind; [done|]. by apply emits_bind. }
    intros rb r f done acc Hda Hd Hrb Hf. rewrite <- !(assoc_L (++)) in Hrb, Hf.
    assert (1 <= length kb ∧ 1 <= length vb)%nat as [Hkl Hvl] by (destruct kb, vb; simpl; (done || lia)).
    rewrite !length_app in Hf. destruct f as [|f]; [lia|]. cbn [unpack_pairs].
    destruct (Hkr rb (vb ++ bs ++ r) f Hrb) as (rb1 & -> & Hrb1); [rewrite !length_app; lia|]. cbn [mbind outcome_bind].
    destruct (Hvr rb1 (bs ++ r) f Hrb1) as (rb2 & Hu2 & Hrb2); [rewrite !length_app; lia|].
    assert (Hnew : Forall (λ q, same_key q.1 k' = false) acc).
    { eapply veq_keys; [done|done|]. apply (keys_distinct_app done (k, v) todo Hd). }
    assert (Hset : rawset float_to_integer acc k' v' = Ret (acc ++ [(k', v')])).
    { eapply rawset_new; eauto. by rewrite veq_nil. }
    destruct (Hr rb2 r f (done ++ [(k, v)]) (acc ++ [(k', v')])) as (rb3 & Hu3 & Hrb3); auto.
    { apply Forall2_app; [done|]. by repeat constructor. }
    { by rewrite <- (assoc_L (++)). }
    { rewrite length_app. lia. }
    exists rb3. split; [|done]. rewrite <- (assoc_L (++)) in Hu3.
    assert (k' ≠ VNil) by (rewrite veq_nil by done; by destruct k).
    destruct k'; try done; rewrite Hu2; cbn [mbind outcome_bind]; rewrite Hset; done.
Qed.

Lemma array_spec pack t n : ∀ i,
  (∀ j, i <= j < i + Z.of_nat n → packs pack (rawget t (VInt j))) →
  ∃ bs u, emits (λ wb, array_loop pack t wb n i) bs ∧ Forall2 veq_pair (array_pairs t n i) u ∧
    ∀ rb r f acc, (∀ j, i <= j → Forall (λ q, same_key q.1 (VInt j) = false) acc) →
      rb_ok rb (bs ++ r) → (3 * length (bs ++ r) + 2 <= f)%nat →
      ∃ rb', unpack_array float_to_integer f rb acc i (i + Z.of_nat n - 1) = Ret (acc ++ u, rb') ∧ rb_ok rb' r.
Proof.
  induction n as [|n IH]; intros i Hp; cbn [array_pairs].
  - exists [], []. split_and!; [apply emits_ret|done|]. intros rb r f acc _ Hrb Hf. destruct f as [|f]; [lia|].
    cbn [unpack_array]. rewrite (proj2 (Z.leb_gt _ _)) by lia. exists rb. by rewrite app_nil_r.
  - destruct (Hp i) as (vb & v' & Hve & [Hvn Hvr] & Hvv); [lia|].
    destruct (IH (i + 1)) as (bs & u & He & H2 & Hr); [intros j Hj; apply Hp; lia|].
    exists (vb ++ bs), (entry (VInt i) v' ++ u). split; [by apply emits_bind|]. split.
    { apply Forall2_app; [|done]. pose proof (veq_nil _ _ Hvv) as Hn.
      destruct (decide (rawget t (VInt i) = VNil)) as [E|E].
      - rewrite E, (proj2 Hn E). constructor.
      - assert (v' ≠ VNil) by tauto. unfold entry. destruct (rawget t (VInt i)), v'; try done;
          repeat constructor; done. }
    intros rb r f acc Hacc Hrb Hf. rewrite <- !(assoc_L (++)) in Hrb, Hf.
    assert (1 <= length vb)%nat by (destruct vb; simpl; (done || lia)).
    rewrite !length_app in Hf. destruct f as [|f]; [lia|]. cbn [unpack_array].
    rewrite (proj2 (Z.leb_le _ _)) by lia.
    destruct (Hvr rb (bs ++ r) f Hrb) as (rb1 & -> & Hrb1); [rewrite !length_app; lia|]. cbn [mbind outcome_bind].
    assert (assign acc (VInt i) v' = acc ++ entry (VInt i) v') as ->.
    { destruct (decide (v' = VNil)) as [->|Hne]; [by rewrite assign_nil, app_nil_r by (apply Hacc; lia)|].
      rewrite assign_new by (done || apply Hacc; lia). by destruct v'. }
    destruct (Hr rb1 r f (acc ++ entry (VInt i) v')) as (rb2 & Hu & Hrb2); auto.
    { intros j Hj. apply Forall_app. split; [apply Hacc; lia|]. unfold entry.
      destruct v'; repeat constructor; simpl; lia. }
    { rewrite length_app. lia. }
    exists rb2. split; [|done]. rewrite (assoc_L (++)), <- Hu. f_equal. lia.
Qed.

Definition table_header (n : Z) : bytes :=
  if MAX_COOKIE - 1 <=? n then COMBINE_TYPE TYPE_TABLE (MAX_COOKIE - 1) :: int_bytes n
  else [COMBINE_TYPE TYPE_TABLE n].

(** The type byte of a table and the size of its array part. *)
Lemma table_header_spec rb n r :
  0 <= n < 2 ^ 31 → rb_ok rb (table_header n ++ r) →
  ∃ rb1 s rb2, read_bytes rb 1 = Ret (s, rb1) ∧ Z.land (le_value s) 7 = TYPE_TABLE
    ∧ get_array_size rb1 (Z.shiftr (le_value s) 3) = Ret (n, rb2) ∧ rb_ok rb2 r.
Proof.
  intros Hn. unfold table_header, MAX_COOKIE. case_if; intros Hrb; cbn [app] in Hrb;
    (eapply read_type in Hrb as (rb1 & s & Hr & E1 & E2 & Hrb1); [|done|lia]);
    exists rb1, s; unfold get_array_size; rewrite E2.
  - unfold int_bytes in Hrb1. cbn [app] in Hrb1. destruct (int_cookie_range n) as [Hc Hne].
    eapply read_type in Hrb1 as (rb2 & s2 & Hr2 & F1 & F2 & Hrb2); [|done|done].
    destruct (get_integer_spec rb2 n r) as (rb3 & Hg & Hrb3); [lia|done|].
    exists rb3. split_and!; auto. cbn [Z.eqb MAX_COOKIE Z.sub Z.pos_sub Z.add Z.opp Pos.eqb Pos.pred_double Z.succ_double].
    change (32 - 1 =? 32 - 1) with true. cbv iota. rewrite Hr2. cbn [mbind outcome_bind]. rewrite F1, F2.
    rewrite (proj2 (Z.eqb_neq (int_cookie n) _)) by done. cbn [negb Z.eqb TYPE_NUMBER Pos.eqb orb].
    rewrite Hg. cbn [mbind outcome_bind]. by rewrite i32_small by lia.
  - exists rb1. split_and!; auto. by rewrite (proj2 (Z.eqb_neq _ _)) by (unfold MAX_COOKIE; lia).
Qed.

Lemma reads_table n abs au pbs pu :
  0 <= n < 2 ^ 31 →
  (∀ rb r f, rb_ok rb (abs ++ r) → (3 * length (abs ++ r) + 2 <= f)%nat →
     ∃ rb', unpack_array float_to_integer f rb [] 1 n = Ret (au, rb') ∧ rb_ok rb' r) →
  (∀ rb r f, rb_ok rb (pbs ++ r) → (3 * length (pbs ++ r) + 2 <= f)%nat →
     ∃ rb', unpack_pairs float_to_integer f rb au = Ret (au ++ pu, rb') ∧ rb_ok rb' r) →
  reads (table_header n ++ abs ++ pbs) (VTable false (au ++ pu)).
Proof.
  intros Hn Ha Hp. split.
  { intros [E _]%app_nil. unfold table_header in E. revert E. by case_if. }
  intros rb r f Hrb Hf. rewrite <- !(assoc_L (++)) in Hrb, Hf.
  assert (1 <= length (table_header n))%nat by (unfold table_header; case_if; simpl; lia).
  rewrite !length_app in Hf. destruct f as [|[|f]]; [lia..|]. cbn [unpack_one].
  destruct (table_header_spec rb n (abs ++ pbs ++ r) Hn Hrb) as (rb1 & s & rb2 & -> & E & Hg & Hrb2).
  cbn [mbind outcome_bind]. rewrite E. cbn [push_value]. change (TYPE_TABLE =? TYPE_TABLE) with true. cbv iota.
  rewrite Hg. cbn [mbind outcome_bind].
  destruct (Ha rb2 (pbs ++ r) f Hrb2) as (rb3 & -> & Hrb3); [rewrite !length_app; lia|]. cbn [mbind outcome_bind].
  destruct (Hp rb3 r f Hrb3) as (rb4 & -> & Hrb4); [rewrite !length_app; lia|]. cbn [mbind outcome_bind].
  by exists rb4.
Qed.

Lemma wb_table_array_header n :
  emits (λ wb, if MAX_COOKIE - 1 <=? n then
           wb ← wb_push wb [COMBINE_TYPE TYPE_TABLE (MAX_COOKIE - 1)]; wb_integer wb n
         else wb_push wb [COMBINE_TYPE TYPE_TABLE n]) (table_header n).
Proof.
  unfold table_header. case_if; [|apply emits_push].
  apply (emits_bind _ _ [_]); [apply emits_push|apply wb_integer_emits].
Qed.

Lemma rawget_elem t k : rawget t k ≠ VNil → ∃ p, p ∈ t ∧ p.2 = rawget t k.
Proof.
  induction t as [|[k' v'] t IH]; simpl; [done|]. case_if; [intros _; exists (k', v'); set_solver|].
  intros Hne. destruct (IH Hne) as (p & ? & ?). exists p. set_solver.
Qed.

Lemma array_elem_packs pack t k :
  packs pack VNil → Forall (λ p, key_ok p.1 ∧ p.2 ≠ VNil ∧ packs pack p.1 ∧ packs pack p.2) t →
  packs pack (rawget t k).
Proof.
  intros Hnil Ht. destruct (decide (rawget t k = VNil)) as [->|Hne]; [done|].
  destruct (rawget_elem t k Hne) as (p & Hp & <-). eapply Forall_forall in Ht; [|exact Hp]. by destruct Ht as (_ & _ & _ & ?).
Qed.

Lemma table_spec pack m t :
  keys_distinct t → 0 <= rawlen t < 2 ^ 31 → (t ≠ [] → packs pack VNil) →
  Forall (λ p, key_ok p.1 ∧ p.2 ≠ VNil ∧ packs pack p.1 ∧ packs pack p.2) t →
  ∃ bs v', emits (λ wb, wb_table rawlen pack wb m t) bs ∧ reads bs v' ∧ veq (VTable m t) v'.
Proof using Hborder.
  intros Hd Hn Hnil Ht. assert (Hv : Forall (λ p : value * value, p.2 ≠ VNil) t).
  { eapply Forall_impl; [exact Ht|]. by intros p (_ & ? & _). }
  destruct m; unfold wb_table.
  - destruct (pairs_spec pack t Ht) as (bs & u & He & H2 & Hr).
    exists (table_header 0 ++ [] ++ bs), (VTable false ([] ++ u)). split_and!.
    + apply (emits_bind _ _ [_]); [apply emits_push|done].
    + apply reads_table; [lia| |].
      * intros rb r f Hrb Hf. destruct f; [lia|]. by exists rb.
      * intros rb r f Hrb Hf. by apply (Hr rb r f [] []).
    + by eapply veq_table.
  - set (rest := List.filter (λ p, negb (in_array (rawlen t) p.1)) t).
    pose proof (table_split t Hd Hv ltac:(lia)) as Hperm. fold rest in Hperm.
    destruct (array_spec pack t (Z.to_nat (rawlen t)) 1) as (abs & au & Hae & Ha2 & Har).
    { intros j Hj. apply array_elem_packs; auto. destruct (Hborder t); [lia|].
      apply Hnil. by intros ->. }
    destruct (pairs_spec pack rest) as (pbs & pu & Hpe & Hp2 & Hpr).
    { apply Forall_forall. intros p [Hp _]%list_elem_of_In%List.filter_In. apply list_elem_of_In in Hp.
      by eapply Forall_forall in Ht. }
    exists (table_header (rawlen t) ++ abs ++ pbs), (VTable false (au ++ pu)). split_and!.
    + intros wb s0 Hwb. unfold wb_table_array.
      destruct (wb_table_array_header (rawlen t) wb s0 Hwb) as (wb1 & H1 & Hwb1). rewrite H1. cbn [mbind outcome_bind].
      destruct (Hae wb1 _ Hwb1) as (wb2 & -> & Hwb2). cbn [mbind outcome_bind].
      rewrite wb_table_hash_filter. fold rest. destruct (Hpe wb2 _ Hwb2) as (wb3 & -> & Hwb3).
      exists wb3. split; [done|]. by rewrite !(assoc_L (++)).
    + apply reads_table; [done| |].
      * intros rb r f Hrb Hf. destruct (Har rb r f [] ltac:(done) Hrb Hf) as (rb' & Hu & Hrb').
        exists rb'. split; [|done]. by replace (1 + Z.of_nat (Z.to_nat (rawlen t)) - 1) with (rawlen t) in Hu by lia.
      * intros rb r f Hrb Hf. eapply Hpr; eauto. by eapply keys_distinct_perm.
    + eapply veq_table; [exact Hperm|]. by apply Forall2_app.
Qed.

(** Every sendable value is written so that it is read back. *)
Lemma pack_one_spec fuel : ∀ depth d v,
  sendable d v → depth + Z.of_nat d = MAX_DEPTH + 1 → (d <= fuel)%nat →
  packs (pack_one rawlen fuel depth) v.
Proof using Hborder.
  induction fuel as [|fuel IH]; intros depth d v Hv Hd Hf; (destruct d as [|d]; [done|]); [lia|].
  unfold packs. cbn [pack_one]. unfold MAX_DEPTH in *. rewrite (proj2 (Z.ltb_ge _ _)) by lia.
  destruct v as [|b|x|x|x|s|m t|]; cbn [sendable] in Hv.
  - exists [TYPE_NIL], VNil. split_and!; [apply emits_push|apply nil_spec|by constructor].
  - eexists _, (VBool b). split_and!; [apply emits_push|apply boolean_spec|by constructor].
  - exists (int_bytes x), (VInt x). split_and!; [apply wb_integer_emits|by apply integer_spec|by constructor].
  - eexists (_ :: _), (VReal x). split_and!; [|by apply real_spec|by constructor].
    apply (emits_bind _ _ [_]); apply emits_push.
  - eexists (_ :: _), (VPtr x). split_and!; [|by apply pointer_spec|by constructor].
    apply (emits_bind _ _ [_]); apply emits_push.
  - destruct (string_spec s Hv) as (bs & He & Hr). exists bs, (VString s). by split_and!; [| |constructor].
  - destruct Hv as (Hn & Hkd & Ht). apply table_spec; auto.
    + intros Hne. destruct d as [|d]; [destruct t as [|p t]; [done|]; by apply Forall_cons in Ht as [(_ & _ & ? & _) _]|].
      apply (IH (depth + 1) (S d)); [done|lia|lia].
    + eapply Forall_impl; [exact Ht|]. intros p (Hk & Hpv & H1 & H2).
      split_and!; auto; apply (IH (depth + 1) d); auto; lia.
  - done.
Qed.

(** *** Messages *)

Lemma unpack_all_step fuel rb r :
  rb_ok rb r → r ≠ [] →
  unpack_all float_to_integer (S fuel) rb =
    ('(v, rb) ← unpack_one float_to_integer (4 * length r + 1) rb;
     vs ← unpack_all float_to_integer fuel rb; Ret (v :: vs)).
Proof.
  intros Hrb Hne. assert (1 <= length r)%nat by (destruct r; [done|simpl; lia]).
  destruct (rb_read_ok rb r 1 Hrb) as (rb1 & Hrd & Hrb1 & Hc); [lia|].
  rewrite Nat.add_1_r. cbn [unpack_all unpack_one]. unfold read_bytes. rewrite Hrd, Hc. cbn [lift mbind outcome_bind].
  assert (unpack_fuel rb1 = 4 * length r)%nat as ->; [|done].
  unfold unpack_fuel. rewrite (ro_len _ _ Hrb1), length_drop. lia.
Qed.

Lemma unpack_all_spec bss : ∀ vs fuel rb,
  Forall2 reads bss vs → rb_ok rb (concat bss) → (length (concat bss) < fuel)%nat →
  unpack_all float_to_integer fuel rb = Ret vs.
Proof.
  induction bss as [|bs bss IH]; intros vs fuel rb H2 Hrb Hf; (destruct fuel as [|fuel]; [lia|]).
  - apply Forall2_nil_inv_l in H2 as ->. cbn [unpack_all]. unfold rb_read.
    rewrite (ro_len _ _ Hrb). done.
  - apply Forall2_cons_inv_l in H2 as (v & vs' & [Hne Hr] & H2 & ->). cbn [concat] in *.
    rewrite length_app in Hf. assert (1 <= length bs)%nat by (destruct bs; [done|simpl; lia]).
    rewrite (unpack_all_step _ _ _ Hrb) by by intros [? _]%app_nil.
    destruct (Hr rb (concat bss) (4 * length (bs ++ concat bss) + 1)%nat Hrb) as (rb1 & -> & Hrb1); [lia|].
    cbn [mbind outcome_bind]. rewrite (IH vs' fuel rb1) by (done || lia). done.
Qed.

Lemma pack_from_spec vs :
  Forall (sendable 33) vs →
  ∃ bss vs', emits (λ wb, pack_from rawlen wb vs) (concat bss) ∧ Forall2 reads bss vs' ∧ Forall2 veq vs vs'.
Proof using Hborder.
  induction 1 as [|v vs Hv Hvs (bss & vs' & He & Hr & Hq)]; [exists [], []; by split_and!; [apply emits_ret|..]|].
  destruct (pack_one_spec pack_fuel 0 33 v Hv) as (bs & v' & Hbe & Hbr & Hbq); [done|unfold pack_fuel, MAX_DEPTH; lia|].
  exists (bs :: bss), (v' :: vs'). split_and!; [by apply emits_bind|by constructor..].
Qed.

End roundtrip.

(** C23. Round trip of messages: whatever values are sent, as long as they can be
    sent (see [sendable]) and the message stays below 2 GB, packing writes a
    buffer that unpacks to the same values, tables being compared as sets of
    pairs, at every level.  [rawlen] is Lua's length of a table, about which only
    the documented border property is used. *)
Theorem seri_roundtrip rawlen float_to_integer vs :
  (∀ t, rawlen t = 0 ∨ rawget t (VInt (rawlen t)) ≠ VNil) →
  Forall (sendable rawlen float_to_integer 33) vs →
  ∃ wb s, pack_from rawlen wb_init vs = Ret wb ∧ wb_ok wb s ∧
    (Z.of_nat (length s) < 2 ^ 31 →
     luaseri_pack rawlen vs = Ret s
     ∧ ∃ vs', luaseri_unpack float_to_integer s = Ret vs' ∧ Forall2 veq vs vs').
Proof.
  intros Hborder Hvs. destruct (pack_from_spec rawlen float_to_integer Hborder vs Hvs) as (bss & vs' & He & Hr & Hq).
  destruct (He wb_init [] wb_init_ok) as (wb & Hp & Hwb). exists wb, (concat bss). split_and!; auto.
  intros Hlt. split; [unfold luaseri_pack; rewrite Hp; by apply seri_spec|].
  exists vs'. split; [|done]. unfold luaseri_unpack. rewrite i32_small by lia. case_if.
  - destruct bss as [|bs bss]; [by apply Forall2_nil_inv_l in Hr as ->|].
    apply Forall2_cons_inv_l in Hr as (v & ? & [Hne _] & _ & _). cbn [concat] in *. rewrite length_app in *.
    destruct bs; cbn [length] in *; [done|lia].
  - eapply unpack_all_spec; [done|apply rball_init_ok|lia].
Qed.

(** [{10, 20, x = {true}}] and [nil], with a length function that counts the
    entries 1, 2, ... of a table. *)
Fixpoint count_from (n : nat) (t : list (value * value)) (i : Z) : Z :=
  match n with
  | O => i - 1
  | S n => match rawget t (VInt i) with VNil => i - 1 | _ => count_from n t (i + 1) end
  end.

Definition count (t : list (value * value)) : Z := count_from (length t) t 1.

Lemma count_border t : count t = 0 ∨ rawget t (VInt (count t)) ≠ VNil.
Proof.
  unfold count. assert (H : ∀ n i, count_from n t i = i - 1 ∨ rawget t (VInt (count_from n t i)) ≠ VNil).
  { induction n as [|n IH]; intros i; simpl; [by left|].
    destruct (decide (rawget t (VInt i) = VNil)) as [->|Hne]; [by left|].
    assert (match rawget t (VInt i) with VNil => i - 1 | _ => count_from n t (i + 1) end = count_from n t (i + 1)) as ->
      by by destruct (rawget t (VInt i)).
    destruct (IH (i + 1)) as [->|]; [|by right]. right. by replace (i + 1 - 1) with i by lia. }
  destruct (H (length t) 1) as [->|]; [by left|by right].
Qed.

Definition example_values : list value :=
  [VTable false [(VInt 1, VInt 10); (VInt 2, VInt 70000); (VString [120], VTable false [(VInt 1, VBool true)])];
   VNil; VString (replicate 200 65)].

Lemma seri_roundtrip_witness :
  ∃ s vs', luaseri_pack count example_values = Ret s
    ∧ luaseri_unpack (λ _, None) s = Ret vs' ∧ Forall2 veq example_values vs'.
Proof.
  destruct (seri_roundtrip count (λ _, None) example_values) as (wb & s & Hp & Hwb & H).
  - exact count_border.
  - change 33%nat with (S (S (S 30))). generalize 30%nat. intros d. unfold example_values.
    repeat apply Forall_cons_2; try apply Forall_nil_2; cbn [sendable].
    all: repeat first [done | split | apply Forall_cons_2 | apply Forall_nil_2].
  - vm_compute in Hp. injection Hp as <-. pose proof (wo_content _ _ Hwb) as Hs. vm_compute in Hs.
    destruct H as (Hpk & vs' & Hu & Hq); [rewrite <- Hs; vm_compute; reflexivity|].
    exists s, vs'. auto.
Defined.

(** ** Arbitrary buffers *)

(** The rest of the stream has at least [k] bytes less than [r]; running out of
    fuel is excluded. *)
Definition advances {A} (m : outcome (A * read_block)) (r : bytes) (k : nat) : Prop :=
  match m with
  | Ret (_, rb) => ∃ r', rb_ok rb r' ∧ (length r' + k <= length r)%nat
  | OutOfFuel => False
  | _ => True
  end.

Lemma read_bytes_advances rb r n : rb_ok rb r → advances (read_bytes rb n) r (Z.to_nat n).
Proof.
  intros Hrb. unfold read_bytes. destruct (decide (n <= Z.of_nat (length r))) as [Hn|Hn].
  - destruct (decide (0 <= n)).
    + destruct (rb_read_ok rb r n Hrb) as (rb' & -> & Hrb' & ->); [lia|]. simpl.
      eexists. split; [exact Hrb'|]. rewrite length_drop. lia.
    + unfold rb_read. rewrite (ro_len _ _ Hrb), (proj2 (Z.ltb_ge _ _)) by done. unfold copy_out.
      rewrite (proj2 (Z.leb_gt 0 n)) by lia. by rewrite andb_false_r.
  - unfold rb_read. by rewrite (ro_len _ _ Hrb), (proj2 (Z.ltb_lt _ _)) by lia.
Qed.

Lemma advances_bind {A B} (m : outcome (A * read_block)) (f : A * read_block → outcome (B * read_block)) r j k :
  advances m r j →
  (∀ a rb r', rb_ok rb r' → (length r' + j <= length r)%nat → advances (f (a, rb)) r' k) →
  advances (m ≫= f) r (j + k).
Proof.
  intros Hm Hf. destruct m as [[a rb]| | |]; simpl in *; try done. destruct Hm as (r' & Hrb & Hl).
  specialize (Hf a rb r' Hrb Hl). destruct (f (a, rb)) as [[b rb2]| | |]; simpl in *; try done.
  destruct Hf as (r2 & ? & ?). exists r2. split; [done|lia].
Qed.

Lemma advances_weaken {A} (m : outcome (A * read_block)) r j k : advances m r j → (k <= j)%nat → advances m r k.
Proof. intros Hm Hk. destruct m as [[a rb]| | |]; simpl in *; try done. destruct Hm as (r' & ? & ?). exists r'. split; [done|lia]. Qed.

Lemma advances_ret {A} (a : A) rb r : rb_ok rb r → advances (Ret (a, rb)) r 0.
Proof. intros Hrb. exists r. split; [done|lia]. Qed.

(** Reads followed by a result. *)
Ltac advance :=
  repeat first
    [ apply advances_ret; assumption
    | done
    | eapply (advances_bind _ _ _ 0 0); [eapply advances_weaken; [apply read_bytes_advances; eassumption|lia]|];
      let H := fresh in intros ? ? ? H ?; cbn beta iota ].

Lemma get_integer_advances rb r cookie : rb_ok rb r → advances (get_integer rb cookie) r 0.
Proof. intros Hrb. unfold get_integer. repeat case_if; advance. Qed.

Lemma get_array_size_advances rb r n : rb_ok rb r → advances (get_array_size rb n) r 0.
Proof.
  intros Hrb. unfold get_array_size. case_if; [|advance]. advance. case_if; [done|].
  eapply (advances_bind _ _ _ 0 0); [by apply get_integer_advances|]. intros. advance.
Qed.

Lemma push_scalar_advances rb r type cookie : rb_ok rb r → advances (push_scalar rb type cookie) r 0.
Proof.
  intros Hrb. unfold push_scalar, get_real, get_pointer, get_buffer. repeat case_if; advance.
  all: eapply (advances_bind _ _ _ 0 0); [|intros; advance].
  all: try (by apply get_integer_advances).
  all: eapply (advances_bind _ _ _ 0 0); [eapply advances_weaken; [by apply read_bytes_advances|lia]|intros; advance].
Qed.

Lemma rawset_fuel float_to_integer t k v : rawset float_to_integer t k v ≠ OutOfFuel.
Proof. unfold rawset. destruct k; try discriminate. by case_if. Qed.

(** The fuel for [n] bytes left: a call that reads a byte passes on at least
    three units for each of the others. *)
Lemma unpack_advances float_to_integer fuel : ∀ rb r, rb_ok rb r →
  (∀ type cookie, (3 * length r + 3 <= fuel)%nat → advances (push_value float_to_integer fuel rb type cookie) r 0)
  ∧ ((3 * length r + 1 <= fuel)%nat → advances (unpack_one float_to_integer fuel rb) r 1)
  ∧ (∀ t i n, (3 * length r + 2 <= fuel)%nat → advances (unpack_array float_to_integer fuel rb t i n) r 0)
  ∧ (∀ t, (3 * length r + 2 <= fuel)%nat → advances (unpack_pairs float_to_integer fuel rb t) r 0).
Proof.
  induction fuel as [|fuel IH]; intros rb r Hrb; [split_and!; intros; lia|]. split_and!.
  - intros type cookie Hf. cbn [push_value]. case_if; [|by apply push_scalar_advances].
    eapply (advances_bind _ _ _ 0 0); [by apply get_array_size_advances|]. intros n rb1 r1 Hrb1 Hl1. cbn beta iota.
    eapply (advances_bind _ _ _ 0 0); [eapply IH; [done|lia]|]. intros t rb2 r2 Hrb2 Hl2. cbn beta iota.
    eapply (advances_bind _ _ _ 0 0); [eapply IH; [done|lia]|]. intros u rb3 r3 Hrb3 Hl3. by apply advances_ret.
  - intros Hf. cbn [unpack_one]. eapply (advances_bind _ _ _ 1 0); [by apply (read_bytes_advances rb r 1)|].
    intros t rb1 r1 Hrb1 Hl1. cbn beta iota. eapply IH; [done|lia].
  - intros t i n Hf. cbn [unpack_array]. case_if; [|by apply advances_ret].
    eapply (advances_weaken _ _ (1 + 0)); [|lia]. eapply advances_bind; [eapply IH; [done|lia]|].
    intros v rb1 r1 Hrb1 Hl1. cbn beta iota. eapply IH; [done|lia].
  - intros t Hf. cbn [unpack_pairs]. eapply (advances_weaken _ _ (1 + 0)); [|lia].
    eapply advances_bind; [eapply IH; [done|lia]|]. intros k rb1 r1 Hrb1 Hl1. cbn beta iota.
    assert (Hnext : advances ('(v, rb) ← unpack_one float_to_integer fuel rb1;
      t ← rawset float_to_integer t k v; unpack_pairs float_to_integer fuel rb t) r1 0).
    { eapply (advances_weaken _ _ (1 + 0)); [|lia]. eapply advances_bind; [eapply IH; [done|lia]|].
      intros v rb2 r2 Hrb2 Hl2. cbn beta iota. destruct (rawset float_to_integer t k v) as [u| | |] eqn:E;
        cbn [mbind outcome_bind]; [eapply IH; [done|lia]|done|done|].
      by apply rawset_fuel in E. }
    destruct k; try exact Hnext. by apply advances_ret.
Qed.

Lemma unpack_all_total float_to_integer fuel : ∀ rb r,
  rb_ok rb r → (length r < fuel)%nat → unpack_all float_to_integer fuel rb ≠ OutOfFuel.
Proof.
  induction fuel as [|fuel IH]; intros rb r Hrb Hf; [lia|]. destruct (decide (r = [])) as [->|Hne].
  { cbn [unpack_all]. unfold rb_read. by rewrite (ro_len _ _ Hrb). }
  rewrite (unpack_all_step _ _ _ _ Hrb Hne).
  destruct (unpack_advances float_to_integer (4 * length r + 1)%nat rb r Hrb) as (_ & Hone & _).
  specialize (Hone ltac:(lia)). destruct (unpack_one _ _ rb) as [[v rb1]| | |]; cbn [mbind outcome_bind advances] in *; try done.
  destruct Hone as (r1 & Hrb1 & Hl). specialize (IH rb1 r1 Hrb1 ltac:(lia)).
  by destruct (unpack_all float_to_integer fuel rb1).
Qed.

(** C24. Unpacking ends on every buffer of less than 2 GB, whatever is in it:
    nested tables, announced array sizes and unfinished lists of pairs all
    consume a byte per step, so the recursion of [unpack_one] and the loops of
    [unpack_table] and [luaseri_unpack] stop. *)
Theorem unpack_terminates float_to_integer buffer :
  Z.of_nat (length buffer) < 2 ^ 31 → luaseri_unpack float_to_integer buffer ≠ OutOfFuel.
Proof.
  intros Hlt. unfold luaseri_unpack. rewrite i32_small by lia. case_if; [done|].
  eapply unpack_all_total; [apply rball_init_ok|lia].
Qed.

Lemma unpack_terminates_witness :
  luaseri_unpack (λ _, None) [COMBINE_TYPE TYPE_TABLE 31; 34; 255; 255; 255; 127; 0] ≠ OutOfFuel.
Proof. apply unpack_terminates. reflexivity. Defined.


