(* ===== verification/Des.v ===== *)
(** * DES (lualib-src/lua-crypt.c, first part)

    The DES block cipher of the login handshake: tables, initial and final
    permutation, rounds, key schedule, and the two Lua functions that encrypt and
    decrypt a text with ISO 7816-4 padding.  32-bit words are integers; every left
    shift is reduced to 32 bits.  The file shows that decryption undoes
    encryption for every key and text, and where decryption leaves its buffer. *)

From stdpp Require Import prelude list list_numbers.
From S2P Require Import Prelude.

Abbreviation bytes := (list Z) (only parsing).

(** ** Tables *)

Definition SB1 : list Z :=
  [0x01010400; 0x00000000; 0x00010000; 0x01010404; 0x01010004; 0x00010404; 0x00000004; 0x00010000;
   0x00000400; 0x01010400; 0x01010404; 0x00000400; 0x01000404; 0x01010004; 0x01000000; 0x00000004;
   0x00000404; 0x01000400; 0x01000400; 0x00010400; 0x00010400; 0x01010000; 0x01010000; 0x01000404;
   0x00010004; 0x01000004; 0x01000004; 0x00010004; 0x00000000; 0x00000404; 0x00010404; 0x01000000;
   0x00010000; 0x01010404; 0x00000004; 0x01010000; 0x01010400; 0x01000000; 0x01000000; 0x00000400;
   0x01010004; 0x00010000; 0x00010400; 0x01000004; 0x00000400; 0x00000004; 0x01000404; 0x00010404;
   0x01010404; 0x00010004; 0x01010000; 0x01000404; 0x01000004; 0x00000404; 0x00010404; 0x01010400;
   0x00000404; 0x01000400; 0x01000400; 0x00000000; 0x00010004; 0x00010400; 0x00000000; 0x01010004].

Definition SB2 : list Z :=
  [0x80108020; 0x80008000; 0x00008000; 0x00108020; 0x00100000; 0x00000020; 0x80100020; 0x80008020;
   0x80000020; 0x80108020; 0x80108000; 0x80000000; 0x80008000; 0x00100000; 0x00000020; 0x80100020;
   0x00108000; 0x00100020; 0x80008020; 0x00000000; 0x80000000; 0x00008000; 0x00108020; 0x80100000;
   0x00100020; 0x80000020; 0x00000000; 0x00108000; 0x00008020; 0x80108000; 0x80100000; 0x00008020;
   0x00000000; 0x00108020; 0x80100020; 0x00100000; 0x80008020; 0x80100000; 0x80108000; 0x00008000;
   0x80100000; 0x80008000; 0x00000020; 0x80108020; 0x00108020; 0x00000020; 0x00008000; 0x80000000;
   0x00008020; 0x80108000; 0x00100000; 0x80000020; 0x00100020; 0x80008020; 0x80000020; 0x00100020;
   0x00108000; 0x00000000; 0x80008000; 0x00008020; 0x80000000; 0x80100020; 0x80108020; 0x00108000].

Definition SB3 : list Z :=
  [0x00000208; 0x08020200; 0x00000000; 0x08020008; 0x08000200; 0x00000000; 0x00020208; 0x08000200;
   0x00020008; 0x08000008; 0x08000008; 0x00020000; 0x08020208; 0x00020008; 0x08020000; 0x00000208;
   0x08000000; 0x00000008; 0x08020200; 0x00000200; 0x00020200; 0x08020000; 0x08020008; 0x00020208;
   0x08000208; 0x00020200; 0x00020000; 0x08000208; 0x00000008; 0x08020208; 0x00000200; 0x08000000;
   0x08020200; 0x08000000; 0x00020008; 0x00000208; 0x00020000; 0x08020200; 0x08000200; 0x00000000;
   0x00000200; 0x00020008; 0x08020208; 0x08000200; 0x08000008; 0x00000200; 0x00000000; 0x08020008;
   0x08000208; 0x00020000; 0x08000000; 0x08020208; 0x00000008; 0x00020208; 0x00020200; 0x08000008;
   0x08020000; 0x08000208; 0x00000208; 0x08020000; 0x00020208; 0x00000008; 0x08020008; 0x00020200].

Definition SB4 : list Z :=
  [0x00802001; 0x00002081; 0x00002081; 0x00000080; 0x00802080; 0x00800081; 0x00800001; 0x00002001;
   0x00000000; 0x00802000; 0x00802000; 0x00802081; 0x00000081; 0x00000000; 0x00800080; 0x00800001;
   0x00000001; 0x00002000; 0x00800000; 0x00802001; 0x00000080; 0x00800000; 0x00002001; 0x00002080;
   0x00800081; 0x00000001; 0x00002080; 0x00800080; 0x00002000; 0x00802080; 0x00802081; 0x00000081;
   0x00800080; 0x00800001; 0x00802000; 0x00802081; 0x00000081; 0x00000000; 0x00000000; 0x00802000;
   0x00002080; 0x00800080; 0x00800081; 0x00000001; 0x00802001; 0x00002081; 0x00002081; 0x00000080;
   0x00802081; 0x00000081; 0x00000001; 0x00002000; 0x00800001; 0x00002001; 0x00802080; 0x00800081;
   0x00002001; 0x00002080; 0x00800000; 0x00802001; 0x00000080; 0x00800000; 0x00002000; 0x00802080].

Definition SB5 : list Z :=
  [0x00000100; 0x02080100; 0x02080000; 0x42000100; 0x00080000; 0x00000100; 0x40000000; 0x02080000;
   0x40080100; 0x00080000; 0x02000100; 0x40080100; 0x42000100; 0x42080000; 0x00080100; 0x40000000;
   0x02000000; 0x40080000; 0x40080000; 0x00000000; 0x40000100; 0x42080100; 0x42080100; 0x02000100;
   0x42080000; 0x40000100; 0x00000000; 0x42000000; 0x02080100; 0x02000000; 0x42000000; 0x00080100;
   0x00080000; 0x42000100; 0x00000100; 0x02000000; 0x40000000; 0x02080000; 0x42000100; 0x40080100;
   0x02000100; 0x40000000; 0x42080000; 0x02080100; 0x40080100; 0x00000100; 0x02000000; 0x42080000;
   0x42080100; 0x00080100; 0x42000000; 0x42080100; 0x02080000; 0x00000000; 0x40080000; 0x42000000;
   0x00080100; 0x02000100; 0x40000100; 0x00080000; 0x00000000; 0x40080000; 0x02080100; 0x40000100].

Definition SB6 : list Z :=
  [0x20000010; 0x20400000; 0x00004000; 0x20404010; 0x20400000; 0x00000010; 0x20404010; 0x00400000;
   0x20004000; 0x00404010; 0x00400000; 0x20000010; 0x00400010; 0x20004000; 0x20000000; 0x00004010;
   0x00000000; 0x00400010; 0x20004010; 0x00004000; 0x00404000; 0x20004010; 0x00000010; 0x20400010;
   0x20400010; 0x00000000; 0x00404010; 0x20404000; 0x00004010; 0x00404000; 0x20404000; 0x20000000;
   0x20004000; 0x00000010; 0x20400010; 0x00404000; 0x20404010; 0x00400000; 0x00004010; 0x20000010;
   0x00400000; 0x20004000; 0x20000000; 0x00004010; 0x20000010; 0x20404010; 0x00404000; 0x20400000;
   0x00404010; 0x20404000; 0x00000000; 0x20400010; 0x00000010; 0x00004000; 0x20400000; 0x00404010;
   0x00004000; 0x00400010; 0x20004010; 0x00000000; 0x20404000; 0x20000000; 0x00400010; 0x20004010].

Definition SB7 : list Z :=
  [0x00200000; 0x04200002; 0x04000802; 0x00000000; 0x00000800; 0x04000802; 0x00200802; 0x04200800;
   0x04200802; 0x00200000; 0x00000000; 0x04000002; 0x00000002; 0x04000000; 0x04200002; 0x00000802;
   0x04000800; 0x00200802; 0x00200002; 0x04000800; 0x04000002; 0x04200000; 0x04200800; 0x00200002;
   0x04200000; 0x00000800; 0x00000802; 0x04200802; 0x00200800; 0x00000002; 0x04000000; 0x00200800;
   0x04000000; 0x00200800; 0x00200000; 0x04000802; 0x04000802; 0x04200002; 0x04200002; 0x00000002;
   0x00200002; 0x04000000; 0x04000800; 0x00200000; 0x04200800; 0x00000802; 0x00200802; 0x04200800;
   0x00000802; 0x04000002; 0x04200802; 0x04200000; 0x00200800; 0x00000000; 0x00000002; 0x04200802;
   0x00000000; 0x00200802; 0x04200000; 0x00000800; 0x04000002; 0x04000800; 0x00000800; 0x00200002].

Definition SB8 : list Z :=
  [0x10001040; 0x00001000; 0x00040000; 0x10041040; 0x10000000; 0x10001040; 0x00000040; 0x10000000;
   0x00040040; 0x10040000; 0x10041040; 0x00041000; 0x10041000; 0x00041040; 0x00001000; 0x00000040;
   0x10040000; 0x10000040; 0x10001000; 0x00001040; 0x00041000; 0x00040040; 0x10040040; 0x10041000;
   0x00001040; 0x00000000; 0x00000000; 0x10040040; 0x10000040; 0x10001000; 0x00041040; 0x00040000;
   0x00041040; 0x00040000; 0x10041000; 0x00001000; 0x00000040; 0x10040040; 0x00001000; 0x00041040;
   0x10001000; 0x00000040; 0x10000040; 0x10040000; 0x10040040; 0x10000000; 0x00040000; 0x10001040;
   0x00000000; 0x10041040; 0x00040040; 0x10000040; 0x10040000; 0x10001000; 0x10001040; 0x00000000;
   0x10041040; 0x00041000; 0x00041000; 0x00001040; 0x00001040; 0x00040040; 0x10000000; 0x10041000].

Definition LHs : list Z :=
  [0x00000000; 0x00000001; 0x00000100; 0x00000101; 0x00010000; 0x00010001; 0x00010100; 0x00010101;
   0x01000000; 0x01000001; 0x01000100; 0x01000101; 0x01010000; 0x01010001; 0x01010100; 0x01010101].

Definition RHs : list Z :=
  [0x00000000; 0x01000000; 0x00010000; 0x01010000; 0x00000100; 0x01000100; 0x00010100; 0x01010100;
   0x00000001; 0x01000001; 0x00010001; 0x01010001; 0x00000101; 0x01000101; 0x00010101; 0x01010101].

(** ** Blocks *)

(** [x << n] on a [uint32_t]. *)
Definition shl (x n : Z) : Z := u32 (Z.shiftl x n).

(** [GET_UINT32], [None] when the 4 bytes are not there. *)
Definition GET_UINT32 (b : bytes) (i : Z) : option Z :=
  b0 ← zget b i; b1 ← zget b (i + 1); b2 ← zget b (i + 2); b3 ← zget b (i + 3);
  Some (Z.lor (Z.lor (Z.lor (shl b0 24) (shl b1 16)) (shl b2 8)) b3).

(** [PUT_UINT32]: the bytes stored. *)
Definition PUT_UINT32 (n : Z) : bytes :=
  [u8 (Z.shiftr n 24); u8 (Z.shiftr n 16); u8 (Z.shiftr n 8); u8 n].

(** [T = ((X >> n) ^ Y) & mask; Y ^= T; X ^= (T << n);] *)
Definition delta_swap (n mask : Z) (X Y : Z) : Z * Z :=
  let T := Z.land (Z.lxor (Z.shiftr X n) Y) mask in
  (Z.lxor X (shl T n), Z.lxor Y T).

(** The two rotations by one bit. *)
Definition rotl1 (X : Z) : Z := Z.land (Z.lor (shl X 1) (Z.shiftr X 31)) 0xFFFFFFFF.
Definition rotr1 (X : Z) : Z := Z.land (Z.lor (shl X 31) (Z.shiftr X 1)) 0xFFFFFFFF.

Definition DES_IP (X Y : Z) : Z * Z :=
  let '(X, Y) := delta_swap 4 0x0F0F0F0F X Y in
  let '(X, Y) := delta_swap 16 0x0000FFFF X Y in
  let '(Y, X) := delta_swap 2 0x33333333 Y X in
  let '(Y, X) := delta_swap 8 0x00FF00FF Y X in
  let Y := rotl1 Y in
  let T := Z.land (Z.lxor X Y) 0xAAAAAAAA in
  let Y := Z.lxor Y T in
  let X := Z.lxor X T in
  let X := rotl1 X in
  (X, Y).

Definition DES_FP (X Y : Z) : Z * Z :=
  let X := rotr1 X in
  let T := Z.land (Z.lxor X Y) 0xAAAAAAAA in
  let X := Z.lxor X T in
  let Y := Z.lxor Y T in
  let Y := rotr1 Y in
  let '(Y, X) := delta_swap 8 0x00FF00FF Y X in
  let '(Y, X) := delta_swap 2 0x33333333 Y X in
  let '(X, Y) := delta_swap 16 0x0000FFFF X Y in
  let '(X, Y) := delta_swap 4 0x0F0F0F0F X Y in
  (X, Y).

(** [SB[ x & 0x3F ]]; the tables have 64 entries. *)
Definition sbox (SB : list Z) (x : Z) : Z := nth (Z.to_nat (Z.land x 0x3F)) SB 0.

(** [DES_ROUND (X, Y)] with the two subkeys [*SK++]: the new [Y]. *)
Definition DES_ROUND (k0 k1 X Y : Z) : Z :=
  let T := Z.lxor k0 X in
  let Y := Z.lxor Y (Z.lxor (Z.lxor (Z.lxor (sbox SB8 T) (sbox SB6 (Z.shiftr T 8)))
                                    (sbox SB4 (Z.shiftr T 16))) (sbox SB2 (Z.shiftr T 24))) in
  let T := Z.lxor k1 (Z.lor (shl X 28) (Z.shiftr X 4)) in
  Z.lxor Y (Z.lxor (Z.lxor (Z.lxor (sbox SB7 T) (sbox SB5 (Z.shiftr T 8)))
                           (sbox SB3 (Z.shiftr T 16))) (sbox SB1 (Z.shiftr T 24))).

(** [DES_ROUND( Y, X ); DES_ROUND( X, Y );] for each four subkeys. *)
Fixpoint des_rounds (SK : list Z) (X Y : Z) : Z * Z :=
  match SK with
  | k0 :: k1 :: k2 :: k3 :: SK =>
      let X := DES_ROUND k0 k1 Y X in
      let Y := DES_ROUND k2 k3 X Y in
      des_rounds SK X Y
  | _ => (X, Y)
  end.

Definition des_crypt (SK : list Z) (input : bytes) : option bytes :=
  X ← GET_UINT32 input 0;
  Y ← GET_UINT32 input 4;
  let '(X, Y) := DES_IP X Y in
  let '(X, Y) := des_rounds SK X Y in
  let '(Y, X) := DES_FP Y X in
  Some (PUT_UINT32 Y ++ PUT_UINT32 X).

(** ** Key schedule *)

Definition half (HS : list Z) (x : Z) : Z := nth (Z.to_nat (Z.land x 0xF)) HS 0.

Definition lor_all (l : list Z) : Z := foldr Z.lor 0 l.

(** The two subkeys of a turn of the loop. *)
Definition subkey0 (X Y : Z) : Z := lor_all
  [Z.land (shl X 4) 0x24000000; Z.land (shl X 28) 0x10000000;
   Z.land (shl X 14) 0x08000000; Z.land (shl X 18) 0x02080000;
   Z.land (shl X 6) 0x01000000; Z.land (shl X 9) 0x00200000;
   Z.land (Z.shiftr X 1) 0x00100000; Z.land (shl X 10) 0x00040000;
   Z.land (shl X 2) 0x00020000; Z.land (Z.shiftr X 10) 0x00010000;
   Z.land (Z.shiftr Y 13) 0x00002000; Z.land (Z.shiftr Y 4) 0x00001000;
   Z.land (shl Y 6) 0x00000800; Z.land (Z.shiftr Y 1) 0x00000400;
   Z.land (Z.shiftr Y 14) 0x00000200; Z.land Y 0x00000100;
   Z.land (Z.shiftr Y 5) 0x00000020; Z.land (Z.shiftr Y 10) 0x00000010;
   Z.land (Z.shiftr Y 3) 0x00000008; Z.land (Z.shiftr Y 18) 0x00000004;
   Z.land (Z.shiftr Y 26) 0x00000002; Z.land (Z.shiftr Y 24) 0x00000001].

Definition subkey1 (X Y : Z) : Z := lor_all
  [Z.land (shl X 15) 0x20000000; Z.land (shl X 17) 0x10000000;
   Z.land (shl X 10) 0x08000000; Z.land (shl X 22) 0x04000000;
   Z.land (Z.shiftr X 2) 0x02000000; Z.land (shl X 1) 0x01000000;
   Z.land (shl X 16) 0x00200000; Z.land (shl X 11) 0x00100000;
   Z.land (shl X 3) 0x00080000; Z.land (Z.shiftr X 6) 0x00040000;
   Z.land (shl X 15) 0x00020000; Z.land (Z.shiftr X 4) 0x00010000;
   Z.land (Z.shiftr Y 2) 0x00002000; Z.land (shl Y 8) 0x00001000;
   Z.land (Z.shiftr Y 14) 0x00000808; Z.land (Z.shiftr Y 9) 0x00000400;
   Z.land Y 0x00000200; Z.land (shl Y 7) 0x00000100;
   Z.land (Z.shiftr Y 7) 0x00000020; Z.land (Z.shiftr Y 3) 0x00000011;
   Z.land (shl Y 2) 0x00000004; Z.land (Z.shiftr Y 21) 0x00000002].

(** The 28-bit rotations; [n] is 1 or 2. *)
Definition rot28 (X n : Z) : Z := Z.land (Z.lor (shl X n) (Z.shiftr X (28 - n))) 0x0FFFFFFF.

(** The loop over [i], for [n] values. *)
Fixpoint subkeys (n : nat) (i X Y : Z) : list Z :=
  match n with
  | O => []
  | S n =>
      let s := if (i <? 2) || (i =? 8) || (i =? 15) then 1 else 2 in
      let X := rot28 X s in
      let Y := rot28 Y s in
      subkey0 X Y :: subkey1 X Y :: subkeys n (i + 1) X Y
  end.

Definition des_main_ks (key : bytes) : option (list Z) :=
  X ← GET_UINT32 key 0;
  Y ← GET_UINT32 key 4;
  let '(Y, X) := delta_swap 4 0x0F0F0F0F Y X in
  let T := Z.land (Z.lxor Y X) 0x10101010 in
  let X := Z.lxor X T in
  let Y := Z.lxor Y T in
  let X := lor_all
    [shl (half LHs X) 3; shl (half LHs (Z.shiftr X 8)) 2; shl (half LHs (Z.shiftr X 16)) 1;
     half LHs (Z.shiftr X 24); shl (half LHs (Z.shiftr X 5)) 7; shl (half LHs (Z.shiftr X 13)) 6;
     shl (half LHs (Z.shiftr X 21)) 5; shl (half LHs (Z.shiftr X 29)) 4] in
  let Y := lor_all
    [shl (half RHs (Z.shiftr Y 1)) 3; shl (half RHs (Z.shiftr Y 9)) 2; shl (half RHs (Z.shiftr Y 17)) 1;
     half RHs (Z.shiftr Y 25); shl (half RHs (Z.shiftr Y 4)) 7; shl (half RHs (Z.shiftr Y 12)) 6;
     shl (half RHs (Z.shiftr Y 20)) 5; shl (half RHs (Z.shiftr Y 28)) 4] in
  let X := Z.land X 0x0FFFFFFF in
  let Y := Z.land Y 0x0FFFFFFF in
  Some (subkeys 16 0 X Y).

Definition des_key (key : bytes) : outcome (list Z) :=
  if negb (Z.of_nat (length key) =? 8) then Throw else lift (des_main_ks key).

(** ** Texts *)

(** [for (i=0;i<(int)textsz-7;i+=8) des_crypt(SK, text+i, buffer+i);]: the
    encrypted blocks and the rest of the text. *)
Fixpoint crypt_blocks (fuel : nat) (SK : list Z) (text : bytes) : outcome (bytes * bytes) :=
  match fuel with
  | O => OutOfFuel
  | S fuel =>
      if Z.of_nat (length text) <? 8 then Ret ([], text)
      else
        b ← lift (des_crypt SK text);
        '(bs, rest) ← crypt_blocks fuel SK (drop 8 text);
        Ret (b ++ bs, rest)
  end.

(** The last block: the rest of the text, 0x80 and zeros. *)
Definition des_tail (rest : bytes) : bytes := take 8 (rest ++ [0x80] ++ replicate 8 0).

Definition ldesencode (key text : bytes) : outcome bytes :=
  SK ← des_key key;
  '(bs, rest) ← crypt_blocks (S (length text)) SK text;
  b ← lift (des_crypt SK (des_tail rest));
  Ret (bs ++ b).

(** [SK[i] = ESK[30 - i]; SK[i + 1] = ESK[31 - i];] *)
Fixpoint reverse_keys (ESK : list Z) : list Z :=
  match ESK with
  | k0 :: k1 :: ESK => reverse_keys ESK ++ [k0; k1]
  | _ => []
  end.

(** [for (i=textsz-1;i>=textsz-8;i--)]: [textsz] is a [size_t], so the test
    compares [i] as an unsigned 64-bit number. *)
Fixpoint padding_loop (fuel : nat) (buffer : bytes) (textsz i padding : Z) : outcome Z :=
  match fuel with
  | O => OutOfFuel
  | S fuel =>
      if textsz - 8 <=? u64 i then
        b ← lift (zget buffer i);
        if b =? 0 then padding_loop fuel buffer textsz (i - 1) (padding + 1)
        else if b =? 0x80 then Ret padding else Throw
      else Ret padding
  end.

Definition ldesdecode (key text : bytes) : outcome bytes :=
  ESK ← des_key key;
  let SK := reverse_keys ESK in
  let textsz := Z.of_nat (length text) in
  if c_true (Z.land textsz 7) || (textsz =? 0) then Throw
  else
    '(buffer, _) ← crypt_blocks (S (length text)) SK text;
    padding ← padding_loop 10 buffer textsz (textsz - 1) 1;
    if 8 <? padding then Throw
    else Ret (take (Z.to_nat (textsz - padding)) buffer).

(** ** Words *)

Definition is_word (x : Z) : Prop := 0 <= x < 2 ^ 32.

Lemma word_log2 x : 0 <= x → is_word x ↔ Z.log2 x < 32.
Proof.
  intros Hx. unfold is_word. destruct (decide (x = 0)) as [->|Hne]; [simpl; lia|].
  rewrite <- (Z.log2_lt_pow2 x 32) by lia. lia.
Qed.

Lemma lxor_word a b : is_word a → is_word b → is_word (Z.lxor a b).
Proof.
  intros Ha Hb. assert (0 <= a ∧ 0 <= b) as [Ha0 Hb0] by (unfold is_word in *; lia).
  assert (0 <= Z.lxor a b) by (apply Z.lxor_nonneg; tauto).
  apply word_log2; [done|]. apply word_log2 in Ha, Hb; [|done..].
  pose proof (Z.log2_lxor a b Ha0 Hb0). lia.
Qed.

Lemma lor_word a b : is_word a → is_word b → is_word (Z.lor a b).
Proof.
  intros Ha Hb. assert (0 <= a ∧ 0 <= b) as [Ha0 Hb0] by (unfold is_word in *; lia).
  assert (0 <= Z.lor a b) by (apply Z.lor_nonneg; tauto).
  apply word_log2; [done|]. apply word_log2 in Ha, Hb; [|done..]. rewrite Z.log2_lor by done. lia.
Qed.

Lemma land_lt a m k : 0 <= k → 0 <= m < 2 ^ k → 0 <= Z.land a m < 2 ^ k.
Proof.
  intros Hk Hm. assert (Z.land a m = Z.land a m mod 2 ^ k) as ->; [|by apply Z.mod_pos_bound, Z.pow_pos_nonneg; lia].
  by rewrite <- Z.land_ones, <- Z.land_assoc, Z.land_ones, (Z.mod_small m) by done.
Qed.

Lemma lxor_cancel a b : Z.lxor (Z.lxor a b) b = a.
Proof. by rewrite Z.lxor_assoc, Z.lxor_nilpotent, Z.lxor_0_r. Qed.

Lemma shl_small T n : 0 <= n <= 32 → 0 <= T < 2 ^ (32 - n) → shl T n = Z.shiftl T n ∧ is_word (shl T n).
Proof.
  intros Hn HT. assert (0 <= Z.shiftl T n < 2 ^ 32).
  { rewrite Z.shiftl_mul_pow2 by lia. replace (2 ^ 32) with (2 ^ (32 - n) * 2 ^ n) by (rewrite <- Z.pow_add_r by lia; f_equal; lia).
    pose proof (Z.pow_pos_nonneg 2 n). nia. }
  unfold shl. rewrite u32_small by done. done.
Qed.

(** Exchanging bits under a mask twice gives the words back. *)
Lemma delta_swap_twice n mask X Y :
  0 <= n <= 32 → 0 <= mask < 2 ^ (32 - n) → is_word X → is_word Y →
  ∃ X' Y', delta_swap n mask X Y = (X', Y') ∧ delta_swap n mask X' Y' = (X, Y) ∧ is_word X' ∧ is_word Y'.
Proof.
  intros Hn Hm HX HY. unfold delta_swap. set (T := Z.land (Z.lxor (Z.shiftr X n) Y) mask).
  assert (HT : 0 <= T < 2 ^ (32 - n)) by (apply land_lt; lia).
  destruct (shl_small T n Hn HT) as [Hs Hw].
  assert (is_word T).
  { unfold is_word. assert (2 ^ (32 - n) <= 2 ^ 32) by (apply Z.pow_le_mono_r; lia). lia. }
  eexists _, _. split; [done|]. split; [|by split; apply lxor_word].
  assert (Z.lxor (Z.shiftr (Z.lxor X (shl T n)) n) (Z.lxor Y T) = Z.lxor (Z.shiftr X n) Y) as ->.
  { rewrite Hs, Z.shiftr_lxor, Z.shiftr_shiftl_l, Z.sub_diag, Z.shiftl_0_r by lia.
    rewrite (Z.lxor_comm Y T), <- Z.lxor_assoc. by rewrite lxor_cancel. }
  fold T. by rewrite !lxor_cancel.
Qed.

Lemma rotl1_spec X : is_word X → rotl1 X = (X mod 2 ^ 31) * 2 + X / 2 ^ 31.
Proof.
  unfold is_word. intros HX. unfold rotl1, shl, u32. change 0xFFFFFFFF with (2 ^ 32 - 1).
  rewrite land_ones_mod, Z.shiftl_mul_pow2, Z.shiftr_div_pow2 by lia.
  replace (X * 2 ^ 1 mod 2 ^ 32) with ((X mod 2 ^ 31) * 2 ^ 1) by zify_div.
  rewrite Z.lor_comm, lor_add_high by zify_div. zify_div.
Qed.

Lemma rotr1_spec X : is_word X → rotr1 X = (X mod 2) * 2 ^ 31 + X / 2.
Proof.
  unfold is_word. intros HX. unfold rotr1, shl, u32. change 0xFFFFFFFF with (2 ^ 32 - 1).
  rewrite land_ones_mod, Z.shiftl_mul_pow2, Z.shiftr_div_pow2 by lia.
  replace (X * 2 ^ 31 mod 2 ^ 32) with ((X mod 2) * 2 ^ 31) by zify_div.
  change (2 ^ 1) with 2. rewrite Z.lor_comm, lor_add_high by zify_div. zify_div.
Qed.

Lemma rot1_inv X : is_word X →
  is_word (rotl1 X) ∧ is_word (rotr1 X) ∧ rotr1 (rotl1 X) = X ∧ rotl1 (rotr1 X) = X.
Proof.
  intros HX. assert (is_word (rotl1 X) ∧ is_word (rotr1 X)) as [Hl Hr].
  { rewrite rotl1_spec, rotr1_spec by done. unfold is_word in *. zify_div. }
  split_and!; auto.
  - rewrite rotr1_spec, rotl1_spec by done. unfold is_word in HX. zify_div.
  - rewrite rotl1_spec, rotr1_spec by done. unfold is_word in HX. zify_div.
Qed.

Lemma mask_swap_twice m X Y :
  is_word m → is_word X → is_word Y →
  let T := Z.land (Z.lxor X Y) m in
  is_word (Z.lxor X T) ∧ is_word (Z.lxor Y T)
  ∧ Z.land (Z.lxor (Z.lxor X T) (Z.lxor Y T)) m = T.
Proof.
  intros Hm HX HY T. assert (is_word T) by (apply land_lt; [lia|done]).
  split; [by apply lxor_word|]. split; [by apply lxor_word|].
  rewrite (Z.lxor_comm Y T), <- Z.lxor_assoc. by rewrite lxor_cancel.
Qed.

(** The final permutation is the inverse of the initial one. *)
Lemma FP_IP X Y :
  is_word X → is_word Y → ∃ X' Y', DES_IP X Y = (X', Y') ∧ is_word X' ∧ is_word Y' ∧ DES_FP X' Y' = (X, Y).
Proof.
  intros HX HY. unfold DES_IP.
  destruct (delta_swap_twice 4 0x0F0F0F0F X Y) as (X1 & Y1 & -> & E1 & HX1 & HY1); [lia|lia|done..|].
  destruct (delta_swap_twice 16 0x0000FFFF X1 Y1) as (X2 & Y2 & -> & E2 & HX2 & HY2); [lia|lia|done..|].
  destruct (delta_swap_twice 2 0x33333333 Y2 X2) as (Y3 & X3 & -> & E3 & HY3 & HX3); [lia|lia|done..|].
  destruct (delta_swap_twice 8 0x00FF00FF Y3 X3) as (Y4 & X4 & -> & E4 & HY4 & HX4); [lia|lia|done..|].
  destruct (rot1_inv Y4 HY4) as (HY5 & _ & E5 & _).
  destruct (mask_swap_twice 0xAAAAAAAA X4 (rotl1 Y4)) as (HX6 & HY6 & E6); [done..|].
  set (T := Z.land (Z.lxor X4 (rotl1 Y4)) 0xAAAAAAAA) in *.
  destruct (rot1_inv (Z.lxor X4 T) HX6) as (HX7 & _ & E7 & _).
  eexists _, _. split; [done|]. split; [done|]. split; [done|]. unfold DES_FP.
  rewrite E7, E6, !lxor_cancel, E5, E4, E3, E2, E1. done.
Qed.

Lemma IP_FP X Y :
  is_word X → is_word Y → ∃ X' Y', DES_FP X Y = (X', Y') ∧ is_word X' ∧ is_word Y' ∧ DES_IP X' Y' = (X, Y).
Proof.
  intros HX HY. unfold DES_FP. destruct (rot1_inv X HX) as (_ & HX1 & _ & E1).
  destruct (mask_swap_twice 0xAAAAAAAA (rotr1 X) Y) as (HX2 & HY2 & E2); [done..|].
  set (T := Z.land (Z.lxor (rotr1 X) Y) 0xAAAAAAAA) in *.
  destruct (rot1_inv (Z.lxor Y T) HY2) as (_ & HY3 & _ & E3).
  destruct (delta_swap_twice 8 0x00FF00FF (rotr1 (Z.lxor Y T)) (Z.lxor (rotr1 X) T))
    as (Y4 & X4 & -> & E4 & HY4 & HX4); [lia|lia|done..|].
  destruct (delta_swap_twice 2 0x33333333 Y4 X4) as (Y5 & X5 & -> & E5 & HY5 & HX5); [lia|lia|done..|].
  destruct (delta_swap_twice 16 0x0000FFFF X5 Y5) as (X6 & Y6 & -> & E6 & HX6 & HY6); [lia|lia|done..|].
  destruct (delta_swap_twice 4 0x0F0F0F0F X6 Y6) as (X7 & Y7 & -> & E7 & HX7 & HY7); [lia|lia|done..|].
  eexists _, _. split; [done|]. split; [done|]. split; [done|]. unfold DES_IP.
  rewrite E7, E6, E5, E4. cbv zeta. rewrite E3, E2, !lxor_cancel, E1. done.
Qed.

(** ** Rounds *)

Lemma table_word SB x : forallb (λ x, (0 <=? x) && (x <? 2 ^ 32)) SB = true → is_word (sbox SB x).
Proof.
  intros H. rewrite forallb_forall in H. unfold sbox.
  destruct (nth_in_or_default (Z.to_nat (Z.land x 63)) SB 0) as [Hin|E]; [|by rewrite E].
  specialize (H _ Hin). bool_prop. done.
Qed.

Lemma DES_ROUND_word k0 k1 X Y : is_word Y → is_word (DES_ROUND k0 k1 X Y).
Proof. intros HY. unfold DES_ROUND. repeat apply lxor_word; try done; by apply table_word; vm_compute. Qed.

Lemma DES_ROUND_twice k0 k1 X Y : DES_ROUND k0 k1 X (DES_ROUND k0 k1 X Y) = Y.
Proof.
  unfold DES_ROUND. cbv zeta. generalize (Z.lxor (Z.lxor (Z.lxor (sbox SB8 (Z.lxor k0 X)) (sbox SB6 (Z.shiftr (Z.lxor k0 X) 8)))
    (sbox SB4 (Z.shiftr (Z.lxor k0 X) 16))) (sbox SB2 (Z.shiftr (Z.lxor k0 X) 24))).
  intros a. match goal with |- Z.lxor (Z.lxor (Z.lxor (Z.lxor Y a) ?b) a) ?b = Y => generalize b end. intros b.
  rewrite (Z.lxor_assoc (Z.lxor Y a) b a), (Z.lxor_comm b a), <- Z.lxor_assoc. by rewrite !lxor_cancel.
Qed.

(** The rounds as a Feistel network: the halves change places in every round. *)
Fixpoint feistel (ks : list (Z * Z)) (A B : Z) : Z * Z :=
  match ks with
  | [] => (A, B)
  | k :: ks => feistel ks B (DES_ROUND k.1 k.2 B A)
  end.

Fixpoint key_pairs (SK : list Z) : list (Z * Z) :=
  match SK with k0 :: k1 :: SK => (k0, k1) :: key_pairs SK | _ => [] end.

Lemma feistel_app ks ks' A B : feistel (ks ++ ks') A B = let '(A, B) := feistel ks A B in feistel ks' A B.
Proof. revert A B. induction ks as [|k ks IH]; intros A B; simpl; [done|]. apply IH. Qed.

(** Running the rounds backwards from the exchanged halves. *)
Lemma feistel_rev ks A B A' B' : feistel ks A B = (A', B') → feistel (rev ks) B' A' = (B, A).
Proof.
  revert A B. induction ks as [|k ks IH]; intros A B; simpl; [by intros [= -> ->]|].
  intros H%IH. rewrite feistel_app, H. simpl. by rewrite DES_ROUND_twice.
Qed.

Lemma feistel_word ks A B A' B' :
  feistel ks A B = (A', B') → is_word A → is_word B → is_word A' ∧ is_word B'.
Proof.
  revert A B. induction ks as [|k ks IH]; intros A B; simpl; [by intros [= -> ->]|].
  intros H HA HB. eapply IH; [done..|]. by apply DES_ROUND_word.
Qed.

Lemma des_rounds_feistel n SK X Y :
  length SK = (4 * n)%nat → des_rounds SK X Y = feistel (key_pairs SK) X Y.
Proof.
  revert SK X Y. induction n as [|n IH]; intros SK X Y Hl; [by destruct SK|].
  destruct SK as [|k0 [|k1 [|k2 [|k3 SK]]]]; simpl in Hl; try lia. cbn [des_rounds key_pairs feistel fst snd].
  rewrite IH by lia. done.
Qed.

Lemma key_pairs_app SK k0 k1 n : length SK = (2 * n)%nat → key_pairs (SK ++ [k0; k1]) = key_pairs SK ++ [(k0, k1)].
Proof.
  revert SK. induction n as [|n IH]; intros SK Hl; [by destruct SK|].
  destruct SK as [|a [|b SK]]; simpl in Hl; try lia. simpl. rewrite IH by lia. done.
Qed.

Lemma reverse_keys_spec n SK :
  length SK = (2 * n)%nat →
  length (reverse_keys SK) = (2 * n)%nat ∧ key_pairs (reverse_keys SK) = rev (key_pairs SK).
Proof.
  revert SK. induction n as [|n IH]; intros SK Hl; [by destruct SK|].
  destruct SK as [|a [|b SK]]; simpl in Hl; try lia. simpl. destruct (IH SK) as [H1 H2]; [lia|].
  rewrite length_app. simpl. split; [lia|]. by rewrite (key_pairs_app _ a b n), H2.
Qed.

(** ** Blocks *)

Lemma get_value b0 b1 b2 b3 :
  is_byte b0 → is_byte b1 → is_byte b2 → is_byte b3 →
  Z.lor (Z.lor (Z.lor (shl b0 24) (shl b1 16)) (shl b2 8)) b3 = b0 * 2 ^ 24 + b1 * 2 ^ 16 + b2 * 2 ^ 8 + b3.
Proof.
  unfold is_byte, shl. intros. rewrite !u32_small by (rewrite Z.shiftl_mul_pow2 by lia; lia).
  rewrite !Z.shiftl_mul_pow2 by lia.
  rewrite (Z.lor_comm (b0 * 2 ^ 24)), (lor_add_high (b1 * 2 ^ 16) b0 24) by lia.
  replace (b1 * 2 ^ 16 + b0 * 2 ^ 24) with ((b1 + b0 * 2 ^ 8) * 2 ^ 16) by lia.
  rewrite (Z.lor_comm _ (b2 * 2 ^ 8)), lor_add_high by lia.
  replace (b2 * 2 ^ 8 + (b1 + b0 * 2 ^ 8) * 2 ^ 16) with ((b2 + (b1 + b0 * 2 ^ 8) * 2 ^ 8) * 2 ^ 8) by lia.
  rewrite (Z.lor_comm _ b3), lor_add_high by lia. lia.
Qed.

Lemma put_value n : is_word n →
  PUT_UINT32 n = [n / 2 ^ 24; n / 2 ^ 16 mod 256; n / 2 ^ 8 mod 256; n mod 256].
Proof.
  unfold is_word, PUT_UINT32, u8. intros. rewrite !Z.shiftr_div_pow2 by lia. do 4 f_equal; zify_div.
Qed.

Lemma put_bytes n : is_word n → Forall is_byte (PUT_UINT32 n).
Proof. intros Hn. rewrite put_value by done. unfold is_word, is_byte in *. repeat constructor; zify_div. Qed.

(** Reading a word back, at the start of a block and 4 bytes into it. *)
Lemma GET_0 b0 b1 b2 b3 s : Forall is_byte [b0; b1; b2; b3] →
  ∃ X, GET_UINT32 (b0 :: b1 :: b2 :: b3 :: s) 0 = Some X ∧ is_word X ∧ PUT_UINT32 X = [b0; b1; b2; b3].
Proof.
  rewrite !Forall_cons. intros (H0 & H1 & H2 & H3 & _). unfold GET_UINT32. simpl. rewrite get_value by done.
  eexists. split; [done|]. assert (Hw : is_word (b0 * 2 ^ 24 + b1 * 2 ^ 16 + b2 * 2 ^ 8 + b3)) by (unfold is_word, is_byte in *; lia).
  split; [done|]. rewrite put_value by done. unfold is_byte in *. do 4 f_equal; zify_div.
Qed.

Lemma GET_4 a s : length a = 4%nat → GET_UINT32 (a ++ s) 4 = GET_UINT32 s 0.
Proof.
  intros Ha. assert (H : ∀ i, 0 <= i → zget (a ++ s) (4 + i) = zget s i).
  { intros i Hi. unfold zget. rewrite !(proj2 (Z.leb_le _ _)) by lia. rewrite lookup_app_r by lia. f_equal. lia. }
  pose proof (H 0 ltac:(lia)) as H0. pose proof (H 1 ltac:(lia)) as H1.
  pose proof (H 2 ltac:(lia)) as H2. pose proof (H 3 ltac:(lia)) as H3.
  unfold GET_UINT32. change (4 + 0) with 4 in H0. by rewrite H0, H1, H2, H3.
Qed.

Lemma GET_PUT n s : is_word n → GET_UINT32 (PUT_UINT32 n ++ s) 0 = Some n.
Proof.
  intros Hn. pose proof (put_bytes n Hn) as Hb. rewrite put_value in Hb |- * by done.
  rewrite !Forall_cons in Hb. destruct Hb as (H0 & H1 & H2 & H3 & _). unfold GET_UINT32. simpl.
  rewrite get_value by done. f_equal. unfold is_word in Hn. zify_div.
Qed.

Lemma put_length n : length (PUT_UINT32 n) = 4%nat.
Proof. done. Qed.

(** A block that was encrypted decrypts to itself. *)
Lemma des_crypt_inverse SK b s :
  length SK = 32%nat → length b = 8%nat → Forall is_byte b →
  ∃ c, des_crypt SK (b ++ s) = Some c ∧ length c = 8%nat ∧ Forall is_byte c
    ∧ ∀ s', des_crypt (reverse_keys SK) (c ++ s') = Some b.
Proof.
  intros HSK Hl Hb. destruct b as [|b0 [|b1 [|b2 [|b3 b]]]]; simpl in Hl; try lia.
  destruct b as [|b4 [|b5 [|b6 [|b7 [|? ?]]]]]; simpl in Hl; try lia.
  change [b0; b1; b2; b3; b4; b5; b6; b7] with ([b0; b1; b2; b3] ++ [b4; b5; b6; b7]) in Hb |- *.
  apply Forall_app in Hb as [Hb Hb']. rewrite <- (assoc_L (++)).
  destruct (GET_0 b0 b1 b2 b3 ([b4; b5; b6; b7] ++ s) Hb) as (X & HgX & HX & HpX).
  destruct (GET_0 b4 b5 b6 b7 s Hb') as (Y & HgY & HY & HpY).
  destruct (FP_IP X Y HX HY) as (X1 & Y1 & HIP & HX1 & HY1 & HFP).
  destruct (feistel (key_pairs SK) X1 Y1) as [X2 Y2] eqn:Hf. destruct (feistel_word _ _ _ _ _ Hf HX1 HY1) as [HX2 HY2].
  destruct (IP_FP Y2 X2 HY2 HX2) as (Y3 & X3 & HFP2 & HY3 & HX3 & HIP2).
  destruct (reverse_keys_spec 16 SK HSK) as [HRl HRp].
  exists (PUT_UINT32 Y3 ++ PUT_UINT32 X3). split_and!.
  - unfold des_crypt. change (b0 :: b1 :: b2 :: b3 :: ([b4; b5; b6; b7] ++ s)) with ([b0; b1; b2; b3] ++ [b4; b5; b6; b7] ++ s) in HgX.
    rewrite HgX, GET_4 by done. change ([b4; b5; b6; b7] ++ s) with (b4 :: b5 :: b6 :: b7 :: s). rewrite HgY.
    cbn [mbind option_bind]. rewrite HIP, (des_rounds_feistel 8) by done. by rewrite Hf, HFP2.
  - done.
  - apply Forall_app. by split; apply put_bytes.
  - intros s'. unfold des_crypt. rewrite <- (assoc_L (++)), GET_PUT, GET_4, GET_PUT by done. cbn [mbind option_bind].
    rewrite HIP2, (des_rounds_feistel 8), HRp by done. rewrite (feistel_rev _ _ _ _ _ Hf), HFP. by rewrite HpX, HpY.
Qed.

(** ** Texts *)

Lemma subkeys_length n i X Y : length (subkeys n i X Y) = (2 * n)%nat.
Proof. revert i X Y. induction n as [|n IH]; intros i X Y; simpl; [done|]. rewrite IH. lia. Qed.

Lemma des_key_spec key :
  length key = 8%nat → Forall is_byte key → ∃ SK, des_key key = Ret SK ∧ length SK = 32%nat.
Proof.
  intros Hl Hb. unfold des_key. rewrite Hl. cbn [Z.of_nat negb Z.eqb Pos.eqb Pos.of_succ_nat Pos.succ].
  destruct key as [|b0 [|b1 [|b2 [|b3 key]]]]; simpl in Hl; try lia.
  destruct key as [|b4 [|b5 [|b6 [|b7 [|? ?]]]]]; simpl in Hl; try lia.
  change [b0; b1; b2; b3; b4; b5; b6; b7] with ([b0; b1; b2; b3] ++ [b4; b5; b6; b7]) in Hb |- *.
  apply Forall_app in Hb as [Hb Hb'].
  destruct (GET_0 b0 b1 b2 b3 [b4; b5; b6; b7] Hb) as (X & HgX & _). destruct (GET_0 b4 b5 b6 b7 [] Hb') as (Y & HgY & _).
  unfold des_main_ks. rewrite GET_4, HgY by done. change ([b0; b1; b2; b3] ++ [b4; b5; b6; b7]) with [b0; b1; b2; b3; b4; b5; b6; b7].
  rewrite HgX. cbn [mbind option_bind]. destruct (delta_swap 4 252645135 Y X). eexists. split; [done|].
  by rewrite subkeys_length.
Qed.

Lemma crypt_blocks_fuel f1 f2 SK text :
  (length text < f1)%nat → (length text < f2)%nat → crypt_blocks f1 SK text = crypt_blocks f2 SK text.
Proof.
  revert f2 text. induction f1 as [|f1 IH]; intros f2 text H1 H2; [lia|]. destruct f2 as [|f2]; [lia|].
  cbn [crypt_blocks]. case_if; [done|]. destruct (des_crypt SK text); [|done]. cbn [lift mbind outcome_bind].
  rewrite (IH f2); [done|rewrite length_drop; lia..].
Qed.

(** Whole blocks are encrypted one by one, and decrypted the same way. *)
Lemma crypt_blocks_spec SK n : length SK = 32%nat → ∀ text,
  (length text < n)%nat → Forall is_byte text →
  ∃ full rest bs, text = full ++ rest ∧ (length rest < 8)%nat ∧ length bs = length full
    ∧ Z.of_nat (length full) mod 8 = 0
    ∧ crypt_blocks (S (length text)) SK text = Ret (bs, rest) ∧
    ∀ s x r, crypt_blocks (S (length s)) (reverse_keys SK) s = Ret (x, r) →
      crypt_blocks (S (length (bs ++ s))) (reverse_keys SK) (bs ++ s) = Ret (full ++ x, r).
Proof.
  intros HSK. induction n as [|n IH]; intros text Hn Hb; [lia|]. cbn [crypt_blocks]. case_if.
  { exists [], text, []. split_and!; try done; lia. }
  destruct (des_crypt_inverse SK (take 8 text) (drop 8 text) HSK) as (c & Hc & Hlc & Hbc & Hinv).
  { rewrite length_take. lia. } { by apply Forall_take. }
  rewrite take_drop in Hc. rewrite Hc. cbn [lift mbind outcome_bind].
  destruct (IH (drop 8 text)) as (full & rest & bs & Ht & Hr & Hlb & Hm & Hcb & Hd).
  { rewrite length_drop. lia. } { by apply Forall_drop. }
  rewrite (crypt_blocks_fuel _ (S (length (drop 8 text)))), Hcb by (rewrite length_drop; lia). cbn [mbind outcome_bind].
  exists (take 8 text ++ full), rest, (c ++ bs). split_and!.
  - by rewrite <- (assoc_L (++)), <- Ht, take_drop.
  - done.
  - rewrite !length_app, length_take. lia.
  - rewrite length_app, length_take. rewrite Nat2Z.inj_add, Nat.min_l by lia. change (Z.of_nat 8) with 8. zify_div.
  - done.
  - intros s x r Hs. rewrite <- (assoc_L (++)). cbn [crypt_blocks].
    rewrite (proj2 (Z.ltb_ge _ _)) by (rewrite length_app; lia). rewrite Hinv. cbn [lift mbind outcome_bind].
    assert (drop 8 (c ++ bs ++ s) = bs ++ s) as -> by (rewrite <- Hlc; apply drop_app_length).
    rewrite (crypt_blocks_fuel _ (S (length (bs ++ s)))) by (rewrite !length_app; lia).
    rewrite (Hd s x r Hs). cbn [mbind outcome_bind]. by rewrite <- (assoc_L (++)).
Qed.

(** One block at the end. *)
Lemma crypt_blocks_last SK b c :
  des_crypt SK b = Some c → length b = 8%nat → crypt_blocks (S (length b)) SK b = Ret (c, []).
Proof.
  intros Hc Hl. cbn [crypt_blocks]. rewrite Hc, (proj2 (Z.ltb_ge _ _)), drop_ge by lia. cbn [lift mbind outcome_bind].
  rewrite (crypt_blocks_fuel _ 1) by (simpl; lia). simpl. by rewrite app_nil_r.
Qed.

Lemma des_tail_spec rest : (length rest < 8)%nat →
  des_tail rest = rest ++ [0x80] ++ replicate (7 - length rest) 0.
Proof.
  intros Hl. unfold des_tail. rewrite take_app_ge by lia. f_equal.
  rewrite take_app_ge by (simpl; lia). f_equal. rewrite take_replicate. f_equal. simpl. lia.
Qed.

(** The padding is recognised: [k] zeros after the 0x80. *)
Lemma padding_loop_spec k : ∀ fuel body z p,
  (k < fuel)%nat → (k + z <= 7)%nat → 8 <= Z.of_nat (length body) + 1 + Z.of_nat (k + z) < 2 ^ 63 →
  padding_loop fuel (body ++ [0x80] ++ replicate k 0 ++ replicate z 0) (Z.of_nat (length body) + 1 + Z.of_nat (k + z))
    (Z.of_nat (length body) + Z.of_nat k) p = Ret (p + Z.of_nat k).
Proof.
  induction k as [|k IH]; intros fuel body z p Hf Hz Hb; (destruct fuel as [|fuel]; [lia|]); cbn [padding_loop];
    (rewrite (u64_small (_ + _)) by lia; rewrite (proj2 (Z.leb_le _ _)) by lia).
  - change (Z.of_nat 0) with 0. rewrite !Z.add_0_r, zget_nat, lookup_app_r, Nat.sub_diag by lia. done.
  - assert (zget (body ++ [128] ++ replicate (S k) 0 ++ replicate z 0) (Z.of_nat (length body) + Z.of_nat (S k)) = Some 0) as ->.
    { replace (Z.of_nat (length body) + Z.of_nat (S k)) with (Z.of_nat (length body + S k)) by lia.
      rewrite zget_nat, lookup_app_r by lia. replace (length body + S k - length body)%nat with (S k) by lia.
      change (([128] ++ replicate (S k) 0 ++ replicate z 0) !! S k) with ((replicate (S k) 0 ++ replicate z 0) !! k).
      rewrite lookup_app_l by (rewrite length_replicate; lia). by apply lookup_replicate; lia. }
    cbn [lift mbind outcome_bind Z.eqb].
    replace (replicate (S k) 0 ++ replicate z 0) with (replicate k 0 ++ replicate (S z) 0).
    2:{ rewrite <- !replicate_add. f_equal. lia. }
    replace (Z.of_nat (length body) + Z.of_nat (S k) - 1) with (Z.of_nat (length body) + Z.of_nat k) by lia.
    replace (Z.of_nat (S k + z)) with (Z.of_nat (k + S z)) by lia. rewrite IH by lia. f_equal. lia.
Qed.

(** C29. Decryption undoes encryption: for every 8-byte key and every text, of
    any length, [desdecode] gives back the text [desencode] was given. *)
Theorem des_roundtrip key text :
  length key = 8%nat → Forall is_byte key → Forall is_byte text → Z.of_nat (length text) < 2 ^ 31 - 8 →
  ∃ c, ldesencode key text = Ret c ∧ ldesdecode key c = Ret text.
Proof.
  intros Hk Hkb Htb Hlt. destruct (des_key_spec key Hk Hkb) as (SK & Hkey & HSK).
  destruct (crypt_blocks_spec SK (S (length text)) HSK text) as (full & rest & bs & Ht & Hr & Hlb & Hm & Hcb & Hd); [lia|done|].
  assert (Hrb : Forall is_byte rest) by (rewrite Ht in Htb; by apply Forall_app in Htb as [_ ?]).
  destruct (des_crypt_inverse SK (des_tail rest) [] HSK) as (c & Hc & Hlc & Hbc & Hinv).
  { rewrite des_tail_spec, !length_app, length_replicate by done. simpl. lia. }
  { rewrite des_tail_spec by done. apply Forall_app. split; [done|]. constructor; [done|]. by apply Forall_replicate. }
  rewrite app_nil_r in Hc. unfold ldesencode. rewrite Hkey. cbn [mbind outcome_bind]. rewrite Hcb. cbn [mbind outcome_bind].
  rewrite Hc. cbn [lift mbind outcome_bind]. eexists. split; [done|].
  unfold ldesdecode. rewrite Hkey. cbn [mbind outcome_bind].
  assert (Hlen : Z.of_nat (length (bs ++ c)) = Z.of_nat (length full) + 8) by (rewrite length_app; lia).
  assert (Htl : Z.of_nat (length text) = Z.of_nat (length full) + Z.of_nat (length rest)) by (rewrite Ht, length_app; lia).
  unfold c_true. change 7 with (2 ^ 3 - 1). rewrite land_ones_mod, Hlen by lia. change (2 ^ 3) with 8.
  rewrite (proj2 (Z.eqb_eq (_ mod 8) 0)), (proj2 (Z.eqb_neq _ 0)) by zify_div. cbn [negb orb].
  specialize (Hinv []). rewrite app_nil_r in Hinv.
  rewrite (Hd c (des_tail rest) []) by (by apply crypt_blocks_last). cbn [mbind outcome_bind].
  rewrite des_tail_spec, (assoc_L (++) full), <- Ht by done. set (k := (7 - length rest)%nat).
  pose proof (padding_loop_spec k 10 text 0 1) as Hp. rewrite app_nil_r, Nat.add_0_r in Hp.
  replace (Z.of_nat (length full) + 8) with (Z.of_nat (length text) + 1 + Z.of_nat k) by lia.
  replace (Z.of_nat (length text) + 1 + Z.of_nat k - 1) with (Z.of_nat (length text) + Z.of_nat k) by lia.
  rewrite Hp by lia. cbn [mbind outcome_bind]. rewrite (proj2 (Z.ltb_ge _ _)) by lia. f_equal.
  replace (Z.to_nat _) with (length text) by lia. apply take_app_length.
Qed.

(** The standard test vector of the cipher. *)
Example des_test_vector :
  (SK ← des_main_ks [0x13; 0x34; 0x57; 0x79; 0x9b; 0xbc; 0xdf; 0xf1];
   des_crypt SK [0x01; 0x23; 0x45; 0x67; 0x89; 0xab; 0xcd; 0xef])
  = Some [0x85; 0xe8; 0x13; 0x54; 0x0f; 0x0a; 0xb4; 0x05].
Proof. vm_compute. done. Qed.

Lemma des_roundtrip_witness :
  ∃ c, ldesencode [1; 2; 3; 4; 5; 6; 7; 8] [104; 101; 108; 108; 111; 32; 115; 107; 121] = Ret c
    ∧ ldesdecode [1; 2; 3; 4; 5; 6; 7; 8] c = Ret [104; 101; 108; 108; 111; 32; 115; 107; 121].
Proof. apply des_roundtrip; [reflexivity|repeat constructor; discriminate..|reflexivity]. Defined.

(** Decryption of a one-block text that decrypts to zeros leaves the buffer:
    the loop that looks for the padding tests [i>=textsz-8] with unsigned
    numbers, so it does not stop at the start of an 8-byte buffer.  There is such
    a text for every key. *)
Theorem desdecode_leaves_buffer key :
  length key = 8%nat → Forall is_byte key →
  ∃ text, length text = 8%nat ∧ Forall is_byte text ∧ ldesdecode key text = Stuck.
Proof.
  intros Hk Hkb. destruct (des_key_spec key Hk Hkb) as (SK & Hkey & HSK).
  destruct (des_crypt_inverse SK (replicate 8 0) [] HSK) as (c & _ & Hlc & Hbc & Hinv); [done|by apply Forall_replicate|].
  exists c. split; [done|]. split; [done|]. unfold ldesdecode. rewrite Hkey, Hlc. cbn [mbind outcome_bind].
  change (c_true (Z.land (Z.of_nat 8) 7) || (Z.of_nat 8 =? 0)) with false. cbv iota.
  specialize (Hinv []). rewrite app_nil_r in Hinv.
  rewrite <- Hlc at 1. rewrite (crypt_blocks_last _ c _ Hinv Hlc). cbn [mbind outcome_bind]. done.
Qed.

Lemma desdecode_leaves_buffer_witness :
  ∃ text, length text = 8%nat ∧ Forall is_byte text ∧ ldesdecode [1; 2; 3; 4; 5; 6; 7; 8] text = Stuck.
Proof. apply desdecode_leaves_buffer; [reflexivity|repeat constructor; discriminate]. Defined.
