(* ===== verification/Crypt.v ===== *)
(** * Hashes, encodings and key exchange (lualib-src/lua-crypt.c, second part)

    The other functions of the crypt library: the 64-bit hash and message
    authentication code, hexadecimal and base64 text, the two masking functions
    and the Diffie-Hellman exchange modulo the largest 64-bit prime.  The file
    shows that the decoders undo the encoders, that base64 decoding stays inside
    its buffer, that modular exponentiation computes powers, and that both sides
    of a key exchange compute the same secret. *)

From Stdlib Require Import Znumtheory Zpow_facts.
From stdpp Require Import prelude list list_numbers strings.
From S2P Require Import Prelude CString.

(** ** Words and bytes *)

(** [b0 | b1<<8 | b2<<16 | b3<<24], stored in a [uint32_t]. *)
Definition get32 (b : bytes) (i : Z) : option Z :=
  b0 ← zget b i; b1 ← zget b (i + 1); b2 ← zget b (i + 2); b3 ← zget b (i + 3);
  Some (u32 (Z.lor (Z.lor (Z.lor b0 (Z.shiftl b1 8)) (Z.shiftl b2 16)) (Z.shiftl b3 24))).

(** The bytes of a 32-bit word, lowest first. *)
Definition put32 (x : Z) : bytes :=
  [Z.land x 255; Z.land (Z.shiftr x 8) 255; Z.land (Z.shiftr x 16) 255; Z.land (Z.shiftr x 24) 255].

(** ** Random keys *)

(** [rnd i] is the [i]-th result of [random()]. *)
Definition lrandomkey (rnd : nat → Z) : bytes :=
  let tmp := (λ i, Z.land (rnd i) 255) <$> seq 0 8 in
  let x := foldl Z.lxor 0 tmp in
  match tmp with
  | b :: rest => if x =? 0 then Z.lor b 1 :: rest else tmp
  | [] => []
  end.

(** ** Hashes *)

(** A turn of the loop of [Hash] on the two hashes. *)
Definition hash_step (h : Z * Z) (c : Z) : Z * Z :=
  let '(djb, js) := h in
  (u32 (djb + (u32 (Z.shiftl djb 5) + c)),
   Z.lxor js (u32 (u32 (Z.shiftl js 5) + c + Z.shiftr js 2))).

Definition Hash (str : bytes) : bytes :=
  let '(djb_hash, js_hash) := foldl hash_step (5381, 1315423911) str in
  put32 djb_hash ++ put32 js_hash.

Definition lhashkey (key : bytes) : bytes := Hash key.

Definition k : list Z :=
  [0xd76aa478; 0xe8c7b756; 0x242070db; 0xc1bdceee; 0xf57c0faf; 0x4787c62a; 0xa8304613; 0xfd469501;
   0x698098d8; 0x8b44f7af; 0xffff5bb1; 0x895cd7be; 0x6b901122; 0xfd987193; 0xa679438e; 0x49b40821;
   0xf61e2562; 0xc040b340; 0x265e5a51; 0xe9b6c7aa; 0xd62f105d; 0x02441453; 0xd8a1e681; 0xe7d3fbc8;
   0x21e1cde6; 0xc33707d6; 0xf4d50d87; 0x455a14ed; 0xa9e3e905; 0xfcefa3f8; 0x676f02d9; 0x8d2a4c8a;
   0xfffa3942; 0x8771f681; 0x6d9d6122; 0xfde5380c; 0xa4beea44; 0x4bdecfa9; 0xf6bb4b60; 0xbebfbc70;
   0x289b7ec6; 0xeaa127fa; 0xd4ef3085; 0x04881d05; 0xd9d4d039; 0xe6db99e5; 0x1fa27cf8; 0xc4ac5665;
   0xf4292244; 0x432aff97; 0xab9423a7; 0xfc93a039; 0x655b59c3; 0x8f0ccc92; 0xffeff47d; 0x85845dd1;
   0x6fa87e4f; 0xfe2ce6e0; 0xa3014314; 0x4e0811a1; 0xf7537e82; 0xbd3af235; 0x2ad7d2bb; 0xeb86d391].

Definition r : list Z :=
  [7; 12; 17; 22; 7; 12; 17; 22; 7; 12; 17; 22; 7; 12; 17; 22;
   5; 9; 14; 20; 5; 9; 14; 20; 5; 9; 14; 20; 5; 9; 14; 20;
   4; 11; 16; 23; 4; 11; 16; 23; 4; 11; 16; 23; 4; 11; 16; 23;
   6; 10; 15; 21; 6; 10; 15; 21; 6; 10; 15; 21; 6; 10; 15; 21].

Definition LEFTROTATE (x c : Z) : Z := Z.lor (u32 (Z.shiftl x c)) (Z.shiftr x (32 - c)).

(** [~x] on a [uint32_t]. *)
Definition not32 (x : Z) : Z := u32 (Z.lnot x).

(** [f] and [g] of turn [i]. *)
Definition hmac_f (i b c d : Z) : Z :=
  if i <? 16 then Z.lor (Z.land b c) (Z.land (not32 b) d)
  else if i <? 32 then Z.lor (Z.land d b) (Z.land (not32 d) c)
  else if i <? 48 then Z.lxor (Z.lxor b c) d
  else Z.lxor c (Z.lor b (not32 d)).

Definition hmac_g (i : Z) : Z :=
  if i <? 16 then i else if i <? 32 then (5 * i + 1) mod 16 else if i <? 48 then (3 * i + 5) mod 16 else (7 * i) mod 16.

(** The loop, [n] turns from [i]. *)
Fixpoint hmac_loop (n : nat) (i : Z) (w : list Z) (a b c d : Z) : option (Z * Z * Z * Z) :=
  match n with
  | O => Some (a, b, c, d)
  | S n =>
      ki ← zget k i; wg ← zget w (hmac_g i); ri ← zget r i;
      let b' := u32 (b + LEFTROTATE (u32 (a + hmac_f i b c d + ki + wg)) ri) in
      hmac_loop n (i + 1) w d b' b c
  end.

(** [x] and [y] are arrays of two words, as is the result. *)
Definition hmac (x y : Z * Z) : option (Z * Z) :=
  let row := [x.2; x.1; y.2; y.1] in
  '(a, b, c, d) ← hmac_loop 64 0 (row ++ row ++ row ++ row) 0x67452301 0xefcdab89 0x98badcfe 0x10325476;
  Some (Z.lxor c d, Z.lxor a b).

(** Two words of an 8-byte string; other sizes are an error. *)
Definition word_pair (s : bytes) : outcome (Z * Z) :=
  if negb (Z.of_nat (length s) =? 8) then Throw
  else x0 ← lift (get32 s 0); x1 ← lift (get32 s 4); Ret (x0, x1).

Definition read64 (x y : bytes) : outcome ((Z * Z) * (Z * Z)) :=
  xx ← word_pair x; yy ← word_pair y; Ret (xx, yy).

Definition pushqword (result : Z * Z) : bytes := put32 result.1 ++ put32 result.2.

Definition lhmac64 (x y : bytes) : outcome bytes :=
  '(x, y) ← read64 x y; result ← lift (hmac x y); Ret (pushqword result).

Definition lhmac_hash (key text : bytes) : outcome bytes :=
  key ← word_pair key;
  let h := Hash text in
  h0 ← lift (get32 h 0); h1 ← lift (get32 h 4);
  result ← lift (hmac (h0, h1) key);
  Ret (pushqword result).

(** ** Hexadecimal text *)

Definition hex : bytes := str "0123456789abcdef".

Fixpoint ltohex (text : bytes) : outcome bytes :=
  match text with
  | [] => Ret []
  | c :: text =>
      h ← lift (zget hex (Z.shiftr c 4)); l ← lift (zget hex (Z.land c 15));
      s ← ltohex text; Ret (h :: l :: s)
  end.

(** [HEX], with the result stored in a [uint8_t]. *)
Definition HEX (c : Z) : Z := if (48 <=? c) && (c <=? 57) then c - 48 else u8 (c - 97 + 10).

Fixpoint fromhex_loop (text : bytes) : outcome bytes :=
  match text with
  | c :: c' :: text =>
      let hi := HEX c in
      let low := HEX c' in
      if (16 <? hi) || (16 <? low) then Throw
      else s ← fromhex_loop text; Ret (u8 (Z.lor (Z.shiftl hi 4) low) :: s)
  | _ => Ret []
  end.

Definition lfromhex (text : bytes) : outcome bytes :=
  if c_true (Z.land (Z.of_nat (length text)) 1) then Throw else fromhex_loop text.

(** ** Base64 *)

Definition encoding : bytes := str "ABCDEFGHIJKLMNOPQRSTUVWXYZabcdefghijklmnopqrstuvwxyz0123456789+/".

Definition ch_equal : Z := 61.

Fixpoint lb64encode (text : bytes) : outcome bytes :=
  match text with
  | [] => Ret []
  | [t0] =>
      let v := t0 in
      e0 ← lift (zget encoding (Z.shiftr v 2));
      e1 ← lift (zget encoding (Z.shiftl (Z.land v 3) 4));
      Ret [e0; e1; ch_equal; ch_equal]
  | [t0; t1] =>
      let v := Z.lor (Z.shiftl t0 8) t1 in
      e0 ← lift (zget encoding (Z.shiftr v 10));
      e1 ← lift (zget encoding (Z.land (Z.shiftr v 4) 0x3f));
      e2 ← lift (zget encoding (Z.shiftl (Z.land v 0xf) 2));
      Ret [e0; e1; e2; ch_equal]
  | t0 :: t1 :: t2 :: text =>
      let v := Z.lor (Z.lor (Z.shiftl t0 16) (Z.shiftl t1 8)) t2 in
      e0 ← lift (zget encoding (Z.shiftr v 18));
      e1 ← lift (zget encoding (Z.land (Z.shiftr v 12) 0x3f));
      e2 ← lift (zget encoding (Z.land (Z.shiftr v 6) 0x3f));
      e3 ← lift (zget encoding (Z.land v 0x3f));
      s ← lb64encode text;
      Ret ([e0; e1; e2; e3] ++ s)
  end.

Definition decoding : list Z :=
  [62; -1; -1; -1; 63; 52; 53; 54; 55; 56; 57; 58; 59; 60; 61; -1;
   -1; -1; -2; -1; -1; -1; 0; 1; 2; 3; 4; 5; 6; 7; 8; 9;
   10; 11; 12; 13; 14; 15; 16; 17; 18; 19; 20; 21; 22; 23; 24; 25;
   -1; -1; -1; -1; -1; -1; 26; 27; 28; 29; 30; 31; 32; 33; 34; 35;
   36; 37; 38; 39; 40; 41; 42; 43; 44; 45; 46; 47; 48; 49; 50; 51].

Definition b64index (c : Z) : option Z :=
  if c <? 43 then Some (-1)
  else if 80 <=? c - 43 then Some (-1) else zget decoding (c - 43).

(** [for (j=0;j<4;)]: [n] more symbols, those so far and the number of pads. *)
Fixpoint b64_group (text : bytes) (n : nat) (padding : Z) : outcome (list Z * Z * bytes) :=
  match n, text with
  | O, _ => Ret ([], padding, text)
  | S _, [] => Throw
  | S n', t :: text =>
      c ← lift (b64index t);
      if c =? -1 then b64_group text n padding
      else
        '(cs, padding, text) ← b64_group text n' (if c =? -2 then padding + 1 else padding);
        Ret (c :: cs, padding, text)
  end.

(** The bytes of a group. *)
Definition b64_bytes (c0 c1 c2 c3 padding : Z) : outcome bytes :=
  if padding =? 0 then
    let v := Z.lor (Z.lor (Z.lor (Z.shiftl c0 18) (Z.shiftl c1 12)) (Z.shiftl c2 6)) c3 in
    Ret [u8 (Z.shiftr v 16); Z.land (Z.shiftr v 8) 255; Z.land v 255]
  else if padding =? 1 then
    if negb (c3 =? -2) || negb (Z.land c2 3 =? 0) then Throw
    else
      let v := Z.lor (Z.lor (Z.shiftl c0 10) (Z.shiftl c1 4)) (Z.shiftr c2 2) in
      Ret [u8 (Z.shiftr v 8); Z.land v 255]
  else if padding =? 2 then
    if negb (c3 =? -2) || negb (c2 =? -2) || negb (Z.land c1 0xf =? 0) then Throw
    else Ret [u8 (Z.lor (Z.shiftl c0 2) (Z.shiftr c1 4))]
  else Throw.

(** [output] bytes of a buffer of [cap] bytes are written. *)
Fixpoint b64_loop (fuel : nat) (text : bytes) (cap output : Z) : outcome bytes :=
  match fuel with
  | O => OutOfFuel
  | S fuel =>
      match text with
      | [] => Ret []
      | _ =>
          '(cs, padding, text) ← b64_group text 4 0;
          match cs with
          | [c0; c1; c2; c3] =>
              b ← b64_bytes c0 c1 c2 c3 padding;
              let output := output + Z.of_nat (length b) in
              if cap <? output then Stuck
              else s ← b64_loop fuel text cap output; Ret (b ++ s)
          | _ => Stuck
          end
      end
  end.

Definition SMALL_CHUNK : Z := 256.

Definition lb64decode (text : bytes) : outcome bytes :=
  let decode_sz := (Z.of_nat (length text) + 3) / 4 * 3 in
  b64_loop (S (length text)) text (if SMALL_CHUNK <? decode_sz then decode_sz else SMALL_CHUNK) 0.

(** ** Masking *)

(** [s1[i] ^ s2[i % len2]] from index [i] on. *)
Fixpoint xor_loop (s1 s2 : bytes) (i : Z) : outcome bytes :=
  match s1 with
  | [] => Ret []
  | c :: s1 =>
      m ← lift (zget s2 (i mod Z.of_nat (length s2)));
      s ← xor_loop s1 s2 (i + 1);
      Ret (Z.lxor c m :: s)
  end.

Definition lxor_str (s1 s2 : bytes) : outcome bytes :=
  if Z.of_nat (length s2) =? 0 then Throw else xor_loop s1 s2 0.

(** One byte; the complement is that of an [int]. *)
Definition xor_byte (c : Z) : Z :=
  u8 (if c_true (Z.land c 0x01) then Z.lor (Z.land c 0x07) (Z.land 0xf8 (Z.lnot (Z.land c 0xf8)))
      else if c_true (Z.land c 0x04) then Z.lor (Z.land c 0xc7) (Z.land 0x38 (Z.lnot (Z.land c 0x38)))
      else Z.lor (Z.land c 0x47) (Z.land 0xb8 (Z.lnot (Z.land c 0xb8)))).

(** The first argument: a Lua string, or a pointer with the memory it points to. *)
Inductive xor_arg := XString (s : bytes) | XPointer (mem : bytes) | XOther.

(** The string returned and the argument afterwards: memory behind a pointer is
    masked in place, a Lua string is left as it is. *)
Definition lxor_data (arg : xor_arg) (len : Z) : outcome (bytes * xor_arg) :=
  match arg with
  | XString pbuf => s ← lift (copy_out pbuf 0 (u64 len)); Ret (map xor_byte s, arg)
  | XPointer pbuf =>
      let len := i32 len in
      s ← lift (copy_out pbuf 0 len);
      mem ← lift (memcpy_to pbuf 0 (map xor_byte s) len);
      Ret (map xor_byte s, XPointer mem)
  | XOther => Throw
  end.

(** ** Diffie-Hellman *)

Definition P : Z := 0xffffffffffffffc5.
Definition G : Z := 5.

Fixpoint mul_loop (fuel : nat) (m a b : Z) : outcome Z :=
  match fuel with
  | O => OutOfFuel
  | S fuel =>
      if b =? 0 then Ret m
      else
        let m := if c_true (Z.land b 1) then
                   let t := u64 (P - a) in
                   if t <=? m then u64 (m - t) else u64 (m + a)
                 else m in
        let a := if u64 (P - a) <=? a then u64 (a * 2 - P) else u64 (a * 2) in
        mul_loop fuel m a (Z.shiftr b 1)
  end.

(** [b] has 64 bits. *)
Definition mul_mod_p (a b : Z) : outcome Z := mul_loop 65 0 a b.

Fixpoint pow_loop (fuel : nat) (a b : Z) : outcome Z :=
  match fuel with
  | O => OutOfFuel
  | S fuel =>
      if b =? 1 then Ret a
      else
        t ← pow_loop fuel a (Z.shiftr b 1);
        t ← mul_mod_p t t;
        if c_true (b mod 2) then mul_mod_p t a else Ret t
  end.

(** [b] has 64 bits and is not 0. *)
Definition pow_mod_p (a b : Z) : outcome Z := pow_loop 64 a b.

Definition powmodp (a b : Z) : outcome Z := pow_mod_p (if P <? a then a mod P else a) b.

Definition push64 (r : Z) : bytes :=
  [Z.land r 255; Z.land (Z.shiftr r 8) 255; Z.land (Z.shiftr r 16) 255; Z.land (Z.shiftr r 24) 255;
   Z.land (Z.shiftr r 32) 255; Z.land (Z.shiftr r 40) 255; Z.land (Z.shiftr r 48) 255; Z.land (Z.shiftr r 56) 255].

(** [(uint64_t)x[0] | (uint64_t)x[1]<<32] *)
Definition qword (x : Z * Z) : Z := Z.lor x.1 (Z.shiftl x.2 32).

Definition ldhsecret (x y : bytes) : outcome bytes :=
  '(x, y) ← read64 x y;
  let xx := qword x in
  let yy := qword y in
  if (xx =? 0) || (yy =? 0) then Throw
  else r ← powmodp xx yy; Ret (push64 r).

Definition ldhexchange (x : bytes) : outcome bytes :=
  xx ← word_pair x;
  let x64 := qword xx in
  if x64 =? 0 then Throw
  else r ← powmodp G x64; Ret (push64 r).

(** ** Random keys are usable *)

(** A random key is 8 bytes that are not all 0, whatever [random] returns,
    so the key exchange accepts it. *)
Theorem randomkey_nonzero rnd :
  length (lrandomkey rnd) = 8%nat ∧ Forall is_byte (lrandomkey rnd) ∧ lrandomkey rnd ≠ replicate 8 0.
Proof.
  assert (Hb : ∀ i, is_byte (Z.land (rnd i) 255)).
  { intros i. change 255 with (2 ^ 8 - 1). rewrite land_ones_mod by lia. apply Z.mod_pos_bound. lia. }
  unfold lrandomkey. cbn [seq fmap list_fmap foldl]. case_if.
  - pose proof (forall_below 256 (λ b, (0 <=? Z.lor b 1) && (Z.lor b 1 <? 256) && negb (Z.lor b 1 =? 0))
                  (Z.land (rnd 0%nat) 255)) as H0.
    specialize (H0 ltac:(by vm_compute) (Hb 0%nat)). cbv beta in H0. bool_prop. split; [done|]. split.
    + rewrite !Forall_cons. split; [done|]. by split_and!; try apply Hb.
    + intros [= E]. congruence.
  - split; [done|]. split; [by rewrite !Forall_cons; split_and!; try apply Hb|]. intros [= E0 E1 E2 E3 E4 E5 E6 E7].
    by rewrite E0, E1, E2, E3, E4, E5, E6, E7 in Heqb.
Qed.

(** ** Hexadecimal text *)

Lemma hex_digit d : 0 <= d < 16 → zget hex d = Some (digit_lower d) ∧ HEX (digit_lower d) = d.
Proof.
  intros Hd. split.
  - pose proof (forall_below 16 (λ d, bool_decide (zget hex d = Some (digit_lower d))) d) as H.
    rewrite bool_decide_eq_true in H. apply H; [by vm_compute|done].
  - pose proof (forall_below 16 (λ d, HEX (digit_lower d) =? d) d) as H. apply Z.eqb_eq, H; [by vm_compute|done].
Qed.

Lemma hex_roundtrip_loop s : Forall is_byte s →
  ∃ t, ltohex s = Ret t ∧ length t = (2 * length s)%nat ∧ fromhex_loop t = Ret s.
Proof.
  induction 1 as [|c s Hc Hs (t & IH1 & IH2 & IH3)]; [by exists []|]. cbn [ltohex].
  change 15 with (2 ^ 4 - 1). rewrite land_ones_mod, Z.shiftr_div_pow2 by lia. unfold is_byte in Hc.
  destruct (hex_digit (c / 2 ^ 4)) as [-> Hh]; [zify_div|]. destruct (hex_digit (c mod 2 ^ 4)) as [-> Hl]; [zify_div|].
  cbn [lift mbind outcome_bind]. rewrite IH1. cbn [mbind outcome_bind]. eexists. split; [done|].
  split; [cbn [length]; lia|]. cbn [fromhex_loop]. rewrite Hh, Hl.
  rewrite (proj2 (Z.ltb_ge _ _)), (proj2 (Z.ltb_ge 16 _)) by zify_div. cbn [orb]. rewrite IH3. cbn [mbind outcome_bind].
  do 2 f_equal. rewrite Z.shiftl_mul_pow2, Z.lor_comm, lor_add_high by zify_div. unfold u8. zify_div.
Qed.

(** ** Base64 *)

Definition b64char (v : Z) : Z := default 0 (zget encoding v).

Lemma b64_symbol v : 0 <= v < 64 → zget encoding v = Some (b64char v) ∧ b64index (b64char v) = Some v.
Proof.
  intros Hv. split.
  - pose proof (forall_below 64 (λ v, bool_decide (zget encoding v = Some (b64char v))) v) as H.
    rewrite bool_decide_eq_true in H. apply H; [by vm_compute|done].
  - pose proof (forall_below 64 (λ v, bool_decide (b64index (b64char v) = Some v)) v) as H.
    rewrite bool_decide_eq_true in H. apply H; [by vm_compute|done].
Qed.

(** A symbol of the alphabet is taken as it is. *)
Lemma b64_group_symbol v text n p :
  0 <= v < 64 →
  b64_group (b64char v :: text) (S n) p = ('(cs, p, text) ← b64_group text n p; Ret (v :: cs, p, text)).
Proof.
  intros Hv. cbn [b64_group]. destruct (b64_symbol v Hv) as [_ ->]. cbn [lift mbind outcome_bind].
  by rewrite (proj2 (Z.eqb_neq v (-1))), (proj2 (Z.eqb_neq v (-2))) by lia.
Qed.

Lemma b64_group_done text p : b64_group text 0 p = Ret ([], p, text).
Proof. by destruct text. Qed.

Lemma b64_group_pad text n p :
  b64_group (ch_equal :: text) (S n) p = ('(cs, p, text) ← b64_group text n (p + 1); Ret (-2 :: cs, p, text)).
Proof. done. Qed.

Ltac shifts := rewrite ?Z.shiftl_mul_pow2, ?Z.shiftr_div_pow2 by lia.

(** [x & 0x3f] and the like are remainders. *)
Lemma land_63 x : Z.land x 0x3f = x mod 64.
Proof. change 0x3f with (2 ^ 6 - 1). by rewrite land_ones_mod. Qed.
Lemma land_255 x : Z.land x 255 = x mod 256.
Proof. change 255 with (2 ^ 8 - 1). by rewrite land_ones_mod. Qed.
Lemma land_15 x : Z.land x 0xf = x mod 16.
Proof. change 0xf with (2 ^ 4 - 1). by rewrite land_ones_mod. Qed.
Lemma land_3 x : Z.land x 3 = x mod 4.
Proof. change 3 with (2 ^ 2 - 1). by rewrite land_ones_mod. Qed.

(** Bytes put together with [|]. *)
Lemma lor_join a b n : 0 <= n → 0 <= b < 2 ^ n → Z.lor (Z.shiftl a n) b = a * 2 ^ n + b.
Proof. intros Hn Hb. rewrite Z.shiftl_mul_pow2, Z.lor_comm, lor_add_high by done. lia. Qed.

Lemma lor_join3 a b c n m :
  0 <= n → 0 <= m → 0 <= b < 2 ^ n → 0 <= c < 2 ^ m →
  Z.lor (Z.lor (Z.shiftl a (n + m)) (Z.shiftl b m)) c = (a * 2 ^ n + b) * 2 ^ m + c.
Proof.
  intros. rewrite <- Z.shiftl_shiftl, <- Z.shiftl_lor by lia. by rewrite !lor_join by done.
Qed.

Lemma lor_join4 a b c d :
  0 <= b < 64 → 0 <= c < 64 → 0 <= d < 64 →
  Z.lor (Z.lor (Z.lor (Z.shiftl a 18) (Z.shiftl b 12)) (Z.shiftl c 6)) d = ((a * 64 + b) * 64 + c) * 64 + d.
Proof.
  intros. change (Z.shiftl a 18) with (Z.shiftl a (12 + 6)). change (Z.shiftl b 12) with (Z.shiftl b (6 + 6)).
  rewrite <- (Z.shiftl_shiftl a), <- (Z.shiftl_shiftl b), <- !Z.shiftl_lor by lia.
  change (Z.shiftl a 12) with (Z.shiftl a (6 + 6)). rewrite lor_join3, lor_join by lia. done.
Qed.

Lemma b64_bytes3 t0 t1 t2 :
  is_byte t0 → is_byte t1 → is_byte t2 → let v := (t0 * 2 ^ 8 + t1) * 2 ^ 8 + t2 in
  b64_bytes (v / 2 ^ 18) (v / 2 ^ 12 mod 64) (v / 2 ^ 6 mod 64) (v mod 64) 0 = Ret [t0; t1; t2].
Proof.
  intros H0 H1 H2 v. unfold is_byte in *. assert (0 <= v < 2 ^ 24) by lia. unfold b64_bytes. simpl.
  assert (Z.lor (Z.lor (Z.lor (Z.shiftl (v / 2 ^ 18) 18) (Z.shiftl (v / 2 ^ 12 mod 64) 12)) (Z.shiftl (v / 2 ^ 6 mod 64) 6)) (v mod 64) = v) as ->.
  { rewrite (lor_join4 (v / 2 ^ 18) (v / 2 ^ 12 mod 64) (v / 2 ^ 6 mod 64) (v mod 64)) by zify_div. zify_div. }
  rewrite !land_255. shifts. unfold u8. do 2 f_equal; [|f_equal; [|f_equal]]; zify_div.
Qed.

Lemma b64_bytes2 t0 t1 :
  is_byte t0 → is_byte t1 → let v := t0 * 2 ^ 8 + t1 in
  b64_bytes (v / 2 ^ 10) (v / 2 ^ 4 mod 64) (v mod 16 * 2 ^ 2) (-2) 1 = Ret [t0; t1].
Proof.
  intros H0 H1 v. unfold is_byte in *. assert (0 <= v < 2 ^ 16) by lia. unfold b64_bytes.
  rewrite land_3, (proj2 (Z.eqb_eq (_ mod 4) 0)) by zify_div. cbn [Z.eqb Pos.eqb negb orb].
  assert (Z.lor (Z.lor (Z.shiftl (v / 2 ^ 10) 10) (Z.shiftl (v / 2 ^ 4 mod 64) 4)) (Z.shiftr (v mod 16 * 2 ^ 2) 2) = v) as ->.
  { change 10 with (6 + 4). rewrite Z.shiftr_div_pow2, lor_join3 by zify_div. zify_div. }
  rewrite land_255. shifts. unfold u8. do 2 f_equal; [|f_equal]; zify_div.
Qed.

Lemma b64_bytes1 t0 : is_byte t0 → b64_bytes (t0 / 2 ^ 2) (t0 mod 4 * 2 ^ 4) (-2) (-2) 2 = Ret [t0].
Proof.
  unfold is_byte. intros H0. unfold b64_bytes.
  rewrite land_15, (proj2 (Z.eqb_eq (_ mod 16) 0)) by zify_div. cbn [Z.eqb Pos.eqb negb orb].
  rewrite Z.shiftr_div_pow2, lor_join by zify_div. unfold u8. do 2 f_equal. zify_div.
Qed.

Lemma b64_roundtrip_loop n : ∀ s, (length s <= n)%nat → Forall is_byte s →
  ∃ t, lb64encode s = Ret t ∧ length t = ((length s + 2) / 3 * 4)%nat ∧
    ∀ fuel cap output, (length t < fuel)%nat → output + Z.of_nat (length s) <= cap → b64_loop fuel t cap output = Ret s.
Proof.
  induction n as [|n IH]; intros s Hn Hs.
  { destruct s; [|simpl in Hn; lia]. exists []. split; [done|]. split; [done|]. intros fuel cap output Hf _.
    by destruct fuel; [lia|]. }
  destruct s as [|t0 [|t1 [|t2 s]]].
  - exists []. split; [done|]. split; [done|]. intros fuel cap output Hf _. by destruct fuel; [lia|].
  - apply Forall_cons in Hs as [H0 _]. pose proof H0 as H0'. unfold is_byte in H0'. cbn [lb64encode]. rewrite land_3. shifts.
    destruct (b64_symbol (t0 / 2 ^ 2)) as [-> _]; [zify_div|]. destruct (b64_symbol (t0 mod 4 * 2 ^ 4)) as [-> _]; [zify_div|].
    cbn [lift mbind outcome_bind]. eexists. split; [done|]. split; [done|]. intros fuel cap output Hf Hc.
    destruct fuel as [|[|fuel]]; [simpl in Hf; lia..|]. cbn [b64_loop].
    rewrite b64_group_symbol, b64_group_symbol, !b64_group_pad by zify_div. cbn [b64_group mbind outcome_bind].
    change (0 + 1 + 1) with 2. rewrite b64_bytes1 by done. cbn [mbind outcome_bind length].
    rewrite (proj2 (Z.ltb_ge _ _)) by (simpl in Hc; lia). done.
  - apply Forall_cons in Hs as [H0 Hs]. apply Forall_cons in Hs as [H1 _]. pose proof H0 as H0'. pose proof H1 as H1'.
    unfold is_byte in H0', H1'. cbn [lb64encode]. rewrite lor_join by lia. rewrite land_15, land_63. shifts.
    set (v := t0 * 2 ^ 8 + t1).
    destruct (b64_symbol (v / 2 ^ 10)) as [-> _]; [zify_div|]. destruct (b64_symbol (v / 2 ^ 4 mod 64)) as [-> _]; [zify_div|].
    destruct (b64_symbol (v mod 16 * 2 ^ 2)) as [-> _]; [zify_div|].
    cbn [lift mbind outcome_bind]. eexists. split; [done|]. split; [done|]. intros fuel cap output Hf Hc.
    destruct fuel as [|[|fuel]]; [simpl in Hf; lia..|]. cbn [b64_loop].
    rewrite b64_group_symbol, b64_group_symbol, b64_group_symbol, b64_group_pad by zify_div. cbn [b64_group mbind outcome_bind].
    change (0 + 1) with 1. subst v. rewrite b64_bytes2 by done. cbn [mbind outcome_bind length].
    rewrite (proj2 (Z.ltb_ge _ _)) by (simpl in Hc; lia). done.
  - apply Forall_cons in Hs as [H0 Hs]. apply Forall_cons in Hs as [H1 Hs]. apply Forall_cons in Hs as [H2 Hs].
    pose proof H0 as H0'. pose proof H1 as H1'. pose proof H2 as H2'. unfold is_byte in H0', H1', H2'.
    destruct (IH s) as (t & IH1 & IH2 & IH3); [simpl in Hn; lia|done|]. cbn [lb64encode].
    change (Z.shiftl t0 16) with (Z.shiftl t0 (8 + 8)). rewrite lor_join3 by lia. rewrite !land_63. shifts.
    set (v := (t0 * 2 ^ 8 + t1) * 2 ^ 8 + t2).
    destruct (b64_symbol (v / 2 ^ 18)) as [-> _]; [zify_div|]. destruct (b64_symbol (v / 2 ^ 12 mod 64)) as [-> _]; [zify_div|].
    destruct (b64_symbol (v / 2 ^ 6 mod 64)) as [-> _]; [zify_div|]. destruct (b64_symbol (v mod 64)) as [-> _]; [zify_div|].
    cbn [lift mbind outcome_bind]. rewrite IH1. cbn [mbind outcome_bind]. eexists. split; [done|]. split.
    { cbn [app length]. rewrite IH2. replace (S (S (S (length s))) + 2)%nat with (1 * 3 + (length s + 2))%nat by lia.
      rewrite Nat.div_add_l by lia. lia. }
    intros fuel cap output Hf Hc. destruct fuel as [|fuel]; [simpl in Hf; lia|]. cbn [b64_loop app].
    rewrite !b64_group_symbol, b64_group_done by zify_div. cbn [mbind outcome_bind]. subst v. rewrite b64_bytes3 by done.
    cbn [mbind outcome_bind length] in Hf, Hc |- *. rewrite (proj2 (Z.ltb_ge _ _)) by lia.
    rewrite IH3 by (cbn [app length] in Hf; lia). done.
Qed.



(** The characters [hexdecode] takes for digits: the test [hi > 16] is made on
    [c - 'a' + 10], which is small from [W] to [g]. *)
Definition hex_accepted (c : Z) : bool := (48 <=? c) && (c <=? 57) || (87 <=? c) && (c <=? 103).

Lemma HEX_accepted c : is_byte c → (16 <? HEX c) = negb (hex_accepted c).
Proof.
  intros Hc. pose proof (forall_below 256 (λ c, Bool.eqb (16 <? HEX c) (negb (hex_accepted c))) c) as H.
  apply Bool.eqb_prop, H; [by vm_compute|done].
Qed.

Lemma fromhex_loop_accepted n : ∀ text,
  (length text <= n)%nat → Forall is_byte text → Nat.Even (length text) →
  if forallb hex_accepted text then ∃ s, fromhex_loop text = Ret s else fromhex_loop text = Throw.
Proof.
  induction n as [|n IH]; intros [|c [|c' text]] Hn Hb He; try (by eexists); try (simpl in Hn; lia).
  { destruct He as [m He]. simpl in He. lia. }
  apply Forall_cons in Hb as [Hc Hb]. apply Forall_cons in Hb as [Hc' Hb].
  assert (He' : Nat.Even (length text)). { destruct He as [m He]. exists (m - 1)%nat. simpl in He. lia. }
  cbn [fromhex_loop forallb]. rewrite !HEX_accepted by done.
  destruct (hex_accepted c); [|done]. destruct (hex_accepted c'); [|done]. cbn [negb orb andb].
  specialize (IH text ltac:(simpl in Hn; lia) Hb He'). destruct (forallb hex_accepted text); [|by rewrite IH].
  destruct IH as [s ->]. by eexists.
Qed.

(** [hexdecode] fails exactly on the texts of odd length and those with a
    character outside [0-9] and [W-g].  The digits of hexadecimal text are among
    these, but so are the ten characters before [a], which count from 0, and the
    letter [g], which has the value 16: [Z`] decodes to the byte 57, and [g0] to
    the byte 0. *)
Theorem hexdecode_domain text :
  Forall is_byte text →
  (lfromhex text = Throw ↔ Nat.Odd (length text) ∨ forallb hex_accepted text = false) ∧
  (lfromhex text ≠ Throw → ∃ s, lfromhex text = Ret s) ∧
  lfromhex (str "Z`") = Ret [57] ∧ lfromhex (str "g0") = Ret [0].
Proof.
  intros Hb. split; [|split; [|done]]; unfold lfromhex; change 1 with (2 ^ 1 - 1); rewrite land_ones_mod by lia.
  all: destruct (Nat.Even_or_Odd (length text)) as [He|Ho].
  all: try (destruct Ho as [m Ho]; replace (Z.of_nat (length text) mod 2 ^ 1) with 1 by zify_div).
  - pose proof (fromhex_loop_accepted _ text (le_n _) Hb He) as H.
    assert (Z.of_nat (length text) mod 2 ^ 1 = 0) as -> by (destruct He as [m He]; zify_div). cbn [c_true Z.eqb negb].
    destruct (forallb hex_accepted text); [|naive_solver]. destruct H as [s ->]. split; [done|].
    intros [Ho|?]; [|done]. by destruct (Nat.Even_Odd_False _ He Ho).
  - split; [intros _; left; by exists m|done].
  - pose proof (fromhex_loop_accepted _ text (le_n _) Hb He) as H.
    assert (Z.of_nat (length text) mod 2 ^ 1 = 0) as -> by (destruct He as [m He]; zify_div). cbn [c_true Z.eqb negb].
    destruct (forallb hex_accepted text); [done|]. by rewrite H.
  - done.
Qed.

Lemma hexdecode_domain_witness :
  (lfromhex (str "0h") = Throw ↔ Nat.Odd 2 ∨ forallb hex_accepted (str "0h") = false) ∧
  (lfromhex (str "0h") ≠ Throw → ∃ s, lfromhex (str "0h") = Ret s) ∧
  lfromhex (str "Z`") = Ret [57] ∧ lfromhex (str "g0") = Ret [0].
Proof. apply (hexdecode_domain (str "0h")). repeat constructor; done. Defined.

(** ** Base64 text that is not an encoding *)

Lemma b64index_Some c : ∃ v, b64index c = Some v.
Proof.
  unfold b64index. case_if; [by eexists|]. case_if; [by eexists|]. bool_prop.
  destruct (zget_is_Some decoding (c - 43)) as [v Hv]; [simpl; lia|by exists v].
Qed.

(** Four symbols use up at least four characters. *)
Lemma b64_group_spec text : ∀ n p,
  b64_group text n p = Throw ∨
  ∃ cs p' rest, b64_group text n p = Ret (cs, p', rest) ∧ length cs = n ∧ (length rest + n <= length text)%nat.
Proof.
  induction text as [|c text IH]; intros [|n] p; [right; eexists _, _, _; split; [done|]; simpl; lia|by left| |].
  { right. eexists _, _, _. split; [done|]. simpl; lia. }
  cbn [b64_group]. destruct (b64index_Some c) as [v ->]. cbn [lift mbind outcome_bind]. case_if.
  - destruct (IH (S n) p) as [->|(cs & p' & rest & -> & ? & ?)]; [by left|right].
    eexists _, _, _. split; [done|]. simpl; lia.
  - destruct (IH n (if v =? -2 then p + 1 else p)) as [->|(cs & p' & rest & -> & ? & ?)]; [by left|right].
    eexists _, _, _. split; [done|]. simpl; lia.
Qed.

Lemma b64_bytes_spec c0 c1 c2 c3 p :
  b64_bytes c0 c1 c2 c3 p = Throw ∨ ∃ b, b64_bytes c0 c1 c2 c3 p = Ret b ∧ (length b <= 3)%nat.
Proof. unfold b64_bytes. repeat case_if; try (by left); right; eexists; (split; [done|simpl; lia]). Qed.

Lemma b64_loop_total fuel : ∀ text sz cap output,
  (length text < fuel)%nat → 0 <= output → 4 * output + 3 * Z.of_nat (length text) <= 3 * sz → (sz + 3) / 4 * 3 <= cap →
  b64_loop fuel text cap output = Throw ∨
  ∃ s, b64_loop fuel text cap output = Ret s ∧ output + Z.of_nat (length s) <= (sz + 3) / 4 * 3.
Proof.
  induction fuel as [|fuel IH]; intros text sz cap output Hf Ho Hs Hc; [lia|]. cbn [b64_loop].
  destruct text as [|c text]; [right; exists []; split; [done|]; simpl in *; zify_div|].
  destruct (b64_group_spec (c :: text) 4 0) as [->|(cs & p & rest & -> & Hcs & Hr)]; [by left|]. cbn [mbind outcome_bind].
  destruct cs as [|c0 [|c1 [|c2 [|c3 [|]]]]]; try done.
  destruct (b64_bytes_spec c0 c1 c2 c3 p) as [->|(b & -> & Hb)]; [by left|]. cbn [mbind outcome_bind].
  rewrite (proj2 (Z.ltb_ge _ _)) by (simpl length in *; zify_div).
  destruct (IH rest sz cap (output + Z.of_nat (length b))) as [->|(s & -> & Hl)]; [simpl length in *; lia..|by left|].
  right. eexists. split; [done|]. rewrite length_app. lia.
Qed.


(** ** Masking twice *)

Lemma xor_loop_twice s1 s2 : ∀ i,
  s2 ≠ [] → 0 <= i → ∃ t, xor_loop s1 s2 i = Ret t ∧ length t = length s1 ∧ xor_loop t s2 i = Ret s1.
Proof.
  induction s1 as [|c s1 IH]; intros i Hs Hi; [by exists []|]. cbn [xor_loop].
  destruct (zget_is_Some s2 (i mod Z.of_nat (length s2))) as [m Hm].
  { destruct s2; [done|]. apply Z.mod_pos_bound. simpl; lia. }
  rewrite Hm. cbn [lift mbind outcome_bind]. destruct (IH (i + 1)) as (t & -> & Hl & Ht); [done|lia|].
  cbn [mbind outcome_bind]. eexists. split; [done|]. split; [simpl; lia|]. cbn [xor_loop]. rewrite Hm.
  cbn [lift mbind outcome_bind]. rewrite Ht. cbn [mbind outcome_bind].
  by rewrite Z.lxor_assoc, Z.lxor_nilpotent, Z.lxor_0_r.
Qed.

Lemma xor_byte_twice c : is_byte c → is_byte (xor_byte c) ∧ xor_byte (xor_byte c) = c.
Proof.
  intros Hc. pose proof (forall_below 256 (λ c, (0 <=? xor_byte c) && (xor_byte c <? 256) && (xor_byte (xor_byte c) =? c)) c) as H.
  specialize (H ltac:(by vm_compute) Hc). cbv beta in H. bool_prop. done.
Qed.

Lemma map_xor_byte_twice s : Forall is_byte s → map xor_byte (map xor_byte s) = s.
Proof. induction 1 as [|c s Hc _ IH]; [done|]. cbn [map]. by rewrite IH, (proj2 (xor_byte_twice c Hc)). Qed.

Lemma copy_out_all s : copy_out s 0 (Z.of_nat (length s)) = Some s.
Proof.
  rewrite copy_out_spec by lia. by rewrite Z2Nat.inj_0, drop_0, Nat2Z.id, firstn_all.
Qed.

(** Both ways of masking data are undone by applying them again: [xor_str]
    with the same key, and [xor_data], on strings and on memory. *)
Theorem masking_roundtrip s key :
  Forall is_byte s → Z.of_nat (length s) < 2 ^ 31 → key ≠ [] →
  (∃ t, lxor_str s key = Ret t ∧ lxor_str t key = Ret s) ∧
  (∃ t, lxor_data (XString s) (Z.of_nat (length s)) = Ret (t, XString s) ∧
        lxor_data (XString t) (Z.of_nat (length t)) = Ret (s, XString t)) ∧
  (∃ t, lxor_data (XPointer s) (Z.of_nat (length s)) = Ret (t, XPointer t) ∧
        lxor_data (XPointer t) (Z.of_nat (length t)) = Ret (s, XPointer s)).
Proof.
  intros Hs Hn Hk. split; [|split].
  - unfold lxor_str. rewrite (proj2 (Z.eqb_neq _ _)) by (destruct key; simpl; [done|lia]).
    destruct (xor_loop_twice s key 0 Hk) as (t & ? & _ & ?); [lia|by exists t].
  - exists (map xor_byte s). unfold lxor_data. rewrite length_map, u64_small by lia.
    rewrite copy_out_all. rewrite <- (length_map xor_byte s), copy_out_all. cbn [lift mbind outcome_bind].
    by rewrite map_xor_byte_twice.
  - exists (map xor_byte s). unfold lxor_data. rewrite length_map, i32_small by lia.
    rewrite copy_out_all. cbn [lift mbind outcome_bind]. rewrite <- (length_map xor_byte s), copy_out_all.
    cbn [lift mbind outcome_bind]. rewrite map_xor_byte_twice by done.
    rewrite !memcpy_to_spec by (rewrite ?length_map; lia). rewrite !Nat2Z.id. cbn [lift mbind outcome_bind].
    rewrite !Z.add_0_l, !Z2Nat.inj_0, !Nat2Z.id, !take_0.
    by rewrite !firstn_all2, !drop_ge, !app_nil_r by (rewrite ?length_map; lia).
Qed.

Lemma masking_roundtrip_witness :
  (∃ t, lxor_str (str "skynet") (str "key") = Ret t ∧ lxor_str t (str "key") = Ret (str "skynet")) ∧
  (∃ t, lxor_data (XString (str "skynet")) 6 = Ret (t, XString (str "skynet")) ∧
        lxor_data (XString t) (Z.of_nat (length t)) = Ret (str "skynet", XString t)) ∧
  (∃ t, lxor_data (XPointer (str "skynet")) 6 = Ret (t, XPointer t) ∧
        lxor_data (XPointer t) (Z.of_nat (length t)) = Ret (str "skynet", XPointer (str "skynet"))).
Proof. apply (masking_roundtrip (str "skynet") (str "key")); [repeat constructor; done|done|done]. Defined.

(** ** Arithmetic modulo [P] *)

Lemma mod_unique a b m : 0 <= a < m → (∃ q, b = q * m + a) → b mod m = a.
Proof. intros Ha [q ->]. rewrite Z.add_comm, Z_mod_plus_full. by apply Z.mod_small. Qed.

Lemma c_true_odd b : c_true (Z.land b 1) = true ↔ b mod 2 = 1.
Proof.
  change 1 with (2 ^ 1 - 1) at 1. rewrite land_ones_mod by lia. unfold c_true. change (2 ^ 1) with 2.
  rewrite negb_true_iff, Z.eqb_neq. zify_div.
Qed.

(** One turn keeps [m + a * b] modulo [P], and [m] reduced. *)
Lemma mul_loop_spec fuel : ∀ n m a b,
  0 <= m < P → 0 <= a <= P → 0 <= b < 2 ^ Z.of_nat n → (n < fuel)%nat → mul_loop fuel m a b = Ret ((m + a * b) mod P).
Proof.
  assert (HP : P = 2 ^ 64 - 59) by done.
  induction fuel as [|fuel IH]; intros n m a b Hm Ha Hb Hn; [lia|]. cbn [mul_loop].
  destruct (Z.eqb_spec b 0) as [->|Hb0]; [by rewrite Z.mul_0_r, Z.add_0_r, Z.mod_small|].
  destruct n as [|n]; [simpl in Hb; lia|]. rewrite Nat2Z.inj_succ, Z.pow_succ_r in Hb by lia.
  rewrite (u64_small (P - a)) by lia.
  set (m' := if c_true _ then _ else m). set (a' := if _ <=? a then _ else _).
  assert (Hm' : 0 <= m' < P ∧ ∃ q, m' = m + (b mod 2) * a - q * P).
  { unfold m'. destruct (c_true (Z.land b 1)) eqn:Eb.
    - apply c_true_odd in Eb as ->. destruct (Z.leb_spec (P - a) m); rewrite u64_small by lia.
      + split; [lia|]. exists 1. lia.
      + split; [lia|]. exists 0. lia.
    - assert (b mod 2 = 0) as ->. { apply not_true_iff_false in Eb. rewrite c_true_odd in Eb. zify_div. }
      split; [lia|]. exists 0. lia. }
  assert (Ha' : 0 <= a' <= P ∧ ∃ q, a' = 2 * a - q * P).
  { unfold a'. destruct (Z.leb_spec (P - a) a); rewrite u64_small by lia.
    - split; [lia|]. exists 1. lia.
    - split; [lia|]. exists 0. lia. }
  destruct Hm' as [Hm' [q Eq]], Ha' as [Ha' [q' Eq']]. rewrite Z.shiftr_div_pow2 by lia. change (2 ^ 1) with 2.
  rewrite (IH n) by (done || lia || zify_div). f_equal.
  rewrite Eq, Eq'. pose proof (Z.div_mod b 2 ltac:(lia)) as Hd.
  replace (m + b mod 2 * a - q * P + (2 * a - q' * P) * (b / 2))
    with (m + a * (2 * (b / 2) + b mod 2) + (- q - q' * (b / 2)) * P) by ring.
  by rewrite Z_mod_plus_full, <- Hd.
Qed.

Lemma mul_mod_p_spec a b : 0 <= a <= P → 0 <= b < 2 ^ 64 → mul_mod_p a b = Ret (a * b mod P).
Proof. intros Ha Hb. unfold mul_mod_p. by rewrite (mul_loop_spec 65 64) by (done || lia). Qed.

(** A step of the recursion: square, and multiply once more for an odd exponent. *)
Lemma pow_square_spec t a b :
  0 <= t <= P → 0 <= a <= P → 2 <= b → t mod P = a ^ (b / 2) mod P →
  (t ← mul_mod_p t t; if c_true (b mod 2) then mul_mod_p t a else Ret t) = Ret (a ^ b mod P).
Proof.
  assert (HP : 0 < P < 2 ^ 64) by done. intros Ht Ha Hb Et. rewrite mul_mod_p_spec by lia.
  assert (Hd : b = 2 * (b / 2) + b mod 2 ∧ 1 <= b / 2 ∧ (b mod 2 = 0 ∨ b mod 2 = 1)).
  { clear - Hb. zify_div. }
  destruct Hd as (Hd & Hb2 & Hodd).
  assert (Esq : t * t mod P = a ^ (2 * (b / 2)) mod P).
  { rewrite Z.mul_mod, Et, <- Z.mul_mod, <- Z.pow_add_r by lia. by rewrite Z.add_diag. }
  pose proof (Z.mod_pos_bound (t * t) P ltac:(lia)). cbn [mbind outcome_bind].
  unfold c_true. destruct (Z.eqb_spec (b mod 2) 0) as [E|E]; cbn [negb].
  - replace (2 * (b / 2)) with b in Esq by lia. by rewrite Esq.
  - rewrite mul_mod_p_spec by lia. rewrite Z.mul_mod_idemp_l by lia.
    rewrite Z.mul_mod, Esq, <- Z.mul_mod by lia.
    replace (a ^ b) with (a ^ (2 * (b / 2) + 1)) by (f_equal; lia). by rewrite Z.pow_add_r, Z.pow_1_r by lia.
Qed.

Lemma pow_loop_S fuel a b :
  pow_loop (S fuel) a b =
  if b =? 1 then Ret a
  else t ← pow_loop fuel a (Z.shiftr b 1); t ← mul_mod_p t t; if c_true (b mod 2) then mul_mod_p t a else Ret t.
Proof. done. Qed.

(** [pow_mod_p] computes a representative of the power, reduced except that it
    returns its argument when the exponent is 1. *)
Lemma pow_loop_spec fuel : ∀ a b,
  0 <= a <= P → 1 <= b < 2 ^ Z.of_nat fuel → pow_loop fuel a b = Ret (if b =? 1 then a else a ^ b mod P).
Proof.
  assert (HP : 0 < P < 2 ^ 64) by done.
  induction fuel as [|fuel IH]; intros a b Ha Hb; [simpl in Hb; lia|]. rewrite pow_loop_S.
  destruct (Z.eqb_spec b 1) as [->|Hb1]; [done|].
  rewrite Nat2Z.inj_succ, Z.pow_succ_r in Hb by lia.
  rewrite (Z.shiftr_div_pow2 b 1), Z.pow_1_r, IH by (done || clear - Hb Hb1; zify_div).
  rewrite outcome_ret_bind. apply pow_square_spec; [|done|lia|].
  - case_if; [done|]. pose proof (Z.mod_pos_bound (a ^ (b / 2)) P). lia.
  - destruct (Z.eqb_spec (b / 2) 1) as [->|_]; [by rewrite Z.pow_1_r|]. apply Z.mod_mod. lia.
Qed.

(** [powmodp] on the whole range of its arguments; the exponent is not 0. *)
Lemma powmodp_spec a b :
  0 <= a < 2 ^ 64 → 1 <= b < 2 ^ 64 → powmodp a b = Ret (if (a =? P) && (b =? 1) then P else a ^ b mod P).
Proof.
  assert (HP : 0 < P < 2 ^ 64) by done.
  intros Ha Hb. unfold powmodp, pow_mod_p. destruct (Z.ltb_spec P a).
  - rewrite pow_loop_spec by (done || pose proof (Z.mod_pos_bound a P); lia). rewrite (proj2 (Z.eqb_neq a P)) by lia.
    cbn [andb]. destruct (Z.eqb_spec b 1) as [->|Hb1]; [by rewrite Z.pow_1_r|]. f_equal. symmetry. apply Zpower_mod. lia.
  - rewrite pow_loop_spec by (done || lia). destruct (Z.eqb_spec b 1) as [->|Hb1]; [|by rewrite andb_false_r].
    rewrite andb_true_r, Z.pow_1_r. destruct (Z.eqb_spec a P) as [->|]; [done|]. by rewrite Z.mod_small by lia.
Qed.



(** ** Key exchange *)

Lemma get32_bytes b0 b1 b2 b3 pre post i :
  i = Z.of_nat (length pre) → is_byte b0 → is_byte b1 → is_byte b2 → is_byte b3 →
  get32 (pre ++ [b0; b1; b2; b3] ++ post) i = Some (b0 + b1 * 2 ^ 8 + b2 * 2 ^ 16 + b3 * 2 ^ 24).
Proof.
  unfold is_byte. intros -> H0 H1 H2 H3. unfold get32.
  assert (Hz : ∀ j, zget (pre ++ [b0; b1; b2; b3] ++ post) (Z.of_nat (length pre) + Z.of_nat j) = ([b0; b1; b2; b3] ++ post) !! j).
  { intros j. rewrite <- Nat2Z.inj_add, zget_nat. rewrite lookup_app_r by lia. f_equal. lia. }
  pose proof (Hz 0%nat) as E0. rewrite Z.add_0_r in E0.
  rewrite E0, (Hz 1%nat : zget _ (_ + 1) = _), (Hz 2%nat : zget _ (_ + 2) = _), (Hz 3%nat : zget _ (_ + 3) = _).
  cbn [app lookup list_lookup mbind option_bind]. rewrite !Z.shiftl_mul_pow2 by lia.
  rewrite (lor_add_high b0 b1 8), (lor_add_high _ b2 16), (lor_add_high _ b3 24) by lia.
  by rewrite u32_small by lia.
Qed.

(** Eight bytes that are a number, lowest byte first. *)
Definition is_key (s : bytes) (v : Z) : Prop :=
  0 <= v < 2 ^ 64 ∧ s = (λ i, v / 2 ^ (8 * i) mod 2 ^ 8) <$> [0; 1; 2; 3; 4; 5; 6; 7].

Lemma word_pair_key s v : is_key s v → ∃ x, word_pair s = Ret x ∧ qword x = v.
Proof.
  intros [Hv ->]. unfold word_pair. cbn [fmap list_fmap length].
  pose proof (get32_bytes (v / 2 ^ (8 * 0) mod 2 ^ 8) (v / 2 ^ (8 * 1) mod 2 ^ 8) (v / 2 ^ (8 * 2) mod 2 ^ 8)
    (v / 2 ^ (8 * 3) mod 2 ^ 8) [] ((λ i, v / 2 ^ (8 * i) mod 2 ^ 8) <$> [4; 5; 6; 7]) 0) as Hlow.
  pose proof (get32_bytes (v / 2 ^ (8 * 4) mod 2 ^ 8) (v / 2 ^ (8 * 5) mod 2 ^ 8) (v / 2 ^ (8 * 6) mod 2 ^ 8)
    (v / 2 ^ (8 * 7) mod 2 ^ 8) ((λ i, v / 2 ^ (8 * i) mod 2 ^ 8) <$> [0; 1; 2; 3]) [] 4) as Hhigh.
  cbn [fmap list_fmap app] in Hlow, Hhigh. unfold is_byte in *.
  rewrite Hlow, Hhigh by (done || apply Z.mod_pos_bound; lia). clear Hlow Hhigh.
  eexists. split; [done|]. unfold qword. cbn [fst snd]. rewrite Z.shiftl_mul_pow2, lor_add_high by zify_div. zify_div.
Qed.

Lemma push64_key v : 0 <= v < 2 ^ 64 → is_key (push64 v) v.
Proof.
  intros Hv. split; [done|]. unfold push64. rewrite !land_255, !Z.shiftr_div_pow2 by lia.
  cbn [fmap list_fmap]. by rewrite Z.div_1_r.
Qed.

(** Powers of the generator are not 0, because 5 does not divide [P]. *)
Lemma power_nonzero b : 1 <= b → G ^ b mod P ≠ 0.
Proof.
  intros Hb H. apply Z.mod_divide in H; [|done].
  assert (Hr : rel_prime (G ^ b) P).
  { apply rel_prime_sym, rel_prime_Zpower_r; [lia|]. apply Zgcd_1_rel_prime. by vm_compute. }
  assert (H1 : (P | 1)). { apply Hr; [done|]. apply Z.divide_refl. }
  apply Z.divide_1_r_nonneg in H1; [|done]. by vm_compute in H1.
Qed.

Lemma ldhexchange_spec s v : is_key s v → v ≠ 0 → ldhexchange s = Ret (push64 (G ^ v mod P)).
Proof.
  intros Hk Hv. destruct (word_pair_key s v Hk) as (x & Hx & Hq). destruct Hk as [Hr _]. unfold ldhexchange.
  rewrite Hx, outcome_ret_bind. cbv zeta. rewrite Hq, (proj2 (Z.eqb_neq v 0)) by done.
  by rewrite powmodp_spec, outcome_ret_bind by (done || lia).
Qed.

Lemma ldhsecret_spec s t a b : is_key s a → is_key t b → a ≠ 0 → b ≠ 0 → a ≠ P → ldhsecret s t = Ret (push64 (a ^ b mod P)).
Proof.
  intros Hs Ht Ha Hb HP. destruct (word_pair_key s a Hs) as (x & Hx & Hqx). destruct (word_pair_key t b Ht) as (y & Hy & Hqy).
  destruct Hs as [Hs _], Ht as [Ht _]. unfold ldhsecret, read64. rewrite Hx, Hy, !outcome_ret_bind. cbv beta zeta iota.
  rewrite Hqx, Hqy, (proj2 (Z.eqb_neq a 0)), (proj2 (Z.eqb_neq b 0)) by done. cbn [orb].
  rewrite powmodp_spec by lia. rewrite (proj2 (Z.eqb_neq a P)) by done. by rewrite outcome_ret_bind.
Qed.

(** C27. The two sides of a key exchange agree.  Each has a secret of 8 bytes
    that is not 0 and sends [dhexchange] of it; neither call fails, and
    [dhsecret] of what was received and the own secret is the same string on
    both sides. *)
Theorem dh_agreement s t a b :
  is_key s a → is_key t b → a ≠ 0 → b ≠ 0 →
  ∃ S T secret, ldhexchange s = Ret S ∧ ldhexchange t = Ret T ∧ ldhsecret S t = Ret secret ∧ ldhsecret T s = Ret secret.
Proof.
  intros Hs Ht Ha Hb. assert (HP : 0 < P < 2 ^ 64) by done.
  assert (Hpow : ∀ v, 1 <= v → is_key (push64 (G ^ v mod P)) (G ^ v mod P) ∧ G ^ v mod P ≠ 0 ∧ G ^ v mod P ≠ P).
  { intros v Hv. pose proof (Z.mod_pos_bound (G ^ v) P). split; [apply push64_key; lia|].
    split; [by apply power_nonzero|lia]. }
  destruct (Hpow a) as (Ka & Na & La); [destruct Hs; lia|]. destruct (Hpow b) as (Kb & Nb & Lb); [destruct Ht; lia|].
  eexists _, _, _. split; [by apply ldhexchange_spec|]. split; [by apply ldhexchange_spec|].
  split; [by apply ldhsecret_spec|]. rewrite (ldhsecret_spec _ s _ a) by done. do 2 f_equal.
  destruct Hs as [Hs _], Ht as [Ht _].
  rewrite <- !Zpower_mod, <- !Z.pow_mul_r by lia. by rewrite Z.mul_comm.
Qed.

Lemma dh_agreement_witness :
  ∃ S T secret, ldhexchange (push64 3) = Ret S ∧ ldhexchange (push64 7) = Ret T ∧
    ldhsecret S (push64 7) = Ret secret ∧ ldhsecret T (push64 3) = Ret secret.
Proof. apply (dh_agreement (push64 3) (push64 7) 3 7); [by split; vm_compute|by split; vm_compute|done|done]. Defined.

(** ** Sizes of hashes *)

(** A string of 8 bytes, as the keys are. *)
Definition is_key8 (s : bytes) : Prop := length s = 8%nat ∧ Forall is_byte s.

Lemma put32_bytes x : Forall is_byte (put32 x).
Proof.
  unfold put32. rewrite !land_255. unfold is_byte. repeat apply List.Forall_cons; try apply Z.mod_pos_bound; done.
Qed.

Lemma is_key8_put32 x y : is_key8 (put32 x ++ put32 y).
Proof. split; [done|]. apply Forall_app; split; apply put32_bytes. Qed.

Lemma get32_Some b i : 0 <= i → i + 4 <= Z.of_nat (length b) → ∃ v, get32 b i = Some v.
Proof.
  intros H0 H. unfold get32. destruct (zget_is_Some b i) as [? ->]; [lia|].
  destruct (zget_is_Some b (i + 1)) as [? ->]; [lia|]. destruct (zget_is_Some b (i + 2)) as [? ->]; [lia|].
  destruct (zget_is_Some b (i + 3)) as [? ->]; [lia|]. by eexists.
Qed.

Lemma word_pair_spec s : if Z.of_nat (length s) =? 8 then ∃ x, word_pair s = Ret x else word_pair s = Throw.
Proof.
  unfold word_pair. destruct (Z.eqb_spec (Z.of_nat (length s)) 8); [|done]. cbn [negb].
  destruct (get32_Some s 0) as [x0 ->]; [lia..|]. destruct (get32_Some s 4) as [x1 ->]; [lia..|]. by eexists.
Qed.

Lemma hmac_loop_total n : ∀ i w a b c d,
  0 <= i → i + Z.of_nat n <= 64 → length w = 16%nat → ∃ q, hmac_loop n i w a b c d = Some q.
Proof.
  induction n as [|n IH]; intros i w a b c d Hi Hn Hw; [by eexists|]. cbn [hmac_loop].
  destruct (zget_is_Some k i) as [? ->]; [cbn [length k]; lia|].
  destruct (zget_is_Some w (hmac_g i)) as [? ->]. { rewrite Hw. unfold hmac_g. repeat case_if; bool_prop; zify_div. }
  destruct (zget_is_Some r i) as [? ->]; [cbn [length r]; lia|]. cbn [mbind option_bind]. apply IH; [lia..|done].
Qed.

Lemma hmac_total x y : ∃ q, hmac x y = Some q.
Proof.
  unfold hmac. edestruct hmac_loop_total as [[[[a b] c] d] Hq]; [| | |rewrite Hq; by eexists]; done.
Qed.

