(* ===== verification/Sha1.v ===== *)
(** * SHA-1 (lualib-src/lsha1.c)

    The hash function of the crypt library and the message authentication code
    built on it.  The C code expands the message schedule in place, in a ring of
    16 words, renames the five working variables instead of moving them, and takes
    a message in pieces of any length.  The file shows that all this computes
    SHA-1 as FIPS 180-4 defines it, and HMAC as RFC 2104 does, up to a length at
    which the count of bits goes wrong.  The machine is little-endian. *)

From stdpp Require Import prelude list strings.
From S2P Require Import Prelude CString DataBuffer Des Crypt.

(** ** Data *)

(** [SHA1_CTX] *)
Record SHA1_CTX := { state : list Z; count0 : Z; count1 : Z; buffer : bytes }.

#[export] Instance eta_SHA1_CTX : Eta SHA1_CTX := λ c,
  {| state := state c; count0 := count0 c; count1 := count1 c; buffer := buffer c |}.

Definition SHA1_DIGEST_SIZE : Z := 20.

Definition rol (value bits : Z) : Z := u32 (Z.lor (Z.shiftl value bits) (Z.shiftr value (32 - bits))).

(** The working variables and the block. *)
Inductive var := Va | Vb | Vc | Vd | Ve.

Record working := { ra : Z; rb : Z; rc : Z; rd : Z; re : Z; block : list Z }.

#[export] Instance eta_working : Eta working := λ s,
  {| ra := ra s; rb := rb s; rc := rc s; rd := rd s; re := re s; block := block s |}.

Definition get_var (v : var) (s : working) : Z :=
  match v with Va => ra s | Vb => rb s | Vc => rc s | Vd => rd s | Ve => re s end.

Definition set_var (v : var) (n : Z) (s : working) : working :=
  match v with
  | Va => s <| ra := n |> | Vb => s <| rb := n |> | Vc => s <| rc := n |> | Vd => s <| rd := n |> | Ve => s <| re := n |>
  end.

(** [block.l[i]] *)
Definition bl (i : Z) (s : working) : Z := block s !!! Z.to_nat i.

Definition set_bl (i n : Z) (s : working) : working := s <| block := <[Z.to_nat i := n]> (block s) |>.

(** ** The block function *)

(** The macros assign a word of the block and have its value. *)
Definition blk0 (i : Z) (s : working) : Z * working :=
  let n := Z.lor (Z.land (rol (bl i s) 24) 0xFF00FF00) (Z.land (rol (bl i s) 8) 0x00FF00FF) in
  (n, set_bl i n s).

Definition blk (i : Z) (s : working) : Z * working :=
  let n := rol (Z.lxor (Z.lxor (Z.lxor (bl (Z.land (i + 13) 15) s) (bl (Z.land (i + 8) 15) s)) (bl (Z.land (i + 2) 15) s))
                  (bl (Z.land i 15) s)) 1 in
  (n, set_bl (Z.land i 15) n s).

(** The common form of the macros [R0] to [R4]. *)
Definition R (f : Z → Z → Z → Z) (word : Z → working → Z * working) (k : Z) (v w x y z : var) (i : Z) (s : working) : working :=
  let '(b, s) := word i s in
  let s := set_var z (u32 (get_var z s + (f (get_var w s) (get_var x s) (get_var y s) + b + k + rol (get_var v s) 5))) s in
  set_var w (rol (get_var w s) 30) s.

Definition f0 (w x y : Z) : Z := Z.lxor (Z.land w (Z.lxor x y)) y.
Definition f2 (w x y : Z) : Z := Z.lxor (Z.lxor w x) y.
Definition f3 (w x y : Z) : Z := Z.lor (Z.land (Z.lor w x) y) (Z.land w x).

Inductive macro := R0 | R1 | R2 | R3 | R4.

Definition run_macro (m : macro) : var → var → var → var → var → Z → working → working :=
  match m with
  | R0 => R f0 blk0 0x5A827999
  | R1 => R f0 blk 0x5A827999
  | R2 => R f2 blk 0x6ED9EBA1
  | R3 => R f3 blk 0x8F1BBCDC
  | R4 => R f2 blk 0xCA62C1D6
  end.

Definition round_call : Type := macro * var * var * var * var * var * Z.

(** The 80 operations. *)
Definition rounds : list round_call :=
  [ (R0, Va, Vb, Vc, Vd, Ve, 0); (R0, Ve, Va, Vb, Vc, Vd, 1); (R0, Vd, Ve, Va, Vb, Vc, 2); (R0, Vc, Vd, Ve, Va, Vb, 3);
    (R0, Vb, Vc, Vd, Ve, Va, 4); (R0, Va, Vb, Vc, Vd, Ve, 5); (R0, Ve, Va, Vb, Vc, Vd, 6); (R0, Vd, Ve, Va, Vb, Vc, 7);
    (R0, Vc, Vd, Ve, Va, Vb, 8); (R0, Vb, Vc, Vd, Ve, Va, 9); (R0, Va, Vb, Vc, Vd, Ve, 10); (R0, Ve, Va, Vb, Vc, Vd, 11);
    (R0, Vd, Ve, Va, Vb, Vc, 12); (R0, Vc, Vd, Ve, Va, Vb, 13); (R0, Vb, Vc, Vd, Ve, Va, 14); (R0, Va, Vb, Vc, Vd, Ve, 15);
    (R1, Ve, Va, Vb, Vc, Vd, 16); (R1, Vd, Ve, Va, Vb, Vc, 17); (R1, Vc, Vd, Ve, Va, Vb, 18); (R1, Vb, Vc, Vd, Ve, Va, 19);
    (R2, Va, Vb, Vc, Vd, Ve, 20); (R2, Ve, Va, Vb, Vc, Vd, 21); (R2, Vd, Ve, Va, Vb, Vc, 22); (R2, Vc, Vd, Ve, Va, Vb, 23);
    (R2, Vb, Vc, Vd, Ve, Va, 24); (R2, Va, Vb, Vc, Vd, Ve, 25); (R2, Ve, Va, Vb, Vc, Vd, 26); (R2, Vd, Ve, Va, Vb, Vc, 27);
    (R2, Vc, Vd, Ve, Va, Vb, 28); (R2, Vb, Vc, Vd, Ve, Va, 29); (R2, Va, Vb, Vc, Vd, Ve, 30); (R2, Ve, Va, Vb, Vc, Vd, 31);
    (R2, Vd, Ve, Va, Vb, Vc, 32); (R2, Vc, Vd, Ve, Va, Vb, 33); (R2, Vb, Vc, Vd, Ve, Va, 34); (R2, Va, Vb, Vc, Vd, Ve, 35);
    (R2, Ve, Va, Vb, Vc, Vd, 36); (R2, Vd, Ve, Va, Vb, Vc, 37); (R2, Vc, Vd, Ve, Va, Vb, 38); (R2, Vb, Vc, Vd, Ve, Va, 39);
    (R3, Va, Vb, Vc, Vd, Ve, 40); (R3, Ve, Va, Vb, Vc, Vd, 41); (R3, Vd, Ve, Va, Vb, Vc, 42); (R3, Vc, Vd, Ve, Va, Vb, 43);
    (R3, Vb, Vc, Vd, Ve, Va, 44); (R3, Va, Vb, Vc, Vd, Ve, 45); (R3, Ve, Va, Vb, Vc, Vd, 46); (R3, Vd, Ve, Va, Vb, Vc, 47);
    (R3, Vc, Vd, Ve, Va, Vb, 48); (R3, Vb, Vc, Vd, Ve, Va, 49); (R3, Va, Vb, Vc, Vd, Ve, 50); (R3, Ve, Va, Vb, Vc, Vd, 51);
    (R3, Vd, Ve, Va, Vb, Vc, 52); (R3, Vc, Vd, Ve, Va, Vb, 53); (R3, Vb, Vc, Vd, Ve, Va, 54); (R3, Va, Vb, Vc, Vd, Ve, 55);
    (R3, Ve, Va, Vb, Vc, Vd, 56); (R3, Vd, Ve, Va, Vb, Vc, 57); (R3, Vc, Vd, Ve, Va, Vb, 58); (R3, Vb, Vc, Vd, Ve, Va, 59);
    (R4, Va, Vb, Vc, Vd, Ve, 60); (R4, Ve, Va, Vb, Vc, Vd, 61); (R4, Vd, Ve, Va, Vb, Vc, 62); (R4, Vc, Vd, Ve, Va, Vb, 63);
    (R4, Vb, Vc, Vd, Ve, Va, 64); (R4, Va, Vb, Vc, Vd, Ve, 65); (R4, Ve, Va, Vb, Vc, Vd, 66); (R4, Vd, Ve, Va, Vb, Vc, 67);
    (R4, Vc, Vd, Ve, Va, Vb, 68); (R4, Vb, Vc, Vd, Ve, Va, 69); (R4, Va, Vb, Vc, Vd, Ve, 70); (R4, Ve, Va, Vb, Vc, Vd, 71);
    (R4, Vd, Ve, Va, Vb, Vc, 72); (R4, Vc, Vd, Ve, Va, Vb, 73); (R4, Vb, Vc, Vd, Ve, Va, 74); (R4, Va, Vb, Vc, Vd, Ve, 75);
    (R4, Ve, Va, Vb, Vc, Vd, 76); (R4, Vd, Ve, Va, Vb, Vc, 77); (R4, Vc, Vd, Ve, Va, Vb, 78); (R4, Vb, Vc, Vd, Ve, Va, 79) ].

Definition run_call (s : working) (c : round_call) : working :=
  let '(m, v, w, x, y, z, i) := c in run_macro m v w x y z i s.

(** [memcpy(&block, buffer, 64)], seen as words. *)
Definition load_block (b : bytes) : option (list Z) := mapM (λ i, get32 b (4 * Z.of_nat i)) (seq 0 16).

Definition SHA1_Transform (st : list Z) (b : bytes) : option (list Z) :=
  l ← load_block b;
  match st with
  | [a; b; c; d; e] =>
      let s := foldl run_call {| ra := a; rb := b; rc := c; rd := d; re := e; block := l |} rounds in
      Some [u32 (a + ra s); u32 (b + rb s); u32 (c + rc s); u32 (d + rd s); u32 (e + re s)]
  | _ => None
  end.

(** ** Messages *)

(** The buffer is not initialised. *)
Definition sat_SHA1_Init (buffer : bytes) : SHA1_CTX :=
  {| state := [0x67452301; 0xEFCDAB89; 0x98BADCFE; 0x10325476; 0xC3D2E1F0]; count0 := 0; count1 := 0; buffer := buffer |}.

(** The count of bits; [len << 3] has the 64 bits of a [size_t]. *)
Definition update_count (len : Z) (c : SHA1_CTX) : SHA1_CTX :=
  let c := c <| count0 := u32 (count0 c + u64 (Z.shiftl len 3)) |> in
  let c := if count0 c <? u64 (Z.shiftl len 3) then c <| count1 := u32 (count1 c + 1) |> else c in
  c <| count1 := u32 (count1 c + Z.shiftr len 29) |>.

(** The loop over the whole blocks of [data], [i] bytes of which are used. *)
Fixpoint update_loop (fuel : nat) (data : bytes) (len i : Z) (st : list Z) : option (Z * list Z) :=
  match fuel with
  | 0%nat => None
  | S fuel =>
      if i + 63 <? len then
        b ← copy_out data i 64;
        st ← SHA1_Transform st b;
        update_loop fuel data len (i + 64) st
      else Some (i, st)
  end.

Definition sat_SHA1_Update (c : SHA1_CTX) (data : bytes) : option SHA1_CTX :=
  let len := Z.of_nat (length data) in
  let j := Z.land (Z.shiftr (count0 c) 3) 63 in
  let c := update_count len c in
  '(i, j, c) ←
    (if 63 <? j + len then
       let i := 64 - j in
       buf ← memcpy_to (buffer c) j data i;
       st ← SHA1_Transform (state c) buf;
       '(i, st) ← update_loop (S (length data)) data len i st;
       Some (i, 0, c <| buffer := buf |> <| state := st |>)
     else Some (0, j, c));
  rest ← copy_out data i (len - i);
  buf ← memcpy_to (buffer c) j rest (len - i);
  Some (c <| buffer := buf |>).

Definition finalcount (c : SHA1_CTX) : bytes :=
  (λ i, Z.land (Z.shiftr (if 4 <=? i then count0 c else count1 c) ((3 - Z.land i 3) * 8)) 255) <$> seqZ 0 8.

(** The loop that appends zeros. *)
Fixpoint pad_loop (fuel : nat) (c : SHA1_CTX) : option SHA1_CTX :=
  match fuel with
  | 0%nat => None
  | S fuel => if negb (Z.land (count0 c) 504 =? 448) then c ← sat_SHA1_Update c [0]; pad_loop fuel c else Some c
  end.

(** The digest; at most 63 zeros are appended. *)
Definition sat_SHA1_Final (c : SHA1_CTX) : option bytes :=
  let finalcount := finalcount c in
  c ← sat_SHA1_Update c [0x80];
  c ← pad_loop 64 c;
  c ← sat_SHA1_Update c finalcount;
  Some ((λ i, u8 (Z.land (Z.shiftr (state c !!! Z.to_nat (Z.shiftr i 2)) ((3 - Z.land i 3) * 8)) 255)) <$> seqZ 0 SHA1_DIGEST_SIZE).

(** [garbage] is what the buffer of the context holds at first. *)
Definition lsha1 (garbage text : bytes) : option bytes :=
  c ← sat_SHA1_Update (sat_SHA1_Init garbage) text; sat_SHA1_Final c.

(** ** HMAC *)

Definition BLOCKSIZE : Z := 64.

Fixpoint xor_key_loop (n : nat) (i : Z) (key : bytes) (x : Z) : option bytes :=
  match n with
  | 0%nat => Some key
  | S n =>
      k ← get32 key i;
      key ← memcpy_to key i (put32 (Z.lxor k x)) 4;
      xor_key_loop n (i + 4) key x
  end.

Definition xor_key (key : bytes) (x : Z) : option bytes := xor_key_loop 16 0 key x.

Definition lhmac_sha1 (garbage key text : bytes) : option bytes :=
  let rkey := replicate (Z.to_nat BLOCKSIZE) 0 in
  rkey ←
    (if BLOCKSIZE <? Z.of_nat (length key) then
       c ← sat_SHA1_Update (sat_SHA1_Init garbage) key;
       digest ← sat_SHA1_Final c;
       memcpy_to rkey 0 digest SHA1_DIGEST_SIZE
     else memcpy_to rkey 0 key (Z.of_nat (length key)));
  rkey ← xor_key rkey 0x5c5c5c5c;
  ctx1 ← sat_SHA1_Update (sat_SHA1_Init garbage) rkey;
  rkey ← xor_key rkey (Z.lxor 0x5c5c5c5c 0x36363636);
  ctx2 ← sat_SHA1_Update (sat_SHA1_Init garbage) rkey;
  ctx2 ← sat_SHA1_Update ctx2 text;
  digest2 ← sat_SHA1_Final ctx2;
  ctx1 ← sat_SHA1_Update ctx1 digest2;
  sat_SHA1_Final ctx1.
(** ** The standard *)

(** FIPS 180-4: functions, constants and rotation of section 4 and 3.2. *)
Definition Ch (x y z : Z) : Z := Z.lxor (Z.land x y) (Z.land (Z.lnot x) z).
Definition Parity (x y z : Z) : Z := Z.lxor (Z.lxor x y) z.
Definition Maj (x y z : Z) : Z := Z.lxor (Z.lxor (Z.land x y) (Z.land x z)) (Z.land y z).

Definition ft (t : nat) : Z → Z → Z → Z :=
  if (t <? 20)%nat then Ch else if (t <? 40)%nat then Parity else if (t <? 60)%nat then Maj else Parity.

Definition Kt (t : nat) : Z :=
  if (t <? 20)%nat then 0x5a827999 else if (t <? 40)%nat then 0x6ed9eba1 else if (t <? 60)%nat then 0x8f1bbcdc else 0xca62c1d6.

Definition be_value (b : bytes) : Z := foldl (λ acc x, acc * 256 + x) 0 b.

(** The words of a block and the message schedule of section 6.1.2. *)
Definition block_words (b : bytes) : list Z := (λ i, be_value (take 4 (drop (4 * i) b))) <$> seq 0 16.

Definition next_word (w : list Z) : Z :=
  let t := length w in
  rol (Z.lxor (Z.lxor (Z.lxor (w !!! (t - 3)%nat) (w !!! (t - 8)%nat)) (w !!! (t - 14)%nat)) (w !!! (t - 16)%nat)) 1.

Fixpoint schedule_from (n : nat) (w : list Z) : list Z :=
  match n with 0%nat => w | S n => schedule_from n (w ++ [next_word w]) end.

Definition schedule (b : bytes) : list Z := schedule_from 64 (block_words b).

Definition five : Type := Z * Z * Z * Z * Z.

Definition sha_round (W : list Z) (h : five) (t : nat) : five :=
  let '(a, b, c, d, e) := h in (u32 (rol a 5 + ft t b c d + e + Kt t + (W !!! t)), a, rol b 30, c, d).

Definition compress (H : list Z) (b : bytes) : list Z :=
  match H with
  | [h0; h1; h2; h3; h4] =>
      let '(a, b, c, d, e) := foldl (sha_round (schedule b)) (h0, h1, h2, h3, h4) (seq 0 80) in
      [u32 (a + h0); u32 (b + h1); u32 (c + h2); u32 (d + h3); u32 (e + h4)]
  | _ => H
  end.

Definition init_hash : list Z := [0x67452301; 0xefcdab89; 0x98badcfe; 0x10325476; 0xc3d2e1f0].

(** The hash of a message of whole blocks. *)
Fixpoint hash_blocks (n : nat) (H : list Z) (m : bytes) : list Z :=
  match n with 0%nat => H | S n => hash_blocks n (compress H (take 64 m)) (drop 64 m) end.

(** The padding of section 5.1.1: a one bit, zeros, and the length in bits. *)
Definition padded (m : bytes) : bytes :=
  m ++ [0x80] ++ replicate (Z.to_nat ((55 - Z.of_nat (length m)) mod 64)) 0 ++ be_bytes 8 (8 * Z.of_nat (length m)).

Definition sha1 (m : bytes) : bytes :=
  mjoin (be_bytes 4 <$> hash_blocks (length (padded m) / 64) init_hash (padded m)).

(** RFC 2104. *)
Definition hmac_sha1 (key text : bytes) : bytes :=
  let k := if 64 <? Z.of_nat (length key) then sha1 key else key in
  let k := k ++ replicate (64 - length k) 0 in
  sha1 (map (Z.lxor 0x5c) k ++ sha1 (map (Z.lxor 0x36) k ++ text)).

(** ** The rounds *)

Lemma byte_bits b n : is_byte b → 8 <= n → Z.testbit b n = false.
Proof.
  intros Hb Hn. destruct (decide (b = 0)) as [->|]; [apply Z.bits_0|]. apply Z.bits_above_log2; [apply Hb|].
  assert (Z.log2 b < 8); [|lia]. apply Z.log2_lt_pow2; [unfold is_byte in Hb; lia|apply Hb].
Qed.

Lemma word_bits x n : is_u32 x → 32 <= n → Z.testbit x n = false.
Proof.
  intros Hx Hn. rewrite <- (Z.mod_small x (2 ^ 32)) by apply Hx. apply Z.mod_pow2_bits_high. lia.
Qed.

Lemma f0_Ch w x y : f0 w x y = Ch w x y.
Proof.
  apply Z.bits_inj'. intros n Hn. unfold f0, Ch. rewrite ?Z.lxor_spec, ?Z.land_spec, ?Z.lxor_spec, ?Z.lnot_spec by done.
  by destruct (Z.testbit w n), (Z.testbit x n), (Z.testbit y n).
Qed.

Lemma f3_Maj w x y : f3 w x y = Maj w x y.
Proof.
  apply Z.bits_inj'. intros n Hn. unfold f3, Maj. rewrite ?Z.lxor_spec, ?Z.lor_spec, ?Z.land_spec, ?Z.lor_spec.
  by destruct (Z.testbit w n), (Z.testbit x n), (Z.testbit y n).
Qed.

(** The bits of a byte at a position of a word. *)
Lemma le_word_bits b0 b1 b2 b3 n :
  is_byte b0 → is_byte b1 → is_byte b2 → is_byte b3 → 0 <= n < 32 →
  Z.testbit (u32 (Z.lor (Z.lor (Z.lor b0 (Z.shiftl b1 8)) (Z.shiftl b2 16)) (Z.shiftl b3 24))) n =
  if n <? 8 then Z.testbit b0 (n mod 8) else if n <? 16 then Z.testbit b1 (n mod 8)
  else if n <? 24 then Z.testbit b2 (n mod 8) else Z.testbit b3 (n mod 8).
Proof.
  intros B0 B1 B2 B3 Hn. unfold u32. rewrite Z.mod_pow2_bits_low, !Z.lor_spec, !Z.shiftl_spec by lia.
  assert (Hneg : ∀ b k, k < 0 → Z.testbit b k = false) by (intros; by apply Z.testbit_neg_r).
  repeat case_if; rewrite ?(byte_bits b0 n), ?(byte_bits b1 (n - 8)), ?(byte_bits b2 (n - 16)),
    ?(Hneg b1 (n - 8)), ?(Hneg b2 (n - 16)), ?(Hneg b3 (n - 24)) by (done || lia);
    rewrite ?orb_false_r, ?orb_false_l; f_equal; zify_div; lia.
Qed.

Lemma rol_bits x k n : is_u32 x → 0 <= k <= 32 → 0 <= n < 32 → Z.testbit (rol x k) n = Z.testbit x ((n - k) mod 32).
Proof.
  intros Hx Hk Hn. unfold rol, u32. rewrite Z.mod_pow2_bits_low, Z.lor_spec, Z.shiftl_spec, Z.shiftr_spec by lia.
  destruct (decide (n < k)).
  - rewrite Z.testbit_neg_r by lia. cbn. f_equal. rewrite <- (Z.mod_add (n - k) 1 32), Z.mod_small by lia. lia.
  - rewrite (word_bits x (n + (32 - k))), orb_false_r by (done || lia). f_equal. rewrite Z.mod_small; lia.
Qed.

Lemma rol_u32 x k : is_u32 (rol x k).
Proof. apply u32_bound. Qed.

Definition le_word (b0 b1 b2 b3 : Z) : Z := u32 (Z.lor (Z.lor (Z.lor b0 (Z.shiftl b1 8)) (Z.shiftl b2 16)) (Z.shiftl b3 24)).

Lemma le_word_value b0 b1 b2 b3 :
  is_byte b0 → is_byte b1 → is_byte b2 → is_byte b3 → le_word b0 b1 b2 b3 = b0 + b1 * 2 ^ 8 + b2 * 2 ^ 16 + b3 * 2 ^ 24.
Proof.
  unfold is_byte, le_word. intros B0 B1 B2 B3. rewrite !Z.shiftl_mul_pow2 by lia.
  rewrite (lor_add_high b0 b1 8), (lor_add_high _ b2 16), (lor_add_high _ b3 24) by lia. apply u32_small. lia.
Qed.

(** [blk0] turns the bytes round. *)
Lemma swap_word b0 b1 b2 b3 :
  is_byte b0 → is_byte b1 → is_byte b2 → is_byte b3 →
  Z.lor (Z.land (rol (le_word b0 b1 b2 b3) 24) 0xFF00FF00) (Z.land (rol (le_word b0 b1 b2 b3) 8) 0x00FF00FF) =
  be_value [b0; b1; b2; b3].
Proof.
  intros B0 B1 B2 B3. assert (be_value [b0; b1; b2; b3] = le_word b3 b2 b1 b0) as ->.
  { rewrite le_word_value by done. unfold be_value. cbn. lia. }
  assert (Hu : is_u32 (le_word b0 b1 b2 b3)) by apply u32_bound.
  apply Z.bits_inj'. intros n Hn. destruct (decide (n < 32)).
  - rewrite Z.lor_spec, !Z.land_spec, !rol_bits by (done || lia). unfold le_word.
    rewrite !le_word_bits by (done || lia || (apply Z.mod_pos_bound; lia)).
    generalize (Z.testbit b0) (Z.testbit b1) (Z.testbit b2) (Z.testbit b3). intros t0 t1 t2 t3.
    assert (Hc : n ∈ seqZ 0 32) by (apply elem_of_seqZ; lia). clear -Hc.
    eassert (E : seqZ 0 32 = _) by (vm_compute; reflexivity). rewrite E in Hc. clear E.
    apply list_elem_of_In in Hc. cbn [In] in Hc.
    repeat (destruct Hc as [<-|Hc]; [vm_compute; repeat case_match; congruence|]). done.
  - rewrite Z.lor_spec, !Z.land_spec, (word_bits (le_word b3 b2 b1 b0)) by (try apply u32_bound; lia).
    rewrite (word_bits (rol _ 24)), (word_bits (rol _ 8)) by (try apply rol_u32; lia). done.
Qed.

(** ** The message schedule *)

Lemma schedule_from_prefix n : ∀ w t, (t < length w)%nat → schedule_from n w !!! t = w !!! t.
Proof.
  induction n as [|n IH]; intros w t Ht; cbn; [done|]. rewrite IH by (rewrite length_app; lia). by rewrite lookup_total_app_l.
Qed.

Lemma schedule_from_length n : ∀ w, length (schedule_from n w) = (n + length w)%nat.
Proof. induction n as [|n IH]; intros w; cbn; [done|]. rewrite IH, length_app. cbn. lia. Qed.

Lemma schedule_from_next n : ∀ w t, (16 <= length w)%nat → (length w <= t < n + length w)%nat →
  let W := schedule_from n w in
  W !!! t = rol (Z.lxor (Z.lxor (Z.lxor (W !!! (t - 3)%nat) (W !!! (t - 8)%nat)) (W !!! (t - 14)%nat)) (W !!! (t - 16)%nat)) 1.
Proof.
  induction n as [|n IH]; intros w t Hw Ht; [lia|]. cbn [schedule_from].
  destruct (decide (t = length w)) as [->|Hne]; [|apply IH; rewrite length_app; cbn; lia].
  cbv zeta. rewrite !schedule_from_prefix by (rewrite length_app; cbn; lia).
  rewrite (lookup_total_app_r w [next_word w]), Nat.sub_diag by lia. rewrite !(lookup_total_app_l w) by lia. done.
Qed.

Section transform.
Context (b : bytes) (Hb : Forall is_byte b) (Hlen : length b = 64%nat).

Lemma block_bytes i : (i < 16)%nat → ∃ b0 b1 b2 b3, is_byte b0 ∧ is_byte b1 ∧ is_byte b2 ∧ is_byte b3 ∧
  take 4 (drop (4 * i) b) = [b0; b1; b2; b3] ∧ get32 b (4 * Z.of_nat i) = Some (le_word b0 b1 b2 b3).
Proof.
  intros Hi. assert (Hl : length (take 4 (drop (4 * i) b)) = 4%nat) by (rewrite length_take, length_drop; lia).
  assert (Hf : Forall is_byte (take 4 (drop (4 * i) b))) by (by apply Forall_take, Forall_drop).
  destruct (take 4 (drop (4 * i) b)) as [|b0 [|b1 [|b2 [|b3 [|]]]]] eqn:E; try done.
  decompose_Forall. exists b0, b1, b2, b3. split_and!; try done.
  rewrite le_word_value by done.
  assert (Eb : b = take (4 * i) b ++ [b0; b1; b2; b3] ++ drop 4 (drop (4 * i) b)) by (by rewrite <- E, !take_drop).
  rewrite Eb. apply get32_bytes; [rewrite length_take; lia|done..].
Qed.

(** The words of the block as the machine reads them. *)
Lemma load_block_spec : ∃ l, load_block b = Some l ∧ length l = 16%nat ∧
  ∀ i, (i < 16)%nat → Z.lor (Z.land (rol (l !!! i) 24) 0xFF00FF00) (Z.land (rol (l !!! i) 8) 0x00FF00FF) = block_words b !!! i.
Proof.
  unfold load_block. destruct (mapM (λ i, get32 b (4 * Z.of_nat i)) (seq 0 16)) as [l|] eqn:E.
  - apply mapM_Some in E. pose proof (Forall2_length _ _ _ E) as El. rewrite length_seq in El. exists l.
    split; [done|]. split; [done|]. intros i Hi. destruct (block_bytes i Hi) as (b0 & b1 & b2 & b3 & B0 & B1 & B2 & B3 & Et & Eg).
    assert (Hil : l !! i = Some (l !!! i)) by (apply list_lookup_lookup_total_lt; lia).
    pose proof (Forall2_lookup_lr _ _ _ _ _ _ E (lookup_seq_lt 0 16 i Hi) Hil) as Ei. cbn in Ei. rewrite Eg in Ei. injection Ei as <-.
    rewrite swap_word by done. symmetry. apply list_lookup_total_correct. unfold block_words.
    rewrite list_lookup_fmap, lookup_seq_lt by done. cbn [fmap option_fmap option_map Nat.add]. by rewrite Et.
  - apply mapM_None, Exists_exists in E as (i & Hi & Ei). apply elem_of_seq in Hi.
    destruct (block_bytes i) as (b0 & b1 & b2 & b3 & _ & _ & _ & _ & _ & Eg); [lia|]. congruence.
Qed.

Abbreviation W := (schedule b).

Lemma schedule_start t : (t < 16)%nat → W !!! t = block_words b !!! t.
Proof.
  intros Ht. unfold schedule. rewrite (schedule_from_prefix 64 (block_words b)); [done|].
  unfold block_words. by rewrite length_fmap, length_seq.
Qed.

Lemma schedule_next t : (16 <= t < 80)%nat →
  W !!! t = rol (Z.lxor (Z.lxor (Z.lxor (W !!! (t - 3)%nat) (W !!! (t - 8)%nat)) (W !!! (t - 14)%nat)) (W !!! (t - 16)%nat)) 1.
Proof.
  intros Ht. assert (length (block_words b) = 16%nat) as El by (unfold block_words; by rewrite length_fmap, length_seq).
  unfold schedule. rewrite (schedule_from_next 64 (block_words b) t) at 1; [done|rewrite El; lia..].
Qed.

#[local] Opaque schedule.

(** The ring after [n] words: the last 16, and while the block is being turned
    round the words of it that are left. *)
Record ring (n : nat) (s : working) : Prop := {
  ring_length : length (block s) = 16%nat;
  ring_done t : (t < n)%nat → (n <= t + 16)%nat → block s !!! (t mod 16)%nat = W !!! t;
  ring_left t : (n <= t < 16)%nat →
    Z.lor (Z.land (rol (block s !!! t) 24) 0xFF00FF00) (Z.land (rol (block s !!! t) 8) 0x00FF00FF) = W !!! t
}.

Lemma mod16_inj t n : (t <= n)%nat → (n < t + 16)%nat → (n mod 16 = t mod 16)%nat → t = n.
Proof. intros H1 H2 E. pose proof (Nat.div_mod_eq t 16). pose proof (Nat.div_mod_eq n 16). lia. Qed.

Lemma block_index n k : 0 <= k → Z.to_nat (Z.land (Z.of_nat n + k) 15) = ((n + Z.to_nat k) mod 16)%nat.
Proof.
  intros Hk. change 15 with (2 ^ 4 - 1). rewrite land_ones_mod by lia. change (2 ^ 4) with (Z.of_nat 16).
  rewrite <- (Z2Nat.id k) at 1 by done. by rewrite <- Nat2Z.inj_add, <- Nat2Z.inj_mod, Nat2Z.id.
Qed.

Lemma ring_step n s :
  ring n s → (n < 80)%nat → ring (S n) (set_bl (Z.of_nat (n mod 16)) (W !!! n) s).
Proof.
  intros [H1 H2 H3] Hn. assert (n mod 16 < 16)%nat by (apply Nat.mod_upper_bound; lia).
  pose proof (Nat.mod_small n 16) as Hs. split; cbn -[Nat.modulo]; rewrite ?Nat2Z.id, ?length_insert; [done| |].
  - intros t Ht1 Ht2. destruct (decide (t = n)) as [->|Hne]; [by apply list_lookup_total_insert_eq; rewrite H1|].
    rewrite list_lookup_total_insert_ne; [apply H2; lia|]. intros E. apply Hne, (mod16_inj t n); [lia|lia|done].
  - intros t Ht. rewrite list_lookup_total_insert_ne; [apply H3; lia|]. rewrite Hs; lia.
Qed.

Definition word_at (n : nat) : Z → working → Z * working := if (n <? 16)%nat then blk0 else blk.

Lemma word_at_spec n s :
  ring n s → (n < 80)%nat → word_at n (Z.of_nat n) s = (W !!! n, set_bl (Z.of_nat (n mod 16)) (W !!! n) s).
Proof.
  intros Hr Hn. pose proof Hr as [H1 H2 H3]. unfold word_at. destruct (Nat.ltb_spec n 16).
  - unfold blk0, bl. rewrite Nat2Z.id, H3 by lia. by rewrite Nat.mod_small by lia.
  - assert (Hi : ∀ k, (0 < k <= 16)%nat → block s !!! ((n + (16 - k)) mod 16)%nat = W !!! (n - k)%nat).
    { intros k Hk. rewrite <- H2 by lia. f_equal. replace (n + (16 - k))%nat with ((n - k) + 1 * 16)%nat by lia.
      by rewrite Nat.Div0.mod_add. }
    unfold blk, bl. rewrite !block_index by lia.
    rewrite (Hi 3%nat ltac:(lia) : block s !!! ((n + Z.to_nat 13) mod 16)%nat = _), (Hi 8%nat ltac:(lia) : block s !!! ((n + Z.to_nat 8) mod 16)%nat = _),
      (Hi 14%nat ltac:(lia) : block s !!! ((n + Z.to_nat 2) mod 16)%nat = _).
    pose proof (block_index n 0) as E0. rewrite Z.add_0_r, Nat.add_0_r in E0.
    pose proof (Hi 16%nat) as E16. rewrite Nat.add_0_r in E16.
    rewrite E0, E16, <- schedule_next by lia. f_equal. f_equal. change 15 with (2 ^ 4 - 1).
    rewrite land_ones_mod by lia. change (2 ^ 4) with (Z.of_nat 16). by rewrite Nat2Z.inj_mod.
Qed.

(** The roles of the variables in the operation [t]. *)
Definition roles (t : nat) : var * var * var * var * var :=
  match (t mod 5)%nat with
  | 0%nat => (Va, Vb, Vc, Vd, Ve)
  | 1%nat => (Ve, Va, Vb, Vc, Vd)
  | 2%nat => (Vd, Ve, Va, Vb, Vc)
  | 3%nat => (Vc, Vd, Ve, Va, Vb)
  | _ => (Vb, Vc, Vd, Ve, Va)
  end.

Definition macro_at (t : nat) : macro :=
  if (t <? 16)%nat then R0 else if (t <? 20)%nat then R1 else if (t <? 40)%nat then R2 else if (t <? 60)%nat then R3 else R4.

Definition call_with (r : var * var * var * var * var) (t : nat) : round_call :=
  let '(v, w, x, y, z) := r in (macro_at t, v, w, x, y, z, Z.of_nat t).

Definition call_at (t : nat) : round_call := call_with (roles t) t.

Lemma rounds_calls : rounds = call_at <$> seq 0 80.
Proof. by vm_compute. Qed.

(** The working variables in the order of the standard. *)
Definition view_with (r : var * var * var * var * var) (s : working) : five :=
  let '(v, w, x, y, z) := r in (get_var v s, get_var w s, get_var x s, get_var y s, get_var z s).

Definition view (t : nat) (s : working) : five := view_with (roles t) s.

Lemma roles_cases t (P : nat → (var * var * var * var * var) → (var * var * var * var * var) → Prop) :
  P t (Va, Vb, Vc, Vd, Ve) (Ve, Va, Vb, Vc, Vd) → P t (Ve, Va, Vb, Vc, Vd) (Vd, Ve, Va, Vb, Vc) →
  P t (Vd, Ve, Va, Vb, Vc) (Vc, Vd, Ve, Va, Vb) → P t (Vc, Vd, Ve, Va, Vb) (Vb, Vc, Vd, Ve, Va) →
  P t (Vb, Vc, Vd, Ve, Va) (Va, Vb, Vc, Vd, Ve) → P t (roles t) (roles (S t)).
Proof.
  intros P0 P1 P2 P3 P4. unfold roles. pose proof (Nat.mod_upper_bound t 5). pose proof (Nat.div_mod_eq t 5).
  assert (E : (S t mod 5 = if t mod 5 =? 4 then 0 else S (t mod 5))%nat).
  { destruct (Nat.eqb_spec (t mod 5) 4); symmetry; [apply (Nat.mod_unique _ _ (S (t / 5)))|apply (Nat.mod_unique _ _ (t / 5))]; lia. }
  rewrite E. destruct (t mod 5)%nat as [|[|[|[|[|]]]]]; try done. lia.
Qed.

Lemma macro_at_spec t : (t < 80)%nat →
  ∃ f, run_macro (macro_at t) = R f (word_at t) (Kt t) ∧ ∀ x y z, f x y z = ft t x y z.
Proof.
  intros Ht. unfold macro_at, word_at, Kt, ft.
  destruct (Nat.ltb_spec t 16), (Nat.ltb_spec t 20), (Nat.ltb_spec t 40), (Nat.ltb_spec t 60); try lia;
    eexists; (split; [done|]); intros x y z; (apply f0_Ch || apply f3_Maj || done).
Qed.

Lemma ring_block n s s' : block s' = block s → ring n s → ring n s'.
Proof. intros E [H1 H2 H3]. split; by rewrite E. Qed.

Lemma block_set_var v n s : block (set_var v n s) = block s.
Proof. by destruct v. Qed.

Lemma sum_order z f w k r : u32 (z + (f + w + k + r)) = u32 (r + f + z + k + w).
Proof. f_equal. lia. Qed.

Lemma run_call_spec t s :
  ring t s → (t < 80)%nat →
  view (S t) (run_call s (call_at t)) = sha_round W (view t s) t ∧ ring (S t) (run_call s (call_at t)).
Proof.
  intros Hr Ht. destruct (macro_at_spec t Ht) as (f & Em & Hf). pose proof (word_at_spec t s Hr Ht) as Ew.
  pose proof (ring_step t s Hr Ht) as Hr'. unfold call_at, view.
  apply (roles_cases t (λ t r r', view_with r' (run_call s (call_with r t)) = sha_round W (view_with r s) t ∧
    ring (S t) (run_call s (call_with r t)))).
  all: cbn [run_call call_with]; rewrite Em; unfold R; rewrite Ew; split;
    [cbn; by rewrite Hf, sum_order|eapply ring_block, Hr'; by rewrite !block_set_var].
Qed.

Lemma rounds_spec n : ∀ s,
  ring 0 s → (n <= 80)%nat →
  let s' := foldl run_call s (call_at <$> seq 0 n) in view n s' = foldl (sha_round W) (view 0 s) (seq 0 n) ∧ ring n s'.
Proof.
  induction n as [|n IH]; intros s Hr Hn; [done|]. destruct (IH s Hr) as [Ev Hr']; [lia|]. cbv zeta.
  rewrite seq_S, fmap_app, !foldl_app. cbn [foldl fmap list_fmap]. rewrite <- Ev. apply run_call_spec; [done|lia].
Qed.

Lemma view_0 s : view 0 s = (ra s, rb s, rc s, rd s, re s).
Proof. done. Qed.

Lemma view_80 s : view 80 s = (ra s, rb s, rc s, rd s, re s).
Proof. done. Qed.

Lemma rounds_all s s' :
  ring 0 s → s' = foldl run_call s rounds →
  foldl (sha_round W) (ra s, rb s, rc s, rd s, re s) (seq 0 80) = (ra s', rb s', rc s', rd s', re s').
Proof.
  intros Hr ->. destruct (rounds_spec 80 s Hr (le_n _)) as [Ev _]. rewrite <- rounds_calls, view_80, view_0 in Ev. by rewrite Ev.
Qed.

(** The block function of the C code is that of the standard. *)
Lemma SHA1_Transform_spec st : length st = 5%nat → SHA1_Transform st b = Some (compress st b).
Proof.
  intros Hst. destruct st as [|a0 [|b0 [|c0 [|d0 [|e0 [|]]]]]]; try done. unfold SHA1_Transform.
  destruct load_block_spec as (l & -> & Hl & Hw). cbn [mbind option_bind]. unfold compress.
  set (s0 := {| ra := a0; rb := b0; rc := c0; rd := d0; re := e0; block := l |}).
  assert (Hr : ring 0 s0).
  { split; [done|lia|]. intros t Ht. rewrite schedule_start by lia. apply Hw. lia. }
  pose proof (rounds_all s0 _ Hr eq_refl) as E. generalize dependent (foldl run_call s0 rounds). intros s' E.
  cbn [ra rb rc rd re s0] in E. rewrite E.
  by rewrite (Z.add_comm a0), (Z.add_comm b0), (Z.add_comm c0), (Z.add_comm d0), (Z.add_comm e0).
Qed.
End transform.

(** ** Messages in pieces *)

Lemma compress_length st b : length (compress st b) = length st.
Proof.
  unfold compress. destruct st as [|? [|? [|? [|? [|? [|]]]]]]; [done..| |done].
  by destruct (foldl (sha_round (schedule b)) _ (seq 0 80)) as [[[[? ?] ?] ?] ?].
Qed.

Lemma hash_blocks_length n : ∀ st m, length (hash_blocks n st m) = length st.
Proof. induction n as [|n IH]; intros st m; cbn; [done|]. by rewrite IH, compress_length. Qed.

Lemma hash_blocks_add n k : ∀ st m, hash_blocks (n + k) st m = hash_blocks k (hash_blocks n st m) (drop (64 * n) m).
Proof.
  induction n as [|n IH]; intros st m; cbn [hash_blocks Nat.add]; [by rewrite Nat.mul_0_r, drop_0|].
  rewrite IH, drop_drop. do 2 f_equal. lia.
Qed.

Lemma hash_blocks_app n : ∀ st m x, (64 * n <= length m)%nat → hash_blocks n st (m ++ x) = hash_blocks n st m.
Proof.
  induction n as [|n IH]; intros st m x Hl; cbn [hash_blocks]; [done|].
  rewrite take_app_le, drop_app_le by lia. apply IH. rewrite length_drop. lia.
Qed.

Lemma update_loop_spec data fuel : ∀ i st,
  Forall is_byte data → length st = 5%nat → (i <= length data)%nat → (length data - i < fuel)%nat →
  let k := ((length data - i) / 64)%nat in
  update_loop fuel data (Z.of_nat (length data)) (Z.of_nat i) st = Some (Z.of_nat (i + 64 * k), hash_blocks k st (drop i data)).
Proof.
  induction fuel as [|fuel IH]; intros i st Hd Hst Hi Hf; [lia|]. cbn [update_loop]. cbv zeta.
  destruct (Z.ltb_spec (Z.of_nat i + 63) (Z.of_nat (length data))) as [Hlt|Hge].
  - rewrite copy_out_spec by lia. cbn [mbind option_bind].
    replace (Z.to_nat 64) with 64%nat by done. rewrite Nat2Z.id.
    rewrite SHA1_Transform_spec; [|by apply Forall_take, Forall_drop|rewrite length_take, length_drop; lia|done].
    cbn [mbind option_bind]. replace (Z.of_nat i + 64) with (Z.of_nat (i + 64)) by lia.
    rewrite IH by (rewrite ?compress_length; done || lia).
    assert (E : ((length data - i) / 64 = S ((length data - (i + 64)) / 64))%nat).
    { replace (length data - i)%nat with (length data - (i + 64) + 1 * 64)%nat by lia. rewrite Nat.div_add by lia. lia. }
    rewrite E. cbn [hash_blocks]. rewrite drop_drop. do 2 f_equal. lia.
  - rewrite Nat.div_small by lia. cbn [hash_blocks]. do 2 f_equal. lia.
Qed.

(** What the context says of the message [m]. *)
Record hashed (m : bytes) (c : SHA1_CTX) : Prop := {
  hd_state : state c = hash_blocks (length m / 64) init_hash m;
  hd_count0 : count0 c = (8 * Z.of_nat (length m)) mod 2 ^ 32;
  hd_count1 : count1 c = (8 * Z.of_nat (length m) / 2 ^ 32) mod 2 ^ 32;
  hd_buffer : length (buffer c) = 64%nat;
  hd_rest : take (length m mod 64) (buffer c) = drop (64 * (length m / 64)) m;
  hd_bytes : Forall is_byte m
}.

(** The count stays right as long as the pieces are below 2^29 bytes. *)
Lemma update_count_spec len L c :
  0 <= L → 0 <= len < 2 ^ 29 → count0 c = L mod 2 ^ 32 → count1 c = (L / 2 ^ 32) mod 2 ^ 32 →
  update_count len c = c <| count0 := (L + 8 * len) mod 2 ^ 32 |> <| count1 := ((L + 8 * len) / 2 ^ 32) mod 2 ^ 32 |>.
Proof.
  intros HL Hlen E0 E1. unfold update_count. rewrite Z.shiftl_mul_pow2, Z.shiftr_div_pow2, u64_small by lia.
  rewrite (Z.div_small len) by lia. destruct c as [st c0 c1 bf]. cbn in *. subst c0 c1. unfold u32.
  assert (Ec : (L mod 2 ^ 32 + len * 2 ^ 3) mod 2 ^ 32 = (L + 8 * len) mod 2 ^ 32).
  { rewrite Z.add_mod_idemp_l by lia. f_equal. lia. }
  change (len * 8) with (len * 2 ^ 3). rewrite Ec. pose proof (Z.div_mod L (2 ^ 32)) as HLd. pose proof (Z.mod_pos_bound L (2 ^ 32)).
  case_if; cbn; f_equal.
  - assert (Ed : (L + 8 * len) / 2 ^ 32 = L / 2 ^ 32 + 1).
    { pose proof (Z.div_mod (L + 8 * len) (2 ^ 32)). pose proof (Z.mod_pos_bound (L + 8 * len) (2 ^ 32)). nia. }
    rewrite Ed. cbn. rewrite Z.add_0_r, Z.mod_mod, Z.add_mod_idemp_l; lia.
  - assert (Ed : (L + 8 * len) / 2 ^ 32 = L / 2 ^ 32).
    { pose proof (Z.div_mod (L + 8 * len) (2 ^ 32)). pose proof (Z.mod_pos_bound (L + 8 * len) (2 ^ 32)). nia. }
    rewrite Ed, Z.add_0_r, Z.mod_mod; lia.
Qed.

Lemma buffer_index m c : hashed m c → Z.land (Z.shiftr (count0 c) 3) 63 = Z.of_nat (length m mod 64).
Proof.
  intros Hc. rewrite (hd_count0 _ _ Hc), Z.shiftr_div_pow2 by lia. change 63 with (2 ^ 6 - 1). rewrite land_ones_mod by lia.
  rewrite Nat2Z.inj_mod. change (2 ^ 32) with (8 * 2 ^ 29). rewrite Z.mul_mod_distr_l, (Z.mul_comm 8), Z.div_mul by lia.
  apply Z.mod_mod_divide. by exists (2 ^ 23).
Qed.

(** The buffer is completed and the whole blocks are hashed. *)
Lemma update_blocks (m data : bytes) :
  let j := (length m mod 64)%nat in
  (64 <= j + length data)%nat →
  let k := ((length data - (64 - j)) / 64)%nat in
  (length (m ++ data) / 64 = length m / 64 + S k)%nat ∧
  (length (m ++ data) mod 64 = length data - (64 - j + 64 * k))%nat ∧
  drop (64 * (length (m ++ data) / 64)) (m ++ data) = drop (64 - j + 64 * k) data ∧
  hash_blocks (length (m ++ data) / 64) init_hash (m ++ data) =
  hash_blocks k (compress (hash_blocks (length m / 64) init_hash m) (drop (64 * (length m / 64)) m ++ take (64 - j) data)) (drop (64 - j) data).
Proof.
  intros j Hj k. pose proof (Nat.div_mod_eq (length m) 64) as Em. fold j in Em. assert (j < 64)%nat by (apply Nat.mod_upper_bound; lia).
  pose proof (Nat.div_mod_eq (length data - (64 - j)) 64) as Ek. fold k in Ek.
  pose proof (Nat.mod_upper_bound (length data - (64 - j)) 64 ltac:(lia)).
  assert (Ed : (length (m ++ data) / 64 = length m / 64 + S k)%nat).
  { symmetry. apply (Nat.div_unique _ _ _ ((length data - (64 - j)) mod 64)); rewrite ?length_app; lia. }
  split; [done|]. split; [pose proof (Nat.div_mod_eq (length (m ++ data)) 64) as E; rewrite Ed in E; pose proof (length_app m data); lia|].
  rewrite Ed. split.
  - rewrite drop_app_ge by lia. f_equal. lia.
  - rewrite hash_blocks_add, hash_blocks_app, drop_app_le by lia. cbn [hash_blocks].
    assert (El : length (drop (64 * (length m / 64)) m) = j) by (rewrite length_drop; lia).
    rewrite take_app_ge, drop_app_ge, El by lia. done.
Qed.

Lemma copy_rest c data i j :
  (i <= length data)%nat → (j + (length data - i) <= 64)%nat → length (buffer c) = 64%nat →
  (rest ← copy_out data (Z.of_nat i) (Z.of_nat (length data) - Z.of_nat i);
   buf ← memcpy_to (buffer c) (Z.of_nat j) rest (Z.of_nat (length data) - Z.of_nat i); Some (c <| buffer := buf |>)) =
  Some {| state := state c; count0 := count0 c; count1 := count1 c;
          buffer := take j (buffer c) ++ drop i data ++ drop (j + (length data - i)) (buffer c) |}.
Proof.
  intros Hi Hj Hb. rewrite copy_out_spec by lia. cbn [mbind option_bind]. rewrite Nat2Z.id.
  replace (Z.to_nat (Z.of_nat (length data) - Z.of_nat i)) with (length data - i)%nat by lia.
  rewrite (take_ge (drop i data)) by (rewrite length_drop; lia).
  rewrite memcpy_to_spec by (rewrite ?length_drop; lia). cbn [mbind option_bind]. rewrite Nat2Z.id.
  replace (Z.to_nat (Z.of_nat (length data) - Z.of_nat i)) with (length data - i)%nat by lia.
  rewrite (take_ge (drop i data)) by (rewrite length_drop; lia). replace (Z.to_nat _) with (j + (length data - i))%nat by lia. done.
Qed.

Lemma sat_SHA1_Update_spec m c data :
  hashed m c → Forall is_byte data → Z.of_nat (length data) < 2 ^ 29 →
  ∃ c', sat_SHA1_Update c data = Some c' ∧ hashed (m ++ data) c'.
Proof.
  intros Hc Hd Hlen. unfold sat_SHA1_Update. cbv zeta. rewrite (buffer_index m c Hc).
  destruct Hc as [H1 H2 H3 H4 H5 H6]. rewrite (update_count_spec _ (8 * Z.of_nat (length m))) by (done || lia).
  assert (Hj : (length m mod 64 < 64)%nat) by (apply Nat.mod_upper_bound; lia).
  assert (E8 : 8 * Z.of_nat (length m) + 8 * Z.of_nat (length data) = 8 * Z.of_nat (length (m ++ data))) by (rewrite length_app; lia).
  rewrite E8. set (j := (length m mod 64)%nat) in *. set (c1 := c <| count0 := _ |> <| count1 := _ |>).
  change (buffer c1) with (buffer c). change (state c1) with (state c).
  destruct (Z.ltb_spec 63 (Z.of_nat j + Z.of_nat (length data))) as [Hlt|Hge].
  - destruct (update_blocks m data) as (Ed & Em & Er & Eh); [fold j; lia|]. fold j in Ed, Em, Er, Eh.
    set (k := ((length data - (64 - j)) / 64)%nat) in *.
    rewrite memcpy_to_spec by lia. cbn [mbind option_bind]. rewrite Nat2Z.id, H5.
    replace (Z.to_nat (64 - Z.of_nat j)) with (64 - j)%nat by lia. replace (Z.to_nat (Z.of_nat j + (64 - Z.of_nat j))) with 64%nat by lia.
    rewrite (drop_ge (buffer c)), app_nil_r by lia.
    assert (Hl : length (drop (64 * (length m / 64)) m ++ take (64 - j) data) = 64%nat).
    { rewrite <- H5, length_app, !length_take. lia. }
    rewrite SHA1_Transform_spec; [|apply Forall_app; split; [by apply Forall_drop|by apply Forall_take]|done|by rewrite H1, hash_blocks_length].
    cbn [mbind option_bind]. replace (64 - Z.of_nat j) with (Z.of_nat (64 - j)) by lia.
    rewrite update_loop_spec by (rewrite ?compress_length, ?H1, ?hash_blocks_length; done || lia). fold k.
    cbn [mbind option_bind]. pose proof (Nat.div_mod_eq (length data - (64 - j)) 64) as Ek. fold k in Ek.
    assert (Hi : (length data - (64 - j + 64 * k) < 64)%nat).
    { pose proof (Nat.mod_upper_bound (length data - (64 - j)) 64 ltac:(lia)). lia. }
    match goal with |- ∃ c', (rest ← copy_out _ _ _; buf ← memcpy_to (buffer ?c2) _ _ _; _) = _ ∧ _ => set (c2' := c2) end.
    assert (Hb2 : length (buffer c2') = 64%nat) by exact Hl.
    eexists. split; [apply (copy_rest c2' data (64 - j + 64 * k) 0); [lia|lia|exact Hb2]|].
    split; cbn [state count0 count1 buffer]; [by rewrite Eh, <- H1|done|done| | |by apply Forall_app].
    + rewrite take_0, app_nil_l, length_app, !length_drop, Hb2. lia.
    + rewrite Em, Er, take_0, app_nil_l, take_app_le, take_ge by (rewrite length_drop; lia). done.
  - cbn [mbind option_bind]. eexists. split; [apply (copy_rest c1 data 0 j); [lia|lia|exact H4]|].
    pose proof (Nat.div_mod_eq (length m) 64) as Em. fold j in Em.
    assert (Ed : (length (m ++ data) / 64 = length m / 64)%nat).
    { symmetry. apply (Nat.div_unique _ _ _ (j + length data)); rewrite ?length_app; lia. }
    assert (Ej : (length (m ++ data) mod 64 = j + length data)%nat).
    { pose proof (Nat.div_mod_eq (length (m ++ data)) 64) as E. rewrite Ed in E. pose proof (length_app m data). lia. }
    split; cbn [state count0 count1 buffer]; rewrite ?Ed, ?Ej; [by rewrite hash_blocks_app by lia|done|done| | |by apply Forall_app].
    + change (buffer c1) with (buffer c). rewrite !length_app, length_take, !length_drop. lia.
    + change (buffer c1) with (buffer c). rewrite H5, drop_0, drop_app_le by lia.
      rewrite (assoc_L (++)), take_app_le, take_ge by (rewrite length_app, length_drop; lia). done.
Qed.

(** ** Padding *)

Lemma count_mask m c : hashed m c → Z.land (count0 c) 504 = 8 * Z.of_nat (length m mod 64).
Proof.
  intros Hc. rewrite (hd_count0 _ _ Hc). change (2 ^ 32) with (8 * 2 ^ 29). rewrite Z.mul_mod_distr_l by lia.
  rewrite !(Z.mul_comm 8). change 8 with (2 ^ 3). rewrite <- !Z.shiftl_mul_pow2 by lia. change 504 with (Z.shiftl 63 3).
  rewrite <- Z.shiftl_land. f_equal. change 63 with (2 ^ 6 - 1). rewrite land_ones_mod, Nat2Z.inj_mod by lia.
  apply Z.mod_mod_divide. by exists (2 ^ 23).
Qed.

Lemma pad_loop_spec fuel : ∀ m c,
  hashed m c → let r := Z.to_nat ((56 - Z.of_nat (length m)) mod 64) in (r < fuel)%nat →
  ∃ c', pad_loop fuel c = Some c' ∧ hashed (m ++ replicate r 0) c'.
Proof.
  induction fuel as [|fuel IH]; intros m c Hc r Hf; [lia|]. cbn [pad_loop]. rewrite (count_mask m c Hc).
  pose proof (Nat.div_mod_eq (length m) 64) as Em. pose proof (Nat.mod_upper_bound (length m) 64 ltac:(lia)) as Hm.
  destruct (Z.eqb_spec (8 * Z.of_nat (length m mod 64)) 448) as [E|E]; cbn [negb].
  - exists c. split; [done|]. assert (r = 0%nat) as ->; [|by rewrite app_nil_r]. unfold r.
    rewrite (proj2 (Z.mod_divide _ 64 ltac:(lia))); [done|]. exists (- Z.of_nat (length m / 64)). lia.
  - destruct (sat_SHA1_Update_spec m c [0] Hc) as (c1 & -> & Hc1); [by repeat constructor|done|]. cbn [mbind option_bind].
    assert (Er : r = S (Z.to_nat ((56 - Z.of_nat (length (m ++ [0]))) mod 64))).
    { unfold r. rewrite length_app. cbn [length].
      assert (Hne : (56 - Z.of_nat (length m)) mod 64 ≠ 0).
      { intros E0. apply Z.mod_divide in E0 as [q Hq]; [|lia]. lia. }
      pose proof (Z.mod_pos_bound (56 - Z.of_nat (length m)) 64 ltac:(lia)).
      assert (Hs : (56 - Z.of_nat (length m + 1)) mod 64 = (56 - Z.of_nat (length m)) mod 64 - 1).
      { symmetry. apply (Z.mod_unique_pos _ _ ((56 - Z.of_nat (length m)) / 64)); [lia|].
        pose proof (Z.div_mod (56 - Z.of_nat (length m)) 64 ltac:(lia)). lia. }
      rewrite Hs. lia. }
    destruct (IH (m ++ [0]) c1 Hc1) as (c2 & -> & Hc2); [lia|]. exists c2. split; [done|]. rewrite Er. cbn [replicate].
    by rewrite cons_middle, (assoc_L (++)).
Qed.

Lemma byte_of x k : 0 <= k → Z.land (Z.shiftr x k) 255 = x / 2 ^ k mod 256.
Proof. intros Hk. change 255 with (2 ^ 8 - 1). by rewrite land_ones_mod, Z.shiftr_div_pow2 by lia. Qed.

Lemma word_byte x k : 0 <= k <= 24 → Z.land (Z.shiftr (x mod 2 ^ 32) k) 255 = x / 2 ^ k mod 256.
Proof.
  intros Hk. rewrite byte_of by lia. change 256 with (2 ^ 8). apply Z.bits_inj'. intros n Hn. destruct (decide (n < 8)).
  - rewrite !Z.mod_pow2_bits_low, !Z.div_pow2_bits, Z.mod_pow2_bits_low by lia. done.
  - by rewrite !Z.mod_pow2_bits_high by lia.
Qed.

Lemma finalcount_spec m c : hashed m c → finalcount c = be_bytes 8 (8 * Z.of_nat (length m)).
Proof.
  intros Hc. unfold finalcount. rewrite (hd_count0 _ _ Hc), (hd_count1 _ _ Hc). generalize (8 * Z.of_nat (length m)). intros L.
  change (seqZ 0 8) with [0; 1; 2; 3; 4; 5; 6; 7]. cbn [fmap list_fmap Z.leb Z.compare Pos.compare Pos.compare_cont].
  rewrite !word_byte by done. cbn [be_bytes app]. rewrite !Z.div_div by (vm_compute; congruence).
  change (2 ^ ((3 - Z.land 7 3) * 8)) with 1. by rewrite Z.div_1_r.
Qed.

Lemma digest_spec st :
  length st = 5%nat →
  (λ i, u8 (Z.land (Z.shiftr (st !!! Z.to_nat (Z.shiftr i 2)) ((3 - Z.land i 3) * 8)) 255)) <$> seqZ 0 SHA1_DIGEST_SIZE =
  mjoin (be_bytes 4 <$> st).
Proof.
  intros Hst. destruct st as [|h0 [|h1 [|h2 [|h3 [|h4 [|]]]]]]; try done.
  assert (Hb : ∀ x k, 0 <= k → u8 (Z.land (Z.shiftr x k) 255) = x / 2 ^ k mod 256).
  { intros x k Hk. rewrite byte_of by done. apply Z.mod_mod. done. }
  eassert (E : seqZ 0 SHA1_DIGEST_SIZE = _) by (vm_compute; reflexivity). rewrite E.
  cbn [fmap list_fmap]. rewrite !Hb by (vm_compute; congruence). cbn [be_bytes app mjoin list_join].
  rewrite !Z.div_div by (vm_compute; congruence). change (2 ^ ((3 - Z.land 3 3) * 8)) with 1.
  change (2 ^ ((3 - Z.land 7 3) * 8)) with 1. change (2 ^ ((3 - Z.land 11 3) * 8)) with 1.
  change (2 ^ ((3 - Z.land 15 3) * 8)) with 1. change (2 ^ ((3 - Z.land 19 3) * 8)) with 1. rewrite !Z.div_1_r. done.
Qed.

Lemma be_bytes_byte n : ∀ x, Forall is_byte (be_bytes n x).
Proof.
  induction n as [|n IH]; intros x; cbn; [done|]. apply Forall_app. split; [done|]. constructor; [|done].
  apply Z.mod_pos_bound. done.
Qed.

Lemma sat_SHA1_Final_spec m c : hashed m c → sat_SHA1_Final c = Some (sha1 m).
Proof.
  intros Hc. unfold sat_SHA1_Final. cbv zeta. rewrite (finalcount_spec m c Hc).
  destruct (sat_SHA1_Update_spec m c [0x80] Hc) as (c1 & -> & Hc1); [by repeat constructor|done|]. cbn [mbind option_bind].
  destruct (pad_loop_spec 64 _ c1 Hc1) as (c2 & -> & Hc2).
  { pose proof (Z.mod_pos_bound (56 - Z.of_nat (length (m ++ [128]))) 64 ltac:(lia)). lia. }
  cbn [mbind option_bind].
  destruct (sat_SHA1_Update_spec _ c2 (be_bytes 8 (8 * Z.of_nat (length m))) Hc2) as (c3 & -> & Hc3).
  { apply be_bytes_byte. } { by rewrite length_be_bytes. }
  cbn [mbind option_bind]. pose proof (hd_state _ _ Hc3) as Es.
  assert (Ep : ((m ++ [128]) ++ replicate (Z.to_nat ((56 - Z.of_nat (length (m ++ [128]))) mod 64)) 0) ++
               be_bytes 8 (8 * Z.of_nat (length m)) = padded m).
  { unfold padded. rewrite <- !(assoc_L (++)), length_app. cbn [length].
    by replace (56 - Z.of_nat (length m + 1)) with (55 - Z.of_nat (length m)) by lia. }
  rewrite Ep in Es. rewrite digest_spec; [by rewrite Es|]. by rewrite Es, hash_blocks_length.
Qed.

Lemma sat_SHA1_Init_spec garbage : length garbage = 64%nat → hashed [] (sat_SHA1_Init garbage).
Proof. intros Hg. by split. Qed.

Lemma lsha1_spec garbage text :
  length garbage = 64%nat → Forall is_byte text → Z.of_nat (length text) < 2 ^ 29 → lsha1 garbage text = Some (sha1 text).
Proof.
  intros Hg Ht Hl. unfold lsha1.
  destruct (sat_SHA1_Update_spec [] (sat_SHA1_Init garbage) text) as (c & -> & Hc); [by apply sat_SHA1_Init_spec|done|done|].
  by apply sat_SHA1_Final_spec.
Qed.

(** ** HMAC *)

Lemma sha1_digest m : length (sha1 m) = 20%nat ∧ Forall is_byte (sha1 m).
Proof.
  unfold sha1. pose proof (hash_blocks_length (length (padded m) / 64) init_hash (padded m)) as Hl.
  destruct (hash_blocks _ _ _) as [|h0 [|h1 [|h2 [|h3 [|h4 [|]]]]]]; try done. cbn [fmap list_fmap mjoin list_join].
  split; [by rewrite !length_app, !length_be_bytes|]. repeat (apply Forall_app; split; [apply be_bytes_byte|]). constructor.
Qed.

Lemma put32_lxor v w : put32 (Z.lxor v w) = zip_with Z.lxor (put32 v) (put32 w).
Proof.
  assert (Hb : ∀ k, Z.land (Z.shiftr (Z.lxor v w) k) 255 = Z.lxor (Z.land (Z.shiftr v k) 255) (Z.land (Z.shiftr w k) 255)).
  { intros k. rewrite Z.shiftr_lxor. apply Z.bits_inj'. intros n Hn. rewrite Z.land_spec, !Z.lxor_spec, !Z.land_spec.
    by destruct (Z.testbit (Z.shiftr v k) n), (Z.testbit (Z.shiftr w k) n), (Z.testbit 255 n). }
  unfold put32. cbn [zip_with]. rewrite !Hb. f_equal. specialize (Hb 0). by rewrite !Z.shiftr_0_r in Hb.
Qed.

Lemma put32_word b0 b1 b2 b3 :
  is_byte b0 → is_byte b1 → is_byte b2 → is_byte b3 → put32 (b0 + b1 * 2 ^ 8 + b2 * 2 ^ 16 + b3 * 2 ^ 24) = [b0; b1; b2; b3].
Proof.
  unfold is_byte. intros B0 B1 B2 B3. unfold put32. rewrite !byte_of by lia.
  change 255 with (2 ^ 8 - 1). rewrite land_ones_mod by lia. repeat f_equal; zify_div.
Qed.

Lemma xor_key_loop_spec x n : ∀ pre post,
  is_byte x → Forall is_byte post → length post = (4 * n)%nat →
  xor_key_loop n (Z.of_nat (length pre)) (pre ++ post) (le_word x x x x) = Some (pre ++ map (Z.lxor x) post).
Proof.
  induction n as [|n IH]; intros pre post Hx Hp Hl; [by destruct post|].
  destruct post as [|b0 [|b1 [|b2 [|b3 post]]]]; try (cbn in Hl; lia). cbn [xor_key_loop].
  decompose_Forall. rewrite (get32_bytes b0 b1 b2 b3 pre post) by done. cbn [mbind option_bind].
  rewrite put32_lxor, le_word_value, !put32_word by done. cbn [zip_with].
  rewrite memcpy_to_spec by (rewrite ?length_app; cbn [length]; lia). cbn [mbind option_bind]. rewrite Nat2Z.id.
  rewrite take_app_length, (drop_app_ge pre) by lia.
  replace (Z.to_nat (Z.of_nat (length pre) + 4) - length pre)%nat with 4%nat by lia. cbn [drop].
  replace (take (Z.to_nat 4) _) with [Z.lxor b0 x; Z.lxor b1 x; Z.lxor b2 x; Z.lxor b3 x] by done.
  rewrite (assoc_L (++)), <- (le_word_value x x x x) by done.
  replace (Z.of_nat (length pre) + 4) with (Z.of_nat (length (pre ++ [Z.lxor b0 x; Z.lxor b1 x; Z.lxor b2 x; Z.lxor b3 x])))
    by (rewrite length_app; cbn [length]; lia).
  rewrite drop_0, IH by (done || lia). rewrite <- (assoc_L (++)). cbn [map app].
  by rewrite (Z.lxor_comm b0), (Z.lxor_comm b1), (Z.lxor_comm b2), (Z.lxor_comm b3).
Qed.

Lemma xor_key_spec x key :
  is_byte x → Forall is_byte key → length key = 64%nat → xor_key key (le_word x x x x) = Some (map (Z.lxor x) key).
Proof. intros Hx Hk Hl. apply (xor_key_loop_spec x 16 [] key); done. Qed.

Lemma lxor_bytes x l : is_byte x → Forall is_byte l → Forall is_byte (map (Z.lxor x) l).
Proof.
  intros Hx. induction 1 as [|y l Hy _ IH]; cbn; constructor; [|done]. unfold is_byte in *.
  assert (0 <= Z.lxor x y) by (apply Z.lxor_nonneg; lia). split; [done|]. change 256 with (2 ^ 8).
  destruct (decide (Z.lxor x y = 0)) as [->|]; [lia|]. apply Z.log2_lt_pow2; [lia|].
  pose proof (Z.log2_lxor x y ltac:(lia) ltac:(lia)).
  assert (∀ z, 0 <= z < 256 → Z.log2 z < 8) as Hlog.
  { intros z Hz. destruct (decide (z = 0)) as [->|]; [done|]. apply Z.log2_lt_pow2; lia. }
  pose proof (Hlog x). pose proof (Hlog y). lia.
Qed.

(** The key, completed to a block. *)
Definition block_key (key : bytes) : bytes :=
  let k := if 64 <? Z.of_nat (length key) then sha1 key else key in k ++ replicate (64 - length k) 0.

Lemma block_key_ok key : Forall is_byte key → length (block_key key) = 64%nat ∧ Forall is_byte (block_key key).
Proof.
  intros Hk. unfold block_key. cbv zeta. set (k := if 64 <? Z.of_nat (length key) then sha1 key else key).
  assert (Hl : (length k <= 64)%nat ∧ Forall is_byte k).
  { unfold k. destruct (sha1_digest key) as [E ?]. case_if; [by rewrite E; split; [lia|]|split; [lia|done]]. }
  rewrite length_app, length_replicate. split; [lia|]. apply Forall_app. split; [apply Hl|]. by apply Forall_replicate.
Qed.

Lemma load_key garbage key :
  length garbage = 64%nat → Forall is_byte key → Z.of_nat (length key) < 2 ^ 29 →
  (if BLOCKSIZE <? Z.of_nat (length key) then
     c ← sat_SHA1_Update (sat_SHA1_Init garbage) key;
     digest ← sat_SHA1_Final c;
     memcpy_to (replicate (Z.to_nat BLOCKSIZE) 0) 0 digest SHA1_DIGEST_SIZE
   else memcpy_to (replicate (Z.to_nat BLOCKSIZE) 0) 0 key (Z.of_nat (length key))) = Some (block_key key).
Proof.
  intros Hg Hk Hl. unfold block_key, BLOCKSIZE. cbv zeta. case_if.
  - pose proof (lsha1_spec garbage key Hg Hk Hl) as E. unfold lsha1 in E. destruct (sat_SHA1_Update _ key) as [c|]; [|done].
    cbn [mbind option_bind] in *. rewrite E. cbn [mbind option_bind]. destruct (sha1_digest key) as [El _].
    rewrite memcpy_to_spec by (rewrite ?length_replicate; unfold SHA1_DIGEST_SIZE; lia).
    change (Z.to_nat 0) with 0%nat. rewrite take_0, app_nil_l, (take_ge (sha1 key)), drop_replicate, El by (by rewrite El). done.
  - rewrite memcpy_to_spec by (rewrite ?length_replicate; lia). change (Z.to_nat 0) with 0%nat.
    rewrite take_0, app_nil_l, Z.add_0_l, Nat2Z.id, (take_ge key), drop_replicate by lia. done.
Qed.

(** C26. SHA-1 and HMAC.  For texts and keys below 512 MB, [crypt.sha1] returns
    the digest that FIPS 180-4 defines and [crypt.hmac_sha1] the code that RFC 2104
    defines, whatever the uninitialised buffers hold, and no access leaves a
    buffer. *)
Theorem sha1_correct garbage key text :
  length garbage = 64%nat → Forall is_byte key → Forall is_byte text →
  Z.of_nat (length key) < 2 ^ 29 → Z.of_nat (length text) < 2 ^ 29 →
  lsha1 garbage text = Some (sha1 text) ∧ lhmac_sha1 garbage key text = Some (hmac_sha1 key text).
Proof.
  intros Hg Hk Ht Hkl Htl. split; [by apply lsha1_spec|]. unfold lhmac_sha1. cbv zeta. rewrite load_key by done.
  destruct (block_key_ok key Hk) as [Hl Hb]. cbn [mbind option_bind]. unfold hmac_sha1. fold (block_key key).
  set (k := block_key key) in *. rewrite (xor_key_spec 0x5c k ltac:(done) Hb Hl : xor_key k 0x5c5c5c5c = _).
  cbn [mbind option_bind]. assert (Ho : Forall is_byte (map (Z.lxor 92) k)) by (by apply lxor_bytes).
  destruct (sat_SHA1_Update_spec [] (sat_SHA1_Init garbage) (map (Z.lxor 92) k)) as (c1 & -> & Hc1);
    [by apply sat_SHA1_Init_spec|done|by rewrite length_map, Hl|].
  cbn [mbind option_bind].
  assert (Ex : xor_key (map (Z.lxor 92) k) (Z.lxor 0x5c5c5c5c 0x36363636) = Some (map (Z.lxor 106) (map (Z.lxor 92) k)))
    by (apply (xor_key_spec 0x6a); [done|done|by rewrite length_map]).
  rewrite Ex.
  assert (Ei : map (Z.lxor 106) (map (Z.lxor 92) k) = map (Z.lxor 54) k).
  { rewrite map_map. apply map_ext. intros x. by rewrite <- Z.lxor_assoc. }
  rewrite Ei. cbn [mbind option_bind]. assert (Hi : Forall is_byte (map (Z.lxor 54) k)) by (by apply lxor_bytes).
  destruct (sat_SHA1_Update_spec [] (sat_SHA1_Init garbage) (map (Z.lxor 54) k)) as (c2 & -> & Hc2);
    [by apply sat_SHA1_Init_spec|done|by rewrite length_map, Hl|].
  cbn [mbind option_bind]. destruct (sat_SHA1_Update_spec _ c2 text Hc2) as (c3 & -> & Hc3); [done|done|].
  cbn [mbind option_bind]. rewrite (sat_SHA1_Final_spec _ _ Hc3). cbn [mbind option_bind].
  destruct (sha1_digest ([] ++ map (Z.lxor 54) k ++ text)) as [E1 E2]. rewrite <- (assoc_L (++)).
  destruct (sat_SHA1_Update_spec _ c1 (sha1 ([] ++ map (Z.lxor 54) k ++ text)) Hc1) as (c4 & -> & Hc4); [done|by rewrite E1|].
  cbn [mbind option_bind]. by rewrite (sat_SHA1_Final_spec _ _ Hc4).
Qed.

(** The count of bits goes wrong on a piece of 512 MB or more: [len << 3] is
    then above every 32-bit number, so that [count[1]] is incremented although no
    carry occurred, and the length that is hashed is not that of the message. *)
Theorem sha1_count_wrong garbage len :
  2 ^ 29 <= len < 2 ^ 32 →
  let c := update_count len (sat_SHA1_Init garbage) in
  count1 c * 2 ^ 32 + count0 c = 8 * len + 2 ^ 32.
Proof.
  intros Hlen. unfold update_count. rewrite Z.shiftl_mul_pow2, Z.shiftr_div_pow2, u64_small by lia. cbn [count0 count1 sat_SHA1_Init].
  assert (Hc : u32 (0 + len * 2 ^ 3) < len * 2 ^ 3) by (pose proof (u32_bound (0 + len * 2 ^ 3)); lia).
  cbv zeta. cbn. apply Z.ltb_lt in Hc. cbn in Hc. rewrite Hc. cbn. unfold u32 in *. zify_div.
Qed.

Lemma sha1_correct_witness :
  lsha1 (replicate 64 0) [97; 98; 99] = Some (sha1 [97; 98; 99]) ∧
  lhmac_sha1 (replicate 64 0) [107] [97; 98; 99] = Some (hmac_sha1 [107] [97; 98; 99]).
Proof. apply (sha1_correct (replicate 64 0) [107] [97; 98; 99]); [done|by repeat constructor|by repeat constructor|done|done]. Defined.

Lemma sha1_count_wrong_witness :
  let c := update_count (2 ^ 29) (sat_SHA1_Init (replicate 64 0)) in count1 c * 2 ^ 32 + count0 c = 8 * 2 ^ 29 + 2 ^ 32.
Proof. apply (sha1_count_wrong (replicate 64 0) (2 ^ 29)). lia. Defined.

(** The test vectors of the standard: one block and two blocks. *)
Example sha1_test_abc : lsha1 (replicate 64 0) (str "abc") =
  Some [0xA9; 0x99; 0x3E; 0x36; 0x47; 0x06; 0x81; 0x6A; 0xBA; 0x3E; 0x25; 0x71; 0x78; 0x50; 0xC2; 0x6C; 0x9C; 0xD0; 0xD8; 0x9D].
Proof. by vm_compute. Qed.

Example sha1_test_long : lsha1 (replicate 64 0) (str "abcdbcdecdefdefgefghfghighijhijkijkljklmklmnlmnomnopnopq") =
  Some [0x84; 0x98; 0x3E; 0x44; 0x1C; 0x3B; 0xD2; 0x6E; 0xBA; 0xAE; 0x4A; 0xA1; 0xF9; 0x51; 0x29; 0xE5; 0xE5; 0x46; 0x70; 0xF1].
Proof. by vm_compute. Qed.
