(* ===== verification/Sproto.v ===== *)
(** * Zero packing (lualib-src/sproto/sproto.c, last part)

    [sproto_pack] removes the zero bytes of a message: eight bytes become a byte
    that says which of them are not zero and those bytes; up to 256 groups of
    (almost) no zeros become two bytes and the groups as they are.
    [sproto_unpack] undoes it.  The destination is a block of [bufsz] bytes; both
    functions go on counting when it is too small.  A read or write outside a
    block is [None].  Sizes are assumed to stay below 2^31.  The file shows that
    unpacking undoes packing, and where both functions read outside their input. *)

From stdpp Require Import prelude list.
From S2P Require Import Prelude.

Abbreviation bytes := (list Z).

(** ** Packing *)

(** The loop of [pack_seg] from byte [i] of the group: the memory, the header and
    the number of bytes that are not zero. *)
Fixpoint pack_seg_loop (src : bytes) (i : Z) (mem : bytes) (buffer sz header notzero : Z) : option (bytes * Z * Z) :=
  match src with
  | [] => Some (mem, header, notzero)
  | x :: src =>
      if negb (x =? 0) then
        let header := u8 (Z.lor header (Z.shiftl 1 i)) in
        if 0 <? sz then
          mem ← zset mem buffer x;
          pack_seg_loop src (i + 1) mem (buffer + 1) (sz - 1) header (notzero + 1)
        else pack_seg_loop src (i + 1) mem buffer sz header (notzero + 1)
      else pack_seg_loop src (i + 1) mem buffer sz header notzero
  end.

(** The number of bytes needed and the memory. *)
Definition pack_seg (src mem : bytes) (buffer sz n : Z) : option (Z * bytes) :=
  let obuffer := if sz - 1 <? 0 then None else Some buffer in
  '(mem, header, notzero) ← pack_seg_loop src 0 mem (buffer + 1) (sz - 1) 0 0;
  let notzero := if ((notzero =? 7) || (notzero =? 6)) && (0 <? n) then 8 else notzero in
  if notzero =? 8 then Some (if 0 <? n then 8 else 10, mem)
  else
    mem ← (match obuffer with Some p => zset mem p header | None => Some mem end);
    Some (notzero + 1, mem).

(** A pointer into the source or into the padded copy of its last group. *)
Inductive sptr := Src (offset : Z) | Tmp (offset : Z).

Definition sread (src tmp : bytes) (p : sptr) (n : Z) : option bytes :=
  match p with Src o => copy_out src o n | Tmp o => copy_out tmp o n end.

Definition sadd (p : sptr) (n : Z) : sptr := match p with Src o => Src (o + n) | Tmp o => Tmp (o + n) end.

(** The loop of [write_ff] that writes [n] zeros. *)
Fixpoint zero_loop (n : nat) (mem : bytes) (p : Z) : option bytes :=
  match n with 0%nat => Some mem | S n => mem ← zset mem p 0; zero_loop n mem (p + 1) end.

Definition write_ff (src tmp : bytes) (p : sptr) (mem : bytes) (des n : Z) : option bytes :=
  let align8_n := Z.land (n + 7) (Z.lnot 7) in
  mem ← zset mem des 0xff;
  mem ← zset mem (des + 1) (u8 (Z.quot align8_n 8 - 1));
  data ← sread src tmp p n;
  mem ← memcpy_to mem (des + 2) data n;
  zero_loop (Z.to_nat (align8_n - n)) mem (des + 2 + n).

Record pack_state := {
  pk_src : sptr; pk_tmp : bytes; pk_mem : bytes; pk_buffer : Z; pk_bufsz : Z;
  ff_srcstart : sptr; ff_desstart : Z; ff_n : Z; pk_size : Z
}.

#[export] Instance eta_pack_state : Eta pack_state := λ s,
  {| pk_src := pk_src s; pk_tmp := pk_tmp s; pk_mem := pk_mem s; pk_buffer := pk_buffer s; pk_bufsz := pk_bufsz s;
     ff_srcstart := ff_srcstart s; ff_desstart := ff_desstart s; ff_n := ff_n s; pk_size := pk_size s |}.

(** The last group is padded in [tmp]. *)
Definition load_group (srcv : bytes) (i : Z) (s : pack_state) : option pack_state :=
  let padding := i + 8 - Z.of_nat (length srcv) in
  if 0 <? padding then
    part ← sread srcv (pk_tmp s) (pk_src s) (8 - padding);
    Some (s <| pk_tmp := part ++ replicate (Z.to_nat padding) 0 |> <| pk_src := Tmp 0 |>)
  else Some s.

(** A run begins, goes on or ends with a group that took [n] bytes. *)
Definition run_group (srcv : bytes) (n : Z) (s : pack_state) : option pack_state :=
  if n =? 10 then Some (s <| ff_srcstart := pk_src s |> <| ff_desstart := pk_buffer s |> <| ff_n := 1 |>)
  else if (n =? 8) && (0 <? ff_n s) then
    let s := s <| ff_n := ff_n s + 1 |> in
    if ff_n s =? 256 then
      mem ← (if 0 <=? pk_bufsz s then write_ff srcv (pk_tmp s) (ff_srcstart s) (pk_mem s) (ff_desstart s) (256 * 8)
             else Some (pk_mem s));
      Some (s <| pk_mem := mem |> <| ff_n := 0 |>)
    else Some s
  else if 0 <? ff_n s then
    mem ← (if 0 <=? pk_bufsz s then write_ff srcv (pk_tmp s) (ff_srcstart s) (pk_mem s) (ff_desstart s) (ff_n s * 8)
           else Some (pk_mem s));
    Some (s <| pk_mem := mem |> <| ff_n := 0 |>)
  else Some s.

(** One group; [i] is its offset. *)
Definition pack_step (srcv : bytes) (i : Z) (s : pack_state) : option pack_state :=
  s ← load_group srcv i s;
  seg ← sread srcv (pk_tmp s) (pk_src s) 8;
  '(n, mem) ← pack_seg seg (pk_mem s) (pk_buffer s) (pk_bufsz s) (ff_n s);
  s ← run_group srcv n (s <| pk_mem := mem |> <| pk_bufsz := pk_bufsz s - n |>);
  Some (s <| pk_src := sadd (pk_src s) 8 |> <| pk_buffer := pk_buffer s + n |> <| pk_size := pk_size s + n |>).

(** The groups from offset [i] on. *)
Fixpoint pack_loop (fuel : nat) (srcv : bytes) (i : Z) (s : pack_state) : option pack_state :=
  match fuel with
  | 0%nat => None
  | S fuel => if i <? Z.of_nat (length srcv) then s ← pack_step srcv i s; pack_loop fuel srcv (i + 8) s else Some s
  end.

(** The size needed and the destination. *)
Definition sproto_pack (srcv bufferv : bytes) : option (Z * bytes) :=
  s ← pack_loop (S (length srcv)) srcv 0
        {| pk_src := Src 0; pk_tmp := replicate 8 0; pk_mem := bufferv; pk_buffer := 0;
           pk_bufsz := Z.of_nat (length bufferv); ff_srcstart := Src 0; ff_desstart := 0; ff_n := 0; pk_size := 0 |};
  mem ←
    (if 0 <=? pk_bufsz s then
       if ff_n s =? 1 then write_ff srcv (pk_tmp s) (ff_srcstart s) (pk_mem s) (ff_desstart s) 8
       else if 1 <? ff_n s then
         match ff_srcstart s with
         | Src o => write_ff srcv (pk_tmp s) (ff_srcstart s) (pk_mem s) (ff_desstart s) (Z.of_nat (length srcv) - o)
         | Tmp _ => None
         end
       else Some (pk_mem s)
     else Some (pk_mem s));
  Some (pk_size s, mem).

(** ** Unpacking *)

Record unpack_state := { up_src : Z; up_srcsz : Z; up_mem : bytes; up_buffer : Z; up_bufsz : Z; up_size : Z }.

#[export] Instance eta_unpack_state : Eta unpack_state := λ s,
  {| up_src := up_src s; up_srcsz := up_srcsz s; up_mem := up_mem s; up_buffer := up_buffer s; up_bufsz := up_bufsz s;
     up_size := up_size s |}.

(** A byte for the destination; it is read only if there is room. *)
Definition put_byte (x : option Z) (s : unpack_state) : option unpack_state :=
  if 0 <? up_bufsz s then
    x ← x;
    mem ← zset (up_mem s) (up_buffer s) x;
    Some (s <| up_mem := mem |> <| up_bufsz := up_bufsz s - 1 |> <| up_buffer := up_buffer s + 1 |>)
  else Some s.

(** The result -1, with the destination, or the state to go on with. *)
Definition unpacking : Type := bytes + unpack_state.

(** The loop over the bits of a header from bit [i]. *)
Fixpoint unpack_bits (n : nat) (i : Z) (src : bytes) (header : Z) (s : unpack_state) : option unpacking :=
  match n with
  | 0%nat => Some (inr s)
  | S n =>
      if c_true (Z.land (Z.shiftr header i) 1) then
        if up_srcsz s <? 0 then Some (inl (up_mem s))
        else
          s ← put_byte (zget src (up_src s)) s;
          unpack_bits n (i + 1) src header
            (s <| up_src := up_src s + 1 |> <| up_srcsz := up_srcsz s - 1 |> <| up_size := up_size s + 1 |>)
      else
        s ← put_byte (Some 0) s;
        unpack_bits n (i + 1) src header (s <| up_size := up_size s + 1 |>)
  end.

Definition unpack_step (src : bytes) (s : unpack_state) : option unpacking :=
  header ← zget src (up_src s);
  let s := s <| up_srcsz := up_srcsz s - 1 |> <| up_src := up_src s + 1 |> in
  if header =? 0xff then
    if up_srcsz s <? 0 then Some (inl (up_mem s))
    else
      b ← zget src (up_src s);
      let n := (b + 1) * 8 in
      if up_srcsz s <? n + 1 then Some (inl (up_mem s))
      else
        let s := s <| up_srcsz := up_srcsz s - (n + 1) |> <| up_src := up_src s + 1 |> in
        mem ← (if n <=? up_bufsz s then data ← copy_out src (up_src s) n; memcpy_to (up_mem s) (up_buffer s) data n
               else Some (up_mem s));
        Some (inr (s <| up_mem := mem |> <| up_bufsz := up_bufsz s - n |> <| up_buffer := up_buffer s + n |>
                      <| up_src := up_src s + n |> <| up_size := up_size s + n |>))
  else unpack_bits 8 0 src header s.

Fixpoint unpack_loop (fuel : nat) (src : bytes) (s : unpack_state) : option (Z * bytes) :=
  match fuel with
  | 0%nat => None
  | S fuel =>
      if 0 <? up_srcsz s then
        r ← unpack_step src s;
        match r with
        | inl mem => Some (-1, mem)
        | inr s => unpack_loop fuel src s
        end
      else Some (up_size s, up_mem s)
  end.

(** [srcsz] bytes of the block [srcv]. *)
Definition sproto_unpack (srcv : bytes) (srcsz : Z) (bufferv : bytes) : option (Z * bytes) :=
  unpack_loop (S (length srcv)) srcv
    {| up_src := 0; up_srcsz := srcsz; up_mem := bufferv; up_buffer := 0; up_bufsz := Z.of_nat (length bufferv); up_size := 0 |}.

(** ** The encoding *)

Fixpoint nonzero (g : bytes) : bytes := match g with [] => [] | x :: g => if x =? 0 then nonzero g else x :: nonzero g end.

Fixpoint hdr (g : bytes) : Z := match g with [] => 0 | x :: g => (if x =? 0 then 0 else 1) + 2 * hdr g end.

(** A group, and a run of groups that are copied. *)
Definition group_bytes (g : bytes) : bytes := hdr g :: nonzero g.

Definition run_bytes (run : list bytes) : bytes :=
  match run with [] => [] | _ => 0xff :: (Z.of_nat (length run) - 1) :: concat run end.

(** A run starts with a group without zeros, goes on with groups that have at
    most two, and has at most 256 groups. *)
Definition enc_step (s : bytes * list bytes) (g : bytes) : bytes * list bytes :=
  let '(out, run) := s in
  match run with
  | [] => if (length (nonzero g) =? 8)%nat then (out, [g]) else (out ++ group_bytes g, [])
  | _ =>
      if (6 <=? length (nonzero g))%nat then
        if (length run =? 255)%nat then (out ++ run_bytes (run ++ [g]), []) else (out, run ++ [g])
      else (out ++ run_bytes run ++ group_bytes g, [])
  end.

Definition enc (gs : list bytes) : bytes := let '(out, run) := foldl enc_step ([], []) gs in out ++ run_bytes run.

(** The groups of a message, the last one padded. *)
Definition group (src : bytes) (k : nat) : bytes :=
  let g := take 8 (drop (8 * k) src) in g ++ replicate (8 - length g) 0.

Definition groups (src : bytes) : list bytes := group src <$> seq 0 ((length src + 7) / 8).

(** ** Writing a group *)

Lemma zset_app (l : bytes) p x : 0 <= p < Z.of_nat (length l) → zset l p x = Some (take (Z.to_nat p) l ++ x :: drop (S (Z.to_nat p)) l).
Proof.
  intros Hp. rewrite zset_Some by done. f_equal. apply insert_take_drop. lia.
Qed.

Lemma hdr_bound g : 0 <= hdr g < 2 ^ Z.of_nat (length g).
Proof.
  induction g as [|x g IH]; cbn [hdr length]; [lia|]. rewrite Nat2Z.inj_succ, Z.pow_succ_r by lia. case_if; lia.
Qed.

(** The memory before [p] stays, and the bytes are written if they fit. *)
Lemma pack_seg_loop_spec src : ∀ i mem p header notzero,
  0 <= p → 0 <= i → i + Z.of_nat (length src) <= 8 → 0 <= header < 2 ^ i →
  ∃ mem', pack_seg_loop src i mem p (Z.of_nat (length mem) - p) header notzero
          = Some (mem', header + 2 ^ i * hdr src, notzero + Z.of_nat (length (nonzero src))) ∧
    length mem' = length mem ∧ take (Z.to_nat p) mem' = take (Z.to_nat p) mem ∧
    (p + Z.of_nat (length (nonzero src)) <= Z.of_nat (length mem) →
     take (Z.to_nat p + length (nonzero src)) mem' = take (Z.to_nat p) mem ++ nonzero src).
Proof.
  induction src as [|x src IH]; intros i mem p header notzero Hp Hi Hl Hh; cbn [pack_seg_loop].
  { exists mem. cbn. rewrite Z.mul_0_r, !Z.add_0_r, Nat.add_0_r, app_nil_r. done. }
  cbn [length] in Hl. cbn [hdr nonzero].
  assert (Hpow : 2 ^ (i + 1) = 2 * 2 ^ i) by (rewrite Z.pow_add_r by lia; lia).
  assert (0 < 2 ^ i) by (apply Z.pow_pos_nonneg; lia).
  destruct (Z.eqb_spec x 0) as [->|Hx]; cbn [negb].
  - destruct (IH (i + 1) mem p header notzero) as (mem' & E & H1 & H2 & H3); [lia..|].
    exists mem'. rewrite E. split; [|done]. replace (2 ^ i * (0 + 2 * hdr src)) with (2 ^ (i + 1) * hdr src) by (rewrite Hpow; ring). done.
  - cbn [length].
    assert (Eh : u8 (Z.lor header (Z.shiftl 1 i)) = header + 2 ^ i).
    { rewrite Z.shiftl_mul_pow2, lor_add_high by lia. unfold u8. rewrite Z.mod_small; [lia|].
      assert (2 ^ (i + 1) <= 2 ^ 8) by (apply Z.pow_le_mono_r; lia). lia. }
    assert (Es : header + 2 ^ i + 2 ^ (i + 1) * hdr src = header + 2 ^ i * (1 + 2 * hdr src)) by (rewrite Hpow; ring).
    assert (En : ∀ n : nat, notzero + 1 + Z.of_nat n = notzero + Z.of_nat (S n)) by lia.
    rewrite Eh. case_if.
    + rewrite zset_app by lia. cbn [mbind option_bind]. set (mem1 := take (Z.to_nat p) mem ++ x :: drop (S (Z.to_nat p)) mem).
      assert (L1 : length mem1 = length mem) by (unfold mem1; rewrite length_app; cbn; rewrite length_take, length_drop; lia).
      destruct (IH (i + 1) mem1 (p + 1) (header + 2 ^ i) (notzero + 1)) as (mem' & E & H1 & H2 & H3); [lia..|].
      replace (Z.of_nat (length mem) - p - 1) with (Z.of_nat (length mem1) - (p + 1)) by lia.
      exists mem'. rewrite E. split; [by rewrite Es, En|]. split; [lia|].
      assert (T1 : take (Z.to_nat (p + 1)) mem1 = take (Z.to_nat p) mem ++ [x]).
      { unfold mem1. replace (Z.to_nat (p + 1)) with (length (take (Z.to_nat p) mem) + 1)%nat by (rewrite length_take; lia).
        by rewrite take_app_add. }
      split.
      * transitivity (take (Z.to_nat p) (take (Z.to_nat (p + 1)) mem')); [rewrite take_take; f_equal; lia|].
        rewrite H2, T1, take_app_le, take_take by (rewrite length_take; lia). f_equal. lia.
      * intros Hfit. replace (Z.to_nat p + S (length (nonzero src)))%nat with (Z.to_nat (p + 1) + length (nonzero src))%nat by lia.
        rewrite H3, T1 by lia. by rewrite <- (assoc_L (++)).
    + destruct (IH (i + 1) mem p (header + 2 ^ i) (notzero + 1)) as (mem' & E & H1 & H2 & _); [lia..|].
      exists mem'. rewrite E. split; [by rewrite Es, En|]. split; [done|]. split; [done|]. lia.
Qed.

(** Whether a group is copied, with [n] groups before it in the run. *)
Definition copied (n : Z) (g : bytes) : bool :=
  (length (nonzero g) =? 8)%nat || (0 <? n) && (6 <=? length (nonzero g))%nat.

Definition cost (n : Z) (g : bytes) : Z :=
  if copied n g then (if 0 <? n then 8 else 10) else Z.of_nat (length (nonzero g)) + 1.

Lemma nonzero_length g : (length (nonzero g) <= length g)%nat.
Proof. induction g as [|x g IH]; cbn; [lia|]. case_if; cbn; lia. Qed.

Lemma take_drop_app (l a b : bytes) n : take (length a + n) l = a ++ b → take n (drop (length a) l) = b.
Proof.
  intros E. rewrite <- (drop_app_length a b), <- E, skipn_firstn_comm. f_equal. lia.
Qed.

Lemma pack_seg_spec g mem p n :
  length g = 8%nat → 0 <= p → 0 <= n →
  ∃ mem', pack_seg g mem p (Z.of_nat (length mem) - p) n = Some (cost n g, mem') ∧ length mem' = length mem ∧
    take (Z.to_nat p) mem' = take (Z.to_nat p) mem ∧
    (copied n g = false → p + cost n g <= Z.of_nat (length mem) →
     take (Z.to_nat (p + cost n g)) mem' = take (Z.to_nat p) mem ++ group_bytes g).
Proof.
  intros Hg Hp Hn. unfold pack_seg. destruct (pack_seg_loop_spec g 0 mem (p + 1) 0 0) as (mem1 & E & H1 & H2 & H3); [lia..|].
  replace (Z.of_nat (length mem) - (p + 1)) with (Z.of_nat (length mem) - p - 1) in E by lia. rewrite E. cbn [mbind option_bind].
  assert (T1 : take (Z.to_nat p) mem1 = take (Z.to_nat p) mem).
  { transitivity (take (Z.to_nat p) (take (Z.to_nat (p + 1)) mem1)); [rewrite take_take; f_equal; lia|].
    rewrite H2, take_take. f_equal. lia. }
  pose proof (nonzero_length g) as Hnz. rewrite Z.add_0_l, Z.pow_0_r, Z.mul_1_l.
  assert (Ec : ((if ((Z.of_nat (length (nonzero g)) =? 7) || (Z.of_nat (length (nonzero g)) =? 6)) && (0 <? n) then 8
                 else Z.of_nat (length (nonzero g))) =? 8) = copied n g).
  { unfold copied. destruct (Z.ltb_spec 0 n), (Nat.eqb_spec (length (nonzero g)) 8), (Nat.leb_spec 6 (length (nonzero g))),
      (Z.eqb_spec (Z.of_nat (length (nonzero g))) 7), (Z.eqb_spec (Z.of_nat (length (nonzero g))) 6); cbn; try lia;
      apply Z.eqb_eq || apply Z.eqb_neq; lia. }
  rewrite Ec. unfold cost. destruct (copied n g) eqn:Eco; [by exists mem1|].
  assert (En : (if ((Z.of_nat (length (nonzero g)) =? 7) || (Z.of_nat (length (nonzero g)) =? 6)) && (0 <? n) then 8
                else Z.of_nat (length (nonzero g))) = Z.of_nat (length (nonzero g))).
  { case_if; [done|done]. }
  rewrite En. destruct (Z.ltb_spec (Z.of_nat (length mem) - p - 1) 0).
  { exists mem1. cbn [mbind option_bind]. split_and!; [done..|lia]. }
  rewrite zset_app by lia. cbn [mbind option_bind]. eexists. split; [done|]. split; [|split].
  - rewrite length_app. cbn. rewrite length_take, length_drop. lia.
  - rewrite T1, take_app_le, take_take by (rewrite length_take; lia). f_equal. lia.
  - intros _ Hfit. rewrite T1. specialize (H3 ltac:(lia)).
    replace (Z.to_nat (p + (Z.of_nat (length (nonzero g)) + 1))) with (length (take (Z.to_nat p) mem) + S (length (nonzero g)))%nat
      by (rewrite length_take; lia).
    rewrite take_app_add. f_equal. cbn [take]. unfold group_bytes. f_equal.
    replace (S (Z.to_nat p)) with (length (take (Z.to_nat (p + 1)) mem)) by (rewrite length_take; lia).
    apply take_drop_app. rewrite <- H3. f_equal. rewrite length_take. lia.
Qed.

(** ** Writing a run *)

Lemma zset_mid (A C : bytes) x y p : p = Z.of_nat (length A) → zset (A ++ x :: C) p y = Some (A ++ y :: C).
Proof.
  intros ->. rewrite zset_app by (rewrite length_app; cbn; lia). rewrite Nat2Z.id, take_app_length. do 3 f_equal.
  replace (S (length A)) with (length A + 1)%nat by lia. by rewrite drop_app_add.
Qed.

Lemma memcpy_mid (A old C data : bytes) p n :
  p = Z.of_nat (length A) → n = Z.of_nat (length old) → length data = length old →
  memcpy_to (A ++ old ++ C) p data n = Some (A ++ data ++ C).
Proof.
  intros -> -> Hd. rewrite memcpy_to_spec by (rewrite ?length_app; lia). rewrite !Nat2Z.id, take_app_length, (take_ge data) by lia.
  replace (Z.to_nat (Z.of_nat (length A) + Z.of_nat (length old))) with (length A + length old)%nat by lia.
  by rewrite drop_app_add, drop_app_length.
Qed.

Lemma zero_loop_mid n : ∀ (A old C : bytes) p,
  p = Z.of_nat (length A) → length old = n → zero_loop n (A ++ old ++ C) p = Some (A ++ replicate n 0 ++ C).
Proof.
  induction n as [|n IH]; intros A old C p -> Ho; [by destruct old|]. destruct old as [|x old]; [done|]. cbn [zero_loop app replicate].
  rewrite zset_mid by done. cbn [mbind option_bind]. rewrite (cons_middle 0 A), (cons_middle 0 A (replicate n 0 ++ C)), !(assoc_L (++)).
  rewrite <- (assoc_L (++) (A ++ [0]) old C), <- (assoc_L (++) (A ++ [0]) _ C). apply IH; [rewrite length_app; cbn; lia|].
  injection Ho as Ho. done.
Qed.

Lemma align8 n : Z.land (n + 7) (Z.lnot 7) = 8 * ((n + 7) / 8).
Proof.
  change 7 with (Z.ones 3) at 2. rewrite <- Z.ldiff_land, Z.ldiff_ones_r by lia.
  rewrite Z.shiftl_mul_pow2, Z.shiftr_div_pow2 by lia. change (2 ^ 3) with 8. lia.
Qed.

(** [k] groups, of which the last may be incomplete. *)
Lemma write_ff_spec srcv tmp o n mem des k :
  0 <= o → o + n <= Z.of_nat (length srcv) → (0 < k <= 256)%nat → 8 * (Z.of_nat k - 1) < n <= 8 * Z.of_nat k →
  (des + 2 + 8 * k <= length mem)%nat →
  write_ff srcv tmp (Src o) mem (Z.of_nat des) n =
  Some (take des mem ++ 0xff :: (Z.of_nat k - 1) :: take (Z.to_nat n) (drop (Z.to_nat o) srcv) ++
        replicate (8 * k - Z.to_nat n) 0 ++ drop (des + 2 + 8 * k) mem).
Proof.
  intros Ho Hon Hk Hn Hd. unfold write_ff. rewrite align8. assert (Ek : (n + 7) / 8 = Z.of_nat k) by zify_div. rewrite Ek.
  rewrite Z.quot_div_nonneg, (Z.mul_comm 8), Z.div_mul by lia. cbn [sread]. rewrite copy_out_spec by lia.
  set (data := take (Z.to_nat n) (drop (Z.to_nat o) srcv)).
  assert (Hdl : length data = Z.to_nat n) by (unfold data; rewrite length_take, length_drop; lia).
  assert (Hm : ∃ x0 x1 old1 old2, mem = take des mem ++ x0 :: x1 :: old1 ++ old2 ++ drop (des + 2 + 8 * k) mem ∧
    length old1 = Z.to_nat n ∧ length old2 = (8 * k - Z.to_nat n)%nat).
  { destruct (drop des mem) as [|x0 [|x1 r]] eqn:E; try (apply (f_equal length) in E; rewrite length_drop in E; cbn in E; lia).
    exists x0, x1, (take (Z.to_nat n) r), (take (8 * k - Z.to_nat n) (drop (Z.to_nat n) r)).
    assert (Hr : length r = (length mem - des - 2)%nat) by (apply (f_equal length) in E; rewrite length_drop in E; cbn in E; lia).
    assert (Er : r = drop (des + 2) mem) by (rewrite <- drop_drop, E; done).
    split; [|rewrite !length_take, ?length_drop; lia]. rewrite <- (take_drop des mem) at 1. rewrite E. do 3 f_equal.
    rewrite <- (take_drop (Z.to_nat n) r) at 1. f_equal. rewrite <- (take_drop (8 * k - Z.to_nat n) (drop (Z.to_nat n) r)) at 1. f_equal.
    rewrite drop_drop, Er, drop_drop. f_equal. lia. }
  destruct Hm as (x0 & x1 & old1 & old2 & Em & L1 & L2). set (A := take des mem) in *. set (C := drop (des + 2 + 8 * k) mem) in *.
  assert (HA : length A = des) by (unfold A; rewrite length_take; lia). clearbody A C. rewrite Em.
  rewrite zset_mid by lia. cbn [mbind option_bind]. rewrite (cons_middle 0xff A), (assoc_L (++)).
  rewrite zset_mid by (rewrite length_app; cbn; lia). cbn [mbind option_bind].
  assert (Eu : u8 (Z.of_nat k - 1) = Z.of_nat k - 1) by (apply Z.mod_small; lia). rewrite Eu.
  rewrite (cons_middle (Z.of_nat k - 1) (A ++ [255])), (assoc_L (++)).
  rewrite (memcpy_mid _ old1) by (rewrite ?length_app; cbn; lia). cbn [mbind option_bind]. rewrite (assoc_L (++) _ data).
  rewrite zero_loop_mid by (rewrite ?length_app; cbn; lia).
  replace (Z.to_nat (Z.of_nat k * 8 - n)) with (8 * k - Z.to_nat n)%nat by lia. by rewrite <- !(assoc_L (++)).
Qed.

(** ** The groups of a message *)

Section pack.
Context (srcv : bytes).

Lemma group_length k : length (group srcv k) = 8%nat.
Proof. unfold group. rewrite length_app, length_replicate, length_take. lia. Qed.

Lemma group_full k : (8 * S k <= length srcv)%nat → group srcv k = take 8 (drop (8 * k) srcv).
Proof. intros Hk. unfold group. rewrite length_take, length_drop. replace (8 - _)%nat with 0%nat by lia. by rewrite app_nil_r. Qed.

Lemma nonzero_app a b : nonzero (a ++ b) = nonzero a ++ nonzero b.
Proof. induction a as [|x a IH]; cbn; [done|]. case_if; by rewrite IH. Qed.

Lemma nonzero_zeros n : nonzero (replicate n 0) = [].
Proof. by induction n. Qed.

(** A padded group has a zero. *)
Lemma group_nonzero k : length (nonzero (group srcv k)) = 8%nat → (8 * S k <= length srcv)%nat.
Proof.
  unfold group. rewrite nonzero_app, nonzero_zeros, app_nil_r. intros E.
  pose proof (nonzero_length (take 8 (drop (8 * k) srcv))) as Hl. rewrite length_take, length_drop in Hl. lia.
Qed.

Definition segment (a r : nat) : list bytes := group srcv <$> seq a r.

Lemma segment_length a r : length (segment a r) = r.
Proof. unfold segment. by rewrite length_fmap, length_seq. Qed.

Lemma segment_S a r : segment a (S r) = segment a r ++ [group srcv (a + r)].
Proof. unfold segment. by rewrite seq_S, fmap_app. Qed.

Lemma concat_segment a r :
  r = 0%nat ∨ (8 * (a + r) < length srcv + 8)%nat →
  concat (segment a r) = take (8 * r) (drop (8 * a) srcv) ++ replicate (8 * r - (length srcv - 8 * a)) 0.
Proof.
  induction r as [|r IH]; intros Hr; [by rewrite Nat.mul_0_r|]. destruct Hr as [|Hr]; [done|].
  rewrite segment_S, concat_app, IH by lia. cbn [concat]. rewrite app_nil_r.
  replace (8 * r - (length srcv - 8 * a))%nat with 0%nat by lia. cbn [replicate]. rewrite app_nil_r.
  unfold group. rewrite length_take, length_drop, (assoc_L (++)).
  replace (take (8 * r) (drop (8 * a) srcv) ++ take 8 (drop (8 * (a + r)) srcv)) with (take (8 * S r) (drop (8 * a) srcv)).
  - f_equal. f_equal. lia.
  - replace (8 * S r)%nat with (8 * r + 8)%nat by lia. rewrite <- take_take_drop, drop_drop. do 3 f_equal. lia.
Qed.

Lemma run_length run : run ≠ [] → Forall (λ g, length g = 8%nat) run → length (run_bytes run) = (2 + 8 * length run)%nat.
Proof.
  intros Hne Hg. assert (E : length (concat run) = (8 * length run)%nat).
  { clear Hne. induction Hg as [|x l Hx _ IH]; [done|]. cbn [concat length]. rewrite length_app, IH. lia. }
  destruct run as [|g run]; [done|]. unfold run_bytes. cbn [length] in *. lia.
Qed.

Lemma segment_groups a r : Forall (λ g, length g = 8%nat) (segment a r).
Proof. apply Forall_fmap, Forall_forall. intros k _. apply group_length. Qed.

(** A run of groups is written. *)
Lemma write_run tmp a r n mem des :
  (0 < r <= 256)%nat → (8 * (a + r) < length srcv + 8)%nat → n = Z.of_nat (Nat.min (8 * r) (length srcv - 8 * a)) →
  (des + 2 + 8 * r <= length mem)%nat →
  write_ff srcv tmp (Src (8 * Z.of_nat a)) mem (Z.of_nat des) n =
  Some (take des mem ++ run_bytes (segment a r) ++ drop (des + 2 + 8 * r) mem).
Proof.
  intros Hr Ha -> Hd. rewrite (write_ff_spec srcv tmp _ _ mem des r) by lia. f_equal. f_equal.
  assert (Er : run_bytes (segment a r) = 255 :: Z.of_nat r - 1 :: concat (segment a r)).
  { unfold run_bytes. rewrite segment_length. destruct (segment a r) eqn:E; [|done].
    apply (f_equal length) in E. rewrite segment_length in E. cbn in E. lia. }
  rewrite Er, concat_segment by lia. cbn [app]. do 2 f_equal. rewrite <- (assoc_L (++)).
  replace (Z.to_nat (8 * Z.of_nat a)) with (8 * a)%nat by lia. rewrite Nat2Z.id. f_equal; [|f_equal].
  - destruct (decide (8 * r <= length srcv - 8 * a)%nat); [by rewrite Nat.min_l by lia|]. rewrite Nat.min_r by lia.
    rewrite !take_ge by (rewrite length_drop; lia). done.
  - f_equal. lia.
Qed.

Context (T : nat).

(** The state after [k] groups: [out] is complete, and the groups of [run] are
    to follow. *)
Record packing (k : nat) (out : bytes) (run : list bytes) (s : pack_state) : Prop := {
  pg_src : (8 * k < length srcv)%nat → pk_src s = Src (8 * Z.of_nat k);
  pg_buffer : pk_buffer s = Z.of_nat (length out + length (run_bytes run));
  pg_size : pk_size s = pk_buffer s;
  pg_bufsz : pk_bufsz s = Z.of_nat T - pk_buffer s;
  pg_mem : length (pk_mem s) = T;
  pg_ff : ff_n s = Z.of_nat (length run);
  pg_run : run = segment (k - length run) (length run);
  pg_le : (length run <= k)%nat;
  pg_short : (length run <= 255)%nat;
  pg_start : run ≠ [] → ff_srcstart s = Src (8 * Z.of_nat (k - length run)) ∧ ff_desstart s = Z.of_nat (length out);
  pg_head : run ≠ [] → (8 * S (k - length run) <= length srcv)%nat;
  pg_out : pk_buffer s <= Z.of_nat T → take (length out) (pk_mem s) = out
}.

Lemma load_group_spec k out run s :
  packing k out run s → (8 * k < length srcv)%nat →
  ∃ s', load_group srcv (8 * Z.of_nat k) s = Some s' ∧ sread srcv (pk_tmp s') (pk_src s') 8 = Some (group srcv k) ∧
    pk_mem s' = pk_mem s ∧ pk_buffer s' = pk_buffer s ∧ pk_bufsz s' = pk_bufsz s ∧ ff_srcstart s' = ff_srcstart s ∧
    ff_desstart s' = ff_desstart s ∧ ff_n s' = ff_n s ∧ pk_size s' = pk_size s ∧
    ((8 * S k <= length srcv)%nat → pk_src s' = Src (8 * Z.of_nat k)).
Proof.
  intros Hs Hk. unfold load_group. rewrite (pg_src _ _ _ _ Hs Hk). case_if.
  - cbn [sread]. rewrite copy_out_spec by lia. cbn [mbind option_bind]. eexists. split; [done|]. cbn -[Nat.mul Z.mul].
    split; [|split_and!; (done || lia)]. rewrite copy_out_spec by (rewrite ?length_app, ?length_take, ?length_drop, ?length_replicate; lia).
    f_equal. unfold group. change (Z.to_nat 0) with 0%nat. change (Z.to_nat 8) with 8%nat. rewrite drop_0.
    replace (take (Z.to_nat (8 - (8 * Z.of_nat k + 8 - Z.of_nat (length srcv)))) (drop (Z.to_nat (8 * Z.of_nat k)) srcv))
      with (take 8 (drop (8 * k) srcv)).
    + rewrite length_take, length_drop. rewrite take_ge.
      * f_equal. f_equal. lia.
      * rewrite length_app, length_take, length_drop, length_replicate. lia.
    + replace (Z.to_nat (8 * Z.of_nat k)) with (8 * k)%nat by lia. rewrite !take_ge by (rewrite length_drop; lia). done.
  - exists s. split; [done|]. rewrite (pg_src _ _ _ _ Hs Hk). cbn [sread]. rewrite copy_out_spec by lia.
    rewrite group_full by lia. replace (Z.to_nat (8 * Z.of_nat k)) with (8 * k)%nat by lia. done.
Qed.

Lemma enc_step_run out run g : run ≠ [] →
  enc_step (out, run) g =
  if (6 <=? length (nonzero g))%nat then
    if (length run =? 255)%nat then (out ++ run_bytes (run ++ [g]), []) else (out, run ++ [g])
  else (out ++ run_bytes run ++ group_bytes g, []).
Proof. by destruct run. Qed.

Lemma copied_first g : copied 0 g = (length (nonzero g) =? 8)%nat.
Proof. unfold copied. by rewrite orb_false_r. Qed.

Lemma copied_next n g : length g = 8%nat → 0 < n → copied n g = (6 <=? length (nonzero g))%nat.
Proof.
  intros Hg Hn. unfold copied. rewrite (proj2 (Z.ltb_lt _ _) Hn). pose proof (nonzero_length g).
  destruct (Nat.eqb_spec (length (nonzero g)) 8), (Nat.leb_spec 6 (length (nonzero g))); cbn; lia || done.
Qed.

Lemma run_groups k run : run = segment k (length run) → Forall (λ g, length g = 8%nat) run.
Proof. intros ->. apply segment_groups. Qed.

(** The state before a run is continued: the group is in memory. *)
Record grouped (k : nat) (out : bytes) (run : list bytes) (n : Z) (s : pack_state) : Prop := {
  gr_src : (8 * S k <= length srcv)%nat → pk_src s = Src (8 * Z.of_nat k);
  gr_buffer : pk_buffer s = Z.of_nat (length out + length (run_bytes run));
  gr_size : pk_size s = pk_buffer s;
  gr_bufsz : pk_bufsz s = Z.of_nat T - (pk_buffer s + n);
  gr_mem : length (pk_mem s) = T;
  gr_ff : ff_n s = Z.of_nat (length run);
  gr_run : run = segment (k - length run) (length run);
  gr_le : (length run <= k)%nat;
  gr_start : run ≠ [] → ff_srcstart s = Src (8 * Z.of_nat (k - length run)) ∧ ff_desstart s = Z.of_nat (length out);
  gr_head : run ≠ [] → (8 * S (k - length run) <= length srcv)%nat;
  gr_cost : n = cost (ff_n s) (group srcv k);
  gr_out : pk_buffer s + n <= Z.of_nat T → take (length out) (pk_mem s) = out;
  gr_group : copied (ff_n s) (group srcv k) = false → pk_buffer s + n <= Z.of_nat T →
    take (length (group_bytes (group srcv k))) (drop (length out + length (run_bytes run)) (pk_mem s)) = group_bytes (group srcv k)
}.

Lemma pack_group_spec k out run s :
  packing k out run s → (8 * k < length srcv)%nat →
  ∃ s1 n mem, load_group srcv (8 * Z.of_nat k) s = Some s1 ∧ sread srcv (pk_tmp s1) (pk_src s1) 8 = Some (group srcv k) ∧
    pack_seg (group srcv k) (pk_mem s1) (pk_buffer s1) (pk_bufsz s1) (ff_n s1) = Some (n, mem) ∧
    grouped k out run n (s1 <| pk_mem := mem |> <| pk_bufsz := pk_bufsz s1 - n |>).
Proof.
  intros Hs Hk. destruct (load_group_spec k out run s Hs Hk) as (s1 & E1 & Er & M1 & M2 & M3 & M4 & M5 & M6 & M7 & M8).
  destruct Hs as [H1 H2 H3 H4 H5 H6 H7 H8 H9 H10 H11 H12].
  destruct (pack_seg_spec (group srcv k) (pk_mem s) (pk_buffer s) (ff_n s)) as (mem & Em & L & Ht & Hg);
    [apply group_length|lia|lia|].
  exists s1, (cost (ff_n s) (group srcv k)), mem. split; [done|]. split; [done|]. rewrite M1, M2, M3, M6, H4, <- H5. split; [done|].
  assert (Hpos : 0 <= cost (ff_n s) (group srcv k)) by (unfold cost; repeat case_if; lia).
  assert (Hp : Z.to_nat (pk_buffer s) = (length out + length (run_bytes run))%nat) by lia.
  split; cbn -[Nat.mul Z.mul group]; rewrite ?M2, ?M3, ?M4, ?M5, ?M6, ?M7; try done; try lia.
  - intros Hfit. rewrite <- H12 at 2 by lia. transitivity (take (length out) (take (Z.to_nat (pk_buffer s)) mem)); [rewrite take_take; f_equal; lia|].
    rewrite Ht, take_take. f_equal. lia.
  - intros Hc Hfit. specialize (Hg Hc ltac:(lia)).
    assert (HL : length (take (Z.to_nat (pk_buffer s)) (pk_mem s)) = Z.to_nat (pk_buffer s)) by (rewrite length_take; lia).
    rewrite <- Hp, <- HL. apply take_drop_app. rewrite <- Hg, HL. f_equal. unfold cost. rewrite Hc. cbn [group_bytes length]. lia.
Qed.

Definition advance (n : Z) (s : pack_state) : pack_state :=
  s <| pk_src := sadd (pk_src s) 8 |> <| pk_buffer := pk_buffer s + n |> <| pk_size := pk_size s + n |>.

(** No run is open afterwards. *)
Lemma packing_closed k out out' run n s mem :
  grouped k out run n s → (8 * k < length srcv)%nat → length mem = T →
  pk_buffer s + n = Z.of_nat (length out') → (pk_buffer s + n <= Z.of_nat T → take (length out') mem = out') →
  packing (S k) out' [] (advance n (s <| pk_mem := mem |> <| ff_n := 0 |>)).
Proof.
  intros [H1 H2 H3 H4 H5 H6 H7 H8 H9 H10 H11 H12 H13] Hk Hm Hb Ho.
  split; cbn -[Nat.mul Z.mul]; rewrite ?Nat.add_0_r; try done; try lia.
  intros Hk'. rewrite H1 by lia. cbn. f_equal. lia.
Qed.

Lemma segment_snoc k r : (r <= k)%nat → segment (k - r) r ++ [group srcv k] = segment (S k - S r) (S r).
Proof. intros Hr. rewrite segment_S. replace (S k - S r)%nat with (k - r)%nat by lia. do 3 f_equal. lia. Qed.

(** A group of a run, written at its end. *)
Lemma take_run mem (A R C : bytes) n : mem = A ++ R ++ C → n = length (A ++ R) → take n mem = A ++ R.
Proof. intros -> ->. rewrite (assoc_L (++)). apply take_app_length. Qed.

Lemma run_group_first k out n s :
  grouped k out [] n s → (8 * k < length srcv)%nat →
  ∃ s', run_group srcv n s = Some s' ∧ let '(out', run') := enc_step (out, []) (group srcv k) in packing (S k) out' run' (advance n s').
Proof.
  intros Hg Hk. pose proof Hg as [H1 H2 H3 H4 H5 H6 H7 H8 H9 H10 H11 H12 H13]. unfold run_group. rewrite H6 in *. cbn [length] in *.
  cbn [run_bytes length] in *. rewrite Nat.add_0_r in *. unfold cost in H11. rewrite copied_first in *. unfold enc_step.
  pose proof (nonzero_length (group srcv k)) as Hnz. rewrite group_length in Hnz.
  destruct (Nat.eqb_spec (length (nonzero (group srcv k))) 8) as [E8|E8]; change (0 <? Z.of_nat 0) with false in *; subst n.
  - rewrite Z.eqb_refl. eexists. split; [done|]. pose proof (group_nonzero k E8) as Hfull.
    split; cbn -[Nat.mul Z.mul Nat.sub group segment]; rewrite ?length_app, ?group_length; cbn -[Nat.mul Z.mul Nat.sub group segment]; try done; try lia.
    + intros Hk'. rewrite H1 by lia. cbn. f_equal. lia.
    + replace (S k - 1)%nat with k by lia. done.
    + intros _. replace (S k - 1)%nat with k by lia. rewrite H1, H2 by lia. done.
  - rewrite (proj2 (Z.eqb_neq _ 10)), andb_false_r by lia. exists s. split; [done|].
    replace s with (s <| pk_mem := pk_mem s |> <| ff_n := 0 |>) by (destruct s; cbn in *; by subst).
    eapply packing_closed; [done|done|done| |].
    + rewrite H2, length_app. cbn [group_bytes length]. lia.
    + intros Hfit. specialize (H12 Hfit). specialize (H13 eq_refl Hfit).
      rewrite length_app. rewrite <- (take_drop (length out) (pk_mem s)), H12.
      rewrite take_app_add. by rewrite H13.
Qed.

(** A run of whole groups is closed, if it fits. *)
Lemma close_run (n : Z) r (out : bytes) s a :
  (0 < r <= 256)%nat → (8 * (a + r) <= length srcv)%nat → length (pk_mem s) = T →
  ff_srcstart s = Src (8 * Z.of_nat a) → ff_desstart s = Z.of_nat (length out) → n = Z.of_nat r * 8 →
  (0 <= pk_bufsz s → (length out + 2 + 8 * r <= T)%nat) →
  ∃ mem, (if 0 <=? pk_bufsz s then write_ff srcv (pk_tmp s) (ff_srcstart s) (pk_mem s) (ff_desstart s) n else Some (pk_mem s)) = Some mem ∧
    length mem = T ∧
    (0 <= pk_bufsz s → mem = take (length out) (pk_mem s) ++ run_bytes (segment a r) ++ drop (length out + 2 + 8 * r) (pk_mem s)).
Proof.
  intros Hr Ha Hm Hsrc Hdes Hn Hfit. destruct (Z.leb_spec 0 (pk_bufsz s)) as [Hb|Hb]; [|exists (pk_mem s); split; [done|split; [done|lia]]].
  specialize (Hfit Hb). rewrite Hsrc, Hdes, (write_run (pk_tmp s) a r) by lia. eexists. split; [done|]. split; [|done].
  rewrite !length_app, run_length, segment_length, length_take, length_drop; [lia| |apply segment_groups].
  intros E. apply (f_equal length) in E. rewrite segment_length in E. cbn in E. lia.
Qed.

Lemma run_group_next k out run n s :
  grouped k out run n s → (8 * k < length srcv)%nat → run ≠ [] → (length run <= 255)%nat →
  (length run = 255%nat → (8 * S k <= length srcv)%nat) →
  ∃ s', run_group srcv n s = Some s' ∧ let '(out', run') := enc_step (out, run) (group srcv k) in packing (S k) out' run' (advance n s').
Proof.
  intros Hg Hk Hne Hshort Hover. pose proof Hg as [H1 H2 H3 H4 H5 H6 H7 H8 H9 H10 H11 H12 H13].
  destruct (H9 Hne) as [Hsrc Hdes]. specialize (H10 Hne). assert (Hr : (0 < length run)%nat) by (destruct run; [done|cbn; lia]).
  pose proof (run_groups _ _ H7) as Hgs. pose proof (run_length run Hne Hgs) as Hrl. rewrite enc_step_run by done.
  unfold cost in H11. rewrite copied_next in H11, H13 by (apply group_length || lia).
  rewrite (proj2 (Z.ltb_lt 0 (ff_n s))) in H11 by lia. pose proof (nonzero_length (group srcv k)) as Hnz. rewrite group_length in Hnz.
  unfold run_group. destruct (Nat.leb_spec 6 (length (nonzero (group srcv k)))) as [H6z|H6z]; subst n.
  - change (8 =? 10) with false. change (8 =? 8) with true. rewrite (proj2 (Z.ltb_lt 0 (ff_n s))) by lia. cbn [andb].
    set (s1 := s <| ff_n := ff_n s + 1 |>). change (ff_n s1) with (ff_n s + 1).
    assert (Hsn : run ++ [group srcv k] = segment (S k - S (length run)) (S (length run))) by (rewrite H7 at 1; by apply segment_snoc).
    destruct (Nat.eqb_spec (length run) 255) as [E255|E255].
    + rewrite (proj2 (Z.eqb_eq (ff_n s + 1) 256)) by lia. specialize (Hover E255).
      destruct (close_run (256 * 8) 256 out s1 (k - 255)) as (mem & -> & Hm & Hmem); try done; try lia.
      { change (ff_srcstart s1) with (ff_srcstart s). by rewrite Hsrc, E255. }
      { change (pk_bufsz s1) with (pk_bufsz s). lia. }
      cbn [mbind option_bind]. eexists. split; [done|].
      assert (El : length (run_bytes (run ++ [group srcv k])) = (2 + 8 * 256)%nat).
      { rewrite Hsn, E255, run_length, segment_length; [done| |apply segment_groups]. by rewrite segment_S; destruct (segment _ _). }
      apply (packing_closed k out _ run 8 s mem); [done|done|done|rewrite length_app, El; lia|].
      intros Hfit. change (pk_bufsz s1) with (pk_bufsz s) in Hmem. change (pk_mem s1) with (pk_mem s) in Hmem.
      rewrite Hmem by lia. rewrite (H12 Hfit), Hsn, E255.
      replace (S k - 256)%nat with (k - 255)%nat by lia. by eapply take_run.
    + rewrite (proj2 (Z.eqb_neq (ff_n s + 1) 256)) by lia. exists s1. split; [done|].
      assert (Hne' : run ++ [group srcv k] ≠ []) by (by destruct run).
      assert (Hl' : length (run ++ [group srcv k]) = S (length run)) by (rewrite length_app; cbn; lia).
      assert (El : length (run_bytes (run ++ [group srcv k])) = (2 + 8 * S (length run))%nat).
      { rewrite run_length, Hl'; [done|done|]. apply Forall_app. split; [done|]. repeat constructor. apply group_length. }
      assert (Ek : (S k - S (length run) = k - length run)%nat) by lia.
      split; cbn -[Nat.mul Z.mul Nat.sub group segment]; rewrite ?El, ?Hl', ?Ek; try done; try lia.
      intros Hk'. rewrite H1 by lia. cbn. f_equal. lia.
  - rewrite (proj2 (Z.eqb_neq _ 10)), (proj2 (Z.eqb_neq _ 8)), (proj2 (Z.ltb_lt 0 (ff_n s))) by lia. cbn [andb].
    destruct (close_run (ff_n s * 8) (length run) out s (k - length run)) as (mem & -> & Hm & Hmem); [lia|lia|done|done|done|lia|lia|].
    cbn [mbind option_bind]. eexists. split; [done|].
    apply (packing_closed k out _ run (Z.of_nat (length (nonzero (group srcv k))) + 1) s mem); [done|done|done| |].
    + rewrite !length_app. cbn [group_bytes length]. lia.
    + intros Hfit. rewrite Hmem by lia. rewrite (H12 Hfit), <- H7, !(assoc_L (++)), (length_app (out ++ run_bytes run)).
      rewrite take_app_add. f_equal. specialize (H13 eq_refl Hfit). rewrite <- H13 at 2. f_equal. f_equal. lia.
Qed.

(** The sizes for which no group is read beyond the end of the message. *)
Definition safe_size : Prop := (length srcv mod 8 = 0)%nat ∨ (length srcv < 2041)%nat.

Lemma safe_run k (run : list bytes) :
  safe_size → (8 * k < length srcv)%nat → (length run <= k)%nat → length run = 255%nat → (8 * S k <= length srcv)%nat.
Proof. intros [Hs|Hs] Hk Hle Hr; [|lia]. pose proof (Nat.div_mod_eq (length srcv) 8). lia. Qed.

Lemma pack_step_spec k out run s :
  (length run = 255%nat → (8 * S k <= length srcv)%nat) → packing k out run s → (8 * k < length srcv)%nat →
  ∃ s', pack_step srcv (8 * Z.of_nat k) s = Some s' ∧
    let '(out', run') := enc_step (out, run) (group srcv k) in packing (S k) out' run' s'.
Proof.
  intros Hsafe Hs Hk. destruct (pack_group_spec k out run s Hs Hk) as (s1 & n & mem & E1 & E2 & E3 & Hg).
  unfold pack_step. rewrite E1. cbn [mbind option_bind]. rewrite E2. cbn [mbind option_bind]. rewrite E3. cbn [mbind option_bind].
  assert (Hrun : ∃ s', run_group srcv n (s1 <| pk_mem := mem |> <| pk_bufsz := pk_bufsz s1 - n |>) = Some s' ∧
    let '(out', run') := enc_step (out, run) (group srcv k) in packing (S k) out' run' (advance n s')).
  { destruct (decide (run = [])) as [->|Hne]; [by apply run_group_first|]. by apply run_group_next; [done|done|done|apply Hs|]. }
  destruct Hrun as (s' & -> & Hp). eexists. split; [done|]. exact Hp.
Qed.

Lemma pack_loop_spec G fuel : ∀ k out run s,
  safe_size → packing k out run s → (k <= G)%nat → (8 * (G - 1) < length srcv <= 8 * G)%nat ∨ G = 0%nat ∧ srcv = [] →
  (length srcv - 8 * k < fuel)%nat →
  ∃ s', pack_loop fuel srcv (8 * Z.of_nat k) s = Some s' ∧
    let '(out', run') := foldl enc_step (out, run) (segment k (G - k)) in packing G out' run' s'.
Proof.
  induction fuel as [|fuel IH]; intros k out run s Hsafe Hs Hk HG Hf; [lia|]. cbn [pack_loop].
  assert (HN : (8 * (G - 1) < length srcv ∨ G = 0)%nat ∧ (length srcv <= 8 * G)%nat) by (destruct HG as [|[-> ->]]; cbn; lia).
  destruct (Z.ltb_spec (8 * Z.of_nat k) (Z.of_nat (length srcv))) as [Hlt|Hge].
  - destruct (pack_step_spec k out run s) as (s1 & -> & Hs1); [apply safe_run; [done|lia|apply Hs]|done|lia|]. cbn [mbind option_bind].
    replace (8 * Z.of_nat k + 8) with (8 * Z.of_nat (S k)) by lia.
    replace (G - k)%nat with (S (G - S k)) by lia. unfold segment. cbn [seq fmap list_fmap foldl].
    destruct (enc_step (out, run) (group srcv k)) as [out1 run1]. apply IH; [done|done|lia|done|lia].
  - assert (G = k) as -> by lia. exists s. split; [done|]. by rewrite Nat.sub_diag.
Qed.
End pack.

Lemma groups_count (src : bytes) :
  let G := ((length src + 7) / 8)%nat in (8 * (G - 1) < length src <= 8 * G)%nat ∨ G = 0%nat ∧ src = [].
Proof.
  intros G. pose proof (Nat.div_mod_eq (length src + 7) 8) as E. pose proof (Nat.mod_upper_bound (length src + 7) 8 ltac:(lia)). fold G in E.
  destruct src as [|x src]; [right; split; [done|done]|left]. cbn [length] in *. lia.
Qed.

Lemma sproto_pack_spec src buf :
  safe_size src →
  let e := enc (groups src) in
  ∃ mem, sproto_pack src buf = Some (Z.of_nat (length e), mem) ∧ length mem = length buf ∧
    ((length e <= length buf)%nat → take (length e) mem = e).
Proof.
  intros Hsafe e. unfold sproto_pack. set (s0 := {| pk_src := _ |}). set (G := ((length src + 7) / 8)%nat).
  pose proof (groups_count src) as HG. cbv zeta in HG. fold G in HG.
  destruct (pack_loop_spec src (length buf) G (S (length src)) 0 [] [] s0) as (s & E & Hs); [done| |lia|done|lia|].
  { split; cbn; try done; lia. }
  change (8 * Z.of_nat 0) with 0 in E. rewrite E. cbn [mbind option_bind]. unfold e, enc, groups. fold G.
  rewrite Nat.sub_0_r in Hs. unfold segment in Hs. destruct (foldl enc_step ([], []) (group src <$> seq 0 G)) as [out run] eqn:Ef.
  clear e E Ef. destruct Hs as [H1 H2 H3 H4 H5 H6 H7 H8 H9 H10 H11 H12].
  assert (Hsz : pk_size s = Z.of_nat (length (out ++ run_bytes run))) by (rewrite length_app; lia). rewrite Hsz.
  destruct (decide (run = [])) as [->|Hne].
  - cbn [length] in H6. rewrite H6. change (Z.of_nat 0 =? 1) with false. change (1 <? Z.of_nat 0) with false.
    exists (pk_mem s). rewrite app_nil_r. split; [by case_if|]. split; [done|]. intros Hfit. apply H12. cbn in H2. lia.
  - assert (Hr : (0 < length run)%nat) by (destruct run; [done|cbn; lia]). destruct (H10 Hne) as [Hsrc Hdes]. specialize (H11 Hne).
    pose proof (run_length run Hne (run_groups src _ _ H7)) as Hrl.
    destruct (Z.leb_spec 0 (pk_bufsz s)) as [Hb|Hb].
    2: { exists (pk_mem s). split; [done|]. split; [done|]. rewrite length_app. lia. }
    set (a := (G - length run)%nat) in *. set (n := Z.of_nat (Nat.min (8 * length run) (length src - 8 * a))).
    assert (Hw : (if ff_n s =? 1 then write_ff src (pk_tmp s) (ff_srcstart s) (pk_mem s) (ff_desstart s) 8
                  else if 1 <? ff_n s then
                    match ff_srcstart s with
                    | Src o => write_ff src (pk_tmp s) (ff_srcstart s) (pk_mem s) (ff_desstart s) (Z.of_nat (length src) - o)
                    | Tmp _ => None
                    end
                  else Some (pk_mem s)) = write_ff src (pk_tmp s) (Src (8 * Z.of_nat a)) (pk_mem s) (Z.of_nat (length out)) n).
    { rewrite Hsrc, Hdes. destruct (Z.eqb_spec (ff_n s) 1); [f_equal; unfold n, a in *; lia|].
      rewrite (proj2 (Z.ltb_lt 1 (ff_n s))) by lia. f_equal. unfold n, a. lia. }
    rewrite Hw, (write_run src (pk_tmp s) a (length run)) by (unfold a; lia || done). cbn [mbind option_bind]. eexists. split; [done|].
    rewrite <- H7. split; [rewrite !length_app, length_take, length_drop; lia|]. intros Hfit.
    rewrite H12 by (rewrite length_app in Hfit; lia). by eapply take_run.
Qed.

(** ** Unpacking what was packed *)

(** The bytes of [done] are written, those of [free] are to be overwritten. *)
Definition ust (pos srcsz : Z) (done free : bytes) (size : Z) : unpack_state :=
  {| up_src := pos; up_srcsz := srcsz; up_mem := done ++ free; up_buffer := Z.of_nat (length done);
     up_bufsz := Z.of_nat (length free); up_size := size |}.

Lemma put_byte_spec x pos srcsz done y free size :
  put_byte (Some x) (ust pos srcsz done (y :: free) size) = Some (ust pos srcsz (done ++ [x]) free size).
Proof.
  unfold put_byte, ust. cbn [up_bufsz up_mem up_buffer]. rewrite (proj2 (Z.ltb_lt _ _)) by (cbn [length]; lia). cbn [mbind option_bind].
  rewrite zset_mid by done. cbn [mbind option_bind]. cbn. f_equal. f_equal; [by rewrite <- (assoc_L (++))|rewrite length_app; cbn; lia|lia].
Qed.

Lemma hdr_bit x g : c_true (Z.land (hdr (x :: g)) 1) = negb (x =? 0).
Proof.
  change 1 with (2 ^ 1 - 1). rewrite land_ones_mod by lia. cbn [hdr]. change (2 ^ 1) with 2.
  rewrite (Z.mul_comm 2), Z.mod_add by lia. unfold c_true. by destruct (x =? 0).
Qed.

Lemma hdr_shift x g : Z.shiftr (hdr (x :: g)) 1 = hdr g.
Proof. rewrite Z.shiftr_div_pow2 by lia. cbn [hdr]. change (2 ^ 1) with 2. destruct (x =? 0); zify_div. Qed.

Lemma unpack_bits_spec g : ∀ i header pre rest done free free' srcsz size,
  0 <= i → Z.shiftr header i = hdr g → length free' = length g → Z.of_nat (length (nonzero g)) <= srcsz →
  unpack_bits (length g) i (pre ++ nonzero g ++ rest) header (ust (Z.of_nat (length pre)) srcsz done (free' ++ free) size) =
  Some (inr (ust (Z.of_nat (length pre + length (nonzero g))) (srcsz - Z.of_nat (length (nonzero g))) (done ++ g) free
                 (size + Z.of_nat (length g)))).
Proof.
  induction g as [|x g IH]; intros i header pre rest done free free' srcsz size Hi Hh Hf Hs.
  { destruct free'; [|done]. cbn. by rewrite Nat.add_0_r, app_nil_r, Z.sub_0_r, Z.add_0_r. }
  destruct free' as [|y free']; [done|]. injection Hf as Hf. cbn [length unpack_bits]. rewrite Hh, hdr_bit.
  assert (Hh' : Z.shiftr header (i + 1) = hdr g) by (rewrite <- Z.shiftr_shiftr, Hh, hdr_shift by lia; done).
  cbn [nonzero] in *. destruct (Z.eqb_spec x 0) as [->|Hx]; cbn [negb app].
  - rewrite put_byte_spec. cbn [mbind option_bind].
    etrans; [apply (IH (i + 1) header pre rest (done ++ [0]) free free' srcsz (size + 1)); [lia|done..]|].
    rewrite <- (assoc_L (++)). do 3 f_equal. lia.
  - cbn [length] in Hs. change (up_srcsz (ust _ srcsz _ _ _)) with srcsz. rewrite (proj2 (Z.ltb_ge srcsz 0)) by lia.
    change (up_src (ust (Z.of_nat (length pre)) _ _ _ _)) with (Z.of_nat (length pre)).
    rewrite zget_nat, lookup_app_r, Nat.sub_diag by lia. cbn [lookup list_lookup app]. rewrite put_byte_spec.
    cbn [mbind option_bind]. rewrite (cons_middle x pre), (assoc_L (++)).
    transitivity (unpack_bits (length g) (i + 1) ((pre ++ [x]) ++ nonzero g ++ rest) header
      (ust (Z.of_nat (length pre) + 1) (srcsz - 1) (done ++ [x]) (free' ++ free) (size + 1))); [done|].
    replace (Z.of_nat (length pre) + 1) with (Z.of_nat (length (pre ++ [x]))) by (rewrite length_app; cbn; lia).
    rewrite IH by (done || lia). rewrite <- (assoc_L (++)), length_app. cbn [length app].
    replace (length pre + 1 + length (nonzero g))%nat with (length pre + S (length (nonzero g)))%nat by lia.
    replace (srcsz - 1 - Z.of_nat (length (nonzero g))) with (srcsz - Z.of_nat (S (length (nonzero g)))) by lia.
    replace (size + 1 + Z.of_nat (length g)) with (size + Z.of_nat (S (length g))) by lia. done.
Qed.

(** ** The tokens of an encoding *)

Inductive token := Group (g : bytes) | Run (run : list bytes).

Definition token_bytes (t : token) : bytes := match t with Group g => group_bytes g | Run run => run_bytes run end.
Definition token_groups (t : token) : list bytes := match t with Group g => [g] | Run run => run end.

Definition token_ok (t : token) : Prop :=
  match t with
  | Group g => length g = 8%nat ∧ (length (nonzero g) < 8)%nat
  | Run run => run ≠ [] ∧ (length run <= 256)%nat ∧ Forall (λ g, length g = 8%nat) run
  end.

Definition tokens_of (ts : list token) : bytes := concat (token_bytes <$> ts).

Lemma tokens_snoc ts t : tokens_of (ts ++ [t]) = tokens_of ts ++ token_bytes t.
Proof. unfold tokens_of. rewrite fmap_app, concat_app. cbn. by rewrite app_nil_r. Qed.

(** The encoding as tokens, and the groups of a run not written yet. *)
Record tokenised (gs : list bytes) (out : bytes) (run : list bytes) (ts : list token) : Prop := {
  tk_out : out = tokens_of ts;
  tk_groups : mjoin (token_groups <$> ts) ++ run = gs;
  tk_ok : Forall token_ok ts;
  tk_short : (length run <= 255)%nat;
  tk_run : Forall (λ g, length g = 8%nat) run
}.

Lemma join_snoc ts t : mjoin (token_groups <$> (ts ++ [t])) = mjoin (token_groups <$> ts) ++ token_groups t.
Proof. rewrite fmap_app, join_app. cbn. by rewrite app_nil_r. Qed.

Lemma enc_step_tokens gs out run ts g :
  tokenised gs out run ts → length g = 8%nat →
  let '(out', run') := enc_step (out, run) g in ∃ ts', tokenised (gs ++ [g]) out' run' ts'.
Proof.
  intros [H1 H2 H3 H4 H5] Hg. pose proof (nonzero_length g) as Hnz. destruct (decide (run = [])) as [->|Hne].
  - cbn [enc_step]. rewrite app_nil_r in H2. destruct (Nat.eqb_spec (length (nonzero g)) 8) as [E8|E8].
    + exists ts. split; [done|by rewrite H2|done|cbn; lia|by repeat constructor].
    + exists (ts ++ [Group g]). split; [by rewrite tokens_snoc, H1|by rewrite join_snoc, app_nil_r, H2| |cbn; lia|done].
      apply Forall_app. split; [done|]. constructor; [|done]. split; [done|lia].
  - rewrite enc_step_run by done. destruct (Nat.leb_spec 6 (length (nonzero g))); [destruct (Nat.eqb_spec (length run) 255)|].
    + exists (ts ++ [Run (run ++ [g])]). split; [by rewrite tokens_snoc, H1| | |cbn; lia|done].
      * rewrite join_snoc, app_nil_r, <- H2. cbn. by rewrite (assoc_L (++)).
      * apply Forall_app. split; [done|]. constructor; [|done]. split; [by destruct run|].
        rewrite length_app. cbn. split; [lia|]. apply Forall_app. by repeat constructor.
    + exists ts. split; [done|by rewrite (assoc_L (++)), H2|done|rewrite length_app; cbn; lia|]. apply Forall_app. by repeat constructor.
    + exists ((ts ++ [Run run]) ++ [Group g]). split; [by rewrite !tokens_snoc, H1, <- (assoc_L (++))| | |cbn; lia|done].
      * rewrite !join_snoc, app_nil_r, <- H2. done.
      * apply Forall_app. split; [apply Forall_app; split; [done|]|]; (constructor; [|done]); [split_and!; [done|lia|done]|split; [done|lia]].
Qed.

Lemma enc_tokens gs : Forall (λ g, length g = 8%nat) gs →
  ∃ ts, enc gs = tokens_of ts ∧ mjoin (token_groups <$> ts) = gs ∧ Forall token_ok ts.
Proof.
  intros Hg. assert (Hall : let '(out, run) := foldl enc_step ([], []) gs in ∃ ts, tokenised gs out run ts).
  { induction gs as [|g gs IH] using rev_ind; [by exists []; split; cbn; try lia|]. apply Forall_app in Hg as [Hg1 Hg2].
    rewrite foldl_app. cbn [foldl]. specialize (IH Hg1). destruct (foldl enc_step ([], []) gs) as [out run]. destruct IH as [ts Hts].
    apply (enc_step_tokens gs out run ts g Hts). by apply Forall_cons in Hg2 as [? _]. }
  unfold enc. destruct (foldl enc_step ([], []) gs) as [out run]. destruct Hall as (ts & [H1 H2 H3 H4 H5]).
  destruct (decide (run = [])) as [->|Hne].
  - exists ts. rewrite app_nil_r in *. done.
  - exists (ts ++ [Run run]). rewrite tokens_snoc, join_snoc, H1. split; [done|]. split; [done|]. apply Forall_app. split; [done|].
    constructor; [|done]. split_and!; [done|lia|done].
Qed.

Lemma hdr_full g : hdr g = 2 ^ Z.of_nat (length g) - 1 → length (nonzero g) = length g.
Proof.
  induction g as [|x g IH]; cbn [hdr length nonzero]; [done|]. rewrite Nat2Z.inj_succ, Z.pow_succ_r by lia.
  pose proof (hdr_bound g). case_if; cbn [length]; [lia|]. intros E. f_equal. apply IH. lia.
Qed.

Lemma unpack_group g pre rest done free free' srcsz size :
  token_ok (Group g) → length free' = length g → Z.of_nat (length (group_bytes g)) <= srcsz →
  unpack_step (pre ++ group_bytes g ++ rest) (ust (Z.of_nat (length pre)) srcsz done (free' ++ free) size) =
  Some (inr (ust (Z.of_nat (length pre + length (group_bytes g))) (srcsz - Z.of_nat (length (group_bytes g))) (done ++ g) free
                 (size + Z.of_nat (length g)))).
Proof.
  intros [Hg Hnz] Hf Hs. unfold unpack_step. change (up_src (ust (Z.of_nat (length pre)) _ _ _ _)) with (Z.of_nat (length pre)).
  rewrite zget_nat, lookup_app_r, Nat.sub_diag by lia. cbn [group_bytes app lookup list_lookup mbind option_bind length] in *.
  rewrite (proj2 (Z.eqb_neq (hdr g) 255)) by (intros E; pose proof (hdr_full g); rewrite Hg in *; cbn in *; lia).
  rewrite (cons_middle (hdr g) pre), (assoc_L (++)), <- Hg at 1.
  transitivity (unpack_bits (length g) 0 ((pre ++ [hdr g]) ++ nonzero g ++ rest) (hdr g)
    (ust (Z.of_nat (length pre) + 1) (srcsz - 1) done (free' ++ free) size)); [by rewrite Hg|].
  replace (Z.of_nat (length pre) + 1) with (Z.of_nat (length (pre ++ [hdr g]))) by (rewrite length_app; cbn; lia).
  rewrite unpack_bits_spec by (done || lia || apply Z.shiftr_0_r). rewrite length_app. cbn [length].
  replace (length pre + 1 + length (nonzero g))%nat with (length pre + S (length (nonzero g)))%nat by lia.
  by replace (srcsz - 1 - Z.of_nat (length (nonzero g))) with (srcsz - Z.of_nat (S (length (nonzero g)))) by lia.
Qed.

Lemma concat_groups run : Forall (λ g : bytes, length g = 8%nat) run → length (concat run) = (8 * length run)%nat.
Proof. induction 1 as [|x l Hx _ IH]; [done|]. cbn [concat length]. rewrite length_app, IH. lia. Qed.

Lemma unpack_run run pre rest done free free' srcsz size :
  token_ok (Run run) → length free' = length (concat run) → Z.of_nat (length (run_bytes run)) <= srcsz →
  unpack_step (pre ++ run_bytes run ++ rest) (ust (Z.of_nat (length pre)) srcsz done (free' ++ free) size) =
  Some (inr (ust (Z.of_nat (length pre + length (run_bytes run))) (srcsz - Z.of_nat (length (run_bytes run))) (done ++ concat run) free
                 (size + Z.of_nat (length (concat run))))).
Proof.
  intros (Hne & Hlen & Hg) Hf Hs. pose proof (run_length run Hne Hg) as Hrl. pose proof (concat_groups run Hg) as Hc.
  assert (Hr : run_bytes run = 255 :: Z.of_nat (length run) - 1 :: concat run) by (by destruct run). rewrite Hrl in *. rewrite Hr.
  unfold unpack_step. change (up_src (ust (Z.of_nat (length pre)) _ _ _ _)) with (Z.of_nat (length pre)).
  rewrite zget_nat, lookup_app_r, Nat.sub_diag by lia. cbn [app lookup list_lookup mbind option_bind]. rewrite Z.eqb_refl.
  set (s1 := _ <| up_src := _ |>). change (up_srcsz s1) with (srcsz - 1). change (up_src s1) with (Z.of_nat (length pre) + 1).
  rewrite (proj2 (Z.ltb_ge (srcsz - 1) 0)) by lia.
  replace (Z.of_nat (length pre) + 1) with (Z.of_nat (length pre + 1)) by lia.
  rewrite zget_nat, lookup_app_r by lia. replace (length pre + 1 - length pre)%nat with 1%nat by lia.
  cbn [lookup list_lookup mbind option_bind]. replace ((Z.of_nat (length run) - 1 + 1) * 8) with (Z.of_nat (length (concat run))) by lia.
  rewrite (proj2 (Z.ltb_ge (srcsz - 1) _)) by lia. set (s2 := _ <| up_src := _ |>).
  change (up_bufsz s2) with (Z.of_nat (length (free' ++ free))). change (up_mem s2) with (done ++ free' ++ free).
  change (up_buffer s2) with (Z.of_nat (length done)). change (up_src s2) with (Z.of_nat (length pre + 1) + 1).
  rewrite (proj2 (Z.leb_le _ _)) by (rewrite length_app; lia). rewrite copy_out_spec by (rewrite ?length_app; cbn [length]; rewrite ?length_app; lia).
  assert (Ed : take (Z.to_nat (Z.of_nat (length (concat run)))) (drop (Z.to_nat (Z.of_nat (length pre + 1) + 1))
    (pre ++ 255 :: Z.of_nat (length run) - 1 :: concat run ++ rest)) = concat run).
  { rewrite Nat2Z.id. replace (Z.to_nat _) with (length pre + 2)%nat by lia. rewrite drop_app_add. cbn [drop]. apply take_app_length. }
  rewrite Ed. cbn [mbind option_bind]. rewrite (memcpy_mid done free') by (done || lia). cbn [mbind option_bind]. unfold s2, s1, ust. cbn.
  do 2 f_equal. rewrite !length_app. f_equal; [lia|lia|by rewrite (assoc_L (++))|lia|lia].
Qed.

Lemma unpack_token t pre rest done free free' srcsz size :
  token_ok t → length free' = length (concat (token_groups t)) → Z.of_nat (length (token_bytes t)) <= srcsz →
  unpack_step (pre ++ token_bytes t ++ rest) (ust (Z.of_nat (length pre)) srcsz done (free' ++ free) size) =
  Some (inr (ust (Z.of_nat (length pre + length (token_bytes t))) (srcsz - Z.of_nat (length (token_bytes t)))
                 (done ++ concat (token_groups t)) free (size + Z.of_nat (length (concat (token_groups t)))))).
Proof.
  destruct t as [g|run]; cbn [token_groups token_bytes concat]; rewrite ?app_nil_r; [apply unpack_group|apply unpack_run].
Qed.

Lemma token_length t : token_ok t → (0 < length (token_bytes t))%nat.
Proof. destruct t as [g|run]; [cbn; lia|]. intros (Hne & _ & Hg). cbn [token_bytes]. rewrite run_length by done. lia. Qed.

Lemma unpack_loop_tokens ts : ∀ fuel pre done free free' size,
  Forall token_ok ts → length free' = length (concat (mjoin (token_groups <$> ts))) → (length ts < fuel)%nat →
  unpack_loop fuel (pre ++ tokens_of ts) (ust (Z.of_nat (length pre)) (Z.of_nat (length (tokens_of ts))) done (free' ++ free) size) =
  Some (size + Z.of_nat (length (concat (mjoin (token_groups <$> ts)))), done ++ concat (mjoin (token_groups <$> ts)) ++ free).
Proof.
  induction ts as [|t ts IH]; intros fuel pre done free free' size Hok Hf Hfuel; (destruct fuel as [|fuel]; [cbn in Hfuel; lia|]).
  { destruct free'; [|done]. cbn. by rewrite Z.add_0_r. }
  apply Forall_cons in Hok as [Ht Hok]. pose proof (token_length t Ht) as Htl. cbn [unpack_loop].
  assert (Et : tokens_of (t :: ts) = token_bytes t ++ tokens_of ts) by done.
  assert (Eg : concat (mjoin (token_groups <$> (t :: ts))) = concat (token_groups t) ++ concat (mjoin (token_groups <$> ts))).
  { cbn. by rewrite concat_app. }
  rewrite Et, Eg in *. rewrite length_app in Hf.
  assert (Efr : ∃ f1 f2, free' = f1 ++ f2 ∧ length f1 = length (concat (token_groups t)) ∧ length f2 = length (concat (mjoin (token_groups <$> ts)))).
  { exists (take (length (concat (token_groups t))) free'), (drop (length (concat (token_groups t))) free').
    rewrite take_drop, length_take, length_drop. split; [done|]. lia. }
  destruct Efr as (f1 & f2 & -> & Hf1 & Hf2). change (up_srcsz (ust _ ?z _ _ _)) with z.
  rewrite (proj2 (Z.ltb_lt 0 _)) by (rewrite length_app; lia). rewrite <- (assoc_L (++) f1).
  rewrite unpack_token by (done || (rewrite length_app; lia)). cbn [mbind option_bind].
  rewrite (assoc_L (++) pre), length_app. replace (Z.of_nat (_ + _) - _) with (Z.of_nat (length (tokens_of ts))) by lia.
  rewrite <- length_app, IH by (done || (cbn in Hfuel; lia)). rewrite <- !(assoc_L (++)), length_app. do 2 f_equal. lia.
Qed.

(** ** Theorems *)

(** The message, with zeros up to a multiple of 8 bytes. *)
Definition padded8 (src : bytes) : bytes := src ++ replicate (8 * ((length src + 7) / 8) - length src) 0.

Lemma concat_all src : concat (groups src) = padded8 src.
Proof.
  unfold groups. fold (segment src 0 ((length src + 7) / 8)). rewrite concat_segment.
  - rewrite Nat.mul_0_r, drop_0, Nat.sub_0_r. unfold padded8. f_equal. apply take_ge.
    pose proof (groups_count src) as HG. cbn zeta in HG. destruct HG as [HG|[_ ->]]; [lia|cbn; lia].
  - pose proof (groups_count src) as HG. cbn zeta in HG. destruct HG as [HG|[-> _]]; [right; lia|by left].
Qed.


(** Groups without zeros are collected in a run. *)
Lemma write_ff_overread src tmp o mem des n :
  Z.of_nat (length src) < o + n → write_ff src tmp (Src o) mem des n = None.
Proof.
  intros Hn. unfold write_ff. cbn [sread]. unfold copy_out. rewrite (proj2 (Z.leb_gt (o + n) _)), andb_false_r by lia.
  destruct (zset mem des 255) as [m|]; [|done]. cbn [mbind option_bind]. by destruct (zset m (des + 1) _).
Qed.

Lemma nonzero_all l : Forall (λ x, x ≠ 0) l → nonzero l = l.
Proof. induction 1 as [|x l Hx _ IH]; [done|]. cbn. rewrite (proj2 (Z.eqb_neq x 0) Hx). by rewrite IH. Qed.

Lemma run_of_full (src buf : bytes) k s :
  packing src (length buf) 0 [] [] s → (k <= 255)%nat → (8 * k <= length src)%nat → Forall (λ x, x ≠ 0) src →
  ∃ s', packing src (length buf) k [] (segment src 0 k) s' ∧
    ∀ fuel, pack_loop (k + fuel) src 0 s = pack_loop fuel src (8 * Z.of_nat k) s'.
Proof.
  intros Hs. induction k as [|k IH]; intros Hk Hl Hz; [by exists s|]. destruct IH as (s1 & Hs1 & E1); [lia|lia|done|].
  destruct (pack_step_spec src (length buf) k [] (segment src 0 k) s1) as (s2 & E2 & Hs2); [rewrite segment_length; lia|done|lia|].
  assert (Hnz : length (nonzero (group src k)) = 8%nat).
  { rewrite group_full by lia. rewrite nonzero_all by (by apply Forall_take, Forall_drop). rewrite length_take, length_drop. lia. }
  exists s2. split.
  - rewrite segment_S. destruct (decide (segment src 0 k = [])) as [E0|Hne].
    + rewrite E0 in Hs2 |- *. cbn [enc_step] in Hs2. by rewrite Hnz in Hs2.
    + rewrite enc_step_run, Hnz, segment_length in Hs2 by done. cbn [Nat.leb] in Hs2.
      by rewrite (proj2 (Nat.eqb_neq k 255)) in Hs2 by lia.
  - intros fuel. replace (S k + fuel)%nat with (k + S fuel)%nat by lia. rewrite E1. cbn [pack_loop]. rewrite (proj2 (Z.ltb_lt _ _)) by lia. rewrite E2.
    cbn [mbind option_bind]. f_equal. lia.
Qed.

(** C40. Packing reads outside the message.  When the 256th group of a run is the
    last one and is padded, the run is copied from the message with its full
    length: a message of 2046 or 2047 bytes without zeros is read one or two bytes
    beyond its end, and those bytes are sent instead of zeros. *)
Theorem pack_reads_past (src buf : bytes) :
  length src = 2046%nat ∨ length src = 2047%nat → Forall (λ x, x ≠ 0) src → (2050 <= length buf)%nat →
  sproto_pack src buf = None.
Proof.
  intros Hl Hz Hb. unfold sproto_pack. set (s0 := {| pk_src := _ |}).
  destruct (run_of_full src buf 255 s0) as (s & Hs & E); [split; cbn; try done; lia|lia|lia|done|].
  destruct (pack_group_spec src (length buf) 255 _ _ s Hs) as (s1 & n & mem & E1 & E2 & E3 & Hg); [lia|].
  replace (S (length src)) with (255 + S (length src - 255))%nat by lia. rewrite E. cbn [pack_loop].
  rewrite (proj2 (Z.ltb_lt _ _)) by lia. unfold pack_step. rewrite E1. cbn [mbind option_bind]. rewrite E2. cbn [mbind option_bind].
  rewrite E3. cbn [mbind option_bind]. destruct Hg as [H1 H2 H3 H4 H5 H6 H7 H8 H9 H10 H11 H12 H13].
  set (s2 := s1 <| pk_mem := mem |> <| pk_bufsz := pk_bufsz s1 - n |>) in *. rewrite segment_length in *.
  assert (Hne : segment src 0 255 ≠ []) by done. destruct (H9 Hne) as [Hsrc Hdes].
  assert (Hnz : (6 <= length (nonzero (group src 255)))%nat).
  { unfold group. rewrite nonzero_app, nonzero_zeros, app_nil_r, nonzero_all by (by apply Forall_take, Forall_drop). rewrite length_take, length_drop. lia. }
  assert (n = 8) as ->.
  { rewrite H11. unfold cost. rewrite copied_next by (apply group_length || lia). rewrite (proj2 (Nat.leb_le _ _) Hnz).
    by rewrite (proj2 (Z.ltb_lt 0 (ff_n s2))) by lia. }
  unfold run_group. change (8 =? 10) with false. change (8 =? 8) with true. rewrite H6. change (0 <? Z.of_nat 255) with true. cbn [andb].
  set (s3 := s2 <| ff_n := _ |>). change (ff_n s3) with 256. change (256 =? 256) with true. cbn match.
  change (pk_bufsz s3) with (pk_bufsz s2). rewrite (proj2 (Z.leb_le 0 (pk_bufsz s2))) by (rewrite H4, H2, run_length, segment_length by (done || apply segment_groups); cbn; lia).
  change (ff_srcstart s3) with (ff_srcstart s2). by rewrite Hsrc, write_ff_overread by lia.
Qed.

(** The position and the room always fit the blocks. *)
Record unpack_ok (N T : Z) (s : unpack_state) : Prop := {
  uo_src : up_src s + up_srcsz s = N;
  uo_pos : 0 <= up_src s;
  uo_mem : Z.of_nat (length (up_mem s)) = T;
  uo_buffer : 0 <= up_buffer s;
  uo_room : up_buffer s + up_bufsz s = T
}.

Lemma put_byte_ok N T x s :
  unpack_ok N T s → ∃ s', put_byte (Some x) s = Some s' ∧ unpack_ok N T s' ∧ up_srcsz s' = up_srcsz s ∧ up_bufsz s - 1 <= up_bufsz s'.
Proof.
  intros Hs. pose proof Hs as [H1 H2 H3 H4 H5]. unfold put_byte. case_if; [|exists s; split_and!; (done || lia)]. cbn [mbind option_bind].
  rewrite zset_app by lia. cbn [mbind option_bind]. eexists. split; [done|]. split; [|done]. split; cbn; try lia. rewrite length_app. cbn.
  rewrite length_take, length_drop. lia.
Qed.

Lemma unpack_bits_ok N T src header n : ∀ i s,
  unpack_ok N T s → N < Z.of_nat (length src) →
  ∃ r, unpack_bits n i src header s = Some r ∧ ∀ s', r = inr s' → unpack_ok N T s' ∧ up_srcsz s' <= up_srcsz s.
Proof.
  induction n as [|n IH]; intros i s Hs HN; cbn [unpack_bits]; [exists (inr s); split; [done|]; by intros s' [= <-]|].
  destruct (c_true _).
  - case_if; [by eexists|]. pose proof Hs as [H1 H2 H3 H4 H5]. destruct (zget_is_Some src (up_src s)) as [x ->]; [lia|].
    destruct (put_byte_ok N T x s Hs) as (s1 & -> & [K1 K2 K3 K4 K5] & Ez & _). cbn [mbind option_bind].
    destruct (IH (i + 1) (s1 <| up_src := up_src s1 + 1 |> <| up_srcsz := up_srcsz s1 - 1 |> <| up_size := up_size s1 + 1 |>)) as (r & -> & Hr);
      [by split; cbn; try lia|done|]. exists r. split; [done|]. intros s' ->. destruct (Hr s' eq_refl) as [Ho Hle]. split; [done|]. cbn in Hle. lia.
  - destruct (put_byte_ok N T 0 s Hs) as (s1 & -> & Hs1 & Ez & _). cbn [mbind option_bind]. destruct Hs1 as [K1 K2 K3 K4 K5].
    destruct (IH (i + 1) (s1 <| up_size := up_size s1 + 1 |>)) as (r & -> & Hr); [by split|done|]. exists r. split; [done|].
    intros s' ->. destruct (Hr s' eq_refl) as [Ho Hle]. split; [done|]. cbn in Hle. lia.
Qed.

Lemma unpack_step_ok N T src s :
  unpack_ok N T s → N < Z.of_nat (length src) → Forall is_byte src → 0 < up_srcsz s →
  ∃ r, unpack_step src s = Some r ∧ ∀ s', r = inr s' → unpack_ok N T s' ∧ up_srcsz s' < up_srcsz s.
Proof.
  intros Hs HN Hb Hsz. pose proof Hs as [H1 H2 H3 H4 H5]. unfold unpack_step. destruct (zget_is_Some src (up_src s)) as [h ->]; [lia|].
  cbn [mbind option_bind]. set (s1 := _ <| up_src := _ |>). assert (Hs1 : unpack_ok N T s1) by (by split; cbn; try lia).
  case_if.
  - change (up_srcsz s1) with (up_srcsz s - 1). change (up_src s1) with (up_src s + 1). case_if; [by eexists|].
    destruct (zget_is_Some src (up_src s + 1)) as [b Eb]; [lia|]. rewrite Eb. cbn [mbind option_bind].
    assert (Hbb : is_byte b).
    { apply zget_Some_lt in Eb as Hlt. rewrite Forall_forall in Hb. apply Hb. unfold zget in Eb. case_match; [|done].
      by eapply list_elem_of_lookup_2. }
    unfold is_byte in Hbb. case_if; [by eexists|]. set (s2 := _ <| up_src := _ |>).
    change (up_bufsz s2) with (up_bufsz s). change (up_mem s2) with (up_mem s). change (up_buffer s2) with (up_buffer s).
    change (up_src s2) with (up_src s + 1 + 1). case_if.
    + rewrite copy_out_spec by lia. cbn [mbind option_bind].
      rewrite memcpy_to_spec by (rewrite ?length_take, ?length_drop; lia). cbn [mbind option_bind]. eexists. split; [done|].
      intros s' [= <-]. split; [split; cbn; try lia|cbn; lia]. rewrite !length_app, !length_take, !length_drop. lia.
    + cbn [mbind option_bind]. eexists. split; [done|]. intros s' [= <-]. split; [split; cbn; lia|cbn; lia].
  - destruct (unpack_bits_ok N T src h 8 0 s1 Hs1 HN) as (r & -> & Hr). exists r. split; [done|]. intros s' ->.
    destruct (Hr s' eq_refl) as [Ho Hle]. split; [done|]. cbn in Hle. lia.
Qed.

Lemma unpack_loop_ok N T src fuel : ∀ s,
  unpack_ok N T s → N < Z.of_nat (length src) → Forall is_byte src → up_srcsz s < Z.of_nat fuel → (0 < fuel)%nat →
  unpack_loop fuel src s ≠ None.
Proof.
  induction fuel as [|fuel IH]; intros s Hs HN Hb Hf Hf0; [lia|]. cbn [unpack_loop]. case_if; [|done].
  destruct (unpack_step_ok N T src s Hs HN Hb) as (r & -> & Hr); [lia|]. cbn [mbind option_bind]. destruct r as [mem|s']; [done|].
  destruct (Hr s' eq_refl) as [Hs' Hlt]. apply IH; [done|done|done|lia|lia].
Qed.

(** A header with a bit set at the end of the input. *)
Lemma unpack_bits_end h n : ∀ i s,
  unpack_ok 1 (Z.of_nat (length (up_mem s))) s → up_srcsz s = 0 → Z.of_nat n <= up_bufsz s →
  0 <= i → 0 < Z.shiftr h i < 2 ^ Z.of_nat n → unpack_bits n i [h] h s = None.
Proof.
  induction n as [|n IH]; intros i s Hs Hsz Hroom Hi Hh; [cbn in Hh; lia|]. cbn [unpack_bits].
  assert (Hm : Z.land (Z.shiftr h i) 1 = Z.shiftr h i mod 2) by (change 1 with (2 ^ 1 - 1); by rewrite land_ones_mod).
  destruct (c_true _) eqn:Ec.
  - rewrite Hsz. destruct Hs as [K1 _ _ _ _]. unfold put_byte. rewrite (proj2 (Z.ltb_lt 0 (up_bufsz s))) by lia.
    by replace (up_src s) with 1 by lia.
  - destruct (put_byte_ok 1 _ 0 s Hs) as (s1 & -> & Hs1 & Ez & Eb). cbn [mbind option_bind].
    destruct Hs1 as [K1 K2 K3 K4 K5]. apply IH; [split; cbn; lia|cbn; lia|cbn; lia|lia|].
    rewrite <- Z.shiftr_shiftr by lia. unfold c_true in Ec. apply negb_false_iff, Z.eqb_eq in Ec. rewrite Hm in Ec.
    rewrite (Z.shiftr_div_pow2 (Z.shiftr h i)) by lia. change (2 ^ 1) with 2.
    rewrite Nat2Z.inj_succ, Z.pow_succ_r in Hh by lia. pose proof (Z.div_mod (Z.shiftr h i) 2 ltac:(lia)). lia.
Qed.

(** Unpacking may read one byte beyond its input, and never more.  With one
    more readable byte behind the input it always runs to its end; without it, an
    input that consists of any header other than 0 is read outside the block (if
    the destination has room for 8 bytes),
    because the tests [srcsz < 0] come one byte too late. *)
Theorem unpack_reads_past :
  (∀ src b buf, Forall is_byte src → is_byte b → sproto_unpack (src ++ [b]) (Z.of_nat (length src)) buf ≠ None) ∧
  (∀ h buf, is_byte h → h ≠ 0 → (8 <= length buf)%nat → sproto_unpack [h] 1 buf = None).
Proof.
  split.
  - intros src b buf Hs Hb. apply (unpack_loop_ok (Z.of_nat (length src)) (Z.of_nat (length buf))); rewrite ?length_app; cbn; try lia.
    + by split; cbn; try lia.
    + apply Forall_app. split; [done|]. by constructor.
  - intros h buf Hb Hne Hroom. unfold is_byte in Hb. unfold sproto_unpack. set (s0 := {| up_src := 0 |}). cbn [length unpack_loop].
    change (0 <? up_srcsz s0) with true. cbn match. assert (E : unpack_step [h] s0 = None); [|by rewrite E].
    unfold unpack_step. change (zget [h] (up_src s0)) with (Some h). cbn [mbind option_bind]. case_if; [done|].
    apply unpack_bits_end; [split; cbn; lia|done|cbn; lia|lia|]. rewrite Z.shiftr_0_r. cbn. lia.
Qed.

Definition example_message : bytes := [8; 0; 0; 0; 3; 0; 2].


Lemma pack_reads_past_witness : sproto_pack (replicate 2047 1) (replicate 2050 0) = None.
Proof.
  apply (pack_reads_past (replicate 2047 1) (replicate 2050 0)); rewrite ?length_replicate; [by right|by apply Forall_replicate|done].
Defined.

(** The examples of sproto/README.md. *)
Example sproto_example_groups :
  sproto_pack [0x08; 0; 0; 0; 0x03; 0; 0x02; 0; 0x19; 0; 0; 0; 0xaa; 0x01; 0; 0] (replicate 8 0) =
  Some (8, [0x51; 0x08; 0x03; 0x02; 0x31; 0x19; 0xaa; 0x01]).
Proof. by vm_compute. Qed.

Example sproto_example_run :
  sproto_pack (replicate 30 0x8a) (replicate 34 0) = Some (34, [0xff; 3] ++ replicate 30 0x8a ++ [0; 0]).
Proof. by vm_compute. Qed.
