(* ===== verification/SocketServer.v ===== *)
(** * The socket server (skynet-src/socket_server.c, socket_epoll.h)

    One thread polls all sockets of the node; services send it requests through
    a pipe.  A socket is a slot of a table, found by its id modulo the size of
    the table; it moves from INVALID through RESERVE to the states of a
    connection, and owns two lists of buffers that wait to be written.

    The functions are computations in a state monad [M] over a [world]: the
    server, the pipe with the requests not read yet, the descriptors registered
    with epoll, [errno], and the operating system, which is a parameter: a
    machine [OS] that answers system calls, each call and its answer being
    recorded in a trace.  A failed [assert] and a read outside a buffer are
    [Stuck].  A linked list of write buffers is a list (its tail pointer is its
    last element, NULL when it is empty). *)

From stdpp Require Import prelude list gmap list_numbers strings.
From S2P Require Import Prelude CString.

(** ** System calls *)

Definition EINTR : Z := 4.
Definition EAGAIN : Z := 11.
Definition ENFILE : Z := 23.
Definition EMFILE : Z := 24.
Definition EINPROGRESS : Z := 115.

Definition AF_INET : Z := 2.
Definition AF_INET6 : Z := 10.
Definition SOCK_STREAM : Z := 1.
Definition SOCK_DGRAM : Z := 2.
Definition IPPROTO_TCP : Z := 6.
Definition IPPROTO_UDP : Z := 17.
Definition SO_REUSEADDR : Z := 2.
Definition SO_KEEPALIVE : Z := 9.
Definition SOL_SOCKET : Z := 1.
Definition TCP_NODELAY : Z := 1.

(** Addresses, with port and address as they are in memory. *)
Inductive sockaddr := SockV4 (port addr : bytes) | SockV6 (port addr : bytes).

Definition sa_family (sa : sockaddr) : Z := match sa with SockV4 _ _ => AF_INET | SockV6 _ _ => AF_INET6 end.
Definition sa_port (sa : sockaddr) : bytes := match sa with SockV4 p _ => p | SockV6 p _ => p end.

Record addrinfo := { ai_family : Z; ai_socktype : Z; ai_protocol : Z; ai_addr : sockaddr }.

(** A call with the type of its answer; [inl] is the error code. *)
Inductive sys : Type → Type :=
| SysWrite (fd : Z) (buf : bytes) : sys (Z + Z)
| SysRead (fd sz : Z) : sys (Z + bytes)
| SysSendto (fd : Z) (buf : bytes) (sa : option sockaddr) : sys (Z + Z)
| SysRecvfrom (fd sz : Z) : sys (Z + (bytes * sockaddr))
| SysClose (fd : Z) : sys (Z + unit)
| SysEpollCreate : sys (Z + Z)
| SysEpollAdd (fd : Z) : sys (Z + unit)
| SysEpollWait (max : Z) : sys (Z + list (Z * bool * bool))
| SysPipe : sys (Z + (Z * Z))
| SysSelect (fd : Z) : sys (Z + unit)
| SysGetaddrinfo (host : bytes) (port socktype protocol : Z) : sys (Z + list addrinfo)
| SysSocket (family socktype protocol : Z) : sys (Z + Z)
| SysConnect (fd : Z) (sa : sockaddr) : sys (Z + unit)
| SysBind (fd : Z) (sa : sockaddr) : sys (Z + unit)
| SysListen (fd backlog : Z) : sys (Z + unit)
| SysAccept (fd : Z) : sys (Z + (Z * sockaddr))
| SysGetSoError (fd : Z) : sys (Z + Z)
| SysGetpeername (fd : Z) : sys (Z + sockaddr)
| SysSetsockopt (fd level what value : Z) : sys (Z + unit)
| SysNonblocking (fd : Z) : sys (Z + unit).

(** The operating system: a machine that answers calls; and the functions of
    the C library that turn codes and addresses into text. *)
Class OS (O : Type) := {
  os_call : ∀ {A}, sys (Z + A) → O → (Z + A) * O;
  strerror : Z → bytes;
  gai_strerror : Z → bytes;
  inet_ntop : sockaddr → option bytes
}.

(** A pointer: a block of the heap and an offset. *)
Definition ptr : Type := Z * Z.
Definition ptr_add (p : ptr) (n : Z) : ptr := (p.1, p.2 + n).

(** What the server does to the outside: system calls with their answers, and
    the release of buffers it was given. *)
Inductive io_event :=
| EvCall {A} (c : sys (Z + A)) (answer : Z + A)
| EvFree (p : ptr)
| EvObjectFree (p : ptr).

(** ** State *)

Definition MAX_EVENT : Z := 64.
Definition MIN_READ_BUFFER : Z := 64.

(** The states of a slot, with their numbers. *)
Inductive socket_type :=
| SOCKET_TYPE_INVALID | SOCKET_TYPE_RESERVE | SOCKET_TYPE_PLISTEN | SOCKET_TYPE_LISTEN | SOCKET_TYPE_CONNECTING
| SOCKET_TYPE_CONNECTED | SOCKET_TYPE_HALFCLOSE | SOCKET_TYPE_PACCEPT | SOCKET_TYPE_BIND.

Definition type_code (t : socket_type) : Z :=
  match t with
  | SOCKET_TYPE_INVALID => 0 | SOCKET_TYPE_RESERVE => 1 | SOCKET_TYPE_PLISTEN => 2 | SOCKET_TYPE_LISTEN => 3
  | SOCKET_TYPE_CONNECTING => 4 | SOCKET_TYPE_CONNECTED => 5 | SOCKET_TYPE_HALFCLOSE => 6 | SOCKET_TYPE_PACCEPT => 7
  | SOCKET_TYPE_BIND => 8
  end.

Definition type_eqb (a b : socket_type) : bool := type_code a =? type_code b.
Infix "=t?" := type_eqb (at level 70).

Definition MAX_SOCKET : Z := 2 ^ 16.
Definition PRIORITY_HIGH : Z := 0.
Definition PRIORITY_LOW : Z := 1.
Definition PROTOCOL_TCP : Z := 0.
Definition PROTOCOL_UDP : Z := 1.
Definition PROTOCOL_UDPv6 : Z := 2.
Definition UDP_ADDRESS_SIZE : Z := 19.
Definition MAX_UDP_PACKAGE : Z := 65535.

Definition SOCKET_DATA : Z := 0.
Definition SOCKET_CLOSE : Z := 1.
Definition SOCKET_OPEN : Z := 2.
Definition SOCKET_ACCEPT : Z := 3.
Definition SOCKET_ERROR : Z := 4.
Definition SOCKET_EXIT : Z := 5.
Definition SOCKET_UDP : Z := 6.

Definition HASH_ID (id : Z) : Z := u32 id mod MAX_SOCKET.

Record write_buffer := {
  wb_buffer : ptr;
  wb_ptr : ptr;
  wb_sz : Z;
  wb_userobject : bool;
  wb_udp_address : bytes
}.

#[export] Instance eta_write_buffer : Eta write_buffer := λ w,
  {| wb_buffer := wb_buffer w; wb_ptr := wb_ptr w; wb_sz := wb_sz w; wb_userobject := wb_userobject w;
     wb_udp_address := wb_udp_address w |}.

(** The union [p] holds [p_size] for TCP and [p_udp_address] for UDP. *)
Record socket := {
  s_opaque : Z;
  s_high : list write_buffer;
  s_low : list write_buffer;
  s_wb_size : Z;
  s_fd : Z;
  s_id : Z;
  s_protocol : Z;
  s_type : socket_type;
  p_size : Z;
  p_udp_address : bytes
}.

#[export] Instance eta_socket : Eta socket := λ s,
  {| s_opaque := s_opaque s; s_high := s_high s; s_low := s_low s; s_wb_size := s_wb_size s; s_fd := s_fd s;
     s_id := s_id s; s_protocol := s_protocol s; s_type := s_type s; p_size := p_size s;
     p_udp_address := p_udp_address s |}.

(** A slot of the table after [socket_server_create]; the fields other than the
    type and the lists are unspecified. *)
Definition empty_slot : socket :=
  {| s_opaque := 0; s_high := []; s_low := []; s_wb_size := 0; s_fd := 0; s_id := 0; s_protocol := 0;
     s_type := SOCKET_TYPE_INVALID; p_size := 0; p_udp_address := [] |}.

(** An event of the poll; [None] is the NULL of the control pipe. *)
Record sp_event := { e_s : option Z; e_read : bool; e_write : bool }.

#[export] Instance eta_sp_event : Eta sp_event := λ e, {| e_s := e_s e; e_read := e_read e; e_write := e_write e |}.

Record socket_object_interface := { soi_buffer : ptr → ptr; soi_size : ptr → Z }.

(** [ss_slot] has the slots that were ever used; [ss_ev] the first [event_n]
    entries of the event array. *)
Record socket_server := {
  recvctrl_fd : Z;
  sendctrl_fd : Z;
  checkctrl : Z;
  event_fd : Z;
  alloc_id : Z;
  event_n : Z;
  event_index : Z;
  ss_soi : option socket_object_interface;
  ss_ev : list sp_event;
  ss_slot : gmap Z socket
}.

#[export] Instance eta_socket_server : Eta socket_server := λ s,
  {| recvctrl_fd := recvctrl_fd s; sendctrl_fd := sendctrl_fd s; checkctrl := checkctrl s; event_fd := event_fd s;
     alloc_id := alloc_id s; event_n := event_n s; event_index := event_index s; ss_soi := ss_soi s; ss_ev := ss_ev s;
     ss_slot := ss_slot s |}.

Record socket_message := { sm_id : Z; sm_opaque : Z; sm_ud : Z; sm_data : option bytes }.

#[export] Instance eta_socket_message : Eta socket_message := λ m,
  {| sm_id := sm_id m; sm_opaque := sm_opaque m; sm_ud := sm_ud m; sm_data := sm_data m |}.

(** ** Requests *)

Record request_send := { rs_id : Z; rs_sz : Z; rs_buffer : ptr }.

(** The structs of the union, with the letter that tags them in the pipe. *)
Inductive request :=
| ReqStart (id opaque : Z)
| ReqBind (id fd opaque : Z)
| ReqListen (id fd opaque : Z)
| ReqClose (id shutdown opaque : Z)
| ReqOpen (id port opaque : Z) (host : bytes)
| ReqExit
| ReqSend (r : request_send)
| ReqSendLow (r : request_send)
| ReqSendUdp (r : request_send) (address : bytes)
| ReqSetUdp (id : Z) (address : bytes)
| ReqSetopt (id what value : Z)
| ReqUdp (id fd family opaque : Z).

(** ** The monad *)

(** [w_poll] is the set of descriptors registered with [event_fd]: the pointer
    registered, and whether EPOLLOUT is on.  [w_result] and [w_more] are the
    variables of the caller of [socket_server_poll]. *)
Record world := {
  w_ss : socket_server;
  w_result : socket_message;
  w_more : Z;
  w_errno : Z;
  w_poll : gmap Z (option Z * bool);
  w_pipe : list request;
  w_trace : list io_event
}.

#[export] Instance eta_world : Eta world := λ w,
  {| w_ss := w_ss w; w_result := w_result w; w_more := w_more w; w_errno := w_errno w; w_poll := w_poll w;
     w_pipe := w_pipe w; w_trace := w_trace w |}.

Definition slot (w : world) (i : Z) : socket := default empty_slot (ss_slot (w_ss w) !! i).

Definition set_slot (i : Z) (f : socket → socket) (w : world) : world :=
  w <| w_ss := (w_ss w) <| ss_slot := <[i := f (slot w i)]> (ss_slot (w_ss w)) |> |>.

Definition emit (e : io_event) (w : world) : world := w <| w_trace := w_trace w ++ [e] |>.

Section server.
Context {O : Type} `{OS O}.

(** The contents of the blocks that hold data to send. *)
Context (heap : Z → bytes).

Definition M (A : Type) : Type := world * O → outcome (A * (world * O)).

#[global] Instance M_ret : MRet M := λ A a s, Ret (a, s).
#[global] Instance M_bind : MBind M := λ A B f m s,
  match m s with Ret (a, s) => f a s | Throw => Throw | Stuck => Stuck | OutOfFuel => OutOfFuel end.

Definition get : M world := λ s, Ret (s.1, s).
Definition modify (f : world → world) : M unit := λ s, Ret (tt, (f s.1, s.2)).
Definition stuck {A} : M A := λ _, Stuck.
Definition out_of_fuel {A} : M A := λ _, OutOfFuel.
Definition assert (b : bool) : M unit := if b then mret tt else stuck.
Definition of_option {A} (o : option A) : M A := match o with Some a => mret a | None => stuck end.

Definition get_slot (i : Z) : M socket := w ← get; mret (slot w i).
Definition upd_slot (i : Z) (f : socket → socket) : M unit := modify (set_slot i f).
Definition set_type (i : Z) (type : socket_type) : M unit := upd_slot i (λ s, s <| s_type := type |>).
Definition get_ss : M socket_server := w ← get; mret (w_ss w).
Definition upd_ss (f : socket_server → socket_server) : M unit := modify (λ w, w <| w_ss := f (w_ss w) |>).
Definition set_result (r : socket_message) : M unit := modify (λ w, w <| w_result := r |>).
Definition set_data (d : option bytes) : M unit := modify (λ w, w <| w_result := (w_result w) <| sm_data := d |> |>).
Definition errno : M Z := w ← get; mret (w_errno w).

(** A system call; an error sets [errno]. *)
Definition call {A} (c : sys (Z + A)) : M (option A) := λ s,
  let '(r, o) := os_call c s.2 in
  let w := emit (EvCall c r) s.1 in
  match r with
  | inl e => Ret (None, (w <| w_errno := e |>, o))
  | inr a => Ret (Some a, (w, o))
  end.

(** Calls that return -1 for an error. *)
Definition call_z (c : sys (Z + Z)) : M Z := r ← call c; mret (default (-1) r).

Definition write (fd : Z) (p : ptr) (sz : Z) : M Z :=
  buf ← of_option (copy_out (heap p.1) p.2 sz); call_z (SysWrite fd buf).

Definition sendto (fd : Z) (p : ptr) (sz : Z) (sa : option sockaddr) : M Z :=
  buf ← of_option (copy_out (heap p.1) p.2 sz); call_z (SysSendto fd buf sa).

(** Closing a descriptor also takes it out of the epoll set. *)
Definition close (fd : Z) : M unit :=
  _ ← call (SysClose fd); modify (λ w, w <| w_poll := delete fd (w_poll w) |>).

Definition FREE (p : ptr) : M unit := modify (emit (EvFree p)).
Definition object_free (p : ptr) : M unit := modify (emit (EvObjectFree p)).

(** ** Polling (socket_epoll.h) *)

Definition sp_create : M Z := call_z SysEpollCreate.
Definition sp_invalid (efd : Z) : bool := efd =? -1.
Definition sp_release (efd : Z) : M unit := close efd.

(** Adding a descriptor that is already in the set is an error (EEXIST). *)
Definition sp_add (fd : Z) (ud : option Z) : M Z :=
  w ← get;
  match w_poll w !! fd with
  | Some _ => modify (λ w, w <| w_errno := 17 |>);; mret 1
  | None =>
      r ← call (SysEpollAdd fd);
      match r with
      | None => mret 1
      | Some _ => modify (λ w, w <| w_poll := <[fd := (ud, false)]> (w_poll w) |>);; mret 0
      end
  end.

Definition sp_del (fd : Z) : M unit := modify (λ w, w <| w_poll := delete fd (w_poll w) |>).

(** Modifying a descriptor that is not in the set is an error that is ignored. *)
Definition sp_write (fd : Z) (ud : option Z) (enable : bool) : M unit :=
  modify (λ w, match w_poll w !! fd with
               | Some _ => w <| w_poll := <[fd := (ud, enable)]> (w_poll w) |>
               | None => w
               end).

(** The system answers with descriptors and flags; epoll reports the pointers
    registered with them, and EPOLLOUT only where it is on. *)
Definition sp_wait (max : Z) : M Z :=
  r ← call (SysEpollWait max);
  match r with
  | None => mret (-1)
  | Some l =>
      w ← get;
      let ev := omap (λ '(fd, r, wr), '(ud, on) ← w_poll w !! fd; Some {| e_s := ud; e_read := r; e_write := wr && on |}) l in
      upd_ss (λ s, s <| ss_ev := ev |>);; mret (Z.of_nat (length ev))
  end.

Definition sp_nonblocking (fd : Z) : M unit := _ ← call (SysNonblocking fd); mret tt.

(** ** Send objects *)

Record send_object := { so_buffer : ptr; so_sz : Z; so_user : bool }.

Definition send_object_init (object : ptr) (sz : Z) : M send_object :=
  if sz <? 0 then
    ss ← get_ss;
    soi ← of_option (ss_soi ss);
    mret {| so_buffer := soi_buffer soi object; so_sz := soi_size soi object; so_user := true |}
  else mret {| so_buffer := object; so_sz := sz; so_user := false |}.

(** [so.free_func(p)] *)
Definition free_func (so : send_object) (p : ptr) : M unit := if so_user so then object_free p else FREE p.

Definition write_buffer_free (wb : write_buffer) : M unit :=
  if wb_userobject wb then object_free (wb_buffer wb) else FREE (wb_buffer wb).

Definition socket_keepalive (fd : Z) : M unit :=
  _ ← call (SysSetsockopt fd SOL_SOCKET SO_KEEPALIVE 1); mret tt.

(** ** Ids *)

(** The loop over candidates, [n] of them left.  No other thread intervenes
    between the test and the compare-and-swap. *)
Fixpoint reserve_loop (n : nat) : M Z :=
  match n with
  | 0%nat => mret (-1)
  | S n =>
      upd_ss (λ ss, ss <| alloc_id := i32 (alloc_id ss + 1) |>);;
      ss ← get_ss;
      (if alloc_id ss <? 0 then upd_ss (λ ss, ss <| alloc_id := Z.land (alloc_id ss) 0x7fffffff |>) else mret tt);;
      ss ← get_ss;
      let id := alloc_id ss in
      s ← get_slot (HASH_ID id);
      if s_type s =t? SOCKET_TYPE_INVALID then
        upd_slot (HASH_ID id) (λ s, s <| s_type := SOCKET_TYPE_RESERVE |> <| s_id := id |> <| s_fd := -1 |>);;
        mret id
      else reserve_loop n
  end.

Definition reserve_id : M Z := reserve_loop (Z.to_nat MAX_SOCKET).

(** ** Creation and release *)

Definition socket_server_create : M bool :=
  efd ← sp_create;
  if sp_invalid efd then mret false
  else
    fd ← call SysPipe;
    match fd with
    | None => sp_release efd;; mret false
    | Some (fd0, fd1) =>
        r ← sp_add fd0 None;
        if c_true r then close fd0;; close fd1;; sp_release efd;; mret false
        else
          upd_ss (λ _, {| event_fd := efd; recvctrl_fd := fd0; sendctrl_fd := fd1; checkctrl := 1; ss_slot := ∅;
                          alloc_id := 0; event_n := 0; event_index := 0; ss_soi := None; ss_ev := [] |});;
          assert (fd0 <? 1024);;
          mret true
    end.

Fixpoint free_wb_list (l : list write_buffer) : M unit :=
  match l with
  | [] => mret tt
  | tmp :: l => write_buffer_free tmp;; free_wb_list l
  end.

Definition force_close (i : Z) : M unit :=
  s ← get_slot i;
  set_result {| sm_id := s_id s; sm_opaque := s_opaque s; sm_ud := 0; sm_data := None |};;
  if s_type s =t? SOCKET_TYPE_INVALID then mret tt
  else
    assert (negb (s_type s =t? SOCKET_TYPE_RESERVE));;
    free_wb_list (s_high s);;
    upd_slot i (λ s, s <| s_high := [] |>);;
    free_wb_list (s_low s);;
    upd_slot i (λ s, s <| s_low := [] |>);;
    (if negb (s_type s =t? SOCKET_TYPE_PACCEPT) && negb (s_type s =t? SOCKET_TYPE_PLISTEN) then sp_del (s_fd s) else mret tt);;
    (if negb (s_type s =t? SOCKET_TYPE_BIND) then close (s_fd s) else mret tt);;
    set_type i SOCKET_TYPE_INVALID.

(** The loop over the slots, from [i], [n] of them. *)
Fixpoint release_loop (n : nat) (i : Z) : M unit :=
  match n with
  | 0%nat => mret tt
  | S n =>
      s ← get_slot i;
      (if negb (s_type s =t? SOCKET_TYPE_RESERVE) then force_close i else mret tt);;
      release_loop n (i + 1)
  end.

Definition socket_server_release : M unit :=
  release_loop (Z.to_nat MAX_SOCKET) 0;;
  ss ← get_ss;
  close (sendctrl_fd ss);; close (recvctrl_fd ss);; sp_release (event_fd ss).

(** [check_wb_list] *)
Definition check_wb_list (l : list write_buffer) : M unit := assert (match l with [] => true | _ => false end).

Definition new_fd (id fd protocol opaque : Z) (add : bool) : M (option Z) :=
  let i := HASH_ID id in
  s ← get_slot i;
  assert (s_type s =t? SOCKET_TYPE_RESERVE);;
  failed ← (if add then sp_add fd (Some i) else mret 0);
  if c_true failed then set_type i SOCKET_TYPE_INVALID;; mret None
  else
    upd_slot i (λ s, s <| s_id := id |> <| s_fd := fd |> <| s_protocol := u16 protocol |> <| p_size := MIN_READ_BUFFER |>
                       <| s_opaque := opaque |> <| s_wb_size := 0 |>);;
    s ← get_slot i;
    check_wb_list (s_high s);;
    check_wb_list (s_low s);;
    mret (Some i).

(** ** Opening connections *)

(** The loop over the addresses: the first that can be connected to, with its
    descriptor and the status of [connect] (0, or -1 while in progress). *)
Fixpoint connect_loop (ai_list : list addrinfo) : M (option (Z * Z * addrinfo)) :=
  match ai_list with
  | [] => mret None
  | ai :: ai_list =>
      sock ← call_z (SysSocket (ai_family ai) (ai_socktype ai) (ai_protocol ai));
      if sock <? 0 then connect_loop ai_list
      else
        socket_keepalive sock;;
        sp_nonblocking sock;;
        r ← call (SysConnect sock (ai_addr ai));
        e ← errno;
        match r with
        | Some _ => mret (Some (sock, 0, ai))
        | None =>
            if negb (e =? EINPROGRESS) then close sock;; connect_loop ai_list
            else mret (Some (sock, -1, ai))
        end
  end.

(** The label [_failed]. *)
Definition open_failed (id : Z) (data : option bytes) : M Z :=
  set_data data;;
  set_type (HASH_ID id) SOCKET_TYPE_INVALID;;
  mret SOCKET_ERROR.

Definition open_socket (id port opaque : Z) (host : bytes) : M Z :=
  set_result {| sm_opaque := opaque; sm_id := id; sm_ud := 0; sm_data := None |};;
  r ← call (SysGetaddrinfo host port SOCK_STREAM IPPROTO_TCP);
  status ← errno;
  match r with
  | None => open_failed id (Some (gai_strerror status))
  | Some ai_list =>
      c ← connect_loop ai_list;
      match c with
      | None => e ← errno; open_failed id (Some (strerror e))
      | Some (sock, status, ai) =>
          ns ← new_fd id sock PROTOCOL_TCP opaque true;
          match ns with
          | None => close sock;; open_failed id (Some (str "reach skynet socket number limit"))
          | Some ns =>
              if status =? 0 then
                set_type ns SOCKET_TYPE_CONNECTED;;
                (match inet_ntop (ai_addr ai) with Some b => set_data (Some b) | None => mret tt end);;
                mret SOCKET_OPEN
              else
                set_type ns SOCKET_TYPE_CONNECTING;;
                s ← get_slot ns;
                sp_write (s_fd s) (Some ns) true;;
                mret (-1)
          end
      end
  end.

(** ** Writing *)

(** The two lists of a socket. *)
Inductive wlist := High | Low.

Definition get_list (l : wlist) (s : socket) : list write_buffer := match l with High => s_high s | Low => s_low s end.
Definition set_list (l : wlist) (x : list write_buffer) (s : socket) : socket :=
  match l with High => s <| s_high := x |> | Low => s <| s_low := x |> end.

(** Both loops; EINTR repeats the write of the same buffer. *)
Fixpoint send_list_tcp (fuel : nat) (i : Z) (l : wlist) : M Z :=
  match fuel with
  | 0%nat => out_of_fuel
  | S fuel =>
      s ← get_slot i;
      match get_list l s with
      | [] => mret (-1)
      | tmp :: next =>
          sz ← write (s_fd s) (wb_ptr tmp) (wb_sz tmp);
          e ← errno;
          if sz <? 0 then
            if e =? EINTR then send_list_tcp fuel i l
            else if e =? EAGAIN then mret (-1)
            else force_close i;; mret SOCKET_CLOSE
          else
            upd_slot i (λ s, s <| s_wb_size := s_wb_size s - sz |>);;
            if negb (sz =? wb_sz tmp) then
              upd_slot i (set_list l (tmp <| wb_ptr := ptr_add (wb_ptr tmp) sz |> <| wb_sz := wb_sz tmp - sz |> :: next));;
              mret (-1)
            else
              upd_slot i (set_list l next);;
              write_buffer_free tmp;;
              send_list_tcp fuel i l
      end
  end.

Definition udp_socket_address (s : socket) (udp_address : bytes) : M (option sockaddr) :=
  type ← of_option (zget udp_address 0);
  if negb (type =? s_protocol s) then mret None
  else
    port ← of_option (copy_out udp_address 1 2);
    if s_protocol s =? PROTOCOL_UDP then addr ← of_option (copy_out udp_address 3 4); mret (Some (SockV4 port addr))
    else if s_protocol s =? PROTOCOL_UDPv6 then addr ← of_option (copy_out udp_address 3 16); mret (Some (SockV6 port addr))
    else mret None.

(** The loop of [send_list_udp] over the [n] buffers of the list. *)
Fixpoint send_loop_udp (n : nat) (i : Z) (l : wlist) : M Z :=
  match n with
  | 0%nat => mret (-1)
  | S n =>
      s ← get_slot i;
      match get_list l s with
      | [] => mret (-1)
      | tmp :: next =>
          sa ← udp_socket_address s (wb_udp_address tmp);
          err ← sendto (s_fd s) (wb_ptr tmp) (wb_sz tmp) sa;
          if err <? 0 then mret (-1)
          else
            upd_slot i (λ s, s <| s_wb_size := s_wb_size s - wb_sz tmp |>);;
            upd_slot i (set_list l next);;
            write_buffer_free tmp;;
            send_loop_udp n i l
      end
  end.

Definition send_list_udp (i : Z) (l : wlist) : M Z :=
  s ← get_slot i; send_loop_udp (length (get_list l s)) i l.

Definition send_list (fuel : nat) (i : Z) (l : wlist) : M Z :=
  s ← get_slot i;
  if s_protocol s =? PROTOCOL_TCP then send_list_tcp fuel i l else send_list_udp i l.

Definition list_uncomplete (l : list write_buffer) : bool :=
  match l with
  | [] => false
  | wb :: _ => negb ((wb_ptr wb).1 =? (wb_buffer wb).1) || negb ((wb_ptr wb).2 =? (wb_buffer wb).2)
  end.

Definition raise_uncomplete (i : Z) : M unit :=
  s ← get_slot i;
  match s_low s with
  | [] => stuck
  | tmp :: next =>
      upd_slot i (λ s, s <| s_low := next |>);;
      s ← get_slot i;
      check_wb_list (s_high s);;
      upd_slot i (λ s, s <| s_high := [tmp] |>)
  end.

Definition is_empty {A} (l : list A) : bool := match l with [] => true | _ => false end.

Definition send_buffer (fuel : nat) (i : Z) : M Z :=
  s ← get_slot i;
  assert (negb (list_uncomplete (s_low s)));;
  r ← send_list fuel i High;
  if r =? SOCKET_CLOSE then mret SOCKET_CLOSE
  else
    s ← get_slot i;
    if is_empty (s_high s) then
      if negb (is_empty (s_low s)) then
        r ← send_list fuel i Low;
        if r =? SOCKET_CLOSE then mret SOCKET_CLOSE
        else
          s ← get_slot i;
          (if list_uncomplete (s_low s) then raise_uncomplete i else mret tt);;
          mret (-1)
      else
        sp_write (s_fd s) (Some i) false;;
        if s_type s =t? SOCKET_TYPE_HALFCLOSE then force_close i;; mret SOCKET_CLOSE else mret (-1)
    else mret (-1).

(** The new buffer, appended to a list. *)
Definition append_sendbuffer_ (i : Z) (l : wlist) (request : request_send) (udp_address : bytes) (n : Z) : M write_buffer :=
  so ← send_object_init (rs_buffer request) (rs_sz request);
  let buf := {| wb_userobject := so_user so; wb_ptr := ptr_add (so_buffer so) n; wb_sz := so_sz so - n;
                wb_buffer := rs_buffer request; wb_udp_address := udp_address |} in
  upd_slot i (λ s, set_list l (get_list l s ++ [buf]) s);;
  mret buf.

Definition append_sendbuffer_udp (i priority : Z) (request : request_send) (udp_address : bytes) : M unit :=
  let wl := if priority =? PRIORITY_HIGH then High else Low in
  buf ← append_sendbuffer_ i wl request udp_address 0;
  upd_slot i (λ s, s <| s_wb_size := s_wb_size s + wb_sz buf |>).

Definition append_sendbuffer (i : Z) (request : request_send) (n : Z) : M unit :=
  buf ← append_sendbuffer_ i High request [] n;
  upd_slot i (λ s, s <| s_wb_size := s_wb_size s + wb_sz buf |>).

Definition append_sendbuffer_low (i : Z) (request : request_send) : M unit :=
  buf ← append_sendbuffer_ i Low request [] 0;
  upd_slot i (λ s, s <| s_wb_size := s_wb_size s + wb_sz buf |>).

Definition send_buffer_empty (s : socket) : bool := is_empty (s_high s) && is_empty (s_low s).

Definition send_socket (request : request_send) (priority : Z) (udp_address : option bytes) : M Z :=
  let id := rs_id request in
  let i := HASH_ID id in
  s ← get_slot i;
  so ← send_object_init (rs_buffer request) (rs_sz request);
  if (s_type s =t? SOCKET_TYPE_INVALID) || negb (s_id s =? id)
     || (s_type s =t? SOCKET_TYPE_HALFCLOSE) || (s_type s =t? SOCKET_TYPE_PACCEPT)
  then free_func so (rs_buffer request);; mret (-1)
  else if (s_type s =t? SOCKET_TYPE_PLISTEN) || (s_type s =t? SOCKET_TYPE_LISTEN)
  then free_func so (rs_buffer request);; mret (-1)
  else if send_buffer_empty s && (s_type s =t? SOCKET_TYPE_CONNECTED) then
    if s_protocol s =? PROTOCOL_TCP then
      n ← write (s_fd s) (so_buffer so) (so_sz so);
      e ← errno;
      if (n <? 0) && negb (e =? EINTR) && negb (e =? EAGAIN) then
        force_close i;; free_func so (rs_buffer request);; mret SOCKET_CLOSE
      else
        let n := if n <? 0 then 0 else n in
        if n =? so_sz so then free_func so (rs_buffer request);; mret (-1)
        else append_sendbuffer i request n;; sp_write (s_fd s) (Some i) true;; mret (-1)
    else
      let udp_address := default (p_udp_address s) udp_address in
      sa ← udp_socket_address s udp_address;
      n ← sendto (s_fd s) (so_buffer so) (so_sz so) sa;
      if negb (n =? so_sz so) then
        append_sendbuffer_udp i priority request udp_address;; sp_write (s_fd s) (Some i) true;; mret (-1)
      else free_func so (rs_buffer request);; mret (-1)
  else
    (if s_protocol s =? PROTOCOL_TCP then
       if priority =? PRIORITY_LOW then append_sendbuffer_low i request else append_sendbuffer i request 0
     else append_sendbuffer_udp i priority request (default (p_udp_address s) udp_address));;
    mret (-1).

(** ** Requests of the services *)

Definition listen_socket (id fd opaque : Z) : M Z :=
  s ← new_fd id fd PROTOCOL_TCP opaque false;
  match s with
  | None =>
      close fd;;
      set_result {| sm_opaque := opaque; sm_id := id; sm_ud := 0; sm_data := Some (str "reach skynet socket number limit") |};;
      set_type (HASH_ID id) SOCKET_TYPE_INVALID;;
      mret SOCKET_ERROR
  | Some s => set_type s SOCKET_TYPE_PLISTEN;; mret (-1)
  end.

Definition close_socket (fuel : nat) (id shutdown opaque : Z) : M Z :=
  let i := HASH_ID id in
  s ← get_slot i;
  if (s_type s =t? SOCKET_TYPE_INVALID) || negb (s_id s =? id) then
    set_result {| sm_id := id; sm_opaque := opaque; sm_ud := 0; sm_data := None |};;
    mret SOCKET_CLOSE
  else
    type ← (if negb (send_buffer_empty s) then send_buffer fuel i else mret (-1));
    if negb (type =? -1) then mret type
    else
      s ← get_slot i;
      if c_true shutdown || send_buffer_empty s then
        force_close i;;
        modify (λ w, w <| w_result := (w_result w) <| sm_id := id |> <| sm_opaque := opaque |> |>);;
        mret SOCKET_CLOSE
      else set_type i SOCKET_TYPE_HALFCLOSE;; mret (-1).

Definition bind_socket (id fd opaque : Z) : M Z :=
  modify (λ w, w <| w_result := (w_result w) <| sm_id := id |> <| sm_opaque := opaque |> <| sm_ud := 0 |> |>);;
  s ← new_fd id fd PROTOCOL_TCP opaque true;
  match s with
  | None => set_data (Some (str "reach skynet socket number limit"));; mret SOCKET_ERROR
  | Some s =>
      sp_nonblocking fd;;
      set_type s SOCKET_TYPE_BIND;;
      set_data (Some (str "binding"));;
      mret SOCKET_OPEN
  end.

Definition start_socket (id opaque : Z) : M Z :=
  set_result {| sm_id := id; sm_opaque := opaque; sm_ud := 0; sm_data := None |};;
  let i := HASH_ID id in
  s ← get_slot i;
  if (s_type s =t? SOCKET_TYPE_INVALID) || negb (s_id s =? id) then
    set_data (Some (str "invalid socket"));; mret SOCKET_ERROR
  else if (s_type s =t? SOCKET_TYPE_PACCEPT) || (s_type s =t? SOCKET_TYPE_PLISTEN) then
    failed ← sp_add (s_fd s) (Some i);
    if c_true failed then
      force_close i;;
      e ← errno;
      set_data (Some (strerror e));;
      mret SOCKET_ERROR
    else
      set_type i (if s_type s =t? SOCKET_TYPE_PACCEPT then SOCKET_TYPE_CONNECTED else SOCKET_TYPE_LISTEN);;
      upd_slot i (λ s, s <| s_opaque := opaque |>);;
      set_data (Some (str "start"));;
      mret SOCKET_OPEN
  else if s_type s =t? SOCKET_TYPE_CONNECTED then
    upd_slot i (λ s, s <| s_opaque := opaque |>);;
    set_data (Some (str "transfer"));;
    mret SOCKET_OPEN
  else mret (-1).

Definition setopt_socket (id what value : Z) : M unit :=
  s ← get_slot (HASH_ID id);
  if (s_type s =t? SOCKET_TYPE_INVALID) || negb (s_id s =? id) then mret tt
  else _ ← call (SysSetsockopt (s_fd s) IPPROTO_TCP what value); mret tt.

(** [block_readpipe]: the next request, which was written as a whole; reading
    from an empty pipe blocks for ever. *)
Definition block_readpipe : M request :=
  w ← get;
  match w_pipe w with
  | [] => out_of_fuel
  | r :: rest => modify (λ w, w <| w_pipe := rest |>);; mret r
  end.

(** [select] reports the pipe as readable when there is a request, unless it
    fails. *)
Definition has_cmd : M bool :=
  ss ← get_ss;
  r ← call (SysSelect (recvctrl_fd ss));
  w ← get;
  mret (match r with Some _ => negb (is_empty (w_pipe w)) | None => false end).

Definition add_udp_socket (id fd family opaque : Z) : M unit :=
  let protocol := if family =? AF_INET6 then PROTOCOL_UDPv6 else PROTOCOL_UDP in
  ns ← new_fd id fd protocol opaque true;
  match ns with
  | None => close fd;; set_type (HASH_ID id) SOCKET_TYPE_INVALID
  | Some ns =>
      set_type ns SOCKET_TYPE_CONNECTED;;
      upd_slot ns (λ s, s <| p_udp_address := replicate (Z.to_nat UDP_ADDRESS_SIZE) 0 |>)
  end.

Definition set_udp_address (id : Z) (address : bytes) : M Z :=
  let i := HASH_ID id in
  s ← get_slot i;
  if (s_type s =t? SOCKET_TYPE_INVALID) || negb (s_id s =? id) then mret (-1)
  else
    type ← of_option (zget address 0);
    if negb (type =? s_protocol s) then
      set_result {| sm_opaque := s_opaque s; sm_id := s_id s; sm_ud := 0; sm_data := Some (str "protocol mismatch") |};;
      mret SOCKET_ERROR
    else
      a ← of_option (memcpy_to (p_udp_address s) 0 address (if type =? PROTOCOL_UDP then 1 + 2 + 4 else 1 + 2 + 16));
      upd_slot i (λ s, s <| p_udp_address := a |>);;
      mret (-1).

Definition ctrl_cmd (fuel : nat) : M Z :=
  r ← block_readpipe;
  match r with
  | ReqStart id opaque => start_socket id opaque
  | ReqBind id fd opaque => bind_socket id fd opaque
  | ReqListen id fd opaque => listen_socket id fd opaque
  | ReqClose id shutdown opaque => close_socket fuel id shutdown opaque
  | ReqOpen id port opaque host => open_socket id port opaque host
  | ReqExit => set_result {| sm_opaque := 0; sm_id := 0; sm_ud := 0; sm_data := None |};; mret SOCKET_EXIT
  | ReqSend r => send_socket r PRIORITY_HIGH None
  | ReqSendLow r => send_socket r PRIORITY_LOW None
  | ReqSendUdp r address => send_socket r PRIORITY_HIGH (Some address)
  | ReqSetUdp id address => set_udp_address id address
  | ReqSetopt id what value => setopt_socket id what value;; mret (-1)
  | ReqUdp id fd family opaque => add_udp_socket id fd family opaque;; mret (-1)
  end.

(** ** Events *)

Definition forward_message_tcp (i : Z) : M Z :=
  s ← get_slot i;
  let sz := p_size s in
  r ← call (SysRead (s_fd s) sz);
  match r with
  | None =>
      e ← errno;
      if (e =? EINTR) || (e =? EAGAIN) then mret (-1)
      else
        force_close i;;
        e ← errno;
        set_data (Some (strerror e));;
        mret SOCKET_ERROR
  | Some buffer =>
      let n := Z.of_nat (length buffer) in
      if n =? 0 then force_close i;; mret SOCKET_CLOSE
      else if s_type s =t? SOCKET_TYPE_HALFCLOSE then mret (-1)
      else
        (if n =? sz then
           assert (sz * 2 <? 2 ^ 31);; upd_slot i (λ s, s <| p_size := sz * 2 |>)
         else if (MIN_READ_BUFFER <? sz) && (n * 2 <? sz) then upd_slot i (λ s, s <| p_size := Z.quot sz 2 |>)
         else mret tt);;
        set_result {| sm_opaque := s_opaque s; sm_id := s_id s; sm_ud := n; sm_data := Some buffer |};;
        mret SOCKET_DATA
  end.

(** The bytes written to [udp_address]. *)
Definition gen_udp_address (protocol : Z) (sa : sockaddr) : bytes :=
  match sa with SockV4 port addr | SockV6 port addr => u8 protocol :: port ++ addr end.

Definition forward_message_udp (i : Z) : M Z :=
  s ← get_slot i;
  r ← call (SysRecvfrom (s_fd s) MAX_UDP_PACKAGE);
  match r with
  | None =>
      e ← errno;
      if (e =? EINTR) || (e =? EAGAIN) then mret (-1)
      else
        force_close i;;
        e ← errno;
        set_data (Some (strerror e));;
        mret SOCKET_ERROR
  | Some (buf, sa) =>
      let protocol := match sa with SockV4 _ _ => PROTOCOL_UDP | SockV6 _ _ => PROTOCOL_UDPv6 end in
      if negb (s_protocol s =? protocol) then mret (-1)
      else
        set_result {| sm_opaque := s_opaque s; sm_id := s_id s; sm_ud := Z.of_nat (length buf);
                      sm_data := Some (buf ++ gen_udp_address protocol sa) |};;
        mret SOCKET_UDP
  end.

Definition report_connect (i : Z) : M Z :=
  s ← get_slot i;
  r ← call (SysGetSoError (s_fd s));
  if (match r with None => true | Some error => c_true error end) then
    force_close i;;
    e ← errno;
    set_data (Some (strerror (match r with Some error => error | None => e end)));;
    mret SOCKET_ERROR
  else
    set_type i SOCKET_TYPE_CONNECTED;;
    modify (λ w, w <| w_result := (w_result w) <| sm_opaque := s_opaque s |> <| sm_id := s_id s |> <| sm_ud := 0 |> |>);;
    (if send_buffer_empty s then sp_write (s_fd s) (Some i) false else mret tt);;
    u ← call (SysGetpeername (s_fd s));
    set_data (u ≫= inet_ntop);;
    mret SOCKET_OPEN.

(** Network byte order. *)
Definition ntohs (port : bytes) : Z := match port with [a; b] => a * 256 + b | _ => 0 end.

Definition report_accept (i : Z) : M Z :=
  s ← get_slot i;
  r ← call (SysAccept (s_fd s));
  match r with
  | None =>
      e ← errno;
      if (e =? EMFILE) || (e =? ENFILE) then
        set_result {| sm_opaque := s_opaque s; sm_id := s_id s; sm_ud := 0; sm_data := Some (strerror e) |};;
        mret (-1)
      else mret 0
  | Some (client_fd, u) =>
      id ← reserve_id;
      if id <? 0 then close client_fd;; mret 0
      else
        socket_keepalive client_fd;;
        sp_nonblocking client_fd;;
        ns ← new_fd id client_fd PROTOCOL_TCP (s_opaque s) false;
        match ns with
        | None => close client_fd;; mret 0
        | Some ns =>
            set_type ns SOCKET_TYPE_PACCEPT;;
            set_result {| sm_opaque := s_opaque s; sm_id := s_id s; sm_ud := id; sm_data := None |};;
            (match inet_ntop u with
             | Some tmp => set_data (Some (tmp ++ str ":" ++ print_d (ntohs (sa_port u))))
             | None => mret tt
             end);;
            mret 1
        end
  end.

(** The scan of [clear_closed_event], over the events from [event_index] on. *)
Fixpoint clear_scan (w : world) (id : Z) (l : list sp_event) : list sp_event :=
  match l with
  | [] => []
  | e :: l =>
      match e_s e with
      | Some i =>
          if (s_type (slot w i) =t? SOCKET_TYPE_INVALID) && (s_id (slot w i) =? id)
          then e <| e_s := None |> :: l else e :: clear_scan w id l
      | None => e :: clear_scan w id l
      end
  end.

Definition clear_closed_event (type : Z) : M unit :=
  if (type =? SOCKET_CLOSE) || (type =? SOCKET_ERROR) then
    modify (λ w,
      let ss := w_ss w in
      let n := Z.to_nat (event_index ss) in
      w <| w_ss := ss <| ss_ev := take n (ss_ev ss) ++ clear_scan w (sm_id (w_result w)) (drop n (ss_ev ss)) |> |>)
  else mret tt.

(** What the event [e] of socket [i] leads to; [None] continues the loop. *)
Definition poll_event (fuel : nat) (e : sp_event) (i : Z) : M (option Z) :=
  s ← get_slot i;
  if s_type s =t? SOCKET_TYPE_CONNECTING then r ← report_connect i; mret (Some r)
  else if s_type s =t? SOCKET_TYPE_LISTEN then
    ok ← report_accept i;
    mret (if 0 <? ok then Some SOCKET_ACCEPT else if ok <? 0 then Some SOCKET_ERROR else None)
  else if s_type s =t? SOCKET_TYPE_INVALID then mret None
  else if e_read e then
    type ← (if s_protocol s =? PROTOCOL_TCP then forward_message_tcp i else forward_message_udp i);
    if negb (s_protocol s =? PROTOCOL_TCP) && (type =? SOCKET_UDP) then
      upd_ss (λ ss, ss <| event_index := event_index ss - 1 |>);;
      mret (Some SOCKET_UDP)
    else
      (if e_write e && negb (type =? SOCKET_CLOSE) && negb (type =? SOCKET_ERROR) then
         upd_ss (λ ss, ss <| ss_ev := <[Z.to_nat (event_index ss - 1) := e <| e_read := false |>]> (ss_ev ss) |>
                          <| event_index := event_index ss - 1 |>)
       else mret tt);;
      mret (if type =? -1 then None else Some type)
  else if e_write e then
    type ← send_buffer fuel i;
    mret (if type =? -1 then None else Some type)
  else mret None.

(** The part of the loop body that takes an event. *)
Definition poll_step (fuel : nat) : M (option Z) :=
  ss ← get_ss;
  wait ← ((if event_index ss =? event_n ss then
            n ← sp_wait MAX_EVENT;
            upd_ss (λ ss, ss <| checkctrl := 1 |> <| event_index := 0 |> <| event_n := if n <=? 0 then 0 else n |>
                             <| ss_ev := if n <=? 0 then [] else ss_ev ss |>);;
            modify (λ w, w <| w_more := 0 |>);;
            mret (n <=? 0)
          else mret false) : M bool);
  if (wait : bool) then mret (Some (-1))
  else
    ss ← get_ss;
    e ← of_option (zget (ss_ev ss) (event_index ss));
    upd_ss (λ ss, ss <| event_index := event_index ss + 1 |>);;
    match e_s e with
    | None => mret None
    | Some i => poll_event fuel e i
    end.

(** One turn of the loop: a request while there are any, else an event. *)
Definition poll_turn (fuel : nat) : M (option Z) :=
  ss ← get_ss;
  cmd ← ((if c_true (checkctrl ss) then has_cmd else mret false) : M bool);
  if (cmd : bool) then
    type ← ctrl_cmd fuel;
    if negb (type =? -1) then clear_closed_event type;; mret (Some type) else mret None
  else
    upd_ss (λ ss, ss <| checkctrl := 0 |>);;
    poll_step fuel.

Fixpoint socket_server_poll (fuel : nat) : M Z :=
  match fuel with
  | 0%nat => out_of_fuel
  | S fuel' =>
      r ← poll_turn fuel;
      match r with
      | Some type => mret type
      | None => socket_server_poll fuel'
      end
  end.

(** ** Functions called by the services *)

(** [send_request]: a request is written to the pipe as a whole. *)
Definition send_request (r : request) : M unit := modify (λ w, w <| w_pipe := w_pipe w ++ [r] |>).

(** [sizeof(req->u.open)] *)
Definition sizeof_request_open : Z := 24.

(** The id reserved for the request. *)
Definition open_request (addr : bytes) : M (option Z) :=
  if 256 <=? Z.of_nat (length addr) + sizeof_request_open then mret None
  else
    id ← reserve_id;
    mret (if id <? 0 then None else Some id).

Definition socket_server_connect (opaque : Z) (addr : bytes) (port : Z) : M Z :=
  r ← open_request addr;
  match r with
  | None => mret (-1)
  | Some id => send_request (ReqOpen id port opaque addr);; mret id
  end.

Definition free_buffer (buffer : ptr) (sz : Z) : M unit :=
  so ← send_object_init buffer sz; free_func so buffer.

Definition socket_server_send (id : Z) (buffer : ptr) (sz : Z) : M Z :=
  s ← get_slot (HASH_ID id);
  if negb (s_id s =? id) || (s_type s =t? SOCKET_TYPE_INVALID) then free_buffer buffer sz;; mret (-1)
  else
    send_request (ReqSend {| rs_id := id; rs_sz := sz; rs_buffer := buffer |});;
    s ← get_slot (HASH_ID id);
    mret (s_wb_size s).

Definition socket_server_send_lowpriority (id : Z) (buffer : ptr) (sz : Z) : M unit :=
  s ← get_slot (HASH_ID id);
  if negb (s_id s =? id) || (s_type s =t? SOCKET_TYPE_INVALID) then free_buffer buffer sz
  else send_request (ReqSendLow {| rs_id := id; rs_sz := sz; rs_buffer := buffer |}).

Definition socket_server_exit : M unit := send_request ReqExit.

Definition socket_server_close (opaque id : Z) : M unit := send_request (ReqClose id 0 opaque).

Definition socket_server_shutdown (opaque id : Z) : M unit := send_request (ReqClose id 1 opaque).

(** The descriptor and the address family; [host] is [None] for NULL. *)
Definition do_bind (host : option bytes) (port protocol : Z) : M (option (Z * Z)) :=
  let host := match host with Some (c :: h) => c :: h | _ => str "0.0.0.0" end in
  assert ((protocol =? IPPROTO_TCP) || (protocol =? IPPROTO_UDP));;
  r ← call (SysGetaddrinfo host port (if protocol =? IPPROTO_TCP then SOCK_STREAM else SOCK_DGRAM) protocol);
  match r with
  | None => mret None
  | Some [] => stuck
  | Some (ai :: _) =>
      fd ← call_z (SysSocket (ai_family ai) (ai_socktype ai) 0);
      if fd <? 0 then mret None
      else
        r ← call (SysSetsockopt fd SOL_SOCKET SO_REUSEADDR 1);
        match r with
        | None => close fd;; mret None
        | Some _ =>
            r ← call (SysBind fd (ai_addr ai));
            match r with
            | None => close fd;; mret None
            | Some _ => mret (Some (fd, ai_family ai))
            end
        end
  end.

Definition do_listen (host : option bytes) (port backlog : Z) : M Z :=
  r ← do_bind host port IPPROTO_TCP;
  match r with
  | None => mret (-1)
  | Some (listen_fd, _) =>
      r ← call (SysListen listen_fd backlog);
      match r with
      | None => close listen_fd;; mret (-1)
      | Some _ => mret listen_fd
      end
  end.

Definition socket_server_listen (opaque : Z) (addr : option bytes) (port backlog : Z) : M Z :=
  fd ← do_listen addr port backlog;
  if fd <? 0 then mret (-1)
  else
    id ← reserve_id;
    if id <? 0 then close fd;; mret id
    else send_request (ReqListen id fd opaque);; mret id.

Definition socket_server_bind (opaque fd : Z) : M Z :=
  id ← reserve_id;
  if id <? 0 then mret (-1) else send_request (ReqBind id fd opaque);; mret id.

Definition socket_server_start (opaque id : Z) : M unit := send_request (ReqStart id opaque).

Definition socket_server_nodelay (id : Z) : M unit := send_request (ReqSetopt id TCP_NODELAY 1).

Definition socket_server_userobject (soi : socket_object_interface) : M unit :=
  upd_ss (λ ss, ss <| ss_soi := Some soi |>).

Definition socket_server_udp (opaque : Z) (addr : option bytes) (port : Z) : M Z :=
  r ← (if negb (port =? 0) || (match addr with Some _ => true | None => false end) then do_bind addr port IPPROTO_UDP
       else
         fd ← call_z (SysSocket AF_INET SOCK_DGRAM 0);
         mret (if fd <? 0 then None else Some (fd, AF_INET)));
  match r with
  | None => mret (-1)
  | Some (fd, family) =>
      sp_nonblocking fd;;
      id ← reserve_id;
      if id <? 0 then close fd;; mret (-1)
      else send_request (ReqUdp id fd family opaque);; mret id
  end.

(** The size of an address by its first byte. *)
Definition udp_address_size (type : Z) : option Z :=
  if type =? PROTOCOL_UDP then Some (1 + 2 + 4) else if type =? PROTOCOL_UDPv6 then Some (1 + 2 + 16) else None.

Definition socket_server_udp_send (id : Z) (addr : bytes) (buffer : ptr) (sz : Z) : M Z :=
  s ← get_slot (HASH_ID id);
  if negb (s_id s =? id) || (s_type s =t? SOCKET_TYPE_INVALID) then free_buffer buffer sz;; mret (-1)
  else
    type ← of_option (zget addr 0);
    match udp_address_size type with
    | None => free_buffer buffer sz;; mret (-1)
    | Some addrsz =>
        address ← of_option (copy_out addr 0 addrsz);
        send_request (ReqSendUdp {| rs_id := id; rs_sz := sz; rs_buffer := buffer |} address);;
        s ← get_slot (HASH_ID id);
        mret (s_wb_size s)
    end.

Definition socket_server_udp_connect (id : Z) (addr : bytes) (port : Z) : M Z :=
  r ← call (SysGetaddrinfo addr port SOCK_DGRAM IPPROTO_UDP);
  match r with
  | None => mret (-1)
  | Some [] => stuck
  | Some (ai :: _) =>
      if ai_family ai =? AF_INET then
        send_request (ReqSetUdp id (gen_udp_address PROTOCOL_UDP (ai_addr ai)));; mret 0
      else if ai_family ai =? AF_INET6 then
        send_request (ReqSetUdp id (gen_udp_address PROTOCOL_UDPv6 (ai_addr ai)));; mret 0
      else mret (-1)
  end.

(** The address behind the data of a message, and its size. *)
Definition socket_server_udp_address (msg : socket_message) : M (option (bytes * Z)) :=
  data ← of_option (sm_data msg);
  type ← of_option (zget data (sm_ud msg));
  mret (n ← udp_address_size type; Some (drop (Z.to_nat (sm_ud msg)) data, n)).

End server.
