(* ===== verification/SocketInv.v ===== *)
(** * The invariant of the socket server

    A small program logic for the functions of SocketServer.v, the invariant
    that ties the slots of the server to the requests in the pipe, the epoll set
    and the events not handled yet, and the proof that every request and every
    event keeps it, whatever the operating system answers.  SocketSafe.v puts the
    socket thread and the service threads together. *)

From stdpp Require Import prelude list gmap list_numbers strings.
From S2P Require Import Prelude CString SocketServer.

(** ** Laws of the operating system *)

(** Addresses have the sizes of their family. *)
Definition addrinfo_ok (ai : addrinfo) : Prop :=
  match ai_addr ai with
  | SockV4 port addr => ai_family ai = AF_INET ∧ length port = 2%nat ∧ length addr = 4%nat
  | SockV6 port addr => ai_family ai = AF_INET6 ∧ length port = 2%nat ∧ length addr = 16%nat
  end.

(** What the answers of the system calls satisfy: a write takes at most what it
    was given, a read returns less than a gigabyte (the limit of a socket
    buffer), [getaddrinfo] succeeds with at least one address, and epoll reports
    a descriptor once. *)
Definition sys_law {T} (c : sys T) : T → Prop :=
  match c in sys T return T → Prop with
  | SysWrite _ buf => λ r, ∀ n, r = inr n → 0 <= n <= Z.of_nat (length buf)
  | SysRead _ sz => λ r, ∀ b, r = inr b → Z.of_nat (length b) < 2 ^ 30
  | SysGetaddrinfo _ _ _ _ => λ r, ∀ l, r = inr l → l ≠ [] ∧ Forall addrinfo_ok l
  | SysEpollWait max => λ r, ∀ l, r = inr l → NoDup (map (λ e : Z * bool * bool, e.1.1) l)
  | _ => λ _, True
  end.

Class OSLaws (O : Type) `{OS O} := os_law : ∀ A (c : sys (Z + A)) o, sys_law c (os_call c o).1.

(** ** Weakest preconditions *)

Section wp.
Context {O : Type} `{OSLaws O}.

(** [m] does not get stuck from [w], and if it returns, [Q] holds of the result
    and the state, whatever the operating system does. *)
Definition wp {A} (m : M (O := O) A) (Q : A → world → Prop) (w : world) : Prop :=
  ∀ o, match m (w, o) with Ret (a, (w', _)) => Q a w' | OutOfFuel => True | _ => False end.

Lemma server_ret {A} (a : A) Q w : Q a w → wp (mret a) Q w.
Proof. by intros HQ o. Qed.

Lemma server_bind {A B} (m : M A) (f : A → M B) Q w : wp m (λ a w', wp (f a) Q w') w → wp (m ≫= f) Q w.
Proof.
  intros Hm o. unfold mbind, M_bind. specialize (Hm o).
  destruct (m (w, o)) as [[a [w' o']]| | |]; [apply Hm|done..].
Qed.

Lemma server_mono {A} (m : M A) (Q Q' : A → world → Prop) w : wp m Q w → (∀ a w', Q a w' → Q' a w') → wp m Q' w.
Proof.
  intros Hm HQ o. specialize (Hm o). destruct (m (w, o)) as [[a [w' o']]| | |]; [by apply HQ|done..].
Qed.

Lemma wp_get (Q : world → world → Prop) w : Q w w → wp get Q w.
Proof. by intros HQ o. Qed.

Lemma wp_modify f (Q : unit → world → Prop) w : Q tt (f w) → wp (modify f) Q w.
Proof. by intros HQ o. Qed.

Lemma wp_out_of_fuel {A} (Q : A → world → Prop) w : wp out_of_fuel Q w.
Proof. by intros o. Qed.

Lemma wp_assert b (Q : unit → world → Prop) w : b = true → Q tt w → wp (assert b) Q w.
Proof. by intros -> HQ o. Qed.

Lemma wp_of_option {A} (x : option A) (Q : A → world → Prop) w a : x = Some a → Q a w → wp (of_option x) Q w.
Proof. by intros -> HQ o. Qed.

(** The states a system call cannot tell apart. *)
Record same (w w' : world) : Prop := {
  same_ss : w_ss w' = w_ss w;
  same_poll : w_poll w' = w_poll w;
  same_pipe : w_pipe w' = w_pipe w;
  same_result : w_result w' = w_result w
}.

Lemma same_refl w : same w w.
Proof. done. Qed.

Lemma same_trans w w' w'' : same w w' → same w' w'' → same w w''.
Proof. intros [? ? ? ?] [? ? ? ?]. split; congruence. Qed.

Lemma same_slot w w' i : same w w' → slot w' i = slot w i.
Proof. intros [E _ _ _]. unfold slot. by rewrite E. Qed.

Lemma wp_call {A} (c : sys (Z + A)) (Q : option A → world → Prop) w :
  (∀ r w', same w w' → (∀ a, r = Some a → sys_law c (inr a)) → Q r w') → wp (call c) Q w.
Proof.
  intros HQ o. unfold call. cbn [fst snd]. pose proof (os_law A c o) as Hl.
  destruct (os_call c o) as [[e|a] o']; cbn [fst] in Hl.
  - apply HQ; [done|done].
  - apply HQ; [done|]. by intros a' [= <-].
Qed.

Lemma wp_call_ignore {A} (c : sys (Z + A)) (Q : unit → world → Prop) w :
  (∀ w', same w w' → Q tt w') → wp (_ ← call c; mret tt) Q w.
Proof. intros HQ. apply server_bind, wp_call. intros r w' Hs _. apply server_ret. by apply HQ. Qed.

Lemma wp_call_z c (Q : Z → world → Prop) w :
  (∀ n w', same w w' → (0 <= n → sys_law c (inr n)) → Q n w') → wp (call_z c) Q w.
Proof.
  intros HQ. apply server_bind, wp_call. intros [n|] w' Hs Hl; apply server_ret, HQ; [done|auto|done|simpl; lia].
Qed.

End wp.

(** The rules for the commands, tried in turn. *)
Ltac wstep :=
  lazymatch goal with
  | |- wp (_ ≫= _) _ _ => apply server_bind
  | |- wp (mret _) _ _ => apply server_ret
  | |- wp get _ _ => apply wp_get
  | |- wp (modify _) _ _ => apply wp_modify
  | |- wp (get_slot _) _ _ => apply server_bind, wp_get, server_ret
  | |- wp get_ss _ _ => apply server_bind, wp_get, server_ret
  | |- wp errno _ _ => apply server_bind, wp_get, server_ret
  | |- wp (upd_slot _ _) _ _ => apply wp_modify
  | |- wp (set_type _ _) _ _ => apply wp_modify
  | |- wp (upd_ss _) _ _ => apply wp_modify
  | |- wp (set_result _) _ _ => apply wp_modify
  | |- wp (set_data _) _ _ => apply wp_modify
  | |- wp (FREE _) _ _ => apply wp_modify
  | |- wp (sp_del _) _ _ => apply wp_modify
  | |- wp (sp_write _ _ _) _ _ => apply wp_modify
  | |- wp (send_request _) _ _ => apply wp_modify
  | |- wp (object_free _) _ _ => apply wp_modify
  | |- wp out_of_fuel _ _ => apply wp_out_of_fuel
  | |- wp (sp_nonblocking _) _ _ => apply wp_call_ignore
  | |- wp (socket_keepalive _) _ _ => apply wp_call_ignore
  end.

Lemma type_eqb_spec a b : reflect (a = b) (a =t? b).
Proof. destruct a, b; by constructor. Qed.

(** ** The invariant *)

(** Sockets in these states are registered with epoll. *)
Definition polled (t : socket_type) : Prop :=
  match t with
  | SOCKET_TYPE_LISTEN | SOCKET_TYPE_CONNECTING | SOCKET_TYPE_CONNECTED | SOCKET_TYPE_HALFCLOSE | SOCKET_TYPE_BIND => True
  | _ => False
  end.

(** Sockets in these states have nothing to send. *)
Definition idle_type (t : socket_type) : Prop :=
  match t with
  | SOCKET_TYPE_INVALID | SOCKET_TYPE_RESERVE | SOCKET_TYPE_PLISTEN | SOCKET_TYPE_LISTEN | SOCKET_TYPE_PACCEPT => True
  | _ => False
  end.

Definition is_protocol (p : Z) : Prop := p = PROTOCOL_TCP ∨ p = PROTOCOL_UDP ∨ p = PROTOCOL_UDPv6.

(** An address is as long as its first byte says. *)
Definition addr_ok (a : bytes) : Prop := ∃ t, zget a 0 = Some t ∧ ∀ n, udp_address_size t = Some n → n <= Z.of_nat (length a).

Section inv.
Context (heap : Z → bytes).

(** Whether services bind descriptors of their own. *)
Context (B : bool).

(** The ids reserved by services whose request is not in the pipe yet. *)
Context (F0 : list Z).

(** The states in which unsent data is sure to be noticed.  A bound descriptor
    is not polled for writing, and a half-closed one may have been bound. *)
Definition watched (t : socket_type) : Prop := B = false ∨ t = SOCKET_TYPE_CONNECTED ∨ t = SOCKET_TYPE_CONNECTING.

(** The bytes of a buffer still to be written. *)
Definition readable (p : ptr) (sz : Z) : Prop := is_Some (copy_out (heap p.1) p.2 sz).

Definition wb_ok (protocol : Z) (wb : write_buffer) : Prop :=
  readable (wb_ptr wb) (wb_sz wb) ∧ (protocol ≠ PROTOCOL_TCP → addr_ok (wb_udp_address wb)).

(** Nothing of the buffer has been written. *)
Definition complete (wb : write_buffer) : Prop := wb_ptr wb = wb_buffer wb.

Fixpoint sum_sz (l : list write_buffer) : Z := match l with [] => 0 | wb :: l => wb_sz wb + sum_sz l end.

Record open_ok (s : socket) : Prop := {
  ok_protocol : is_protocol (s_protocol s);
  ok_high : Forall (wb_ok (s_protocol s)) (s_high s);
  ok_low : Forall (wb_ok (s_protocol s)) (s_low s);
  ok_complete : Forall complete (s_low s);
  ok_size : s_wb_size s = sum_sz (s_high s) + sum_sz (s_low s);
  ok_read : s_protocol s = PROTOCOL_TCP → ∃ k, 0 <= k <= 24 ∧ p_size s = MIN_READ_BUFFER * 2 ^ k;
  ok_udp : s_protocol s ≠ PROTOCOL_TCP → length (p_udp_address s) = Z.to_nat UDP_ADDRESS_SIZE
}.

Definition slot_ok (s : socket) : Prop :=
  (idle_type (s_type s) → s_high s = [] ∧ s_low s = []) ∧
  (s_type s ≠ SOCKET_TYPE_INVALID → s_type s ≠ SOCKET_TYPE_RESERVE → open_ok s) ∧
  (s_type s = SOCKET_TYPE_BIND → B = true).

(** The id a request opens a socket for, and the id any other request is about. *)
Definition creates (r : request) : option Z :=
  match r with
  | ReqBind id _ _ | ReqListen id _ _ | ReqOpen id _ _ _ | ReqUdp id _ _ _ => Some id
  | _ => None
  end.

Definition concerns (r : request) : option Z :=
  match r with
  | ReqStart id _ | ReqClose id _ _ | ReqSetUdp id _ | ReqSetopt id _ _ => Some id
  | ReqSend r | ReqSendLow r | ReqSendUdp r _ => Some (rs_id r)
  | _ => None
  end.

(** Requests carry readable buffers and well-formed addresses. *)
Definition send_ok (r : request_send) : Prop := 0 <= rs_sz r ∧ readable (rs_buffer r) (rs_sz r).

Definition request_ok (r : request) : Prop :=
  match r with
  | ReqSend r | ReqSendLow r => send_ok r
  | ReqSendUdp r a => send_ok r ∧ addr_ok a
  | ReqBind _ _ _ => B = true
  | ReqSetUdp _ a => addr_ok a ∧ (zget a 0 = Some PROTOCOL_UDP ∨ zget a 0 = Some PROTOCOL_UDPv6)
  | _ => True
  end.

(** A request does not mention an id that is opened by a later one. *)
Fixpoint pipe_ok (F : list Z) (pipe : list request) : Prop :=
  match pipe with
  | [] => True
  | r :: pipe => request_ok r ∧ (∀ id, concerns r = Some id → id ∉ F ++ omap creates pipe) ∧ pipe_ok F pipe
  end.

(** [sl] are the slots, [ev] the events not handled yet.  [F] are the ids that
    were reserved and whose request is not in the pipe: those of [F0], and that of
    the request that is handled.  [X]
    is a slot that is being closed or was just closed: its event has still to be
    cleared.  A descriptor is polled for writing while there is something to
    write, and while it is connecting. *)
Record inv (X : option Z) (F : list Z) (sl : Z → socket) (poll : gmap Z (option Z * bool)) (ev : list sp_event)
    (pipe : list request) : Prop := {
  inv_slot : ∀ i, slot_ok (sl i);
  inv_reserve : ∀ i, s_type (sl i) = SOCKET_TYPE_RESERVE → s_id (sl i) ∈ F ++ omap creates pipe ∧ HASH_ID (s_id (sl i)) = i;
  inv_creates : ∀ id, id ∈ F ++ omap creates pipe →
    s_type (sl (HASH_ID id)) = SOCKET_TYPE_RESERVE ∧ s_id (sl (HASH_ID id)) = id;
  inv_nodup : NoDup (F ++ omap creates pipe);
  inv_pipe : pipe_ok F0 pipe;
  inv_poll : ∀ fd i on, poll !! fd = Some (Some i, on) →
    s_fd (sl i) = fd ∧ polled (s_type (sl i)) ∧
    (X ≠ Some i → watched (s_type (sl i)) →
     s_high (sl i) ++ s_low (sl i) ≠ [] ∨ s_type (sl i) = SOCKET_TYPE_CONNECTING → on = true);
  inv_events : ∀ e i, e ∈ ev → e_s e = Some i → polled (s_type (sl i)) ∨ X = Some i;
  inv_distinct : NoDup (omap e_s ev)
}.

(** The events not handled yet. *)
Definition rest (w : world) : list sp_event := drop (Z.to_nat (event_index (w_ss w))) (ss_ev (w_ss w)).

Definition Inv (X : option Z) (F : list Z) (w : world) : Prop := inv X F (slot w) (w_poll w) (rest w) (w_pipe w).

(** ** Changing a slot *)

Definition upd (sl : Z → socket) (i : Z) (s : socket) : Z → socket := λ j, if decide (j = i) then s else sl j.

Lemma upd_eq sl i s : upd sl i s i = s.
Proof. unfold upd. by rewrite decide_True. Qed.
Lemma upd_ne sl i s j : j ≠ i → upd sl i s j = sl j.
Proof. intros Hj. unfold upd. by rewrite decide_False. Qed.

Lemma slot_set i f w j : slot (set_slot i f w) j = upd (slot w) i (f (slot w i)) j.
Proof.
  unfold slot at 1, set_slot. cbn. unfold upd. destruct (decide (j = i)) as [->|Hj].
  - by rewrite lookup_insert_eq.
  - by rewrite lookup_insert_ne.
Qed.

Lemma slot_set_eq i f w : slot (set_slot i f w) i = f (slot w i).
Proof. by rewrite slot_set, upd_eq. Qed.
Lemma slot_set_ne i f w j : j ≠ i → slot (set_slot i f w) j = slot w j.
Proof. intros Hj. by rewrite slot_set, upd_ne. Qed.

Lemma set_slot_set i f g w : set_slot i g (set_slot i f w) = set_slot i (λ s, g (f s)) w.
Proof.
  unfold set_slot at 1. rewrite slot_set_eq. unfold set_slot. cbn. by rewrite insert_insert_eq.
Qed.

Lemma upd_upd sl i s s' j : upd (upd sl i s) i s' j = upd sl i s' j.
Proof. unfold upd. by destruct (decide (j = i)). Qed.

(** Changes outside the slots. *)
Lemma slot_frame w w' j : w_ss w' = w_ss w → slot w' j = slot w j.
Proof. intros E. unfold slot. by rewrite E. Qed.

Lemma inv_ext X F sl sl' poll ev pipe : (∀ i, sl i = sl' i) → inv X F sl poll ev pipe → inv X F sl' poll ev pipe.
Proof. intros E [? ? ? ? ? ? ? ?]. split; auto; intros; rewrite <- ?E in *; eauto. Qed.

Lemma Inv_same X F w w' : same w w' → Inv X F w → Inv X F w'.
Proof.
  intros Hs HI. unfold Inv, rest in *. rewrite (same_ss _ _ Hs), (same_poll _ _ Hs), (same_pipe _ _ Hs).
  eapply inv_ext; [|exact HI]. intros i. symmetry. by apply same_slot.
Qed.

Lemma inv_weaken X F sl poll ev pipe i : inv None F sl poll ev pipe → X = Some i → inv X F sl poll ev pipe.
Proof.
  intros [? ? ? ? ? Hp He ?] ->. split; auto.
  - intros fd j on Hj. destruct (Hp _ _ _ Hj) as (? & ? & E). split_and!; auto.
  - intros e j Hj Hs. left. by destruct (He e j Hj Hs).
Qed.

(** An open socket is changed and stays open, or is closed. *)
Lemma inv_upd X X' F sl poll poll' ev pipe i s :
  inv X F sl poll ev pipe →
  s_type (sl i) ≠ SOCKET_TYPE_RESERVE → s_type s ≠ SOCKET_TYPE_RESERVE → slot_ok s →
  (∀ fd ud, poll' !! fd = Some ud → poll !! fd = Some ud ∨ ud.1 = Some i) →
  (∀ fd on, poll' !! fd = Some (Some i, on) →
    s_fd s = fd ∧ polled (s_type s) ∧
    (X' ≠ Some i → watched (s_type s) → s_high s ++ s_low s ≠ [] ∨ s_type s = SOCKET_TYPE_CONNECTING → on = true)) →
  (polled (s_type (sl i)) ∨ X = Some i → polled (s_type s) ∨ X' = Some i) →
  (∀ j, j ≠ i → X = Some j → X' = Some j) →
  inv X' F (upd sl i s) poll' ev pipe.
Proof.
  intros [H1 H2 H3 H4 H5 H6 H7 H8] Ht Ht' Hok Hp Hpi He Hx.
  assert (Hcr : ∀ id, id ∈ F ++ omap creates pipe → HASH_ID id ≠ i).
  { intros id Hid Heq. destruct (H3 id Hid) as [Hr _]. by rewrite Heq in Hr. }
  split; [intros j|intros j|intros id Hid|done|done|intros fd j on Hj|intros e j Hin Hs|done].
  - destruct (decide (j = i)) as [->|Hj]; [by rewrite upd_eq|by rewrite upd_ne].
  - destruct (decide (j = i)) as [->|Hj]; [by rewrite upd_eq|rewrite upd_ne by done; apply H2].
  - rewrite upd_ne by auto. by apply H3.
  - destruct (decide (j = i)) as [->|Hne]; [rewrite upd_eq; by apply Hpi|]. rewrite upd_ne by done.
    destruct (Hp _ _ Hj) as [Hj'|[=]]; [|done]. destruct (H6 _ _ _ Hj') as (E1 & E2 & E3). split_and!; auto.
  - destruct (decide (j = i)) as [->|Hne]; [rewrite upd_eq; apply He; eauto|]. rewrite upd_ne by done.
    destruct (H7 e j Hin Hs); eauto.
Qed.

(** The common case: the socket stays in its state, with the same descriptor. *)
Lemma inv_upd_same X F sl poll ev pipe i s :
  inv X F sl poll ev pipe →
  s_type (sl i) ≠ SOCKET_TYPE_RESERVE → s_type s = s_type (sl i) → s_fd s = s_fd (sl i) → slot_ok s →
  (s_high s ++ s_low s ≠ [] → s_high (sl i) ++ s_low (sl i) ≠ [] ∨ s_type s = SOCKET_TYPE_CONNECTING ∨ s_type s = SOCKET_TYPE_BIND) →
  inv X F (upd sl i s) poll ev pipe.
Proof.
  intros HI Ht Et Ef Hok Hl. apply (inv_upd X X F sl poll poll); [done|done|congruence|done|auto| |by rewrite Et|auto].
  intros fd on Hp. destruct (inv_poll _ _ _ _ _ _ HI _ _ _ Hp) as (H1 & H2 & H3). rewrite Et, Ef. split_and!; [done..|].
  rewrite Et in Hl. intros HX Hb [Hne|Hc]; [|by apply H3; [| |right]].
  destruct (Hl Hne) as [|[|Eb]]; [by apply H3; auto..|]. destruct Hok as (_ & _ & Hb'). rewrite Et in Hb'.
  destruct Hb as [|[|]]; [specialize (Hb' Eb)|..]; congruence.
Qed.

Lemma Inv_set_slot X F w i f :
  inv X F (upd (slot w) i (f (slot w i))) (w_poll w) (rest w) (w_pipe w) → Inv X F (set_slot i f w).
Proof. intros HI. unfold Inv. eapply inv_ext; [|exact HI]. intros j. symmetry. apply slot_set. Qed.

Lemma slot_ok_open s : slot_ok s → s_type s ≠ SOCKET_TYPE_INVALID → s_type s ≠ SOCKET_TYPE_RESERVE → open_ok s.
Proof. intros (_ & H & _). apply H. Qed.

(** A socket with a state that allows pending data. *)
Lemma slot_ok_intro s :
  open_ok s → (idle_type (s_type s) → s_high s = [] ∧ s_low s = []) → (s_type s = SOCKET_TYPE_BIND → B = true) → slot_ok s.
Proof. by intros H1 H2 H3. Qed.

(** The outcome of an operation on slot [i]: the invariant, or the socket was
    closed, this is reported, and its event has to be cleared. *)
Definition ended (i : Z) (F : list Z) (r : Z) (w : world) : Prop :=
  Inv None F w ∨
  (Inv (Some i) F w ∧ (r = SOCKET_CLOSE ∨ r = SOCKET_ERROR) ∧ s_type (slot w i) = SOCKET_TYPE_INVALID ∧
   sm_id (w_result w) = s_id (slot w i)).

(** Changes outside the slots, the epoll set, the events and the pipe. *)
Lemma Inv_frame X F w w' :
  w_ss w' = w_ss w → w_poll w' = w_poll w → w_pipe w' = w_pipe w → Inv X F w → Inv X F w'.
Proof. intros E1 E2 E3. unfold Inv, rest, slot. by rewrite E1, E2, E3. Qed.

Context {O : Type} `{OSLaws O}.

Lemma wp_write_buffer_free wb Q w : (∀ w', same w w' → Q tt w') → wp (write_buffer_free (O := O) wb) Q w.
Proof. intros HQ. unfold write_buffer_free. case_if; wstep; by apply HQ. Qed.

Lemma wp_free_wb_list l : ∀ Q w, (∀ w', same w w' → Q tt w') → wp (free_wb_list (O := O) l) Q w.
Proof.
  induction l as [|wb l IH]; intros Q w HQ; cbn [free_wb_list]; wstep; [by apply HQ|].
  apply wp_write_buffer_free. intros w1 H1. apply IH. intros w2 H2. apply HQ. by eapply same_trans.
Qed.

Lemma wp_close fd Q w :
  (∀ w', same w w' → Q tt (w' <| w_poll := delete fd (w_poll w') |>)) → wp (close (O := O) fd) Q w.
Proof. intros HQ. unfold close. wstep. apply wp_call. intros r w' Hs _. wstep. by apply HQ. Qed.

(** The state [force_close] leaves behind. *)
Lemma inv_closed X F sl poll ev pipe i s :
  inv X F sl poll ev pipe → X = None ∨ X = Some i → s_type (sl i) ≠ SOCKET_TYPE_RESERVE →
  s_high s = [] → s_low s = [] → s_type s = SOCKET_TYPE_INVALID →
  inv (Some i) F (upd sl i s) (delete (s_fd (sl i)) poll) ev pipe.
Proof.
  intros HI HX Ht Eh El Et. apply (inv_upd X _ F sl poll); [done|done|by rewrite Et| | | |by right|naive_solver].
  - by split_and!; rewrite Et.
  - intros fd ud Hp. apply lookup_delete_Some in Hp as [_ Hp]. by left.
  - intros fd on Hp. apply lookup_delete_Some in Hp as [Hne Hp].
    destruct (inv_poll _ _ _ _ _ _ HI _ _ _ Hp) as [Hfd _]. done.
Qed.

(** Either way the descriptor leaves the epoll set. *)
Lemma unregister_wp (t : socket_type) fd (k : M (O := O) unit) Q w :
  (∀ w', same (w <| w_poll := delete fd (w_poll w) |>) w' → wp k Q w') →
  wp ((if negb (t =t? SOCKET_TYPE_PACCEPT) && negb (t =t? SOCKET_TYPE_PLISTEN) then sp_del fd else mret tt);;
      (if negb (t =t? SOCKET_TYPE_BIND) then close fd else mret tt);; k) Q w.
Proof.
  intros Hk. assert (Hd : ∀ w', same w w' → wp k Q (w' <| w_poll := delete fd (w_poll w') |>)).
  { intros w' [E1 E2 E3 E4]. apply Hk. split; cbn; by rewrite ?E1, ?E2, ?E3, ?E4. }
  assert (Hdd : ∀ w', same (w <| w_poll := delete fd (w_poll w) |>) w' → wp k Q (w' <| w_poll := delete fd (w_poll w') |>)).
  { intros w' [E1 E2 E3 E4]. apply Hk. split; cbn; rewrite ?E1, ?E2, ?E3, ?E4; cbn; by rewrite ?delete_delete_eq. }
  destruct t; cbn -[close sp_del mbind mret]; wstep; wstep; wstep;
    (apply wp_close || wstep); intros;  try (by apply Hd); try (by apply Hdd); by apply Hk.
Qed.

Lemma force_close_wp X F i w :
  Inv X F w → X = None ∨ X = Some i → s_type (slot w i) ≠ SOCKET_TYPE_RESERVE →
  wp (force_close (O := O) i) (λ _ w',
    Inv (Some i) F w' ∧ s_type (slot w' i) = SOCKET_TYPE_INVALID ∧ s_id (slot w' i) = s_id (slot w i) ∧
    sm_id (w_result w') = s_id (slot w i)) w.
Proof.
  intros HI HX Ht. unfold force_close. do 4 wstep. set (s := slot w i) in Ht |- *.
  destruct (type_eqb_spec (s_type s) SOCKET_TYPE_INVALID) as [Et|Et].
  { wstep. split_and!; [|done..].
    destruct HX as [->| ->]; [|done]. eapply inv_weaken; done. }
  wstep. apply wp_assert; [by destruct (type_eqb_spec (s_type s) SOCKET_TYPE_RESERVE)|]. wstep.
  apply wp_free_wb_list. intros w1 S1. do 2 wstep.
  wstep. apply wp_free_wb_list. intros w2 S2. do 2 wstep.
  apply unregister_wp. intros w3 S3. wstep.
  assert (Es : ∀ j, slot w3 j = upd (slot w) i (s <| s_high := [] |> <| s_low := [] |>) j).
  { intros j. rewrite (slot_frame (set_slot i (λ s, s <| s_low := [] |>) w2)) by apply S3.
    rewrite slot_set. destruct (decide (j = i)) as [->|Hj].
    - rewrite !upd_eq, (same_slot _ _ i S2), slot_set_eq, (same_slot _ _ i S1). done.
    - rewrite !upd_ne, (same_slot _ _ j S2), slot_set_ne, (same_slot _ _ j S1) by done. done. }
  assert (Ep : w_poll w3 = delete (s_fd s) (w_poll w) ∧ w_pipe w3 = w_pipe w ∧ rest w3 = rest w ∧ sm_id (w_result w3) = s_id s).
  { unfold rest. rewrite (same_poll _ _ S3), (same_pipe _ _ S3), (same_ss _ _ S3), (same_result _ _ S3). cbn.
    rewrite (same_poll _ _ S2), (same_pipe _ _ S2), (same_ss _ _ S2), (same_result _ _ S2). cbn.
    rewrite (same_poll _ _ S1), (same_pipe _ _ S1), (same_ss _ _ S1), (same_result _ _ S1). done. }
  destruct Ep as (Ep & Epi & Er & Em). rewrite slot_set_eq, Es, upd_eq. split_and!; [|done|done|exact Em].
  apply Inv_set_slot. rewrite Ep, Er, Epi.
  eapply (inv_ext _ _ (upd (slot w) i (s <| s_high := [] |> <| s_low := [] |> <| s_type := SOCKET_TYPE_INVALID |>))).
  - intros j. unfold upd at 1 2. rewrite !Es. unfold upd. by destruct (decide (j = i)) as [->|]; [rewrite decide_True|].
  - by apply (inv_closed X).
Qed.

(** ** Sending *)

Lemma readable_spec p sz : readable p sz → 0 <= sz ∧ ∃ b, copy_out (heap p.1) p.2 sz = Some b ∧ Z.of_nat (length b) = sz.
Proof.
  intros [b Hb]. unfold copy_out in Hb. case_match eqn:E; [|done]. injection Hb as <-. bool_prop. split; [done|].
  rewrite copy_out_spec by done. eexists. split; [done|]. rewrite length_take, length_drop. lia.
Qed.

Lemma readable_rest p sz n : readable p sz → 0 <= n <= sz → readable (ptr_add p n) (sz - n).
Proof.
  intros [b Hb] Hn. unfold readable, copy_out in *. case_match eqn:E; [|done]. bool_prop. cbn.
  rewrite !(proj2 (Z.leb_le _ _)) by lia. by eexists.
Qed.

Lemma wp_write fd p sz Q w :
  readable p sz → (∀ n w', same w w' → n < 0 ∨ 0 <= n <= sz → Q n w') → wp (write (O := O) heap fd p sz) Q w.
Proof.
  intros Hr HQ. destruct (readable_spec p sz Hr) as (H1 & b & Eb & Hl). unfold write. wstep.
  eapply wp_of_option; [done|]. apply wp_call_z. intros n w' Hs Hn. apply HQ; [done|].
  destruct (Z.lt_ge_cases n 0) as [|Hge]; [by left|]. right. specialize (Hn Hge n eq_refl). lia.
Qed.

Lemma wp_sendto fd p sz sa Q w :
  readable p sz → (∀ n w', same w w' → Q n w') → wp (sendto (O := O) heap fd p sz sa) Q w.
Proof.
  intros Hr HQ. destruct (readable_spec p sz Hr) as (H1 & b & Eb & Hl). unfold sendto. wstep.
  eapply wp_of_option; [done|]. apply wp_call_z. intros n w' Hs _. by apply HQ.
Qed.

Lemma wp_udp_socket_address s a Q w :
  is_protocol (s_protocol s) → s_protocol s ≠ PROTOCOL_TCP → addr_ok a → (∀ sa, Q sa w) →
  wp (udp_socket_address (O := O) s a) Q w.
Proof.
  intros Hp Htcp (t & Ht & Hn) HQ. unfold udp_socket_address. wstep. eapply wp_of_option; [done|].
  case_if; [wstep; apply HQ|]. bool_prop. subst t. unfold udp_address_size in Hn.
  assert (Hc : ∀ n, (3 + n <= Z.of_nat (length a)) → 0 <= n → ∃ b b', copy_out a 1 2 = Some b ∧ copy_out a 3 n = Some b').
  { intros n H1 H2. rewrite !copy_out_spec by lia. by eexists _, _. }
  destruct (Z.eqb_spec (s_protocol s) PROTOCOL_UDP) as [E|E]; [|destruct (Z.eqb_spec (s_protocol s) PROTOCOL_UDPv6) as [E'|E']].
  - destruct (Hc 4) as (b & b' & Eb & Eb'); [specialize (Hn _ eq_refl); lia|lia|].
    wstep. eapply wp_of_option; [done|]. wstep. eapply wp_of_option; [done|]. wstep. apply HQ.
  - destruct (Hc 16) as (b & b' & Eb & Eb'); [specialize (Hn _ eq_refl); lia|lia|].
    wstep. eapply wp_of_option; [done|]. wstep. eapply wp_of_option; [done|]. wstep. apply HQ.
  - destruct Hp as [|[|]]; done.
Qed.

(** What sending does not change. *)
Definition kept (s s' : socket) : Prop :=
  s_id s' = s_id s ∧ s_type s' = s_type s ∧ s_fd s' = s_fd s ∧ s_protocol s' = s_protocol s.

Definition closed (i : Z) (F : list Z) (w w' : world) : Prop :=
  Inv (Some i) F w' ∧ s_type (slot w' i) = SOCKET_TYPE_INVALID ∧ s_id (slot w' i) = s_id (slot w i) ∧
  sm_id (w_result w') = s_id (slot w i).

(** The low list with its first buffer moved to the empty high list. *)
Definition raised (s : socket) : socket :=
  match s_low s with tmp :: next => s <| s_low := next |> <| s_high := [tmp] |> | [] => s end.

Definition advanced (wb : write_buffer) (n : Z) : write_buffer :=
  wb <| wb_ptr := ptr_add (wb_ptr wb) n |> <| wb_sz := wb_sz wb - n |>.

Definition sent (l : wlist) (i : Z) (F : list Z) (w w' : world) : Prop :=
  kept (slot w i) (slot w' i) ∧
  match l with
  | High => s_low (slot w' i) = s_low (slot w i) ∧ Inv None F w'
  | Low => s_high (slot w' i) = [] ∧
           Inv None F (if list_uncomplete (s_low (slot w' i)) then set_slot i raised w' else w')
  end.

Lemma wb_ok_advanced p wb n : wb_ok p wb → 0 <= n <= wb_sz wb → wb_ok p (advanced wb n).
Proof. intros [H1 H2] Hn. split; [by apply readable_rest|done]. Qed.

Lemma advanced_0 wb : advanced wb 0 = wb.
Proof. destruct wb as [b [p q] sz u a]. unfold advanced, ptr_add. cbn. by rewrite Z.add_0_r, Z.sub_0_r. Qed.

Lemma open_ok_pop s l tmp next :
  open_ok s → get_list l s = tmp :: next → open_ok (set_list l next (s <| s_wb_size := s_wb_size s - wb_sz tmp |>)).
Proof.
  intros [H1 H2 H3 H4 H5 H6 H7] El. destruct l; cbn in El; rewrite El in *; cbn [sum_sz] in H5.
  - apply Forall_cons in H2 as [_ H2]. split; cbn; auto. lia.
  - apply Forall_cons in H3 as [_ H3]. apply Forall_cons in H4 as [_ H4]. split; cbn; auto. lia.
Qed.

Lemma open_ok_advance s tmp next n :
  open_ok s → s_high s = tmp :: next → 0 <= n <= wb_sz tmp →
  open_ok (s <| s_wb_size := s_wb_size s - n |> <| s_high := advanced tmp n :: next |>).
Proof.
  intros [H1 H2 H3 H4 H5 H6 H7] El Hn. rewrite El in *. cbn [sum_sz] in H5. apply Forall_cons in H2 as [H2 H2'].
  split; cbn; auto; [constructor; [by apply wb_ok_advanced|done]|unfold advanced; cbn; lia].
Qed.

Lemma open_ok_raise s tmp next n :
  open_ok s → s_high s = [] → s_low s = tmp :: next → 0 <= n <= wb_sz tmp →
  open_ok (raised (s <| s_wb_size := s_wb_size s - n |> <| s_low := advanced tmp n :: next |>)).
Proof.
  intros [H1 H2 H3 H4 H5 H6 H7] Eh El Hn. rewrite Eh, El in *. cbn [sum_sz] in H5.
  apply Forall_cons in H3 as [H3 H3']. apply Forall_cons in H4 as [H4 H4'].
  split; cbn; auto; [constructor; [by apply wb_ok_advanced|done]|unfold advanced; cbn; lia].
Qed.

(** The rule for a slot that stays in its state. *)
Lemma Inv_upd_same X F w i f :
  Inv X F w → s_type (slot w i) ≠ SOCKET_TYPE_INVALID → s_type (slot w i) ≠ SOCKET_TYPE_RESERVE →
  (let s := slot w i in
   kept s (f s) ∧ open_ok (f s) ∧ (idle_type (s_type s) → s_high (f s) = [] ∧ s_low (f s) = []) ∧
   (s_high (f s) ++ s_low (f s) ≠ [] →
    s_high s ++ s_low s ≠ [] ∨ s_type s = SOCKET_TYPE_CONNECTING ∨ s_type s = SOCKET_TYPE_BIND)) →
  Inv X F (set_slot i f w).
Proof.
  intros HI H1 H2 ((K1 & K2 & K3 & K4) & Hok & Hi & Hl). apply Inv_set_slot, inv_upd_same; [done|done|done|done| |].
  - rewrite <- K2 in Hi. apply slot_ok_intro; [done|done|]. rewrite K2. apply (inv_slot _ _ _ _ _ _ HI).
  - by rewrite K2.
Qed.

Lemma kept_trans s s' s'' : kept s s' → kept s' s'' → kept s s''.
Proof. intros (?&?&?&?) (?&?&?&?). split_and!; congruence. Qed.

Lemma kept_refl s : kept s s.
Proof. done. Qed.

(** A socket that can have data to send. *)
Definition is_open (s : socket) : Prop := s_type s ≠ SOCKET_TYPE_INVALID ∧ s_type s ≠ SOCKET_TYPE_RESERVE.

Lemma Inv_open X F w i : Inv X F w → is_open (slot w i) → open_ok (slot w i).
Proof. intros HI [H1 H2]. apply slot_ok_open; [apply (inv_slot _ _ _ _ _ _ HI)|done..]. Qed.

Lemma Inv_idle X F w i : Inv X F w → idle_type (s_type (slot w i)) → s_high (slot w i) = [] ∧ s_low (slot w i) = [].
Proof. intros HI. apply (inv_slot _ _ _ _ _ _ HI). Qed.

(** A socket with data in a list is not idle. *)
Lemma Inv_not_idle X F w i l tmp next :
  Inv X F w → get_list l (slot w i) = tmp :: next → ¬ idle_type (s_type (slot w i)).
Proof. intros HI El Hi. destruct (Inv_idle _ _ _ _ HI Hi) as [E1 E2]. destruct l; cbn in El; congruence. Qed.

(** After a buffer was sent. *)
Lemma Inv_pop F w i l tmp next :
  Inv None F w → is_open (slot w i) → get_list l (slot w i) = tmp :: next →
  Inv None F (set_slot i (set_list l next) (set_slot i (λ s, s <| s_wb_size := s_wb_size s - wb_sz tmp |>) w)).
Proof.
  intros HI Ho El. pose proof (Inv_not_idle _ _ _ _ _ _ _ HI El) as Hi.
  rewrite set_slot_set. apply Inv_upd_same; [done|apply Ho|apply Ho|]. split_and!; [destruct l; done..| |done|].
  - apply open_ok_pop; [|done]. by eapply Inv_open.
  - intros _. left. destruct l; cbn in El; rewrite El; [done|]. by intros [_ ?]%app_eq_nil.
Qed.

(** After a part of the first buffer was sent; a low one is raised if anything was. *)
Lemma Inv_advance F w i l tmp next n :
  Inv None F w → is_open (slot w i) → get_list l (slot w i) = tmp :: next → (l = Low → s_high (slot w i) = []) →
  0 <= n <= wb_sz tmp →
  let w' := set_slot i (set_list l (advanced tmp n :: next)) (set_slot i (λ s, s <| s_wb_size := s_wb_size s - n |>) w) in
  sent l i F w w'.
Proof.
  intros HI Ho El Hh Hn w'. pose proof (Inv_not_idle _ _ _ _ _ _ _ HI El) as Hi.
  pose proof (Inv_open _ _ _ _ HI Ho) as Hok. subst w'. rewrite set_slot_set. unfold sent. rewrite slot_set_eq.
  split; [by destruct l|]. destruct l; cbn in El; cbn [set_list s_high s_low].
  - split; [done|]. apply Inv_upd_same; [done|apply Ho|apply Ho|]. split_and!; [done..| |done|].
    + by apply open_ok_advance.
    + intros _. left. by rewrite El.
  - split; [by apply Hh|]. specialize (Hh eq_refl). pose proof (ok_complete _ Hok) as Hc. rewrite El in Hc.
    apply Forall_cons in Hc as [Hc Hc']. destruct (list_uncomplete _) eqn:Eu.
    + rewrite set_slot_set. apply Inv_upd_same; [done|apply Ho|apply Ho|]. split_and!; [done..| |done|].
      * by apply open_ok_raise.
      * intros _. left. rewrite El. by intros [_ ?]%app_eq_nil.
    + assert (n = 0) as ->.
      { cbn in Eu. unfold complete in Hc. rewrite Hc in Eu. bool_prop. lia. }
      apply Inv_upd_same; [done|apply Ho|apply Ho|]. split_and!; [done..| |done|].
      * rewrite advanced_0. destruct Hok as [K1 K2 K3 K4 K5 K6 K7]. rewrite El in *. split; cbn in *; auto. lia.
      * intros _. left. rewrite El. by intros [_ ?]%app_eq_nil.
Qed.

Lemma kept_open s s' : kept s s' → is_open s → is_open s'.
Proof. intros (_ & E & _). unfold is_open. by rewrite E. Qed.

Lemma complete_list l : Forall complete l → list_uncomplete l = false.
Proof. destruct 1 as [|wb l Hc _]; [done|]. cbn. unfold complete in Hc. by rewrite Hc, !Z.eqb_refl. Qed.

(** Nothing was sent. *)
Lemma sent_same l i F w w' :
  Inv None F w → is_open (slot w i) → (l = Low → s_high (slot w i) = []) → same w w' → sent l i F w w'.
Proof.
  intros HI Ho Hh Hs. assert (HI' : Inv None F w') by (by eapply Inv_same). unfold sent.
  rewrite (same_slot _ _ i Hs). split; [done|]. destruct l; [done|]. split; [auto|].
  by rewrite complete_list by (eapply ok_complete, Inv_open; done).
Qed.

(** The state before can be replaced by one that differs in what was sent before. *)
Lemma sent_trans l i F w w1 w' :
  kept (slot w i) (slot w1 i) → (l = High → s_low (slot w1 i) = s_low (slot w i)) → sent l i F w1 w' → sent l i F w w'.
Proof.
  intros Hk Hl [Hk' Hs]. split; [by eapply kept_trans|]. destruct l; [|done]. rewrite <- Hl by done. done.
Qed.

Lemma closed_trans i F w w1 w' : s_id (slot w1 i) = s_id (slot w i) → closed i F w1 w' → closed i F w w'.
Proof. intros E (H1 & H2 & H3 & H4). unfold closed. by rewrite <- E. Qed.

Lemma send_list_tcp_wp F i l fuel : ∀ w,
  Inv None F w → is_open (slot w i) → (l = Low → s_high (slot w i) = []) →
  wp (send_list_tcp (O := O) heap fuel i l) (λ r w',
    (r = SOCKET_CLOSE ∧ closed i F w w') ∨ (r = -1 ∧ sent l i F w w')) w.
Proof.
  induction fuel as [|fuel IH]; intros w HI Ho Hh; cbn [send_list_tcp]; [wstep|]. do 2 wstep.
  destruct (get_list l (slot w i)) as [|tmp next] eqn:El.
  { wstep. right. split; [done|]. by apply sent_same. }
  assert (Hr : wb_ok (s_protocol (slot w i)) tmp).
  { pose proof (Inv_open _ _ _ _ HI Ho) as [_ K2 K3 _ _ _ _].
    destruct l; cbn in El; rewrite El in *; [by apply Forall_cons in K2 as [? _]|by apply Forall_cons in K3 as [? _]]. }
  wstep. apply wp_write; [apply Hr|]. intros sz w1 S1 Hsz. do 2 wstep. pose proof (same_slot _ _ i S1) as Es.
  assert (HI1 : Inv None F w1) by (by eapply Inv_same). rewrite <- Es in Ho, Hh, El.
  assert (Hrec : ∀ w2, Inv None F w2 → kept (slot w1 i) (slot w2 i) → (l = High → s_low (slot w2 i) = s_low (slot w1 i)) →
    (l = Low → s_high (slot w2 i) = []) →
    wp (send_list_tcp heap fuel i l) (λ r w', (r = SOCKET_CLOSE ∧ closed i F w w') ∨ (r = -1 ∧ sent l i F w w')) w2).
  { intros w2 HI2 Hk Hl Hh2. eapply server_mono; [apply IH; [done|by eapply kept_open|done]|].
    rewrite Es in Hk, Hl. intros r w' [[-> Hc]|[-> Hs]]; [left|right]; (split; [done|]).
    - eapply closed_trans; [apply Hk|done].
    - by eapply sent_trans. }
  destruct (Z.ltb_spec sz 0).
  - case_if; [by apply Hrec|]. case_if.
    + wstep. right. split; [done|]. rewrite Es in Ho, Hh. by apply sent_same.
    + wstep. eapply server_mono; [apply (force_close_wp None F); [done|auto|apply Ho]|].
      intros [] w2 Hc. wstep. left. split; [done|]. eapply closed_trans; [|done]. by rewrite Es.
  - do 2 wstep. destruct (Z.eqb_spec sz (wb_sz tmp)) as [->|Hne]; cbn [negb]; do 2 wstep.
    + wstep. apply wp_write_buffer_free. intros w2 S2. apply Hrec.
      * eapply Inv_same; [done|]. by apply Inv_pop.
      * rewrite (same_slot _ _ i S2), set_slot_set, slot_set_eq. by destruct l.
      * intros ->. by rewrite (same_slot _ _ i S2), set_slot_set, slot_set_eq.
      * intros ->. rewrite (same_slot _ _ i S2), set_slot_set, slot_set_eq. by apply Hh.
    + wstep. right. split; [done|]. eapply (sent_trans _ _ _ _ w1); [by rewrite Es|by rewrite Es|].
      apply Inv_advance; [done..|lia].
Qed.

Lemma send_loop_udp_wp F i l n : ∀ w,
  Inv None F w → is_open (slot w i) → (l = Low → s_high (slot w i) = []) → s_protocol (slot w i) ≠ PROTOCOL_TCP →
  wp (send_loop_udp (O := O) heap n i l) (λ r w', r = -1 ∧ sent l i F w w') w.
Proof.
  induction n as [|n IH]; intros w HI Ho Hh Hp; cbn [send_loop_udp].
  { wstep. split; [done|]. by apply sent_same. }
  do 2 wstep. destruct (get_list l (slot w i)) as [|tmp next] eqn:El.
  { wstep. split; [done|]. by apply sent_same. }
  pose proof (Inv_open _ _ _ _ HI Ho) as Hok.
  assert (Hr : wb_ok (s_protocol (slot w i)) tmp).
  { destruct Hok as [_ K2 K3 _ _ _ _].
    destruct l; cbn in El; rewrite El in *; [by apply Forall_cons in K2 as [? _]|by apply Forall_cons in K3 as [? _]]. }
  wstep. apply wp_udp_socket_address; [apply Hok|done|by apply Hr|]. intros sa. wstep.
  apply wp_sendto; [apply Hr|]. intros err w1 S1. case_if; [wstep; split; [done|]; by apply sent_same|].
  do 4 wstep. wstep. apply wp_write_buffer_free. intros w2 S2. pose proof (same_slot _ _ i S1) as Es.
  rewrite <- Es in Ho, Hh, El, Hp.
  assert (Hk : kept (slot w i) (slot w2 i)).
  { rewrite (same_slot _ _ i S2), set_slot_set, slot_set_eq, Es. by destruct l. }
  eapply server_mono; [apply IH|].
  - eapply Inv_same; [done|]. apply Inv_pop; [by eapply Inv_same|done..].
  - eapply kept_open; [done|]. by rewrite <- Es.
  - intros ->. rewrite (same_slot _ _ i S2), set_slot_set, slot_set_eq. by apply Hh.
  - destruct Hk as (_ & _ & _ & ->). by rewrite <- Es.
  - intros r w' [-> Hs]. split; [done|]. eapply sent_trans; [done| |done].
    intros ->. rewrite (same_slot _ _ i S2), set_slot_set, slot_set_eq. cbn. by rewrite Es.
Qed.

Lemma send_list_wp F i l fuel w :
  Inv None F w → is_open (slot w i) → (l = Low → s_high (slot w i) = []) →
  wp (send_list (O := O) heap fuel i l) (λ r w',
    (r = SOCKET_CLOSE ∧ closed i F w w') ∨ (r = -1 ∧ sent l i F w w')) w.
Proof.
  intros HI Ho Hh. unfold send_list. do 2 wstep. case_if; [by apply send_list_tcp_wp|]. bool_prop.
  unfold send_list_udp. do 2 wstep. eapply server_mono; [by apply send_loop_udp_wp|]. naive_solver.
Qed.

(** Changing the interest in writing. *)
Lemma Inv_sp_write X0 X F w i fd on :
  Inv X0 F w → X0 = None ∨ X0 = Some i → is_open (slot w i) → polled (s_type (slot w i)) → fd = s_fd (slot w i) →
  X = None ∨ X = Some i →
  (on = false → X = Some i ∨ send_buffer_empty (slot w i) = true ∧ s_type (slot w i) ≠ SOCKET_TYPE_CONNECTING) →
  Inv X F (match w_poll w !! fd with Some _ => w <| w_poll := <[fd := (Some i, on)]> (w_poll w) |> | None => w end).
Proof.
  intros HI HX0 Ho Hp -> HX Hon. set (w' := match _ with Some _ => _ | None => w end).
  assert (Hw' : w_ss w' = w_ss w ∧ w_pipe w' = w_pipe w) by (unfold w'; by case_match). destruct Hw' as [E1 E2].
  unfold Inv, rest. rewrite E1, E2. eapply (inv_ext _ _ (upd (slot w) i (slot w i))).
  { intros j. rewrite (slot_frame w w' j E1). unfold upd. by destruct (decide (j = i)) as [->|]. }
  apply (inv_upd X0 X F (slot w) (w_poll w)); [done|apply Ho..|apply (inv_slot _ _ _ _ _ _ HI)| | |by left|].
  - unfold w'. intros fd ud. case_match; [|by left]. cbn. destruct (decide (fd = s_fd (slot w i))) as [->|Hne].
    + rewrite lookup_insert_eq. intros [= <-]. by right.
    + rewrite lookup_insert_ne by done. by left.
  - unfold w'. intros fd on' Hl. assert (Hfd : fd = s_fd (slot w i)).
    { destruct (decide (fd = s_fd (slot w i))) as [|Hne]; [done|]. symmetry.
      apply (inv_poll _ _ _ _ _ _ HI fd i on'). case_match; [|done]. cbn in Hl. by rewrite lookup_insert_ne in Hl. }
    subst fd. case_match eqn:Ew; [|congruence]. cbn in Hl. rewrite lookup_insert_eq in Hl. injection Hl as <-.
    split_and!; [done..|]. intros HX' Hb Hl. destruct on; [done|]. destruct (Hon eq_refl) as [|[He Hc]]; [done|].
    unfold send_buffer_empty in He. destruct (s_high (slot w i)), (s_low (slot w i)); cbn in He; naive_solver.
  - intros j Hj ->. naive_solver.
Qed.

(** [send_buffer] keeps the invariant, or closes the socket; a connecting socket
    may be left without the interest in writing. *)
Lemma send_buffer_wp F i fuel w :
  Inv None F w → is_open (slot w i) → polled (s_type (slot w i)) →
  wp (send_buffer (O := O) heap fuel i) (λ r w',
    (r = SOCKET_CLOSE ∧ closed i F w w') ∨
    (r = -1 ∧ kept (slot w i) (slot w' i) ∧
     (Inv None F w' ∨ Inv (Some i) F w' ∧ s_type (slot w' i) = SOCKET_TYPE_CONNECTING ∧ send_buffer_empty (slot w' i) = true))) w.
Proof.
  intros HI Ho Hp. unfold send_buffer. do 2 wstep. pose proof (Inv_open _ _ _ _ HI Ho) as Hok. wstep.
  apply wp_assert; [by rewrite complete_list by apply Hok|]. wstep. eapply server_mono; [by apply (send_list_wp F)|].
  intros r w1 [[-> Hc]|[-> [Hk [El HI1]]]]; [cbn; wstep; by left|]. change (-1 =? SOCKET_CLOSE) with false. cbn match.
  do 2 wstep. destruct (s_high (slot w1 i)) eqn:Eh; cbn [is_empty]; [|wstep; right; auto].
  destruct (s_low (slot w1 i)) eqn:Elo; cbn [is_empty negb].
  - assert (He : send_buffer_empty (slot w1 i) = true) by (unfold send_buffer_empty; by rewrite Eh, Elo).
    assert (Hp1 : polled (s_type (slot w1 i))) by (destruct Hk as (_ & -> & _); done).
    wstep. wstep. set (w2 := match w_poll w1 !! _ with Some _ => _ | None => w1 end).
    assert (Es : slot w2 i = slot w1 i) by (unfold w2; case_match; done).
    assert (Hx : Inv (if s_type (slot w1 i) =t? SOCKET_TYPE_CONNECTING then Some i else None) F w2).
    { eapply (Inv_sp_write None); [done|auto|by eapply kept_open|done|done|destruct (_ =t? _); auto|].
      intros _. destruct (type_eqb_spec (s_type (slot w1 i)) SOCKET_TYPE_CONNECTING); auto. }
    clearbody w2. destruct (type_eqb_spec (s_type (slot w1 i)) SOCKET_TYPE_HALFCLOSE) as [Eq|Eq].
    + wstep. eapply server_mono; [eapply (force_close_wp _ F); [done|rewrite Eq; auto|by rewrite Es, Eq]|].
      intros [] w3 Hc. wstep. left. split; [done|]. eapply closed_trans; [|done]. rewrite Es. apply Hk.
    + wstep. right. rewrite Es. split; [done|]. split; [done|].
      destruct (type_eqb_spec (s_type (slot w1 i)) SOCKET_TYPE_CONNECTING); auto.
  - wstep. eapply server_mono; [apply (send_list_wp F); [done|by eapply kept_open|done]|].
    intros r w2 [[-> Hc]|[-> [Hk2 [El2 HI2]]]].
    { cbn. wstep. left. split; [done|]. eapply closed_trans; [apply Hk|done]. }
    change (-1 =? SOCKET_CLOSE) with false. cbn match. do 2 wstep. destruct (list_uncomplete _) eqn:Eu.
    + unfold raise_uncomplete. do 3 wstep. destruct (s_low (slot w2 i)) as [|tmp next] eqn:El3; [done|]. do 2 wstep.
      do 2 wstep. unfold check_wb_list. wstep. apply wp_assert; [by rewrite slot_set_eq; cbn; rewrite El2|].
      do 2 wstep. right. split; [done|]. rewrite set_slot_set, slot_set_eq. split; [by eapply kept_trans|]. left.
      unfold Inv. eapply inv_ext; [|exact HI2]. intros j. rewrite !slot_set. unfold upd, raised. rewrite El3. done.
    + do 2 wstep. right. split; [done|]. split; [by eapply kept_trans|by left].
Qed.

(** Appending a buffer; [X] is the socket itself if the interest in writing has
    still to be turned on. *)
Lemma Inv_append X F w i l b :
  Inv None F w → is_open (slot w i) → ¬ idle_type (s_type (slot w i)) →
  wb_ok (s_protocol (slot w i)) b → (l = Low → complete b) → X = None ∨ X = Some i →
  (X = None → send_buffer_empty (slot w i) = false ∨ s_type (slot w i) = SOCKET_TYPE_CONNECTING ∨ s_type (slot w i) = SOCKET_TYPE_BIND) →
  Inv X F (set_slot i (λ s, s <| s_wb_size := s_wb_size s + wb_sz b |>) (set_slot i (λ s, set_list l (get_list l s ++ [b]) s) w)).
Proof.
  intros HI Ho Hi Hb Hc HX Hne. rewrite set_slot_set. pose proof (Inv_open _ _ _ _ HI Ho) as Hok.
  set (f := λ s, _). assert (Hf : kept (slot w i) (f (slot w i)) ∧ open_ok (f (slot w i))).
  { split; [by destruct l|]. destruct Hok as [K1 K2 K3 K4 K5 K6 K7].
    assert (Hsum : ∀ l', sum_sz (l' ++ [b]) = sum_sz l' + wb_sz b).
    { induction l' as [|x l' IH]; cbn; [lia|]. rewrite IH. lia. }
    destruct l; split; cbn; auto; rewrite ?Forall_app, ?Forall_singleton, ?Hsum; auto; lia. }
  destruct Hf as [Hk Hokf]. assert (Ht : s_type (f (slot w i)) = s_type (slot w i)) by apply Hk.
  destruct HX as [->| ->].
  - apply Inv_upd_same; [done|apply Ho..|]. split_and!; [apply Hk..|done|done|]. intros _.
    destruct (Hne eq_refl) as [He|]; [left|by right]. unfold send_buffer_empty in He.
    destruct (s_high (slot w i)); [|done]. destruct (s_low (slot w i)); done.
  - apply Inv_set_slot. apply (inv_upd None _ F (slot w) (w_poll w)); [done|apply Ho|by rewrite Ht; apply Ho| | | |by right|done].
    + apply slot_ok_intro; rewrite ?Ht; [done|done|apply (inv_slot _ _ _ _ _ _ HI)].
    + by left.
    + intros fd on Hl. destruct (inv_poll _ _ _ _ _ _ HI _ _ _ Hl) as (E1 & E2 & _). rewrite Ht.
      split_and!; [|done|done]. rewrite <- E1. apply Hk.
Qed.

Lemma wp_send_object_init p sz Q w :
  0 <= sz → Q {| so_buffer := p; so_sz := sz; so_user := false |} w → wp (send_object_init (O := O) p sz) Q w.
Proof. intros Hsz HQ. unfold send_object_init. rewrite (proj2 (Z.ltb_ge _ _)) by done. by wstep. Qed.

(** The buffer made from a request, of which [n] bytes are written. *)
Definition new_wb (r : request_send) (a : bytes) (n : Z) : write_buffer :=
  {| wb_userobject := false; wb_ptr := ptr_add (rs_buffer r) n; wb_sz := rs_sz r - n; wb_buffer := rs_buffer r;
     wb_udp_address := a |}.

Lemma wp_append i l r a n Q w :
  send_ok r →
  Q tt (set_slot i (λ s, s <| s_wb_size := s_wb_size s + wb_sz (new_wb r a n) |>)
         (set_slot i (λ s, set_list l (get_list l s ++ [new_wb r a n]) s) w)) →
  wp (buf ← append_sendbuffer_ (O := O) i l r a n; upd_slot i (λ s, s <| s_wb_size := s_wb_size s + wb_sz buf |>)) Q w.
Proof.
  intros [Hsz _] HQ. wstep. unfold append_sendbuffer_. wstep. apply wp_send_object_init; [done|]. cbv zeta. do 2 wstep.
  by do 2 wstep.
Qed.

Lemma new_wb_ok r a n p :
  send_ok r → 0 <= n <= rs_sz r → (p ≠ PROTOCOL_TCP → addr_ok a) → wb_ok p (new_wb r a n) ∧ (n = 0 → complete (new_wb r a n)).
Proof.
  intros [Hsz Hr] Hn Ha. split; [split; [by apply readable_rest|done]|]. intros ->.
  unfold complete, new_wb, ptr_add. cbn [wb_ptr wb_buffer]. rewrite Z.add_0_r. by destruct (rs_buffer r).
Qed.

(** A request that was sent for an open socket does not meet a reserved slot. *)
Lemma Inv_not_reserved X F w id :
  Inv X F w → id ∉ F ++ omap creates (w_pipe w) → s_id (slot w (HASH_ID id)) = id →
  s_type (slot w (HASH_ID id)) ≠ SOCKET_TYPE_RESERVE.
Proof. intros HI Hid Es Et. apply Hid. rewrite <- Es. by apply (inv_reserve _ _ _ _ _ _ HI). Qed.

Lemma closed_ended i F w w' : closed i F w w' → ended i F SOCKET_CLOSE w'.
Proof. intros (H1 & H2 & H3 & H4). right. split_and!; auto. congruence. Qed.

(** Any UDP address stored in a socket can be parsed. *)
Lemma addr_ok_stored s : length (p_udp_address s) = Z.to_nat UDP_ADDRESS_SIZE → addr_ok (p_udp_address s).
Proof.
  intros Hl. exists (default 0 (zget (p_udp_address s) 0)). split.
  - destruct (zget_is_Some (p_udp_address s) 0) as [t Ht]; [rewrite Hl; done|]. by rewrite Ht.
  - rewrite Hl. unfold udp_address_size. intros n. repeat case_if; intros [= <-]; done.
Qed.

(** Appending to a list that is sent already, and to an empty list. *)
Lemma append_ended F w i l r x n fd :
  Inv None F w → is_open (slot w i) → ¬ idle_type (s_type (slot w i)) → polled (s_type (slot w i)) → fd = s_fd (slot w i) →
  send_ok r → 0 <= n <= rs_sz r → (l = Low → n = 0) → (s_protocol (slot w i) ≠ PROTOCOL_TCP → addr_ok x) →
  wp (O := O) (buf ← append_sendbuffer_ i l r x n; upd_slot i (λ s, s <| s_wb_size := s_wb_size s + wb_sz buf |>))
    (λ _, wp (O := O) (sp_write fd (Some i) true;; mret (-1)) (ended i F)) w.
Proof.
  intros HI Ho Hi Hp Hfd Hr Hn Hl Hx. apply wp_append; [done|]. do 3 wstep. left.
  destruct (new_wb_ok r x n (s_protocol (slot w i)) Hr Hn Hx) as [H1 H2].
  set (w1 := set_slot i _ (set_slot i _ w)).
  assert (HI1 : Inv (Some i) F w1) by (apply Inv_append; auto; done).
  assert (Hk : kept (slot w i) (slot w1 i)) by (unfold w1; rewrite set_slot_set, slot_set_eq; by destruct l).
  clearbody w1. eapply (Inv_sp_write (Some i)); [done|auto|by eapply kept_open| | |auto|done].
  - by destruct Hk as (_ & -> & _).
  - by destruct Hk as (_ & _ & -> & _).
Qed.

Lemma append_more F w i l r x (k : Z) :
  Inv None F w → is_open (slot w i) → ¬ idle_type (s_type (slot w i)) →
  send_buffer_empty (slot w i) && (s_type (slot w i) =t? SOCKET_TYPE_CONNECTED) = false →
  s_type (slot w i) ≠ SOCKET_TYPE_HALFCLOSE →
  send_ok r → (s_protocol (slot w i) ≠ PROTOCOL_TCP → addr_ok x) →
  wp (O := O) (buf ← append_sendbuffer_ i l r x 0; upd_slot i (λ s, s <| s_wb_size := s_wb_size s + wb_sz buf |>))
    (λ _, wp (O := O) (mret k) (ended i F)) w.
Proof.
  intros HI Ho Hi He Hh Hr Hx. apply wp_append; [done|]. wstep. left.
  destruct (new_wb_ok r x 0 (s_protocol (slot w i)) Hr) as [H1 H2]; [destruct Hr; lia|done|].
  apply Inv_append; auto. intros _. destruct (send_buffer_empty (slot w i)); [right|by left]. cbn in He.
  destruct (s_type (slot w i)); cbn in *; auto; done.
Qed.

Lemma send_socket_wp F w r prio a :
  Inv None F w → send_ok r → rs_id r ∉ F ++ omap creates (w_pipe w) → (∀ x, a = Some x → addr_ok x) →
  wp (send_socket (O := O) heap r prio a) (ended (HASH_ID (rs_id r)) F) w.
Proof.
  intros HI Hr Hid Ha. unfold send_socket. do 3 wstep. apply wp_send_object_init; [apply Hr|].
  set (i := HASH_ID (rs_id r)). set (s := slot w i).
  case_if; [wstep; unfold free_func; cbn; do 2 wstep; left; exact HI|].
  case_if; [wstep; unfold free_func; cbn; do 2 wstep; left; exact HI|]. bool_prop.
  assert (Hs : s_id s = rs_id r) by lia. pose proof (Inv_not_reserved _ _ _ _ HI Hid Hs) as Hnr. fold i s in Hnr.
  assert (Ho : is_open s ∧ ¬ idle_type (s_type s) ∧ polled (s_type s) ∧ s_type s ≠ SOCKET_TYPE_HALFCLOSE).
  { unfold is_open, idle_type, polled. destruct (s_type s); cbn in *; try done; split_and!; auto. }
  destruct Ho as (Ho & Hi & Hp & Hhc). pose proof (Inv_open _ _ _ _ HI Ho) as Hok.
  assert (Hadr : s_protocol s ≠ PROTOCOL_TCP → addr_ok (default (p_udp_address s) a)).
  { intros Hu. destruct a as [x|]; [by apply Ha|]. by apply addr_ok_stored, Hok. }
  destruct (send_buffer_empty s && _) eqn:Ee.
  - destruct (Z.eqb_spec (s_protocol s) PROTOCOL_TCP) as [Et|Et].
    + wstep. apply wp_write; [apply Hr|]. intros n w1 S1 Hn. do 2 wstep. pose proof (same_slot _ _ i S1) as Es.
      assert (HI1 : Inv None F w1) by (by eapply Inv_same).
      case_if.
      { wstep. eapply server_mono; [apply (force_close_wp None F); [done|auto|by rewrite Es]|]. intros [] w2 Hc.
        unfold free_func. cbn. wstep. wstep. wstep. exact (closed_ended _ _ _ _ Hc). }
      cbv zeta. case_if; [unfold free_func; cbn; do 3 wstep; left; exact HI1|].
      wstep. apply append_ended; rewrite ?Es; try done. cbn [so_sz] in Hn. destruct Hr, (Z.ltb_spec n 0); lia.
    + cbv zeta. wstep. apply wp_udp_socket_address; [apply Hok|done|by apply Hadr|]. intros sa. wstep.
      apply wp_sendto; [apply Hr|]. intros n w1 S1. pose proof (same_slot _ _ i S1) as Es.
      assert (HI1 : Inv None F w1) by (by eapply Inv_same).
      case_if; [|unfold free_func; cbn; do 3 wstep; left; exact HI1].
      unfold append_sendbuffer_udp. wstep. apply append_ended; rewrite ?Es; try done. destruct Hr; lia.
  - destruct (Z.eqb_spec (s_protocol s) PROTOCOL_TCP) as [Et|Et]; [case_if|]; wstep; (apply append_more; [done|done|done|first [exact Ee|by apply andb_false_iff]|done|done|done]).
Qed.

(** ** Requests *)

(** A request about a socket that is there. *)
Lemma request_open F w id :
  Inv None F w → id ∉ F ++ omap creates (w_pipe w) →
  (s_type (slot w (HASH_ID id)) =t? SOCKET_TYPE_INVALID) || negb (s_id (slot w (HASH_ID id)) =? id) = false →
  s_id (slot w (HASH_ID id)) = id ∧ is_open (slot w (HASH_ID id)).
Proof.
  intros HI Hid He. bool_prop. split; [done|]. split; [|by eapply Inv_not_reserved].
  by destruct (type_eqb_spec (s_type (slot w (HASH_ID id))) SOCKET_TYPE_INVALID).
Qed.

Lemma not_idle_polled w i : is_open (slot w i) → ¬ idle_type (s_type (slot w i)) → polled (s_type (slot w i)).
Proof. unfold is_open. destruct (s_type (slot w i)); cbn; naive_solver. Qed.

Lemma Inv_halfclose F w i :
  Inv None F w → is_open (slot w i) → send_buffer_empty (slot w i) = false →
  Inv None F (set_slot i (λ s, s <| s_type := SOCKET_TYPE_HALFCLOSE |>) w).
Proof.
  intros HI Ho He. pose proof (Inv_open _ _ _ _ HI Ho) as [K1 K2 K3 K4 K5 K6 K7].
  assert (Hne : s_high (slot w i) ++ s_low (slot w i) ≠ []).
  { unfold send_buffer_empty in He. destruct (s_high (slot w i)); [|done]. by destruct (s_low (slot w i)). }
  apply Inv_set_slot, (inv_upd None None F (slot w) (w_poll w)); [done|apply Ho|done| | | |by left|done].
  - by apply slot_ok_intro.
  - by left.
  - intros fd on Hl. destruct (inv_poll _ _ _ _ _ _ HI _ _ _ Hl) as (E1 & E2 & E3). split_and!; [done..|].
    intros HX [HB|[|]] _; [|done..]. apply E3; [done|by left|by left].
Qed.

(** Closing with the ids of the request in the message. *)
Lemma close_ended X F w id opaque :
  Inv X F w → X = None ∨ X = Some (HASH_ID id) → s_id (slot w (HASH_ID id)) = id →
  s_type (slot w (HASH_ID id)) ≠ SOCKET_TYPE_RESERVE →
  wp (O := O) (force_close (HASH_ID id);;
      modify (λ w, w <| w_result := (w_result w) <| sm_id := id |> <| sm_opaque := opaque |> |>);; mret SOCKET_CLOSE)
    (ended (HASH_ID id) F) w.
Proof.
  intros HI HX Hid Ht. wstep. eapply server_mono; [by eapply (force_close_wp X F)|].
  intros [] w1 (H1 & H2 & H3 & H4). do 3 wstep. right. split_and!; [exact H1|by left|exact H2|].
  change (id = s_id (slot w1 (HASH_ID id))). congruence.
Qed.

Lemma close_socket_wp F w fuel id shutdown opaque :
  Inv None F w → id ∉ F ++ omap creates (w_pipe w) →
  wp (close_socket (O := O) heap fuel id shutdown opaque) (ended (HASH_ID id) F) w.
Proof.
  intros HI Hid. unfold close_socket. do 2 wstep. set (i := HASH_ID id).
  destruct (_ || _) eqn:E; [do 3 wstep; left; exact HI|].
  destruct (request_open _ _ _ HI Hid E) as [Es Ho]. fold i in Es, Ho. wstep.
  destruct (send_buffer_empty (slot w i)) eqn:Ee; cbn [negb].
  - wstep. change (negb (-1 =? -1)) with false. cbn match. do 2 wstep. fold i. rewrite Ee, orb_true_r.
    apply (close_ended None); [done|auto|done|apply Ho].
  - assert (Hp : polled (s_type (slot w i))).
    { apply not_idle_polled; [done|]. intros Hi. destruct (Inv_idle _ _ _ _ HI Hi) as [E1 E2].
      unfold send_buffer_empty in Ee. by rewrite E1, E2 in Ee. }
    eapply server_mono; [by apply (send_buffer_wp F)|].
    intros r w1 [[-> Hc]|[-> (Hk & HI1)]]; [cbn; wstep; exact (closed_ended _ _ _ _ Hc)|].
    change (negb (-1 =? -1)) with false. cbn match. do 2 wstep. fold i.
    assert (Ho1 : is_open (slot w1 i)) by (by eapply kept_open).
    destruct (c_true shutdown || _) eqn:Es1.
    + destruct HI1 as [HI1|[HI1 _]]; (eapply close_ended; [done|by auto|etransitivity; [apply Hk|exact Es]|apply Ho1]).
    + do 2 wstep. wstep. left. apply orb_false_iff in Es1 as [_ Es1].
      destruct HI1 as [HI1|(_ & _ & He)]; [|by rewrite He in Es1]. by apply Inv_halfclose.
Qed.

(** [epoll_ctl] with EPOLL_CTL_ADD. *)
Lemma wp_sp_add fd ud Q w :
  (∀ w', same w w' → Q 1 w') →
  (∀ w', same w w' → w_poll w !! fd = None → Q 0 (w' <| w_poll := <[fd := (ud, false)]> (w_poll w') |>)) →
  wp (sp_add (O := O) fd ud) Q w.
Proof.
  intros H1 H2. unfold sp_add. do 2 wstep. destruct (w_poll w !! fd) eqn:E.
  - do 3 wstep. by apply H1.
  - wstep. apply wp_call. intros [[]|] w1 S1 _; [do 3 wstep; by apply H2|wstep; by apply H1].
Qed.

Lemma Inv_opaque X F w i o :
  Inv X F w → is_open (slot w i) → Inv X F (set_slot i (λ s, s <| s_opaque := o |>) w).
Proof.
  intros HI Ho. pose proof (Inv_open _ _ _ _ HI Ho) as [K1 K2 K3 K4 K5 K6 K7].
  apply Inv_upd_same; [done|apply Ho..|]. split_and!; [done..| | |by left]; [done|]. by apply Inv_idle with (1 := HI).
Qed.

(** A pending socket is started. *)
Lemma Inv_start F w i fd t :
  Inv None F w → fd = s_fd (slot w i) → w_poll w !! fd = None →
  (s_type (slot w i) = SOCKET_TYPE_PACCEPT ∧ t = SOCKET_TYPE_CONNECTED ∨ s_type (slot w i) = SOCKET_TYPE_PLISTEN ∧ t = SOCKET_TYPE_LISTEN) →
  Inv None F (set_slot i (λ s, s <| s_type := t |>) (w <| w_poll := <[fd := (Some i, false)]> (w_poll w) |>)).
Proof.
  intros HI -> Hfd Ht. assert (Ho : is_open (slot w i)) by (unfold is_open; destruct Ht as [[-> _]|[-> _]]; done).
  destruct (Inv_idle _ _ _ i HI) as [E1 E2]; [destruct Ht as [[-> _]|[-> _]]; done|].
  pose proof (Inv_open _ _ _ _ HI Ho) as [K1 K2 K3 K4 K5 K6 K7].
  apply Inv_set_slot. change (slot (w <| w_poll := ?p |>)) with (slot w). cbn.
  apply (inv_upd None None F (slot w) (w_poll w)); [done|apply Ho|destruct Ht as [[_ ->]|[_ ->]]; done| | | | |done].
  - apply slot_ok_intro; cbn; [done|done|]. destruct Ht as [[_ ->]|[_ ->]]; done.
  - intros fd ud Hl. destruct (decide (fd = s_fd (slot w i))) as [->|Hne].
    + rewrite lookup_insert_eq in Hl. injection Hl as <-. by right.
    + rewrite lookup_insert_ne in Hl by done. by left.
  - intros fd on Hl. destruct (decide (fd = s_fd (slot w i))) as [->|Hne].
    + cbn. rewrite E1, E2. destruct Ht as [[_ ->]|[_ ->]]; split_and!; try done; by intros ? ? [|].
    + rewrite lookup_insert_ne in Hl by done. destruct (inv_poll _ _ _ _ _ _ HI _ _ _ Hl) as (E & _). done.
  - left. destruct Ht as [[_ ->]|[_ ->]]; done.
Qed.

Lemma start_socket_wp F w id opaque :
  Inv None F w → id ∉ F ++ omap creates (w_pipe w) →
  wp (start_socket (O := O) id opaque) (ended (HASH_ID id) F) w.
Proof.
  intros HI Hid. unfold start_socket. do 4 wstep. set (w0 := w <| w_result := _ |>). set (i := HASH_ID id).
  assert (HI0 : Inv None F w0) by exact HI. change (w_pipe w) with (w_pipe w0) in Hid. clearbody w0. clear w HI.
  destruct (_ || _) eqn:E; [do 3 wstep; left; exact HI0|].
  destruct (request_open _ _ _ HI0 Hid E) as [Es Ho]. fold i in Es, Ho.
  destruct ((s_type (slot w0 i) =t? SOCKET_TYPE_PACCEPT) || (s_type (slot w0 i) =t? SOCKET_TYPE_PLISTEN)) eqn:Et.
  - wstep. apply wp_sp_add.
    + intros w1 S1. cbn. wstep. eapply server_mono; [eapply (force_close_wp None F); [by eapply Inv_same|auto|]|].
      { rewrite (same_slot _ _ i S1). apply Ho. }
      intros [] w2 (H1 & H2 & H3 & H4). do 2 wstep. do 3 wstep. right. split_and!; [exact H1|by right|exact H2|].
      change (sm_id (w_result w2) = s_id (slot w2 i)). congruence.
    + intros w1 S1 Hp. cbn [c_true Z.eqb negb]. do 2 wstep. wstep. wstep. do 3 wstep. left.
      set (t := if s_type (slot w0 i) =t? SOCKET_TYPE_PACCEPT then SOCKET_TYPE_CONNECTED else SOCKET_TYPE_LISTEN).
      assert (HI1 : Inv None F (set_slot i (λ s, s <| s_type := t |>) (w1 <| w_poll := <[s_fd (slot w0 i) := (Some i, false)]> (w_poll w1) |>))).
      { apply Inv_start; [by eapply Inv_same|by rewrite (same_slot _ _ i S1)|by rewrite (same_poll _ _ S1)|].
        rewrite (same_slot _ _ i S1). unfold t. bool_prop. destruct (s_type (slot w0 i)); cbn in *; naive_solver. }
      eapply Inv_frame; [..|apply (Inv_opaque _ _ _ i opaque HI1)]; [done..|]. rewrite slot_set_eq. unfold is_open, t.
      by destruct (s_type (slot w0 i) =t? SOCKET_TYPE_PACCEPT).
  - destruct (_ =t? SOCKET_TYPE_CONNECTED); [|wstep; left; exact HI0]. do 2 wstep. do 3 wstep. left.
    apply (Inv_frame _ _ (set_slot i (λ s, s <| s_opaque := opaque |>) w0)); [done..|]. by apply Inv_opaque.
Qed.

Lemma setopt_socket_wp F w id what value :
  Inv None F w → wp (setopt_socket (O := O) id what value) (λ _, Inv None F) w.
Proof.
  intros HI. unfold setopt_socket. do 2 wstep. case_if; [by wstep|]. apply wp_call_ignore. intros w' Hs. by eapply Inv_same.
Qed.

Lemma set_udp_address_wp F w id a :
  Inv None F w → id ∉ F ++ omap creates (w_pipe w) → request_ok (ReqSetUdp id a) →
  wp (set_udp_address (O := O) id a) (ended (HASH_ID id) F) w.
Proof.
  intros HI Hid [(t & Ht & Hn) Hp]. unfold set_udp_address. do 2 wstep. set (i := HASH_ID id).
  destruct (_ || _) eqn:E; [wstep; left; exact HI|].
  destruct (request_open _ _ _ HI Hid E) as [Es Ho]. fold i in Es, Ho. pose proof (Inv_open _ _ _ _ HI Ho) as [K1 K2 K3 K4 K5 K6 K7].
  wstep. eapply wp_of_option; [done|]. destruct (Z.eqb_spec t (s_protocol (slot w i))) as [Et|Et]; cbn [negb].
  2: { do 3 wstep. left. exact HI. }
  rewrite Ht in Hp. assert (Hu : s_protocol (slot w i) ≠ PROTOCOL_TCP) by (rewrite <- Et; by destruct Hp as [[= ->]|[= ->]]).
  specialize (K7 Hu). set (n := if t =? PROTOCOL_UDP then 1 + 2 + 4 else 1 + 2 + 16).
  assert (Hsz : udp_address_size t = Some n ∧ 0 <= n <= UDP_ADDRESS_SIZE) by (unfold n; destruct Hp as [[= ->]|[= ->]]; done).
  destruct Hsz as [Hsz Hn19]. specialize (Hn _ Hsz). clearbody n. wstep.
  assert (H19 : Z.of_nat (length (p_udp_address (slot w i))) = UDP_ADDRESS_SIZE) by (rewrite K7; done).
  eapply wp_of_option; [apply memcpy_to_spec; lia|]. do 3 wstep. left.
  apply Inv_upd_same; [done|apply Ho..|]. split_and!; [done..| |by apply Inv_idle with (1 := HI)|by left].
  split; cbn -[UDP_ADDRESS_SIZE Z.to_nat]; auto. intros _. rewrite !length_app, !length_take, length_drop, K7.
  unfold UDP_ADDRESS_SIZE in *. lia.
Qed.

(** ** Opening sockets *)

(** A reserved slot becomes an open socket, or is given back. *)
Lemma inv_new F sl poll poll' ev pipe id s :
  inv None (id :: F) sl poll ev pipe →
  s_type s ≠ SOCKET_TYPE_RESERVE → slot_ok s →
  (∀ fd ud, poll' !! fd = Some ud → poll !! fd = Some ud ∨ ud.1 = Some (HASH_ID id)) →
  (∀ fd on, poll' !! fd = Some (Some (HASH_ID id), on) →
    poll !! fd = Some (Some (HASH_ID id), on) ∨ s_fd s = fd ∧ polled (s_type s) ∧
    (watched (s_type s) → s_high s ++ s_low s ≠ [] ∨ s_type s = SOCKET_TYPE_CONNECTING → on = true)) →
  inv None F (upd sl (HASH_ID id) s) poll' ev pipe.
Proof.
  intros [H1 H2 H3 H4 H5 H6 H7 H8] Ht Hok Hp Hpi. set (i := HASH_ID id) in *.
  destruct (H3 id) as [Hr Hid]; [set_solver|]. fold i in Hr, Hid. cbn in H4. apply NoDup_cons in H4 as [Hnin H4].
  assert (Hcr : ∀ id', id' ∈ F ++ omap creates pipe → HASH_ID id' ≠ i).
  { intros id' Hin Heq. destruct (H3 id') as [_ E]; [set_solver|]. rewrite Heq in E. congruence. }
  split; [intros j|intros j|intros id' Hin|done|done|intros fd j on Hj|intros e j Hin Hs|done].
  - destruct (decide (j = i)) as [->|Hj]; [by rewrite upd_eq|by rewrite upd_ne].
  - destruct (decide (j = i)) as [->|Hj]; [by rewrite upd_eq|rewrite upd_ne by done]. intros Hj'.
    destruct (H2 j Hj') as [Hin Hh]. split; [|done]. cbn in Hin. apply elem_of_cons in Hin as [E|]; [|done]. by rewrite E in Hh.
  - rewrite upd_ne by auto. apply H3. set_solver.
  - assert (Hold : poll !! fd ≠ Some (Some i, on)).
    { intros Hl. destruct (H6 _ _ _ Hl) as (_ & Hpo & _). by rewrite Hr in Hpo. }
    destruct (decide (j = i)) as [->|Hne].
    + rewrite upd_eq. destruct (Hpi _ _ Hj) as [|(E1 & E2 & E3)]; [done|]. split_and!; auto.
    + rewrite upd_ne by done. destruct (Hp _ _ Hj) as [Hj'|[=]]; [by apply H6|done].
  - destruct (decide (j = i)) as [->|Hne].
    + destruct (H7 e i Hin Hs) as [Hpo|]; [by rewrite Hr in Hpo|done].
    + rewrite upd_ne by done. destruct (H7 e j Hin Hs); auto.
Qed.

(** The socket [new_fd] has set up, whose state has still to be set. *)
Record fresh (F : list Z) (id fd protocol : Z) (add : bool) (w w' : world) : Prop := {
  fresh_inv : Inv None (id :: F) w;
  fresh_slot : ∀ j, j ≠ HASH_ID id → slot w' j = slot w j;
  fresh_fd : s_fd (slot w' (HASH_ID id)) = fd;
  fresh_protocol : s_protocol (slot w' (HASH_ID id)) = protocol;
  fresh_lists : s_high (slot w' (HASH_ID id)) = [] ∧ s_low (slot w' (HASH_ID id)) = [];
  fresh_size : s_wb_size (slot w' (HASH_ID id)) = 0 ∧ p_size (slot w' (HASH_ID id)) = MIN_READ_BUFFER;
  fresh_poll : w_poll w' = if add then <[fd := (Some (HASH_ID id), false)]> (w_poll w) else w_poll w;
  fresh_rest : rest w' = rest w;
  fresh_pipe : w_pipe w' = w_pipe w
}.

(** The slot is given back. *)
Lemma Inv_giveback F w id :
  Inv None (id :: F) w → Inv None F (set_slot (HASH_ID id) (λ s, s <| s_type := SOCKET_TYPE_INVALID |>) w).
Proof.
  intros HI. apply Inv_set_slot, (inv_new F (slot w) (w_poll w)); [done|done| |by left|by left].
  assert (Hr : s_type (slot w (HASH_ID id)) = SOCKET_TYPE_RESERVE) by (apply (inv_creates _ _ _ _ _ _ HI id); set_solver).
  split_and!; try done. intros _. apply (Inv_idle _ _ _ _ HI). by rewrite Hr.
Qed.

Lemma new_fd_wp F w id fd protocol opaque add Q :
  Inv None (id :: F) w → is_protocol protocol →
  (∀ w', Inv None F w' → w_result w' = w_result w → w_pipe w' = w_pipe w →
    s_type (slot w' (HASH_ID id)) = SOCKET_TYPE_INVALID → Q None w') →
  (∀ w', fresh F id fd protocol add w w' → w_result w' = w_result w → Q (Some (HASH_ID id)) w') →
  wp (new_fd (O := O) id fd protocol opaque add) Q w.
Proof.
  intros HI Hp Hnone Hsome. unfold new_fd. do 2 wstep. set (i := HASH_ID id).
  assert (Hr : s_type (slot w i) = SOCKET_TYPE_RESERVE) by (apply (inv_creates _ _ _ _ _ _ HI id); set_solver).
  destruct (Inv_idle _ _ _ i HI) as [Eh El]; [by rewrite Hr|].
  wstep. apply wp_assert; [by rewrite Hr|]. wstep.
  assert (Hu16 : u16 protocol = protocol) by (by destruct Hp as [->|[->| ->]]).
  assert (Hgo : ∀ w1, w_ss w1 = w_ss w → w_pipe w1 = w_pipe w → w_result w1 = w_result w →
    w_poll w1 = (if add then <[fd := (Some i, false)]> (w_poll w) else w_poll w) →
    wp (O := O) (upd_slot i (λ s, s <| s_id := id |> <| s_fd := fd |> <| s_protocol := u16 protocol |> <| p_size := MIN_READ_BUFFER |>
                       <| s_opaque := opaque |> <| s_wb_size := 0 |>);;
    s ← get_slot i; check_wb_list (s_high s);; check_wb_list (s_low s);; mret (Some i)) Q w1).
  { intros w1 E1 E2 E3 E4. do 2 wstep. do 2 wstep. pose proof (slot_frame w w1 i E1) as Es.
    wstep. apply wp_assert; [by rewrite slot_set_eq, Es; cbn; rewrite Eh|].
    wstep. apply wp_assert; [by rewrite slot_set_eq, Es; cbn; rewrite El|]. wstep. apply Hsome; [|exact E3].
    split; rewrite ?slot_set_eq, ?Es; try done.
    - intros j Hj. rewrite slot_set_ne by done. by apply slot_frame.
    - fold i. rewrite Es. by split.
    - transitivity (rest w1); [done|]. unfold rest. by rewrite E1. }
  destruct add.
  - apply wp_sp_add.
    + intros w1 S1. cbn. do 2 wstep. wstep.
      apply Hnone; [apply Inv_giveback; by eapply Inv_same|apply S1|apply S1|by rewrite slot_set_eq].
    + intros w1 [E1 E2 E3 E4] Hfd. cbn [c_true Z.eqb negb]. apply Hgo; cbn; congruence.
  - wstep. cbn [c_true Z.eqb negb]. by apply Hgo.
Qed.

(** The state is set. *)
Lemma fresh_done F id fd protocol add w w' w'' on :
  fresh F id fd protocol add w w' → is_protocol protocol →
  let i := HASH_ID id in
  let s := slot w'' i in
  kept (slot w' i) (s <| s_type := s_type (slot w' i) |>) → s_high s = [] → s_low s = [] → s_wb_size s = 0 →
  p_size s = MIN_READ_BUFFER → (protocol ≠ PROTOCOL_TCP → length (p_udp_address s) = Z.to_nat UDP_ADDRESS_SIZE) →
  (∀ j, j ≠ i → slot w'' j = slot w' j) → rest w'' = rest w' → w_pipe w'' = w_pipe w' →
  w_poll w'' = (if add then <[fd := (Some i, on)]> (w_poll w) else w_poll w) →
  (if add then polled (s_type s) ∧ (s_type s = SOCKET_TYPE_CONNECTING → on = true) else s_type s = SOCKET_TYPE_PLISTEN ∨ s_type s = SOCKET_TYPE_PACCEPT) →
  (s_type s = SOCKET_TYPE_BIND → B = true) →
  Inv None F w''.
Proof.
  intros [K1 K2 K3 K4 K5 K6 K7 K8 K9] Hp i s (_ & _ & Efd & Epr) Eh El Es Ez Eu Hj Er Epi Ep Ht Hb. cbn in Efd, Epr.
  fold i in K3, K4. unfold Inv. rewrite Er, Epi, Ep, K8, K9.
  eapply (inv_ext _ _ (upd (slot w) i s)).
  { intros j. unfold upd. destruct (decide (j = i)) as [->|Hne]; [done|]. by rewrite Hj, K2. }
  apply (inv_new F (slot w) (w_poll w)); [done| | | |].
  - destruct add; [destruct Ht as [Ht _]; by destruct (s_type s)|by destruct Ht as [->| ->]].
  - apply slot_ok_intro; [|done|done]. split; rewrite ?Eh, ?El, ?Es; auto.
    + rewrite Epr, K4. done.
    + intros _. exists 0. rewrite Ez. unfold MIN_READ_BUFFER. lia.
    + rewrite Epr, K4. done.
  - intros fd' ud Hl. destruct add; [|by left]. destruct (decide (fd' = fd)) as [->|Hne].
    + rewrite lookup_insert_eq in Hl. injection Hl as <-. by right.
    + rewrite lookup_insert_ne in Hl by done. by left.
  - intros fd' on' Hl. destruct add; [|by left]. destruct (decide (fd' = fd)) as [->|Hne].
    + rewrite lookup_insert_eq in Hl. injection Hl as <-. right. rewrite Efd, K3, Eh, El.
      destruct Ht as [Ht Hc]. split_and!; [done..|]. by intros _ [|]; auto.
    + rewrite lookup_insert_ne in Hl by done. by left.
Qed.

(** The common way to finish: only the state of the new socket is set. *)
Lemma fresh_type F id fd protocol add w w' t on :
  fresh F id fd protocol add w w' → protocol = PROTOCOL_TCP →
  (if add then polled t ∧ (t = SOCKET_TYPE_CONNECTING → on = true) else t = SOCKET_TYPE_PLISTEN ∨ t = SOCKET_TYPE_PACCEPT) →
  (t = SOCKET_TYPE_BIND → B = true) →
  let w1 := set_slot (HASH_ID id) (λ s, s <| s_type := t |>) w' in
  (∀ w'', w_ss w'' = w_ss w1 → w_pipe w'' = w_pipe w1 →
    w_poll w'' = (if add then <[fd := (Some (HASH_ID id), on)]> (w_poll w) else w_poll w) → Inv None F w'').
Proof.
  intros Hf -> Ht Hb w1 w'' E1 E2 E3. pose proof Hf as [K1 K2 K3 K4 K5 K6 K7 K8 K9].
  assert (Es : ∀ j, slot w'' j = upd (slot w') (HASH_ID id) ((slot w' (HASH_ID id)) <| s_type := t |>) j).
  { intros j. rewrite (slot_frame w1 w'' j E1). apply slot_set. }
  eapply (fresh_done F id fd PROTOCOL_TCP add w w' w'' on); rewrite ?Es, ?upd_eq; try done; try apply K5; try apply K6.
  - by left.
  - intros j Hj. by rewrite Es, upd_ne.
  - unfold rest. by rewrite E1.
Qed.

(** Taking a descriptor out of the epoll set. *)
Lemma Inv_close X F w fd : Inv X F w → Inv X F (w <| w_poll := delete fd (w_poll w) |>).
Proof.
  intros [H1 H2 H3 H4 H5 H6 H7 H8]. split; auto. cbn. intros fd' i on Hl. apply lookup_delete_Some in Hl as [_ Hl]. by apply H6.
Qed.

(** Giving a slot back a second time. *)
Lemma Inv_invalid_again F w i :
  Inv None F w → s_type (slot w i) = SOCKET_TYPE_INVALID →
  Inv None F (set_slot i (λ s, s <| s_type := SOCKET_TYPE_INVALID |>) w).
Proof.
  intros HI Ht. eapply inv_ext; [|exact HI]. intros j. rewrite slot_set. unfold upd.
  destruct (decide (j = i)) as [->|]; [|done]. destruct (slot w i) eqn:E. cbn in *. by rewrite Ht.
Qed.

Lemma listen_socket_wp F w id fd opaque :
  Inv None (id :: F) w → wp (listen_socket (O := O) id fd opaque) (λ _, Inv None F) w.
Proof.
  intros HI. unfold listen_socket. wstep. apply (new_fd_wp F); [done|by left| |].
  - intros w1 HI1 _ _ Ht. wstep. apply wp_close. intros w2 S2. do 4 wstep. wstep.
    apply Inv_invalid_again; [|by rewrite <- Ht, <- (same_slot _ _ _ S2)].
    apply (Inv_close _ _ w2). by eapply Inv_same.
  - intros w1 Hf _. do 2 wstep. wstep. eapply (fresh_type _ _ _ _ _ _ _ _ false); [done|done|by left|done|done|done|].
    apply Hf.
Qed.

Lemma bind_socket_wp F w id fd opaque :
  B = true → Inv None (id :: F) w → wp (bind_socket (O := O) id fd opaque) (λ _, Inv None F) w.
Proof.
  intros HB HI. unfold bind_socket. do 3 wstep. apply (new_fd_wp F); [exact HI|by left| |].
  - intros w1 HI1 _ _ Ht. do 3 wstep. exact HI1.
  - intros w1 Hf _. wstep. wstep. intros w2 S2. do 2 wstep. do 3 wstep.
    apply (fresh_type F id fd PROTOCOL_TCP true _ w1 SOCKET_TYPE_BIND false Hf); [done|done|done| | |].
    + cbn. unfold slot. by rewrite (same_ss _ _ S2).
    + cbn. apply S2.
    + cbn. rewrite (same_poll _ _ S2). apply Hf.
Qed.

Lemma add_udp_socket_wp F w id fd family opaque :
  Inv None (id :: F) w → wp (add_udp_socket (O := O) id fd family opaque) (λ _, Inv None F) w.
Proof.
  intros HI. unfold add_udp_socket. set (p := if family =? AF_INET6 then _ else _).
  assert (Hp : is_protocol p ∧ p ≠ PROTOCOL_TCP) by (unfold p, is_protocol; case_if; auto). wstep.
  apply (new_fd_wp F); [exact HI|apply Hp| |].
  - intros w1 HI1 _ _ Ht. wstep. apply wp_close. intros w2 S2. wstep.
    apply Inv_invalid_again; [|by rewrite <- Ht, <- (same_slot _ _ _ S2)].
    apply (Inv_close _ _ w2). by eapply Inv_same.
  - intros w1 Hf _. do 2 wstep. wstep. rewrite set_slot_set. pose proof Hf as [K1 K2 K3 K4 K5 K6 K7 K8 K9].
    apply (fresh_done F id fd p true w w1 _ false Hf); rewrite ?slot_set_eq; try done; try apply K5; try apply K6; [apply Hp|].
    intros j Hj. by rewrite slot_set_ne.
Qed.

Lemma connect_loop_wp F l : ∀ w, Inv None F w → wp (connect_loop (O := O) l) (λ _, Inv None F) w.
Proof.
  induction l as [|ai l IH]; intros w HI; cbn [connect_loop]; [by wstep|]. wstep. apply wp_call_z. intros sock w1 S1 _.
  case_if; [apply IH; by eapply Inv_same|]. wstep. wstep. intros w2 S2. wstep. wstep. intros w3 S3. wstep.
  apply wp_call. intros r w4 S4 _. do 2 wstep.
  assert (HI4 : Inv None F w4). { eapply Inv_same; [|done]. by repeat (eapply same_trans; [done|]). }
  destruct r; [by wstep|]. case_if; [|by wstep]. wstep. apply wp_close. intros w5 S5. apply IH, Inv_close. by eapply Inv_same.
Qed.

Lemma open_failed_wp F w id data :
  Inv None (id :: F) w ∨ Inv None F w ∧ s_type (slot w (HASH_ID id)) = SOCKET_TYPE_INVALID →
  wp (open_failed (O := O) id data) (λ _, Inv None F) w.
Proof.
  intros HI. unfold open_failed. do 4 wstep. wstep. destruct HI as [HI|[HI Ht]]; [by apply Inv_giveback|by apply Inv_invalid_again].
Qed.

Lemma open_socket_wp F w id port opaque host :
  Inv None (id :: F) w → wp (open_socket (O := O) id port opaque host) (λ _, Inv None F) w.
Proof.
  intros HI. unfold open_socket. do 2 wstep. wstep. apply wp_call. intros r w1 S1 _. do 2 wstep.
  assert (HI1 : Inv None (id :: F) w1) by (eapply Inv_same; [done|exact HI]).
  destruct r as [l|]; [|apply open_failed_wp; by left]. wstep. eapply server_mono; [by apply (connect_loop_wp (id :: F))|].
  clear w1 S1 HI1. intros [[[sock status] ai]|] w1 HI1; [|do 2 wstep; apply open_failed_wp; by left].
  wstep. apply (new_fd_wp F); [exact HI1|by left| |].
  - intros w2 HI2 _ _ Ht. wstep. apply wp_close. intros w3 S3. apply open_failed_wp. right.
    split; [apply Inv_close; by eapply Inv_same|]. by rewrite <- Ht, <- (same_slot _ _ _ S3).
  - intros w2 Hf _. case_if.
    + do 2 wstep. wstep. pose proof (fresh_type F id sock PROTOCOL_TCP true _ w2 SOCKET_TYPE_CONNECTED false Hf) as HF.
      destruct (inet_ntop (ai_addr ai)); do 2 wstep; apply HF; try done; apply Hf.
    + do 2 wstep. do 2 wstep. wstep. wstep. wstep. rewrite slot_set_eq.
      change (s_fd (?s <| s_type := _ |>)) with (s_fd s). rewrite (fresh_fd _ _ _ _ _ _ _ Hf).
      apply (fresh_type F id sock PROTOCOL_TCP true _ w2 SOCKET_TYPE_CONNECTING true Hf); try done.
      * by case_match.
      * by case_match.
      * change (w_poll (set_slot ?i ?f ?w)) with (w_poll w).
        rewrite (fresh_poll _ _ _ _ _ _ _ Hf), lookup_insert_eq. cbn. by rewrite insert_insert_eq.
Qed.

(** ** The control pipe *)

(** Reading a request that opens a socket, and any other. *)
Lemma Inv_read_creates F w r pipe id :
  Inv None F w → w_pipe w = r :: pipe → creates r = Some id → Inv None (id :: F) (w <| w_pipe := pipe |>).
Proof.
  intros [H1 H2 H3 H4 H5 H6 H7 H8] Ep Hc. rewrite Ep in *. cbn in *. rewrite Hc in *.
  assert (Hp : F ++ id :: omap creates pipe ≡ₚ id :: F ++ omap creates pipe) by (by rewrite Permutation_middle).
  split; auto; cbn.
  - intros i Hi. destruct (H2 i Hi) as [Hin Hh]. by rewrite Hp in Hin.
  - intros id' Hin. apply H3. by rewrite Hp.
  - by rewrite <- Hp.
  - apply H5.
Qed.

Lemma Inv_read_other F w r pipe :
  Inv None F w → w_pipe w = r :: pipe → creates r = None → Inv None F (w <| w_pipe := pipe |>).
Proof.
  intros [H1 H2 H3 H4 H5 H6 H7 H8] Ep Hc. rewrite Ep in *. cbn in *. rewrite Hc in *. split; auto. apply H5.
Qed.

Lemma ctrl_cmd_wp fuel w :
  Inv None F0 w → wp (ctrl_cmd (O := O) heap fuel) (λ r w', ∃ i, ended i F0 r w') w.
Proof.
  intros HI. unfold ctrl_cmd. wstep. unfold block_readpipe. do 2 wstep. destruct (w_pipe w) as [|r pipe] eqn:Ep; [wstep|].
  do 3 wstep. pose proof (inv_pipe _ _ _ _ _ _ HI) as Hok. rewrite Ep in Hok. destruct Hok as (Hr & Hcon & _).
  pose proof (Inv_read_creates F0 w r pipe) as Hcr. pose proof (Inv_read_other F0 w r pipe HI Ep) as Hot.
  assert (Hend : ∀ (m : M (O := O) Z) w, wp m (λ _, Inv None F0) w → wp m (λ r w', ∃ i, ended i F0 r w') w).
  { intros m w0 Hm. eapply server_mono; [done|]. intros r' w' HI'. exists 0. by left. }
  assert (Hex : ∀ (m : M (O := O) Z) w i, wp m (ended i F0) w → wp m (λ r w', ∃ i, ended i F0 r w') w).
  { intros m w0 i Hm. eapply server_mono; [done|]. eauto. }
  destruct r; cbn in Hr, Hcon, Hcr, Hot.
  - eapply Hex, start_socket_wp; auto.
  - apply Hend, bind_socket_wp; auto.
  - apply Hend, listen_socket_wp; auto.
  - eapply Hex, close_socket_wp; auto.
  - apply Hend, open_socket_wp; auto.
  - do 3 wstep. exists 0. left. auto.
  - eapply Hex, send_socket_wp; auto. done.
  - eapply Hex, send_socket_wp; auto. done.
  - eapply Hex, send_socket_wp; [auto|apply Hr|auto|]. intros x [= <-]. apply Hr.
  - eapply Hex, set_udp_address_wp; auto.
  - apply Hend. wstep. eapply server_mono; [apply (setopt_socket_wp F0); auto|]. intros [] w' HI'. by wstep.
  - apply Hend. wstep. eapply server_mono; [apply (add_udp_socket_wp F0); auto|]. intros [] w' HI'. by wstep.
Qed.

End inv.

(** ** The event array

    Only [socket_server_poll] itself moves through the events: the functions it
    calls leave the array and the index alone. *)

Section events.
Context {O : Type} `{OS O} (heap : Z → bytes).

Definition events (w : world) : list sp_event * Z * Z := (ss_ev (w_ss w), event_index (w_ss w), event_n (w_ss w)).

Definition keeps {A} (m : M (O := O) A) : Prop := ∀ s, match m s with Ret (_, s') => events s'.1 = events s.1 | _ => True end.

Lemma keeps_ret {A} (a : A) : keeps (mret a).
Proof. done. Qed.
Lemma keeps_bind {A C} (m : M A) (f : A → M C) : keeps m → (∀ a, keeps (f a)) → keeps (m ≫= f).
Proof.
  intros Hm Hf s. unfold mbind, M_bind. specialize (Hm s). destruct (m s) as [[a s']| | |]; [|done..].
  specialize (Hf a s'). destruct (f a s') as [[c s'']| | |]; [congruence|done..].
Qed.
Lemma keeps_get : keeps get.
Proof. done. Qed.
Lemma keeps_modify f : (∀ w, events (f w) = events w) → keeps (modify f).
Proof. intros Hf s. apply Hf. Qed.
Lemma keeps_call {A} (c : sys (Z + A)) : keeps (call c).
Proof. intros s. unfold call. destruct (os_call c s.2) as [[e|a] o]; done. Qed.
Lemma keeps_assert b : keeps (assert b).
Proof. by destruct b. Qed.
Lemma keeps_of_option {A} (x : option A) : keeps (of_option x).
Proof. by destruct x. Qed.
Lemma keeps_stuck {A} : keeps (@stuck O A).
Proof. done. Qed.
Lemma keeps_out_of_fuel {A} : keeps (@out_of_fuel O A).
Proof. done. Qed.
End events.

Create HintDb keeps discriminated.
#[export] Hint Resolve keeps_ret keeps_get keeps_call keeps_assert keeps_of_option keeps_stuck keeps_out_of_fuel : keeps.

(** [keeps_tac]: decompose a function into its commands. *)
Ltac keeps_tac :=
  repeat first
    [ solve [eauto with keeps]
    | apply keeps_bind; [|intros ?]
    | apply keeps_modify; intros ?; first [done | case_match; done]
    | case_match ].

Section keeping.
Context {O : Type} `{OS O} (heap : Z → bytes).
Abbreviation keeps := (keeps (O := O)).

Lemma keeps_get_slot i : keeps (get_slot i). Proof. unfold get_slot. keeps_tac. Qed.
Lemma keeps_get_ss : keeps get_ss. Proof. unfold get_ss. keeps_tac. Qed.
Lemma keeps_errno : keeps errno. Proof. unfold errno. keeps_tac. Qed.
Lemma keeps_upd_slot i f : keeps (upd_slot i f). Proof. by apply keeps_modify. Qed.
Lemma keeps_set_type i t : keeps (set_type i t). Proof. by apply keeps_modify. Qed.
Lemma keeps_set_result r : keeps (set_result r). Proof. by apply keeps_modify. Qed.
Lemma keeps_set_data d : keeps (set_data d). Proof. by apply keeps_modify. Qed.
Lemma keeps_FREE p : keeps (FREE p). Proof. by apply keeps_modify. Qed.
Lemma keeps_object_free p : keeps (object_free p). Proof. by apply keeps_modify. Qed.
Lemma keeps_sp_del fd : keeps (sp_del fd). Proof. by apply keeps_modify. Qed.
Hint Resolve keeps_get_slot keeps_get_ss keeps_errno keeps_upd_slot keeps_set_type keeps_set_result keeps_set_data keeps_FREE
  keeps_object_free keeps_sp_del : keeps.
Lemma keeps_sp_write fd ud on : keeps (sp_write fd ud on). Proof. apply keeps_modify. intros w. by case_match. Qed.
Lemma keeps_call_z c : keeps (call_z c). Proof. unfold call_z. keeps_tac. Qed.
Lemma keeps_close fd : keeps (close fd). Proof. unfold close. keeps_tac. Qed.
Hint Resolve keeps_sp_write keeps_call_z keeps_close : keeps.
Lemma keeps_write fd p sz : keeps (write heap fd p sz). Proof. unfold write. keeps_tac. Qed.
Lemma keeps_sendto fd p sz sa : keeps (sendto heap fd p sz sa). Proof. unfold sendto. keeps_tac. Qed.
Lemma keeps_sp_add fd ud : keeps (sp_add fd ud). Proof. unfold sp_add. keeps_tac. Qed.
Lemma keeps_nonblocking fd : keeps (sp_nonblocking fd). Proof. unfold sp_nonblocking. keeps_tac. Qed.
Lemma keeps_keepalive fd : keeps (socket_keepalive fd). Proof. unfold socket_keepalive. keeps_tac. Qed.
Lemma keeps_send_object p sz : keeps (send_object_init p sz). Proof. unfold send_object_init. keeps_tac. Qed.
Lemma keeps_free_func so p : keeps (free_func so p). Proof. unfold free_func. keeps_tac. Qed.
Lemma keeps_wb_free wb : keeps (write_buffer_free wb). Proof. unfold write_buffer_free. keeps_tac. Qed.
Hint Resolve keeps_write keeps_sendto keeps_sp_add keeps_nonblocking keeps_keepalive keeps_send_object keeps_free_func
  keeps_wb_free : keeps.
Lemma keeps_free_list l : keeps (free_wb_list l). Proof. induction l; cbn; keeps_tac. Qed.
Hint Resolve keeps_free_list : keeps.
Lemma keeps_force_close i : keeps (force_close i). Proof. unfold force_close. keeps_tac. Qed.
Lemma keeps_new_fd id fd p o add : keeps (new_fd id fd p o add). Proof. unfold new_fd, check_wb_list. keeps_tac. Qed.
Hint Resolve keeps_force_close keeps_new_fd : keeps.
Lemma keeps_reserve_loop n : keeps (reserve_loop n).
Proof. induction n as [|n IH]; cbn [reserve_loop]; unfold upd_ss; keeps_tac. Qed.
Lemma keeps_connect_loop l : keeps (connect_loop l). Proof. induction l; cbn [connect_loop]; keeps_tac. Qed.
Lemma keeps_send_list_tcp fuel i l : keeps (send_list_tcp heap fuel i l).
Proof. induction fuel; cbn [send_list_tcp]; keeps_tac. Qed.
Lemma keeps_udp_address s a : keeps (udp_socket_address s a). Proof. unfold udp_socket_address. keeps_tac. Qed.
Hint Resolve keeps_reserve_loop keeps_connect_loop keeps_send_list_tcp keeps_udp_address : keeps.
Lemma keeps_send_loop_udp n i l : keeps (send_loop_udp heap n i l). Proof. induction n; cbn [send_loop_udp]; keeps_tac. Qed.
Hint Resolve keeps_send_loop_udp : keeps.
Lemma keeps_send_list fuel i l : keeps (send_list heap fuel i l). Proof. unfold send_list, send_list_udp. keeps_tac. Qed.
Hint Resolve keeps_send_list : keeps.
Lemma keeps_send_buffer fuel i : keeps (send_buffer heap fuel i).
Proof. unfold send_buffer, raise_uncomplete, check_wb_list. keeps_tac. Qed.
Lemma keeps_append i l r a n : keeps (append_sendbuffer_ i l r a n). Proof. unfold append_sendbuffer_. keeps_tac. Qed.
Hint Resolve keeps_send_buffer keeps_append : keeps.
Lemma keeps_send_socket r p a : keeps (send_socket heap r p a).
Proof. unfold send_socket, append_sendbuffer, append_sendbuffer_low, append_sendbuffer_udp. keeps_tac. Qed.
Hint Resolve keeps_send_socket : keeps.

Lemma keeps_ctrl_cmd fuel : keeps (ctrl_cmd heap fuel).
Proof.
  unfold ctrl_cmd, block_readpipe, start_socket, bind_socket, listen_socket, close_socket, open_socket, open_failed,
    set_udp_address, setopt_socket, add_udp_socket. keeps_tac.
Qed.

Lemma keeps_forward_tcp i : keeps (forward_message_tcp i). Proof. unfold forward_message_tcp. keeps_tac. Qed.
Lemma keeps_forward_udp i : keeps (forward_message_udp i). Proof. unfold forward_message_udp. keeps_tac. Qed.
Lemma keeps_report_connect i : keeps (report_connect i). Proof. unfold report_connect. keeps_tac. Qed.
Lemma keeps_report_accept i : keeps (report_accept i). Proof. unfold report_accept, reserve_id. keeps_tac. Qed.
Lemma keeps_has_cmd : keeps has_cmd. Proof. unfold has_cmd. keeps_tac. Qed.
End keeping.
