(* ===== verification/SocketSafe.v ===== *)
(** * Safety of the socket server

    The events of the poll loop keep the invariant of SocketInv.v as well.  The
    socket thread and the service threads are put together in a step relation,
    and the server is shown never to fail an assertion, never to read outside a
    buffer, and never to forget data that waits to be written. *)

From stdpp Require Import prelude list gmap list_numbers strings.
From S2P Require Import Prelude CString SocketServer SocketInv.

Section safe.
Context {O : Type} `{OSLaws O} (heap : Z → bytes) (B : bool) (F0 : list Z).

(** [Inv heap B F0] everywhere. *)
Abbreviation Inv := (Inv heap B F0).
Abbreviation ended := (ended heap B F0).

Lemma wp_keeps {A} (m : M (O := O) A) Q w : keeps m → wp m Q w → wp m (λ a w', Q a w' ∧ events w' = events w) w.
Proof.
  intros Hk Hm o. specialize (Hk (w, o)). specialize (Hm o). destruct (m (w, o)) as [[a [w' o']]| | |]; done.
Qed.

(** ** Events of sockets *)

(** A socket that was handled is in its old state, or it was closed and this is
    reported. *)
Definition handled (i : Z) (F : list Z) (w : world) (r : Z) (w' : world) : Prop :=
  (SocketInv.Inv heap B F0 None F w' ∧ s_type (slot w' i) = s_type (slot w i)) ∨
  (SocketInv.Inv heap B F0 (Some i) F w' ∧ (r = SOCKET_CLOSE ∨ r = SOCKET_ERROR) ∧ s_type (slot w' i) = SOCKET_TYPE_INVALID).

Lemma forward_message_tcp_wp F w i :
  Inv None F w → is_open (slot w i) → s_protocol (slot w i) = PROTOCOL_TCP →
  wp (forward_message_tcp (O := O) i) (handled i F w) w.
Proof.
  intros HI Ho Hp. unfold forward_message_tcp. do 2 wstep. wstep. apply wp_call. intros r w1 S1 Hl.
  assert (HI1 : Inv None F w1) by (by eapply Inv_same). pose proof (same_slot _ _ i S1) as Es.
  assert (Hclose : wp (O := O) (force_close i) (λ _ w', Inv (Some i) F w' ∧ s_type (slot w' i) = SOCKET_TYPE_INVALID) w1).
  { eapply server_mono; [apply (force_close_wp heap B F0 None F); [done|auto|rewrite Es; apply Ho]|]. naive_solver. }
  destruct r as [buf|].
  - specialize (Hl buf eq_refl buf eq_refl). set (n := Z.of_nat (length buf)) in *. set (s := slot w i) in *.
    case_if; [wstep; eapply server_mono; [exact Hclose|]; intros [] w2 [H1 H2]; wstep; right; auto|].
    case_if; [wstep; left; by rewrite Es|].
    pose proof (Inv_open _ _ _ _ _ _ _ HI Ho) as [K1 K2 K3 K4 K5 K6 K7]. destruct (K6 Hp) as (k & Hk & Ek). change (slot w i) with s in Ek.
    wstep. assert (Hsize : ∀ k', 0 <= k' <= 24 → Inv None F (set_slot i (λ s, s <| p_size := MIN_READ_BUFFER * 2 ^ k' |>) w1)).
    { intros k' Hk'. apply Inv_upd_same; [done|rewrite Es; apply Ho..|]. rewrite Es. split_and!; [done..| | |by left].
      - split; auto. intros _. by exists k'.
      - apply (Inv_idle _ _ _ _ _ _ i HI). }
    assert (Hend : ∀ w2, Inv None F w2 → s_type (slot w2 i) = s_type s →
      wp (O := O) (set_result {| sm_opaque := s_opaque s; sm_id := s_id s; sm_ud := n; sm_data := Some buf |};; mret SOCKET_DATA) (handled i F w) w2).
    { intros w2 H1 H2. do 3 wstep. left. split; [exact H1|exact H2]. }
    rewrite Ek. unfold MIN_READ_BUFFER in *. case_if; [|case_if].
    + assert (k < 24). { assert (64 * 2 ^ k < 64 * 2 ^ 24) by lia. apply (Z.pow_lt_mono_r_iff 2); lia. }
      wstep. apply wp_assert; [apply Z.ltb_lt; lia|]. wstep.
      replace (64 * 2 ^ k * 2) with (64 * 2 ^ (k + 1)) by (rewrite Z.pow_add_r by lia; lia).
      apply Hend; [apply Hsize; lia|by rewrite slot_set_eq, Es].
    + assert (0 < k). { bool_prop. destruct (Z.eq_dec k 0) as [->|]; [|lia]. simpl in *; lia. }
      wstep. replace (Z.quot (64 * 2 ^ k) 2) with (64 * 2 ^ (k - 1)).
      2: { replace k with (k - 1 + 1) at 2 by lia. rewrite Z.pow_add_r, Z.pow_1_r by lia.
           rewrite Z.mul_assoc, Z.quot_mul by lia. done. }
      apply Hend; [apply Hsize; lia|by rewrite slot_set_eq, Es].
    + wstep. apply Hend; [done|by rewrite Es].
  - do 2 wstep. case_if; [wstep; left; by rewrite Es|]. wstep. eapply server_mono; [exact Hclose|]. intros [] w2 [HI2 Ht2].
    do 2 wstep. do 3 wstep. right. split_and!; [exact HI2|by right|exact Ht2].
Qed.

Lemma forward_message_udp_wp F w i :
  Inv None F w → is_open (slot w i) → wp (forward_message_udp (O := O) i) (handled i F w) w.
Proof.
  intros HI Ho. unfold forward_message_udp. do 2 wstep. wstep. apply wp_call. intros r w1 S1 _.
  assert (HI1 : Inv None F w1) by (by eapply Inv_same). pose proof (same_slot _ _ i S1) as Es.
  destruct r as [[buf sa]|].
  - cbv zeta. case_if; [wstep; left; by rewrite Es|]. do 3 wstep. left. split; [exact HI1|].
    change (s_type (slot w1 i) = s_type (slot w i)). by rewrite Es.
  - do 2 wstep. case_if; [wstep; left; by rewrite Es|]. wstep.
    eapply server_mono; [apply (force_close_wp heap B F0 None F); [done|auto|rewrite Es; apply Ho]|].
    intros [] w2 (HI2 & Ht2 & _). do 2 wstep. do 3 wstep. right. split_and!; [exact HI2|by right|exact Ht2].
Qed.

Lemma Inv_connected F w i :
  Inv None F w → s_type (slot w i) = SOCKET_TYPE_CONNECTING →
  Inv None F (set_slot i (λ s, s <| s_type := SOCKET_TYPE_CONNECTED |>) w).
Proof.
  intros HI Ht. assert (Ho : is_open (slot w i)) by (unfold is_open; by rewrite Ht).
  pose proof (Inv_open _ _ _ _ _ _ _ HI Ho) as [K1 K2 K3 K4 K5 K6 K7].
  apply Inv_set_slot, (inv_upd heap B F0 None None F (slot w) (w_poll w)); [done|apply Ho|done| |by left| |by left|done].
  - by apply slot_ok_intro.
  - intros fd on Hl. destruct (inv_poll _ _ _ _ _ _ _ _ _ HI _ _ _ Hl) as (E1 & E2 & E3). split_and!; [done..|].
    intros _ _ _. rewrite Ht in E3. apply E3; [done|by right; right|by right].
Qed.

Lemma report_connect_wp F w i :
  Inv None F w → s_type (slot w i) = SOCKET_TYPE_CONNECTING →
  wp (report_connect (O := O) i) (λ _ w', Inv None F w' ∨ Inv (Some i) F w' ∧ s_type (slot w' i) = SOCKET_TYPE_INVALID) w.
Proof.
  intros HI Ht. unfold report_connect. do 2 wstep. wstep. apply wp_call. intros r w1 S1 _.
  assert (HI1 : Inv None F w1) by (by eapply Inv_same). pose proof (same_slot _ _ i S1) as Es.
  assert (Ho : is_open (slot w1 i)) by (rewrite Es; unfold is_open; by rewrite Ht).
  destruct (match r with Some error => c_true error | None => true end).
  { wstep. eapply server_mono; [apply (force_close_wp heap B F0 None F); [done|auto|apply Ho]|].
    intros [] w2 (HI2 & Ht2 & _). do 2 wstep. do 3 wstep. right. split; [exact HI2|exact Ht2]. }
  do 4 wstep. wstep. set (w2 := set_slot i _ w1).
  assert (Hgo : ∀ w3, Inv None F w3 → wp (O := O)
    (u ← call (SysGetpeername (s_fd (slot w i))); set_data (u ≫= inet_ntop);; mret SOCKET_OPEN)
    (λ _ w', Inv None F w' ∨ Inv (Some i) F w' ∧ s_type (slot w' i) = SOCKET_TYPE_INVALID) w3).
  { intros w3 HI3. wstep. apply wp_call. intros u w4 S4 _. do 3 wstep. left. by eapply (Inv_same _ _ _ _ _ _ w4) in HI3. }
  assert (HI2 : Inv None F w2) by (apply Inv_connected; [done|by rewrite Es]).
  destruct (send_buffer_empty (slot w i)) eqn:Ee; wstep; apply Hgo; [|exact HI2].
  assert (Es2 : slot w2 i = (slot w i) <| s_type := SOCKET_TYPE_CONNECTED |>) by (unfold w2; by rewrite slot_set_eq, Es).
  apply (Inv_sp_write heap B F0 None None F _ i (s_fd (slot w i)) false);
    [exact HI2|by left| | | |by left|right].
  all: change (slot (w2 <| w_result := ?r |>)) with (slot w2); rewrite Es2; try done.
Qed.

(** ** Accepting *)

(** Reserving a free slot for the id that is handled. *)
Lemma Inv_reserve F w id :
  Inv None F w → s_type (slot w (HASH_ID id)) = SOCKET_TYPE_INVALID →
  Inv None (id :: F) (set_slot (HASH_ID id) (λ s, s <| s_type := SOCKET_TYPE_RESERVE |> <| s_id := id |> <| s_fd := -1 |>) w).
Proof.
  intros [H1 H2 H3 H4 H5 H6 H7 H8] Ht. apply Inv_set_slot. set (i := HASH_ID id) in *. set (s := _ <| s_fd := _ |>).
  assert (Hne : ∀ id', id' ∈ F ++ omap creates (w_pipe w) → HASH_ID id' ≠ i).
  { intros id' Hin E. destruct (H3 id' Hin) as [Hr _]. by rewrite E, Ht in Hr. }
  split; [intros j|intros j|intros id' Hin| |done|intros fd j on Hj|intros e j Hin Hs|done].
  - destruct (decide (j = i)) as [->|Hj]; [rewrite upd_eq|by rewrite upd_ne]. destruct (H1 i) as (K1 & _ & _).
    split_and!; [|done..]. intros _. apply K1. by rewrite Ht.
  - destruct (decide (j = i)) as [->|Hj]; [rewrite upd_eq|rewrite upd_ne by done].
    + intros _. split; [set_solver|done].
    + intros Hj'. destruct (H2 j Hj'). split; [set_solver|done].
  - cbn in Hin. apply elem_of_cons in Hin as [->|Hin]; [by rewrite upd_eq|]. rewrite upd_ne by auto. by apply H3.
  - apply NoDup_cons. split; [|done]. intros Hin. by apply (Hne id).
  - destruct (decide (j = i)) as [->|Hne']; [|rewrite upd_ne by done; by apply H6].
    destruct (H6 _ _ _ Hj) as (_ & Hp & _). by rewrite Ht in Hp.
  - destruct (decide (j = i)) as [->|Hne']; [|rewrite upd_ne by done; by eapply H7].
    destruct (H7 _ _ Hin Hs) as [Hp|]; [by rewrite Ht in Hp|done].
Qed.

Lemma reserve_loop_wp F n : ∀ w,
  Inv None F w →
  wp (reserve_loop (O := O) n) (λ id w',
    w_pipe w' = w_pipe w ∧ ((id < 0 ∧ Inv None F w') ∨ (0 <= id ∧ Inv None (id :: F) w'))) w.
Proof.
  induction n as [|n IH]; intros w HI; cbn [reserve_loop]; [wstep; split; [done|left; split; [lia|done]]|].
  do 2 wstep. do 2 wstep. set (w1 := w <| w_ss := _ |>). assert (HI1 : Inv None F w1) by exact HI. wstep.
  assert (Hgo : ∀ w2, Inv None F w2 → w_pipe w2 = w_pipe w → 0 <= alloc_id (w_ss w2) → wp (O := O)
    (ss ← get_ss;
     let id := alloc_id ss in
     s ← get_slot (HASH_ID id);
     if s_type s =t? SOCKET_TYPE_INVALID then
       upd_slot (HASH_ID id) (λ s, s <| s_type := SOCKET_TYPE_RESERVE |> <| s_id := id |> <| s_fd := -1 |>);; mret id
     else reserve_loop n)
    (λ id w', w_pipe w' = w_pipe w ∧ ((id < 0 ∧ Inv None F w') ∨ (0 <= id ∧ Inv None (id :: F) w'))) w2).
  { intros w2 HI2 Epi Hid. do 2 wstep. cbv zeta. do 2 wstep.
    destruct (type_eqb_spec (s_type (slot w2 (HASH_ID (alloc_id (w_ss w2))))) SOCKET_TYPE_INVALID) as [Et|]; [|rewrite <- Epi; by apply IH].
    do 3 wstep. split; [exact Epi|]. right. split; [done|]. by apply Inv_reserve. }
  destruct (Z.ltb_spec (alloc_id (w_ss w1)) 0); wstep; apply Hgo; [exact HI1|done| |exact HI1|done|done].
  cbn. apply Z.land_nonneg. by right.
Qed.

Lemma reserve_id_wp F w :
  Inv None F w →
  wp (reserve_id (O := O)) (λ id w',
    (w_pipe w' = w_pipe w ∧ ((id < 0 ∧ Inv None F w') ∨ (0 <= id ∧ Inv None (id :: F) w'))) ∧ events w' = events w) w.
Proof.
  intros HI. unfold reserve_id. generalize (Z.to_nat MAX_SOCKET). intros n.
  apply wp_keeps; [apply keeps_reserve_loop|by apply reserve_loop_wp].
Qed.

Lemma report_accept_wp F w i :
  Inv None F w → s_type (slot w i) = SOCKET_TYPE_LISTEN → wp (report_accept (O := O) i) (λ _, Inv None F) w.
Proof.
  intros HI Ht. unfold report_accept. do 2 wstep. wstep. apply wp_call. intros r w1 S1 _.
  assert (HI1 : Inv None F w1) by (by eapply Inv_same).
  destruct r as [[client_fd u]|]; [|do 2 wstep; case_if; [do 3 wstep|wstep]; exact HI1].
  wstep. eapply server_mono; [by apply (reserve_id_wp F)|]. intros id w2 [[_ [[Hid HI2]|(Hid & HI2)]] _].
  { rewrite (proj2 (Z.ltb_lt _ _)) by done. wstep. apply wp_close. intros w3 S3. wstep. apply Inv_close. by eapply Inv_same. }
  rewrite (proj2 (Z.ltb_ge _ _)) by done. wstep. wstep. intros w3 S3. wstep. wstep. intros w4 S4. wstep.
  apply (new_fd_wp heap B F0 F); [eapply Inv_same; [|exact HI2]; by eapply same_trans|by left| |].
  - intros w5 HI5 _ _ _. wstep. apply wp_close. intros w6 S6. wstep. apply Inv_close. by eapply Inv_same.
  - intros w5 Hf _. do 2 wstep. do 2 wstep. wstep.
    pose proof (fresh_type heap B F0 F id client_fd PROTOCOL_TCP false w4 w5 SOCKET_TYPE_PACCEPT false Hf) as HF.
    destruct (inet_ntop u); do 2 wstep; apply HF; try done; try (by right); apply Hf.
Qed.
(** ** The poll loop *)

Definition index_ok (w : world) : Prop :=
  0 <= event_index (w_ss w) <= event_n (w_ss w) ∧ event_n (w_ss w) = Z.of_nat (length (ss_ev (w_ss w))).

(** The invariant between turns of the loop. *)
Definition server_ok (w : world) : Prop := Inv None F0 w ∧ index_ok w.

Lemma events_same w w' : events w' = events w → rest w' = rest w ∧ (index_ok w → index_ok w').
Proof. unfold events, rest, index_ok. intros [= E1 E2 E3]. by rewrite E1, E2, E3. Qed.

(** A closed socket without an event left. *)
Lemma Inv_closed_clear F w i :
  Inv (Some i) F w → s_type (slot w i) = SOCKET_TYPE_INVALID → i ∉ omap e_s (rest w) → Inv None F w.
Proof.
  intros [H1 H2 H3 H4 H5 H6 H7 H8] Ht Hi. split; auto.
  - intros fd j on Hl. destruct (H6 _ _ _ Hl) as (E1 & E2 & E3). split_and!; [done..|]. intros _. apply E3.
    intros [= <-]. by rewrite Ht in E2.
  - intros e j Hin Hs. destruct (H7 _ _ Hin Hs) as [|[= <-]]; [by left|]. exfalso. apply Hi, list_elem_of_omap. eauto.
Qed.

(** The event is put back, to be handled again. *)
Lemma put_back w e' i :
  server_ok w → 1 <= event_index (w_ss w) → e_s e' = Some i → polled (s_type (slot w i)) → i ∉ omap e_s (rest w) →
  server_ok (w <| w_ss := (w_ss w) <| ss_ev := <[Z.to_nat (event_index (w_ss w) - 1) := e']> (ss_ev (w_ss w)) |>
                                   <| event_index := event_index (w_ss w) - 1 |> |>).
Proof.
  intros [[H1 H2 H3 H4 H5 H6 H7 H8] [Hi Hn]] Hge He Hp Hnin.
  assert (Hr : drop (Z.to_nat (event_index (w_ss w) - 1)) (<[Z.to_nat (event_index (w_ss w) - 1) := e']> (ss_ev (w_ss w))) = e' :: rest w).
  { unfold rest. set (n := Z.to_nat (event_index (w_ss w) - 1)).
    assert (Hlt : (n < length (ss_ev (w_ss w)))%nat) by lia.
    rewrite (drop_S _ e' n) by (by apply list_lookup_insert_eq). f_equal. rewrite drop_insert_lt by lia. f_equal. lia. }
  split.
  - unfold SocketInv.Inv. unfold rest at 1. cbn. rewrite Hr. split; auto.
    + intros x j Hin Hs. apply elem_of_cons in Hin as [->|Hin]; [|by eapply H7]. left. rewrite He in Hs.
      injection Hs as <-. exact Hp.
    + cbn. rewrite He. by apply NoDup_cons.
  - split; cbn; [lia|]. rewrite length_insert. done.
Qed.

Lemma put_back_same w e i :
  server_ok w → 1 <= event_index (w_ss w) → zget (ss_ev (w_ss w)) (event_index (w_ss w) - 1) = Some e →
  e_s e = Some i → polled (s_type (slot w i)) → i ∉ omap e_s (rest w) →
  server_ok (w <| w_ss := (w_ss w) <| event_index := event_index (w_ss w) - 1 |> |>).
Proof.
  intros Hok Hge Hz He Hp Hnin. pose proof (put_back w e i Hok Hge He Hp Hnin) as HB.
  rewrite list_insert_id in HB; [exact HB|]. rewrite <- zget_nat, Z2Nat.id by lia. done.
Qed.

(** The event that is handled, with the index already past it. *)
Definition at_event (w : world) (e : sp_event) (i : Z) : Prop :=
  1 <= event_index (w_ss w) ∧ zget (ss_ev (w_ss w)) (event_index (w_ss w) - 1) = Some e ∧ e_s e = Some i ∧
  i ∉ omap e_s (rest w).

Lemma at_event_same w w' e i : events w' = events w → at_event w e i → at_event w' e i.
Proof.
  intros Ev (H1 & H2 & H3 & H4). destruct (events_same _ _ Ev) as [Er _]. unfold events in Ev. injection Ev as E1 E2 E3.
  unfold at_event. rewrite Er, E1, E2. done.
Qed.

Lemma server_ok_closed w w' e i :
  index_ok w → events w' = events w → at_event w e i → Inv None F0 w' ∨ Inv (Some i) F0 w' ∧ s_type (slot w' i) = SOCKET_TYPE_INVALID →
  server_ok w'.
Proof.
  intros Hx Ev Ha HI. destruct (events_same _ _ Ev) as [Er Hix]. split; [|by apply Hix].
  destruct HI as [|[HI Ht]]; [done|]. eapply Inv_closed_clear; [done|done|]. rewrite Er. apply Ha.
Qed.

Lemma poll_event_wp fuel w e i :
  server_ok w → at_event w e i → polled (s_type (slot w i)) →
  wp (poll_event (O := O) heap fuel e i) (λ _, server_ok) w.
Proof.
  intros [HI Hx] Ha Hp. unfold poll_event. do 2 wstep.
  assert (Ho : is_open (slot w i)) by (unfold is_open; by destruct (s_type (slot w i))).
  destruct (type_eqb_spec (s_type (slot w i)) SOCKET_TYPE_CONNECTING) as [Et|Et].
  { wstep. eapply server_mono; [apply wp_keeps; [apply keeps_report_connect|by apply (report_connect_wp F0)]|].
    intros r w1 [HI1 Ev]. wstep. by eapply (server_ok_closed w). }
  destruct (type_eqb_spec (s_type (slot w i)) SOCKET_TYPE_LISTEN) as [El|El].
  { wstep. eapply server_mono; [apply wp_keeps; [apply keeps_report_accept|by apply (report_accept_wp F0)]|].
    intros r w1 [HI1 Ev]. wstep. eapply (server_ok_closed w); eauto. }
  destruct (type_eqb_spec (s_type (slot w i)) SOCKET_TYPE_INVALID) as [Ei|Ei]; [by rewrite Ei in Hp|].
  destruct (e_read e).
  - set (m := if s_protocol (slot w i) =? PROTOCOL_TCP then forward_message_tcp i else forward_message_udp i).
    assert (Hm : wp (O := O) m (λ r w', handled i F0 w r w' ∧ events w' = events w) w).
    { unfold m. destruct (Z.eqb_spec (s_protocol (slot w i)) PROTOCOL_TCP).
      - apply wp_keeps; [apply keeps_forward_tcp|by apply forward_message_tcp_wp].
      - apply wp_keeps; [apply keeps_forward_udp|by apply forward_message_udp_wp]. }
    wstep. eapply server_mono; [exact Hm|]. clear m Hm. intros r w1 [Hh Ev].
    assert (Hok : server_ok w1) by (eapply (server_ok_closed w); [done..|]; destruct Hh as [[? _]|(? & _ & ?)]; auto).
    assert (Hback : r ≠ SOCKET_CLOSE → r ≠ SOCKET_ERROR → polled (s_type (slot w1 i)) ∧ at_event w1 e i).
    { intros H1 H2. split; [|by eapply at_event_same]. destruct Hh as [[_ ->]|(_ & [|] & _)]; done. }
    case_if.
    + bool_prop. subst r. do 3 wstep. destruct Hback as [Hp1 (A1 & A2 & A3 & A4)]; [done..|]. by eapply put_back_same.
    + wstep. destruct (e_write e && _ && _) eqn:Er.
      * bool_prop. do 2 wstep. destruct Hback as [Hp1 (A1 & A2 & A3 & A4)]; [by intros ->..|]. by apply (put_back w1 _ i).
      * do 2 wstep. done.
  - destruct (e_write e); [|by wstep]. wstep.
    eapply server_mono; [apply wp_keeps; [apply keeps_send_buffer|by apply (send_buffer_wp heap B F0 F0)]|].
    intros r w1 [HI1 Ev]. wstep. eapply (server_ok_closed w); [done..|].
    destruct HI1 as [[_ (HI1 & Ht & _)]|(_ & Hk & [HI1|(HI1 & Hc & _)])]; [by right|by left|].
    exfalso. apply Et. destruct Hk as (_ & Hk & _). by rewrite <- Hk.
Qed.
(** The events epoll reports are those of distinct polled sockets. *)
Lemma Inv_wait F w l :
  Inv None F w → NoDup (map (λ e : Z * bool * bool, e.1.1) l) →
  let ev := omap (λ '(fd, r, wr), '(ud, on) ← w_poll w !! fd; Some {| e_s := ud; e_read := r; e_write := wr && on |}) l in
  inv heap B F0 None F (slot w) (w_poll w) ev (w_pipe w).
Proof.
  intros [H1 H2 H3 H4 H5 H6 H7 H8] Hl ev.
  assert (Hin : ∀ l' e i, e ∈ omap (λ '(fd, r, wr), '(ud, on) ← w_poll w !! fd; Some {| e_s := ud; e_read := r; e_write := wr && on |}) l' →
    e_s e = Some i → polled (s_type (slot w i)) ∧ s_fd (slot w i) ∈ map (λ e : Z * bool * bool, e.1.1) l').
  { intros l' e i Hin He. apply list_elem_of_omap in Hin as ([[fd r] wr] & Hin & Hx).
    destruct (w_poll w !! fd) as [[ud on]|] eqn:Ep; [|done]. cbn in Hx. injection Hx as <-. cbn in He. subst ud.
    destruct (H6 _ _ _ Ep) as (E1 & E2 & _). split; [done|]. rewrite E1. apply list_elem_of_In, (in_map (λ e : Z * bool * bool, e.1.1) l' (fd, r, wr)).
    by apply list_elem_of_In. }
  split; auto.
  - intros e i He Hs. left. by eapply Hin.
  - unfold ev. clear ev. induction l as [|[[fd r] wr] l IH]; [constructor|]. cbn. apply NoDup_cons in Hl as [Hn Hl].
    destruct (w_poll w !! fd) as [[[i|] on]|] eqn:Ep; cbn; [|by apply IH..]. apply NoDup_cons. split; [|by apply IH].
    intros Hi. apply list_elem_of_omap in Hi as (e & He & Hs). destruct (Hin _ _ _ He Hs) as [_ Hf].
    destruct (H6 _ _ _ Ep) as (E1 & _). by rewrite E1 in Hf.
Qed.

Lemma inv_no_events F sl poll ev pipe : inv heap B F0 None F sl poll ev pipe → inv heap B F0 None F sl poll [] pipe.
Proof. intros [H1 H2 H3 H4 H5 H6 H7 H8]. split; auto; [set_solver|constructor]. Qed.

Lemma poll_step_wp fuel w : server_ok w → wp (poll_step (O := O) heap fuel) (λ _, server_ok) w.
Proof.
  intros [HI [Hx Hn]]. unfold poll_step. do 2 wstep. wstep.
  assert (Hgo : ∀ w1, server_ok w1 → event_index (w_ss w1) < event_n (w_ss w1) → wp (O := O)
    (ss ← get_ss;
     e ← of_option (zget (ss_ev ss) (event_index ss));
     upd_ss (λ ss, ss <| event_index := event_index ss + 1 |>);;
     match e_s e with None => mret None | Some i => poll_event heap fuel e i end) (λ _, server_ok) w1).
  { intros w1 [HI1 [Hx1 Hn1]] Hlt. do 2 wstep.
    destruct (zget_is_Some (ss_ev (w_ss w1)) (event_index (w_ss w1))) as [e Ez]; [lia|]. wstep. eapply wp_of_option; [done|].
    do 2 wstep. set (w2 := w1 <| w_ss := _ |>).
    assert (Er : rest w1 = e :: rest w2).
    { unfold rest. rewrite (drop_S _ e) by (rewrite <- zget_nat, Z2Nat.id by lia; done). f_equal. cbn. f_equal. lia. }
    destruct HI1 as [H1 H2 H3 H4 H5 H6 H7 H8]. rewrite Er in H7, H8.
    assert (Hok2 : server_ok w2).
    { split; [split; auto|split; [cbn; lia|exact Hn1]].
      - intros e' j Hj. apply H7. set_solver.
      - cbn in H8. destruct (e_s e); [by apply NoDup_cons in H8 as [_ ?]|done]. }
    destruct (e_s e) as [i|] eqn:Es; [|by wstep]. apply poll_event_wp; [done| |].
    - split_and!; [cbn; lia| |done|].
      + cbn. by replace (event_index (w_ss w1) + 1 - 1) with (event_index (w_ss w1)) by lia.
      + cbn in H8. rewrite Es in H8. by apply NoDup_cons in H8 as [? _].
    - destruct (H7 e i) as [|]; [set_solver|done|done|done]. }
  destruct (Z.eqb_spec (event_index (w_ss w)) (event_n (w_ss w))) as [E|E].
  - wstep. unfold sp_wait. wstep. apply wp_call. intros r w1 S1 Hl.
    assert (HI1 : Inv None F0 w1) by (by eapply Inv_same). destruct r as [l|].
    + do 4 wstep. wstep. do 3 wstep. set (ev := omap _ l). do 2 wstep.
      pose proof (Inv_wait F0 w1 l HI1 (Hl l eq_refl l eq_refl)) as Hev. fold ev in Hev.
      destruct (Z.leb_spec (Z.of_nat (length ev)) 0).
      * wstep. split; [exact (inv_no_events _ _ _ _ _ HI1)|by split].
      * apply Hgo; [|cbn; lia]. split; [exact Hev|]. split; cbn; lia.
    + do 4 wstep. wstep. wstep. split; [exact (inv_no_events _ _ _ _ _ HI1)|by split].
  - wstep. apply Hgo; [done|lia].
Qed.

(** [clear_closed_event] clears the event of a socket that was just closed, and
    leaves the others alone. *)
Lemma clear_scan_length w id l : length (clear_scan w id l) = length l.
Proof. induction l as [|e l IH]; cbn; [done|]. destruct (e_s e); [case_if|]; cbn; congruence. Qed.

Lemma clear_scan_sub w id l : omap e_s (clear_scan w id l) `sublist_of` omap e_s l.
Proof.
  induction l as [|e l IH]; [constructor|]. cbn [clear_scan].
  destruct (e_s e) eqn:Es; [case_if|]; cbn; rewrite ?Es; [by constructor|by constructor|done].
Qed.

Lemma clear_scan_polled X w id l :
  NoDup (omap e_s l) →
  (∀ e j, e ∈ l → e_s e = Some j → polled (s_type (slot w j)) ∨
     X = Some j ∧ s_type (slot w j) = SOCKET_TYPE_INVALID ∧ s_id (slot w j) = id) →
  ∀ e j, e ∈ clear_scan w id l → e_s e = Some j → polled (s_type (slot w j)).
Proof.
  induction l as [|e0 l IH]; intros Hnd HE e j Hin Hs; [by apply elem_of_nil in Hin|].
  assert (HE' : ∀ e j, e ∈ l → e_s e = Some j → polled (s_type (slot w j)) ∨
     X = Some j ∧ s_type (slot w j) = SOCKET_TYPE_INVALID ∧ s_id (slot w j) = id).
  { intros e' j' He'. apply HE. set_solver. }
  cbn [clear_scan] in Hin. cbn in Hnd. destruct (e_s e0) as [i|] eqn:Es.
  - apply NoDup_cons in Hnd as [Hni Hnd]. destruct (HE e0 i) as [Hp|(HX & Ht & Hid)]; [set_solver|done| |].
    + assert (Ht : (s_type (slot w i) =t? SOCKET_TYPE_INVALID) = false) by (by destruct (s_type (slot w i))).
      rewrite Ht in Hin. cbn in Hin. apply elem_of_cons in Hin as [->|Hin]; [congruence|]. by eapply IH.
    + rewrite Ht, Hid, Z.eqb_refl in Hin. cbn in Hin. apply elem_of_cons in Hin as [->|Hin]; [done|].
      destruct (HE' e j Hin Hs) as [|(HX' & _ & _)]; [done|]. assert (i = j) as -> by congruence.
      exfalso. apply Hni, list_elem_of_omap. eauto.
  - apply elem_of_cons in Hin as [->|Hin]; [congruence|]. by eapply IH.
Qed.

Lemma clear_closed_event_wp w i r :
  ended i F0 r w → index_ok w → wp (clear_closed_event (O := O) r) (λ _, server_ok) w.
Proof.
  intros He [Hx Hn]. unfold clear_closed_event.
  destruct ((r =? SOCKET_CLOSE) || (r =? SOCKET_ERROR)) eqn:Er.
  2: { wstep. destruct He as [HI|(_ & [->| ->] & _)]; [|done..]. by split. }
  wstep. set (l := drop _ (ss_ev (w_ss w))).
  assert (Hinv : ∃ X, Inv X F0 w ∧ (∀ j, X = Some j → s_type (slot w j) = SOCKET_TYPE_INVALID ∧ s_id (slot w j) = sm_id (w_result w))).
  { destruct He as [HI|(HI & _ & Ht & Hid)]; [by exists None|]. exists (Some i). split; [done|]. by intros j [= <-]. }
  destruct Hinv as (X & [H1 H2 H3 H4 H5 H6 H7 H8] & HX). clear He.
  pose proof (clear_scan_polled X w (sm_id (w_result w)) l H8) as Hpol.
  assert (Hdrop : ∀ b : list sp_event, drop (Z.to_nat (event_index (w_ss w))) (take (Z.to_nat (event_index (w_ss w))) (ss_ev (w_ss w)) ++ b) = b).
  { intros b. rewrite drop_app_length'; [done|]. rewrite length_take. lia. }
  split.
  - unfold SocketInv.Inv. unfold rest at 1. cbn. rewrite Hdrop. split; auto.
    + intros fd j on Hl. destruct (H6 _ _ _ Hl) as (E1 & E2 & E3). split_and!; [done..|]. intros _. apply E3. intros ->.
      destruct (HX j eq_refl) as [Et _]. by rewrite Et in E2.
    + intros e j Hin Hs. left. eapply Hpol; [|done|done]. intros e' j' Hin' Hs'. destruct (H7 _ _ Hin' Hs'); naive_solver.
    + eapply sublist_NoDup; [exact H8|apply clear_scan_sub].
  - split; cbn; [done|]. rewrite length_app, clear_scan_length. unfold l. rewrite length_take, length_drop. lia.
Qed.

(** One turn of the loop. *)
Lemma poll_turn_wp fuel w : server_ok w → wp (poll_turn (O := O) heap fuel) (λ _, server_ok) w.
Proof.
  intros [HI Hx]. unfold poll_turn. do 2 wstep. wstep.
  assert (Hstep : ∀ w1, server_ok w1 → wp (O := O) (upd_ss (λ ss, ss <| checkctrl := 0 |>);; poll_step heap fuel) (λ _, server_ok) w1).
  { intros w1 [HI1 Hx1]. do 2 wstep. apply poll_step_wp. split; [exact HI1|exact Hx1]. }
  destruct (c_true (checkctrl (w_ss w))); [|wstep; by apply Hstep].
  unfold has_cmd. do 2 wstep. wstep. apply wp_call. intros r w1 S1 _. do 2 wstep. wstep.
  assert (Hok1 : server_ok w1). { split; [by eapply Inv_same|]. unfold index_ok. by rewrite (same_ss _ _ S1). }
  destruct (match r with Some _ => _ | None => _ end); [|by apply Hstep]. wstep.
  eapply server_mono; [apply wp_keeps; [apply keeps_ctrl_cmd|exact (ctrl_cmd_wp heap B F0 fuel w1 (proj1 Hok1))]|].
  intros t w2 [[i He] Ev]. destruct (events_same _ _ Ev) as [_ Hx2]. specialize (Hx2 (proj2 Hok1)). case_if.
  - wstep. eapply server_mono; [by apply (clear_closed_event_wp w2 i)|]. intros [] w3 Hok3. by wstep.
  - wstep. bool_prop. subst t. destruct He as [HI2|(_ & [|] & _)]; done.
Qed.

Lemma socket_server_poll_wp fuel w : server_ok w → wp (socket_server_poll (O := O) heap fuel) (λ _, server_ok) w.
Proof.
  revert w. induction fuel as [|fuel IH]; intros w Hok; cbn [socket_server_poll]; [wstep|]. wstep.
  eapply server_mono; [by apply poll_turn_wp|]. intros [t|] w1 Hok1; [by wstep|by apply IH].
Qed.
End safe.

(** ** The threads together *)

(** The functions services call with the id of a socket. *)
Inductive api :=
| ApiSend (id : Z) (buffer : ptr) (sz : Z)
| ApiSendLow (id : Z) (buffer : ptr) (sz : Z)
| ApiUdpSend (id : Z) (addr : bytes) (buffer : ptr) (sz : Z)
| ApiUdpConnect (id : Z) (addr : bytes) (port : Z)
| ApiClose (opaque id : Z)
| ApiShutdown (opaque id : Z)
| ApiStart (opaque id : Z)
| ApiNodelay (id : Z)
| ApiExit.

Definition run_api {O} `{OS O} (a : api) : M (O := O) unit :=
  match a with
  | ApiSend id buffer sz => _ ← socket_server_send id buffer sz; mret tt
  | ApiSendLow id buffer sz => socket_server_send_lowpriority id buffer sz
  | ApiUdpSend id addr buffer sz => _ ← socket_server_udp_send id addr buffer sz; mret tt
  | ApiUdpConnect id addr port => _ ← socket_server_udp_connect id addr port; mret tt
  | ApiClose opaque id => socket_server_close opaque id
  | ApiShutdown opaque id => socket_server_shutdown opaque id
  | ApiStart opaque id => socket_server_start opaque id
  | ApiNodelay id => socket_server_nodelay id
  | ApiExit => socket_server_exit
  end.

Definition api_id (a : api) : option Z :=
  match a with
  | ApiSend id _ _ | ApiSendLow id _ _ | ApiUdpSend id _ _ _ | ApiUdpConnect id _ _ | ApiClose _ id | ApiShutdown _ id
  | ApiStart _ id | ApiNodelay id => Some id
  | ApiExit => None
  end.

(** The buffers are readable, and the address is as long as its type says. *)
Definition api_ok (heap : Z → bytes) (a : api) : Prop :=
  match a with
  | ApiSend _ p sz | ApiSendLow _ p sz => 0 <= sz ∧ readable heap p sz
  | ApiUdpSend _ addr p sz => 0 <= sz ∧ readable heap p sz ∧ addr_ok addr
  | _ => True
  end.

Section system.
Context {O : Type} `{OSLaws O} (heap : Z → bytes) (B : bool).

(** A state of the system: the world, and the ids that services have reserved
    without having sent their request yet. *)
Abbreviation system := (world * list Z)%type.

(** The socket thread runs a turn of its loop; a service reserves an id for a new
    socket (an id that no request in the pipe mentions), sends the request for an
    id it has reserved, or calls another function with an id it was given.  The
    operating system may be in any state at each step. *)
Inductive step : system → system → Prop :=
| step_poll w F fuel o o' r w' :
    poll_turn heap fuel (w, o) = Ret (r, (w', o')) → step (w, F) (w', F)
| step_reserve w F o o' id w' :
    reserve_id (O := O) (w, o) = Ret (id, (w', o')) → 0 <= id →
    (∀ r, r ∈ w_pipe w → concerns r ≠ Some id) → step (w, F) (w', id :: F)
| step_create w F F' o o' r id w' :
    creates r = Some id → F ≡ₚ id :: F' → request_ok heap B r →
    send_request (O := O) r (w, o) = Ret (tt, (w', o')) → step (w, F) (w', F')
| step_api w F o o' a w' :
    api_ok heap a → (∀ id, api_id a = Some id → id ∉ F) →
    run_api (O := O) a (w, o) = Ret (tt, (w', o')) → step (w, F) (w', F).

(** The states after [socket_server_create]. *)
Inductive started : system → Prop :=
| start w o o' w' :
    w_pipe w = [] → w_poll w = ∅ → socket_server_create (O := O) (w, o) = Ret (true, (w', o')) → started (w', []).

Definition reachable (s : system) : Prop := ∃ s0, started s0 ∧ rtc step s0 s.

Definition system_ok (s : system) : Prop := server_ok heap B s.2 s.1.

Lemma wp_run {A} (m : M (O := O) A) Q w o a w' o' : wp m Q w → m (w, o) = Ret (a, (w', o')) → Q a w'.
Proof. intros Hm E. specialize (Hm o). by rewrite E in Hm. Qed.

(** If [m] returns, [Q] holds. *)
Definition runs {A} (m : M (O := O) A) (Q : A → world → Prop) (w : world) : Prop :=
  ∀ o a w' o', m (w, o) = Ret (a, (w', o')) → Q a w'.

Lemma runs_wp {A} (m : M (O := O) A) Q w : wp m Q w → runs m Q w.
Proof. intros Hm o a w' o'. by apply wp_run. Qed.

Lemma runs_bind {A C} (m : M (O := O) A) (f : A → M C) Q w : runs m (λ a w', runs (f a) Q w') w → runs (m ≫= f) Q w.
Proof.
  intros Hm o a w' o'. unfold mbind, M_bind. destruct (m (w, o)) as [[a1 [w1 o1]]| | |] eqn:E; [|done..].
  intros E'. by apply (Hm _ _ _ _ E) in E'.
Qed.

Lemma runs_assert b (Q : unit → world → Prop) w : Q tt w → runs (assert (O := O) b) Q w.
Proof. intros HQ o [] w' o'. destruct b; [|done]. by intros [= <- <-]. Qed.

Lemma inv_start w fd0 :
  ss_slot (w_ss w) = ∅ → w_pipe w = [] → w_poll w = {[fd0 := (None, false)]} → ss_ev (w_ss w) = [] →
  event_index (w_ss w) = 0 → event_n (w_ss w) = 0 → server_ok heap B [] w.
Proof.
  intros E1 E2 E3 E4 E5 E6. assert (Es : ∀ i, slot w i = empty_slot) by (intros i; unfold slot; by rewrite E1).
  split; [|unfold index_ok; rewrite E4, E5, E6; done]. unfold Inv, rest. rewrite E2, E3, E4, E5. cbn.
  split; try (by constructor); try set_solver.
  - intros i. by rewrite Es.
  - intros i. by rewrite Es.
  - intros fd i on Hl. by apply lookup_singleton_Some in Hl as [_ [=]].
Qed.

Lemma started_ok s : started s → system_ok s.
Proof.
  intros [w o o' w' Epi Epo Hc]. unfold system_ok. cbn.
  assert (Hr : runs socket_server_create (λ r w', r = true → server_ok heap B [] w') w); [|by apply (Hr _ _ _ _ Hc)].
  clear Hc. unfold socket_server_create. apply runs_bind, runs_wp, wp_call_z. intros efd w1 S1 _.
  case_if; [by apply runs_wp, server_ret|]. apply runs_bind, runs_wp, wp_call. intros [[fd0 fd1]|] w2 S2 _.
  2: { apply runs_wp. wstep. apply wp_close. intros w3 _. by wstep. }
  apply runs_bind, runs_wp, wp_sp_add.
  { intros w3 _. apply runs_wp. cbn. wstep. apply wp_close. intros w4 _. wstep. apply wp_close. intros w5 _. wstep.
    apply wp_close. intros w6 _. by wstep. }
  intros w3 S3 _. cbn [c_true Z.eqb negb]. apply runs_bind, runs_wp. wstep. apply runs_bind, runs_assert, runs_wp.
  wstep. intros _. apply (inv_start _ fd0); try done; cbn.
  - by rewrite (same_pipe _ _ S3), (same_pipe _ _ S2), (same_pipe _ _ S1).
  - by rewrite (same_poll _ _ S3), (same_poll _ _ S2), (same_poll _ _ S1), Epo.
Qed.

Lemma inv_change_F0 F0 F0' X F sl poll ev pipe :
  inv heap B F0 X F sl poll ev pipe → pipe_ok heap B F0' pipe → inv heap B F0' X F sl poll ev pipe.
Proof. intros [H1 H2 H3 H4 H5 H6 H7 H8] Hp. by split. Qed.

Lemma pipe_ok_add F id pipe :
  pipe_ok heap B F pipe → (∀ r, r ∈ pipe → concerns r ≠ Some id) → pipe_ok heap B (id :: F) pipe.
Proof.
  induction pipe as [|r pipe IH]; cbn; [done|]. intros (H1 & H2 & H3) Hr. split_and!; [done| |apply IH; set_solver].
  intros id' Hid. cbn. apply not_elem_of_cons. split; [|by apply H2]. intros ->. apply (Hr r); [set_solver|done].
Qed.

Lemma pipe_ok_snoc F F' pipe r :
  pipe_ok heap B F pipe → request_ok heap B r → (∀ id, concerns r = Some id → id ∉ F') →
  (∀ id, id ∈ F' ++ option_list (creates r) ↔ id ∈ F) → pipe_ok heap B F' (pipe ++ [r]).
Proof.
  intros Hp Hr Hc HF. induction pipe as [|r' pipe IH]; cbn in *.
  - split_and!; [done| |done]. intros id Hid. rewrite app_nil_r. by apply Hc.
  - destruct Hp as (H1 & H2 & H3). split_and!; [done| |by apply IH]. intros id Hid. specialize (H2 id Hid).
    rewrite omap_app. cbn. destruct (creates r); cbn in *; set_solver.
Qed.

(** A request is added to the pipe. *)
Lemma server_ok_push F F' w r :
  server_ok heap B F w → request_ok heap B r → F ≡ₚ option_list (creates r) ++ F' →
  (∀ id, concerns r = Some id → id ∉ F') → server_ok heap B F' (w <| w_pipe := w_pipe w ++ [r] |>).
Proof.
  intros [[H1 H2 H3 H4 H5 H6 H7 H8] Hx] Hr HF Hc. split; [|exact Hx].
  assert (Hperm : F' ++ omap creates (w_pipe w ++ [r]) ≡ₚ F ++ omap creates (w_pipe w)).
  { rewrite omap_app, HF. cbn. destruct (creates r); cbn; [|by rewrite app_nil_r].
    by rewrite (assoc_L (++)), <- Permutation_cons_append. }
  split; auto; cbn.
  - intros i Hi. destruct (H2 i Hi). split; [by rewrite Hperm|done].
  - intros id Hin. apply H3. by rewrite <- Hperm.
  - by rewrite Hperm.
  - apply (pipe_ok_snoc F); [done..|]. intros id. rewrite HF, !elem_of_app. tauto.
Qed.

Lemma server_ok_same F w w' : same w w' → server_ok heap B F w → server_ok heap B F w'.
Proof.
  intros Hs [HI Hx]. split; [by eapply Inv_same|]. unfold index_ok. by rewrite (same_ss _ _ Hs).
Qed.

Lemma gen_udp_address_ok ai p :
  addrinfo_ok ai → (ai_family ai = AF_INET ∧ p = PROTOCOL_UDP ∨ ai_family ai = AF_INET6 ∧ p = PROTOCOL_UDPv6) →
  request_ok heap B (ReqSetUdp 0 (gen_udp_address p (ai_addr ai))).
Proof.
  intros Ha Hp. unfold addrinfo_ok in Ha.
  destruct (ai_addr ai) as [port addr|port addr]; destruct Ha as (Hf & Hl1 & Hl2); rewrite Hf in Hp;
    destruct Hp as [[E ->]|[E ->]]; try done; (split; [|by (left + right)]); eexists; (split; [done|]);
    intros n [= <-]; cbn; rewrite length_app; lia.
Qed.

Lemma udp_address_size_bound t n : udp_address_size t = Some n → 7 <= n.
Proof. unfold udp_address_size. repeat case_if; intros [= <-]; lia. Qed.

Lemma addr_ok_take a t n :
  zget a 0 = Some t → udp_address_size t = Some n → n <= Z.of_nat (length a) → addr_ok (take (Z.to_nat n) (drop (Z.to_nat 0) a)).
Proof.
  intros Ht Hs Hn. pose proof (udp_address_size_bound t n Hs). exists t. rewrite drop_0. split.
  - destruct a as [|c a]; [done|]. destruct (Z.to_nat n) eqn:E; [lia|]. done.
  - rewrite Hs. intros n' [= <-]. rewrite length_take. lia.
Qed.

Lemma run_api_wp F w a :
  server_ok heap B F w → api_ok heap a → (∀ id, api_id a = Some id → id ∉ F) →
  wp (O := O) (run_api a) (λ _, server_ok heap B F) w.
Proof.
  intros Hok Ha Hid.
  assert (Hpush : ∀ w r, server_ok heap B F w → creates r = None → request_ok heap B r → concerns r = api_id a →
    server_ok heap B F (w <| w_pipe := w_pipe w ++ [r] |>)).
  { intros w0 r Hok0 Hc Hr Hco. apply (server_ok_push F); [done|done|by rewrite Hc|]. intros id. rewrite Hco. apply Hid. }
  destruct a; cbn in Ha.
  - cbn. unfold socket_server_send. do 3 wstep. case_if.
    + unfold free_buffer. do 2 wstep. apply wp_send_object_init; [apply Ha|]. unfold free_func. cbn. do 3 wstep. exact Hok.
    + do 2 wstep. do 4 wstep. by apply Hpush.
  - cbn. unfold socket_server_send_lowpriority. do 2 wstep. case_if.
    + unfold free_buffer. wstep. apply wp_send_object_init; [apply Ha|]. unfold free_func. cbn. wstep. exact Hok.
    + wstep. by apply Hpush.
  - destruct Ha as (Hsz & Hr & (t & Ht & Hn)). cbn. unfold socket_server_udp_send. do 3 wstep.
    assert (Hfree : ∀ w, server_ok heap B F w → wp (O := O) (free_buffer buffer sz;; mret (-1))
      (λ _ w', wp (O := O) (mret tt) (λ _, server_ok heap B F) w') w).
    { intros w1 Hok1. unfold free_buffer. do 2 wstep. apply wp_send_object_init; [done|]. unfold free_func. cbn. do 3 wstep.
      exact Hok1. }
    case_if; [by apply Hfree|]. wstep. eapply wp_of_option; [done|].
    destruct (udp_address_size t) as [n|] eqn:Es; [|by apply Hfree]. specialize (Hn n eq_refl). wstep.
    pose proof (udp_address_size_bound t n Es). eapply wp_of_option; [apply copy_out_spec; lia|]. do 2 wstep. do 4 wstep. apply Hpush; [done|done| |done].
    split; [done|]. by eapply addr_ok_take.
  - cbn. unfold socket_server_udp_connect. do 2 wstep. apply wp_call. intros [l|] w1 S1 Hl; [|do 2 wstep; by eapply server_ok_same].
    assert (Hok1 : server_ok heap B F w1) by (by eapply server_ok_same).
    destruct (Hl l eq_refl l eq_refl) as [Hne Hall]. destruct l as [|ai l]; [done|]. apply Forall_cons in Hall as [Hai _].
    case_if; [|case_if; [|do 2 wstep; exact Hok1]]; do 4 wstep; (apply Hpush; [done|done| |done]);
      apply (gen_udp_address_ok ai); auto.
  - cbn. unfold socket_server_close. wstep. by apply Hpush.
  - cbn. unfold socket_server_shutdown. wstep. by apply Hpush.
  - cbn. unfold socket_server_start. wstep. by apply Hpush.
  - cbn. unfold socket_server_nodelay. wstep. by apply Hpush.
  - cbn. unfold socket_server_exit. wstep. by apply Hpush.
Qed.

Lemma step_ok s s' : step s s' → system_ok s → system_ok s'.
Proof.
  intros Hst. unfold system_ok. destruct Hst as [w F fuel o o' r w' Hr|w F o o' id w' Hr Hid Hp|w F F' o o' r id w' Hc HF Hr Hs|w F o o' a w' Ha Hid Hr];
    cbn; intros Hok.
  - exact (wp_run _ _ _ _ _ _ _ (poll_turn_wp heap B F fuel w Hok) Hr).
  - destruct Hok as [HI Hx].
    pose proof (wp_run _ _ _ _ _ _ _ (reserve_id_wp heap B F F w HI) Hr) as [[Epi Hor] Ev].
    destruct Hor as [[? _]|[_ HI']]; [lia|]. split; [|by apply (events_same _ _ Ev)].
    eapply inv_change_F0; [exact HI'|]. rewrite Epi. apply pipe_ok_add; [apply (inv_pipe _ _ _ _ _ _ _ _ _ HI)|done].
  - injection Hs as <- <-. apply (server_ok_push F); [done|done|by rewrite Hc|]. by destruct r.
  - exact (wp_run _ _ _ _ _ _ _ (run_api_wp F w a Hok Ha Hid) Hr).
Qed.

Lemma reachable_ok s : reachable s → system_ok s.
Proof.
  intros (s0 & Hs0 & Hs). apply started_ok in Hs0. induction Hs as [|s s1 s2 Hst _ IH]; [done|]. by eapply IH, step_ok.
Qed.


(** C11. Data that waits is not forgotten: in every reachable state, a socket
    that is registered with epoll, is connected or connecting, and has unsent
    data is polled for writing, and so is one that is closing if no descriptors
    are bound; the number of bytes kept in [wb_size] is the number of bytes
    waiting. *)
Theorem pending_data_is_polled s fd i on :
  reachable s → w_poll s.1 !! fd = Some (Some i, on) →
  s_fd (slot s.1 i) = fd ∧
  s_wb_size (slot s.1 i) = sum_sz (s_high (slot s.1 i)) + sum_sz (s_low (slot s.1 i)) ∧
  (send_buffer_empty (slot s.1 i) = false →
   s_type (slot s.1 i) = SOCKET_TYPE_CONNECTED ∨ s_type (slot s.1 i) = SOCKET_TYPE_CONNECTING ∨
   s_type (slot s.1 i) = SOCKET_TYPE_HALFCLOSE ∧ B = false → on = true).
Proof.
  intros Hr Hp. apply reachable_ok in Hr as [HI _]. destruct (inv_poll _ _ _ _ _ _ _ _ _ HI _ _ _ Hp) as (E1 & E2 & E3).
  split; [done|]. split.
  - apply (ok_size heap). eapply Inv_open; [exact HI|]. unfold is_open. by destruct (s_type (slot s.1 i)).
  - intros He Ht. apply E3; [done|unfold watched; naive_solver|]. left. unfold send_buffer_empty in He.
    destruct (s_high (slot s.1 i)); [|done]. by destruct (s_low (slot s.1 i)).
Qed.
End system.

(** ** An example

    A system in which connections succeed and writes have to wait; a service
    connects to a host and sends three bytes. *)

Definition example_answer {T} (c : sys T) : T :=
  match c in sys T return T with
  | SysWrite _ _ => inl EAGAIN
  | SysRead _ _ => inl EAGAIN
  | SysSendto _ _ _ => inl EAGAIN
  | SysRecvfrom _ _ => inl EAGAIN
  | SysClose _ => inr tt
  | SysEpollCreate => inr 3
  | SysEpollAdd _ => inr tt
  | SysEpollWait _ => inr []
  | SysPipe => inr (4, 5)
  | SysSelect _ => inr tt
  | SysGetaddrinfo _ _ _ _ => inr [{| ai_family := AF_INET; ai_socktype := SOCK_STREAM; ai_protocol := IPPROTO_TCP; ai_addr := SockV4 [0; 80] [127; 0; 0; 1] |}]
  | SysSocket _ _ _ => inr 6
  | SysConnect _ _ => inr tt
  | SysBind _ _ => inr tt
  | SysListen _ _ => inr tt
  | SysAccept _ => inl EAGAIN
  | SysGetSoError _ => inr 0
  | SysGetpeername _ => inl EAGAIN
  | SysSetsockopt _ _ _ _ => inr tt
  | SysNonblocking _ => inr tt
  end.

#[export] Instance example_os : OS unit :=
  {| os_call _ c o := (example_answer c, o); strerror _ := []; gai_strerror _ := []; inet_ntop _ := None |}.

#[export] Instance example_laws : OSLaws unit.
Proof.
  intros A c o. cbn. destruct c; cbn; try done.
  - intros l [= <-]. constructor.
  - intros l [= <-]. split; [done|]. repeat constructor.
Qed.

Definition example_heap : Z → bytes := λ _, [1; 2; 3].

Definition example_world : world :=
  {| w_ss := {| recvctrl_fd := 0; sendctrl_fd := 0; checkctrl := 0; event_fd := 0; alloc_id := 0; event_n := 0; event_index := 0;
                ss_soi := None; ss_ev := []; ss_slot := ∅ |};
     w_result := {| sm_id := 0; sm_opaque := 0; sm_ud := 0; sm_data := None |};
     w_more := 1; w_errno := 0; w_poll := ∅; w_pipe := []; w_trace := [] |}.

(** The state after a command. *)
Definition after {A} (m : M (O := unit) A) (w : world) : world :=
  match m (w, tt) with Ret (_, (w', _)) => w' | _ => w end.

Definition example_started : world := after socket_server_create example_world.
Definition example_reserved : world := after (reserve_loop 1) example_started.
Definition example_open : request := ReqOpen 1 80 7 (str "localhost").
Definition example_asked : world := after (send_request example_open) example_reserved.
Definition example_connected : world := after (poll_turn example_heap 10) example_asked.
Definition example_sent : world := after (run_api (ApiSend 1 (1, 0) 3)) example_connected.
Definition example_waiting : world := after (poll_turn example_heap 10) example_sent.

Lemma example_reachable : reachable (O := unit) example_heap false (example_waiting, []).
Proof.
  exists (example_started, []). split; [by apply (start example_world tt tt)|].
  eapply rtc_l; [apply (step_reserve _ _ _ _ tt tt 1 example_reserved); [by vm_compute|done|]|].
  { intros r Hr. by apply elem_of_nil in Hr. }
  eapply rtc_l; [by apply (step_create _ _ _ [1] [] tt tt example_open 1 example_asked)|].
  eapply rtc_l; [apply (step_poll _ _ _ _ 10 tt tt (Some SOCKET_OPEN) example_connected); by vm_compute|].
  eapply rtc_l; [apply (step_api _ _ _ _ tt tt (ApiSend 1 (1, 0) 3) example_sent); [split; [done|by eexists]| |by vm_compute]|].
  { intros id _ Hid. by apply elem_of_nil in Hid. }
  eapply rtc_l; [|apply rtc_refl]. apply (step_poll _ _ _ _ 10 tt tt None example_waiting); by vm_compute.
Qed.


Lemma pending_data_is_polled_witness :
  s_fd (slot example_waiting 1) = 6 ∧
  s_wb_size (slot example_waiting 1) = sum_sz (s_high (slot example_waiting 1)) + sum_sz (s_low (slot example_waiting 1)) ∧
  (send_buffer_empty (slot example_waiting 1) = false →
   s_type (slot example_waiting 1) = SOCKET_TYPE_CONNECTED ∨ s_type (slot example_waiting 1) = SOCKET_TYPE_CONNECTING ∨
   s_type (slot example_waiting 1) = SOCKET_TYPE_HALFCLOSE ∧ false = false → true = true).
Proof.
  apply (pending_data_is_polled (O := unit) example_heap false (example_waiting, []) 6 1 true); [apply example_reachable|].
  by vm_compute.
Defined.

(** In the example three bytes are waiting. *)
Example example_pending : s_wb_size (slot example_waiting 1) = 3 ∧ s_type (slot example_waiting 1) = SOCKET_TYPE_CONNECTED.
Proof. by vm_compute. Qed.
