(* ===== verification/SocketStream.v ===== *)
(** * What a TCP socket writes

    The bytes the server writes to a descriptor are the messages it was given,
    each of them whole: a message that is sent with high priority overtakes those
    of low priority, but never in the middle of one.  And all of them are written,
    provided that the operating system goes on taking bytes. *)

From stdpp Require Import prelude list gmap list_numbers strings.
From S2P Require Import Prelude CString SocketServer SocketInv SocketSafe.

(** ** The bytes written to a descriptor *)

Definition event_output (fd : Z) (e : io_event) : bytes :=
  match e with
  | EvCall c r =>
      match c in sys T return T → bytes with
      | SysWrite fd' buf => λ r, match r with inr n => if fd' =? fd then take (Z.to_nat n) buf else [] | inl _ => [] end
      | _ => λ _, []
      end r
  | _ => []
  end.

Definition written (fd : Z) (w : world) : bytes := concat (event_output fd <$> w_trace w).

Lemma written_emit fd e w : written fd (emit e w) = written fd w ++ event_output fd e.
Proof. unfold written, emit. cbn. rewrite fmap_app, concat_app. cbn. by rewrite app_nil_r. Qed.

Section stream.
Context {O : Type} `{OSLaws O} (heap : Z → bytes).

(** The bytes of a buffer that are still to be written. *)
Definition payload (wb : write_buffer) : bytes := default [] (copy_out (heap (wb_ptr wb).1) (wb_ptr wb).2 (wb_sz wb)).

Definition stream (l : list write_buffer) : bytes := concat (payload <$> l).

Lemma payload_readable wb :
  readable heap (wb_ptr wb) (wb_sz wb) →
  copy_out (heap (wb_ptr wb).1) (wb_ptr wb).2 (wb_sz wb) = Some (payload wb) ∧ Z.of_nat (length (payload wb)) = wb_sz wb.
Proof.
  intros Hr. destruct (readable_spec heap _ _ Hr) as (_ & b & Eb & Hl). unfold payload. by rewrite Eb.
Qed.

(** A part of the buffer is written. *)
Lemma payload_advanced wb n :
  readable heap (wb_ptr wb) (wb_sz wb) → 0 <= n <= wb_sz wb → payload wb = take (Z.to_nat n) (payload wb) ++ payload (advanced wb n).
Proof.
  intros Hr Hn. rewrite <- (take_drop (Z.to_nat n) (payload wb)) at 1. f_equal. unfold payload. cbn.
  destruct Hr as [b Hb]. rewrite Hb. cbn. unfold copy_out in Hb |- *. case_match eqn:E; [|done]. bool_prop.
  injection Hb as <-. rewrite !(proj2 (Z.leb_le _ _)) by lia. cbn.
  rewrite skipn_firstn_comm, drop_drop. f_equal; [lia|]. f_equal. lia.
Qed.

Lemma wp_write_output fd p sz b (Q : Z → world → Prop) w :
  copy_out (heap p.1) p.2 sz = Some b →
  (∀ n w', same w w' →
     n < 0 ∧ written fd w' = written fd w ∨ 0 <= n <= Z.of_nat (length b) ∧ written fd w' = written fd w ++ take (Z.to_nat n) b →
     Q n w') →
  wp (write (O := O) heap fd p sz) Q w.
Proof.
  intros Hb HQ. unfold write. wstep. eapply wp_of_option; [done|]. intros o. unfold call_z, mbind, M_bind, call.
  cbn [fst snd]. pose proof (os_law Z (SysWrite fd b) o) as Hl. destruct (os_call (SysWrite fd b) o) as [[e|n] o']; cbn.
  - apply HQ; [done|]. left. split; [lia|].
    transitivity (written fd (emit (EvCall (SysWrite fd b) (inl e)) w)); [done|]. rewrite written_emit. cbn. by rewrite app_nil_r.
  - apply HQ; [done|]. right. split; [by apply Hl|]. rewrite written_emit. cbn. by rewrite Z.eqb_refl.
Qed.

(** The other calls write nothing. *)
Lemma wp_call_quiet fd {A} (c : sys (Z + A)) (Q : option A → world → Prop) w :
  (∀ r, event_output fd (EvCall c r) = []) → (∀ r w', same w w' → written fd w' = written fd w → Q r w') → wp (call c) Q w.
Proof.
  intros Hc HQ o. unfold call. cbn [fst snd]. destruct (os_call c o) as [r o'].
  assert (W : written fd (emit (EvCall c r) w) = written fd w) by (by rewrite written_emit, Hc, app_nil_r).
  by destruct r; apply HQ.
Qed.

Lemma wp_free_output fd wb Q w :
  (∀ w', same w w' → written fd w' = written fd w → Q tt w') → wp (write_buffer_free (O := O) wb) Q w.
Proof.
  intros HQ. unfold write_buffer_free. case_if; wstep; apply HQ; try done; rewrite written_emit; cbn; by rewrite app_nil_r.
Qed.

(** Changing a slot writes nothing. *)
Lemma written_set_slot fd i f w : written fd (set_slot i f w) = written fd w.
Proof. done. Qed.

(** ** Sending a list *)

Definition all_readable (l : list write_buffer) : Prop := Forall (λ wb, readable heap (wb_ptr wb) (wb_sz wb)) l.

(** How a list looks after a part of it was written: some buffers are gone and
    the next one may have been started. *)
Inductive shortened : list write_buffer → bytes → list write_buffer → Prop :=
| short_none l : shortened l [] l
| short_part wb l n : 0 < n < wb_sz wb → shortened (wb :: l) (take (Z.to_nat n) (payload wb)) (advanced wb n :: l)
| short_gone wb l out l' : shortened l out l' → shortened (wb :: l) (payload wb ++ out) l'.

Lemma shortened_stream l out l' : shortened l out l' → all_readable l → stream l = out ++ stream l' ∧ all_readable l'.
Proof.
  induction 1 as [l|wb l n Hn|wb l out l' _ IH]; intros Hr; [done|..].
  - apply Forall_cons in Hr as [Hr Hl]. split.
    + unfold stream. cbn. rewrite (payload_advanced wb n Hr) at 1 by lia. by rewrite (assoc_L (++)).
    + constructor; [apply readable_rest; [done|lia]|done].
  - apply Forall_cons in Hr as [Hr Hl]. destruct (IH Hl) as [E Hr']. split; [|done]. unfold stream in *. cbn. rewrite E.
    by rewrite (assoc_L (++)).
Qed.

(** The other fields and the other list stay. *)
Definition only_list (l : wlist) (s s' : socket) : Prop :=
  kept s s' ∧ match l with High => s_low s' = s_low s | Low => s_high s' = s_high s end.

Lemma only_list_trans l s s' s'' : only_list l s s' → only_list l s' s'' → only_list l s s''.
Proof. intros [K1 E1] [K2 E2]. split; [by eapply kept_trans|]. destruct l; congruence. Qed.

Lemma wp_free_list_output fd l : ∀ Q w,
  (∀ w', same w w' → written fd w' = written fd w → Q tt w') → wp (free_wb_list (O := O) l) Q w.
Proof.
  induction l as [|wb l IH]; intros Q w HQ; cbn [free_wb_list]; [wstep; by apply HQ|]. wstep. apply (wp_free_output fd).
  intros w1 S1 W1. apply IH. intros w2 S2 W2. apply HQ; [by eapply same_trans|congruence].
Qed.

(** Closing writes nothing. *)
Lemma force_close_output fd i (Q : unit → world → Prop) w :
  s_type (slot w i) ≠ SOCKET_TYPE_RESERVE → (∀ w', written fd w' = written fd w → Q tt w') →
  wp (force_close (O := O) i) Q w.
Proof.
  intros Ht HQ. unfold force_close. do 4 wstep. change (slot (w <| w_result := _ |>) i) with (slot w i).
  case_if; [wstep; by apply HQ|]. wstep. apply wp_assert; [by destruct (s_type (slot w i))|].
  wstep. apply (wp_free_list_output fd). intros w1 _ W1. do 3 wstep. apply (wp_free_list_output fd). intros w2 _ W2.
  do 3 wstep. rewrite written_set_slot in W2. set (w3 := set_slot i _ w2).
  assert (W3 : written fd w3 = written fd w) by (by transitivity (written fd w2); [|rewrite W2, W1]). clearbody w3.
  set (k := λ (_ : unit) (_ : world), _).
  assert (Hk : ∀ w4, written fd w4 = written fd w → k tt w4).
  { intros w4 W4. unfold k. wstep. case_if; [|wstep; wstep; by apply HQ].
    unfold close. wstep. apply (wp_call_quiet fd); [done|]. intros r w5 _ W5. do 2 wstep. apply HQ.
    change (written fd w5 = written fd w). congruence. }
  case_if; wstep; by apply Hk.
Qed.

Lemma send_list_output i l fd fuel : ∀ w,
  all_readable (get_list l (slot w i)) → s_fd (slot w i) = fd → s_type (slot w i) ≠ SOCKET_TYPE_RESERVE →
  wp (send_list_tcp (O := O) heap fuel i l) (λ r w',
    ∃ out l', written fd w' = written fd w ++ out ∧ shortened (get_list l (slot w i)) out l' ∧
      (r = SOCKET_CLOSE ∨ (r = -1 ∧ only_list l (slot w i) (slot w' i) ∧ get_list l (slot w' i) = l'))) w.
Proof.
  induction fuel as [|fuel IH]; intros w Hr Hfd Ht; cbn [send_list_tcp]; [wstep|]. do 2 wstep.
  destruct (get_list l (slot w i)) as [|tmp next] eqn:El.
  { wstep. exists [], []. rewrite app_nil_r. split; [done|]. split; [constructor|]. right. split; [done|]. by destruct l. }
  apply Forall_cons in Hr as [Hr Hn]. destruct (payload_readable tmp Hr) as [Ep Hlen].
  wstep. rewrite Hfd. eapply wp_write_output; [done|]. intros n w1 S1 Hw. do 2 wstep. pose proof (same_slot _ _ i S1) as Es.
  destruct Hw as [[Hneg Hw]|[Hge Hw]].
  - rewrite (proj2 (Z.ltb_lt _ _)) by done. case_if; [|case_if].
    + eapply server_mono; [apply IH; rewrite Es; [rewrite El; by constructor|done..]|].
      by rewrite Es, El, Hw.
    + wstep. exists [], (tmp :: next). rewrite Hw, app_nil_r. split; [done|]. split; [constructor|]. right. rewrite Es.
      split; [done|]. by destruct l.
    + wstep. apply (force_close_output fd); [by rewrite Es|]. intros w2 W2. wstep. exists [], (tmp :: next).
      rewrite W2, Hw, app_nil_r. split; [done|]. split; [constructor|]. by left.
  - rewrite (proj2 (Z.ltb_ge _ _)) by lia. do 2 wstep. rewrite Hlen in Hge.
    destruct (Z.eqb_spec n (wb_sz tmp)) as [->|Hne]; cbn [negb]; do 2 wstep.
    + wstep. apply (wp_free_output fd). intros w2 S2 Hw2. rewrite set_slot_set in S2.
      assert (Es2 : slot w2 i = set_list l next ((slot w i) <| s_wb_size := s_wb_size (slot w i) - wb_sz tmp |>)).
      { by rewrite (same_slot _ _ i S2), slot_set_eq, Es. }
      assert (Hk2 : only_list l (slot w i) (slot w2 i)) by (rewrite Es2; by destruct l).
      assert (El2 : get_list l (slot w2 i) = next) by (rewrite Es2; by destruct l).
      eapply server_mono; [apply IH; rewrite ?El2; [done|rewrite Es2; by destruct l..]|].
      intros r w3 (out & l' & Ho & Hs & Hc). exists (payload tmp ++ out), l'. rewrite El2 in Hs. split_and!.
      * rewrite Ho, Hw2. change (written fd w1 ++ out = written fd w ++ payload tmp ++ out). rewrite Hw, <- (assoc_L (++)).
        f_equal. f_equal. apply firstn_all2. lia.
      * by constructor.
      * destruct Hc as [|(-> & Hk & El3)]; [by left|]. right. split; [done|]. split; [by eapply only_list_trans|done].
    + wstep. exists (take (Z.to_nat n) (payload tmp)), (advanced tmp n :: next). split; [exact Hw|]. split.
      * destruct (decide (n = 0)) as [->|]; [rewrite advanced_0; constructor|]. constructor. lia.
      * right. rewrite set_slot_set, slot_set_eq, Es. split; [done|]. by destruct l.
Qed.

(** ** Messages *)

(** What is left of the low list: whole messages, or a message that was begun,
    to be raised to the high list, and whole messages. *)
Lemma shortened_low l out l' :
  shortened l out l' → Forall complete l → all_readable l →
  Forall complete l' ∧ (∃ P, payload <$> l = P ++ (payload <$> l') ∧ out = concat P) ∨
  (∃ wb next, l' = wb :: next ∧ list_uncomplete l' = true ∧ Forall complete next ∧
     ∃ P, payload <$> l = P ++ (payload <$> next) ∧ out ++ payload wb = concat P).
Proof.
  induction 1 as [l|wb l n Hn|wb l out l' _ IH]; intros Hc Hr.
  - left. split; [done|]. by exists [].
  - right. apply Forall_cons in Hc as [Hc Hc'], Hr as [Hr _]. exists (advanced wb n), l. split; [done|]. split.
    + cbn. unfold complete in Hc. rewrite Hc. apply orb_true_iff. right. apply negb_true_iff, Z.eqb_neq. lia.
    + split; [done|]. exists [payload wb]. split; [done|]. cbn. rewrite app_nil_r. symmetry. apply payload_advanced; [done|lia].
  - apply Forall_cons in Hc as [_ Hc], Hr as [_ Hr].
    destruct (IH Hc Hr) as [[H1 (P & EP & ->)]|(wb' & next & -> & Hu & H1 & P & EP & Eo)]; [left|right].
    + split; [done|]. exists (payload wb :: P). cbn. by rewrite EP.
    + exists wb', next. split_and!; [done..|]. exists (payload wb :: P). cbn. by rewrite EP, <- (assoc_L (++)), Eo.
Qed.

(** The id of the connection. *)
Context (ident : Z).

(** A connection that has been given the messages [D], begun or to be written
    next, and then [L]. *)
Record chan (t : socket_type) (i fd : Z) (base : bytes) (D L : list bytes) (w : world) : Prop := {
  ch_type : s_type (slot w i) = t;
  ch_fd : s_fd (slot w i) = fd;
  ch_protocol : s_protocol (slot w i) = PROTOCOL_TCP;
  ch_high : all_readable (s_high (slot w i));
  ch_low : all_readable (s_low (slot w i));
  ch_complete : Forall complete (s_low (slot w i));
  ch_sent : written fd w ++ stream (s_high (slot w i)) = base ++ concat D;
  ch_wait : payload <$> s_low (slot w i) = L;
  ch_id : s_id (slot w i) = ident
}.

(** The connection is closed: some of [D] has been written. *)
Definition gone (fd : Z) (base : bytes) (D : list bytes) (w : world) : Prop :=
  written fd w `prefix_of` base ++ concat D.

Lemma send_list_tcp_eq fuel i l Q w :
  s_protocol (slot w i) = PROTOCOL_TCP → wp (send_list_tcp (O := O) heap fuel i l) Q w → wp (send_list heap fuel i l) Q w.
Proof. intros Hp HQ. unfold send_list. do 2 wstep. by rewrite Hp, Z.eqb_refl. Qed.

Lemma sp_write_slot fd ud on Q w :
  (∀ w', w_ss w' = w_ss w → w_trace w' = w_trace w → Q tt w') → wp (sp_write (O := O) fd ud on) Q w.
Proof. intros HQ. wstep. case_match; by apply HQ. Qed.

Lemma chan_frame t i fd base D L w w' : w_ss w' = w_ss w → w_trace w' = w_trace w → chan t i fd base D L w → chan t i fd base D L w'.
Proof.
  intros Es Et [H1 H2 H3 H4 H5 H6 H7 H8 H9]. rewrite <- (slot_frame w w' i Es) in *.
  split; try done. unfold written in *. by rewrite Et.
Qed.

(** The high list is written. *)
Lemma chan_high t i fd base D L out w w' :
  chan t i fd base D L w → written fd w' = written fd w ++ out → shortened (s_high (slot w i)) out (s_high (slot w' i)) →
  only_list High (slot w i) (slot w' i) → chan t i fd base D L w'.
Proof.
  intros [H1 H2 H3 H4 H5 H6 H7 H8 H9] Hw Hs [(K1 & K2 & K3 & K4) Kl]. destruct (shortened_stream _ _ _ Hs H4) as [Est Hr].
  split; rewrite ?K1, ?K2, ?K3, ?K4, ?Kl; try done. by rewrite Hw, <- H7, Est, <- (assoc_L (++)).
Qed.

Lemma send_high_output t i fd base D L fuel w :
  chan t i fd base D L w → t ≠ SOCKET_TYPE_RESERVE →
  wp (send_list (O := O) heap fuel i High) (λ r w',
    r = SOCKET_CLOSE ∧ gone fd base D w' ∨ r = -1 ∧ chan t i fd base D L w') w.
Proof.
  intros Hc Ht. apply send_list_tcp_eq; [apply Hc|]. pose proof Hc as [H1 H2 H3 H4 H5 H6 H7 H8 H9].
  eapply server_mono; [apply send_list_output; [exact H4|done|by rewrite H1]|].
  intros r w' (out & l' & Hw & Hs & [->|(-> & Hk & <-)]); [left|right]; (split; [done|]).
  - destruct (shortened_stream _ _ _ Hs H4) as [Est _]. cbn [get_list] in Est. exists (stream l').
    by rewrite Hw, <- H7, Est, <- (assoc_L (++)).
  - by eapply chan_high.
Qed.

(** The low list is written while the high one is empty. *)
Lemma send_low_output t i fd base D L fuel w :
  chan t i fd base D L w → s_high (slot w i) = [] → t ≠ SOCKET_TYPE_RESERVE →
  wp (send_list (O := O) heap fuel i Low) (λ r w', ∃ P L', L = P ++ L' ∧
    (r = SOCKET_CLOSE ∧ gone fd base (D ++ P) w' ∨
     r = -1 ∧ s_high (slot w' i) = [] ∧
     chan t i fd base (D ++ P) L' (if list_uncomplete (s_low (slot w' i)) then set_slot i raised w' else w'))) w.
Proof.
  intros Hc Eh Ht. apply send_list_tcp_eq; [apply Hc|]. pose proof Hc as [H1 H2 H3 H4 H5 H6 H7 H8 H9].
  rewrite Eh in H7. unfold stream in H7. cbn in H7. rewrite app_nil_r in H7.
  eapply server_mono; [apply send_list_output; [exact H5|done|by rewrite H1]|].
  intros r w' (out & l' & Hw & Hs & Hr). destruct (shortened_stream _ _ _ Hs H5) as [_ Hr'].
  destruct (shortened_low _ _ _ Hs H6 H5) as [[Hcl (P & EP & ->)]|(wb & next & -> & Hu & Hcl & P & EP & Eo)].
  - exists P, (payload <$> l'). cbn in EP. split; [by rewrite <- H8|].
    destruct Hr as [->|(-> & [(K1 & K2 & K3 & K4) Kl] & El)]; [left|right]; (split; [done|]).
    + exists []. by rewrite app_nil_r, Hw, H7, concat_app, (assoc_L (++)).
    + cbn in El. rewrite El, (complete_list _ Hcl). split; [by rewrite Kl|].
      split; rewrite ?K1, ?K2, ?K3, ?K4, ?Kl, ?El, ?Eh; try done; [constructor|].
      by rewrite app_nil_r, Hw, H7, concat_app, (assoc_L (++)).
  - exists P, (payload <$> next). cbn in EP. split; [by rewrite <- H8|]. apply Forall_cons in Hr' as [Hr1 Hr2].
    destruct Hr as [->|(-> & [(K1 & K2 & K3 & K4) Kl] & El)]; [left|right]; (split; [done|]).
    + exists (payload wb). by rewrite Hw, concat_app, <- Eo, H7, !(assoc_L (++)).
    + cbn in El. rewrite El, Hu. split; [by rewrite Kl|].
      assert (Er : slot (set_slot i raised w') i = (slot w' i) <| s_low := next |> <| s_high := [wb] |>).
      { rewrite slot_set_eq. unfold raised. by rewrite El. }
      split; rewrite ?Er, ?written_set_slot; [cbn; congruence..|by repeat constructor|done|done| |done|cbn; congruence].
      rewrite Hw, concat_app, <- Eo, H7. unfold stream. cbn. by rewrite app_nil_r, !(assoc_L (++)).
Qed.

Lemma send_buffer_output t i fd base D L fuel w :
  chan t i fd base D L w → t ≠ SOCKET_TYPE_RESERVE →
  wp (send_buffer (O := O) heap fuel i) (λ r w', ∃ P L', L = P ++ L' ∧
    (r = SOCKET_CLOSE ∧ gone fd base (D ++ P) w' ∨ r = -1 ∧ chan t i fd base (D ++ P) L' w')) w.
Proof.
  intros Hc Ht. unfold send_buffer. do 3 wstep. apply wp_assert; [by rewrite (complete_list _ (ch_complete _ _ _ _ _ _ _ Hc))|].
  wstep. eapply server_mono; [by apply send_high_output|]. intros r w1 [[-> Hg]|[-> Hc1]].
  { cbn. wstep. exists [], L. rewrite app_nil_r. auto. }
  change (-1 =? SOCKET_CLOSE) with false. cbn match. do 2 wstep.
  destruct (s_high (slot w1 i)) eqn:Eh; cbn [is_empty]; [|wstep; exists [], L; rewrite app_nil_r; auto].
  destruct (s_low (slot w1 i)) eqn:El; cbn [is_empty negb].
  - wstep. apply sp_write_slot. intros w2 Es Et. pose proof (chan_frame _ _ _ _ _ _ _ _ Es Et Hc1) as Hc2.
    case_if.
    + wstep. apply (force_close_output fd); [by rewrite (ch_type _ _ _ _ _ _ _ Hc2)|]. intros w3 W3. wstep. exists [], L.
      rewrite app_nil_r. split; [done|]. left. split; [done|]. unfold gone. rewrite W3.
      pose proof (ch_sent _ _ _ _ _ _ _ Hc2) as <-. by apply prefix_app_r.
    + wstep. exists [], L. rewrite app_nil_r. auto.
  - wstep. eapply server_mono; [by eapply send_low_output|]. intros r w2 (P & L' & -> & [[-> Hg]|(-> & Eh2 & Hc2)]).
    { cbn. wstep. exists P, L'. auto. }
    change (-1 =? SOCKET_CLOSE) with false. cbn match. do 2 wstep. destruct (list_uncomplete _) eqn:Eu.
    + unfold raise_uncomplete. do 3 wstep. destruct (s_low (slot w2 i)) as [|tmp next] eqn:El3; [done|]. do 2 wstep.
      do 2 wstep. unfold check_wb_list. wstep. apply wp_assert; [by rewrite slot_set_eq; cbn; rewrite Eh2|].
      do 2 wstep. exists P, L'. split; [done|]. right. split; [done|]. rewrite set_slot_set.
      assert (Er : slot (set_slot i (λ s, s <| s_low := next |> <| s_high := [tmp] |>) w2) i = slot (set_slot i raised w2) i).
      { rewrite !slot_set_eq. unfold raised. by rewrite El3. }
      destruct Hc2 as [H1 H2 H3 H4 H5 H6 H7 H8 H9]. rewrite <- Er in *. by split.
    + do 2 wstep. exists P, L'. auto.
Qed.

(** The message of a request. *)
Definition message_of (r : request_send) : bytes := default [] (copy_out (heap (rs_buffer r).1) (rs_buffer r).2 (rs_sz r)).

Lemma message_new r a : message_of r = payload (new_wb r a 0).
Proof. unfold message_of, payload, new_wb, ptr_add. cbn. by rewrite Z.add_0_r, Z.sub_0_r. Qed.

Lemma new_readable r n : send_ok heap r → 0 <= n <= rs_sz r → readable heap (wb_ptr (new_wb r [] n)) (wb_sz (new_wb r [] n)).
Proof. intros [_ Hr] Hn. by apply readable_rest. Qed.

Lemma payload_new r n : send_ok heap r → 0 <= n <= rs_sz r → message_of r = take (Z.to_nat n) (message_of r) ++ payload (new_wb r [] n).
Proof.
  intros [Hsz Hr] Hn. rewrite (message_new r []). rewrite (payload_advanced (new_wb r [] 0) n) at 1.
  - f_equal. unfold payload. cbn. f_equal. f_equal; [|lia]. lia.
  - apply new_readable; [done|lia].
  - cbn. lia.
Qed.

Lemma stream_snoc l wb : stream (l ++ [wb]) = stream l ++ payload wb.
Proof. unfold stream. rewrite fmap_app, concat_app. cbn. by rewrite app_nil_r. Qed.

Lemma chan_append_high t i fd base D L w r n :
  chan t i fd base D L w → send_ok heap r → 0 <= n <= rs_sz r → (n ≠ 0 → s_high (slot w i) = []) →
  ∀ w1, written fd w1 = written fd w ++ take (Z.to_nat n) (message_of r) → slot w1 i = slot w i →
  chan t i fd base (D ++ [message_of r]) L
    (set_slot i (λ s, s <| s_wb_size := s_wb_size s + wb_sz (new_wb r [] n) |>)
       (set_slot i (λ s, set_list High (get_list High s ++ [new_wb r [] n]) s) w1)).
Proof.
  intros [H1 H2 H3 H4 H5 H6 H7 H8 H9] Hr Hn Hz w1 Hw Es. rewrite set_slot_set.
  split; rewrite ?slot_set_eq, ?written_set_slot, ?Es; try done.
  - apply Forall_app. split; [done|]. constructor; [by apply new_readable|done].
  - change (s_high _) with (s_high (slot w i) ++ [new_wb r [] n]). rewrite stream_snoc, concat_app. cbn [concat].
    rewrite app_nil_r, (payload_new r n Hr Hn), (assoc_L (++) base), <- H7, Hw. destruct (decide (n = 0)) as [->|Hn0].
    + change (take (Z.to_nat 0) (message_of r)) with (@nil Z). by rewrite app_nil_r, app_nil_l, (assoc_L (++)).
    + rewrite (Hz Hn0). unfold stream. cbn. by rewrite app_nil_r, !(assoc_L (++)).
Qed.

Lemma chan_append_low t i fd base D L w r :
  chan t i fd base D L w → send_ok heap r →
  chan t i fd base D (L ++ [message_of r])
    (set_slot i (λ s, s <| s_wb_size := s_wb_size s + wb_sz (new_wb r [] 0) |>)
       (set_slot i (λ s, set_list Low (get_list Low s ++ [new_wb r [] 0]) s) w)).
Proof.
  intros [H1 H2 H3 H4 H5 H6 H7 H8 H9] Hr. rewrite set_slot_set. assert (Hsz : 0 <= 0 <= rs_sz r) by (destruct Hr; lia).
  split; rewrite ?slot_set_eq, ?written_set_slot; try done.
  - apply Forall_app. split; [done|]. constructor; [by apply new_readable|done].
  - apply Forall_app. split; [done|]. constructor; [|done].
    apply (new_wb_ok heap r [] 0 PROTOCOL_TCP); done.
  - change (s_low _) with (s_low (slot w i) ++ [new_wb r [] 0]). rewrite fmap_app, H8. cbn. by rewrite (message_new r []).
Qed.

(** What [send_socket] makes of a message: it is written or queued behind [D],
    or with low priority queued behind [L]. *)
Definition accepted (i fd : Z) (base : bytes) (D L : list bytes) (m : bytes) (prio : Z) (w : world) : Prop :=
  chan SOCKET_TYPE_CONNECTED i fd base (D ++ [m]) L w ∧ (prio = PRIORITY_LOW → L = []) ∨
  prio = PRIORITY_LOW ∧ chan SOCKET_TYPE_CONNECTED i fd base D (L ++ [m]) w.

Lemma send_socket_output fd base D L w r prio :
  chan SOCKET_TYPE_CONNECTED (HASH_ID (rs_id r)) fd base D L w → rs_id r = ident → send_ok heap r →
  wp (send_socket (O := O) heap r prio None) (λ z w',
    z = SOCKET_CLOSE ∧ gone fd base D w' ∨ z = -1 ∧ accepted (HASH_ID (rs_id r)) fd base D L (message_of r) prio w') w.
Proof.
  intros Hc Hid Hr. unfold send_socket. cbv zeta. set (i := HASH_ID (rs_id r)) in *. do 3 wstep.
  apply wp_send_object_init; [apply Hr|]. pose proof Hc as [H1 H2 H3 H4 H5 H6 H7 H8 H9].
  assert (Hsz : 0 <= rs_sz r) by apply Hr. rewrite H1, H9, Hid, H3, !Z.eqb_refl. cbn [negb orb].
  do 2 match goal with |- context [if ?b then free_func _ _;; _ else _] => change b with false; cbn match end.
  change (SOCKET_TYPE_CONNECTED =t? SOCKET_TYPE_CONNECTED) with true. rewrite andb_true_r.
  destruct (send_buffer_empty (slot w i)) eqn:Ee.
  - unfold send_buffer_empty in Ee. destruct (s_high (slot w i)) eqn:Eh, (s_low (slot w i)) eqn:El; try done.
    assert (HL : L = []) by (by rewrite <- H8).
    assert (Hm : copy_out (heap (rs_buffer r).1) (rs_buffer r).2 (rs_sz r) = Some (message_of r)).
    { destruct Hr as [_ [b Hb]]. unfold message_of. by rewrite Hb. }
    assert (Hlen : Z.of_nat (length (message_of r)) = rs_sz r).
    { destruct (readable_spec heap _ _ (proj2 Hr)) as (_ & b & Eb & Hb). congruence. }
    wstep. rewrite H2. eapply wp_write_output; [done|]. intros n w1 S1 Hw. pose proof (same_slot _ _ i S1) as Es. do 2 wstep.
    case_if.
    { wstep. apply (force_close_output fd); [by rewrite Es, H1|]. intros w2 W2. wstep. unfold free_func. cbn [so_user]. do 2 wstep.
      left. split; [done|]. unfold gone. rewrite written_emit, app_nil_r, W2. bool_prop.
      destruct Hw as [[_ ->]|[? _]]; [|lia]. rewrite <- H7. by apply prefix_app_r. }
    set (k := if n <? 0 then 0 else n).
    assert (Hk : 0 <= k <= rs_sz r ∧ written fd w1 = written fd w ++ take (Z.to_nat k) (message_of r)).
    { unfold k. destruct Hw as [[Hn Hw]|[Hn Hw]].
      - rewrite (proj2 (Z.ltb_lt _ _)) by done. rewrite Hw. cbn. by rewrite app_nil_r.
      - rewrite (proj2 (Z.ltb_ge _ _)) by lia. split; [lia|done]. }
    destruct Hk as [Hk Wk]. clearbody k. cbn [so_sz].
    destruct (Z.eqb_spec k (rs_sz r)) as [->|Hne].
    + wstep. unfold free_func. cbn [so_user]. do 2 wstep. right. split; [done|]. left. split; [|done].
      split; rewrite ?written_emit; cbn [event_output]; change (slot (emit _ w1) i) with (slot w1 i); rewrite ?Es, ?Eh, ?El; try done.
      rewrite !app_nil_r, Wk, concat_app. unfold stream in H7. cbn in *. rewrite app_nil_r in *.
      rewrite (assoc_L (++)), <- H7. f_equal. apply firstn_all2. lia.
    + wstep. apply (wp_append heap); [done|]. wstep. apply sp_write_slot. intros w2 E1 E2. wstep. right. split; [done|]. left.
      split; [|done]. eapply chan_frame; [done|done|]. by eapply chan_append_high.
  - wstep. case_if.
    + apply (wp_append heap); [done|]. wstep. right. split; [done|]. right. split; [lia|]. by apply chan_append_low.
    + apply (wp_append heap); [done|]. wstep. right. split; [done|]. left. split; [|lia].
      eapply chan_append_high; [done|done|lia|done| |done]. cbn. by rewrite app_nil_r.
Qed.

(** ** A connection *)

(** The services send messages, and epoll reports that the descriptor takes
    more. *)
Inductive chan_op := OpSend (priority : Z) (buffer : ptr) (sz : Z) | OpWritable.

Definition chan_request (buffer : ptr) (sz : Z) : request_send := {| rs_id := ident; rs_sz := sz; rs_buffer := buffer |}.

Definition chan_step (fuel : nat) (op : chan_op) : M (O := O) Z :=
  match op with
  | OpSend priority buffer sz => send_socket heap (chan_request buffer sz) priority None
  | OpWritable => send_buffer heap fuel (HASH_ID ident)
  end.

(** The operations up to the one that closes the connection. *)
Fixpoint chan_run (fuel : nat) (ops : list chan_op) : M (O := O) bool :=
  match ops with
  | [] => mret true
  | op :: ops => r ← chan_step fuel op; if r =? -1 then chan_run fuel ops else mret false
  end.

Definition op_ok (op : chan_op) : Prop :=
  match op with OpSend _ buffer sz => send_ok heap (chan_request buffer sz) | OpWritable => True end.

(** The messages of each priority. *)
Definition sends (low : bool) (ops : list chan_op) : list bytes :=
  omap (λ op, match op with
              | OpSend priority buffer sz =>
                  if Bool.eqb (priority =? PRIORITY_LOW) low then Some (message_of (chan_request buffer sz)) else None
              | OpWritable => None
              end) ops.

(** [D] has the messages of both lists, those of each in order. *)
Inductive interleaved : list bytes → list bytes → list bytes → Prop :=
| inter_nil : interleaved [] [] []
| inter_high h l D m : interleaved h l D → interleaved (h ++ [m]) l (D ++ [m])
| inter_low h l D m : interleaved h l D → interleaved h (l ++ [m]) (D ++ [m]).

Lemma interleaved_lows h l D P : interleaved h l D → interleaved h (l ++ P) (D ++ P).
Proof.
  revert l D. induction P as [|m P IH]; intros l D Hi; [by rewrite !app_nil_r|].
  rewrite (cons_middle m l P), (cons_middle m D P), !(assoc_L (++)). by apply IH, inter_low.
Qed.

(** The messages given to a connection: [highs] and [lows], of which [D] has been
    begun and the low ones of [L] wait. *)
Definition progress (highs lows D L : list bytes) : Prop := ∃ lows', interleaved highs lows' D ∧ lows = lows' ++ L.

Definition chan_now (fd : Z) (base : bytes) (highs lows : list bytes) (w : world) : Prop :=
  ∃ D L, progress highs lows D L ∧ chan SOCKET_TYPE_CONNECTED (HASH_ID ident) fd base D L w.

Definition chan_gone (fd : Z) (base : bytes) (highs lows : list bytes) (w : world) : Prop :=
  ∃ D L, progress highs lows D L ∧ gone fd base D w.

Lemma chan_step_spec fuel fd base highs lows op w :
  chan_now fd base highs lows w → op_ok op →
  wp (chan_step fuel op) (λ r w',
    r = SOCKET_CLOSE ∧ chan_gone fd base highs lows w' ∨
    r = -1 ∧ chan_now fd base (highs ++ sends false [op]) (lows ++ sends true [op]) w') w.
Proof.
  intros (D & L & (lows' & Hi & ->) & Hc) Hop. destruct op as [prio p sz|]; cbn [chan_step sends omap list_omap].
  - eapply server_mono; [by apply send_socket_output|]. intros r w' [[-> Hg]|[-> Ha]]; [left|right]; (split; [done|]).
    + exists D, L. split; [by exists lows'|done].
    + destruct Ha as [[Hc' HL]|[-> Hc']].
      * destruct (Z.eqb_spec prio PRIORITY_LOW) as [->|Hne]; cbn [Bool.eqb]; rewrite ?app_nil_r.
        -- rewrite (HL eq_refl), app_nil_r. rewrite (HL eq_refl) in Hc'. eexists _, []. split; [|done].
           eexists. rewrite app_nil_r. split; [by apply inter_low|done].
        -- eexists _, L. split; [|done]. exists lows'. split; [by apply inter_high|done].
      * rewrite Z.eqb_refl. cbn [Bool.eqb]. rewrite app_nil_r. eexists D, _. split; [|done]. exists lows'. split; [done|].
        by rewrite (assoc_L (++)).
  - rewrite !app_nil_r. eapply server_mono; [by apply send_buffer_output|].
    intros r w' (P & L' & -> & [[-> Hg]|[-> Hc']]); [left|right]; (split; [done|]);
      (exists (D ++ P), L'; split; [|done]; exists (lows' ++ P); split; [by apply interleaved_lows|by rewrite (assoc_L (++))]).
Qed.

Lemma sends_cons low op ops : sends low (op :: ops) = sends low [op] ++ sends low ops.
Proof. unfold sends. apply (omap_app _ [op] ops). Qed.

Lemma chan_run_spec fuel fd base ops : ∀ highs lows w,
  chan_now fd base highs lows w → Forall op_ok ops →
  wp (chan_run fuel ops) (λ b w',
    if b : bool then chan_now fd base (highs ++ sends false ops) (lows ++ sends true ops) w'
    else ∃ ops' rest, ops = ops' ++ rest ∧ chan_gone fd base (highs ++ sends false ops') (lows ++ sends true ops') w') w.
Proof.
  induction ops as [|op ops IH]; intros highs lows w Hc Hok; cbn [chan_run].
  { wstep. cbn. by rewrite !app_nil_r. }
  apply Forall_cons in Hok as [Hop Hok]. wstep. eapply server_mono; [by apply chan_step_spec|].
  intros r w1 [[-> Hg]|[-> Hc1]].
  - cbn. wstep. exists [], (op :: ops). split; [done|]. cbn. by rewrite !app_nil_r.
  - change (-1 =? -1) with true. cbn match. eapply server_mono; [by apply IH|]. intros [] w2.
    + by rewrite (sends_cons false op ops), (sends_cons true op ops), !(assoc_L (++)).
    + intros (ops' & rest & -> & Hg). exists (op :: ops'), rest. split; [done|].
      by rewrite (sends_cons false op ops'), (sends_cons true op ops'), !(assoc_L (++)).
Qed.

(** A connection with nothing to send. *)
Record idle_chan (fd : Z) (w : world) : Prop := {
  ic_type : s_type (slot w (HASH_ID ident)) = SOCKET_TYPE_CONNECTED;
  ic_fd : s_fd (slot w (HASH_ID ident)) = fd;
  ic_protocol : s_protocol (slot w (HASH_ID ident)) = PROTOCOL_TCP;
  ic_id : s_id (slot w (HASH_ID ident)) = ident;
  ic_empty : send_buffer_empty (slot w (HASH_ID ident)) = true
}.

Lemma empty_lists s : send_buffer_empty s = true → s_high s = [] ∧ s_low s = [].
Proof. unfold send_buffer_empty. by destruct (s_high s), (s_low s). Qed.

Lemma idle_chan_now fd w : idle_chan fd w → chan_now fd (written fd w) [] [] w.
Proof.
  intros [H1 H2 H3 H4 H5]. apply empty_lists in H5 as [Eh El]. exists [], []. split; [exists []; split; [constructor|done]|].
  split; rewrite ?Eh, ?El; try done; constructor.
Qed.

(** C12. Messages reach the wire whole and in order.  Whatever a connected TCP
    socket is given to send, with either priority and at any time, and however
    the operating system cuts the writes, the bytes written and the rest of the
    message that was begun are whole messages: those of high priority in the order
    they were sent, merged with those of low priority in theirs; the other
    messages of low priority wait, in order.  If the connection closes, what was
    written is a prefix of such a sequence. *)
Theorem messages_stay_whole fuel fd ops w o :
  idle_chan fd w → Forall op_ok ops →
  match chan_run fuel ops (w, o) with
  | Ret (true, (w', _)) => ∃ D lows L, interleaved (sends false ops) lows D ∧ sends true ops = lows ++ L ∧
      written fd w' ++ stream (s_high (slot w' (HASH_ID ident))) = written fd w ++ concat D ∧
      payload <$> s_low (slot w' (HASH_ID ident)) = L
  | Ret (false, (w', _)) => ∃ ops' rest D lows L, ops = ops' ++ rest ∧
      interleaved (sends false ops') lows D ∧ sends true ops' = lows ++ L ∧
      written fd w' `prefix_of` written fd w ++ concat D
  | OutOfFuel => True
  | _ => False
  end.
Proof.
  intros Hi Hok. pose proof (chan_run_spec fuel fd (written fd w) ops [] [] w (idle_chan_now fd w Hi) Hok o) as Hr.
  destruct (chan_run fuel ops (w, o)) as [[[] [w' o']]| | |]; try done.
  - destruct Hr as (D & L & (lows & Hin & HL) & Hc). exists D, lows, L. split_and!; [done|done|apply Hc..].
  - destruct Hr as (ops' & rest & -> & D & L & (lows & Hin & HL) & Hg). by exists ops', rest, D, lows, L.
Qed.

(** ** Everything is sent *)

(** [m] returns from this state. *)
Definition ends {A} (m : M (O := O) A) (Q : A → world → O → Prop) (w : world) (o : O) : Prop :=
  ∃ a w' o', m (w, o) = Ret (a, (w', o')) ∧ Q a w' o'.

Lemma ends_ret {A} (a : A) Q w o : Q a w o → ends (mret a) Q w o.
Proof. intros HQ. by exists a, w, o. Qed.

Lemma ends_bind {A B} (m : M A) (f : A → M B) Q w o : ends m (λ a w' o', ends (f a) Q w' o') w o → ends (m ≫= f) Q w o.
Proof.
  intros (a & w1 & o1 & E1 & b & w2 & o2 & E2 & HQ). exists b, w2, o2. split; [|done]. unfold mbind, M_bind. by rewrite E1.
Qed.

Lemma ends_mono {A} (m : M A) (Q Q' : A → world → O → Prop) w o :
  ends m Q w o → (∀ a w' o', Q a w' o' → Q' a w' o') → ends m Q' w o.
Proof. intros (a & w1 & o1 & E1 & HQ) Hq. exists a, w1, o1. auto. Qed.

Lemma ends_get Q w o : Q w w o → ends get Q w o.
Proof. intros HQ. by exists w, w, o. Qed.

Lemma ends_modify f Q w o : Q tt (f w) o → ends (modify f) Q w o.
Proof. intros HQ. by exists tt, (f w), o. Qed.

Lemma ends_assert b Q w o : b = true → Q tt w o → ends (assert b) Q w o.
Proof. intros -> HQ. by exists tt, w, o. Qed.

Lemma ends_of_option {A} (x : option A) Q w o a : x = Some a → Q a w o → ends (of_option x) Q w o.
Proof. intros -> HQ. by exists a, w, o. Qed.

(** What holds if it returns, holds. *)
Lemma ends_wp {A} (m : M A) Q Q' w o : ends m Q w o → wp m Q' w → ends m (λ a w' o', Q a w' o' ∧ Q' a w') w o.
Proof.
  intros (a & w1 & o1 & E1 & HQ) Hw. exists a, w1, o1. split; [done|]. split; [done|]. specialize (Hw o). by rewrite E1 in Hw.
Qed.

Lemma ends_call {A} (c : sys (Z + A)) (Q : option A → world → O → Prop) w o :
  (∀ w', same w w' → (∀ e, (os_call c o).1 = inl e → w_errno w' = e) →
     Q (match (os_call c o).1 with inr a => Some a | inl _ => None end) w' (os_call c o).2) →
  ends (call c) Q w o.
Proof.
  intros HQ. unfold ends, call. cbn [fst snd]. destruct (os_call c o) as [[e|a] o'] eqn:E; cbn in HQ; eexists _, _, _; (split; [done|]);
    apply HQ; try done. by intros ? [= <-].
Qed.

(** The number of bytes and buffers of a list. *)
Fixpoint weight (l : list write_buffer) : Z := match l with [] => 0 | wb :: l => 1 + wb_sz wb + weight l end.

Lemma weight_nonneg l : all_readable l → 0 <= weight l.
Proof.
  induction 1 as [|wb l Hr _ IH]; cbn; [lia|]. destruct (readable_spec heap _ _ Hr) as [? _]. lia.
Qed.

(** The next write to the descriptor succeeds. *)
Definition ready (fd : Z) (o : O) : Prop :=
  ∀ buf, ∃ n, (os_call (SysWrite fd buf) o).1 = inr n ∧ (buf ≠ [] → 0 < n).

(** Writing to the descriptor fails only because its buffer is full. *)
Definition alive (fd : Z) : Prop := ∀ buf o e, (os_call (SysWrite fd buf) o).1 = inl e → e = EAGAIN.

(** A write that is answered, or not. *)
Lemma ends_write fd p sz b (Q : Z → world → O → Prop) w o :
  copy_out (heap p.1) p.2 sz = Some b → alive fd →
  (∀ n w' o', same w w' → n = -1 ∧ w_errno w' = EAGAIN ∧ ¬ ready fd o ∨
     0 <= n <= Z.of_nat (length b) ∧ (ready fd o → b ≠ [] → 0 < n) → Q n w' o') →
  ends (write (O := O) heap fd p sz) Q w o.
Proof.
  intros Hb Ha HQ. unfold write. apply ends_bind. eapply ends_of_option; [done|]. unfold call_z. apply ends_bind, ends_call.
  intros w' S1 He. apply ends_ret. pose proof (os_law Z (SysWrite fd b) o) as Hl. specialize (Ha b o).
  destruct (os_call (SysWrite fd b) o) as [[e|n] o'] eqn:E; cbn in *; apply HQ; try done.
  - left. split; [done|]. split; [rewrite (He e eq_refl); by apply Ha|]. intros Hr. destruct (Hr b) as (n & En & _).
    rewrite E in En. done.
  - right. split; [by apply Hl|]. intros Hr Hne. destruct (Hr b) as (n' & En & Hn). rewrite E in En. injection En as <-. auto.
Qed.

Lemma ends_free wb Q w o : (∀ w', same w w' → Q tt w' o) → ends (write_buffer_free (O := O) wb) Q w o.
Proof. intros HQ. unfold write_buffer_free. case_if; apply ends_modify; by apply HQ. Qed.

(** Enough fuel for a list is one more than its length. *)
Lemma send_list_ends fd i l fuel : ∀ w o,
  alive fd → all_readable (get_list l (slot w i)) → s_fd (slot w i) = fd → (length (get_list l (slot w i)) < fuel)%nat →
  ends (send_list_tcp (O := O) heap fuel i l) (λ r w' o', r = -1 ∧
    weight (get_list l (slot w' i)) <= weight (get_list l (slot w i)) ∧
    (get_list l (slot w i) = [] → o' = o) ∧
    (ready fd o → get_list l (slot w i) ≠ [] → weight (get_list l (slot w' i)) < weight (get_list l (slot w i)))) w o.
Proof.
  induction fuel as [|fuel IH]; intros w o Ha Hr Hfd Hf; [lia|]. cbn [send_list_tcp].
  apply ends_bind, ends_bind, ends_get, ends_ret. destruct (get_list l (slot w i)) as [|tmp next] eqn:El.
  { apply ends_ret. rewrite El. split; [done|]. split; [done|]. done. }
  apply Forall_cons in Hr as [Hr Hn]. destruct (payload_readable tmp Hr) as [Ep Hlen]. pose proof (weight_nonneg _ Hn) as Hw0.
  apply ends_bind. rewrite Hfd. eapply ends_write; [done|done|]. intros n w1 o1 S1 Hw.
  apply ends_bind, ends_bind, ends_get, ends_ret. pose proof (same_slot _ _ i S1) as Es.
  destruct Hw as [(-> & -> & Hnr)|[Hge Hpos]].
  - change (-1 <? 0) with true. change (EAGAIN =? EINTR) with false. change (EAGAIN =? EAGAIN) with true. cbn match.
    apply ends_ret. rewrite Es, El. split; [done|]. split; [done|]. done.
  - rewrite (proj2 (Z.ltb_ge _ _)) by lia. apply ends_bind, ends_modify. rewrite Hlen in Hge.
    destruct (Z.eqb_spec n (wb_sz tmp)) as [->|Hne]; cbn [negb]; apply ends_bind, ends_modify.
    + apply ends_bind, ends_free. intros w2 S2. rewrite set_slot_set in S2.
      assert (El2 : get_list l (slot w2 i) = next ∧ s_fd (slot w2 i) = fd).
      { rewrite (same_slot _ _ i S2), slot_set_eq, Es. by destruct l. }
      destruct El2 as [El2 Ef2]. eapply ends_mono; [apply IH; rewrite ?El2; cbn in Hf; [done..|lia]|].
      intros r w3 o3 (-> & Hle & _ & _). rewrite El2 in Hle. cbn. split; [done|]. split; [lia|]. split; [done|lia].
    + apply ends_ret. rewrite set_slot_set, slot_set_eq, Es.
      replace (get_list _ _) with (advanced tmp n :: next) by (by destruct l). cbn.
      split; [done|]. split; [lia|]. split; [done|]. intros Hrd _. cut (0 < n); [lia|]. apply Hpos; [done|].
      intros Eb. rewrite Eb in Hlen. cbn in Hlen. lia.
Qed.

Lemma free_list_ends l : ∀ Q w o, (∀ w', same w w' → Q tt w' o) → ends (free_wb_list (O := O) l) Q w o.
Proof.
  induction l as [|wb l IH]; intros Q w o HQ; cbn [free_wb_list]; [apply ends_ret; by apply HQ|].
  apply ends_bind, ends_free. intros w1 S1. apply IH. intros w2 S2. apply HQ. by eapply same_trans.
Qed.

Lemma force_close_ends i w o :
  s_type (slot w i) ≠ SOCKET_TYPE_RESERVE → s_type (slot w i) ≠ SOCKET_TYPE_INVALID →
  ends (force_close (O := O) i) (λ _ w' _, s_type (slot w' i) = SOCKET_TYPE_INVALID) w o.
Proof.
  intros Ht Hi. unfold force_close. apply ends_bind, ends_bind, ends_get, ends_ret, ends_bind, ends_modify.
  change (slot (w <| w_result := _ |>) i) with (slot w i). case_if; [by destruct (s_type (slot w i))|].
  apply ends_bind, ends_assert; [by destruct (s_type (slot w i))|].
  apply ends_bind, free_list_ends. intros w1 _. apply ends_bind, ends_modify. apply ends_bind, free_list_ends.
  intros w2 _. apply ends_bind, ends_modify. set (w3 := set_slot i _ w2). clearbody w3. apply ends_bind.
  set (k := λ (_ : unit) (_ : world) (_ : O), _). assert (Hk : ∀ w4 o4, k tt w4 o4).
  { intros w4 o4. unfold k. apply ends_bind. set (k' := λ (_ : unit) (_ : world) (_ : O), _).
    assert (Hk' : ∀ w5 o5, k' tt w5 o5) by (intros w5 o5; apply ends_modify; by rewrite slot_set_eq).
    case_if; [|by apply ends_ret]. apply ends_bind, ends_call. intros w5 _ _. by apply ends_modify. }
  case_if; [by apply ends_modify|by apply ends_ret].
Qed.

Definition pending (s : socket) : Z := weight (s_high s) + weight (s_low s).

Lemma weight_zero l : all_readable l → weight l <= 0 → l = [].
Proof.
  intros Hr. destruct Hr as [|wb l Hr Hr']; [done|]. cbn. pose proof (weight_nonneg _ Hr').
  destruct (readable_spec heap _ _ Hr) as [? _]. lia.
Qed.

Lemma weight_pos l : all_readable l → l ≠ [] → 0 < weight l.
Proof. intros Hr Hl. destruct (decide (0 < weight l)); [done|]. destruct Hl. apply weight_zero; [done|lia]. Qed.

Lemma pending_zero s : all_readable (s_high s) → all_readable (s_low s) → pending s = 0 → s_high s = [] ∧ s_low s = [].
Proof.
  intros Hh Hl Hp. unfold pending in Hp. pose proof (weight_nonneg _ Hh). pose proof (weight_nonneg _ Hl).
  split; apply weight_zero; [done|lia|done|lia].
Qed.

(** The connection is open, or closed after everything has been written. *)
Definition flushed (t : socket_type) (i fd : Z) (base : bytes) (D L : list bytes) (w : world) (o : O) (r : Z) (w' : world) : Prop :=
  r = -1 ∧ pending (slot w' i) <= pending (slot w i) ∧
    (ready fd o → pending (slot w i) ≠ 0 → pending (slot w' i) < pending (slot w i)) ∧
    (pending (slot w i) = 0 → t = SOCKET_TYPE_CONNECTED) ∨
  r = SOCKET_CLOSE ∧ t = SOCKET_TYPE_HALFCLOSE ∧ s_type (slot w' i) = SOCKET_TYPE_INVALID ∧ L = [] ∧
    written fd w' = base ++ concat D.

(** A list of the connection is written. *)
Lemma chan_list_ends t i fd base D L l fuel w o :
  chan t i fd base D L w → t ≠ SOCKET_TYPE_RESERVE → alive fd → (length (get_list l (slot w i)) < fuel)%nat →
  ends (send_list (O := O) heap fuel i l) (λ r w' o', r = -1 ∧ only_list l (slot w i) (slot w' i) ∧
    weight (get_list l (slot w' i)) <= weight (get_list l (slot w i)) ∧
    (get_list l (slot w i) = [] → o' = o) ∧
    (ready fd o → get_list l (slot w i) ≠ [] → weight (get_list l (slot w' i)) < weight (get_list l (slot w i)))) w o.
Proof.
  intros [H1 H2 H3 H4 H5 H6 H7 H8 H9] Ht Ha Hf. unfold send_list. apply ends_bind, ends_bind, ends_get, ends_ret.
  rewrite H3, Z.eqb_refl. assert (Hr : all_readable (get_list l (slot w i))) by (by destruct l).
  eapply ends_mono; [apply ends_wp; [by apply (send_list_ends fd)|apply (send_list_output i l fd); [done|done|by rewrite H1]]|].
  intros r w' o' [(-> & Hw) (out & l' & _ & _ & [|(_ & Hk & _)])]; [done|]. auto.
Qed.

(** A message that was begun is moved to the high list. *)
Definition settled (s : socket) : socket := if list_uncomplete (s_low s) then raised s else s.

Lemma settled_pending s : s_high s = [] → weight (s_high (settled s)) + weight (s_low (settled s)) = weight (s_low s).
Proof.
  intros Eh. unfold settled, raised. destruct (s_low s) eqn:E; cbn; [|case_if; cbn]; rewrite ?Eh, ?E; cbn; lia.
Qed.

Lemma raise_ends i Q w o :
  s_high (slot w i) = [] → (∀ w', slot w' i = settled (slot w i) → Q tt w' o) →
  ends (if list_uncomplete (s_low (slot w i)) then raise_uncomplete i else mret tt) Q w o.
Proof.
  intros Eh HQ. unfold settled, raised in HQ. destruct (list_uncomplete _) eqn:Eu; [|apply ends_ret; by apply HQ].
  unfold raise_uncomplete. apply ends_bind, ends_bind, ends_get, ends_ret.
  destruct (s_low (slot w i)) as [|tmp next]; [done|]. apply ends_bind, ends_modify.
  apply ends_bind, ends_bind, ends_get, ends_ret, ends_bind.
  apply ends_assert; [by rewrite slot_set_eq; cbn; rewrite Eh|]. apply ends_modify, HQ. by rewrite set_slot_set, slot_set_eq.
Qed.

Lemma send_buffer_ends t i fd base D L fuel w o :
  chan t i fd base D L w → t = SOCKET_TYPE_CONNECTED ∨ t = SOCKET_TYPE_HALFCLOSE → alive fd →
  (length (s_high (slot w i)) < fuel)%nat → (length (s_low (slot w i)) < fuel)%nat →
  ends (send_buffer (O := O) heap fuel i) (λ r w' _, flushed t i fd base D L w o r w') w o.
Proof.
  intros Hc Ht Ha Hf1 Hf2. assert (Htr : t ≠ SOCKET_TYPE_RESERVE) by (by destruct Ht as [->| ->]). unfold send_buffer.
  apply ends_bind, ends_bind, ends_get, ends_ret, ends_bind.
  apply ends_assert; [by rewrite (complete_list _ (ch_complete _ _ _ _ _ _ _ Hc))|]. apply ends_bind.
  eapply ends_mono; [apply ends_wp; [by eapply (chan_list_ends _ _ _ _ _ _ High)|by apply send_high_output]|].
  intros r w1 o1 [(-> & [Hk1 El1] & Hle1 & Ho1 & Hlt1) [[? _]|[_ Hc1]]]; [done|]. cbn [get_list] in *.
  change (-1 =? SOCKET_CLOSE) with false. cbn match. apply ends_bind, ends_bind, ends_get, ends_ret.
  pose proof Hc as [H1 H2 H3 H4 H5 H6 H7 H8 H9]. pose proof Hc1 as [G1 G2 G3 G4 G5 G6 G7 G8 G9].
  pose proof (weight_nonneg _ H4). pose proof (weight_nonneg _ H5). unfold flushed, pending.
  destruct (s_high (slot w1 i)) as [|wb1 l1] eqn:Eh1; cbn [is_empty].
  2: { assert (Hne : s_high (slot w i) ≠ []).
       { intros E. rewrite E in Hle1. pose proof (weight_zero _ G4 Hle1) as E0. congruence. }
       pose proof (weight_pos _ H4 Hne). apply ends_ret. left. rewrite Eh1, El1. split; [done|]. split; [lia|].
       split; [intros Hrd _; specialize (Hlt1 Hrd Hne)|]; lia. }
  destruct (s_low (slot w1 i)) as [|wb2 l2] eqn:Elo; cbn [is_empty negb].
  - apply ends_bind, ends_modify. set (w2 := match w_poll w1 !! _ with Some _ => _ | None => w1 end).
    assert (Ew : slot w2 i = slot w1 i ∧ written fd w2 = written fd w1) by (unfold w2; case_match; done).
    destruct Ew as [Es Ew]. clearbody w2. rewrite G1. destruct (type_eqb_spec t SOCKET_TYPE_HALFCLOSE) as [->|Hh].
    + apply ends_bind. eapply ends_mono; [apply ends_wp; [apply force_close_ends|apply (force_close_output fd _ (λ _ w', written fd w' = written fd w2)); [|done]]; by rewrite Es, G1|].
      intros [] w3 o3 [Et W3]. apply ends_ret. right. split_and!; [done..|by rewrite <- G8|].
      rewrite W3, Ew, <- G7. unfold stream. cbn. by rewrite app_nil_r.
    + apply ends_ret. left. rewrite Es, Eh1, Elo. cbn. split; [done|]. split; [lia|]. split; [lia|].
      intros _. by destruct Ht.
  - apply ends_bind. eapply ends_mono; [apply (chan_list_ends _ _ _ _ _ _ Low _ _ _ Hc1); cbn; [done|done|by rewrite Elo, El1]|].
    cbn [get_list]. rewrite Elo, El1. intros r w2 o2 (-> & [Hk2 Eh2] & Hle2 & _ & Hlt2).
    change (-1 =? SOCKET_CLOSE) with false. cbn match. apply ends_bind, ends_bind, ends_get, ends_ret.
    assert (Hfin : ∀ w3, slot w3 i = settled (slot w2 i) → ends (mret (-1)) (λ r w' _, flushed t i fd base D L w o r w') w3 o2).
    { intros w3 E3. apply ends_ret. left. unfold pending. rewrite E3, settled_pending by congruence. cbn [weight] in Hle1. split; [done|]. split; [lia|].
      assert (Hlow : 0 < weight (s_low (slot w i))) by (apply weight_pos; [done|congruence]).
      split; [|lia]. intros Hrd _. destruct (decide (s_high (slot w i) = [])) as [E|E].
      - rewrite (Ho1 E) in Hlt2. rewrite E. cbn. cut (weight (s_low (slot w2 i)) < weight (s_low (slot w i))); [lia|].
        apply Hlt2; [done|congruence].
      - specialize (Hlt1 Hrd E). cbn in Hlt1. lia. }
    apply ends_bind, raise_ends; [congruence|done].
Qed.

(** Whether [epoll_wait] reports the descriptor as writable. *)
Definition reported (fd : Z) (o : O) : bool :=
  match (os_call (SysEpollWait MAX_EVENT) o).1 with inr l => existsb (λ e : Z * bool * bool, (e.1.1 =? fd) && e.2) l | inl _ => false end.

Definition wait_writable (fd : Z) : M (O := O) bool :=
  r ← call (SysEpollWait MAX_EVENT);
  mret (match r with Some l => existsb (λ e : Z * bool * bool, (e.1.1 =? fd) && e.2) l | None => false end).

(** Turns of the poll loop as far as they concern the connection. *)
Fixpoint flush (n fuel : nat) (fd : Z) : M (O := O) Z :=
  match n with
  | 0%nat => mret (-1)
  | S n =>
      b ← wait_writable fd;
      if b : bool then r ← send_buffer heap fuel (HASH_ID ident); if r =? -1 then flush n fuel fd else mret r
      else flush n fuel fd
  end.

Fixpoint waits (j : nat) (o : O) : O :=
  match j with 0%nat => o | S j => waits j (os_call (SysEpollWait MAX_EVENT) o).2 end.

(** The peer keeps reading: writes do not fail, a descriptor reported as writable
    takes at least a byte, and it is reported at least once in [k] turns. *)
Record fair (fd : Z) (k : nat) : Prop := {
  fair_alive : alive fd;
  fair_ready : ∀ o, reported fd o = true → ready fd (os_call (SysEpollWait MAX_EVENT) o).2;
  fair_often : ∀ o, ∃ j, (j < k)%nat ∧ reported fd (waits j o) = true
}.

Lemma wait_ends fd w o (Q : bool → world → O → Prop) :
  (∀ w', same w w' → written fd w' = written fd w → Q (reported fd o) w' (os_call (SysEpollWait MAX_EVENT) o).2) →
  ends (wait_writable fd) Q w o.
Proof.
  intros HQ. apply ends_bind.
  eapply ends_mono; [apply ends_wp|].
  - apply ends_call. intros w' S1 _.
    instantiate (1 := λ r w' o', same w w' ∧ o' = (os_call (SysEpollWait MAX_EVENT) o).2 ∧
      r = match (os_call (SysEpollWait MAX_EVENT) o).1 with inr a => Some a | inl _ => None end). done.
  - apply (wp_call_quiet fd _ (λ _ w', written fd w' = written fd w)); [done|]. auto.
  - intros r w' o' [(S1 & -> & ->) W]. apply ends_ret. unfold reported in HQ. specialize (HQ w' S1 W).
    by destruct (os_call _ o) as [[] ?].
Qed.

Lemma chan_same t i fd base D L w w' : same w w' → written fd w' = written fd w → chan t i fd base D L w → chan t i fd base D L w'.
Proof.
  intros S1 W [H1 H2 H3 H4 H5 H6 H7 H8 H9]. rewrite <- (same_slot w w' i S1) in *. split; try done. by rewrite W.
Qed.

Lemma length_weight l : all_readable l → Z.of_nat (length l) <= weight l.
Proof. induction 1 as [|wb l Hr _ IH]; cbn; [lia|]. destruct (readable_spec heap _ _ Hr) as [? _]. lia. Qed.

(** Everything is written, and a connection that was being closed is closed. *)
Definition all_sent (t : socket_type) (fd : Z) (base : bytes) (M : list bytes) (r : Z) (w : world) : Prop :=
  written fd w = base ++ concat M ∧
  (t = SOCKET_TYPE_CONNECTED → r = -1 ∧ send_buffer_empty (slot w (HASH_ID ident)) = true) ∧
  (t = SOCKET_TYPE_HALFCLOSE → r = SOCKET_CLOSE ∧ s_type (slot w (HASH_ID ident)) = SOCKET_TYPE_INVALID).

(** A turn in which the connection can be written. *)
Lemma turn_ends t fd base D L fuel w o :
  chan t (HASH_ID ident) fd base D L w → t = SOCKET_TYPE_CONNECTED ∨ t = SOCKET_TYPE_HALFCLOSE → alive fd →
  pending (slot w (HASH_ID ident)) < Z.of_nat fuel →
  ends (send_buffer (O := O) heap fuel (HASH_ID ident)) (λ r w' _, flushed t (HASH_ID ident) fd base D L w o r w' ∧
    (r = -1 → ∃ P L', L = P ++ L' ∧ chan t (HASH_ID ident) fd base (D ++ P) L' w')) w o.
Proof.
  intros Hc Ht Ha Hf. pose proof Hc as [H1 H2 H3 H4 H5 H6 H7 H8 H9]. unfold pending in Hf.
  pose proof (weight_nonneg _ H4). pose proof (weight_nonneg _ H5).
  pose proof (length_weight _ H4). pose proof (length_weight _ H5).
  eapply ends_mono; [apply ends_wp; [eapply send_buffer_ends; [done..|lia|lia]|apply send_buffer_output; [done|by destruct Ht as [->| ->]]]|].
  intros r w' o' [Hfl (P & L' & -> & Hr)]. split; [done|]. intros ->. destruct Hr as [[? _]|[_ Hc']]; [done|]. by exists P, L'.
Qed.

(** Once everything is written nothing more happens. *)
Lemma flush_idle fd base D fuel n : ∀ w o,
  chan SOCKET_TYPE_CONNECTED (HASH_ID ident) fd base D [] w → pending (slot w (HASH_ID ident)) = 0 → alive fd → (0 < fuel)%nat →
  ends (flush n fuel fd) (λ r w' _, all_sent SOCKET_TYPE_CONNECTED fd base D r w') w o.
Proof.
  induction n as [|n IH]; intros w o Hc Hp Ha Hf; cbn [flush].
  - apply ends_ret. destruct (pending_zero _ (ch_high _ _ _ _ _ _ _ Hc) (ch_low _ _ _ _ _ _ _ Hc) Hp) as [Eh El].
    split; [|split; [|done]].
    + rewrite <- (ch_sent _ _ _ _ _ _ _ Hc), Eh. unfold stream. cbn. by rewrite app_nil_r.
    + intros _. split; [done|]. unfold send_buffer_empty. by rewrite Eh, El.
  - apply ends_bind, wait_ends. intros w1 S1 W1. assert (Hc1 : chan SOCKET_TYPE_CONNECTED (HASH_ID ident) fd base D [] w1) by (by eapply chan_same).
    rewrite <- (same_slot _ _ _ S1) in Hp. destruct (reported fd o); [|by apply IH].
    apply ends_bind. eapply ends_mono; [eapply turn_ends; [done|by left|done|lia]|].
    intros r w2 o2 [[(-> & Hle & _)|(_ & ? & _)] Hch]; [|done]. destruct (Hch eq_refl) as (P & L' & E & Hc2).
    symmetry in E. apply app_eq_nil in E as [-> ->]. rewrite app_nil_r in Hc2. apply IH; [done| |done|done].
    pose proof (weight_nonneg _ (ch_high _ _ _ _ _ _ _ Hc2)). pose proof (weight_nonneg _ (ch_low _ _ _ _ _ _ _ Hc2)).
    unfold pending in *. lia.
Qed.

Lemma flush_S n fuel fd :
  flush (S n) fuel fd =
  (b ← wait_writable fd;
   if b : bool then r ← send_buffer heap fuel (HASH_ID ident); if r =? -1 then flush n fuel fd else mret r
   else flush n fuel fd).
Proof. done. Qed.

(** The turns until the descriptor is reported. *)
Lemma flush_waits fd fuel n j Q : ∀ w o,
  reported fd (waits j o) = true → (∀ o', reported fd o' = true → ready fd (os_call (SysEpollWait MAX_EVENT) o').2) →
  (∀ m w' o', (n <= m)%nat → same w w' → written fd w' = written fd w → ready fd o' →
     ends (r ← send_buffer heap fuel (HASH_ID ident); if r =? -1 then flush m fuel fd else mret r) Q w' o') →
  ends (flush (S j + n) fuel fd) Q w o.
Proof.
  induction j as [|j IH]; intros w o Hj Hr HQ.
  all: rewrite Nat.add_succ_l, flush_S; apply ends_bind, wait_ends; intros w1 S1 W1.
  - cbn [waits] in Hj. rewrite Hj. apply HQ; [lia|done..|by apply Hr].
  - destruct (reported fd o) eqn:Ho; [apply HQ; [lia|done..|by apply Hr]|]. apply (IH w1); [done..|].
    intros m w' o' Hm S2 W2. apply HQ; [done|by eapply same_trans|congruence].
Qed.

Lemma flush_sends t fd base k fuel W : ∀ D L n w o,
  chan t (HASH_ID ident) fd base D L w → t = SOCKET_TYPE_CONNECTED ∨ t = SOCKET_TYPE_HALFCLOSE → fair fd k →
  pending (slot w (HASH_ID ident)) <= Z.of_nat W → pending (slot w (HASH_ID ident)) < Z.of_nat fuel → (k * S W <= n)%nat →
  ends (flush n fuel fd) (λ r w' _, all_sent t fd base (D ++ L) r w') w o.
Proof.
  induction W as [|W IH]; intros D L n w o Hc Ht Hfair Hp Hf Hn; pose proof Hfair as [Ha Hr Hk].
  all: destruct (Hk o) as (j & Hj & Hrep).
  all: replace n with (S j + (n - S j))%nat by lia; apply flush_waits; [done|done|].
  all: intros m w1 o1 Hm S1 W1 Hrd; pose proof (chan_same _ _ _ _ _ _ _ _ S1 W1 Hc) as Hc1.
  all: rewrite <- (same_slot _ _ _ S1) in Hp, Hf; apply ends_bind; (eapply ends_mono; [by apply (turn_ends t fd base D L)|]).
  all: intros r w2 o2 [[(-> & Hle & Hlt & Hz)|(-> & -> & Et & -> & Hw)] Hch]; [|apply ends_ret; rewrite app_nil_r; done].
  all: destruct (Hch eq_refl) as (P & L' & -> & Hc2); change (-1 =? -1) with true; cbn match; rewrite (assoc_L (++)).
  all: pose proof (weight_nonneg _ (ch_high _ _ _ _ _ _ _ Hc2)); pose proof (weight_nonneg _ (ch_low _ _ _ _ _ _ _ Hc2)).
  all: pose proof (weight_nonneg _ (ch_high _ _ _ _ _ _ _ Hc1)); pose proof (weight_nonneg _ (ch_low _ _ _ _ _ _ _ Hc1)).
  all: destruct (decide (pending (slot w1 (HASH_ID ident)) = 0)) as [E|E]; [|try (apply IH; [done..|specialize (Hlt Hrd E); lia|lia|lia])].
  2: unfold pending in *; lia.
  all: rewrite (Hz E) in *; assert (Hp2 : pending (slot w2 (HASH_ID ident)) = 0) by (unfold pending in *; lia).
  all: destruct (pending_zero _ (ch_high _ _ _ _ _ _ _ Hc2) (ch_low _ _ _ _ _ _ _ Hc2) Hp2) as [_ El].
  all: pose proof (ch_wait _ _ _ _ _ _ _ Hc2) as HL; rewrite El in HL; cbn in HL; subst L'; rewrite app_nil_r.
  all: apply flush_idle; [done|done|done|lia].
Qed.

(** A connection, open or half closed, with data to send. *)
Record sending (t : socket_type) (fd : Z) (w : world) : Prop := {
  sn_open : t = SOCKET_TYPE_CONNECTED ∨ t = SOCKET_TYPE_HALFCLOSE;
  sn_type : s_type (slot w (HASH_ID ident)) = t;
  sn_fd : s_fd (slot w (HASH_ID ident)) = fd;
  sn_protocol : s_protocol (slot w (HASH_ID ident)) = PROTOCOL_TCP;
  sn_id : s_id (slot w (HASH_ID ident)) = ident;
  sn_high : all_readable (s_high (slot w (HASH_ID ident)));
  sn_low : all_readable (s_low (slot w (HASH_ID ident)));
  sn_complete : Forall complete (s_low (slot w (HASH_ID ident)))
}.

End stream.

(** ** An example

    A system that is ready every other turn and then takes two bytes at a time. *)

Definition trickle_answer {T} (c : sys T) (o : bool) : T * bool :=
  match c in sys T return T * bool with
  | SysWrite _ buf => (if o then inr (Z.of_nat (Nat.min 2 (length buf))) else inl EAGAIN, o)
  | SysEpollWait _ => (if o then inr [] else inr [(6, false, true)], negb o)
  | c => (example_answer c, o)
  end.

#[export] Instance trickle_os : OS bool :=
  {| os_call _ c o := trickle_answer c o; strerror _ := []; gai_strerror _ := []; inet_ntop _ := None |}.

#[export] Instance trickle_laws : OSLaws bool.
Proof.
  intros A c o. change (sys_law c (trickle_answer c o).1). destruct c, o; cbn -[Nat.min]; try done.
  all: try (intros l [= <-]; by repeat constructor).
  all: try (intros l [= <-]; split; [done|]; by repeat constructor).
  - intros n E. assert (n = Z.of_nat (2 `min` length buf)) as -> by congruence. lia.
  - intros l [= <-]. apply NoDup_singleton.
Qed.

Lemma trickle_fair : fair (O := bool) 6 2.
Proof.
  split.
  - intros buf [] e; cbn; [done|]. by intros [= <-].
  - intros [] Ho; [done|]. intros buf. eexists. split; [done|]. destruct buf; cbn; [done|lia].
  - intros []; [exists 1%nat|exists 0%nat]; (split; [lia|done]).
Qed.

(** The messages of the example: one of high priority, of which two bytes are
    written, one of low priority, and one more of high priority. *)
Definition example_ops : list chan_op := [OpSend 0 (1, 0) 3; OpSend 1 (1, 1) 2; OpSend 0 (1, 2) 1; OpWritable].

Lemma messages_stay_whole_witness :
  match chan_run (O := bool) example_heap 1 10 example_ops (example_connected, true) with
  | Ret (true, (w', _)) => ∃ D lows L, interleaved (sends example_heap 1 false example_ops) lows D ∧
      sends example_heap 1 true example_ops = lows ++ L ∧
      written 6 w' ++ stream example_heap (s_high (slot w' (HASH_ID 1))) = written 6 example_connected ++ concat D ∧
      payload example_heap <$> s_low (slot w' (HASH_ID 1)) = L
  | Ret (false, (w', _)) => ∃ ops' rest D lows L, example_ops = ops' ++ rest ∧
      interleaved (sends example_heap 1 false ops') lows D ∧ sends example_heap 1 true ops' = lows ++ L ∧
      written 6 w' `prefix_of` written 6 example_connected ++ concat D
  | OutOfFuel => True
  | _ => False
  end.
Proof.
  apply (messages_stay_whole (O := bool) example_heap 1 10 6 example_ops example_connected true).
  - by split; vm_compute.
  - repeat constructor; cbn; try lia; by eexists.
Defined.


(** The three messages of the example are written in the order 1, 3, 2. *)
Example example_order :
  written 6 (match chan_run (O := bool) example_heap 1 10 (example_ops ++ [OpWritable; OpWritable; OpWritable]) (example_connected, true) with
             | Ret (_, (w, _)) => w | _ => example_connected end) = [1; 2; 3; 3; 2; 3].
Proof. by vm_compute. Qed.
