(* ===== verification/SocketFlaws.v ===== *)
(** * Where the socket server goes wrong

    Three situations the safety theorem excludes by its assumptions: an id that
    is reserved while a request for its predecessor is under way, user objects
    with low priority, and data sent to a bound descriptor. *)

From stdpp Require Import prelude list gmap list_numbers strings.
From S2P Require Import Prelude CString SocketServer SocketInv SocketSafe SocketStream.

(** Running the commands. *)
Ltac estep :=
  lazymatch goal with
  | |- ends (_ ≫= _) _ _ _ => apply ends_bind
  | |- ends (mret _) _ _ _ => apply ends_ret
  | |- ends get _ _ _ => apply ends_get
  | |- ends (get_slot _) _ _ _ => apply ends_bind, ends_get, ends_ret
  | |- ends get_ss _ _ _ => apply ends_bind, ends_get, ends_ret
  | |- ends (upd_slot _ _) _ _ _ => apply ends_modify
  | |- ends (of_option _) _ _ _ => eapply ends_of_option; [done|]
  end.

Section flaws.
Context {O : Type} `{OS O} (heap : Z → bytes).

(** The compare-and-swap of [reserve_id], which other threads see before the new
    id is stored. *)
Definition reserve_claim (i : Z) : M (O := O) unit := set_type i SOCKET_TYPE_RESERVE.

Lemma force_close_reserved i w (o : O) : s_type (slot w i) = SOCKET_TYPE_RESERVE → force_close i (w, o) = Stuck.
Proof. intros Ht. unfold force_close, get_slot, get, mbind, M_bind, mret, M_ret. cbn [fst snd]. by rewrite Ht. Qed.

(** C34. A thread that reserves the slot of a closed socket claims it before it
    stores the new id.  A second close of the old id that is handled in between
    passes the test of the id and fails the assertion of [force_close]. *)
Theorem reserve_race_aborts w o fuel id shutdown opaque :
  s_type (slot w (HASH_ID id)) = SOCKET_TYPE_INVALID → s_id (slot w (HASH_ID id)) = id →
  send_buffer_empty (slot w (HASH_ID id)) = true →
  (reserve_claim (HASH_ID id);; close_socket heap fuel id shutdown opaque) (w, o) = Stuck.
Proof.
  intros Ht Hid He. unfold reserve_claim, set_type, upd_slot, modify, mbind, M_bind. cbn [fst snd].
  set (w1 := set_slot (HASH_ID id) _ w).
  assert (Es : slot w1 (HASH_ID id) = (slot w (HASH_ID id)) <| s_type := SOCKET_TYPE_RESERVE |>) by apply slot_set_eq.
  assert (T1 : s_type (slot w1 (HASH_ID id)) = SOCKET_TYPE_RESERVE) by (by rewrite Es).
  assert (I1 : s_id (slot w1 (HASH_ID id)) = id) by (by rewrite Es).
  assert (E1 : send_buffer_empty (slot w1 (HASH_ID id)) = true) by (by rewrite Es). clearbody w1.
  unfold close_socket, get_slot, get, mbind, M_bind, mret, M_ret. cbn [fst snd].
  rewrite T1, I1, Z.eqb_refl, E1. change (SOCKET_TYPE_RESERVE =t? SOCKET_TYPE_INVALID) with false. cbn [negb orb].
  change (-1 =? -1) with true. cbn [negb fst].
  rewrite E1, orb_true_r, (force_close_reserved _ _ _ T1). done.
Qed.

(** A user object sent with low priority behind other data makes the next
    write abort: the buffer of the object differs from the object itself, which
    [list_uncomplete] takes for a message that was begun, and [send_buffer]
    asserts that the low list has none. *)
Theorem low_userobject_aborts w o fuel r soi :
  let i := HASH_ID (rs_id r) in
  s_type (slot w i) = SOCKET_TYPE_CONNECTED → s_protocol (slot w i) = PROTOCOL_TCP → s_id (slot w i) = rs_id r →
  s_high (slot w i) ≠ [] → s_low (slot w i) = [] →
  ss_soi (w_ss w) = Some soi → rs_sz r < 0 → soi_buffer soi (rs_buffer r) ≠ rs_buffer r →
  (send_socket heap r PRIORITY_LOW None;; send_buffer heap fuel i) (w, o) = Stuck.
Proof.
  intros i Ht Hp Hid Hh Hl Hsoi Hsz Hne. set (b := soi_buffer soi (rs_buffer r)) in *.
  set (wb := {| wb_userobject := true; wb_ptr := ptr_add b 0; wb_sz := soi_size soi (rs_buffer r) - 0; wb_buffer := rs_buffer r; wb_udp_address := [] |}).
  assert (E : ends (send_socket heap r PRIORITY_LOW None) (λ _ w' _, s_low (slot w' i) = [wb]) w o).
  { unfold send_socket. fold i. do 3 estep. unfold send_object_init. rewrite Ht, Hp, Hid, Z.eqb_refl, (proj2 (Z.ltb_lt _ _) Hsz).
    do 5 estep. unfold send_buffer_empty. destruct (s_high (slot w i)); [done|]. cbn.
    unfold append_sendbuffer_low, append_sendbuffer_, send_object_init. rewrite (proj2 (Z.ltb_lt _ _) Hsz).
    repeat estep. rewrite set_slot_set, slot_set_eq. cbn. by rewrite Hl. }
  destruct E as (z & w' & o' & E & El). unfold mbind, M_bind at 1. rewrite E. unfold send_buffer, get_slot, get, mbind, M_bind, mret, M_ret.
  cbn [fst snd]. rewrite El. unfold assert. destruct (list_uncomplete [wb]) eqn:Eu; [done|]. cbn in Eu. bool_prop.
  destruct Hne. rewrite (surjective_pairing b), (surjective_pairing (rs_buffer r)). f_equal; lia.
Qed.

(** What is sent to a bound descriptor stays: the buffer is appended, but
    epoll is not asked to report when the descriptor can be written, and nothing is
    written. *)
Theorem bound_data_stays w o r prio :
  let i := HASH_ID (rs_id r) in
  s_type (slot w i) = SOCKET_TYPE_BIND → s_id (slot w i) = rs_id r → 0 <= rs_sz r →
  ∃ w', send_socket heap r prio None (w, o) = Ret (-1, (w', o)) ∧ send_buffer_empty (slot w' i) = false ∧
    w_poll w' = w_poll w ∧ w_trace w' = w_trace w.
Proof.
  intros i Ht Hid Hsz.
  assert (Hall : ∀ l (a : bytes) (w1 : world), ends (append_sendbuffer_ i l r a 0) (λ _ w2 o2,
    o2 = o ∧ send_buffer_empty (slot w2 i) = false ∧ w_poll w2 = w_poll w1 ∧ w_trace w2 = w_trace w1) w1 o).
  { intros l a w1. unfold append_sendbuffer_, send_object_init. rewrite (proj2 (Z.ltb_ge _ _) Hsz). repeat estep.
    rewrite slot_set_eq. split; [done|]. split; [|done]. unfold send_buffer_empty.
    destruct l; cbn; [by destruct (s_high (slot w1 i))|]. apply andb_false_intro2. by destruct (s_low (slot w1 i)). }
  assert (E : ends (send_socket heap r prio None) (λ z w2 o2, z = -1 ∧ o2 = o ∧
    send_buffer_empty (slot w2 i) = false ∧ w_poll w2 = w_poll w ∧ w_trace w2 = w_trace w) w o).
  { unfold send_socket. fold i. do 3 estep. unfold send_object_init. rewrite Ht, Hid, Z.eqb_refl, (proj2 (Z.ltb_ge _ _) Hsz).
    estep. do 2 match goal with |- context [if ?b then free_func _ _;; _ else _] => change b with false; cbn match end.
    change (SOCKET_TYPE_BIND =t? SOCKET_TYPE_CONNECTED) with false. rewrite andb_false_r. estep.
    unfold append_sendbuffer_low, append_sendbuffer, append_sendbuffer_udp.
    case_if; [case_if|]; estep; (eapply ends_mono; [apply Hall|]); intros wb w2 o2 (-> & He & Hrest); repeat estep;
      rewrite slot_set_eq; done. }
  destruct E as (z & w2 & o2 & E & -> & -> & He & Hrest). by exists w2.
Qed.
End flaws.

(** ** Examples *)

(** The connection of the example, closed by the service. *)
Definition closed_world : world := after (close_socket (O := unit) example_heap 5 1 1 7) example_connected.

Lemma reserve_race_aborts_witness :
  (reserve_claim (O := unit) 1;; close_socket example_heap 5 1 0 7) (closed_world, tt) = Stuck.
Proof. by apply (reserve_race_aborts (O := unit) example_heap closed_world tt 5 1 0 7); vm_compute. Defined.

(** User objects that are a header of one byte before the data. *)
Definition example_soi : socket_object_interface := {| soi_buffer := λ p, ptr_add p 1; soi_size := λ _, 2 |}.

Definition object_world : world := after (socket_server_userobject example_soi) example_waiting.

Lemma low_userobject_aborts_witness :
  (send_socket (O := unit) example_heap {| rs_id := 1; rs_sz := -1; rs_buffer := (1, 0) |} PRIORITY_LOW None;;
   send_buffer example_heap 5 1) (object_world, tt) = Stuck.
Proof.
  by apply (low_userobject_aborts (O := unit) example_heap object_world tt 5 {| rs_id := 1; rs_sz := -1; rs_buffer := (1, 0) |} example_soi); vm_compute.
Defined.

(** A descriptor bound with id 1. *)
Definition bound_world : world := after (bind_socket (O := unit) 1 9 7) example_reserved.

Lemma bound_data_stays_witness :
  ∃ w', send_socket (O := unit) example_heap {| rs_id := 1; rs_sz := 3; rs_buffer := (1, 0) |} PRIORITY_HIGH None (bound_world, tt) = Ret (-1, (w', tt)) ∧
    send_buffer_empty (slot w' 1) = false ∧ w_poll w' = w_poll bound_world ∧ w_trace w' = w_trace bound_world.
Proof.
  by apply (bound_data_stays (O := unit) example_heap bound_world tt {| rs_id := 1; rs_sz := 3; rs_buffer := (1, 0) |} PRIORITY_HIGH); vm_compute.
Defined.
