(* ===== verification/Harbor.v ===== *)
(** * The harbor service (service-src/service_harbor.c)

    The service that links a node to the other nodes of its network.  It keeps
    one [slave] per remote harbor, queues the messages for harbors that are not
    connected and for global names that are not known, sends messages as
    length-prefixed packages that end in a 12-byte cookie, and cuts the byte
    stream of every link back into messages.

    The state of the service is the record [harbor]; every function is a
    program in a state monad with faults.  The calls on the node are appended
    to the trace [h_ctx].  What [skynet_send] returns is a parameter.  Message
    buffers are blocks with an address: [h_live] is the set of the blocks the
    service is responsible for, and freeing or reading a block that is not in
    it is a fault. *)

From stdpp Require Import prelude list gmap list_numbers strings infinite.
From S2P Require Import Prelude Skynet Handle CString.

(** ** Data *)

Definition HASH_SIZE : Z := 4096.
Definition HARBOR_QUEUE_SIZE : Z := 1024.
Definition HEADER_COOKIE_LENGTH : Z := 12.

Record remote_message_header := mkHeader {
  rh_source : Z;
  rh_destination : Z;
  rh_session : Z
}.

#[export] Instance eta_remote_message_header : Eta remote_message_header :=
  λ m, mkHeader (rh_source m) (rh_destination m) (rh_session m).

(** A block of memory: where it is and what it holds.  The service never
    writes to a message it was given. *)
Record block := mkBlock { b_addr : positive; b_data : bytes }.

(** A null [buffer] is [None]. *)
Record harbor_msg := mkHarborMsg {
  hm_header : remote_message_header;
  hm_buffer : option block;
  hm_size : Z
}.

#[export] Instance eta_harbor_msg : Eta harbor_msg :=
  λ m, mkHarborMsg (hm_header m) (hm_buffer m) (hm_size m).

(** A cell of [data] that was never written is [None]. *)
Record harbor_msg_queue := mkHarborQueue {
  q_size : Z;
  q_head : Z;
  q_tail : Z;
  q_data : list (option harbor_msg)
}.

#[export] Instance eta_harbor_msg_queue : Eta harbor_msg_queue :=
  λ q, mkHarborQueue (q_size q) (q_head q) (q_tail q) (q_data q).

(** The [next] pointers of a chain are the order of a list. *)
Record keyvalue := mkKeyvalue {
  kv_key : bytes;
  kv_hash : Z;
  kv_value : Z;
  kv_queue : option harbor_msg_queue
}.

#[export] Instance eta_keyvalue : Eta keyvalue :=
  λ n, mkKeyvalue (kv_key n) (kv_hash n) (kv_value n) (kv_queue n).

Definition hashmap : Type := list (list keyvalue).

Inductive link_status := STATUS_WAIT | STATUS_HANDSHAKE | STATUS_HEADER | STATUS_CONTENT | STATUS_DOWN.

#[export] Instance link_status_eq_dec : EqDecision link_status.
Proof. solve_decision. Defined.

(** The receive buffer is a block whose bytes are unspecified ([None]) until
    they are written. *)
Record slave := mkSlave {
  s_fd : Z;
  s_queue : option harbor_msg_queue;
  s_status : link_status;
  s_length : Z;
  s_read : Z;
  s_size : bytes;
  s_recv_buffer : option (positive * list (option Z))
}.

#[export] Instance eta_slave : Eta slave :=
  λ s, mkSlave (s_fd s) (s_queue s) (s_status s) (s_length s) (s_read s) (s_size s) (s_recv_buffer s).

(** The calls on the node. *)
Inductive harbor_call :=
  | Csend (source destination type session : Z) (data : bytes)
  | Csocket_send (fd : Z) (data : bytes) (sz : Z)
  | Csocket_close (fd : Z)
  | Csocket_start (fd : Z)
  | Ccallback
  | Charbor_start
  | Cerror (text : bytes).

Record harbor := mkHarbor {
  h_ctx : list harbor_call;
  h_id : Z;
  h_slave : Z;
  h_map : hashmap;
  h_s : list slave;
  h_live : gset positive
}.

#[export] Instance eta_harbor : Eta harbor :=
  λ h, mkHarbor (h_ctx h) (h_id h) (h_slave h) (h_map h) (h_s h) (h_live h).

(** ** Programs *)

(** What can go wrong: an access outside of a block, a block that is not live
    (freed twice or used after it was freed), a package too short to hold a
    cookie, a failed [assert]; and a loop cut off by the fuel of its model. *)
Inductive fault := BadAccess | NotLive | ShortPackage | AssertFailed | NoFuel.

Inductive result (A : Type) := Ok (a : A) | Bad (f : fault).
Arguments Ok {_} _.
Arguments Bad {_} _.

Definition prog (A : Type) : Type := harbor → result (A * harbor).

#[export] Instance prog_ret : MRet prog := λ A a h, Ok (a, h).
#[export] Instance prog_bind : MBind prog := λ A B f m h,
  match m h with Ok (a, h) => f a h | Bad e => Bad e end.

Definition bad {A} (e : fault) : prog A := λ _, Bad e.
Definition get {A} (f : harbor → A) : prog A := λ h, Ok (f h, h).
Definition modify (f : harbor → harbor) : prog unit := λ h, Ok (tt, f h).
Definition need {A} (o : option A) : prog A := match o with Some a => mret a | None => bad BadAccess end.
Definition call (c : harbor_call) : prog unit := modify (λ h, h <| h_ctx := h_ctx h ++ [c] |>).
Definition skynet_error (text : bytes) : prog unit := call (Cerror text).

Definition get_slave (i : Z) : prog slave := s ← get h_s; need (zget s i).
Definition set_slave (i : Z) (x : slave) : prog unit :=
  s ← get h_s; s ← need (zset s i x); modify (λ h, h <| h_s := s |>).
Definition upd_slave (i : Z) (f : slave → slave) : prog unit := s ← get_slave i; set_slave i (f s).

(** ** Memory *)

(** [skynet_free]; a null pointer is ignored. *)
Definition skynet_free (b : option block) : prog unit :=
  match b with
  | None => mret tt
  | Some b =>
      live ← get h_live;
      if bool_decide (b_addr b ∈ live) then modify (λ h, h <| h_live := h_live h ∖ {[b_addr b]} |>)
      else bad NotLive
  end.

(** The first [sz] bytes of a buffer. *)
Definition read_buffer (b : option block) (sz : Z) : prog bytes :=
  match b with
  | None => if sz =? 0 then mret [] else bad BadAccess
  | Some b =>
      live ← get h_live;
      if bool_decide (b_addr b ∈ live) then need (copy_out (b_data b) 0 sz) else bad NotLive
  end.

(** A new block of [size] bytes. *)
Definition skynet_malloc (size : Z) : prog (positive * list (option Z)) :=
  p ← get (λ h, fresh (h_live h));
  modify (λ h, h <| h_live := {[p]} ∪ h_live h |>);;
  mret (p, replicate (Z.to_nat size) None).

(** [memcpy] into a block whose bytes may be unspecified. *)
Definition memcpy_cells (cells : list (option Z)) (offset : Z) (src : bytes) (n : Z) : option (list (option Z)) :=
  if (0 <=? offset) && (0 <=? n) && (offset + n <=? Z.of_nat (length cells)) && (n <=? Z.of_nat (length src))
  then Some (take (Z.to_nat offset) cells ++ (Some <$> take (Z.to_nat n) src) ++ drop (Z.to_nat (offset + n)) cells)
  else None.

(** ** Message queues *)

Definition push_queue_msg (queue : harbor_msg_queue) (m : harbor_msg) : option harbor_msg_queue :=
  queue ←
    (if Z.rem (q_tail queue + 1) (q_size queue) =? q_head queue then
       new_buffer ← mapM (λ i, zget (q_data queue) (Z.rem (i + q_head queue) (q_size queue)))
                         (seqZ 0 (q_size queue - 1));
       Some (queue <| q_data := new_buffer ++ replicate (Z.to_nat (q_size queue + 1)) None |>
                   <| q_head := 0 |> <| q_tail := q_size queue - 1 |>
                   <| q_size := i32 (q_size queue * 2) |>)
     else Some queue);
  data ← zset (q_data queue) (q_tail queue) (Some m);
  Some (queue <| q_data := data |> <| q_tail := Z.rem (q_tail queue + 1) (q_size queue) |>).

Definition push_queue (queue : harbor_msg_queue) (buffer : option block) (sz : Z)
    (header : remote_message_header) : option harbor_msg_queue :=
  push_queue_msg queue (mkHarborMsg header buffer sz).

(** The message, [None] for an empty queue. *)
Definition pop_queue (queue : harbor_msg_queue) : option (option harbor_msg * harbor_msg_queue) :=
  if q_head queue =? q_tail queue then Some (None, queue)
  else
    slot ← zget (q_data queue) (q_head queue);
    m ← slot;
    Some (Some m, queue <| q_head := Z.rem (q_head queue + 1) (q_size queue) |>).

Definition new_queue : harbor_msg_queue :=
  mkHarborQueue HARBOR_QUEUE_SIZE 0 0 (replicate (Z.to_nat HARBOR_QUEUE_SIZE) None).

(** [while ((m = pop_queue(queue)) != NULL) body]: a queue holds fewer messages
    than it has cells. *)
Fixpoint pop_loop (fuel : nat) (queue : harbor_msg_queue) (body : harbor_msg → prog unit) : prog harbor_msg_queue :=
  match fuel with
  | O => bad NoFuel
  | S fuel =>
      '(m, queue) ← need (pop_queue queue);
      match m with
      | Some m => body m;; pop_loop fuel queue body
      | None => mret queue
      end
  end.

Definition pop_all (queue : harbor_msg_queue) (body : harbor_msg → prog unit) : prog harbor_msg_queue :=
  pop_loop (Z.to_nat (q_size queue)) queue body.

Definition release_queue (queue : option harbor_msg_queue) : prog unit :=
  match queue with
  | None => mret tt
  | Some queue => pop_all queue (λ m, skynet_free (hm_buffer m));; mret tt
  end.

(** ** The table of global names *)

(** [((uint32_t * )name)[k]] on a little-endian machine. *)
Definition name_word (name : bytes) (k : Z) : option Z :=
  b0 ← zget name (4 * k); b1 ← zget name (4 * k + 1); b2 ← zget name (4 * k + 2); b3 ← zget name (4 * k + 3);
  Some (b0 + Z.shiftl b1 8 + Z.shiftl b2 16 + Z.shiftl b3 24).

Definition name_hash (name : bytes) : option Z :=
  w0 ← name_word name 0; w1 ← name_word name 1; w2 ← name_word name 2; w3 ← name_word name 3;
  Some (Z.lxor (Z.lxor (Z.lxor w0 w1) w2) w3).

(** [strncmp (a, b, n)]; [None] when it would read behind an array. *)
Fixpoint strncmp (a b : bytes) (n : nat) : option Z :=
  match n with
  | O => Some 0
  | S n =>
      match a, b with
      | x :: a, y :: b =>
          if x =? y then if x =? 0 then Some 0 else strncmp a b n
          else Some (if x <? y then -1 else 1)
      | _, _ => None
      end
  end.

(** The position of the node in its chain. *)
Fixpoint search_loop (node : list keyvalue) (h : Z) (name : bytes) : option (option nat) :=
  match node with
  | [] => Some None
  | n :: next =>
      same ← (if kv_hash n =? h then c ← strncmp (kv_key n) name (Z.to_nat GLOBALNAME_LENGTH); Some (c =? 0)
              else Some false);
      if same : bool then Some (Some 0%nat)
      else r ← search_loop next h name; Some (option_map S r)
  end.

(** A node is its chain and its position in it. *)
Definition hash_search (hash : hashmap) (name : bytes) : option (option (Z * nat)) :=
  h ← name_hash name;
  node ← zget hash (h mod HASH_SIZE);
  r ← search_loop node h name;
  Some (option_map (pair (h mod HASH_SIZE)) r).

Definition hash_insert (hash : hashmap) (name : bytes) : option ((Z * nat) * hashmap) :=
  h ← name_hash name;
  node ← zget hash (h mod HASH_SIZE);
  hash ← zset hash (h mod HASH_SIZE) (mkKeyvalue name h 0 None :: node);
  Some ((h mod HASH_SIZE, 0%nat), hash).

Definition hash_new : hashmap := replicate (Z.to_nat HASH_SIZE) [].

Fixpoint release_chain (node : list keyvalue) : prog unit :=
  match node with
  | [] => mret tt
  | n :: next => release_queue (kv_queue n);; release_chain next
  end.

Fixpoint hash_delete (hash : hashmap) : prog unit :=
  match hash with
  | [] => mret tt
  | node :: hash => release_chain node;; hash_delete hash
  end.

Definition get_node (p : Z * nat) : prog keyvalue :=
  m ← get h_map; node ← need (zget m p.1); need (node !! p.2).

Definition upd_node (p : Z * nat) (f : keyvalue → keyvalue) : prog unit :=
  m ← get h_map;
  node ← need (zget m p.1);
  n ← need (node !! p.2);
  m ← need (zset m p.1 (<[p.2 := f n]> node));
  modify (λ h, h <| h_map := m |>).

(** [node = hash_search(...); if (node == NULL) node = hash_insert(...);] *)
Definition search_or_insert (name : bytes) : prog (Z * nat) :=
  m ← get h_map;
  r ← need (hash_search m name);
  match r with
  | Some p => mret p
  | None => '(p, m) ← need (hash_insert m name); modify (λ h, h <| h_map := m |>);; mret p
  end.

(** ** The service *)

Definition close_harbor (id : Z) : prog unit :=
  upd_slave id (λ s, s <| s_status := STATUS_DOWN |>);;
  s ← get_slave id;
  (if c_true (s_fd s) then call (Csocket_close (s_fd s)) else mret tt);;
  match s_queue s with
  | Some queue => release_queue (Some queue);; upd_slave id (λ s, s <| s_queue := None |>)
  | None => mret tt
  end.

Definition slave_new : slave := mkSlave 0 None STATUS_WAIT 0 0 (replicate 4 0) None.

Definition harbor_create : harbor :=
  mkHarbor [] 0 0 hash_new (replicate (Z.to_nat REMOTE_MAX) slave_new) ∅.

Fixpoint close_all (ids : list Z) : prog unit :=
  match ids with
  | [] => mret tt
  | i :: ids =>
      s ← get_slave i;
      (if c_true (s_fd s) && negb (bool_decide (s_status s = STATUS_DOWN)) then close_harbor i else mret tt);;
      close_all ids
  end.

Definition harbor_release : prog unit :=
  close_all (seqZ 1 (REMOTE_MAX - 1));; m ← get h_map; hash_delete m.

(** ** Packages *)

Definition to_bigendian (n : Z) : bytes :=
  [Z.land (Z.shiftr n 24) 0xff; Z.land (Z.shiftr n 16) 0xff; Z.land (Z.shiftr n 8) 0xff; Z.land n 0xff].

Definition header_to_message (header : remote_message_header) : bytes :=
  to_bigendian (rh_source header) ++ to_bigendian (rh_destination header) ++ to_bigendian (rh_session header).

(** The argument is the memory of the [uint32_t]. *)
Definition from_bigendian (u : bytes) : option Z :=
  b0 ← zget u 0; b1 ← zget u 1; b2 ← zget u 2; b3 ← zget u 3;
  Some (u32 (Z.lor (Z.lor (Z.lor (Z.shiftl b0 24) (Z.shiftl b1 16)) (Z.shiftl b2 8)) b3)).

Definition message_to_header (message : bytes) : option remote_message_header :=
  source ← from_bigendian message;
  destination ← from_bigendian (drop 4 message);
  session ← from_bigendian (drop 8 message);
  Some (mkHeader source destination session).

Section service.
(** What [skynet_send] returns, given the calls up to it. *)
Context (send_returns : list harbor_call → Z).

(** [skynet_send] of bytes it copies. *)
Definition skynet_send (source destination type session : Z) (msg : bytes) : prog Z :=
  call (Csend source destination type session msg);; get (λ h, send_returns (h_ctx h)).

(** [skynet_send] with [PTYPE_TAG_DONTCOPY]: the buffer is the node's afterwards. *)
Definition skynet_send_dontcopy (source destination type session : Z) (msg : option block) (sz : Z) : prog Z :=
  data ← read_buffer msg sz;
  skynet_free msg;;
  skynet_send source destination (Z.lor type PTYPE_TAG_DONTCOPY) session data.

Definition report_harbor_down (id : Z) : prog unit :=
  slave ← get h_slave;
  skynet_send 0 slave PTYPE_TEXT 0 (str "D " ++ print_d id);; mret tt.

Definition forward_local_message (msg : positive * list (option Z)) (sz : Z) : prog unit :=
  if sz <? HEADER_COOKIE_LENGTH then bad ShortPackage
  else
    data ← need (mapM id msg.2);
    cookie ← need (copy_out data (sz - HEADER_COOKIE_LENGTH) HEADER_COOKIE_LENGTH);
    header ← need (message_to_header cookie);
    hid ← get h_id;
    let destination := rh_destination header in
    let type := Z.shiftr destination HANDLE_REMOTE_SHIFT in
    let destination := u32 (Z.lor (Z.land destination HANDLE_MASK) (Z.shiftl (u32 hid) HANDLE_REMOTE_SHIFT)) in
    r ← skynet_send_dontcopy (rh_source header) destination type (i32 (rh_session header))
          (Some (mkBlock msg.1 data)) (sz - HEADER_COOKIE_LENGTH);
    if r <? 0 then
      (if negb (type =? PTYPE_ERROR)
       then skynet_send destination (rh_source header) PTYPE_ERROR (i32 (rh_session header)) [];; mret tt
       else mret tt);;
      skynet_error (str "Unknown destination :" ++ print_x destination ++ str " from :"
                    ++ print_x (rh_source header) ++ str " type(" ++ print_d type ++ str ")")
    else mret tt.

Definition send_remote (fd : Z) (buffer : option block) (sz : Z) (cookie : remote_message_header) : prog unit :=
  let sz_header := u64 (sz + HEADER_COOKIE_LENGTH) in
  if 2 ^ 32 - 1 <? sz_header then
    skynet_error (str "remote message from :" ++ print_08x (rh_source cookie) ++ str " to :"
                  ++ print_08x (rh_destination cookie) ++ str " is too large.")
  else
    data ← read_buffer buffer sz;
    call (Csocket_send fd (to_bigendian sz_header ++ data ++ header_to_message cookie) (i32 (sz_header + 4))).

(** The drop message of [dispatch_name_queue]. *)
Definition key_text (key : bytes) : prog bytes := need (until_nul (take 16 key ++ [0])).

Definition dispatch_name_queue (node : Z * nat) : prog unit :=
  n ← get_node node;
  queue ← need (kv_queue n);
  let handle := kv_value n in
  let harbor_id := Z.shiftr handle HANDLE_REMOTE_SHIFT in
  s ← get_slave harbor_id;
  if s_fd s =? 0 then
    if bool_decide (s_status s = STATUS_DOWN) then
      tmp ← key_text (kv_key n);
      skynet_error (str "Drop message to " ++ tmp ++ str " (in harbor " ++ print_d harbor_id ++ str ")")
    else
      match s_queue s with
      | None =>
          upd_slave harbor_id (λ s, s <| s_queue := kv_queue n |>);;
          upd_node node (λ n, n <| kv_queue := None |>)
      | Some _ =>
          queue ← pop_all queue (λ m,
            s ← get_slave harbor_id;
            q ← need (s_queue s);
            q ← need (push_queue_msg q m);
            upd_slave harbor_id (λ s, s <| s_queue := Some q |>));
          upd_node node (λ n, n <| kv_queue := Some queue |>)
      end;;
      slave ← get h_slave;
      if harbor_id =? Z.shiftr slave HANDLE_REMOTE_SHIFT then
        s ← get_slave harbor_id;
        q ← need (s_queue s);
        q ← pop_all q (λ m,
          let type := Z.shiftr (rh_destination (hm_header m)) HANDLE_REMOTE_SHIFT in
          skynet_send_dontcopy (rh_source (hm_header m)) handle type (i32 (rh_session (hm_header m)))
            (hm_buffer m) (hm_size m);; mret tt);
        release_queue (Some q);;
        upd_slave harbor_id (λ s, s <| s_queue := None |>)
      else mret tt
  else
    queue ← pop_all queue (λ m,
      let header := (hm_header m) <| rh_destination :=
        Z.lor (rh_destination (hm_header m)) (Z.land handle HANDLE_MASK) |> in
      send_remote (s_fd s) (hm_buffer m) (hm_size m) header;;
      skynet_free (hm_buffer m));
    upd_node node (λ n, n <| kv_queue := Some queue |>).

Definition dispatch_queue (id : Z) : prog unit :=
  s ← get_slave id;
  if s_fd s =? 0 then bad AssertFailed
  else
    match s_queue s with
    | None => mret tt
    | Some queue =>
        queue ← pop_all queue (λ m,
          send_remote (s_fd s) (hm_buffer m) (hm_size m) (hm_header m);;
          skynet_free (hm_buffer m));
        release_queue (Some queue);;
        upd_slave id (λ s, s <| s_queue := None |>)
    end.

(** *** Incoming data *)

(** [for (i=1;i<REMOTE_MAX;i++) if (h->s[i].fd == fd)], as [harbor_id]. *)
Fixpoint find_fd (s : list slave) (fd : Z) (ids : list Z) : option Z :=
  match ids with
  | [] => Some 0
  | i :: ids => x ← zget s i; if s_fd x =? fd then Some i else find_fd s fd ids
  end.

Definition harbor_id (fd : Z) : prog Z :=
  s ← get h_s; need (find_fd s fd (seqZ 1 (REMOTE_MAX - 1))).

(** How a [case] of the loop ends: with [return], or with [break] and the
    bytes that are left. *)
Inductive flow := Return | Break (buffer : bytes).

Definition case_content (id : Z) (buffer : bytes) : prog flow :=
  s ← get_slave id;
  let size := Z.of_nat (length buffer) in
  let n := s_length s - s_read s in
  '(p, cells) ← need (s_recv_buffer s);
  if size <? n then
    cells ← need (memcpy_cells cells (s_read s) buffer size);
    upd_slave id (λ s, s <| s_recv_buffer := Some (p, cells) |> <| s_read := s_read s + size |>);;
    mret Return
  else
    cells ← need (memcpy_cells cells (s_read s) buffer n);
    forward_local_message (p, cells) (s_length s);;
    upd_slave id (λ s, s <| s_length := 0 |> <| s_read := 0 |> <| s_recv_buffer := None |>
                         <| s_status := STATUS_HEADER |>);;
    let buffer := drop (Z.to_nat n) buffer in
    if size - n =? 0 then mret Return else mret (Break buffer).

Definition case_header (id : Z) (buffer : bytes) : prog flow :=
  s ← get_slave id;
  let size := Z.of_nat (length buffer) in
  let n := 4 - s_read s in
  if size <? n then
    sz ← need (memcpy_to (s_size s) (s_read s) buffer size);
    upd_slave id (λ s, s <| s_size := sz |> <| s_read := s_read s + size |>);;
    mret Return
  else
    sz ← need (memcpy_to (s_size s) (s_read s) buffer n);
    upd_slave id (λ s, s <| s_size := sz |>);;
    let buffer := drop (Z.to_nat n) buffer in
    b0 ← need (zget sz 0); b1 ← need (zget sz 1); b2 ← need (zget sz 2); b3 ← need (zget sz 3);
    if negb (b0 =? 0) then
      skynet_error (str "Message is too long from harbor " ++ print_d id);;
      close_harbor id;;
      mret Return
    else
      let len := Z.lor (Z.lor (Z.shiftl b1 16) (Z.shiftl b2 8)) b3 in
      blk ← skynet_malloc len;
      upd_slave id (λ s, s <| s_length := len |> <| s_read := 0 |> <| s_recv_buffer := Some blk |>
                           <| s_status := STATUS_CONTENT |>);;
      if size - n =? 0 then mret Return else case_content id buffer.

Definition case_handshake (id fd : Z) (buffer : bytes) : prog flow :=
  remote_id ← need (zget buffer 0);
  if negb (remote_id =? id) then
    skynet_error (str "Invalid shakehand id (" ++ print_d id ++ str ") from fd = " ++ print_d fd
                  ++ str " , harbor = " ++ print_d remote_id);;
    close_harbor id;;
    mret Return
  else
    upd_slave id (λ s, s <| s_status := STATUS_HEADER |>);;
    dispatch_queue id;;
    let buffer := drop 1 buffer in
    match buffer with
    | [] => mret (Break [])
    | _ => case_header id buffer
    end.

(** Every pass through the loop but the last takes a byte. *)
Fixpoint push_loop (fuel : nat) (id fd : Z) (buffer : bytes) : prog unit :=
  match fuel with
  | O => bad NoFuel
  | S fuel =>
      s ← get_slave id;
      r ← match s_status s with
          | STATUS_HANDSHAKE => case_handshake id fd buffer
          | STATUS_HEADER => case_header id buffer
          | STATUS_CONTENT => case_content id buffer
          | _ => mret Return
          end;
      match r with Return => mret tt | Break buffer => push_loop fuel id fd buffer end
  end.

(** [struct skynet_socket_message]; [buffer] is [None] when it is null. *)
Record socket_message := mkSocketMessage {
  sm_type : Z;
  sm_id : Z;
  sm_ud : Z;
  sm_buffer : option block
}.

Definition push_socket_data (message : socket_message) : prog unit :=
  if negb (sm_type message =? SKYNET_SOCKET_TYPE_DATA) then bad AssertFailed
  else
    let fd := sm_id message in
    id ← harbor_id fd;
    if id =? 0 then
      skynet_free (sm_buffer message);;
      skynet_error (str "Invalid socket fd (" ++ print_d fd ++ str ") data")
    else
      buffer ← read_buffer (sm_buffer message) (sm_ud message);
      push_loop (2 + length buffer) id fd buffer.

(** *** Outgoing messages and commands *)

Definition update_name (name : bytes) (handle : Z) : prog unit :=
  node ← search_or_insert name;
  upd_node node (λ n, n <| kv_value := handle |>);;
  n ← get_node node;
  match kv_queue n with
  | Some _ =>
      dispatch_name_queue node;;
      n ← get_node node;
      release_queue (kv_queue n);;
      upd_node node (λ n, n <| kv_queue := None |>)
  | None => mret tt
  end.

(** Returns whether the message was taken over. *)
Definition remote_send_handle (source destination type session : Z) (msg : option block) (sz : Z) : prog bool :=
  let harbor_id := Z.shiftr destination HANDLE_REMOTE_SHIFT in
  hid ← get h_id;
  if harbor_id =? hid then
    skynet_send_dontcopy source destination type session msg sz;; mret true
  else
    s ← get_slave harbor_id;
    if (s_fd s =? 0) || bool_decide (s_status s = STATUS_HANDSHAKE) then
      if bool_decide (s_status s = STATUS_DOWN) then
        skynet_send destination source PTYPE_ERROR 0 [];;
        skynet_error (str "Drop message to harbor " ++ print_d harbor_id ++ str " from " ++ print_x source
                      ++ str " to " ++ print_x destination ++ str " (session = " ++ print_d session
                      ++ str ", msgsz = " ++ print_d (i32 sz) ++ str ")");;
        mret false
      else
        let q := match s_queue s with Some q => q | None => new_queue end in
        let header := mkHeader source
          (u32 (Z.lor (Z.shiftl type HANDLE_REMOTE_SHIFT) (Z.land destination HANDLE_MASK))) (u32 session) in
        q ← need (push_queue q msg sz header);
        upd_slave harbor_id (λ s, s <| s_queue := Some q |>);;
        mret true
    else
      let cookie := mkHeader source
        (u32 (Z.lor (Z.land destination HANDLE_MASK) (Z.shiftl type HANDLE_REMOTE_SHIFT))) (u32 session) in
      send_remote (s_fd s) msg sz cookie;;
      mret false.

Definition remote_send_name (source : Z) (name : bytes) (type session : Z) (msg : option block) (sz : Z) : prog bool :=
  node ← search_or_insert name;
  n ← get_node node;
  if kv_value n =? 0 then
    let q := match kv_queue n with Some q => q | None => new_queue end in
    let header := mkHeader source (u32 (Z.shiftl type HANDLE_REMOTE_SHIFT)) (u32 session) in
    q ← need (push_queue q msg sz header);
    upd_node node (λ n, n <| kv_queue := Some q |>);;
    query ← need (until_nul (str "Q " ++ take 16 name ++ [0]));
    slave ← get h_slave;
    skynet_send 0 slave PTYPE_TEXT 0 query;;
    mret true
  else remote_send_handle source (kv_value n) type session msg sz.

Definition handshake (id : Z) : prog unit :=
  s ← get_slave id; hid ← get h_id; call (Csocket_send (s_fd s) [u8 hid] 1).

Definition ch_N : Z := 78.
Definition ch_S : Z := 83.
Definition ch_A : Z := 65.

(** The two numbers of [sscanf(buffer, "%d %d", &fd, &id)], 0 where there is none. *)
Definition scan_two (buffer : bytes) : Z * Z :=
  match scan_int buffer with
  | Some (fd, rest) => match scan_int rest with Some (id, _) => (fd, id) | None => (fd, 0) end
  | None => (0, 0)
  end.

(** [msg] is the whole block, a 0 byte behind the [sz] bytes included. *)
Definition harbor_command (msg : bytes) (sz session source : Z) : prog unit :=
  let s := i32 sz - 2 in
  c ← need (zget msg 0);
  if c =? ch_N then
    if (s <=? 0) || (GLOBALNAME_LENGTH <=? s) then
      name ← need (c_str msg 2);
      skynet_error (str "Invalid global name " ++ name)
    else
      name ← need (copy_out msg 2 s);
      update_name (name ++ replicate (Z.to_nat (GLOBALNAME_LENGTH - s)) 0) source
  else if (c =? ch_S) || (c =? ch_A) then
    name ← need (copy_out msg 2 s);
    buffer ← need (until_nul (name ++ [0]));
    let '(fd, id) := scan_two buffer in
    if (fd =? 0) || (id <=? 0) || (REMOTE_MAX <=? id) then
      skynet_error (str "Invalid command " ++ [c] ++ str " " ++ buffer)
    else
      slave ← get_slave id;
      if negb (s_fd slave =? 0) then skynet_error (str "Harbor " ++ print_d id ++ str " alreay exist")
      else
        upd_slave id (λ s, s <| s_fd := fd |>);;
        call (Csocket_start fd);;
        handshake id;;
        if c =? ch_S then upd_slave id (λ s, s <| s_status := STATUS_HANDSHAKE |>)
        else upd_slave id (λ s, s <| s_status := STATUS_HEADER |>);; dispatch_queue id
  else
    text ← need (c_str msg 0);
    skynet_error (str "Unknown command " ++ text).

(** *** The callback *)

(** What a message points to: a socket message, a text, a [remote_message]. *)
Inductive harbor_message :=
  | Msocket (message : socket_message)
  | Mtext (msg : bytes) (sz : Z)
  | Mremote (name : bytes) (handle : Z) (message : option block) (sz : Z).

Definition on_socket (message : socket_message) (type : Z) : prog unit :=
  let t := sm_type message in
  if t =? SKYNET_SOCKET_TYPE_DATA then
    push_socket_data message;; skynet_free (sm_buffer message)
  else if (t =? SKYNET_SOCKET_TYPE_ERROR) || (t =? SKYNET_SOCKET_TYPE_CLOSE) then
    id ← harbor_id (sm_id message);
    if c_true id then report_harbor_down id
    else skynet_error (str "Unkown fd (" ++ print_d (sm_id message) ++ str ") closed")
  else if t =? SKYNET_SOCKET_TYPE_CONNECT then mret tt
  else if t =? SKYNET_SOCKET_TYPE_WARNING then
    id ← harbor_id (sm_id message);
    if c_true id then
      skynet_error (str "message havn't send to Harbor (" ++ print_d id ++ str ") reach "
                    ++ print_d (sm_ud message) ++ str " K")
    else mret tt
  else skynet_error (str "recv invalid socket message type " ++ print_d type).

Definition mainloop (type session source : Z) (msg : harbor_message) : prog unit :=
  match msg with
  | Msocket message => if type =? PTYPE_SOCKET then on_socket message type else bad BadAccess
  | Mtext msg sz => if type =? PTYPE_HARBOR then harbor_command msg sz session source else bad BadAccess
  | Mremote name handle message sz =>
      if (type =? PTYPE_SOCKET) || (type =? PTYPE_HARBOR) then bad BadAccess
      else
        taken ← (if handle =? 0 then remote_send_name source name type session message sz
                 else remote_send_handle source handle type session message sz);
        if taken : bool then mret tt else skynet_free message
  end.

(** Returns 1 when the service refuses to start. *)
Definition harbor_init (args : bytes) : prog Z :=
  let '(harbor_id, slave) :=
    match scan_int args with
    | Some (i, rest) => match scan_uint rest with Some (s, _) => (i, s) | None => (i, 0) end
    | None => (0, 0)
    end in
  if slave =? 0 then mret 1
  else
    modify (λ h, h <| h_id := harbor_id |> <| h_slave := slave |>);;
    call Ccallback;;
    call Charbor_start;;
    mret 0.
End service.
