(* ===== verification/HarborRep.v ===== *)
(** * The queues, names and blocks of the harbor service

    What the data of Harbor.v stands for: a ring buffer is a list of messages,
    the hash table is a function from names to nodes, and the live blocks are
    exactly those the queues and the receive buffers point to. *)

From stdpp Require Import prelude list gmap list_numbers strings infinite.
From S2P Require Import Prelude Skynet Handle CString Harbor.

(** ** Programs *)

Lemma prog_bind_ok {A B} (m : prog A) (f : A → prog B) h a h' :
  m h = Ok (a, h') → (m ≫= f) h = f a h'.
Proof. intros Hm. unfold mbind, prog_bind. by rewrite Hm. Qed.

(** [pstep H]: run the first program of a sequence by the equation [H]. *)
Ltac pstep H := rewrite (prog_bind_ok _ _ _ _ _ H).

Lemma need_bind {A B} (o : option A) (f : A → prog B) h a : o = Some a → (need o ≫= f) h = f a h.
Proof. by intros ->. Qed.

Lemma prog_bind_assoc {A B C} (m : prog A) (f : A → prog B) (g : B → prog C) h :
  ((m ≫= f) ≫= g) h = (m ≫= λ a, f a ≫= g) h.
Proof. unfold mbind, prog_bind. by destruct (m h) as [[a h']|]. Qed.

Lemma get_bind {A B} (g : harbor → A) (f : A → prog B) h : (get g ≫= f) h = f (g h) h.
Proof. done. Qed.

(** [prun]: unfold the monad. *)
Ltac prun := unfold mbind, prog_bind, mret, prog_ret, get, modify; cbn.

Lemma get_slave_ok h i s : zget (h_s h) i = Some s → get_slave i h = Ok (s, h).
Proof. intros Hs. unfold get_slave. prun. by rewrite Hs. Qed.

Lemma set_slave_ok h i s x :
  zget (h_s h) i = Some s → set_slave i x h = Ok (tt, h <| h_s := <[Z.to_nat i := x]> (h_s h) |>).
Proof.
  intros Hs%zget_Some_lt. unfold set_slave. prun. by rewrite zset_Some.
Qed.

Lemma upd_slave_ok h i s f :
  zget (h_s h) i = Some s → upd_slave i f h = Ok (tt, h <| h_s := <[Z.to_nat i := f s]> (h_s h) |>).
Proof. intros Hs. unfold upd_slave. pstep (get_slave_ok _ _ _ Hs). by apply set_slave_ok with s. Qed.

(** ** Queues *)

Record queue_holds (q : harbor_msg_queue) (l : list harbor_msg) : Prop := {
  qh_size : 0 < q_size q <= 2 ^ 30;
  qh_cells : Z.of_nat (length (q_data q)) = q_size q;
  qh_head : 0 <= q_head q < q_size q;
  qh_len : Z.of_nat (length l) < q_size q;
  qh_tail : q_tail q = (q_head q + Z.of_nat (length l)) mod q_size q;
  qh_ring : ring (q_data q) (q_head q) (q_size q) l
}.

(** The messages of a queue, oldest first. *)
Definition queue_msgs (q : harbor_msg_queue) : list harbor_msg :=
  omap (λ i, c ← zget (q_data q) ((q_head q + i) mod q_size q); c)
       (seqZ 0 ((q_tail q - q_head q) mod q_size q)).

Lemma queue_holds_msgs q l : queue_holds q l → queue_msgs q = l.
Proof.
  intros []. unfold queue_msgs.
  replace ((q_tail q - q_head q) mod q_size q) with (Z.of_nat (length l)).
  2:{ rewrite qh_tail0, Zminus_mod_idemp_l. replace (q_head q + Z.of_nat (length l) - q_head q)
        with (Z.of_nat (length l)) by lia. symmetry. apply Z.mod_small. lia. }
  assert (Hr : mapM (λ i, zget (q_data q) ((q_head q + i) mod q_size q)) (seqZ 0 (Z.of_nat (length l)))
               = Some (Some <$> l)) 
    by (apply (ring_read _ (q_head q) (q_size q) l (λ i, (q_head q + i) mod q_size q)); [lia|done..]).
  revert Hr. generalize (seqZ 0 (Z.of_nat (length l))). clear. intros idx.
  revert l. induction idx as [|i idx IH]; intros l Hr; cbn in Hr |- *.
  - by destruct l.
  - destruct (zget _ _) as [c|]; [|done]. cbn in Hr |- *. destruct (mapM _ idx) as [cs|] eqn:E; [|done].
    cbn in Hr. injection Hr as Hr. destruct l as [|m l]; [done|]. injection Hr as -> ->. cbn.
    f_equal. by apply IH.
Qed.

Definition queue_ok (q : harbor_msg_queue) : Prop := queue_holds q (queue_msgs q).


Lemma new_queue_ok : queue_holds new_queue [].
Proof. by split; cbn. Qed.

Lemma pop_queue_nil q : queue_holds q [] → pop_queue q = Some (None, q).
Proof.
  intros []. unfold pop_queue. cbn in qh_tail0. rewrite Z.add_0_r, Z.mod_small in qh_tail0 by lia.
  by rewrite qh_tail0, Z.eqb_refl.
Qed.

Lemma pop_queue_cons q m l :
  queue_holds q (m :: l) → ∃ q', pop_queue q = Some (Some m, q') ∧ queue_holds q' l ∧ q_size q' = q_size q.
Proof.
  intros []. unfold pop_queue. cbn [length] in *.
  destruct (ring_pop _ _ _ _ _ qh_head0 qh_ring0) as [Hm Hr].
  rewrite (proj2 (Z.eqb_neq _ _)) by (rewrite qh_tail0; ring_solve).
  rewrite Hm. cbn. rewrite Z.rem_mod_nonneg by lia. eexists. split; [done|]. split; [|done].
  split; cbn; try done; try lia.
  - apply Z.mod_pos_bound. lia.
  - rewrite Zplus_mod_idemp_l, qh_tail0. f_equal. lia.
Qed.

Lemma push_queue_ok q l m :
  queue_holds q l → Z.of_nat (length l) < 2 ^ 29 →
  ∃ q', push_queue_msg q m = Some q' ∧ queue_holds q' (l ++ [m]).
Proof.
  intros Hq Hl. unfold push_queue_msg.
  assert (Hroom : ∃ q1, (if Z.rem (q_tail q + 1) (q_size q) =? q_head q then
       new_buffer ← mapM (λ i, zget (q_data q) (Z.rem (i + q_head q) (q_size q))) (seqZ 0 (q_size q - 1));
       Some (q <| q_data := new_buffer ++ replicate (Z.to_nat (q_size q + 1)) None |>
               <| q_head := 0 |> <| q_tail := q_size q - 1 |> <| q_size := i32 (q_size q * 2) |>)
     else Some q) = Some q1 ∧ queue_holds q1 l ∧ Z.of_nat (length l) + 1 < q_size q1).
  { destruct Hq. assert (0 <= q_tail q < q_size q) by (rewrite qh_tail0; apply Z.mod_pos_bound; lia).
    rewrite Z.rem_mod_nonneg by lia. rewrite qh_tail0, Zplus_mod_idemp_l, <- Z.add_assoc. case_if.
    - assert (Hfull : Z.of_nat (length l) = q_size q - 1) by (revert Heqb; ring_solve).
      rewrite (ring_read _ (q_head q) (q_size q) l); try done; try lia.
      2:{ intros i Hi. rewrite Z.rem_mod_nonneg by lia. f_equal. lia. }
      cbn. rewrite i32_small by lia. eexists. split; [done|]. split; [|cbn; lia].
      split; cbn; try lia.
      + rewrite length_app, length_fmap, length_replicate. lia.
      + rewrite Z.mod_small by lia. lia.
      + apply ring_laid_out. lia.
    - eexists. split; [done|]. split; [by split|].
      assert (Z.of_nat (length l) + 1 ≠ q_size q); [|lia]. intros E. apply Heqb.
      rewrite E. ring_solve. }
  destruct Hroom as (q1 & -> & [] & Hroom). cbn.
  rewrite zset_Some by (rewrite qh_tail0, qh_cells0; apply Z.mod_pos_bound; lia). cbn.
  eexists. split; [done|]. assert (0 <= q_tail q1 < q_size q1) by (rewrite qh_tail0; apply Z.mod_pos_bound; lia).
  split; cbn; try done; try lia.
  - by rewrite length_insert.
  - rewrite length_app. cbn. lia.
  - rewrite Z.rem_mod_nonneg by lia. rewrite qh_tail0, Zplus_mod_idemp_l, length_app. cbn. f_equal. lia.
  - apply (ring_push (q_data q1)); try done; try lia. rewrite <- qh_tail0. apply zset_Some. lia.
Qed.

(** ** Ownership of blocks *)

(** The live blocks are exactly those of [L], each listed once. *)
Definition owns (live : gset positive) (L : list positive) : Prop :=
  NoDup L ∧ ∀ p, p ∈ live ↔ p ∈ L.

#[export] Instance owns_proper live : Proper ((≡ₚ) ==> iff) (owns live).
Proof. intros L L' HL. unfold owns. setoid_rewrite HL. done. Qed.

Definition addr_of (b : option block) : list positive :=
  match b with Some b => [b_addr b] | None => [] end.

(** A message of [sz] bytes. *)
Definition buffer_ok (b : option block) (sz : Z) : Prop :=
  match b with
  | Some b => sz = Z.of_nat (length (b_data b)) ∧ sz < 2 ^ 62
  | None => sz = 0
  end.

Definition buffer_data (b : option block) : bytes := match b with Some b => b_data b | None => [] end.

Definition msg_addr (m : harbor_msg) : list positive := addr_of (hm_buffer m).
Definition msg_ok (m : harbor_msg) : Prop := buffer_ok (hm_buffer m) (hm_size m).

Lemma buffer_size b sz : buffer_ok b sz → sz = Z.of_nat (length (buffer_data b)) ∧ 0 <= sz < 2 ^ 62.
Proof. destruct b; cbn; lia. Qed.

(** The state with another trace and other live blocks. *)
Definition with_env (h : harbor) (ctx : list harbor_call) (live : gset positive) : harbor :=
  h <| h_ctx := ctx |> <| h_live := live |>.

Lemma with_env_id h : with_env h (h_ctx h) (h_live h) = h.
Proof. by destruct h. Qed.

Lemma skynet_free_ok h b L :
  owns (h_live h) (addr_of b ++ L) →
  ∃ live, skynet_free b h = Ok (tt, with_env h (h_ctx h) live) ∧ owns live L.
Proof.
  intros [Hd Hl]. destruct b as [b|]; cbn in *.
  - exists (h_live h ∖ {[b_addr b]}). prun. rewrite bool_decide_true by (apply Hl; set_solver).
    split; [by destruct h|]. apply NoDup_cons in Hd as [Hn Hd]. split; [done|]. intros p. set_solver.
  - exists (h_live h). rewrite with_env_id. done.
Qed.

Lemma read_buffer_prefix h b sz L :
  owns (h_live h) (addr_of b ++ L) → 0 <= sz <= Z.of_nat (length (buffer_data b)) →
  read_buffer b sz h = Ok (take (Z.to_nat sz) (buffer_data b), h).
Proof.
  intros [_ Hl] Hb. destruct b as [b|]; cbn in *.
  - prun. rewrite bool_decide_true by (apply Hl; set_solver). by rewrite copy_out_spec by lia.
  - rewrite (proj2 (Z.eqb_eq _ _)) by lia. by rewrite take_nil.
Qed.

Lemma read_buffer_ok h b sz L :
  owns (h_live h) (addr_of b ++ L) → buffer_ok b sz → read_buffer b sz h = Ok (buffer_data b, h).
Proof.
  intros Ho [Hb ?]%buffer_size. rewrite (read_buffer_prefix _ _ _ _ Ho) by lia. by rewrite take_ge by lia.
Qed.

Lemma skynet_malloc_ok h n L :
  owns (h_live h) L →
  ∃ p live, skynet_malloc n h = Ok ((p, replicate (Z.to_nat n) None), with_env h (h_ctx h) live)
    ∧ owns live (p :: L).
Proof.
  intros [Hd Hl]. unfold skynet_malloc. prun. set (p := fresh (h_live h)).
  assert (Hp : p ∉ h_live h) by apply is_fresh.
  exists p, ({[p]} ∪ h_live h). split; [by destruct h|]. split.
  - apply NoDup_cons. split; [by rewrite <- Hl|done].
  - intros x. set_solver.
Qed.

(** ** Draining a queue *)

(** A loop over a queue whose body hands every message on or frees it, and
    makes the calls [calls m]. *)
Lemma pop_all_ok q l body calls h L :
  queue_holds q l → Forall msg_ok l → owns (h_live h) ((l ≫= msg_addr) ++ L) →
  (∀ m ctx live L', msg_ok m → owns live (msg_addr m ++ L') →
     ∃ live', body m (with_env h ctx live) = Ok (tt, with_env h (ctx ++ calls m) live') ∧ owns live' L') →
  ∃ q' live, pop_all q body h = Ok (q', with_env h (h_ctx h ++ (l ≫= calls)) live)
    ∧ owns live L ∧ queue_holds q' [].
Proof.
  intros Hq Hok Ho Hbody. unfold pop_all.
  assert (Hf : (length l < Z.to_nat (q_size q))%nat) by (destruct Hq; lia).
  replace (pop_loop (Z.to_nat (q_size q)) q body h)
    with (pop_loop (Z.to_nat (q_size q)) q body (with_env h (h_ctx h) (h_live h))) by (by rewrite with_env_id).
  revert Hf. generalize (Z.to_nat (q_size q)) as fuel.
  revert Ho. generalize (h_live h) as live, (h_ctx h) as ctx.
  revert q Hq. induction Hok as [|m l Hm Hok IH]; intros q Hq live ctx Ho fuel Hf.
  - destruct fuel as [|fuel]; [cbn in Hf; lia|]. cbn [pop_loop]. rewrite (pop_queue_nil _ Hq).
    prun. exists q, live. rewrite app_nil_r. done.
  - destruct fuel as [|fuel]; [cbn in Hf; lia|]. cbn [pop_loop].
    destruct (pop_queue_cons _ _ _ Hq) as (q1 & -> & Hq1 & _). cbn [need].
    rewrite bind_cons, <- app_assoc in Ho.
    destruct (Hbody m ctx live _ Hm Ho) as (live' & Hb & Ho').
    destruct (IH q1 Hq1 live' (ctx ++ calls m) Ho' fuel ltac:(cbn in Hf; lia)) as (q' & live'' & Hp & ? & ?).
    exists q', live''. unfold mret, prog_ret, mbind at 1, prog_bind at 1. pstep Hb. rewrite Hp.
    by rewrite bind_cons, app_assoc.
Qed.

Definition queue_addrs (oq : option harbor_msg_queue) : list positive :=
  match oq with Some q => queue_msgs q ≫= msg_addr | None => [] end.

Definition oqueue_ok (oq : option harbor_msg_queue) : Prop :=
  match oq with Some q => queue_holds q (queue_msgs q) ∧ Forall msg_ok (queue_msgs q) | None => True end.

Lemma release_queue_ok oq h L :
  oqueue_ok oq → owns (h_live h) (queue_addrs oq ++ L) →
  ∃ live, release_queue oq h = Ok (tt, with_env h (h_ctx h) live) ∧ owns live L.
Proof.
  intros Hq Ho. destruct oq as [q|]; cbn in *.
  - destruct Hq as [Hq Hok].
    destruct (pop_all_ok q _ (λ m, skynet_free (hm_buffer m)) (λ _, []) h L Hq Hok Ho) as (q' & live & Hp & Hl & _).
    { intros m ctx live L' _ Ho'. destruct (skynet_free_ok (with_env h ctx live) (hm_buffer m) L' Ho')
        as (live' & Hf & Ho''). exists live'. rewrite app_nil_r. done. }
    exists live. pstep Hp. replace (queue_msgs q ≫= λ _, []) with (@nil harbor_call).
    + by rewrite app_nil_r.
    + clear. induction (queue_msgs q) as [|m l IH]; [done|]. exact IH.
  - exists (h_live h). by rewrite with_env_id.
Qed.

(** Replacing an element of a list of owners. *)
Lemma bind_insert_perm {A B} (f : A → list B) l i x y :
  l !! i = Some x → (<[i := y]> l ≫= f) ++ f x ≡ₚ (l ≫= f) ++ f y.
Proof.
  intros Hi. rewrite insert_take_drop by eauto using lookup_lt_Some.
  rewrite <- (take_drop_middle l i x Hi) at 3. rewrite !bind_app, !bind_cons.
  solve_Permutation.
Qed.

(** ** The table of names *)

(** A name padded with 0 bytes. *)
Fixpoint padded (s : bytes) : Prop :=
  match s with
  | [] => True
  | x :: s => if x =? 0 then Forall (λ y, y = 0) s else padded s
  end.

Definition name_ok (name : bytes) : Prop := length name = 16%nat ∧ padded name.

Lemma zeros_eq (a b : bytes) :
  length a = length b → Forall (λ y, y = 0) a → Forall (λ y, y = 0) b → a = b.
Proof.
  revert b. induction a as [|x a IH]; intros [|y b] Hl; try done.
  intros [-> Ha]%Forall_cons [-> Hb]%Forall_cons. f_equal. auto.
Qed.

Lemma strncmp_padded n a b :
  length a = n → length b = n → padded a → padded b →
  ∃ c, strncmp a b n = Some c ∧ (c = 0 ↔ a = b).
Proof.
  revert a b. induction n as [|n IH]; intros [|x a] [|y b] Ha Hb; try done; cbn.
  { exists 0. done. }
  intros Pa Pb. destruct (x =? y) eqn:E; bool_prop.
  - subst y. destruct (x =? 0) eqn:E0; bool_prop.
    + exists 0. split; [done|]. split; [|done]. intros _. f_equal. cbn in Ha, Hb. apply zeros_eq; [lia|done..].
    + destruct (IH a b) as (c & -> & Hc); auto. exists c. split; [done|]. rewrite Hc. split; congruence.
  - eexists. split; [done|]. split; [|congruence]. case_if; lia.
Qed.

(** A node is filed under its hash. *)
Definition node_ok (n : keyvalue) : Prop := name_ok (kv_key n) ∧ name_hash (kv_key n) = Some (kv_hash n).

Definition table_ok (m : hashmap) : Prop :=
  length m = Z.to_nat HASH_SIZE ∧ Forall (Forall node_ok) m.

(** Node [n] at [p] is the one a search for [name] finds. *)
Record located (m : hashmap) (name : bytes) (p : Z * nat) (n : keyvalue) : Prop := mkLocated {
  lo_hash : ∃ h, name_hash name = Some h ∧ p.1 = h mod HASH_SIZE;
  lo_node : ∃ node, zget m p.1 = Some node ∧ list_find (λ n, kv_key n = name) node = Some (p.2, n)
}.

Lemma name_hash_some name : name_ok name → ∃ h, name_hash name = Some h.
Proof.
  intros [Hl _]. destruct name as [|? [|? [|? [|? [|? [|? [|? [|? [|? [|? [|? [|? [|? [|? [|? [|? [|]]]]]]]]]]]]]]]]];
    try discriminate. by eexists.
Qed.

Lemma search_loop_ok node h name :
  Forall node_ok node → name_ok name → name_hash name = Some h →
  search_loop node h name = Some (option_map fst (list_find (λ n, kv_key n = name) node)).
Proof.
  intros Hn Hname Hh. induction Hn as [|n node [Hk Hkh] Hn IH]; [done|]. cbn [search_loop list_find].
  destruct (decide (kv_key n = name)) as [E|E].
  - rewrite E, Hh in Hkh. injection Hkh as <-. rewrite Z.eqb_refl.
    destruct (strncmp_padded 16 (kv_key n) name) as (c & Hc & Hc0); [apply Hk|apply Hname|apply Hk|apply Hname|].
    change (Z.to_nat GLOBALNAME_LENGTH) with 16%nat. rewrite Hc. cbn. by rewrite (proj2 (Z.eqb_eq _ _)) by (by apply Hc0).
  - assert (Hs : (if kv_hash n =? h then c ← strncmp (kv_key n) name (Z.to_nat GLOBALNAME_LENGTH); Some (c =? 0)
                  else Some false) = Some false).
    { case_if; [|done]. destruct (strncmp_padded 16 (kv_key n) name) as (c & Hc & Hc0);
        [apply Hk|apply Hname|apply Hk|apply Hname|].
      change (Z.to_nat GLOBALNAME_LENGTH) with 16%nat. rewrite Hc. cbn. f_equal. apply Z.eqb_neq. tauto. }
    rewrite Hs. cbn. rewrite IH. cbn. by destruct (list_find _ node) as [[]|].
Qed.

(** What the table says about a name; a name without a node has value 0 and
    no queue. *)
Definition name_view (m : hashmap) (name : bytes) : Z * option harbor_msg_queue :=
  match (h ← name_hash name; node ← zget m (h mod HASH_SIZE); list_find (λ n, kv_key n = name) node) with
  | Some (_, n) => (kv_value n, kv_queue n)
  | None => (0, None)
  end.

Definition node_addrs (node : list keyvalue) : list positive := node ≫= λ n, queue_addrs (kv_queue n).
Definition map_addrs (m : hashmap) : list positive := m ≫= node_addrs.

Lemma located_view m name p n : located m name p n → name_view m name = (kv_value n, kv_queue n).
Proof. intros [(h & Hh & Hp) (node & Hn & Hf)]. unfold name_view. rewrite Hh. cbn. rewrite <- Hp, Hn. cbn. by rewrite Hf. Qed.

Lemma located_key m name p n : located m name p n → kv_key n = name.
Proof. intros [_ (node & _ & Hf)]. by apply list_find_Some in Hf as (_ & ? & _). Qed.

Lemma get_node_ok h name p n : located (h_map h) name p n → get_node p h = Ok (n, h).
Proof.
  intros [_ (node & Hn & Hf)]. apply list_find_Some in Hf as (Hl & _). unfold get_node. prun.
  rewrite Hn. cbn. by rewrite Hl.
Qed.

Lemma chain_ok m k node : table_ok m → zget m k = Some node → Forall node_ok node.
Proof.
  intros [_ Hm] Hn%zget_lookup. by apply (Forall_lookup_1 _ _ _ _ Hm Hn).
Qed.

Lemma bucket_some m h : table_ok m → ∃ node, zget m (h mod HASH_SIZE) = Some node.
Proof.
  intros [Hl _]. apply zget_is_Some. rewrite Hl.
  pose proof (Z.mod_pos_bound h HASH_SIZE). unfold HASH_SIZE in *. lia.
Qed.

(** Changing the chain of one hash. *)
Lemma set_chain_view m m' k node node' name :
  zget m k = Some node → zset m k node' = Some m' →
  option_map snd (list_find (λ n, kv_key n = name) node') = option_map snd (list_find (λ n, kv_key n = name) node) →
  name_view m' name = name_view m name.
Proof.
  intros Hn Hs Hf. unfold name_view. destruct (name_hash name) as [h|]; [|done]. cbn.
  destruct (decide (k = h mod HASH_SIZE)) as [->|Hne].
  - rewrite (zget_zset_eq _ _ _ _ Hs), Hn. cbn.
    destruct (list_find _ node') as [[]|], (list_find _ node) as [[]|]; by simplify_eq/=.
  - by rewrite (zget_zset_ne _ _ _ _ _ Hs Hne).
Qed.

Lemma set_chain_ok m m' k node node' :
  table_ok m → zget m k = Some node → zset m k node' = Some m' → Forall node_ok node' →
  table_ok m' ∧ map_addrs m' ++ node_addrs node ≡ₚ map_addrs m ++ node_addrs node'.
Proof.
  intros [Hl Hm] Hn Hs Hok. apply zset_inv in Hs as [Hk ->]. apply zget_lookup in Hn. split.
  - split; [by rewrite length_insert|]. by apply Forall_insert.
  - by apply bind_insert_perm.
Qed.

Lemma list_find_insert_other {A} (P : A → Prop) `{∀ x, Decision (P x)} (l : list A) i x y :
  l !! i = Some x → ¬ P x → ¬ P y → list_find P (<[i := y]> l) = list_find P l.
Proof.
  intros Hi Hx Hy. revert i Hi. induction l as [|z l IH]; intros [|i] Hi; cbn in *; try done.
  - injection Hi as ->. by rewrite !decide_False by done.
  - by rewrite IH.
Qed.

(** The table with another node at [p]. *)
Definition set_node (m : hashmap) (p : Z * nat) (n : keyvalue) : hashmap :=
  alter (λ node, <[p.2 := n]> node) (Z.to_nat p.1) m.

Lemma alter_is_insert {A} (f : A → A) (l : list A) (i : nat) x : l !! i = Some x → alter f i l = <[i := f x]> l.
Proof.
  revert i. induction l as [|y l IH]; intros [|i] Hi; cbn in *; simplify_eq; [done|].
  f_equal. by apply IH.
Qed.

Lemma set_node_twice m p a b : set_node (set_node m p a) p b = set_node m p b.
Proof.
  unfold set_node. generalize (Z.to_nat p.1) as i. induction m as [|node m IH]; intros [|i]; cbn; try done.
  - by rewrite list_insert_insert_eq.
  - f_equal. apply IH.
Qed.

Lemma upd_node_ok h name p n f :
  located (h_map h) name p n → upd_node p f h = Ok (tt, h <| h_map := set_node (h_map h) p (f n) |>).
Proof.
  intros [_ (node & Hn & Hf)]. apply list_find_Some in Hf as (Hl & _).
  unfold upd_node, set_node. prun. rewrite Hn. cbn. rewrite Hl. cbn.
  rewrite zset_Some by (by apply zget_Some_lt with node). cbn.
  by rewrite (alter_is_insert _ _ _ _ (zget_lookup _ _ _ Hn)).
Qed.

Lemma set_node_ok m name p n n' :
  table_ok m → located m name p n → kv_key n' = kv_key n → kv_hash n' = kv_hash n →
  table_ok (set_node m p n') ∧ located (set_node m p n') name p n'
    ∧ (∀ name', name' ≠ name → name_view (set_node m p n') name' = name_view m name')
    ∧ map_addrs (set_node m p n') ++ queue_addrs (kv_queue n) ≡ₚ map_addrs m ++ queue_addrs (kv_queue n').
Proof.
  intros Ht Hloc Hk Hh. pose proof (located_key _ _ _ _ Hloc) as Hkey.
  destruct Hloc as [Hp (node & Hn & Hf)]. pose proof Hf as (Hl & _ & Hbefore)%list_find_Some.
  pose proof (chain_ok _ _ _ Ht Hn) as Hok.
  set (node' := <[p.2 := n']> node).
  assert (Hs : zset m p.1 node' = Some (set_node m p n')).
  { unfold set_node. rewrite (alter_is_insert _ _ _ _ (zget_lookup _ _ _ Hn)).
    apply zset_Some. by apply zget_Some_lt with node. }
  assert (Hok' : Forall node_ok node').
  { apply Forall_insert; [done|]. pose proof (Forall_lookup_1 _ _ _ _ Hok Hl) as [? ?].
    split; [by rewrite Hk|by rewrite Hk, Hh]. }
  destruct (set_chain_ok _ _ _ _ _ Ht Hn Hs Hok') as [Ht' Ha]. split_and!; [done|..].
  - split; [done|]. exists node'. split; [by apply zget_zset_eq with m|].
    apply list_find_Some. split_and!; [apply list_lookup_insert_eq; eauto using lookup_lt_Some|congruence|].
    intros j y Hj Hlt. unfold node' in Hj. rewrite list_lookup_insert_ne in Hj by lia. eauto.
  - intros name' Hne. apply (set_chain_view _ _ p.1 node node'); try done.
    f_equal. apply (list_find_insert_other _ _ _ n); [done|congruence..].
  - pose proof (bind_insert_perm (λ n, queue_addrs (kv_queue n)) node p.2 n n' Hl) as Hb.
    fold node' in Hb. fold (node_addrs node) (node_addrs node') in Hb.
    apply (Permutation_app_inv_l (node_addrs node)).
    transitivity ((map_addrs m ++ node_addrs node') ++ queue_addrs (kv_queue n)).
    + rewrite <- Ha. solve_Permutation.
    + rewrite <- app_assoc, Hb. solve_Permutation.
Qed.

Lemma search_or_insert_ok h name :
  table_ok (h_map h) → name_ok name →
  ∃ p n m, search_or_insert name h = Ok (p, h <| h_map := m |>) ∧ table_ok m ∧ located m name p n
    ∧ (∀ name', name_view m name' = name_view (h_map h) name') ∧ map_addrs m ≡ₚ map_addrs (h_map h).
Proof.
  intros Ht Hname. destruct (name_hash_some _ Hname) as (x & Hx).
  destruct (bucket_some (h_map h) x Ht) as (node & Hn). pose proof (chain_ok _ _ _ Ht Hn) as Hok.
  unfold search_or_insert. prun. unfold hash_search. rewrite Hx. cbn. rewrite Hn. cbn.
  rewrite (search_loop_ok _ _ _ Hok Hname Hx). cbn.
  destruct (list_find _ node) as [[j n]|] eqn:Hf; cbn.
  - exists (x mod HASH_SIZE, j), n, (h_map h). split; [by destruct h|]. split_and!; try done.
    split; [by exists x|]. by exists node.
  - unfold hash_insert. rewrite Hx. cbn. rewrite Hn. cbn.
    set (n := mkKeyvalue name x 0 None). pose proof (zget_Some_lt _ _ _ Hn) as Hk.
    rewrite zset_Some by done. cbn. set (m := <[_ := _]> _).
    assert (Hs : zset (h_map h) (x mod HASH_SIZE) (n :: node) = Some m) by (by apply zset_Some).
    destruct (set_chain_ok _ _ _ _ _ Ht Hn Hs) as [Ht' Ha]; [by constructor|].
    assert (Hloc : located m name (x mod HASH_SIZE, 0%nat) n).
    { split; [by exists x|]. exists (n :: node). split; [by apply (zget_zset_eq _ _ _ _ Hs)|].
      cbn. by rewrite decide_True. }
    exists (x mod HASH_SIZE, 0%nat), n, m. split_and!; try done.
    + intros name'. destruct (decide (name' = name)) as [->|Hne].
      * rewrite (located_view _ _ _ _ Hloc). unfold name_view. rewrite Hx. cbn. rewrite Hn. cbn. by rewrite Hf.
      * apply (set_chain_view _ _ (x mod HASH_SIZE) node (n :: node)); try done.
        cbn. rewrite decide_False by done. by destruct (list_find (λ n, kv_key n = name') node) as [[]|].
    + by apply (Permutation_app_inv_r (node_addrs node)).
Qed.
