(* ===== verification/HarborNet.v ===== *)
(** * What the harbor service does

    An abstract service without rings, hash chains, receive buffers or
    addresses: a link is waiting, shaking hands, open with the bytes of an
    incomplete package, or down; a name is known or has messages that wait for
    it.  The file shows that the callback of Harbor.v implements it, in
    particular that it never leaves an array, that every message buffer is
    freed or handed on exactly once and none is lost, with two exceptions that
    the abstract service names as faults. *)

From stdpp Require Import prelude list gmap list_numbers strings infinite.
From S2P Require Import Prelude Skynet Handle CString Harbor HarborRep.

#[local] Arguments str : simpl never.
#[local] Arguments print_d : simpl never.
#[local] Arguments print_x : simpl never.
#[local] Arguments print_08x : simpl never.

(** ** The abstract service *)

(** A message on its way: header and content. *)
Definition mail : Type := remote_message_header * bytes.

Inductive link :=
  | Waiting (pending : list mail)
  | Handshaking (fd : Z) (pending : list mail)
  | Open (fd : Z) (rest : bytes)
  | Down (fd : Z).

Inductive name_state := Known (handle : Z) | Unknown (pending : list mail).

Record net := mkNet {
  n_ctx : list harbor_call;
  n_id : Z;
  n_slave : Z;
  n_name : bytes → name_state;
  n_link : list link
}.

#[export] Instance eta_net : Eta net :=
  λ n, mkNet (n_ctx n) (n_id n) (n_slave n) (n_name n) (n_link n).

Definition link_fd (l : link) : Z :=
  match l with Waiting _ => 0 | Handshaking fd _ | Open fd _ | Down fd => fd end.

Definition link_at (n : net) (i : Z) : link := default (Waiting []) (zget (n_link n) i).
Definition set_link (n : net) (i : Z) (l : link) : net := n <| n_link := <[Z.to_nat i := l]> (n_link n) |>.
Definition log (n : net) (calls : list harbor_call) : net := n <| n_ctx := n_ctx n ++ calls |>.
Definition set_name (n : net) (name : bytes) (st : name_state) : net :=
  n <| n_name := λ x, if decide (x = name) then st else n_name n x |>.

(** The package of a message. *)
Definition encode (m : mail) : bytes :=
  to_bigendian (Z.of_nat (length m.2) + HEADER_COOKIE_LENGTH) ++ m.2 ++ header_to_message m.1.

Definition remote_calls (fd : Z) (m : mail) : list harbor_call :=
  let size := Z.of_nat (length m.2) + HEADER_COOKIE_LENGTH in
  if 2 ^ 32 - 1 <? size then
    [Cerror (str "remote message from :" ++ print_08x (rh_source m.1) ++ str " to :"
             ++ print_08x (rh_destination m.1) ++ str " is too large.")]
  else [Csocket_send fd (encode m) (i32 (size + 4))].

(** A message that waited for a name, sent to the handle of the name. *)
Definition address (handle : Z) (m : mail) : mail :=
  (m.1 <| rh_destination := Z.lor (rh_destination m.1) (Z.land handle HANDLE_MASK) |>, m.2).

Definition local_call (handle : Z) (m : mail) : harbor_call :=
  Csend (rh_source m.1) handle
    (Z.lor (Z.shiftr (rh_destination m.1) HANDLE_REMOTE_SHIFT) PTYPE_TAG_DONTCOPY) (i32 (rh_session m.1)) m.2.

(** *** Sending *)

Definition net_send (n : net) (source destination type session : Z) (data : bytes) : net :=
  let i := Z.shiftr destination HANDLE_REMOTE_SHIFT in
  let m := (mkHeader source
     (u32 (Z.lor (Z.shiftl type HANDLE_REMOTE_SHIFT) (Z.land destination HANDLE_MASK))) (u32 session), data) in
  if i =? n_id n then log n [Csend source destination (Z.lor type PTYPE_TAG_DONTCOPY) session data]
  else
    match link_at n i with
    | Waiting p => set_link n i (Waiting (p ++ [m]))
    | Handshaking fd p => set_link n i (Handshaking fd (p ++ [m]))
    | Open fd _ | Down fd => log n (remote_calls fd m)
    end.

Definition net_send_name (n : net) (source : Z) (name : bytes) (type session : Z) (data : bytes) : net :=
  match n_name n name with
  | Known handle => net_send n source handle type session data
  | Unknown p =>
      let m := (mkHeader source (u32 (Z.shiftl type HANDLE_REMOTE_SHIFT)) (u32 session), data) in
      log (set_name n name (Unknown (p ++ [m])))
          [Csend 0 (n_slave n) PTYPE_TEXT 0 (default [] (until_nul (str "Q " ++ name ++ [0])))]
  end.

(** *** Names and links *)

(** The messages that waited for a name whose handle has come. *)
Definition net_dispatch (n : net) (handle : Z) (p : list mail) : net :=
  let i := Z.shiftr handle HANDLE_REMOTE_SHIFT in
  match link_at n i with
  | Waiting q =>
      if i =? Z.shiftr (n_slave n) HANDLE_REMOTE_SHIFT
      then log (set_link n i (Waiting [])) (local_call handle <$> q ++ p)
      else set_link n i (Waiting (q ++ p))
  | Handshaking fd _ | Open fd _ | Down fd => log n (p ≫= remote_calls fd ∘ address handle)
  end.

Definition net_learn (n : net) (name : bytes) (handle : Z) : net :=
  match n_name n name with
  | Known _ | Unknown [] => set_name n name (Known handle)
  | Unknown p => set_name (net_dispatch n handle p) name (Known handle)
  end.

(** A link comes up: by ['S'] it waits for the hand shake, by ['A'] it is open. *)
Definition net_connect (n : net) (c fd id : Z) : net :=
  match link_at n id with
  | Waiting p =>
      let n := log n [Csocket_start fd; Csocket_send fd [u8 (n_id n)] 1] in
      if c =? ch_S then set_link n id (Handshaking fd p)
      else log (set_link n id (Open fd [])) (p ≫= remote_calls fd)
  | _ => log n [Cerror (str "Harbor " ++ print_d id ++ str " alreay exist")]
  end.

Definition net_command (n : net) (text : bytes) (source : Z) : net :=
  let c := default 0 (zget text 0) in
  let arg := drop 2 text in
  if c =? ch_N then
    if (length arg =? 0)%nat || (16 <=? length arg)%nat then log n [Cerror (str "Invalid global name " ++ arg)]
    else net_learn n (arg ++ replicate (16 - length arg) 0) source
  else if (c =? ch_S) || (c =? ch_A) then
    let '(fd, id) := scan_two arg in
    if (fd =? 0) || (id <=? 0) || (REMOTE_MAX <=? id) then log n [Cerror (str "Invalid command " ++ [c] ++ str " " ++ arg)]
    else net_connect n c fd id
  else log n [Cerror (str "Unknown command " ++ text)].

(** *** Receiving *)

(** How a stream ends: with an incomplete package, or with a package that is
    refused. *)
Inductive stream_end := Rest (rest : bytes) | TooLong | TooShort.

(** The complete packages of a stream.  Every package takes at least 4 bytes. *)
Fixpoint cut_stream (fuel : nat) (s : bytes) : list bytes * stream_end :=
  match fuel, s with
  | S fuel, b0 :: b1 :: b2 :: b3 :: body =>
      let len := Z.to_nat (b1 * 65536 + b2 * 256 + b3) in
      if negb (b0 =? 0) then ([], TooLong)
      else if (length body =? 0)%nat || (length body <? len)%nat then ([], Rest s)
      else if (len <? 12)%nat then ([], TooShort)
      else let '(ps, e) := cut_stream fuel (drop len body) in (take len body :: ps, e)
  | _, _ => ([], Rest s)
  end.

Definition cut (s : bytes) : list bytes * stream_end := cut_stream (length s) s.

Section service.
Context (send_returns : list harbor_call → Z).

(** The calls up to and including those that deliver a package. *)
Definition deliver (hid : Z) (ctx : list harbor_call) (package : bytes) : list harbor_call :=
  let len := (length package - 12)%nat in
  let header := default (mkHeader 0 0 0) (message_to_header (drop len package)) in
  let type := Z.shiftr (rh_destination header) HANDLE_REMOTE_SHIFT in
  let destination := u32 (Z.lor (Z.land (rh_destination header) HANDLE_MASK) (Z.shiftl (u32 hid) HANDLE_REMOTE_SHIFT)) in
  let session := i32 (rh_session header) in
  let ctx := ctx ++ [Csend (rh_source header) destination (Z.lor type PTYPE_TAG_DONTCOPY) session (take len package)] in
  if send_returns ctx <? 0 then
    ctx ++ (if type =? PTYPE_ERROR then [] else [Csend destination (rh_source header) PTYPE_ERROR session []])
        ++ [Cerror (str "Unknown destination :" ++ print_x destination ++ str " from :"
                    ++ print_x (rh_source header) ++ str " type(" ++ print_d type ++ str ")")]
  else ctx.

Definition net_stream (n : net) (id fd : Z) (s : bytes) : result net :=
  let '(ps, e) := cut s in
  let n := n <| n_ctx := foldl (deliver (n_id n)) (n_ctx n) ps |> in
  match e with
  | Rest rest => Ok (set_link n id (Open fd rest))
  | TooLong =>
      Ok (log (set_link n id (Down fd))
              [Cerror (str "Message is too long from harbor " ++ print_d id); Csocket_close fd])
  | TooShort => Bad ShortPackage
  end.

(** The harbor of a descriptor, 0 if there is none. *)
Definition net_harbor (n : net) (fd : Z) : Z :=
  default 0 (list_find (λ i, link_fd (link_at n i) = fd) (seqZ 1 (REMOTE_MAX - 1)) ≫= λ r, Some r.2).

Definition net_data (n : net) (fd : Z) (data : bytes) : result net :=
  let id := net_harbor n fd in
  if id =? 0 then Bad NotLive
  else
    match link_at n id with
    | Handshaking _ p =>
        let remote := default 0 (zget data 0) in
        if remote =? id then
          net_stream (log (set_link n id (Open fd [])) (p ≫= remote_calls fd)) id fd (drop 1 data)
        else
          Ok (log (set_link n id (Down fd))
                  [Cerror (str "Invalid shakehand id (" ++ print_d id ++ str ") from fd = " ++ print_d fd
                           ++ str " , harbor = " ++ print_d remote); Csocket_close fd])
    | Open _ rest => net_stream n id fd (rest ++ data)
    | Waiting _ | Down _ => Ok n
    end.

Definition net_socket (n : net) (type : Z) (message : socket_message) : result net :=
  let t := sm_type message in
  let id := net_harbor n (sm_id message) in
  if t =? SKYNET_SOCKET_TYPE_DATA then net_data n (sm_id message) (buffer_data (sm_buffer message))
  else if (t =? SKYNET_SOCKET_TYPE_ERROR) || (t =? SKYNET_SOCKET_TYPE_CLOSE) then
    Ok (log n [if id =? 0 then Cerror (str "Unkown fd (" ++ print_d (sm_id message) ++ str ") closed")
               else Csend 0 (n_slave n) PTYPE_TEXT 0 (str "D " ++ print_d id)])
  else if t =? SKYNET_SOCKET_TYPE_CONNECT then Ok n
  else if t =? SKYNET_SOCKET_TYPE_WARNING then
    Ok (if id =? 0 then n
        else log n [Cerror (str "message havn't send to Harbor (" ++ print_d id ++ str ") reach "
                            ++ print_d (sm_ud message) ++ str " K")])
  else Ok (log n [Cerror (str "recv invalid socket message type " ++ print_d type)]).

Definition net_main (n : net) (type session source : Z) (msg : harbor_message) : result net :=
  match msg with
  | Msocket message => net_socket n type message
  | Mtext msg sz => Ok (net_command n (take (Z.to_nat sz) msg) source)
  | Mremote name handle message _ =>
      Ok (if handle =? 0 then net_send_name n source name type session (buffer_data message)
          else net_send n source handle type session (buffer_data message))
  end.
End service.

(** ** Representation *)

Definition abs_msg (m : harbor_msg) : mail := (hm_header m, buffer_data (hm_buffer m)).

Definition abs_queue (oq : option harbor_msg_queue) : list mail :=
  match oq with Some q => abs_msg <$> queue_msgs q | None => [] end.

(** Where the reassembly of a stream stands when [rest] was received. *)
Inductive receiving (s : slave) (rest : bytes) : Prop :=
  | in_header :
      s_status s = STATUS_HEADER → s_recv_buffer s = None → 0 <= s_read s < 4 →
      rest = take (Z.to_nat (s_read s)) (s_size s) → receiving s rest
  | in_content p got b1 b2 b3 :
      s_status s = STATUS_CONTENT → s_size s = [0; b1; b2; b3] →
      s_length s = b1 * 65536 + b2 * 256 + b3 → s_read s = Z.of_nat (length got) →
      s_recv_buffer s = Some (p, (Some <$> got) ++ replicate (Z.to_nat (s_length s) - length got) None) →
      s_read s < s_length s ∨ got = [] →
      rest = s_size s ++ got → receiving s rest.

Definition link_rep (s : slave) (l : link) : Prop :=
  s_fd s = link_fd l ∧ length (s_size s) = 4%nat ∧ Forall is_byte (s_size s) ∧ oqueue_ok (s_queue s) ∧
  match l with
  | Waiting p => s_status s = STATUS_WAIT ∧ s_recv_buffer s = None ∧ s_read s = 0 ∧ abs_queue (s_queue s) = p
  | Handshaking fd p =>
      fd ≠ 0 ∧ s_status s = STATUS_HANDSHAKE ∧ s_recv_buffer s = None ∧ s_read s = 0 ∧ abs_queue (s_queue s) = p
  | Open fd rest => fd ≠ 0 ∧ s_queue s = None ∧ receiving s rest
  | Down fd => fd ≠ 0 ∧ s_status s = STATUS_DOWN ∧ s_queue s = None ∧ s_recv_buffer s = None
  end.

Definition name_rep (v : Z * option harbor_msg_queue) (st : name_state) : Prop :=
  oqueue_ok v.2 ∧
  match st with
  | Known handle => v = (handle, None) ∧ 0 < handle < 2 ^ 32
  | Unknown p => v.1 = 0 ∧ abs_queue v.2 = p ∧ (p = [] → v.2 = None)
  end.

Definition slave_addrs (s : slave) : list positive :=
  queue_addrs (s_queue s) ++ match s_recv_buffer s with Some (p, _) => [p] | None => [] end.

Definition harbor_addrs (h : harbor) : list positive := map_addrs (h_map h) ++ (h_s h ≫= slave_addrs).

(** The service [h], handling a message that owns the blocks [X], is the
    abstract service [n]. *)
Record harbor_rep (X : list positive) (h : harbor) (n : net) : Prop := mkRep {
  hr_ctx : h_ctx h = n_ctx n;
  hr_id : h_id h = n_id n;
  hr_slave : h_slave h = n_slave n;
  hr_len : length (n_link n) = Z.to_nat REMOTE_MAX;
  hr_links : Forall2 link_rep (h_s h) (n_link n);
  hr_table : table_ok (h_map h);
  hr_names : ∀ name, name_ok name → name_rep (name_view (h_map h) name) (n_name n name);
  hr_owns : owns (h_live h) (X ++ harbor_addrs h)
}.

(** The queues stay below the size at which [int] overflows. *)
Definition pending_of (l : link) : list mail := match l with Waiting p | Handshaking _ p => p | _ => [] end.

Definition small (n : net) : Prop :=
  (∀ name p, n_name n name = Unknown p → Z.of_nat (length p) < 2 ^ 28)
  ∧ Forall (λ l, Z.of_nat (length (pending_of l)) < 2 ^ 28) (n_link n).

(** ** Moving between states *)

Definition other_addrs (h : harbor) (i : Z) : list positive :=
  map_addrs (h_map h) ++ (delete (Z.to_nat i) (h_s h) ≫= slave_addrs).

Lemma addrs_split h i s :
  zget (h_s h) i = Some s → harbor_addrs h ≡ₚ slave_addrs s ++ other_addrs h i.
Proof.
  intros Hs%zget_lookup. unfold harbor_addrs, other_addrs.
  rewrite (delete_Permutation _ _ _ Hs) at 1. rewrite bind_cons. solve_Permutation.
Qed.

Lemma delete_insert_same {A} (l : list A) i x : delete i (<[i := x]> l) = delete i l.
Proof. revert i. induction l as [|y l IH]; intros [|i]; cbn; try done. f_equal. apply IH. Qed.


Lemma rep_len X h n : harbor_rep X h n → length (h_s h) = 256%nat.
Proof. intros []. rewrite (Forall2_length _ _ _ hr_links0), hr_len0. done. Qed.

(** The slave and the link of harbor [i]. *)
Lemma rep_link X h n i :
  harbor_rep X h n → 0 <= i < REMOTE_MAX →
  ∃ s, zget (h_s h) i = Some s ∧ link_rep s (link_at n i) ∧ n_link n !! Z.to_nat i = Some (link_at n i).
Proof.
  intros Hr Hi. pose proof (rep_len _ _ _ Hr) as Hl. destruct Hr. unfold REMOTE_MAX in Hi.
  destruct (zget_is_Some (h_s h) i) as (s & Hs); [lia|]. exists s. split; [done|].
  apply zget_lookup in Hs as Hs'. destruct (Forall2_lookup_l _ _ _ _ _ hr_links0 Hs') as (l & Hl' & Hrep).
  unfold link_at. unfold zget. rewrite (proj2 (Z.leb_le _ _)) by lia. by rewrite Hl'.
Qed.

(** Calls are made and blocks change hands. *)
Lemma rep_env X X' h n calls live :
  harbor_rep X h n → owns live (X' ++ harbor_addrs h) →
  harbor_rep X' (with_env h (h_ctx h ++ calls) live) (log n calls).
Proof. intros [] Ho. split; cbn; try done. by rewrite hr_ctx0. Qed.

Lemma log_nil n : log n [] = n.
Proof. unfold log. cbn. rewrite app_nil_r. by destruct n. Qed.

(** Harbor [i] is given slave [s'], calls are made and blocks change hands. *)
Lemma rep_set_ctx X X' h n i s s' l' ctx live :
  harbor_rep X h n → zget (h_s h) i = Some s → link_rep s' l' →
  owns live (X' ++ slave_addrs s' ++ other_addrs h i) →
  harbor_rep X' (with_env (h <| h_s := <[Z.to_nat i := s']> (h_s h) |>) ctx live)
                ((set_link n i l') <| n_ctx := ctx |>).
Proof.
  intros [] Hs Hl Ho. apply zget_lookup in Hs as Hs'. pose proof (zget_Some_lt _ _ _ Hs) as Hi.
  split; cbn; try done.
  - by rewrite length_insert.
  - by apply Forall2_insert.
  - assert (Hs2 : zget (<[Z.to_nat i:=s']> (h_s h)) i = Some s').
    { unfold zget. rewrite (proj2 (Z.leb_le _ _)) by lia. apply list_lookup_insert_eq. lia. }
    set (h' := with_env (h <| h_s := <[Z.to_nat i := s']> (h_s h) |>) ctx live).
    change (owns live (X' ++ harbor_addrs h')). assert (E : other_addrs h' i = other_addrs h i).
    { unfold other_addrs. cbn. by rewrite delete_insert_same. }
    rewrite (addrs_split h' i s' Hs2), E. done.
Qed.

Lemma rep_set X X' h n i s s' l' calls live :
  harbor_rep X h n → zget (h_s h) i = Some s → link_rep s' l' →
  owns live (X' ++ slave_addrs s' ++ other_addrs h i) →
  harbor_rep X' (with_env (h <| h_s := <[Z.to_nat i := s']> (h_s h) |>) (h_ctx h ++ calls) live)
                (log (set_link n i l') calls).
Proof.
  intros Hr Hs Hl Ho. pose proof (rep_set_ctx X X' h n i s s' l' (h_ctx h ++ calls) live Hr Hs Hl Ho) as H.
  unfold log. cbn. by rewrite (hr_ctx _ _ _ Hr) in H at 2.
Qed.

(** A slave changes, nothing is called and nothing freed. *)
Lemma rep_set_quiet X X' h n i s s' l' :
  harbor_rep X h n → zget (h_s h) i = Some s → link_rep s' l' →
  X ++ slave_addrs s ≡ₚ X' ++ slave_addrs s' →
  harbor_rep X' (h <| h_s := <[Z.to_nat i := s']> (h_s h) |>) (set_link n i l').
Proof.
  intros Hr Hs Hl Hp.
  pose proof (rep_set X X' h n i s s' l' [] (h_live h) Hr Hs Hl) as H.
  rewrite log_nil, app_nil_r in H. unfold with_env in H. cbn in H.
  apply H. destruct Hr. rewrite (addrs_split _ _ _ Hs), app_assoc, Hp, <- app_assoc in hr_owns0. done.
Qed.

(** ** Sending *)

Lemma send_remote_ok h fd b sz ck L :
  owns (h_live h) (addr_of b ++ L) → buffer_ok b sz →
  send_remote fd b sz ck h
  = Ok (tt, with_env h (h_ctx h ++ remote_calls fd (ck, buffer_data b)) (h_live h)).
Proof.
  intros Ho Hb. pose proof (buffer_size _ _ Hb) as [Hsz Hlt]. unfold send_remote, remote_calls, encode. cbn [fst snd].
  unfold HEADER_COOKIE_LENGTH. rewrite u64_small, <- Hsz by lia. case_if; [by destruct h|].
  pstep (read_buffer_ok _ _ _ _ Ho Hb). by destruct h.
Qed.

(** A message of a queue is sent on and freed. *)
Lemma send_on_ok fd (g : remote_message_header → remote_message_header) h m ctx live L :
  msg_ok m → owns live (msg_addr m ++ L) →
  ∃ live', (send_remote fd (hm_buffer m) (hm_size m) (g (hm_header m));; skynet_free (hm_buffer m)) (with_env h ctx live)
           = Ok (tt, with_env h (ctx ++ remote_calls fd (g (hm_header m), buffer_data (hm_buffer m))) live')
    ∧ owns live' L.
Proof.
  intros Hm Ho. pstep (send_remote_ok (with_env h ctx live) fd _ _ (g (hm_header m)) _ Ho Hm).
  destruct (skynet_free_ok (with_env (with_env h ctx live)
     (ctx ++ remote_calls fd (g (hm_header m), buffer_data (hm_buffer m))) live) _ _ Ho) as (live' & Hf & Ho').
  exists live'. split; [|done]. exact Hf.
Qed.

Lemma fmap_bind_calls {A B C} (f : A → B) (g : B → list C) l : (f <$> l) ≫= g = l ≫= g ∘ f.
Proof. induction l as [|x l IH]; [done|]. rewrite fmap_cons, !bind_cons, IH. done. Qed.

Lemma holds_ok q l : queue_holds q l → Forall msg_ok l →
  oqueue_ok (Some q) ∧ queue_addrs (Some q) = l ≫= msg_addr ∧ abs_queue (Some q) = abs_msg <$> l.
Proof. intros Hq Hl. unfold oqueue_ok, queue_addrs, abs_queue. by rewrite !(queue_holds_msgs _ _ Hq). Qed.

Lemma drained_ok q : queue_holds q [] → oqueue_ok (Some q) ∧ queue_addrs (Some q) = [].
Proof. intros Hq. by destruct (holds_ok q [] Hq) as (? & ? & _). Qed.

Lemma dispatch_queue_ok h i s L :
  zget (h_s h) i = Some s → s_fd s ≠ 0 → oqueue_ok (s_queue s) →
  owns (h_live h) (queue_addrs (s_queue s) ++ L) →
  ∃ live, dispatch_queue i h
     = Ok (tt, with_env (h <| h_s := <[Z.to_nat i := s <| s_queue := None |>]> (h_s h) |>)
                        (h_ctx h ++ (abs_queue (s_queue s) ≫= remote_calls (s_fd s))) live)
    ∧ owns live L.
Proof.
  intros Hs Hfd Hq Ho. unfold dispatch_queue. pstep (get_slave_ok _ _ _ Hs).
  rewrite (proj2 (Z.eqb_neq _ _)) by done. destruct (s_queue s) as [q|] eqn:Eq; cbn [oqueue_ok queue_addrs abs_queue] in *.
  - destruct Hq as [Hq Hok].
    edestruct (pop_all_ok q _ (λ m, send_remote (s_fd s) (hm_buffer m) (hm_size m) (hm_header m);;
      skynet_free (hm_buffer m)) (remote_calls (s_fd s) ∘ abs_msg) h L Hq Hok Ho) as (q' & live & Hp & Ho' & Hq').
    { intros. by apply (send_on_ok (s_fd s) id). }
    pstep Hp. set (h1 := with_env h _ live) in *.
    destruct (release_queue_ok (Some q') h1 L) as (live' & Hrel & Ho'').
    { by apply drained_ok. }
    { by rewrite (proj2 (drained_ok _ Hq')). }
    pstep Hrel. exists live'. split; [|done]. rewrite (upd_slave_ok _ _ s) by done.
    cbn. rewrite fmap_bind_calls. done.
  - exists (h_live h). split; [|done]. cbn. rewrite app_nil_r. rewrite list_insert_id.
    + by destruct h.
    + rewrite (zget_lookup _ _ _ Hs). f_equal. destruct s; cbn in *; by subst.
Qed.

Lemma close_harbor_ok h i s L :
  zget (h_s h) i = Some s → s_fd s ≠ 0 → oqueue_ok (s_queue s) →
  owns (h_live h) (queue_addrs (s_queue s) ++ L) →
  ∃ live, close_harbor i h
     = Ok (tt, with_env (h <| h_s := <[Z.to_nat i := s <| s_status := STATUS_DOWN |> <| s_queue := None |>]> (h_s h) |>)
                        (h_ctx h ++ [Csocket_close (s_fd s)]) live)
    ∧ owns live L.
Proof.
  intros Hs Hfd Hq Ho. unfold close_harbor. pstep (upd_slave_ok h i s (λ s, s <| s_status := STATUS_DOWN |>) Hs).
  set (s1 := s <| s_status := STATUS_DOWN |>). set (h1 := h <| h_s := _ |>).
  assert (Hs1 : zget (h_s h1) i = Some s1).
  { apply (zget_zset_eq (h_s h)). apply zset_Some. by apply zget_Some_lt with s. }
  pstep (get_slave_ok _ _ _ Hs1).
  assert (Hc : (if c_true (s_fd s1) then call (Csocket_close (s_fd s1)) else mret tt) h1
               = Ok (tt, h1 <| h_ctx := h_ctx h1 ++ [Csocket_close (s_fd s)] |>)).
  { unfold c_true. cbn [s_fd s1]. rewrite (proj2 (Z.eqb_neq _ _)) by done. done. }
  pstep Hc. set (h2 := h1 <| h_ctx := _ |>).
  change (s_queue s1) with (s_queue s). destruct (s_queue s) as [q|] eqn:Eq.
  - destruct (release_queue_ok (Some q) h2 L Hq Ho) as (live & Hrel & Ho'). exists live. split; [|done].
    pstep Hrel. rewrite (upd_slave_ok _ _ s1) by done. cbn -[insert]. by rewrite list_insert_insert_eq.
  - exists (h_live h). split; [|done].
    replace (s1 <| s_queue := None |>) with s1 by (unfold s1; destruct s; cbn in *; by subst).
    by destruct h.
Qed.

Section refinement.
Context (send_returns : list harbor_call → Z).

Lemma send_dontcopy_ok h source destination type session b sz L :
  owns (h_live h) (addr_of b ++ L) → 0 <= sz <= Z.of_nat (length (buffer_data b)) →
  ∃ live, skynet_send_dontcopy send_returns source destination type session b sz h
     = (let ctx := h_ctx h ++ [Csend source destination (Z.lor type PTYPE_TAG_DONTCOPY) session
                                     (take (Z.to_nat sz) (buffer_data b))] in
        Ok (send_returns ctx, with_env h ctx live))
    ∧ owns live L.
Proof.
  intros Ho Hb. unfold skynet_send_dontcopy. pstep (read_buffer_prefix _ _ _ _ Ho Hb).
  destruct (skynet_free_ok _ _ _ Ho) as (live & Hf & Ho'). exists live. split; [|done]. pstep Hf. done.
Qed.

Lemma from_bigendian_some (s : bytes) : (4 <= length s)%nat → ∃ x, from_bigendian s = Some x.
Proof. intros Hs. destruct s as [|? [|? [|? [|? s]]]]; cbn in Hs; try lia. by eexists. Qed.

Lemma message_to_header_some (s : bytes) : length s = 12%nat → ∃ hd, message_to_header s = Some hd.
Proof.
  intros Hs. unfold message_to_header.
  destruct (from_bigendian_some s) as (x & ->); [lia|].
  destruct (from_bigendian_some (drop 4 s)) as (y & ->); [rewrite length_drop; lia|].
  destruct (from_bigendian_some (drop 8 s)) as (z & ->); [rewrite length_drop; lia|]. by eexists.
Qed.

Lemma mapM_Some_fmap {A} (l : list A) : mapM id (Some <$> l) = Some l.
Proof. induction l as [|x l IH]; [done|]. cbn. cbn in IH. by rewrite IH. Qed.

(** A complete package is handed to the node. *)
Lemma forward_local_ok h p package L :
  (12 <= length package)%nat → Z.of_nat (length package) < 2 ^ 62 → owns (h_live h) (p :: L) →
  ∃ live, forward_local_message send_returns (p, Some <$> package) (Z.of_nat (length package)) h
     = Ok (tt, with_env h (deliver send_returns (h_id h) (h_ctx h) package) live)
    ∧ owns live L.
Proof.
  intros Hlen Hlt Ho. unfold forward_local_message, HEADER_COOKIE_LENGTH. rewrite (proj2 (Z.ltb_ge _ _)) by lia.
  cbn [fst snd]. rewrite (need_bind _ _ _ _ (mapM_Some_fmap package)).
  set (len := (length package - 12)%nat).
  assert (Hc : copy_out package (Z.of_nat (length package) - 12) 12 = Some (drop len package)).
  { rewrite copy_out_spec by lia. unfold len.
    replace (Z.to_nat (Z.of_nat (length package) - 12)) with (length package - 12)%nat by lia.
    rewrite take_ge by (rewrite length_drop; lia). done. }
  rewrite (need_bind _ _ _ _ Hc).
  destruct (message_to_header_some (drop len package)) as (hd & Hhd); [rewrite length_drop; lia|].
  rewrite (need_bind _ _ _ _ Hhd), get_bind. unfold deliver. fold len. rewrite Hhd. cbn [default].
  set (type := Z.shiftr _ _). set (destination := u32 _).
  destruct (send_dontcopy_ok h (rh_source hd) destination type (i32 (rh_session hd))
    (Some (mkBlock p package)) (Z.of_nat (length package) - 12) L Ho) as (live & Hs & Ho'); [cbn; lia|].
  replace (Z.to_nat (Z.of_nat (length package) - 12)) with len in Hs by lia.
  exists live. split; [|done]. cbn [buffer_data b_data] in Hs. pstep Hs.
  destruct (send_returns _ <? 0); [|done].
  destruct (type =? PTYPE_ERROR); cbn [negb]; unfold skynet_send, skynet_error, call; prun; rewrite <- ?app_assoc; done.
Qed.

(** ** Cutting the stream *)

Definition header_length (b1 b2 b3 : Z) : nat := Z.to_nat (b1 * 65536 + b2 * 256 + b3).

Lemma cut_stream_step fuel b0 b1 b2 b3 body :
  cut_stream (S fuel) (b0 :: b1 :: b2 :: b3 :: body)
  = if negb (b0 =? 0) then ([], TooLong)
    else if (length body =? 0)%nat || (length body <? header_length b1 b2 b3)%nat
    then ([], Rest (b0 :: b1 :: b2 :: b3 :: body))
    else if (header_length b1 b2 b3 <? 12)%nat then ([], TooShort)
    else let '(ps, e) := cut_stream fuel (drop (header_length b1 b2 b3) body) in
         (take (header_length b1 b2 b3) body :: ps, e).
Proof. done. Qed.

Lemma cut_stream_fuel fuel s : (length s <= fuel)%nat → cut_stream fuel s = cut s.
Proof.
  unfold cut. revert s. induction fuel as [fuel IH] using lt_wf_ind. intros s Hs.
  destruct s as [|b0 [|b1 [|b2 [|b3 body]]]]; try (by destruct fuel).
  destruct fuel as [|fuel]; [cbn in Hs; lia|]. cbn [length] in *. rewrite !cut_stream_step.
  set (len := header_length b1 b2 b3).
  rewrite (IH fuel), (IH (S (S (S (length body))))) by (rewrite ?length_drop; lia). done.
Qed.

Lemma cut_unfold b0 b1 b2 b3 body :
  cut (b0 :: b1 :: b2 :: b3 :: body)
  = if negb (b0 =? 0) then ([], TooLong)
    else if (length body =? 0)%nat || (length body <? header_length b1 b2 b3)%nat
    then ([], Rest (b0 :: b1 :: b2 :: b3 :: body))
    else if (header_length b1 b2 b3 <? 12)%nat then ([], TooShort)
    else let '(ps, e) := cut (drop (header_length b1 b2 b3) body) in (take (header_length b1 b2 b3) body :: ps, e).
Proof.
  unfold cut at 1. cbn [length]. rewrite cut_stream_step.
  rewrite cut_stream_fuel by (rewrite length_drop; lia). done.
Qed.

Lemma cut_partial s : (length s < 4)%nat → cut s = ([], Rest s).
Proof. intros Hs. destruct s as [|? [|? [|? [|? s]]]]; try done. cbn in Hs. lia. Qed.

Lemma cut_wait b1 b2 b3 body :
  (length body < header_length b1 b2 b3)%nat ∨ body = [] →
  cut (0 :: b1 :: b2 :: b3 :: body) = ([], Rest (0 :: b1 :: b2 :: b3 :: body)).
Proof.
  intros Hb. rewrite cut_unfold. cbn [Z.eqb negb]. destruct Hb as [Hb| ->]; [|done].
  rewrite (proj2 (Nat.ltb_lt _ _) Hb), orb_true_r. done.
Qed.

Lemma cut_package b1 b2 b3 body :
  (header_length b1 b2 b3 <= length body)%nat → body ≠ [] →
  cut (0 :: b1 :: b2 :: b3 :: body)
  = if (header_length b1 b2 b3 <? 12)%nat then ([], TooShort)
    else let '(ps, e) := cut (drop (header_length b1 b2 b3) body) in (take (header_length b1 b2 b3) body :: ps, e).
Proof.
  intros Hb Hne. rewrite cut_unfold. cbn [Z.eqb negb]. destruct body; [done|].
  rewrite (proj2 (Nat.ltb_ge _ _) Hb). done.
Qed.

Lemma set_link_twice n i a b : set_link (set_link n i a) i b = set_link n i b.
Proof. unfold set_link. cbn. by rewrite list_insert_insert_eq. Qed.

Lemma link_at_set X h n i l : harbor_rep X h n → 0 <= i < REMOTE_MAX → link_at (set_link n i l) i = l.
Proof.
  intros [] Hi. unfold link_at, set_link, zget. cbn. rewrite (proj2 (Z.leb_le _ _)) by lia.
  rewrite list_lookup_insert_eq; [done|]. unfold REMOTE_MAX in *. lia.
Qed.

(** Only the stream counts, not what the link held before. *)
Lemma net_stream_set n id fd l s : net_stream send_returns (set_link n id l) id fd s = net_stream send_returns n id fd s.
Proof.
  unfold net_stream. destruct (cut s) as [ps []]; unfold log, set_link; cbn -[insert]; by rewrite ?list_insert_insert_eq.
Qed.

Lemma net_stream_set_ctx n id fd l ctx s :
  net_stream send_returns ((set_link n id l) <| n_ctx := ctx |>) id fd s
  = net_stream send_returns (n <| n_ctx := ctx |>) id fd s.
Proof.
  unfold net_stream. destruct (cut s) as [ps []]; unfold log, set_link; cbn -[insert]; by rewrite ?list_insert_insert_eq.
Qed.

Lemma net_stream_package n id fd s package rest :
  cut s = (let '(ps, e) := cut rest in (package :: ps, e)) →
  net_stream send_returns n id fd s
  = net_stream send_returns (n <| n_ctx := deliver send_returns (n_id n) (n_ctx n) package |>) id fd rest.
Proof. intros Hs. unfold net_stream. rewrite Hs. by destruct (cut rest) as [ps e]. Qed.

Lemma be24 b1 b2 b3 :
  is_byte b1 → is_byte b2 → is_byte b3 →
  Z.lor (Z.lor (Z.shiftl b1 16) (Z.shiftl b2 8)) b3 = b1 * 65536 + b2 * 256 + b3.
Proof.
  unfold is_byte. intros. rewrite !Z.shiftl_mul_pow2 by lia.
  rewrite (Z.lor_comm (b1 * 2 ^ 16)), (lor_add_high (b2 * 2 ^ 8) b1 16) by lia.
  replace (b2 * 2 ^ 8 + b1 * 2 ^ 16) with ((b2 + b1 * 2 ^ 8) * 2 ^ 8) by lia.
  rewrite Z.lor_comm, lor_add_high by lia. lia.
Qed.
End refinement.
