(* ===== verification/HarborStream.v ===== *)
(** * The byte streams of the harbor links

    The loop of [push_socket_data], which cuts the data of a link into packages
    across calls, against the abstract service of HarborNet.v. *)

From stdpp Require Import prelude list gmap list_numbers strings infinite.
From S2P Require Import Prelude Skynet Handle CString Harbor HarborRep HarborNet.

#[local] Arguments str : simpl never.
#[local] Arguments print_d : simpl never.

Section stream.
Context (send_returns : list harbor_call → Z).

Lemma memcpy_cells_ok (got data : bytes) len n :
  (length got + n <= len)%nat → (n <= length data)%nat →
  memcpy_cells ((Some <$> got) ++ replicate (len - length got) None) (Z.of_nat (length got)) data (Z.of_nat n)
  = Some ((Some <$> got ++ take n data) ++ replicate (len - (length got + n)) None).
Proof.
  intros Hn Hd. unfold memcpy_cells. rewrite length_app, length_fmap, length_replicate.
  rewrite !(proj2 (Z.leb_le _ _)) by lia. cbn [andb]. f_equal.
  rewrite !Nat2Z.id, <- Nat2Z.inj_add, Nat2Z.id.
  rewrite take_app_le, take_ge by (rewrite length_fmap; lia).
  rewrite drop_app_ge, length_fmap, drop_replicate by (rewrite length_fmap; lia).
  rewrite fmap_app, <- app_assoc. do 3 f_equal. lia.
Qed.

(** How a [case] of the loop compares with the stream [s] of the abstract
    service: it returns when the abstract service is done, or leaves fewer bytes
    than [k] for the next pass. *)
Definition flow_ok (X : list positive) (n : net) (id fd : Z) (s : bytes) (k : nat) (r : result (flow * harbor)) : Prop :=
  match r with
  | Ok (Return, h) => ∃ n', net_stream send_returns n id fd s = Ok n' ∧ harbor_rep X h n'
  | Ok (Break buffer, h) =>
      buffer ≠ [] ∧ (length buffer < k)%nat ∧ Forall is_byte buffer
      ∧ ∃ n', net_stream send_returns n id fd s = net_stream send_returns n' id fd buffer
            ∧ harbor_rep X h n' ∧ link_at n' id = Open fd []
  | Bad f => net_stream send_returns n id fd s = Bad f
  end.

Lemma flow_ok_mono X n id fd s k k' r : (k <= k')%nat → flow_ok X n id fd s k r → flow_ok X n id fd s k' r.
Proof.
  intros Hk. destruct r as [[[|buffer] h]|]; cbn; try done. intros (? & ? & ? & ?). split_and!; try done. lia.
Qed.

Section content.
Context (X : list positive) (h : harbor) (n : net) (id fd : Z) (s : slave).
Context (Hr : harbor_rep X h n) (Hid : 0 < id < REMOTE_MAX) (Hs : zget (h_s h) id = Some s).
Context (Hl : link_rep s (link_at n id)).

(** A complete package is handed on, and the link is ready for the next one. *)
Lemma content_delivered p cells package stream data k :
  s_recv_buffer s = Some (p, cells) → s_fd s = fd → fd ≠ 0 → s_queue s = None →
  length (s_size s) = 4%nat → Forall is_byte (s_size s) →
  (12 <= length package)%nat → Z.of_nat (length package) < 2 ^ 24 → (k <= length data)%nat → (k = length data ∨ 1 <= k)%nat →
  cut stream = (let '(ps, e) := cut (drop k data) in (package :: ps, e)) → Forall is_byte data →
  flow_ok X n id fd stream (length data)
    ((forward_local_message send_returns (p, Some <$> package) (Z.of_nat (length package));;
      upd_slave id (λ s, s <| s_length := 0 |> <| s_read := 0 |> <| s_recv_buffer := None |>
                           <| s_status := STATUS_HEADER |>);;
      if Z.of_nat (length data) - Z.of_nat k =? 0 then mret Return else mret (Break (drop k data))) h).
Proof.
  intros Hrecv Hfd Hfd0 Hq Hl4 Hby Hlong Hlt Hk Hk1 Hcut Hb.
  assert (Ho : owns (h_live h) (p :: X ++ other_addrs h id)).
  { pose proof (hr_owns _ _ _ Hr) as Ho. rewrite (addrs_split _ _ _ Hs) in Ho. unfold slave_addrs in Ho.
    rewrite Hq, Hrecv in Ho. cbn in Ho. by rewrite Permutation_middle. }
  destruct (forward_local_ok send_returns h p package _ ltac:(lia) ltac:(lia) Ho) as (live & Hf & Ho').
  remember (deliver send_returns (h_id h) (h_ctx h) package) as ctx eqn:Ectx.
  pstep Hf. set (h1 := with_env h ctx live).
  pstep (upd_slave_ok h1 id s (λ s, s <| s_length := 0 |> <| s_read := 0 |> <| s_recv_buffer := None |>
                     <| s_status := STATUS_HEADER |>) Hs).
  set (s' := s <| s_length := 0 |> <| s_read := 0 |> <| s_recv_buffer := None |> <| s_status := STATUS_HEADER |>).
  assert (Hrep : harbor_rep X (with_env (h <| h_s := <[Z.to_nat id := s']> (h_s h) |>) ctx live)
                   ((set_link n id (Open fd [])) <| n_ctx := ctx |>)).
  { eapply rep_set_ctx; [exact Hr|exact Hs| |].
    - split_and!; try done; cbn; [by rewrite Hq|]. by apply in_header.
    - unfold slave_addrs, s'. cbn. by rewrite Hq. }
  assert (Hn : net_stream send_returns n id fd stream
               = net_stream send_returns ((set_link n id (Open fd [])) <| n_ctx := ctx |>) id fd (drop k data)).
  { rewrite (net_stream_package _ _ _ _ _ _ _ Hcut), <- (hr_id _ _ _ Hr), <- (hr_ctx _ _ _ Hr).
    by rewrite net_stream_set_ctx, Ectx. }
  case_if.
  - eexists. split; [|exact Hrep]. rewrite Hn, net_stream_set_ctx.
    replace (drop k data) with (@nil Z) by (symmetry; apply drop_ge; lia). done.
  - split_and!; [|rewrite length_drop; lia|by apply Forall_drop|].
    { intros E%(f_equal length). rewrite length_drop in E. cbn in E. lia. }
    eexists. split; [exact Hn|]. split; [exact Hrep|].
    exact (link_at_set X h n id (Open fd []) Hr ltac:(lia)).
Qed.

Lemma case_content_ok p got b1 b2 b3 data :
  link_at n id = Open fd (s_size s ++ got) →
  s_status s = STATUS_CONTENT → s_size s = [0; b1; b2; b3] →
  s_length s = b1 * 65536 + b2 * 256 + b3 → s_read s = Z.of_nat (length got) →
  s_recv_buffer s = Some (p, (Some <$> got) ++ replicate (Z.to_nat (s_length s) - length got) None) →
  s_read s < s_length s ∨ got = [] →
  data ≠ [] → Forall is_byte data →
  flow_ok X n id fd ((s_size s ++ got) ++ data) (length data) (case_content send_returns id data h).
Proof.
  intros El Hst Hsz Hlen Hread Hrecv Hgot Hne Hb.
  assert (Hlen' : Z.to_nat (s_length s) = header_length b1 b2 b3) by (by rewrite Hlen).
  assert (H0 : 0 <= s_length s < 2 ^ 24).
  { destruct Hl as (_ & _ & Hby & _). rewrite Hsz, !Forall_cons in Hby. unfold is_byte in *. lia. }
  set (len := header_length b1 b2 b3) in *.
  unfold case_content. pstep (get_slave_ok _ _ _ Hs). rewrite (need_bind _ _ _ _ Hrecv).
  rewrite Hread, Hlen' in *. rewrite Hsz, <- app_assoc. cbn [app].
  pose proof Hl as Hl'. rewrite El in Hl'. destruct Hl' as (Hfd & Hl4 & Hby & _ & Hfd0 & Hq & _). cbn in Hfd.
  case_if.
  - (* the package is still incomplete *)
    rewrite (need_bind _ _ _ _ (memcpy_cells_ok got data len (length data) ltac:(lia) ltac:(lia))).
    pstep (upd_slave_ok h id s (λ s, s <| s_recv_buffer := Some (p, (Some <$> got ++ take (length data) data)
      ++ replicate (len - (length got + length data)) None) |> <| s_read := s_read s + Z.of_nat (length data) |>) Hs).
    rewrite (take_ge data) by done. exists (set_link n id (Open fd (0 :: b1 :: b2 :: b3 :: got ++ data))). split.
    + unfold net_stream. rewrite cut_wait by (left; fold len; rewrite length_app; lia). cbn. by destruct n.
    + eapply rep_set_quiet; [exact Hr|exact Hs| |].
      * split_and!; try done; cbn; [by rewrite Hq|].
        apply (in_content _ _ p (got ++ data) b1 b2 b3); cbn; rewrite ?length_app, ?Hlen', ?Hsz; done || lia.
      * unfold slave_addrs. cbn. by rewrite Hq, Hrecv.
  - (* it is complete *)
    assert (Hgl : (length got <= len)%nat) by (destruct Hgot as [?|Hg]; [|rewrite Hg; cbn]; lia).
    set (k := (len - length got)%nat). assert (Hk : s_length s - Z.of_nat (length got) = Z.of_nat k) by lia.
    rewrite Hk, (need_bind _ _ _ _ (memcpy_cells_ok got data len k ltac:(lia) ltac:(lia))).
    replace (len - (length got + k))%nat with 0%nat by lia. cbn [replicate]. rewrite app_nil_r.
    set (package := got ++ take k data).
    assert (Hpl : length package = len) by (unfold package; rewrite length_app, length_take; lia).
    assert (Hbody : got ++ data = package ++ drop k data) by (unfold package; by rewrite <- app_assoc, take_drop).
    assert (Hcut : cut (0 :: b1 :: b2 :: b3 :: got ++ data) =
      if (len <? 12)%nat then ([], TooShort)
      else let '(ps, e) := cut (drop k data) in (package :: ps, e)).
    { rewrite cut_package by (fold len; rewrite ?length_app; destruct data; cbn in *; try done; lia || (by destruct got)).
      fold len. rewrite Hbody, take_app_length', drop_app_length' by done. done. }
    unfold forward_local_message at 1.
    revert Hcut. destruct (Nat.ltb_spec len 12) as [Hshort|Hlong]; intros Hcut.
    + rewrite (proj2 (Z.ltb_lt _ _)) by (unfold HEADER_COOKIE_LENGTH; lia).
      unfold flow_ok, mbind, prog_bind, bad, net_stream. by rewrite Hcut.
    + fold (forward_local_message send_returns (p, Some <$> package) (s_length s)).
      replace (s_length s) with (Z.of_nat (length package)) by lia.
      rewrite Nat2Z.id. eapply content_delivered; try done; try lia.
      unfold k. destruct Hgot as [?|Hg]; [|rewrite Hg; cbn]; lia.
Qed.
End content.

Section header.
Context (X : list positive) (h : harbor) (n : net) (id fd : Z) (s : slave).
Context (Hr : harbor_rep X h n) (Hid : 0 < id < REMOTE_MAX) (Hs : zget (h_s h) id = Some s).
Context (Hl : link_rep s (link_at n id)).

(** A link is refused: the error is reported and the descriptor closed. *)
Lemma refuse_ok (s1 : slave) text :
  s_fd s1 = fd → fd ≠ 0 → oqueue_ok (s_queue s1) → queue_addrs (s_queue s1) = queue_addrs (s_queue s) →
  s_recv_buffer s1 = None → s_recv_buffer s = None → length (s_size s1) = 4%nat → Forall is_byte (s_size s1) →
  ∃ h', (skynet_error text;; close_harbor id;; mret Return) (h <| h_s := <[Z.to_nat id := s1]> (h_s h) |>)
        = Ok (Return, h')
    ∧ harbor_rep X h' (log (set_link n id (Down fd)) [Cerror text; Csocket_close fd]).
Proof.
  intros Hfd Hfd0 Hq Hqa Hrecv1 Hrecv Hl4 Hby.
  set (h1 := (h <| h_s := <[Z.to_nat id := s1]> (h_s h) |>) <| h_ctx := h_ctx h ++ [Cerror text] |>).
  assert (Hs1 : zget (h_s h1) id = Some s1).
  { apply (zget_zset_eq (h_s h)). apply zset_Some. by apply zget_Some_lt with s. }
  assert (Ho : owns (h_live h1) (queue_addrs (s_queue s1) ++ X ++ other_addrs h id)).
  { pose proof (hr_owns _ _ _ Hr) as Ho. rewrite (addrs_split _ _ _ Hs) in Ho. unfold slave_addrs in Ho.
    rewrite Hrecv, app_nil_r, <- Hqa in Ho. cbn. by rewrite Permutation_app_swap_app. }
  destruct (close_harbor_ok h1 id s1 _ Hs1 ltac:(congruence) Hq Ho) as (live & Hc & Ho').
  eexists. split.
  { assert (He : skynet_error text (h <| h_s := <[Z.to_nat id := s1]> (h_s h) |>) = Ok (tt, h1)) by done.
    pstep He. pstep Hc. done. }
  set (s2 := s1 <| s_status := STATUS_DOWN |> <| s_queue := None |>).
  assert (Hrep : harbor_rep X (with_env (h <| h_s := <[Z.to_nat id := s2]> (h_s h) |>)
                                 (h_ctx h ++ [Cerror text; Csocket_close fd]) live)
                   (log (set_link n id (Down fd)) [Cerror text; Csocket_close fd])).
  { eapply rep_set; [exact Hr|exact Hs| |].
    - by split_and!.
    - unfold slave_addrs, s2. cbn. by rewrite Hrecv1. }
  revert Hrep. unfold with_env, h1. cbn -[insert]. by rewrite list_insert_insert_eq, <- app_assoc, Hfd.
Qed.

(** The length of a package is complete: the receive buffer is allocated. *)
Lemma begin_content_ok b1 b2 b3 data :
  s_fd s = fd → fd ≠ 0 → s_queue s = None → s_recv_buffer s = None →
  is_byte b1 → is_byte b2 → is_byte b3 → Forall is_byte data →
  let len := Z.lor (Z.lor (Z.shiftl b1 16) (Z.shiftl b2 8)) b3 in
  flow_ok X n id fd (0 :: b1 :: b2 :: b3 :: data) (S (length data))
    ((blk ← skynet_malloc len;
      upd_slave id (λ s, s <| s_length := len |> <| s_read := 0 |> <| s_recv_buffer := Some blk |>
                           <| s_status := STATUS_CONTENT |>);;
      if Z.of_nat (length data) =? 0 then mret Return else case_content send_returns id data)
     (h <| h_s := <[Z.to_nat id := s <| s_size := [0; b1; b2; b3] |>]> (h_s h) |>)).
Proof.
  intros Hfd Hfd0 Hq Hrecv H1 H2 H3 Hb len. unfold len. rewrite be24 by done. clear len.
  set (len := b1 * 65536 + b2 * 256 + b3). set (s1 := s <| s_size := _ |>). set (h1 := h <| h_s := _ |>).
  assert (Hs1 : zget (h_s h1) id = Some s1).
  { apply (zget_zset_eq (h_s h)). apply zset_Some. by apply zget_Some_lt with s. }
  assert (Ho : owns (h_live h1) (X ++ other_addrs h id)).
  { pose proof (hr_owns _ _ _ Hr) as Ho. rewrite (addrs_split _ _ _ Hs) in Ho. unfold slave_addrs in Ho.
    by rewrite Hrecv, Hq in Ho. }
  destruct (skynet_malloc_ok h1 len _ Ho) as (p & live & Hm & Ho'). pstep Hm.
  set (f := λ s, s <| s_length := len |> <| s_read := 0 |> <| s_recv_buffer := _ |> <| s_status := STATUS_CONTENT |>).
  pstep (upd_slave_ok (with_env h1 (h_ctx h1) live) id s1 f Hs1).
  assert (Hrep : harbor_rep X ((with_env h1 (h_ctx h1) live) <| h_s := <[Z.to_nat id := f s1]> (h_s h1) |>)
                   (set_link n id (Open fd [0; b1; b2; b3]))).
  { pose proof (rep_set X X h n id s (f s1) (Open fd [0; b1; b2; b3]) [] live Hr Hs) as H.
    rewrite log_nil, app_nil_r in H. unfold with_env, h1 in *. cbn -[insert f] in *. rewrite list_insert_insert_eq.
    apply H.
    - split_and!; try done; cbn; [|by rewrite Hq|].
      { rewrite !Forall_cons, Forall_nil. unfold is_byte in *. lia. }
      apply (in_content _ _ p [] b1 b2 b3); cbn; try done; [|by right]. by rewrite Nat.sub_0_r.
    - unfold slave_addrs, f, s1. cbn. rewrite Hq. cbn. by rewrite <- Permutation_middle. }
  case_if.
  - destruct data; [|done]. eexists. split; [|exact Hrep]. unfold net_stream.
    rewrite cut_wait by (by right). cbn. by destruct n.
  - set (h2 := (with_env h1 _ live) <| h_s := _ |>) in *. set (n2 := set_link n id _) in *.
    destruct (rep_link _ _ _ id Hrep ltac:(lia)) as (s2 & Hs2 & Hl2 & _).
    assert (E2 : s2 = f s1).
    { assert (zget (h_s h2) id = Some (f s1)); [|congruence]. apply (zget_zset_eq (h_s h1)). apply zset_Some.
      by apply zget_Some_lt with s1. }
    subst s2. assert (Hc : flow_ok X n2 id fd ((s_size (f s1) ++ []) ++ data) (length data)
                              (case_content send_returns id data h2)).
    { apply (case_content_ok X h2 n2 id fd (f s1) Hrep Hid Hs2 Hl2 p [] b1 b2 b3); try done.
      - exact (link_at_set X h n id _ Hr ltac:(lia)).
      - cbn. by rewrite Nat.sub_0_r.
      - by right.
      - by intros ->. }
    cbn in Hc. unfold flow_ok in *. unfold n2 in Hc. rewrite net_stream_set in Hc.
    destruct (case_content _ _ _ _) as [[[|buffer] h3]|]; [done| |done].
    destruct Hc as (? & ? & ? & Hc). split_and!; try done. lia.
Qed.

(** All bytes of the length are there: the link is refused or the content begins. *)
Lemma header_done_ok b0 b1 b2 b3 data :
  s_fd s = fd → fd ≠ 0 → s_queue s = None → s_recv_buffer s = None →
  Forall is_byte [b0; b1; b2; b3] → Forall is_byte data →
  let len := Z.lor (Z.lor (Z.shiftl b1 16) (Z.shiftl b2 8)) b3 in
  flow_ok X n id fd (b0 :: b1 :: b2 :: b3 :: data) (S (length data))
    ((if negb (b0 =? 0) then
        skynet_error (str "Message is too long from harbor " ++ print_d id);; close_harbor id;; mret Return
      else
        blk ← skynet_malloc len;
        upd_slave id (λ s, s <| s_length := len |> <| s_read := 0 |> <| s_recv_buffer := Some blk |>
                             <| s_status := STATUS_CONTENT |>);;
        if Z.of_nat (length data) =? 0 then mret Return else case_content send_returns id data)
     (h <| h_s := <[Z.to_nat id := s <| s_size := [b0; b1; b2; b3] |>]> (h_s h) |>)).
Proof.
  intros Hfd Hfd0 Hq Hrecv Hbs Hb len. destruct (b0 =? 0) eqn:E0; cbn [negb].
  - bool_prop. subst b0. rewrite !Forall_cons in Hbs. destruct Hbs as (_ & ? & ? & ? & _).
    by apply begin_content_ok.
  - destruct (refuse_ok (s <| s_size := [b0; b1; b2; b3] |>) (str "Message is too long from harbor " ++ print_d id))
      as (h' & Hrun & Hrep); try done; [cbn; by rewrite Hq|].
    rewrite Hrun. eexists. split; [|exact Hrep]. unfold net_stream. rewrite cut_unfold, E0. cbn. by destruct n.
Qed.

(** The length of a package arrives. *)
Lemma case_header_ok rest data :
  link_at n id = Open fd rest →
  s_status s = STATUS_HEADER → s_recv_buffer s = None → 0 <= s_read s < 4 →
  rest = take (Z.to_nat (s_read s)) (s_size s) → Forall is_byte data →
  flow_ok X n id fd (rest ++ data) (length data) (case_header send_returns id data h).
Proof.
  intros El Hst Hrecv Hread Hrest Hb.
  pose proof Hl as Hl'. rewrite El in Hl'. destruct Hl' as (Hfd & Hl4 & Hby & _ & Hfd0 & Hq & _). cbn in Hfd.
  set (r := Z.to_nat (s_read s)) in *. assert (Hlr : length rest = r) by (rewrite Hrest, length_take; lia).
  unfold case_header. pstep (get_slave_ok _ _ _ Hs).
  assert (Hcopy : ∀ k, (r + k <= 4)%nat → (k <= length data)%nat →
    memcpy_to (s_size s) (s_read s) data (Z.of_nat k) = Some (rest ++ take k data ++ drop (r + k) (s_size s))).
  { intros k Hk Hkd. rewrite memcpy_to_spec by lia. fold r. rewrite Nat2Z.id, Hrest. do 4 f_equal. lia. }
  case_if.
  - rewrite (need_bind _ _ _ _ (Hcopy (length data) ltac:(lia) ltac:(lia))), (take_ge data) by done.
    set (size := rest ++ data ++ drop (r + length data) (s_size s)).
    pstep (upd_slave_ok h id s (λ s, s <| s_size := size |> <| s_read := s_read s + Z.of_nat (length data) |>) Hs).
    exists (set_link n id (Open fd (rest ++ data))). split.
    + unfold net_stream. rewrite cut_partial by (rewrite length_app; lia). cbn. by destruct n.
    + eapply rep_set_quiet; [exact Hr|exact Hs| |].
      * split_and!; try done; cbn.
        -- unfold size. rewrite !length_app, length_drop. lia.
        -- unfold size. rewrite Hrest. apply Forall_app; split; [by apply Forall_take|].
           apply Forall_app; split; [done|by apply Forall_drop].
        -- by rewrite Hq.
        -- apply in_header; cbn; try done; [lia|]. unfold size. rewrite app_assoc, take_app_length'; [done|].
           rewrite length_app. lia.
      * unfold slave_addrs. cbn. by rewrite Hq, Hrecv.
  - set (k := (4 - r)%nat). assert (Hk : 4 - s_read s = Z.of_nat k) by lia.
    rewrite Hk, (need_bind _ _ _ _ (Hcopy k ltac:(lia) ltac:(lia))), Nat2Z.id.
    rewrite (drop_ge (s_size s)), app_nil_r by lia.
    assert (Hsize : ∃ b0 b1 b2 b3, rest ++ take k data = [b0; b1; b2; b3]).
    { assert (E : length (rest ++ take k data) = 4%nat) by (rewrite length_app, length_take; lia).
      destruct (rest ++ take k data) as [|b0 [|b1 [|b2 [|b3 []]]]]; try done. by eexists _, _, _, _. }
    destruct Hsize as (b0 & b1 & b2 & b3 & Esz).
    assert (Hbs : Forall is_byte [b0; b1; b2; b3]).
    { rewrite <- Esz, Hrest. apply Forall_app; split; by apply Forall_take. }
    assert (Hst' : rest ++ data = b0 :: b1 :: b2 :: b3 :: drop k data).
    { rewrite <- (take_drop k data) at 1. by rewrite app_assoc, Esz. }
    rewrite Esz, Hst'.
    pstep (upd_slave_ok h id s (λ s, s <| s_size := [b0; b1; b2; b3] |>) Hs).
    rewrite !need_bind with (a := b0) by done.
    rewrite !need_bind with (a := b1) by done.
    rewrite !need_bind with (a := b2) by done.
    rewrite !need_bind with (a := b3) by done.
    replace (Z.of_nat (length data) - Z.of_nat k) with (Z.of_nat (length (drop k data))) by (rewrite length_drop; lia).
    apply (flow_ok_mono _ _ _ _ _ (S (length (drop k data)))); [rewrite length_drop; lia|].
    apply header_done_ok; try done. by apply Forall_drop.
Qed.
End header.

(** A program of the service does what the abstract service says. *)
Definition simulates (X : list positive) (r : result (unit * harbor)) (spec : result net) : Prop :=
  match spec with
  | Ok n => ∃ h, r = Ok (tt, h) ∧ harbor_rep X h n
  | Bad f => r = Bad f
  end.

(** The rest of a pass through the loop, when the next passes are right. *)
Lemma flow_loop_ok fuel X n id fd s k (body : prog flow) h :
  (∀ h n buffer, harbor_rep X h n → link_at n id = Open fd [] → buffer ≠ [] → Forall is_byte buffer →
     (length buffer < fuel)%nat →
     simulates X (push_loop send_returns fuel id fd buffer h) (net_stream send_returns n id fd buffer)) →
  flow_ok X n id fd s k (body h) → (k <= fuel)%nat →
  simulates X ((r ← body; match r with Return => mret tt | Break buffer => push_loop send_returns fuel id fd buffer end) h)
    (net_stream send_returns n id fd s).
Proof.
  intros Hnext Hflow Hk. destruct (body h) as [[[|buffer] h1]|f] eqn:E; cbn in Hflow.
  - destruct Hflow as (n' & -> & Hr'). exists h1. split; [|done]. by pstep E.
  - destruct Hflow as (Hbuf & Hlen & Hbb & n' & -> & Hr' & El'). pstep E. apply Hnext; auto with lia.
  - unfold simulates. rewrite Hflow. unfold mbind, prog_bind. by rewrite E.
Qed.

(** The loop over the data of an open link. *)
Lemma push_open_ok fuel X h n id fd rest data :
  harbor_rep X h n → 0 < id < REMOTE_MAX → link_at n id = Open fd rest →
  data ≠ [] ∨ (length rest < 4)%nat → Forall is_byte data → (length data < fuel)%nat →
  simulates X (push_loop send_returns fuel id fd data h) (net_stream send_returns n id fd (rest ++ data)).
Proof.
  revert h n rest data. induction fuel as [|fuel IH]; intros h n rest data Hr Hid El Hne Hb Hf; [lia|].
  destruct (rep_link _ _ _ id Hr ltac:(lia)) as (s & Hs & Hl & _).
  cbn [push_loop]. pstep (get_slave_ok _ _ _ Hs).
  match goal with |- context [(?b ≫= _) h] => set (body := b) end.
  assert (Hflow : flow_ok X n id fd (rest ++ data) (length data) (body h)).
  { unfold body. pose proof Hl as Hl'. rewrite El in Hl'. destruct Hl' as (_ & Hl4 & _ & _ & _ & _ & [Hst ? ? ?|p got b1 b2 b3 Hst]).
    - rewrite Hst. by apply case_header_ok with s.
    - rewrite Hst. subst rest. eapply case_content_ok; try done.
      destruct Hne as [?|Hne]; [done|]. rewrite length_app in Hne. lia. }
  clearbody body. eapply flow_loop_ok; [|done|lia]. intros h' n' buffer **. apply (IH h' n' []); try done. by left.
Qed.

(** *** Which link *)

Lemma find_fd_ok X h n fd ids :
  harbor_rep X h n → Forall (λ i, 0 <= i < REMOTE_MAX) ids →
  find_fd (h_s h) fd ids = Some (default 0 (list_find (λ i, link_fd (link_at n i) = fd) ids ≫= λ r, Some r.2)).
Proof.
  intros Hr Hids. induction Hids as [|i ids Hi Hids IH]; [done|]. cbn [find_fd list_find].
  destruct (rep_link _ _ _ i Hr Hi) as (s & -> & (Hfd & _) & _). cbn [mbind option_bind]. rewrite Hfd.
  destruct (decide (link_fd (link_at n i) = fd)) as [E|E].
  - by rewrite E, Z.eqb_refl.
  - rewrite (proj2 (Z.eqb_neq _ _)) by done. rewrite IH. by destruct (list_find _ ids) as [[]|].
Qed.

Lemma harbor_id_ok X h n fd : harbor_rep X h n → harbor_id fd h = Ok (net_harbor n fd, h).
Proof.
  intros Hr. unfold harbor_id. rewrite get_bind, (find_fd_ok X h n); [done..|].
  apply Forall_forall. intros i [H1 H2]%elem_of_seqZ. unfold REMOTE_MAX in *. lia.
Qed.

Lemma net_harbor_some n fd :
  net_harbor n fd ≠ 0 → 0 < net_harbor n fd < REMOTE_MAX ∧ link_fd (link_at n (net_harbor n fd)) = fd.
Proof.
  unfold net_harbor. destruct (list_find _ _) as [[j i]|] eqn:E; cbn [mbind option_bind default]; [|done].
  intros _. apply list_find_Some in E as (Hi & Hfd & _). apply list_elem_of_lookup_2, elem_of_seqZ in Hi.
  cbn. unfold REMOTE_MAX in *. split; [lia|done].
Qed.

(** *** The hand shake *)

Lemma handshake_done_ok X h n id fd p :
  harbor_rep X h n → 0 < id < REMOTE_MAX → link_at n id = Handshaking fd p →
  ∃ h1 h', upd_slave id (λ s, s <| s_status := STATUS_HEADER |>) h = Ok (tt, h1) ∧ dispatch_queue id h1 = Ok (tt, h')
    ∧ harbor_rep X h' (log (set_link n id (Open fd [])) (p ≫= remote_calls fd)).
Proof.
  intros Hr Hid El. destruct (rep_link _ _ _ id Hr ltac:(lia)) as (s & Hs & Hl & _).
  rewrite El in Hl. destruct Hl as (Hfd & Hl4 & Hby & Hq & Hfd0 & Hst & Hrecv & Hread & Hp). cbn in Hfd.
  set (s1 := s <| s_status := STATUS_HEADER |>).
  set (h1 := h <| h_s := <[Z.to_nat id := s1]> (h_s h) |>). assert (Hs1 : zget (h_s h1) id = Some s1).
  { apply (zget_zset_eq (h_s h)). apply zset_Some. by apply zget_Some_lt with s. }
  assert (Ho : owns (h_live h1) (queue_addrs (s_queue s1) ++ X ++ other_addrs h id)).
  { pose proof (hr_owns _ _ _ Hr) as Ho. rewrite (addrs_split _ _ _ Hs) in Ho. unfold slave_addrs in Ho.
    rewrite Hrecv, app_nil_r in Ho. cbn. by rewrite Permutation_app_swap_app. }
  destruct (dispatch_queue_ok h1 id s1 _ Hs1 ltac:(by rewrite <- Hfd in Hfd0) Hq Ho) as (live & Hd & Ho').
  eexists h1, _. split; [exact (upd_slave_ok h id s _ Hs)|]. split; [exact Hd|]. change (s_queue s1) with (s_queue s). change (s_fd s1) with (s_fd s). rewrite Hp, Hfd.
  pose proof (rep_set X X h n id s (s1 <| s_queue := None |>) (Open fd []) (p ≫= remote_calls fd) live Hr Hs) as H.
  revert H. unfold with_env, h1. cbn -[insert]. rewrite list_insert_insert_eq. intros H. apply H.
  - split_and!; try done. apply in_header; cbn; try done; [lia|]. by rewrite Hread.
  - unfold slave_addrs. cbn. by rewrite Hrecv.
Qed.

Lemma case_handshake_ok fuel X h n id fd p data :
  harbor_rep X h n → 0 < id < REMOTE_MAX → link_at n id = Handshaking fd p →
  Forall is_byte data → data ≠ [] → (length data <= fuel)%nat →
  simulates X
    ((r ← case_handshake send_returns id fd data;
      match r with Return => mret tt | Break buffer => push_loop send_returns fuel id fd buffer end) h)
    (if default 0 (zget data 0) =? id then
       net_stream send_returns (log (set_link n id (Open fd [])) (p ≫= remote_calls fd)) id fd (drop 1 data)
     else
       Ok (log (set_link n id (Down fd))
               [Cerror (str "Invalid shakehand id (" ++ print_d id ++ str ") from fd = " ++ print_d fd
                        ++ str " , harbor = " ++ print_d (default 0 (zget data 0))); Csocket_close fd])).
Proof.
  intros Hr Hid El Hb Hne Hf. destruct data as [|b0 data]; [done|]. apply Forall_cons in Hb as [Hb0 Hb].
  change (default 0 (zget (b0 :: data) 0)) with b0. change (drop 1 (b0 :: data)) with data.
  unfold case_handshake at 1. rewrite prog_bind_assoc, (need_bind _ _ _ b0) by done.
  destruct (b0 =? id) eqn:E0; cbn [negb].
  - destruct (handshake_done_ok X h n id fd p Hr Hid El) as (h1 & h2 & Hu & Hd & Hr2).
    rewrite prog_bind_assoc. pstep Hu. rewrite prog_bind_assoc. pstep Hd.
    set (n2 := log _ _) in *. assert (El2 : link_at n2 id = Open fd []) by exact (link_at_set X h n id _ Hr ltac:(lia)).
    change (drop 1 (b0 :: data)) with data. destruct data as [|b1 data].
    + apply (push_open_ok fuel X h2 n2 id fd [] []); auto with lia. right. cbn. lia.
    + destruct (rep_link _ _ _ id Hr2 ltac:(lia)) as (s & Hs & Hl & _). pose proof Hl as Hl'.
      rewrite El2 in Hl'. destruct Hl' as (_ & Hl4 & _ & _ & _ & _ & [Hst ? ? Hre|? got ? ? ? ? ? ? ? ? ? Hre]).
      2:{ apply (f_equal length) in Hre. rewrite length_app in Hre. cbn in Hre. lia. }
      apply (flow_loop_ok fuel X n2 id fd _ (length (b1 :: data)) (case_header send_returns id (b1 :: data))); [| |cbn in *; lia].
      * intros h' n' buffer ? ? ? ? ?. apply (push_open_ok fuel X h' n' id fd [] buffer); auto.
      * by apply (case_header_ok X h2 n2 id fd s Hr2 Hid Hs Hl [] (b1 :: data)).
  - destruct (rep_link _ _ _ id Hr ltac:(lia)) as (s & Hs & Hl & _). pose proof Hl as Hl'.
    rewrite El in Hl'. destruct Hl' as (Hfd & Hl4 & Hby & Hq & Hfd0 & Hst & Hrecv & Hread & Hp).
    destruct (refuse_ok X h n id fd s Hr Hs s (str "Invalid shakehand id (" ++ print_d id ++ str ") from fd = "
      ++ print_d fd ++ str " , harbor = " ++ print_d b0)) as (h' & Hrun & Hrep); try done.
    rewrite list_insert_id in Hrun by (by apply zget_lookup). replace (h <| h_s := h_s h |>) with h in Hrun by (by destruct h).
    pstep Hrun. by exists h'.
Qed.

(** Giving up the block of the message at the end. *)
Lemma free_ok X h n b :
  harbor_rep (addr_of b ++ X) h n → ∃ h', skynet_free b h = Ok (tt, h') ∧ harbor_rep X h' n.
Proof.
  intros Hr. pose proof (hr_owns _ _ _ Hr) as Ho. rewrite <- app_assoc in Ho.
  destruct (skynet_free_ok h b _ Ho) as (live & Hf & Ho'). eexists. split; [exact Hf|].
  pose proof (rep_env _ X h n [] live Hr Ho') as H. by rewrite app_nil_r, log_nil in H.
Qed.

(** Freeing a block again. *)
Lemma free_twice_fault h b L :
  owns (h_live h) (b_addr b :: L) →
  ∃ h', skynet_free (Some b) h = Ok (tt, h') ∧ ∀ ctx, skynet_free (Some b) (h' <| h_ctx := ctx |>) = Bad NotLive.
Proof.
  intros Ho. destruct (skynet_free_ok h (Some b) L Ho) as (live & Hf & [_ Hl]). eexists. split; [exact Hf|].
  intros ctx. destruct Ho as [[Hn _]%NoDup_cons _]. cbn. prun. by rewrite bool_decide_false by (rewrite Hl; done).
Qed.

(** A pass through the loop, on a slave in state [s]. *)
Lemma push_loop_step fuel id fd data h s :
  zget (h_s h) id = Some s →
  push_loop send_returns (S fuel) id fd data h
  = (r ← match s_status s with
         | STATUS_HANDSHAKE => case_handshake send_returns id fd data
         | STATUS_HEADER => case_header send_returns id data
         | STATUS_CONTENT => case_content send_returns id data
         | _ => mret Return
         end;
     match r with Return => mret tt | Break buffer => push_loop send_returns fuel id fd buffer end) h.
Proof. intros Hs. cbn [push_loop]. by pstep (get_slave_ok _ _ _ Hs). Qed.

Lemma push_loop_ok X h n fd data :
  let id := net_harbor n fd in
  harbor_rep X h n → id ≠ 0 → Forall is_byte data → data ≠ [] →
  simulates X (push_loop send_returns (2 + length data) id fd data h) (net_data send_returns n fd data).
Proof.
  intros id Hr Hid0 Hb Hne. destruct (net_harbor_some _ _ Hid0) as [Hid Hfd]. fold id in Hid, Hfd.
  unfold net_data. fold id. rewrite (proj2 (Z.eqb_neq _ _)) by done. change (2 + length data)%nat with (S (S (length data))).
  destruct (rep_link _ _ _ id Hr ltac:(lia)) as (s & Hs & Hl & _).
  destruct (link_at n id) as [p|fd' p|fd' rest|fd'] eqn:El; cbn in Hfd; try subst fd'.
  - destruct Hl as (_ & _ & _ & _ & Hst & _). rewrite (push_loop_step _ _ _ _ _ _ Hs), Hst. by exists h.
  - pose proof Hl as (_ & _ & _ & _ & _ & Hst & _). rewrite (push_loop_step _ _ _ _ _ _ Hs), Hst. apply case_handshake_ok; auto with lia.
  - apply push_open_ok; auto with lia.
  - destruct Hl as (_ & _ & _ & _ & _ & Hst & _). rewrite (push_loop_step _ _ _ _ _ _ Hs), Hst. by exists h.
Qed.

(** The data of a message, and the message itself: [push_socket_data] frees it
    when the descriptor is not known, and so does its caller. *)
Lemma on_data_ok X h n message b :
  sm_type message = SKYNET_SOCKET_TYPE_DATA → sm_buffer message = Some b →
  sm_ud message = Z.of_nat (length (b_data b)) → Forall is_byte (b_data b) → b_data b ≠ [] →
  harbor_rep (b_addr b :: X) h n →
  simulates X ((push_socket_data send_returns message;; skynet_free (sm_buffer message)) h)
    (net_data send_returns n (sm_id message) (b_data b)).
Proof.
  intros Hty Hbuf Hud Hb Hne Hr. pose proof (hr_owns _ _ _ Hr) as Ho. cbn in Ho.
  unfold push_socket_data. rewrite Hty, Hbuf. cbn [Z.eqb Pos.eqb SKYNET_SOCKET_TYPE_DATA negb].
  rewrite prog_bind_assoc. pstep (harbor_id_ok _ _ _ (sm_id message) Hr).
  destruct (Z.eqb_spec (net_harbor n (sm_id message)) 0) as [E|E].
  - destruct (free_twice_fault h b _ Ho) as (h1 & Hf & Hf2). unfold net_data. rewrite E. cbn [Z.eqb simulates].
    rewrite prog_bind_assoc. pstep Hf. by apply Hf2.
  - rewrite prog_bind_assoc. pstep (read_buffer_prefix h (Some b) (sm_ud message) _ Ho ltac:(cbn; lia)).
    rewrite Hud, Nat2Z.id, take_ge by done. cbn [buffer_data].
    pose proof (push_loop_ok _ h n (sm_id message) (b_data b) Hr E Hb Hne) as Hrun.
    destruct (net_data _ _ _ _) as [n'|f]; cbn [simulates] in *.
    + destruct Hrun as (h' & Hrun & Hr'). pstep Hrun. by apply (free_ok X h' n' (Some b)).
    + unfold mbind, prog_bind. by rewrite Hrun.
Qed.
End stream.
