(* ===== verification/HarborSafe.v ===== *)
(** * The harbor service implements the abstract service

    Sending, names, commands and the callback of Harbor.v against HarborNet.v.
    The result is [harbor_refines]: one call of the callback does what the
    abstract service says, the faults included. *)

From stdpp Require Import prelude list gmap list_numbers strings infinite.
From S2P Require Import Prelude Skynet Handle CString Harbor HarborRep HarborNet HarborStream.

#[local] Arguments str : simpl never.
#[local] Arguments print_d : simpl never.
#[local] Arguments print_x : simpl never.

Section service.
Context (send_returns : list harbor_call → Z).

(** ** Queueing and sending *)

(** A message joins a queue, which is created when there is none. *)
Lemma enqueue_ok oq b sz hd :
  oqueue_ok oq → Z.of_nat (length (abs_queue oq)) < 2 ^ 28 → buffer_ok b sz →
  ∃ q, push_queue (match oq with Some q => q | None => new_queue end) b sz hd = Some q
    ∧ oqueue_ok (Some q) ∧ abs_queue (Some q) = abs_queue oq ++ [(hd, buffer_data b)]
    ∧ queue_addrs (Some q) = queue_addrs oq ++ addr_of b.
Proof.
  intros Hq Hlen Hb. set (q0 := match oq with Some q => q | None => new_queue end).
  assert (Hq0 : queue_holds q0 (queue_msgs q0) ∧ Forall msg_ok (queue_msgs q0)
    ∧ abs_queue oq = abs_msg <$> queue_msgs q0 ∧ queue_addrs oq = queue_msgs q0 ≫= msg_addr).
  { unfold q0. destruct oq as [q|]; [by destruct Hq|].
    pose proof (queue_holds_msgs _ _ new_queue_ok) as E. rewrite E. by split_and!. }
  destruct Hq0 as (Hh & Hok & Ha & Had). rewrite Ha, length_fmap in Hlen.
  destruct (push_queue_ok q0 _ (mkHarborMsg hd b sz) Hh ltac:(lia)) as (q & Hp & Hh').
  exists q. split; [exact Hp|]. unfold oqueue_ok, abs_queue at 1, queue_addrs at 1.
  rewrite !(queue_holds_msgs _ _ Hh'), Ha, Had, fmap_app, bind_app. split_and!; try done.
  - apply Forall_app; split; [done|]. by constructor.
  - cbn. by rewrite app_nil_r.
Qed.

Lemma shift_handle x : is_u32 x → 0 <= Z.shiftr x HANDLE_REMOTE_SHIFT < REMOTE_MAX.
Proof. unfold is_u32, HANDLE_REMOTE_SHIFT, REMOTE_MAX. rewrite Z.shiftr_div_pow2 by lia. intros. zify_div. Qed.

(** The link with other messages waiting. *)
Definition with_pending (l : link) (p : list mail) : link :=
  match l with Waiting _ => Waiting p | Handshaking fd _ => Handshaking fd p | l => l end.

(** A link that is not open yet. *)
Definition closed (l : link) : Prop := match l with Waiting _ | Handshaking _ _ => True | _ => False end.

Lemma closed_queue s l :
  link_rep s l → closed l →
  oqueue_ok (s_queue s) ∧ abs_queue (s_queue s) = pending_of l ∧ s_recv_buffer s = None
  ∧ ∀ oq, oqueue_ok oq → link_rep (s <| s_queue := oq |>) (with_pending l (abs_queue oq)).
Proof.
  intros (Hfd & Hl4 & Hby & Hq & Hl). destruct l as [p|fd p|fd rest|fd]; intros []; cbn in Hfd.
  - destruct Hl as (? & ? & ? & ?). by split_and!.
  - destruct Hl as (? & ? & ? & ? & ?). by split_and!.
Qed.

Lemma queue_up_ok X h n i s b sz hd :
  harbor_rep (addr_of b ++ X) h n → small n → buffer_ok b sz → 0 <= i < REMOTE_MAX →
  zget (h_s h) i = Some s → closed (link_at n i) →
  ∃ q, push_queue (match s_queue s with Some q => q | None => new_queue end) b sz hd = Some q
    ∧ harbor_rep X (h <| h_s := <[Z.to_nat i := s <| s_queue := Some q |>]> (h_s h) |>)
        (set_link n i (with_pending (link_at n i) (pending_of (link_at n i) ++ [(hd, buffer_data b)]))).
Proof.
  intros Hr Hsmall Hb Hi Hs Hc. destruct (rep_link _ _ _ i Hr Hi) as (s' & Hs' & Hl & Hn).
  rewrite Hs in Hs'. injection Hs' as <-.
  pose proof (Forall_lookup_1 _ _ _ _ (proj2 Hsmall) Hn) as Hpend. cbn in Hpend.
  destruct (closed_queue _ _ Hl Hc) as (Hq & Ha & Hrecv & Hset).
  destruct (enqueue_ok (s_queue s) b sz hd Hq ltac:(by rewrite Ha) Hb) as (q & Hp & Hq' & Ha' & Had).
  exists q. split; [done|]. rewrite <- Ha, <- Ha'.
  eapply rep_set_quiet; [exact Hr|exact Hs|by apply Hset|].
  unfold slave_addrs. cbn -[queue_addrs addr_of]. rewrite Hrecv, Had, !app_nil_r. solve_Permutation.
Qed.

Lemma remote_send_handle_ok X h n source destination type session b sz :
  harbor_rep (addr_of b ++ X) h n → small n → is_u32 destination → buffer_ok b sz →
  ∃ h' taken, remote_send_handle send_returns source destination type session b sz h = Ok (taken, h')
    ∧ harbor_rep (if taken : bool then X else addr_of b ++ X) h'
                 (net_send n source destination type session (buffer_data b)).
Proof.
  intros Hr Hsmall Hd Hb. pose proof (hr_owns _ _ _ Hr) as Ho. rewrite <- app_assoc in Ho.
  pose proof (buffer_size _ _ Hb) as [Hsz _].
  unfold remote_send_handle, net_send. rewrite get_bind, (hr_id _ _ _ Hr).
  set (i := Z.shiftr destination HANDLE_REMOTE_SHIFT). case_if.
  { destruct (send_dontcopy_ok send_returns h source destination type session b sz _ Ho) as (live & Hs & Ho'); [lia|].
    cbv zeta in Hs. rewrite take_ge in Hs by lia.
    eexists _, true. split; [by pstep Hs|]. by apply (rep_env (addr_of b ++ X)). }
  pose proof (shift_handle _ Hd) as Hi. fold i in Hi.
  destruct (rep_link _ _ _ i Hr ltac:(lia)) as (s & Hs & Hl & _). pstep (get_slave_ok _ _ _ Hs).
  set (hd := mkHeader source _ (u32 session)).
  destruct (link_at n i) as [p|fd p|fd rest|fd] eqn:El; destruct Hl as (Hfd & _ & _ & _ & Hl); cbn in Hfd.
  - destruct (queue_up_ok X h n i s b sz hd Hr Hsmall Hb Hi Hs ltac:(by rewrite El)) as (q & Hp & Hr'). rewrite El in Hr'.
    destruct Hl as (Hst & _). rewrite Hfd, Hst. cbn [Z.eqb orb]. rewrite bool_decide_false by done.
    rewrite (need_bind _ _ _ _ Hp). pstep (upd_slave_ok h i s (λ s, s <| s_queue := Some q |>) Hs).
    by eexists _, true.
  - destruct (queue_up_ok X h n i s b sz hd Hr Hsmall Hb Hi Hs ltac:(by rewrite El)) as (q & Hp & Hr'). rewrite El in Hr'.
    destruct Hl as (_ & Hst & _). rewrite Hst, bool_decide_true, orb_true_r, bool_decide_false by done.
    rewrite (need_bind _ _ _ _ Hp). pstep (upd_slave_ok h i s (λ s, s <| s_queue := Some q |>) Hs).
    by eexists _, true.
  - assert (Hst : s_status s ≠ STATUS_HANDSHAKE) by (destruct Hl as (_ & _ & [->|? ? ? ? ? ->]); done).
    rewrite Hfd, (proj2 (Z.eqb_neq _ _)), bool_decide_false by (done || by destruct Hl). cbn [orb].
    rewrite (Z.lor_comm (Z.land _ _)). pstep (send_remote_ok h fd b sz hd _ Ho Hb).
    eexists _, false. split; [done|]. by apply (rep_env (addr_of b ++ X)); rewrite <- ?app_assoc.
  - destruct Hl as (Hfd0 & Hst & _).
    rewrite Hfd, (proj2 (Z.eqb_neq _ _)), bool_decide_false by (done || by rewrite Hst). cbn [orb].
    rewrite (Z.lor_comm (Z.land _ _)). pstep (send_remote_ok h fd b sz hd _ Ho Hb).
    eexists _, false. split; [done|]. by apply (rep_env (addr_of b ++ X)); rewrite <- ?app_assoc.
Qed.

Lemma rep_log X h n calls : harbor_rep X h n → harbor_rep X (h <| h_ctx := h_ctx h ++ calls |>) (log n calls).
Proof. intros Hr. apply (rep_env X X h n calls (h_live h) Hr). apply Hr. Qed.

(** ** Names *)

(** The table changes. *)
Lemma rep_map X X' h n m names :
  harbor_rep X h n → table_ok m → (∀ name, name_ok name → name_rep (name_view m name) (names name)) →
  X' ++ map_addrs m ≡ₚ X ++ map_addrs (h_map h) →
  harbor_rep X' (h <| h_map := m |>) (n <| n_name := names |>).
Proof.
  intros [] Ht Hn Hp. split; cbn; try done. unfold harbor_addrs in *. cbn.
  rewrite app_assoc, Hp, <- app_assoc. done.
Qed.

(** The node of a name, which is created when there is none. *)
Lemma search_ok X h n name :
  harbor_rep X h n → name_ok name →
  ∃ p nd m, search_or_insert name h = Ok (p, h <| h_map := m |>) ∧ located m name p nd
    ∧ harbor_rep X (h <| h_map := m |>) n ∧ name_rep (kv_value nd, kv_queue nd) (n_name n name).
Proof.
  intros Hr Hname. destruct (search_or_insert_ok h name (hr_table _ _ _ Hr) Hname) as (p & nd & m & Hs & Ht & Hloc & Hv & Hp).
  exists p, nd, m. split; [done|]. split; [done|]. split.
  - replace n with (n <| n_name := n_name n |>) by (by destruct n). apply (rep_map X); try done.
    + intros name' Hn'. rewrite Hv. by apply (hr_names _ _ _ Hr).
    + by rewrite Hp.
  - rewrite <- (located_view _ _ _ _ Hloc), Hv. by apply (hr_names _ _ _ Hr).
Qed.

(** The node of a name changes. *)
Lemma rep_node X X' h n name p nd nd' st :
  harbor_rep X h n → located (h_map h) name p nd → kv_key nd' = kv_key nd → kv_hash nd' = kv_hash nd →
  name_rep (kv_value nd', kv_queue nd') st →
  X' ++ queue_addrs (kv_queue nd') ≡ₚ X ++ queue_addrs (kv_queue nd) →
  harbor_rep X' (h <| h_map := set_node (h_map h) p nd' |>) (set_name n name st).
Proof.
  intros Hr Hloc Hk Hh Hst Hp.
  destruct (set_node_ok _ _ _ _ nd' (hr_table _ _ _ Hr) Hloc Hk Hh) as (Ht & Hloc' & Hv & Ha).
  apply (rep_map X); try done.
  - intros name' Hname'. destruct (decide (name' = name)) as [->|Hne].
    + by rewrite (located_view _ _ _ _ Hloc').
    + rewrite Hv by done. by apply (hr_names _ _ _ Hr).
  - apply (Permutation_app_inv_r (queue_addrs (kv_queue nd))). rewrite <- app_assoc, Ha.
    rewrite (Permutation_app_comm (map_addrs (h_map h))), app_assoc, Hp, <- !app_assoc.
    by rewrite (Permutation_app_comm (map_addrs (h_map h))).
Qed.

Lemma until_nul_some s : ∃ r, until_nul (s ++ [0]) = Some r.
Proof.
  induction s as [|c s [r IH]]; [by eexists|]. cbn. destruct (c =? 0); [by eexists|]. rewrite IH. by eexists.
Qed.

Lemma remote_send_name_ok X h n source name type session b sz :
  harbor_rep (addr_of b ++ X) h n → small n → name_ok name → buffer_ok b sz →
  ∃ h' taken, remote_send_name send_returns source name type session b sz h = Ok (taken, h')
    ∧ harbor_rep (if taken : bool then X else addr_of b ++ X) h'
                 (net_send_name n source name type session (buffer_data b)).
Proof.
  intros Hr Hsmall Hname Hb. destruct (search_ok _ _ _ _ Hr Hname) as (p & nd & m & Hs & Hloc & Hr1 & Hq & Hst).
  unfold remote_send_name, net_send_name. pstep Hs. pstep (get_node_ok (h <| h_map := m |>) _ _ _ Hloc).
  destruct (n_name n name) as [handle|pend] eqn:En; cbn [fst snd] in *.
  - destruct Hst as [Hv Hh]. injection Hv as Hv Hv'. rewrite Hv, (proj2 (Z.eqb_neq _ _)) by lia.
    apply remote_send_handle_ok; try done. unfold is_u32. lia.
  - destruct Hst as (Hv & Ha & _). rewrite Hv. cbn [Z.eqb]. set (hd := mkHeader source _ _).
    pose proof (proj1 Hsmall _ _ En) as Hlen. rewrite <- Ha in Hlen.
    destruct (enqueue_ok (kv_queue nd) b sz hd Hq Hlen Hb) as (q & Hp & Hq' & Ha' & Had).
    rewrite (need_bind _ _ _ _ Hp).
    pstep (upd_node_ok (h <| h_map := m |>) _ _ _ (λ n, n <| kv_queue := Some q |>) Hloc).
    rewrite (take_ge name) by (destruct Hname; lia).
    destruct (until_nul_some (str "Q " ++ name)) as (query & Hquery). rewrite <- app_assoc in Hquery.
    rewrite (need_bind _ _ _ _ Hquery), get_bind, Hquery. cbn [default].
    set (h2 := (h <| h_map := m |>) <| h_map := _ |>).
    assert (Hr2 : harbor_rep X h2 (set_name n name (Unknown (pend ++ [(hd, buffer_data b)])))).
    { apply (rep_node (addr_of b ++ X) X (h <| h_map := m |>) n name p nd); try done.
      - split; [done|]. cbn -[abs_queue]. rewrite <- Ha, <- Ha'. split_and!; [done..|]. rewrite Ha'. by intros [_ ?]%app_nil.
      - cbn -[queue_addrs]. rewrite Had. solve_Permutation. }
    rewrite <- (hr_slave _ _ _ Hr). eexists _, true. split; [done|].
    exact (rep_log _ _ _ [Csend 0 (h_slave h) PTYPE_TEXT 0 query] Hr2).
Qed.

(** ** The messages that waited for a name *)

(** They join the queue of the harbor. *)
Lemma merge_ok h i s qs q ls l :
  zget (h_s h) i = Some s → s_queue s = Some qs → queue_holds qs ls → queue_holds q l →
  Z.of_nat (length ls) + Z.of_nat (length l) < 2 ^ 29 →
  ∃ q' q2, pop_all q (λ m, s ← get_slave i; q ← need (s_queue s); q ← need (push_queue_msg q m);
                           upd_slave i (λ s, s <| s_queue := Some q |>)) h
           = Ok (q', h <| h_s := <[Z.to_nat i := s <| s_queue := Some q2 |>]> (h_s h) |>)
    ∧ queue_holds q' [] ∧ queue_holds q2 (ls ++ l).
Proof.
  intros Hs Hqs Hls Hl. assert (Hf : (length l < Z.to_nat (q_size q))%nat) by (destruct Hl; lia).
  unfold pop_all. revert Hf. generalize (Z.to_nat (q_size q)) as fuel. revert h s qs q ls Hs Hqs Hls Hl.
  induction l as [|m l IH]; intros h s qs q ls Hs Hqs Hls Hl fuel Hf Hlen; (destruct fuel as [|fuel]; [cbn in Hf; lia|]);
    cbn [pop_loop].
  - rewrite (need_bind _ _ _ _ (pop_queue_nil _ Hl)). exists q, qs. split; [|by rewrite app_nil_r].
    rewrite <- Hqs. replace (s <| s_queue := s_queue s |>) with s by (by destruct s).
    rewrite list_insert_id by (by apply zget_lookup). by destruct h.
  - destruct (pop_queue_cons _ _ _ Hl) as (q1 & Hpop & Hq1 & _). rewrite (need_bind _ _ _ _ Hpop).
    cbn [length] in Hlen, Hf. destruct (push_queue_ok qs ls m Hls ltac:(lia)) as (qs1 & Hpush & Hqs1).
    set (h1 := h <| h_s := <[Z.to_nat i := s <| s_queue := Some qs1 |>]> (h_s h) |>).
    rewrite (prog_bind_ok _ _ h tt h1).
    2:{ pstep (get_slave_ok _ _ _ Hs). rewrite (need_bind _ _ _ _ Hqs), (need_bind _ _ _ _ Hpush).
        by apply upd_slave_ok. }
    destruct (IH h1 (s <| s_queue := Some qs1 |>) qs1 q1 (ls ++ [m])) with fuel as (q' & q2 & Hrun & Hq' & Hq2); try done.
    + apply (zget_zset_eq (h_s h)). apply zset_Some. by apply zget_Some_lt with s.
    + lia.
    + rewrite length_app. cbn. lia.
    + exists q', q2. rewrite <- app_assoc in Hq2. split; [|done]. rewrite Hrun. unfold h1. cbn -[insert].
      by rewrite list_insert_insert_eq.
Qed.

(** They are for this node: all messages of the harbor are delivered. *)
Lemma deliver_local_ok h i s q handle L :
  zget (h_s h) i = Some s → s_queue s = Some q → oqueue_ok (Some q) →
  owns (h_live h) (queue_addrs (Some q) ++ L) →
  ∃ live, (s ← get_slave i;
           q ← need (s_queue s);
           q ← pop_all q (λ m,
             let type := Z.shiftr (rh_destination (hm_header m)) HANDLE_REMOTE_SHIFT in
             skynet_send_dontcopy send_returns (rh_source (hm_header m)) handle type (i32 (rh_session (hm_header m)))
               (hm_buffer m) (hm_size m);; mret tt);
           release_queue (Some q);;
           upd_slave i (λ s, s <| s_queue := None |>)) h
    = Ok (tt, with_env (h <| h_s := <[Z.to_nat i := s <| s_queue := None |>]> (h_s h) |>)
                       (h_ctx h ++ (local_call handle <$> abs_queue (Some q))) live)
    ∧ owns live L.
Proof.
  intros Hs Hq [Hh Hok] Ho. pstep (get_slave_ok _ _ _ Hs). rewrite (need_bind _ _ _ _ Hq).
  edestruct (pop_all_ok q _ (λ m,
             let type := Z.shiftr (rh_destination (hm_header m)) HANDLE_REMOTE_SHIFT in
             skynet_send_dontcopy send_returns (rh_source (hm_header m)) handle type (i32 (rh_session (hm_header m)))
               (hm_buffer m) (hm_size m);; mret tt) (λ m, [local_call handle (abs_msg m)]) h L Hh Hok Ho)
    as (q' & live & Hp & Ho' & Hq').
  { intros m ctx live L' Hm Ho'. pose proof (buffer_size _ _ Hm) as [Hsz Hlt].
    destruct (send_dontcopy_ok send_returns (with_env h ctx live) (rh_source (hm_header m)) handle
      (Z.shiftr (rh_destination (hm_header m)) HANDLE_REMOTE_SHIFT) (i32 (rh_session (hm_header m)))
      (hm_buffer m) (hm_size m) L' Ho') as (live' & Hs' & Ho''); [lia|].
    exists live'. split; [|done]. cbv zeta in Hs' |- *. pstep Hs'. rewrite take_ge by lia. done. }
  pstep Hp. set (h1 := with_env h _ live).
  destruct (release_queue_ok (Some q') h1 L) as (live' & Hrel & Ho'').
  { by apply drained_ok. }
  { by rewrite (proj2 (drained_ok _ Hq')). }
  pstep Hrel. exists live'. split; [|done]. rewrite (upd_slave_ok _ _ s) by done.
  assert (E : queue_msgs q ≫= (λ m, [local_call handle (abs_msg m)]) = local_call handle <$> abs_queue (Some q)).
  { cbn. clear. induction (queue_msgs q) as [|m l IH]; [done|]. by rewrite bind_cons, !fmap_cons, IH. }
  unfold h1. by rewrite E.
Qed.

Section dispatch.
Context (X : list positive) (h : harbor) (n : net) (name : bytes) (p : Z * nat) (nd : keyvalue) (q : harbor_msg_queue).

(** The node with another queue, and the state with that node. *)
Definition node_with (oq : option harbor_msg_queue) : keyvalue := nd <| kv_queue := oq |>.
Definition state_with (h : harbor) (oq : option harbor_msg_queue) : harbor :=
  h <| h_map := set_node (h_map h) p (node_with oq) |>.

(** While the queue of a name is dispatched its messages belong to nobody else. *)
Context (Ht : table_ok (h_map h)) (Hloc : located (h_map h) name p nd).
Context (Hq : kv_queue nd = Some q) (Hqok : oqueue_ok (Some q)) (Hhandle : is_u32 (kv_value nd)).
Context (Hr : harbor_rep (queue_addrs (Some q) ++ X) (state_with h None) n).
Context (Hsmall : small n) (Hlen : Z.of_nat (length (abs_queue (Some q))) < 2 ^ 28).

Definition dispatched (h' : harbor) (n' : net) : Prop :=
  ∃ oq, h_map h' = set_node (h_map h) p (node_with oq) ∧ oqueue_ok oq ∧ queue_addrs oq = []
      ∧ harbor_rep X (state_with h' None) n'.

Let i := Z.shiftr (kv_value nd) HANDLE_REMOTE_SHIFT.

Lemma dispatch_owns : owns (h_live h) (queue_addrs (Some q) ++ X ++ harbor_addrs (state_with h None)).
Proof. pose proof (hr_owns _ _ _ Hr) as Ho. by rewrite <- app_assoc in Ho. Qed.

(** To a harbor with a descriptor. *)
Lemma dispatch_sent s fd :
  zget (h_s h) i = Some s → s_fd s = fd → fd ≠ 0 →
  ∃ h', dispatch_name_queue send_returns p h = Ok (tt, h')
    ∧ dispatched h' (log n (abs_queue (Some q) ≫= remote_calls fd ∘ address (kv_value nd))).
Proof.
  intros Hs Hfd Hfd0. destruct Hqok as [Hh Hok].
  unfold dispatch_name_queue. pstep (get_node_ok _ _ _ _ Hloc). rewrite (need_bind _ _ _ _ Hq).
  fold i. pstep (get_slave_ok _ _ _ Hs). rewrite Hfd, (proj2 (Z.eqb_neq _ _)) by done.
  set (g := λ hd, hd <| rh_destination := Z.lor (rh_destination hd) (Z.land (kv_value nd) HANDLE_MASK) |>).
  edestruct (pop_all_ok q _ (λ m, send_remote fd (hm_buffer m) (hm_size m) (g (hm_header m));; skynet_free (hm_buffer m))
    (λ m, remote_calls fd (g (hm_header m), buffer_data (hm_buffer m))) h _ Hh Hok dispatch_owns)
    as (q' & live & Hp & Ho & Hq').
  { intros. by apply send_on_ok. }
  pstep Hp. set (ctx := h_ctx h ++ _). set (h1 := with_env h ctx live).
  rewrite (upd_node_ok h1 name p nd _ Hloc). eexists. split; [done|].
  exists (Some q'). destruct (drained_ok _ Hq') as [? ?]. split_and!; try done.
  pose proof (rep_env _ X _ n (queue_msgs q ≫= λ m, remote_calls fd (g (hm_header m), buffer_data (hm_buffer m))) live Hr Ho) as Hrep.
  unfold state_with. cbn [h_map field_set]. rewrite set_node_twice.
  replace (abs_queue (Some q) ≫= remote_calls fd ∘ address (kv_value nd))
    with (queue_msgs q ≫= λ m, remote_calls fd (g (hm_header m), buffer_data (hm_buffer m)))
    by (symmetry; apply fmap_bind_calls). exact Hrep.
Qed.

(** To a harbor without one: the messages join its queue. *)
Lemma dispatch_joined s pend :
  zget (h_s h) i = Some s → link_at n i = Waiting pend → 0 <= i < REMOTE_MAX →
  ∃ oq q2, let h1 := state_with (h <| h_s := <[Z.to_nat i := s <| s_queue := Some q2 |>]> (h_s h) |>) oq in
    match s_queue s with
    | None => upd_slave i (λ s, s <| s_queue := kv_queue nd |>);; upd_node p (λ n, n <| kv_queue := None |>)
    | Some _ =>
        queue ← pop_all q (λ m, s ← get_slave i; q ← need (s_queue s); q ← need (push_queue_msg q m);
                                upd_slave i (λ s, s <| s_queue := Some q |>));
        upd_node p (λ n, n <| kv_queue := Some queue |>)
    end h = Ok (tt, h1)
    ∧ oqueue_ok oq ∧ queue_addrs oq = [] ∧ oqueue_ok (Some q2) ∧ abs_queue (Some q2) = pend ++ abs_queue (Some q)
    ∧ harbor_rep X (state_with (h <| h_s := <[Z.to_nat i := s <| s_queue := Some q2 |>]> (h_s h) |>) None)
                   (set_link n i (Waiting (pend ++ abs_queue (Some q)))).
Proof.
  intros Hs El Hi. destruct (rep_link _ _ _ i Hr Hi) as (s' & Hs' & Hl & Hn).
  assert (s' = s) as -> by (change (zget (h_s h) i = Some s') in Hs'; congruence). rewrite El in Hl, Hn.
  pose proof (Forall_lookup_1 _ _ _ _ (proj2 Hsmall) Hn) as Hpend. cbn in Hpend.
  destruct (closed_queue _ _ Hl I) as (Hqs & Has & Hrecv & Hset). cbn in Has.
  destruct (s_queue s) as [qs|] eqn:Eqs.
  - destruct Hqs as [Hhs Hoks], Hqok as [Hh Hok]. pose proof Has as Has'. cbn in Has'.
    pose proof (f_equal length Has') as El'. rewrite length_fmap in El'. cbn in Hlen. rewrite length_fmap in Hlen.
    destruct (merge_ok h i s qs q _ _ Hs Eqs Hhs Hh ltac:(lia)) as (q' & q2 & Hrun & Hq' & Hq2).
    destruct (holds_ok _ _ Hq2) as (Hok2 & Had2 & Ha2); [by apply Forall_app|]. destruct (drained_ok _ Hq') as [? ?].
    assert (Ha2' : abs_queue (Some q2) = pend ++ abs_queue (Some q)) by (rewrite Ha2, fmap_app, Has'; done).
    exists (Some q'), q2. cbv zeta. split_and!; try done.
    + pstep Hrun. set (h1 := h <| h_s := _ |>). exact (upd_node_ok h1 name p nd (λ n, n <| kv_queue := Some q' |>) Hloc).
    + rewrite <- Ha2'. eapply (rep_set_quiet _ X (state_with h None)); [exact Hr|exact Hs|by apply Hset|].
      unfold slave_addrs. cbn -[queue_addrs]. rewrite Hrecv, Eqs, Had2, bind_app, !app_nil_r. cbn. solve_Permutation.
  - exists None, q. cbv zeta. subst pend. split_and!; try done.
    + rewrite Hq. pstep (upd_slave_ok h i s (λ s, s <| s_queue := Some q |>) Hs).
      set (h1 := h <| h_s := _ |>). exact (upd_node_ok h1 name p nd (λ n, n <| kv_queue := None |>) Hloc).
    + eapply (rep_set_quiet _ X (state_with h None)); [exact Hr|exact Hs|by apply Hset|].
      unfold slave_addrs. cbn -[queue_addrs]. rewrite Hrecv, Eqs, !app_nil_r. solve_Permutation.
Qed.

(** They are delivered at once when the harbor is this node. *)
Lemma dispatch_waited s pend :
  zget (h_s h) i = Some s → link_at n i = Waiting pend → 0 <= i < REMOTE_MAX → s_fd s = 0 → s_status s = STATUS_WAIT →
  s_recv_buffer s = None →
  ∃ h', dispatch_name_queue send_returns p h = Ok (tt, h')
    ∧ dispatched h' (net_dispatch n (kv_value nd) (abs_queue (Some q))).
Proof.
  intros Hs El Hi Hfd Hst Hrecv.
  unfold dispatch_name_queue. pstep (get_node_ok _ _ _ _ Hloc). rewrite (need_bind _ _ _ _ Hq).
  fold i. pstep (get_slave_ok _ _ _ Hs). rewrite Hfd, Hst. cbn [Z.eqb]. rewrite bool_decide_false by done.
  destruct (dispatch_joined s pend Hs El Hi) as (oq & q2 & Hrun & Hoq & Hoa & Hok2 & Ha2 & Hrep).
  pstep Hrun. rewrite get_bind. change (h_slave (state_with _ _)) with (h_slave (state_with h None)).
  rewrite (hr_slave _ _ _ Hr). unfold net_dispatch. fold i. rewrite El.
  set (s2 := s <| s_queue := Some q2 |>) in *. set (h2 := h <| h_s := <[Z.to_nat i := s2]> (h_s h) |>) in *.
  destruct (i =? Z.shiftr (n_slave n) HANDLE_REMOTE_SHIFT).
  - assert (Hs2 : zget (h_s h2) i = Some s2).
    { apply (zget_zset_eq (h_s h)). apply zset_Some. by apply zget_Some_lt with s. }
    assert (Ho : owns (h_live (state_with h2 None)) (queue_addrs (Some q2) ++ X ++ other_addrs (state_with h2 None) i)).
    { pose proof (hr_owns _ _ _ Hrep) as Ho. rewrite (addrs_split (state_with h2 None) i s2 Hs2) in Ho. unfold slave_addrs in Ho.
      cbn -[queue_addrs other_addrs] in Ho. rewrite Hrecv, app_nil_r in Ho. by rewrite Permutation_app_swap_app. }
    destruct (deliver_local_ok (state_with h2 oq) i s2 q2 (kv_value nd) _ Hs2 eq_refl Hok2 Ho) as (live & Hd & Ho').
    eexists. split; [exact Hd|]. exists oq. split_and!; try done.
    assert (E : ∀ ss c l, state_with (with_env ((state_with h2 oq) <| h_s := ss |>) c l) None
                          = with_env ((state_with h2 None) <| h_s := ss |>) c l).
    { intros. unfold state_with, with_env. cbn. by rewrite set_node_twice. }
    rewrite E, Ha2, <- (set_link_twice n i (Waiting (pend ++ abs_queue (Some q)))).
    eapply (rep_set X X (state_with h2 None)); [exact Hrep|exact Hs2| |].
    + destruct (rep_link _ _ _ i Hrep Hi) as (s3 & Hs3 & Hl3 & _).
      assert (s3 = s2) as -> by (change (zget (h_s h2) i = Some s3) in Hs3; congruence).
      rewrite (link_at_set _ _ _ _ _ Hr Hi) in Hl3. destruct (closed_queue _ _ Hl3 I) as (_ & _ & _ & Hset). by apply (Hset None).
    + unfold slave_addrs. cbn -[other_addrs]. by rewrite Hrecv.
  - eexists. split; [done|]. exists oq. split_and!; try done. unfold state_with at 1.
    change (h_map (state_with h2 oq)) with (set_node (h_map h) p (node_with oq)). rewrite set_node_twice. exact Hrep.
Qed.

Lemma dispatch_name_queue_ok :
  ∃ h', dispatch_name_queue send_returns p h = Ok (tt, h')
    ∧ dispatched h' (net_dispatch n (kv_value nd) (abs_queue (Some q))).
Proof.
  pose proof (shift_handle _ Hhandle) as Hi. fold i in Hi.
  destruct (rep_link _ _ _ i Hr Hi) as (s & Hs & Hl & _). change (zget (h_s h) i = Some s) in Hs.
  destruct (link_at n i) as [pend|fd pend|fd rest|fd] eqn:El.
  - destruct Hl as (Hfd & _ & _ & _ & Hst & Hrecv & _). by apply (dispatch_waited s pend).
  - destruct Hl as (Hfd & _ & _ & _ & Hfd0 & _). unfold net_dispatch. fold i. rewrite El. by apply (dispatch_sent s fd).
  - destruct Hl as (Hfd & _ & _ & _ & Hfd0 & _). unfold net_dispatch. fold i. rewrite El. by apply (dispatch_sent s fd).
  - destruct Hl as (Hfd & _ & _ & _ & Hfd0 & _). unfold net_dispatch. fold i. rewrite El. by apply (dispatch_sent s fd).
Qed.
End dispatch.

Lemma net_dispatch_set_name n name st handle p :
  net_dispatch (set_name n name st) handle p = set_name (net_dispatch n handle p) name st.
Proof.
  unfold net_dispatch. change (link_at (set_name n name st)) with (link_at n).
  change (n_slave (set_name n name st)) with (n_slave n). destruct (link_at n _); [|done..]. by case_if.
Qed.

Lemma small_known n name handle : small n → small (set_name n name (Known handle)).
Proof. intros [Hn Hl]. split; [|done]. intros name' p. cbn. destruct (decide _); [done|]. apply Hn. Qed.

(** The queue of a name that got a handle is dispatched and released. *)
Lemma flush_name_ok X h n name p nd q :
  table_ok (h_map h) → located (h_map h) name p nd → kv_queue nd = Some q → oqueue_ok (Some q) →
  is_u32 (kv_value nd) → harbor_rep (queue_addrs (Some q) ++ X) (state_with p nd h None) n →
  small n → Z.of_nat (length (abs_queue (Some q))) < 2 ^ 28 →
  ∃ h', (dispatch_name_queue send_returns p;; n ← get_node p; release_queue (kv_queue n);;
         upd_node p (λ n, n <| kv_queue := None |>)) h = Ok (tt, h')
    ∧ harbor_rep X h' (net_dispatch n (kv_value nd) (abs_queue (Some q))).
Proof.
  intros Ht Hloc Hq Hqok Hh Hr Hsmall Hlen.
  destruct (dispatch_name_queue_ok X h n name p nd q Hloc Hq Hqok Hh Hr Hsmall Hlen)
    as (h1 & Hd & oq & Hm & Hoq & Hoa & Hr1).
  destruct (set_node_ok (h_map h) name p nd (node_with nd oq) Ht Hloc eq_refl eq_refl) as (_ & Hloc1 & _ & _).
  rewrite <- Hm in Hloc1. pose proof (hr_owns _ _ _ Hr1) as Ho.
  pstep Hd. pstep (get_node_ok _ _ _ _ Hloc1).
  destruct (release_queue_ok oq h1 (X ++ harbor_addrs (state_with p nd h1 None)) Hoq) as (live & Hrel & Ho'); [by rewrite Hoa|].
  change (kv_queue (node_with nd oq)) with oq. pstep Hrel.
  eexists. split; [exact (upd_node_ok (with_env h1 (h_ctx h1) live) name p _ _ Hloc1)|].
  pose proof (rep_env X X _ _ [] live Hr1 Ho') as Hr2. rewrite log_nil, app_nil_r in Hr2. exact Hr2.
Qed.

(** The name gets a handle. *)
Lemma update_name_ok X h n name handle :
  harbor_rep X h n → small n → name_ok name → 0 < handle < 2 ^ 32 →
  ∃ h', update_name send_returns name handle h = Ok (tt, h') ∧ harbor_rep X h' (net_learn n name handle).
Proof.
  intros Hr Hsmall Hname Hh. destruct (search_ok _ _ _ _ Hr Hname) as (p & nd & m & Hs & Hloc & Hr1 & Hq & Hst).
  unfold update_name. pstep Hs. set (h1 := h <| h_map := m |>) in *.
  set (nd1 := nd <| kv_value := handle |>).
  pstep (upd_node_ok h1 name p nd (λ n, n <| kv_value := handle |>) Hloc). fold nd1.
  set (h2 := h1 <| h_map := set_node (h_map h1) p nd1 |>).
  destruct (set_node_ok (h_map h1) name p nd nd1 (hr_table _ _ _ Hr1) Hloc eq_refl eq_refl) as (Ht2 & Hloc2 & _ & _).
  pstep (get_node_ok h2 _ _ _ Hloc2). change (kv_queue nd1) with (kv_queue nd). cbn [fst snd] in *.
  assert (Hknow : harbor_rep (queue_addrs (kv_queue nd) ++ X)
                    (h1 <| h_map := set_node (h_map h1) p (nd1 <| kv_queue := None |>) |>) (set_name n name (Known handle))).
  { apply (rep_node X _ h1 n name p nd); try done. cbn. rewrite app_nil_r. apply Permutation_app_comm. }
  destruct (kv_queue nd) as [q|] eqn:Eq.
  - destruct (n_name n name) as [?|pend] eqn:En; [by destruct Hst as [[=] _]|]. destruct Hst as (_ & Ha & Hpend).
    assert (Hr2 : harbor_rep (queue_addrs (Some q) ++ X) (state_with p nd1 h2 None) (set_name n name (Known handle))).
    { unfold state_with, h2. cbn [h_map field_set]. rewrite set_node_twice. exact Hknow. }
    destruct (flush_name_ok X h2 _ name p nd1 q Ht2 Hloc2 Eq Hq ltac:(unfold is_u32; cbn; lia) Hr2)
      as (h3 & Hrun & Hr3); [by apply small_known|rewrite Ha; by apply (proj1 Hsmall _ _ En)|].
    exists h3. split; [exact Hrun|]. rewrite net_dispatch_set_name, Ha in Hr3. unfold net_learn. rewrite En.
    destruct pend; [by specialize (Hpend eq_refl)|]. exact Hr3.
  - exists h2. split; [done|]. unfold h2. replace nd1 with (nd1 <| kv_queue := None |>)
      by (unfold nd1; destruct nd; cbn in *; by subst).
    unfold net_learn. destruct (n_name n name) as [?|pend] eqn:En; [exact Hknow|].
    destruct Hst as (_ & Ha & _). cbn in Ha. subst pend. exact Hknow.
Qed.

(** ** Commands *)

Lemma until_nul_text s : Forall (λ c, c ≠ 0) s → until_nul (s ++ [0]) = Some s.
Proof.
  induction 1 as [|c s Hc Hs IH]; [done|]. cbn. rewrite (proj2 (Z.eqb_neq _ _) Hc), IH. done.
Qed.

Lemma padded_text s k : Forall (λ c, c ≠ 0) s → padded (s ++ replicate k 0).
Proof.
  induction 1 as [|c s Hc Hs IH]; cbn.
  - destruct k; [done|]. cbn. induction k; cbn; auto.
  - by rewrite (proj2 (Z.eqb_neq _ _) Hc).
Qed.

(** A link comes up. *)
Lemma connect_ok X h n c fd id :
  harbor_rep X h n → 0 < id < REMOTE_MAX → fd ≠ 0 →
  ∃ h', (slave ← get_slave id;
         if negb (s_fd slave =? 0) then skynet_error (str "Harbor " ++ print_d id ++ str " alreay exist")
         else
           upd_slave id (λ s, s <| s_fd := fd |>);;
           call (Csocket_start fd);;
           handshake id;;
           if c =? ch_S then upd_slave id (λ s, s <| s_status := STATUS_HANDSHAKE |>)
           else upd_slave id (λ s, s <| s_status := STATUS_HEADER |>);; dispatch_queue id) h = Ok (tt, h')
    ∧ harbor_rep X h' (net_connect n c fd id).
Proof.
  intros Hr Hid Hfd0. destruct (rep_link _ _ _ id Hr ltac:(lia)) as (s & Hs & Hl & _).
  pstep (get_slave_ok _ _ _ Hs). unfold net_connect.
  destruct (link_at n id) as [p|fd' p|fd' rest|fd'] eqn:El; destruct Hl as (Hfd & Hl4 & Hby & Hq & Hl); cbn in Hfd; rewrite Hfd.
  2-4: rewrite (proj2 (Z.eqb_neq _ _)) by (by destruct Hl); eexists; (split; [done|]); by apply rep_log.
  destruct Hl as (Hst & Hrecv & Hread & Ha). cbn [Z.eqb negb].
  set (s1 := s <| s_fd := fd |>). set (h1 := h <| h_s := <[Z.to_nat id := s1]> (h_s h) |>).
  pstep (upd_slave_ok h id s (λ s, s <| s_fd := fd |>) Hs). fold s1 h1.
  assert (Hs1 : zget (h_s h1) id = Some s1).
  { apply (zget_zset_eq (h_s h)). apply zset_Some. by apply zget_Some_lt with s. }
  set (h2 := h1 <| h_ctx := (h_ctx h ++ [Csocket_start fd]) ++ [Csocket_send fd [u8 (h_id h)] 1] |>).
  rewrite (prog_bind_ok _ _ h1 tt (h1 <| h_ctx := h_ctx h ++ [Csocket_start fd] |>)) by done.
  rewrite (prog_bind_ok (handshake id) _ _ tt h2).
  2:{ unfold handshake. set (h1' := h1 <| h_ctx := _ |>). pstep (get_slave_ok h1' id s1 Hs1). done. }
  set (s3 := s1 <| s_status := STATUS_HANDSHAKE |>). set (h3 := h2 <| h_s := <[Z.to_nat id := s3]> (h_s h2) |>).
  set (n1 := log n [Csocket_start fd; Csocket_send fd [u8 (n_id n)] 1]).
  assert (Hr3 : harbor_rep X h3 (set_link n1 id (Handshaking fd p))).
  { pose proof (rep_set X X h n id s s3 (Handshaking fd p) [Csocket_start fd; Csocket_send fd [u8 (h_id h)] 1]
      (h_live h) Hr Hs) as Hrep. rewrite (hr_id _ _ _ Hr) in Hrep at 2. unfold h3, h2, h1, with_env in *.
    cbn -[insert s3] in *. rewrite list_insert_insert_eq, <- app_assoc. apply Hrep; [by split_and!|].
    pose proof (hr_owns _ _ _ Hr) as Ho. by rewrite (addrs_split _ _ _ Hs) in Ho. }
  destruct (c =? ch_S).
  - exists h3. split; [|done]. exact (upd_slave_ok h2 id s1 (λ s, s <| s_status := STATUS_HANDSHAKE |>) Hs1).
  - assert (El3 : link_at (set_link n1 id (Handshaking fd p)) id = Handshaking fd p)
      by exact (link_at_set X h n id _ Hr ltac:(lia)).
    destruct (handshake_done_ok X h3 _ id fd p Hr3 Hid El3) as (h4 & h5 & Hu & Hd & Hr5).
    assert (Hs3 : zget (h_s h3) id = Some s3).
    { apply (zget_zset_eq (h_s h2)). apply zset_Some. by apply zget_Some_lt with s1. }
    assert (Hu' : upd_slave id (λ s, s <| s_status := STATUS_HEADER |>) h2 = Ok (tt, h4)).
    { rewrite <- Hu, (upd_slave_ok h3 id s3 _ Hs3), (upd_slave_ok h2 id s1 _ Hs1). unfold h3. cbn -[insert].
      by rewrite !list_insert_insert_eq. }
    pstep Hu'. exists h5. split; [done|]. by rewrite set_link_twice in Hr5.
Qed.

Lemma harbor_command_ok X h n text session source :
  harbor_rep X h n → small n → (2 <= length text)%nat → Z.of_nat (length text) < 2 ^ 31 →
  Forall (λ c, c ≠ 0) text → 0 < source < 2 ^ 32 →
  ∃ h', harbor_command send_returns (text ++ [0]) (Z.of_nat (length text)) session source h = Ok (tt, h')
    ∧ harbor_rep X h' (net_command n text source).
Proof.
  intros Hr Hsmall Hlen Hlt Hnz Hsrc. unfold harbor_command, net_command. rewrite i32_small by lia.
  set (arg := drop 2 text). assert (Hal : length arg = (length text - 2)%nat) by apply length_drop.
  assert (Hanz : Forall (λ c, c ≠ 0) arg) by (by apply Forall_drop).
  assert (Hdrop : drop 2 (text ++ [0]) = arg ++ [0]) by (by rewrite drop_app_le by lia).
  assert (Hcopy : copy_out (text ++ [0]) 2 (Z.of_nat (length text) - 2) = Some arg).
  { rewrite copy_out_spec by (rewrite ?length_app; cbn; lia). change (Z.to_nat 2) with 2%nat.
    rewrite Hdrop, take_app_le, take_ge by lia. done. }
  assert (Hc : ∃ c, zget text 0 = Some c ∧ zget (text ++ [0]) 0 = Some c).
  { destruct text as [|c text]; [cbn in Hlen; lia|]. by exists c. }
  destruct Hc as (c & -> & Hc). rewrite (need_bind _ _ _ _ Hc). change (default 0 (Some c)) with c.
  destruct (c =? ch_N); [|destruct ((c =? ch_S) || (c =? ch_A))].
  - assert (E : (Z.of_nat (length text) - 2 <=? 0) || (GLOBALNAME_LENGTH <=? Z.of_nat (length text) - 2)
                = (length arg =? 0)%nat || (16 <=? length arg)%nat).
    { unfold GLOBALNAME_LENGTH. apply eq_true_iff_eq. rewrite !orb_true_iff, !Z.leb_le, Nat.eqb_eq, Nat.leb_le. lia. }
    rewrite E. destruct ((length arg =? 0)%nat || (16 <=? length arg)%nat) eqn:Eb.
    + rewrite (need_bind _ _ _ arg) by (unfold c_str; cbn [Z.leb Z.compare]; change (Z.to_nat 2) with 2%nat;
        rewrite Hdrop; by apply until_nul_text).
      eexists. split; [done|]. by apply rep_log.
    + apply orb_false_iff in Eb as [E1%Nat.eqb_neq E2%Nat.leb_gt]. rewrite (need_bind _ _ _ _ Hcopy).
      unfold GLOBALNAME_LENGTH.
      replace (Z.to_nat (16 - (Z.of_nat (length text) - 2))) with (16 - length arg)%nat by lia.
      apply update_name_ok; try done. split; [rewrite length_app, length_replicate; lia|by apply padded_text].
  - rewrite (need_bind _ _ _ _ Hcopy), (need_bind _ _ _ arg) by (by apply until_nul_text).
    destruct (scan_two arg) as [fd id]. destruct (_ || _) eqn:Eb.
    + eexists. split; [done|]. by apply rep_log.
    + bool_prop. by apply connect_ok.
  - rewrite (need_bind _ _ _ text) by (unfold c_str; cbn [Z.leb Z.compare]; by apply until_nul_text).
    eexists. split; [done|]. by apply rep_log.
Qed.

(** ** The callback *)

(** What a message must look like, and the blocks it brings. *)
Definition message_ok (type source : Z) (msg : harbor_message) : Prop :=
  match msg with
  | Msocket m =>
      type = PTYPE_SOCKET ∧
      if sm_type m =? SKYNET_SOCKET_TYPE_DATA then
        ∃ b, sm_buffer m = Some b ∧ sm_ud m = Z.of_nat (length (b_data b)) ∧ Forall is_byte (b_data b) ∧ b_data b ≠ []
      else sm_buffer m = None
  | Mtext msg sz =>
      type = PTYPE_HARBOR ∧ 0 < source < 2 ^ 32 ∧ 2 <= sz < 2 ^ 31 ∧
      ∃ text, msg = text ++ [0] ∧ sz = Z.of_nat (length text) ∧ Forall (λ c, c ≠ 0) text
  | Mremote name handle message sz =>
      type ≠ PTYPE_SOCKET ∧ type ≠ PTYPE_HARBOR ∧ name_ok name ∧ is_u32 handle ∧ buffer_ok message sz
  end.

Definition message_addrs (msg : harbor_message) : list positive :=
  match msg with
  | Msocket m => addr_of (sm_buffer m)
  | Mtext _ _ => []
  | Mremote _ _ message _ => addr_of message
  end.

Lemma on_socket_ok X h n type m :
  harbor_rep (addr_of (sm_buffer m) ++ X) h n → message_ok type 0 (Msocket m) →
  simulates X (on_socket send_returns m type h) (net_socket send_returns n type m).
Proof.
  intros Hr [_ Hm]. unfold on_socket, net_socket.
  destruct (sm_type m =? SKYNET_SOCKET_TYPE_DATA) eqn:Et.
  { destruct Hm as (b & Hb & Hud & Hby & Hne). rewrite Hb. apply Z.eqb_eq in Et.
    rewrite <- Hb. rewrite Hb in Hr. pose proof (on_data_ok send_returns X h n m b Et Hb Hud Hby Hne Hr) as H.
    by rewrite Hb in H |- *. }
  rewrite Hm in Hr. cbn in Hr. unfold c_true.
  destruct (_ || _).
  { rewrite (prog_bind_ok _ _ _ _ _ (harbor_id_ok _ _ _ (sm_id m) Hr)). destruct (net_harbor n (sm_id m) =? 0); cbn [negb].
    - eexists. split; [done|]. by apply rep_log.
    - unfold report_harbor_down. rewrite get_bind, (hr_slave _ _ _ Hr). eexists. split; [done|]. by apply rep_log. }
  destruct (_ =? SKYNET_SOCKET_TYPE_CONNECT); [by exists h|].
  destruct (_ =? SKYNET_SOCKET_TYPE_WARNING).
  { rewrite (prog_bind_ok _ _ _ _ _ (harbor_id_ok _ _ _ (sm_id m) Hr)). destruct (net_harbor n (sm_id m) =? 0); cbn [negb].
    - by exists h.
    - eexists. split; [done|]. by apply rep_log. }
  eexists. split; [done|]. by apply rep_log.
Qed.

(** The claim of the file, inside the section. *)
Lemma mainloop_ok X h n type session source msg :
  harbor_rep (message_addrs msg ++ X) h n → small n → message_ok type source msg →
  simulates X (mainloop send_returns type session source msg h) (net_main send_returns n type session source msg).
Proof.
  intros Hr Hsmall Hm. destruct msg as [m|msg sz|name handle message sz]; unfold mainloop, net_main.
  - pose proof Hm as [-> _]. cbn [Z.eqb Pos.eqb PTYPE_SOCKET]. by apply on_socket_ok.
  - destruct Hm as (-> & Hsrc & Hsz & text & -> & -> & Hnz). cbn [Z.eqb Pos.eqb PTYPE_HARBOR message_addrs] in *.
    rewrite Nat2Z.id, take_app_length. apply harbor_command_ok; try done; lia.
  - destruct Hm as (Hty1 & Hty2 & Hname & Hh & Hb). cbn [message_addrs] in Hr.
    rewrite (proj2 (Z.eqb_neq _ _) Hty1), (proj2 (Z.eqb_neq _ _) Hty2). cbn [orb].
    assert (Hsend : ∃ h' taken,
      (if handle =? 0 then remote_send_name send_returns source name type session message sz
       else remote_send_handle send_returns source handle type session message sz) h = Ok (taken, h')
      ∧ harbor_rep (if taken : bool then X else addr_of message ++ X) h'
          (if handle =? 0 then net_send_name n source name type session (buffer_data message)
           else net_send n source handle type session (buffer_data message))).
    { destruct (handle =? 0); [by apply remote_send_name_ok|by apply remote_send_handle_ok]. }
    destruct Hsend as (h' & [] & Hrun & Hr'); pstep Hrun; [by exists h'|]. by apply free_ok.
Qed.
End service.

(** ** The refinement *)

Definition net_create : net := mkNet [] 0 0 (λ _, Unknown []) (replicate (Z.to_nat REMOTE_MAX) (Waiting [])).

Lemma bind_replicate_nil {A B} (f : A → list B) x k : f x = [] → replicate k x ≫= f = [].
Proof. intros Hf. induction k as [|k IH]; [done|]. cbn [replicate]. by rewrite bind_cons, Hf, IH. Qed.

Lemma harbor_create_rep : harbor_rep [] harbor_create net_create.
Proof.
  split; try done.
  - apply Forall2_replicate. by split_and!; cbn; try done; repeat constructor.
  - split; [done|]. apply Forall_replicate. constructor.
  - intros name Hname. unfold name_view.
    assert (E : (h ← name_hash name; node ← zget (h_map harbor_create) (h mod HASH_SIZE);
                 list_find (λ n, kv_key n = name) node) = None).
    { destruct (name_hash name) as [x|]; [|done]. cbn [mbind option_bind].
      destruct (zget _ _) as [node|] eqn:En; [|done]. apply zget_lookup in En.
      apply lookup_replicate in En as [-> _]. done. }
    by rewrite E.
  - assert (E : harbor_addrs harbor_create = []).
    { unfold harbor_addrs, map_addrs, harbor_create, hash_new. cbn [h_map h_s].
      rewrite (bind_replicate_nil node_addrs []), (bind_replicate_nil slave_addrs slave_new); done. }
    rewrite E. split; [constructor|]. intros x. set_solver.
Qed.

(** C15. The harbor service implements the abstract service, which has no
    rings, hash chains, receive buffers or addresses: from every state [h] that
    stands for an abstract state [n], the callback handles every well-formed
    message as the abstract service does.  In particular it reads and writes
    only inside its arrays, every buffer is freed or handed on exactly once and
    none is lost, and the only faults are those the abstract service names. *)
Theorem harbor_refines send_returns h n type session source msg :
  harbor_rep (message_addrs msg) h n → small n → message_ok type source msg →
  simulates [] (mainloop send_returns type session source msg h) (net_main send_returns n type session source msg).
Proof. intros Hr. apply mainloop_ok. by rewrite app_nil_r. Qed.

Lemma net_create_small : small net_create.
Proof. split; [by intros name p [= <-]|]. apply Forall_replicate. done. Qed.

Lemma harbor_refines_witness :
  simulates [] (mainloop (λ _, 0) PTYPE_HARBOR 0 16 (Mtext (str "A 5 2" ++ [0]) 5) harbor_create)
    (net_main (λ _, 0) net_create PTYPE_HARBOR 0 16 (Mtext (str "A 5 2" ++ [0]) 5)).
Proof.
  apply (harbor_refines (λ _, 0) harbor_create net_create PTYPE_HARBOR 0 16 (Mtext (str "A 5 2" ++ [0]) 5)).
  - exact harbor_create_rep.
  - exact net_create_small.
  - split; [reflexivity|]. split; [lia|]. split; [lia|]. exists (str "A 5 2"). split; [reflexivity|]. split; [reflexivity|].
    apply Forall_forall. intros x Hx. vm_compute in Hx. set_solver.
Defined.
