(* ===== verification/HarborLink.v ===== *)
(** * Messages between two harbors

    The service of one node sends messages over a link, the service of the
    other node receives their bytes in pieces of any size: every message
    arrives, in order and unchanged. *)

From stdpp Require Import prelude list gmap list_numbers strings infinite.
From S2P Require Import Prelude Skynet Handle CString Harbor HarborRep HarborNet HarborStream HarborSafe.

#[local] Arguments str : simpl never.
#[local] Arguments print_d : simpl never.
#[local] Arguments print_x : simpl never.

(** ** Arriving messages *)

(** The node hands a fresh block to the service. *)
Definition arrive (data : bytes) (h : harbor) : block * harbor :=
  let p := fresh (h_live h) in (mkBlock p data, h <| h_live := {[p]} ∪ h_live h |>).

Lemma arrive_rep X h n data :
  harbor_rep X h n → harbor_rep (b_addr (arrive data h).1 :: X) (arrive data h).2 n.
Proof.
  intros [? ? ? ? ? ? ? [Hd Hl]]. split; try done. cbn. split.
  - apply NoDup_cons. split; [|done]. intros Hp%Hl. by apply (is_fresh (h_live h)).
  - intros p. set_solver.
Qed.

(** A message for another node. *)
Record letter := mkLetter {
  l_source : Z;
  l_destination : Z;
  l_type : Z;
  l_session : Z;
  l_data : bytes
}.

Record letter_ok (l : letter) : Prop := {
  lo_source : is_u32 (l_source l);
  lo_destination : is_u32 (l_destination l) ∧ l_destination l ≠ 0;
  lo_type : 0 <= l_type l < 256 ∧ l_type l ≠ PTYPE_SOCKET ∧ l_type l ≠ PTYPE_HARBOR;
  lo_session : - 2 ^ 31 <= l_session l < 2 ^ 31;
  lo_data : Forall is_byte (l_data l);
  lo_size : Z.of_nat (length (l_data l)) + HEADER_COOKIE_LENGTH < 2 ^ 24
}.

Definition mail_of (l : letter) : mail :=
  (mkHeader (l_source l)
     (u32 (Z.lor (Z.shiftl (l_type l) HANDLE_REMOTE_SHIFT) (Z.land (l_destination l) HANDLE_MASK)))
     (u32 (l_session l)), l_data l).

Section services.
Context (send_returns : list harbor_call → Z).

(** The callback with each message in turn. *)
Fixpoint send_all (letters : list letter) (h : harbor) : result harbor :=
  match letters with
  | [] => Ok h
  | l :: letters =>
      let '(b, h) := arrive (l_data l) h in
      match mainloop send_returns (l_type l) (l_session l) (l_source l)
              (Mremote (replicate 16 0) (l_destination l) (Some b) (Z.of_nat (length (l_data l)))) h with
      | Ok (_, h) => send_all letters h
      | Bad e => Bad e
      end
  end.

(** The callback with each piece of a stream in turn. *)
Fixpoint receive_all (fd : Z) (chunks : list bytes) (h : harbor) : result harbor :=
  match chunks with
  | [] => Ok h
  | c :: chunks =>
      let '(b, h) := arrive c h in
      match mainloop send_returns PTYPE_SOCKET 0 0
              (Msocket (mkSocketMessage SKYNET_SOCKET_TYPE_DATA fd (Z.of_nat (length c)) (Some b))) h with
      | Ok (_, h) => receive_all fd chunks h
      | Bad e => Bad e
      end
  end.
End services.

(** ** Headers *)

Lemma to_bigendian_div x : is_u32 x →
  to_bigendian x = [x / 2 ^ 24; x / 2 ^ 16 mod 256; x / 2 ^ 8 mod 256; x mod 256].
Proof.
  intros Hx. unfold to_bigendian. change 255 with (2 ^ 8 - 1). rewrite !land_ones_mod, !Z.shiftr_div_pow2 by lia.
  rewrite (Z.mod_small (x / 2 ^ 24)); [done|]. unfold is_u32 in Hx. zify_div.
Qed.

Lemma to_bigendian_bytes x : is_u32 x → Forall is_byte (to_bigendian x).
Proof.
  intros Hx. rewrite to_bigendian_div by done. rewrite !Forall_cons, Forall_nil. unfold is_u32, is_byte in *.
  split_and!; try done; zify_div.
Qed.

Lemma bigendian_roundtrip x rest : is_u32 x → from_bigendian (to_bigendian x ++ rest) = Some x.
Proof.
  intros Hx. rewrite to_bigendian_div by done. unfold is_u32 in Hx. set (b0 := x / 2 ^ 24). set (b1 := x / 2 ^ 16 mod 256).
  set (b2 := x / 2 ^ 8 mod 256). set (b3 := x mod 256).
  change (Some (u32 (Z.lor (Z.lor (Z.lor (Z.shiftl b0 24) (Z.shiftl b1 16)) (Z.shiftl b2 8)) b3)) = Some x). f_equal.
  assert (E : x = b0 * 2 ^ 24 + b1 * 2 ^ 16 + b2 * 2 ^ 8 + b3) by (subst b0 b1 b2 b3; zify_div).
  assert (0 <= b0 < 256 ∧ 0 <= b1 < 256 ∧ 0 <= b2 < 256 ∧ 0 <= b3 < 256) by (subst b0 b1 b2 b3; zify_div).
  clearbody b0 b1 b2 b3. rewrite !Z.shiftl_mul_pow2 by lia.
  rewrite (Z.lor_comm (b0 * 2 ^ 24)), (lor_add_high (b1 * 2 ^ 16) b0 24) by lia.
  replace (b1 * 2 ^ 16 + b0 * 2 ^ 24) with ((b1 + b0 * 2 ^ 8) * 2 ^ 16) by lia.
  rewrite Z.lor_comm. rewrite (Z.lor_comm _ (b2 * 2 ^ 8)), (lor_add_high (b2 * 2 ^ 8)) by lia.
  replace (b2 * 2 ^ 8 + (b1 + b0 * 2 ^ 8) * 2 ^ 16) with ((b2 + b1 * 2 ^ 8 + b0 * 2 ^ 16) * 2 ^ 8) by lia.
  rewrite lor_add_high by lia. rewrite u32_small; lia.
Qed.

Definition header_ok (hd : remote_message_header) : Prop :=
  is_u32 (rh_source hd) ∧ is_u32 (rh_destination hd) ∧ is_u32 (rh_session hd).

Lemma header_roundtrip hd : header_ok hd → message_to_header (header_to_message hd) = Some hd.
Proof.
  intros (H1 & H2 & H3). unfold message_to_header, header_to_message.
  rewrite bigendian_roundtrip by done. cbn [mbind option_bind].
  change (drop 4 (to_bigendian (rh_source hd) ++ ?x)) with x.
  rewrite bigendian_roundtrip by done. cbn [mbind option_bind].
  change (drop 8 (to_bigendian (rh_source hd) ++ to_bigendian (rh_destination hd) ++ ?x)) with x.
  rewrite <- (app_nil_r (to_bigendian (rh_session hd))), bigendian_roundtrip by done.
  by destruct hd.
Qed.

(** The type and the handle share the destination of the header. *)
Lemma tag_split type destination :
  0 <= type < 256 →
  let d := u32 (Z.lor (Z.shiftl type HANDLE_REMOTE_SHIFT) (Z.land destination HANDLE_MASK)) in
  Z.shiftr d HANDLE_REMOTE_SHIFT = type ∧ Z.land d HANDLE_MASK = Z.land destination HANDLE_MASK.
Proof.
  intros Ht. unfold HANDLE_REMOTE_SHIFT, HANDLE_MASK. change 16777215 with (2 ^ 24 - 1).
  rewrite Z.shiftl_mul_pow2, Z.lor_comm, !land_ones_mod by lia. pose proof (Z.mod_pos_bound destination (2 ^ 24) ltac:(lia)) as Hm.
  rewrite lor_add_high, u32_small, Z.shiftr_div_pow2 by lia. split; zify_div.
Qed.

(** What the receiver hands to its node for a letter. *)
Definition delivery (hid : Z) (l : letter) : harbor_call :=
  Csend (l_source l) (u32 (Z.lor (Z.land (l_destination l) HANDLE_MASK) (Z.shiftl (u32 hid) HANDLE_REMOTE_SHIFT)))
        (Z.lor (l_type l) PTYPE_TAG_DONTCOPY) (l_session l) (l_data l).

(** The content of a package. *)
Definition body (m : mail) : bytes := m.2 ++ header_to_message m.1.

Lemma length_header_to_message hd : length (header_to_message hd) = 12%nat.
Proof. done. Qed.

Lemma length_body m : length (body m) = (length m.2 + 12)%nat.
Proof. unfold body. by rewrite length_app, length_header_to_message. Qed.

Lemma letter_header l : letter_ok l → header_ok (mail_of l).1.
Proof. intros []. split_and!; [done|apply u32_bound..]. Qed.

Lemma deliver_letter send_returns hid ctx l :
  letter_ok l → (∀ ctx, 0 <= send_returns ctx) →
  deliver send_returns hid ctx (body (mail_of l)) = ctx ++ [delivery hid l].
Proof.
  intros Hl Hs. unfold deliver. rewrite length_body.
  replace (length (mail_of l).2 + 12 - 12)%nat with (length (mail_of l).2) by lia. unfold body.
  rewrite drop_app_length, take_app_length, header_roundtrip by (by apply letter_header).
  change (default (mkHeader 0 0 0) (Some ?x)) with x. cbn [mail_of fst snd rh_source rh_destination rh_session].
  destruct Hl as [_ _ [Ht _] Hss _ _]. destruct (tag_split (l_type l) (l_destination l) Ht) as [E1 E2].
  cbv zeta in E1, E2. rewrite E1, E2, i32_u32 by done.
  rewrite (proj2 (Z.ltb_ge _ _)) by apply Hs. done.
Qed.

(** ** The stream *)

Lemma encode_body m :
  Z.of_nat (length m.2) + 12 < 2 ^ 24 →
  ∃ b1 b2 b3, encode m = 0 :: b1 :: b2 :: b3 :: body m ∧ header_length b1 b2 b3 = length (body m)
    ∧ is_byte b1 ∧ is_byte b2 ∧ is_byte b3.
Proof.
  intros Hlt. unfold encode, HEADER_COOKIE_LENGTH. rewrite to_bigendian_div by (unfold is_u32; lia).
  set (x := Z.of_nat (length m.2) + 12) in *. replace (x / 2 ^ 24) with 0 by (symmetry; apply Z.div_small; lia).
  eexists _, _, _. split; [done|]. rewrite length_body. unfold header_length, is_byte. split_and!; zify_div.
Qed.

Lemma cut_encode m s :
  Z.of_nat (length m.2) + 12 < 2 ^ 24 →
  cut (encode m ++ s) = (let '(ps, e) := cut s in (body m :: ps, e)).
Proof.
  intros Hlt. destruct (encode_body m Hlt) as (b1 & b2 & b3 & -> & Hlen & _).
  pose proof (length_body m) as Hb. cbn [app].
  rewrite (cut_package b1 b2 b3 (body m ++ s)).
  2:{ rewrite Hlen, length_app. lia. }
  2:{ intros E%(f_equal length). rewrite length_app in E. cbn in E. lia. }
  rewrite Hlen. rewrite (proj2 (Nat.ltb_ge _ _)) by lia. by rewrite take_app_length, drop_app_length.
Qed.

(** A part of a package is kept. *)
Lemma cut_part m s t :
  Z.of_nat (length m.2) + 12 < 2 ^ 24 → s ++ t = encode m → t ≠ [] → cut s = ([], Rest s).
Proof.
  intros Hlt He Ht. destruct (encode_body m Hlt) as (b1 & b2 & b3 & Em & Hlen & _). rewrite Em in He.
  destruct s as [|c0 [|c1 [|c2 [|c3 s]]]]; try done. injection He as -> -> -> -> He.
  apply cut_wait. left. rewrite Hlen, <- He, length_app. destruct t; [done|]. cbn. lia.
Qed.

(** A prefix of the packages of [ls]: the packages that are complete, and the rest. *)
Lemma cut_prefix (ls : list mail) s t :
  Forall (λ m : mail, Z.of_nat (length m.2) + 12 < 2 ^ 24) ls → s ++ t = ls ≫= encode →
  ∃ k rest, cut s = (body <$> take k ls, Rest rest) ∧ rest ++ t = drop k ls ≫= encode ∧ cut rest = ([], Rest rest).
Proof.
  intros Hls. revert s. induction Hls as [|m ls Hm Hls IH]; intros s He.
  { exists 0%nat, []. apply app_nil in He as [-> ->]. done. }
  rewrite bind_cons in He. destruct (decide (length (encode m) <= length s)%nat) as [Hle|Hgt].
  - assert (Es : s = encode m ++ drop (length (encode m)) s ∧ drop (length (encode m)) s ++ t = ls ≫= encode).
    { assert (take (length (encode m)) s = encode m).
      { apply (f_equal (take (length (encode m)))) in He. by rewrite take_app_le, take_app_length in He. }
      split; [rewrite <- H at 1; by rewrite take_drop|].
      apply (f_equal (drop (length (encode m)))) in He. by rewrite drop_app_le, drop_app_length in He. }
    destruct Es as [Es Et]. destruct (IH _ Et) as (k & rest & Hc & Hr & Hcr).
    exists (S k), rest. rewrite Es, cut_encode, Hc by done. done.
  - exists 0%nat, s. cut (cut s = ([], Rest s)); [done|].
    assert (Es : s ++ drop (length s) (encode m) = encode m).
    { assert (take (length s) (encode m) = s).
      { apply (f_equal (take (length s))) in He. rewrite take_app_length, take_app_le in He by lia. done. }
      rewrite <- H at 1. by rewrite take_drop. }
    apply (cut_part m s _ Hm Es). intros E%(f_equal length). rewrite length_drop in E. change (@length Z []) with 0%nat in E. lia.
Qed.

(** ** Sending *)

Definition on_wire (fd : Z) (l : letter) : harbor_call :=
  Csocket_send fd (encode (mail_of l)) (Z.of_nat (length (l_data l)) + 16).

Lemma remote_calls_letter fd l : letter_ok l → remote_calls fd (mail_of l) = [on_wire fd l].
Proof.
  intros [_ _ _ _ _ Hsz]. unfold remote_calls, on_wire. unfold HEADER_COOKIE_LENGTH in *. cbn [mail_of snd].
  rewrite (proj2 (Z.ltb_ge _ _)) by lia. rewrite i32_small by lia. do 2 f_equal. lia.
Qed.

Lemma log_app n a b : log (log n a) b = log n (a ++ b).
Proof. unfold log. cbn. by rewrite app_assoc. Qed.

Section link.
Context (send_returns : list harbor_call → Z).

Lemma send_all_ok letters h n i fd rest :
  harbor_rep [] h n → small n → Forall letter_ok letters →
  Forall (λ l, Z.shiftr (l_destination l) HANDLE_REMOTE_SHIFT = i) letters →
  link_at n i = Open fd rest → i ≠ n_id n →
  ∃ h', send_all send_returns letters h = Ok h' ∧ harbor_rep [] h' (log n (on_wire fd <$> letters)).
Proof.
  intros Hr Hsmall Hls Hi El Hid. revert h n Hr Hsmall El Hid.
  induction Hls as [|l letters Hl Hls IH]; intros h n Hr Hsmall El Hid.
  { exists h. by rewrite log_nil. }
  apply Forall_cons in Hi as [Hi His]. cbn [send_all].
  pose proof (arrive_rep [] h n (l_data l) Hr) as Hr1. destruct (arrive (l_data l) h) as [b h1] eqn:Ea. cbn [fst snd] in Hr1.
  assert (Eb : b_data b = l_data l) by (by injection Ea as <- _).
  pose proof Hl as [Hsrc [Hd Hd0] [Ht [Ht1 Ht2]] Hss Hby Hsz].
  destruct (mainloop_ok send_returns [] h1 n (l_type l) (l_session l) (l_source l)
    (Mremote (replicate 16 0) (l_destination l) (Some b) (Z.of_nat (length (l_data l))))) as (h2 & Hrun & Hr2); try done.
  { split_and!; try done; [split; [done|by repeat constructor]|]. cbn. rewrite Eb. unfold HEADER_COOKIE_LENGTH in *. lia. }
  rewrite Hrun. cbn [net_main] in Hr2. rewrite (proj2 (Z.eqb_neq _ _) Hd0) in Hr2.
  unfold net_send in Hr2. rewrite Hi, (proj2 (Z.eqb_neq _ _) Hid), El in Hr2. cbn [buffer_data] in Hr2. rewrite Eb in Hr2.
  change (_, l_data l) with (mail_of l) in Hr2. rewrite remote_calls_letter in Hr2 by done.
  destruct (IH His h2 _ Hr2 Hsmall El Hid) as (h' & Hrun' & Hr'). exists h'. split; [done|].
  by rewrite log_app in Hr'.
Qed.

(** ** Receiving *)

Lemma net_harbor_ext n n' fd :
  (∀ j, link_fd (link_at n j) = link_fd (link_at n' j)) → net_harbor n fd = net_harbor n' fd.
Proof.
  intros Hj. unfold net_harbor. rewrite (list_find_ext (λ i, link_fd (link_at n i) = fd) (λ i, link_fd (link_at n' i) = fd)); [done|].
  intros i. by rewrite Hj.
Qed.

Lemma set_link_fd n i l j :
  0 <= i → link_fd l = link_fd (link_at n i) → link_fd (link_at (set_link n i l) j) = link_fd (link_at n j).
Proof.
  intros Hi Hl. unfold link_at, set_link, zget in *. rewrite (proj2 (Z.leb_le 0 i) Hi) in Hl. cbn.
  destruct (0 <=? j) eqn:Ej; [|done]. bool_prop.
  destruct (decide (i = j)) as [->|E]; [|rewrite list_lookup_insert_ne by lia; done].
  destruct (decide (Z.to_nat j < length (n_link n))%nat) as [Hlt|Hge].
  - by rewrite list_lookup_insert_eq.
  - by rewrite list_insert_ge by lia.
Qed.

Lemma encode_bytes l : letter_ok l → Forall is_byte (encode (mail_of l)).
Proof.
  intros Hl. destruct (letter_header l Hl) as (H1 & H2 & H3). destruct Hl as [_ _ _ _ Hby Hsz].
  destruct (encode_body (mail_of l) Hsz) as (b1 & b2 & b3 & -> & _ & ? & ? & ?).
  rewrite !Forall_cons. split_and!; try done. unfold body, header_to_message. rewrite !Forall_app.
  split_and!; try done; by apply to_bigendian_bytes.
Qed.

Lemma foldl_deliver hid ctx letters :
  (∀ ctx, 0 <= send_returns ctx) → Forall letter_ok letters →
  foldl (deliver send_returns hid) ctx (body <$> (mail_of <$> letters)) = ctx ++ (delivery hid <$> letters).
Proof.
  intros Hs Hls. revert ctx. induction Hls as [|l letters Hl Hls IH]; intros ctx; [by rewrite app_nil_r|].
  rewrite !fmap_cons. cbn [foldl]. rewrite deliver_letter, IH by done. by rewrite <- app_assoc.
Qed.

(** One piece of the stream. *)
Lemma receive_chunk_ok c h n id fd rest letters t :
  (∀ ctx, 0 <= send_returns ctx) → Forall letter_ok letters →
  harbor_rep [] h n → net_harbor n fd = id → id ≠ 0 → link_at n id = Open fd rest →
  c ≠ [] → (rest ++ c) ++ t = (mail_of <$> letters) ≫= encode →
  ∃ k rest' h' n',
    mainloop send_returns PTYPE_SOCKET 0 0
      (Msocket (mkSocketMessage SKYNET_SOCKET_TYPE_DATA fd (Z.of_nat (length c)) (Some (arrive c h).1))) (arrive c h).2
    = Ok (tt, h') ∧ harbor_rep [] h' n' ∧ net_harbor n' fd = id ∧ link_at n' id = Open fd rest'
    ∧ h_id h' = h_id h ∧ h_ctx h' = h_ctx h ++ (delivery (h_id h) <$> take k letters)
    ∧ rest' ++ t = (mail_of <$> drop k letters) ≫= encode ∧ cut rest' = ([], Rest rest').
Proof.
  intros Hsend Hls Hr Hid Hid0 El Hc He.
  assert (Hsz : Forall (λ m : mail, Z.of_nat (length m.2) + 12 < 2 ^ 24) (mail_of <$> letters)).
  { apply Forall_fmap. eapply Forall_impl; [done|]. by intros l []. }
  destruct (cut_prefix _ _ _ Hsz He) as (k & rest' & Hcut & Hrest & Hcr).
  assert (Hby : Forall is_byte c).
  { assert (Hall : Forall is_byte ((rest ++ c) ++ t)); [|rewrite !Forall_app in Hall; tauto].
    rewrite He. clear -Hls. induction Hls as [|l ls Hl Hls IH]; [constructor|].
    rewrite fmap_cons, bind_cons. apply Forall_app. split; [by apply encode_bytes|done]. }
  assert (Hid' : 0 < id < REMOTE_MAX ∧ link_fd (link_at n id) = fd).
  { rewrite <- Hid. apply net_harbor_some. by rewrite Hid. }
  set (b := (arrive c h).1). set (msg := mkSocketMessage _ _ _ _).
  set (n' := set_link (n <| n_ctx := n_ctx n ++ (delivery (n_id n) <$> take k letters) |>) id (Open fd rest')).
  assert (Hn : net_socket send_returns n PTYPE_SOCKET msg = Ok n').
  { unfold net_socket, net_data. change (sm_id msg) with fd. change (buffer_data (sm_buffer msg)) with c.
    cbn [Z.eqb Pos.eqb sm_type msg SKYNET_SOCKET_TYPE_DATA]. rewrite Hid, (proj2 (Z.eqb_neq _ _) Hid0), El.
    unfold net_stream. rewrite Hcut, <- fmap_take. by rewrite foldl_deliver by (done || by apply Forall_take). }
  pose proof (on_socket_ok send_returns [] (arrive c h).2 n PTYPE_SOCKET msg) as Hsim. rewrite Hn in Hsim.
  destruct Hsim as (h' & Hrun & Hr'); [by apply arrive_rep| |].
  { split; [done|]. by exists b. }
  exists k, rest', h', n'. destruct Hid' as [Hid1 Hfd]. split_and!; try done.
  - rewrite <- Hid. apply net_harbor_ext. intros j.
    change (link_at n' j) with (link_at (set_link n id (Open fd rest')) j). apply set_link_fd; [lia|by rewrite Hfd].
  - exact (link_at_set [] h n id (Open fd rest') Hr ltac:(lia)).
  - rewrite (hr_id _ _ _ Hr'), (hr_id _ _ _ Hr). done.
  - rewrite (hr_ctx _ _ _ Hr'), (hr_id _ _ _ Hr), (hr_ctx _ _ _ Hr). done.
  - by rewrite fmap_drop.
Qed.

Lemma receive_all_ok chunks h n id fd rest letters :
  (∀ ctx, 0 <= send_returns ctx) → Forall letter_ok letters →
  harbor_rep [] h n → net_harbor n fd = id → id ≠ 0 → link_at n id = Open fd rest → cut rest = ([], Rest rest) →
  Forall (λ c, c ≠ []) chunks → rest ++ concat chunks = (mail_of <$> letters) ≫= encode →
  ∃ h', receive_all send_returns fd chunks h = Ok h' ∧ h_ctx h' = h_ctx h ++ (delivery (h_id h) <$> letters).
Proof.
  intros Hsend Hls Hr Hid Hid0 El Hcr Hch He.
  revert h n rest letters Hls Hr Hid El Hcr He.
  induction Hch as [|c chunks Hc Hch IH]; intros h n rest letters Hls Hr Hid El Hcr He.
  - destruct letters as [|l letters]; [exists h; by rewrite app_nil_r|]. exfalso.
    cbn [concat] in He. rewrite app_nil_r, fmap_cons, bind_cons in He. apply Forall_cons in Hls as [[_ _ _ _ _ Hsz] _].
    rewrite He, cut_encode in Hcr by exact Hsz. by destruct (cut _).
  - cbn [concat] in He. rewrite app_assoc in He.
    destruct (receive_chunk_ok c h n id fd rest letters _ Hsend Hls Hr Hid Hid0 El Hc He)
      as (k & rest' & h1 & n1 & Hrun & Hr1 & Hid1 & El1 & Hh1 & Hctx & He1 & Hcr1).
    destruct (IH h1 n1 rest' (drop k letters)) as (h' & Hrun' & Hctx'); try done; [by apply Forall_drop|].
    exists h'. split.
    + cbn [receive_all]. destruct (arrive c h) as [b h0]. cbn [fst snd] in Hrun. by rewrite Hrun.
    + rewrite Hctx', Hctx, Hh1, <- app_assoc, <- fmap_app, take_drop. done.
Qed.
End link.

(** ** The claims *)

(** The bytes written to a descriptor. *)
Definition wire_bytes (fd : Z) (calls : list harbor_call) : bytes :=
  calls ≫= λ c, match c with Csocket_send fd' data _ => if fd' =? fd then data else [] | _ => [] end.

Lemma wire_letters fd letters : wire_bytes fd (on_wire fd <$> letters) = (mail_of <$> letters) ≫= encode.
Proof.
  induction letters as [|l letters IH]; [done|]. rewrite !fmap_cons. unfold wire_bytes. rewrite !bind_cons.
  cbn [on_wire]. rewrite Z.eqb_refl. f_equal. exact IH.
Qed.


(** A service with one open link, to harbor 2 over descriptor 5. *)
Definition example_net : net := net_command net_create (str "A 5 2") 16.

Lemma example_harbor : ∃ h,
  mainloop (λ _, 0) PTYPE_HARBOR 0 16 (Mtext (str "A 5 2" ++ [0]) 5) harbor_create = Ok (tt, h) ∧ harbor_rep [] h example_net.
Proof.
  apply (mainloop_ok (λ _, 0) [] harbor_create net_create PTYPE_HARBOR 0 16 (Mtext (str "A 5 2" ++ [0]) 5)).
  - exact harbor_create_rep.
  - exact net_create_small.
  - split; [reflexivity|]. split; [lia|]. split; [lia|]. exists (str "A 5 2"). split; [reflexivity|]. split; [reflexivity|].
    apply Forall_forall. intros x Hx. vm_compute in Hx. set_solver.
Qed.

Lemma example_small : small example_net.
Proof. split; [by intros name p [= <-]|]. apply (bool_decide_eq_true_1 _). vm_compute. reflexivity. Qed.

Definition example_letter : letter := mkLetter 0x1000010 0x2000007 10 3 [104; 105].

Lemma example_letter_ok : letter_ok example_letter.
Proof. split; unfold is_u32; cbn; try (repeat split; lia || done). repeat constructor; lia. Qed.

