(* ===== verification/HarborFlaws.v ===== *)
(** * Messages the harbor service does not handle

    Consequences of the refinement of HarborSafe.v for messages outside of what
    the protocol of the links covers: data for an unknown descriptor, packages
    without a cookie, packages of 16 MB, harbors that went down, and messages
    to a name whose harbor is not connected. *)

From stdpp Require Import prelude list gmap list_numbers strings infinite.
From S2P Require Import Prelude Skynet Handle CString Harbor HarborRep HarborNet HarborStream HarborSafe HarborLink.

#[local] Arguments str : simpl never.
#[local] Arguments print_d : simpl never.
#[local] Arguments print_x : simpl never.

(** Data that arrives on descriptor [fd]. *)
Definition data_message (fd : Z) (b : block) : harbor_message :=
  Msocket (mkSocketMessage SKYNET_SOCKET_TYPE_DATA fd (Z.of_nat (length (b_data b))) (Some b)).

Lemma data_simulates send_returns h n fd b :
  harbor_rep [b_addr b] h n → Forall is_byte (b_data b) → b_data b ≠ [] →
  simulates [] (mainloop send_returns PTYPE_SOCKET 0 0 (data_message fd b) h) (net_data send_returns n fd (b_data b)).
Proof.
  intros Hr Hb Hne. apply (on_socket_ok send_returns [] h n PTYPE_SOCKET); [done|]. split; [done|]. by exists b.
Qed.

(** C35. Two messages from outside break the service.  Data for a descriptor
    that no harbor has is freed by [push_socket_data] and again by its caller.
    A package whose length is below the 12 bytes of the cookie makes the
    service read in front of the package. *)
Theorem harbor_data_faults send_returns h n fd b :
  harbor_rep [b_addr b] h n → Forall is_byte (b_data b) → b_data b ≠ [] →
  (net_harbor n fd = 0 →
     mainloop send_returns PTYPE_SOCKET 0 0 (data_message fd b) h = Bad NotLive)
  ∧ (∀ len content, net_harbor n fd ≠ 0 → link_at n (net_harbor n fd) = Open fd [] →
     b_data b = 0 :: 0 :: 0 :: len :: content → len < 12 → len <= Z.of_nat (length content) → content ≠ [] →
     mainloop send_returns PTYPE_SOCKET 0 0 (data_message fd b) h = Bad ShortPackage).
Proof.
  intros Hr Hb Hne. pose proof (data_simulates send_returns h n fd b Hr Hb Hne) as Hsim. unfold net_data in Hsim. split.
  - intros E. by rewrite E in Hsim.
  - intros len content Hid El Hd Hlen Hle Hc. rewrite (proj2 (Z.eqb_neq _ _) Hid), El in Hsim. unfold net_stream in Hsim.
    assert (Hl : header_length 0 0 len = Z.to_nat len) by (unfold header_length; f_equal; lia).
    rewrite Hd in Hsim. cbn [app] in Hsim. rewrite cut_package in Hsim by (done || lia).
    rewrite Hl, (proj2 (Nat.ltb_lt _ _)) in Hsim by lia. exact Hsim.
Qed.

Lemma harbor_data_faults_witness :
  ∃ h n b, (harbor_rep [b_addr b] h n ∧ net_harbor n 7 = 0 ∧ net_harbor n 5 = 2)
  ∧ mainloop (λ _, 0) PTYPE_SOCKET 0 0 (data_message 7 b) h = Bad NotLive
  ∧ mainloop (λ _, 0) PTYPE_SOCKET 0 0 (data_message 5 b) h = Bad ShortPackage.
Proof.
  destruct example_harbor as (h & _ & Hr). set (data := [0; 0; 0; 2; 1; 1]).
  pose proof (arrive_rep [] h example_net data Hr) as Hr'.
  assert (Hb : Forall is_byte data) by (repeat constructor; unfold is_byte; lia).
  exists (arrive data h).2, example_net, (arrive data h).1. split; [split; [exact Hr'|split; vm_compute; reflexivity]|].
  split.
  - apply (harbor_data_faults (λ _, 0) _ example_net 7 (arrive data h).1 Hr' Hb ltac:(discriminate)).
    vm_compute. reflexivity.
  - apply (harbor_data_faults (λ _, 0) _ example_net 5 (arrive data h).1 Hr' Hb ltac:(discriminate)) with 2 [1; 1];
      try lia; try discriminate; try reflexivity; vm_compute; reflexivity || discriminate.
Defined.

(** A message of 16 MB is accepted but ends the link: the sender puts
    every message below 4 GB on the wire, while the receiver takes a first byte
    of the length that is not 0 for an error, closes the descriptor and leaves
    the harbor down. *)
Theorem harbor_large_message returnsA returnsB hA nA i fdA rest bA hB nB fdB bB name source destination type session tail :
  harbor_rep [b_addr bA] hA nA → small nA → link_at nA i = Open fdA rest → i ≠ n_id nA →
  message_ok type source (Mremote name destination (Some bA) (Z.of_nat (length (b_data bA)))) → destination ≠ 0 →
  Z.shiftr destination HANDLE_REMOTE_SHIFT = i →
  2 ^ 24 <= Z.of_nat (length (b_data bA)) + HEADER_COOKIE_LENGTH < 2 ^ 31 - 4 →
  harbor_rep [b_addr bB] hB nB → net_harbor nB fdB ≠ 0 → link_at nB (net_harbor nB fdB) = Open fdB [] →
  Forall is_byte (b_data bB) → (4 <= length (b_data bB))%nat →
  let m := (mkHeader source (u32 (Z.lor (Z.shiftl type HANDLE_REMOTE_SHIFT) (Z.land destination HANDLE_MASK)))
                     (u32 session), b_data bA) in
  b_data bB ++ tail = encode m →
  ∃ hA' hB',
    mainloop returnsA type session source
      (Mremote name destination (Some bA) (Z.of_nat (length (b_data bA)))) hA = Ok (tt, hA')
    ∧ h_ctx hA' = h_ctx hA ++ [Csocket_send fdA (encode m) (Z.of_nat (length (b_data bA)) + 16)]
    ∧ mainloop returnsB PTYPE_SOCKET 0 0 (data_message fdB bB) hB = Ok (tt, hB')
    ∧ h_ctx hB' = h_ctx hB ++ [Cerror (str "Message is too long from harbor " ++ print_d (net_harbor nB fdB));
                               Csocket_close fdB].
Proof.
  intros HrA Hsmall ElA Hi Hm Hd0 Hd Hsz HrB Hid ElB Hby Hlen m He. unfold HEADER_COOKIE_LENGTH in Hsz.
  pose proof (mainloop_ok returnsA [] hA nA type session source
    (Mremote name destination (Some bA) (Z.of_nat (length (b_data bA)))) HrA Hsmall Hm) as HA. cbn [net_main] in HA.
  rewrite (proj2 (Z.eqb_neq _ _) Hd0) in HA. unfold net_send in HA.
  rewrite Hd, (proj2 (Z.eqb_neq _ _) Hi), ElA in HA. cbn [buffer_data] in HA. fold m in HA.
  destruct HA as (hA' & HrunA & HrA').
  assert (Hb0 : ∃ b0 b1 b2 b3 s, b_data bB = b0 :: b1 :: b2 :: b3 :: s ∧ b0 ≠ 0).
  { destruct (b_data bB) as [|b0 [|b1 [|b2 [|b3 s]]]]; try (cbn in Hlen; lia). exists b0, b1, b2, b3, s. split; [done|].
    unfold encode in He. rewrite to_bigendian_div in He by (unfold is_u32, HEADER_COOKIE_LENGTH; cbn; lia).
    injection He as -> _. unfold HEADER_COOKIE_LENGTH. cbn [m snd]. zify_div. }
  destruct Hb0 as (b0 & b1 & b2 & b3 & s & Es & Hb0).
  pose proof (data_simulates returnsB hB nB fdB bB HrB Hby ltac:(by rewrite Es)) as HB.
  unfold net_data in HB. rewrite (proj2 (Z.eqb_neq _ _) Hid), ElB in HB. unfold net_stream in HB.
  rewrite Es in HB. cbn [app] in HB. rewrite cut_unfold, (proj2 (Z.eqb_neq _ _) Hb0) in HB. cbn [negb] in HB.
  destruct HB as (hB' & HrunB & HrB'). exists hA', hB'. split_and!; [done| |done|].
  - rewrite (hr_ctx _ _ _ HrA'), (hr_ctx _ _ _ HrA). cbn [log n_ctx field_set]. unfold remote_calls, HEADER_COOKIE_LENGTH.
    cbn [m snd]. rewrite (proj2 (Z.ltb_ge _ _)), i32_small by lia. do 3 f_equal. lia.
  - rewrite (hr_ctx _ _ _ HrB'), (hr_ctx _ _ _ HrB). done.
Qed.

Lemma harbor_large_message_witness :
  ∃ hA bA hA' hB bB hB', Z.of_nat (length (b_data bA)) = 2 ^ 24
  ∧ mainloop (λ _, 0) 10 3 0x1000010
      (Mremote (replicate 16 0) 0x2000007 (Some bA) (Z.of_nat (length (b_data bA)))) hA = Ok (tt, hA')
  ∧ mainloop (λ _, 0) PTYPE_SOCKET 0 0 (data_message 5 bB) hB = Ok (tt, hB').
Proof.
  destruct example_harbor as (h & _ & Hr).
  assert (Hdata : ∃ data : bytes, Z.of_nat (length data) = 2 ^ 24).
  { exists (replicate (Z.to_nat (2 ^ 24)) 0). rewrite length_replicate. lia. }
  destruct Hdata as (data & Hlen). set (hd := [1; 0; 0; 12]).
  destruct (harbor_large_message (λ _, 0) (λ _, 0) (arrive data h).2 example_net 2 5 [] (arrive data h).1
    (arrive hd h).2 example_net 5 (arrive hd h).1 (replicate 16 0) 0x1000010 0x2000007 10 3
    (data ++ header_to_message (mkHeader 0x1000010 (u32 (Z.lor (Z.shiftl 10 HANDLE_REMOTE_SHIFT)
       (Z.land 0x2000007 HANDLE_MASK))) (u32 3)))) as (hA' & hB' & HA & _ & HB & _).
  - by apply arrive_rep.
  - exact example_small.
  - reflexivity.
  - vm_compute. discriminate.
  - split_and!; [discriminate|discriminate|split; [reflexivity|repeat constructor]|unfold is_u32; lia|]. cbn. lia.
  - discriminate.
  - reflexivity.
  - cbn [b_data arrive fst]. unfold HEADER_COOKIE_LENGTH. lia.
  - by apply arrive_rep.
  - vm_compute. discriminate.
  - vm_compute. reflexivity.
  - repeat constructor; lia.
  - cbn. lia.
  - unfold encode. cbn [b_data arrive fst snd]. rewrite Hlen. reflexivity.
  - exists (arrive data h).2, (arrive data h).1, hA', (arrive hd h).2, (arrive hd h).1, hB'. done.
Defined.

(** A harbor that went down is not reported to the sender: the code that
    would send an error back asks for a descriptor of 0, which a harbor that is
    down never has, so the message goes to the descriptor that was closed and
    nothing tells the sender. *)
Theorem harbor_down_unreported send_returns h n b name source destination type session fd :
  harbor_rep (addr_of b) h n → small n →
  message_ok type source (Mremote name destination b (Z.of_nat (length (buffer_data b)))) → destination ≠ 0 →
  Z.shiftr destination HANDLE_REMOTE_SHIFT ≠ n_id n →
  link_at n (Z.shiftr destination HANDLE_REMOTE_SHIFT) = Down fd →
  fd ≠ 0 ∧ ∃ h', mainloop send_returns type session source
                   (Mremote name destination b (Z.of_nat (length (buffer_data b)))) h = Ok (tt, h')
  ∧ h_ctx h' = h_ctx h ++ remote_calls fd
      (mkHeader source (u32 (Z.lor (Z.shiftl type HANDLE_REMOTE_SHIFT) (Z.land destination HANDLE_MASK))) (u32 session),
       buffer_data b).
Proof.
  intros Hr Hsmall Hm Hd0 Hi El. split.
  - destruct Hm as (_ & _ & _ & Hd & _).
    destruct (rep_link _ _ _ _ Hr (shift_handle _ Hd)) as (s & _ & Hl & _). rewrite El in Hl.
    by destruct Hl as (_ & _ & _ & _ & Hfd & _).
  - pose proof (mainloop_ok send_returns [] h n type session source
      (Mremote name destination b (Z.of_nat (length (buffer_data b))))) as H. cbn [message_addrs] in H.
    rewrite app_nil_r in H. specialize (H Hr Hsmall Hm). cbn [net_main] in H.
    rewrite (proj2 (Z.eqb_neq _ _) Hd0) in H. unfold net_send in H.
    rewrite (proj2 (Z.eqb_neq _ _) Hi), El in H. destruct H as (h' & Hrun & Hr'). exists h'. split; [done|].
    rewrite (hr_ctx _ _ _ Hr'), (hr_ctx _ _ _ Hr). done.
Qed.

(** The example service after a package that is too long came from harbor 2. *)
Lemma example_down : ∃ h n, harbor_rep [] h n ∧ small n ∧ link_at n 2 = Down 5 ∧ n_id n = 0.
Proof.
  destruct example_harbor as (h & _ & Hr). set (data := [1; 0; 0; 0]).
  pose proof (data_simulates (λ _, 0) _ example_net 5 (arrive data h).1 (arrive_rep [] h example_net data Hr)) as Hsim.
  specialize (Hsim ltac:(repeat constructor; unfold is_byte; cbn; lia) ltac:(discriminate)).
  destruct (net_data _ _ _ _) as [n|] eqn:En; [|by vm_compute in En]. destruct Hsim as (h' & _ & Hr').
  vm_compute in En. exists h', n. split; [done|]. injection En as <-. split; [|by vm_compute].
  split; [by intros name p [= <-]|]. apply (bool_decide_eq_true_1 _). vm_compute. reflexivity.
Qed.

Lemma harbor_down_unreported_witness :
  ∃ h n h', harbor_rep [] h n
  ∧ mainloop (λ _, 0) 10 3 0x1000010 (Mremote (replicate 16 0) 0x2000007 None 0) h = Ok (tt, h').
Proof.
  destruct example_down as (h & n & Hr & Hsmall & El & Hid). exists h, n.
  destruct (harbor_down_unreported (λ _, 0) h n None (replicate 16 0) 0x1000010 0x2000007 10 3 5) as (_ & h' & Hrun & _).
  - exact Hr.
  - exact Hsmall.
  - split_and!; [discriminate|discriminate|split; [reflexivity|repeat constructor]|unfold is_u32; lia|reflexivity].
  - discriminate.
  - rewrite Hid. discriminate.
  - exact El.
  - exists h'. split; [exact Hr|exact Hrun].
Defined.

(** ** Messages to a name whose harbor is not connected *)

Lemma small_set_name n name p : small n → Z.of_nat (length p) < 2 ^ 28 → small (set_name n name (Unknown p)).
Proof. intros [Hn Hl] Hp. split; [|done]. intros name' q. cbn. destruct (decide _); [by intros [= <-]|]. apply Hn. Qed.

Lemma small_set_link n i l : small n → Z.of_nat (length (pending_of l)) < 2 ^ 28 → small (set_link n i l).
Proof. intros [Hn Hl] Hp. split; [done|]. cbn. by apply Forall_insert. Qed.

Lemma small_log n calls : small n → small (log n calls).
Proof. done. Qed.

Lemma text_step send_returns h n text source :
  harbor_rep [] h n → small n → Forall (λ c, c ≠ 0) text → 2 <= Z.of_nat (length text) < 2 ^ 31 → 0 < source < 2 ^ 32 →
  ∃ h', mainloop send_returns PTYPE_HARBOR 0 source (Mtext (text ++ [0]) (Z.of_nat (length text))) h = Ok (tt, h')
    ∧ harbor_rep [] h' (net_command n text source).
Proof.
  intros Hr Hsmall Hnz Hlen Hsrc.
  pose proof (mainloop_ok send_returns [] h n PTYPE_HARBOR 0 source (Mtext (text ++ [0]) (Z.of_nat (length text)))) as H.
  cbn [net_main] in H. rewrite Nat2Z.id, take_app_length in H. apply H; try done. split_and!; try done; try lia. by exists text.
Qed.

(** What the abstract service does with the announcement of a name that
    letters wait for, and with the connection of a harbor. *)
Lemma learn_waiting n text handle m :
  let name := text ++ replicate (16 - length text) 0 in
  let i := Z.shiftr handle HANDLE_REMOTE_SHIFT in
  n_name n name = Unknown [m] → link_at n i = Waiting [] → i ≠ Z.shiftr (n_slave n) HANDLE_REMOTE_SHIFT →
  (0 < length text < 16)%nat →
  net_command n (str "N " ++ text) handle = set_name (set_link n i (Waiting [m])) name (Known handle).
Proof.
  intros name i En El Hloc Hlen. unfold net_command.
  change (default 0 (zget (str "N " ++ text) 0)) with ch_N. change (drop 2 (str "N " ++ text)) with text.
  rewrite Z.eqb_refl, (proj2 (Nat.eqb_neq _ _)), (proj2 (Nat.leb_gt _ _)) by lia. cbn [orb]. fold name.
  unfold net_learn. rewrite En. f_equal. unfold net_dispatch. fold i.
  rewrite El. by rewrite (proj2 (Z.eqb_neq _ _)) by done.
Qed.

Lemma connect_waiting n connect source fd i p :
  head connect = Some ch_A → scan_two (drop 2 connect) = (fd, i) → fd ≠ 0 → 0 < i < REMOTE_MAX → link_at n i = Waiting p →
  n_ctx (net_command n connect source)
  = n_ctx n ++ [Csocket_start fd; Csocket_send fd [u8 (n_id n)] 1] ++ (p ≫= remote_calls fd).
Proof.
  intros Hc Hscan Hfd Hi El. unfold net_command. rewrite Hscan.
  assert (default 0 (zget connect 0) = ch_A) as -> by (destruct connect; [done|]; by injection Hc as ->).
  change (ch_A =? ch_N) with false. change ((ch_A =? ch_S) || (ch_A =? ch_A)) with true. cbn iota.
  rewrite (proj2 (Z.eqb_neq _ _)), (proj2 (Z.leb_gt _ _)), (proj2 (Z.leb_gt _ _)) by lia. cbn [orb].
  unfold net_connect. rewrite El. change (ch_A =? ch_S) with false. cbn [n_ctx log set_link field_set n_id].
  by rewrite <- app_assoc.
Qed.

(** C36. A message to a name is lost when the harbor of the name is not
    connected yet: the message waits for the name, then joins the queue of the
    harbor without the handle of the name, and is sent with the handle bits of
    its destination 0 when the link comes up. *)
Theorem harbor_name_lost send_returns h n b text source type session handle connect fd sid :
  let name := text ++ replicate (16 - length text) 0 in
  let i := Z.shiftr handle HANDLE_REMOTE_SHIFT in
  harbor_rep (addr_of b) h n → small n → n_name n name = Unknown [] → link_at n i = Waiting [] →
  i ≠ Z.shiftr (n_slave n) HANDLE_REMOTE_SHIFT →
  Forall (λ c, c ≠ 0) text → (0 < length text < 16)%nat → 0 < handle < 2 ^ 32 → 0 < sid < 2 ^ 32 →
  type ≠ PTYPE_SOCKET → type ≠ PTYPE_HARBOR → 0 <= type < 256 → buffer_ok b (Z.of_nat (length (buffer_data b))) →
  head connect = Some ch_A → scan_two (drop 2 connect) = (fd, i) → fd ≠ 0 → 0 < i →
  Forall (λ c, c ≠ 0) connect → 2 <= Z.of_nat (length connect) < 2 ^ 31 →
  ∃ h' header, (mainloop send_returns type session source (Mremote name 0 b (Z.of_nat (length (buffer_data b))));;
         mainloop send_returns PTYPE_HARBOR 0 handle
           (Mtext ((str "N " ++ text) ++ [0]) (Z.of_nat (length (str "N " ++ text))));;
         mainloop send_returns PTYPE_HARBOR 0 sid (Mtext (connect ++ [0]) (Z.of_nat (length connect)))) h = Ok (tt, h')
    ∧ h_ctx h' = h_ctx h ++ [Csend 0 (n_slave n) PTYPE_TEXT 0 (default [] (until_nul (str "Q " ++ name ++ [0])));
                             Csocket_start fd; Csocket_send fd [u8 (n_id n)] 1]
                 ++ remote_calls fd (header, buffer_data b)
    ∧ Z.land (rh_destination header) HANDLE_MASK = 0.
Proof.
  intros name i Hr Hsmall En El Hloc Hnz Hlen Hh Hsid Ht1 Ht2 Ht Hb Hc Hscan Hfd Hi Hcnz Hclen.
  assert (Hname : name_ok name) by (split; [unfold name; rewrite length_app, length_replicate; lia|by apply padded_text]).
  set (hd := mkHeader source (u32 (Z.shiftl type HANDLE_REMOTE_SHIFT)) (u32 session)).
  pose proof (mainloop_ok send_returns [] h n type session source (Mremote name 0 b (Z.of_nat (length (buffer_data b))))) as H1.
  cbn [message_addrs] in H1. rewrite app_nil_r in H1. specialize (H1 Hr Hsmall).
  cbn [net_main Z.eqb] in H1. unfold net_send_name in H1. rewrite En in H1. fold hd in H1. cbn [app] in H1.
  destruct H1 as (h1 & Hrun1 & Hr1); [by split_and!|]. pstep Hrun1.
  set (query := Csend 0 (n_slave n) PTYPE_TEXT 0 _) in *. set (m := (hd, buffer_data b)) in *.
  destruct (text_step send_returns h1 _ (str "N " ++ text) handle Hr1) as (h2 & Hrun2 & Hr2); try done.
  { by apply small_set_name. }
  { apply Forall_app; split; [|done]. repeat constructor; discriminate. }
  { rewrite length_app. change (length (str "N ")) with 2%nat. lia. }
  pstep Hrun2.
  rewrite (learn_waiting _ text handle m) in Hr2 by (try done; by cbn; rewrite decide_True).
  fold name i in Hr2. set (n2 := set_name _ name (Known handle)) in *.
  destruct (text_step send_returns h2 n2 connect sid Hr2) as (h3 & Hrun3 & Hr3); try done.
  { apply small_known, small_set_link; [|done]. by apply small_set_name. }
  assert (0 < i < REMOTE_MAX)
    by (split; [done|]; unfold i, REMOTE_MAX, HANDLE_REMOTE_SHIFT; rewrite Z.shiftr_div_pow2 by lia; apply Z.div_lt_upper_bound; lia).
  exists h3, hd. split; [exact Hrun3|]. split.
  - rewrite (hr_ctx _ _ _ Hr3), (connect_waiting n2 connect sid fd i [m]); try done.
    + cbn. by rewrite (hr_ctx _ _ _ Hr), app_nil_r, <- app_assoc.
    + apply (link_at_set _ _ _ _ _ Hr1). lia.
  - cbn. unfold HANDLE_MASK, HANDLE_REMOTE_SHIFT. change 16777215 with (Z.ones 24).
    rewrite Z.land_ones, Z.shiftl_mul_pow2, u32_small by lia. apply Z.mod_mul. lia.
Qed.

Lemma harbor_name_lost_witness :
  ∃ h' header,
    (mainloop (λ _, 0) 10 3 16 (Mremote (str "a" ++ replicate 15 0) 0 None 0);;
     mainloop (λ _, 0) PTYPE_HARBOR 0 0x2000007 (Mtext (str "N a" ++ [0]) 3);;
     mainloop (λ _, 0) PTYPE_HARBOR 0 17 (Mtext (str "A 5 2" ++ [0]) 5)) harbor_create = Ok (tt, h')
    ∧ Z.land (rh_destination header) HANDLE_MASK = 0.
Proof.
  destruct (harbor_name_lost (λ _, 0) harbor_create net_create None (str "a") 16 10 3 0x2000007 (str "A 5 2") 5 17)
    as (h' & header & Hrun & _ & Hd); try done; try (cbn; lia).
  - exact harbor_create_rep.
  - exact net_create_small.
  - repeat constructor; discriminate.
  - change (length (str "a")) with 1%nat. lia.
  - repeat constructor; discriminate.
  - exists h', header. split; [exact Hrun|exact Hd].
Defined.
