(* ===== verification/Cluster.v ===== *)
(** * The cluster protocol (lualib-src/lua-cluster.c)

    Nodes of a cluster call services of each other over TCP.  A request or a
    response is one package, or, from 32 KB on, a package with the size and
    several packages with the parts, which the receiver puts together with
    [lconcat].  Every function builds its packages in a buffer on the C stack;
    what the buffer holds before is a parameter, an access outside of it or a
    failed [assert] is [Stuck], and a Lua error is [Throw].  Lua arguments and
    results are values of the model.  The file describes the packages the
    functions write and what is read from them; ClusterLink.v puts the two sides
    together. *)

From stdpp Require Import prelude list list_numbers.
From S2P Require Import Prelude.

Abbreviation bytes := (list Z) (only parsing).

Definition TEMP_LENGTH : Z := 0x8200.
Definition MULTI_PART : Z := 0x8000.

(** ** Lua values *)

(** The address of a request: a number, a name, or a value of another type. *)
Inductive address := Anumber (n : Z) | Astring (name : bytes) | Aother.

#[export] Instance address_eq_dec : EqDecision address.
Proof. solve_decision. Defined.

(** What a package holds: the size of a message, or bytes of it. *)
Inductive item := Isize (n : Z) | Idata (s : bytes).

#[export] Instance item_eq_dec : EqDecision item.
Proof. solve_decision. Defined.

(** The results of [unpackrequest]; the address [false] is [None], and a missing
    [padding] is [false]. *)
Record request := mkRequest { q_addr : option address; q_session : Z; q_msg : item; q_padding : bool }.

(** The message of [packresponse]: a string, or a pointer and a size. *)
Inductive message := Mstring (s : bytes) | Muserdata (p : option bytes) (sz : Z).

(** The result of [packresponse]: a string or a table of strings. *)
Inductive packed := One (s : bytes) | Many (l : list bytes).

(** The results of [unpackresponse]. *)
Record response := mkResponse { p_session : Z; p_ok : bool; p_msg : item; p_padding : bool }.

(** ** Writing *)

Definition fill_uint32 (buf : bytes) (o n : Z) : option bytes :=
  buf ← zset buf o (Z.land n 0xff);
  buf ← zset buf (o + 1) (Z.land (Z.shiftr n 8) 0xff);
  buf ← zset buf (o + 2) (Z.land (Z.shiftr n 16) 0xff);
  zset buf (o + 3) (Z.land (Z.shiftr n 24) 0xff).

Definition fill_header (buf : bytes) (sz : Z) : option bytes :=
  _ ← c_assert (sz <? 0x10000);
  buf ← zset buf 0 (Z.land (Z.shiftr sz 8) 0xff);
  zset buf 1 (Z.land sz 0xff).

Section pack.
(** The memory of the buffer [uint8_t buf[TEMP_LENGTH]] before it is written. *)
Context (stack : bytes).

(** The package and the number of parts that follow it. *)
Definition packreq_number (addr session : Z) (msg : bytes) (sz : Z) : option (bytes * Z) :=
  if sz <? MULTI_PART then
    buf ← fill_header stack (sz + 9);
    buf ← zset buf 2 0;
    buf ← fill_uint32 buf 3 addr;
    buf ← fill_uint32 buf 7 (u32 session);
    buf ← memcpy_to buf 11 msg sz;
    s ← copy_out buf 0 (sz + 11);
    Some (s, 0)
  else
    let part := (sz - 1) / MULTI_PART + 1 in
    buf ← fill_header stack 13;
    buf ← zset buf 2 1;
    buf ← fill_uint32 buf 3 addr;
    buf ← fill_uint32 buf 7 (u32 session);
    buf ← fill_uint32 buf 11 sz;
    s ← copy_out buf 0 15;
    Some (s, part).

Definition packreq_string (name : bytes) (session : Z) (msg : bytes) (sz : Z) : option (bytes * Z) :=
  let namelen := Z.of_nat (length name) in
  if sz <? MULTI_PART then
    buf ← fill_header stack (sz + 6 + namelen);
    buf ← zset buf 2 0x80;
    buf ← zset buf 3 (u8 namelen);
    buf ← memcpy_to buf 4 name namelen;
    buf ← fill_uint32 buf (4 + namelen) (u32 session);
    buf ← memcpy_to buf (8 + namelen) msg sz;
    s ← copy_out buf 0 (sz + 8 + namelen);
    Some (s, 0)
  else
    let part := (sz - 1) / MULTI_PART + 1 in
    buf ← fill_header stack (10 + namelen);
    buf ← zset buf 2 0x81;
    buf ← zset buf 3 (u8 namelen);
    buf ← memcpy_to buf 4 name namelen;
    buf ← fill_uint32 buf (4 + namelen) (u32 session);
    buf ← fill_uint32 buf (8 + namelen) sz;
    s ← copy_out buf 0 (12 + namelen);
    Some (s, part).

(** The loop of [packreq_multi] from [ptr] on. *)
Fixpoint packreq_parts (part : nat) (buf : bytes) (session : Z) (msg : bytes) (ptr sz : Z) : option (list bytes) :=
  match part with
  | O => Some []
  | S part =>
      let s := if MULTI_PART <? sz then MULTI_PART else sz in
      buf ← zset buf 2 (if MULTI_PART <? sz then 2 else 3);
      buf ← fill_header buf (s + 5);
      buf ← fill_uint32 buf 3 (u32 session);
      p ← copy_out msg ptr s;
      buf ← memcpy_to buf 7 p s;
      str ← copy_out buf 0 (s + 7);
      rest ← packreq_parts part buf session msg (ptr + s) (u32 (sz - s));
      Some (str :: rest)
  end.

Definition packreq_multi (session : Z) (msg : bytes) (sz : Z) : option (list bytes) :=
  packreq_parts (Z.to_nat (u32 (sz - 1) / MULTI_PART + 1)) stack session msg 0 sz.

(** The request, the next session and, for a large message, the table of parts. *)
Definition lpackrequest (addr : address) (session : Z) (msg : option bytes) (sz : Z)
    : outcome (bytes * Z * option (list bytes)) :=
  match msg with
  | None => Throw
  | Some msg =>
      let sz := u32 sz in
      let session := i32 session in
      if session <=? 0 then Throw
      else
        '(request, multipak) ←
          match addr with
          | Anumber n => lift (packreq_number (u32 n) session msg sz)
          | Astring name =>
              if (length name <? 1)%nat || (255 <? length name)%nat then Throw
              else lift (packreq_string name session msg sz)
          | Aother => Throw
          end;
        let current_session := session in
        let session := i32 (session + 1) in
        let session := if session <? 0 then 1 else session in
        if c_true multipak then
          parts ← lift (packreq_multi current_session msg sz);
          Ret (request, session, Some parts)
        else Ret (request, session, None)
  end.

(** The loop of [lpackresponse]. *)
Fixpoint response_parts (part : nat) (buf : bytes) (session : Z) (msg : bytes) (ptr sz : Z) : option (list bytes) :=
  match part with
  | O => Some []
  | S part =>
      let s := if MULTI_PART <? sz then MULTI_PART else sz in
      buf ← zset buf 6 (if MULTI_PART <? sz then 3 else 4);
      buf ← fill_header buf (s + 5);
      buf ← fill_uint32 buf 2 session;
      p ← copy_out msg ptr s;
      buf ← memcpy_to buf 7 p s;
      str ← copy_out buf 0 (s + 7);
      rest ← response_parts part buf session msg (ptr + s) (sz - s);
      Some (str :: rest)
  end.

(** A null pointer has no bytes. *)
Definition lpackresponse (session : Z) (ok : bool) (m : message) : option packed :=
  let session := u32 session in
  let '(msg, sz) :=
    match m with
    | Mstring s => (s, Z.of_nat (length s))
    | Muserdata p sz => (default [] p, u64 sz)
    end in
  if ok && (MULTI_PART <? sz) then
    let part := i32 ((sz - 1) / MULTI_PART + 1) in
    buf ← fill_header stack 9;
    buf ← fill_uint32 buf 2 session;
    buf ← zset buf 6 2;
    buf ← fill_uint32 buf 7 (u32 sz);
    s ← copy_out buf 0 11;
    parts ← response_parts (Z.to_nat part) buf session msg 0 sz;
    Some (Many (s :: parts))
  else
    let sz := if MULTI_PART <? sz then MULTI_PART else sz in
    buf ← fill_header stack (sz + 5);
    buf ← fill_uint32 buf 2 session;
    buf ← zset buf 6 (if ok then 1 else 0);
    buf ← memcpy_to buf 7 msg sz;
    s ← copy_out buf 0 (sz + 7);
    Some (One s).
End pack.

(** ** Reading *)

Definition unpack_uint32 (buf : bytes) (o : Z) : option Z :=
  b0 ← zget buf o; b1 ← zget buf (o + 1); b2 ← zget buf (o + 2); b3 ← zget buf (o + 3);
  Some (u32 (Z.lor (Z.lor (Z.lor b0 (Z.shiftl b1 8)) (Z.shiftl b2 16)) (Z.shiftl b3 24))).

Definition unpackreq_number (buf : bytes) (sz : Z) : outcome request :=
  if sz <? 9 then Throw
  else
    lift (address ← unpack_uint32 buf 1;
          session ← unpack_uint32 buf 5;
          s ← copy_out buf 9 (sz - 9);
          Some (mkRequest (Some (Anumber address)) session (Idata s) false)).

Definition unpackmreq_number (buf : bytes) (sz : Z) : outcome request :=
  if negb (sz =? 13) then Throw
  else
    lift (address ← unpack_uint32 buf 1;
          session ← unpack_uint32 buf 5;
          size ← unpack_uint32 buf 9;
          Some (mkRequest (Some (Anumber address)) session (Isize size) true)).

Definition unpackmreq_part (buf : bytes) (sz : Z) : outcome request :=
  if sz <? 5 then Throw
  else
    lift (b ← zget buf 0;
          session ← unpack_uint32 buf 1;
          s ← copy_out buf 5 (sz - 5);
          Some (mkRequest None session (Idata s) (b =? 2))).

Definition unpackreq_string (buf : bytes) (sz : Z) : outcome request :=
  if sz <? 2 then Throw
  else
    namesz ← lift (zget buf 1);
    if sz <? namesz + 6 then Throw
    else
      lift (name ← copy_out buf 2 namesz;
            session ← unpack_uint32 buf (namesz + 2);
            s ← copy_out buf (2 + namesz + 4) (sz - namesz - 6);
            Some (mkRequest (Some (Astring name)) session (Idata s) false)).

Definition unpackmreq_string (buf : bytes) (sz : Z) : outcome request :=
  if sz <? 2 then Throw
  else
    namesz ← lift (zget buf 1);
    if sz <? namesz + 10 then Throw
    else
      lift (name ← copy_out buf 2 namesz;
            session ← unpack_uint32 buf (namesz + 2);
            size ← unpack_uint32 buf (namesz + 6);
            Some (mkRequest (Some (Astring name)) session (Isize size) true)).

(** A Lua string is followed by a 0 byte. *)
Definition lunpackrequest (msg : bytes) : outcome request :=
  let sz := i32 (Z.of_nat (length msg)) in
  let buf := msg ++ [0] in
  t ← lift (zget buf 0);
  if t =? 0 then unpackreq_number buf sz
  else if t =? 1 then unpackmreq_number buf sz
  else if (t =? 2) || (t =? 3) then unpackmreq_part buf sz
  else if t =? 0x80 then unpackreq_string buf sz
  else if t =? 0x81 then unpackmreq_string buf sz
  else Throw.

(** [None] when nothing is returned. *)
Definition lunpackresponse (msg : bytes) : outcome (option response) :=
  let sz := Z.of_nat (length msg) in
  if sz <? 5 then Ret None
  else
    session ← lift (unpack_uint32 msg 0);
    t ← lift (zget msg 4);
    if (t =? 0) || (t =? 1) || (t =? 4) then
      s ← lift (copy_out msg 5 (sz - 5));
      Ret (Some (mkResponse session (negb (t =? 0)) (Idata s) false))
    else if t =? 2 then
      if negb (sz =? 9) then Ret None
      else
        sz ← lift (unpack_uint32 msg 5);
        Ret (Some (mkResponse session true (Isize sz) true))
    else if t =? 3 then
      s ← lift (copy_out msg 5 (sz - 5));
      Ret (Some (mkResponse session true (Idata s) true))
    else Ret None.

(** The loop of [lconcat] over the values from index 2 on. *)
Fixpoint concat_loop (t : list item) (buff : bytes) (sz offset : Z) : outcome (option bytes) :=
  match t with
  | Idata str :: t =>
      let s := Z.of_nat (length str) in
      if u64 sz <? s + offset then Ret None
      else
        buff ← lift (memcpy_to buff offset str s);
        concat_loop t buff sz (i32 (offset + s))
  | _ => Ret (if offset =? sz then Some buff else None)
  end.

(** [None] when nothing is returned.  A negative size is a request for more
    memory than there is, which ends the process. *)
Definition lconcat (t : list item) : outcome (option bytes) :=
  match t with
  | Isize n :: t =>
      let sz := i32 n in
      if sz <? 0 then Stuck else concat_loop t (malloc sz) sz 0
  | _ => Ret None
  end.

(** ** The packages *)

Definition le32 (n : Z) : bytes :=
  [Z.land n 0xff; Z.land (Z.shiftr n 8) 0xff; Z.land (Z.shiftr n 16) 0xff; Z.land (Z.shiftr n 24) 0xff].

(** A package with its length in front. *)
Definition framed (b : bytes) : bytes :=
  let n := Z.of_nat (length b) in [Z.land (Z.shiftr n 8) 0xff; Z.land n 0xff] ++ b.

(** The first bytes of a request, which say whether parts follow. *)
Definition address_bytes (big : bool) (a : address) : bytes :=
  match a with
  | Anumber n => (if big then 1 else 0) :: le32 n
  | Astring s => (if big then 0x81 else 0x80) :: Z.of_nat (length s) :: s
  | Aother => []
  end.

(** [MULTI_PART] as a length. *)
Definition part_size : nat := Z.to_nat MULTI_PART.

#[global] Strategy 1000 [part_size].

Lemma part_size_eq : Z.of_nat part_size = MULTI_PART.
Proof. done. Qed.

(** The pieces of a message, at most [k] of them. *)
Fixpoint pieces (k : nat) (msg : bytes) : list bytes :=
  match k with
  | O => []
  | S k => if MULTI_PART <? Z.of_nat (length msg)
           then take (part_size) msg :: pieces k (drop (part_size) msg)
           else [msg]
  end.

Definition part_count (sz : Z) : nat := Z.to_nat ((sz - 1) / MULTI_PART + 1).

(** [f more p] for every piece, [more] being false for the last one. *)
Fixpoint tag_parts (f : bool → bytes → bytes) (ps : list bytes) : list bytes :=
  match ps with
  | [] => []
  | p :: ps => f (negb (bool_decide (ps = []))) p :: tag_parts f ps
  end.

Definition request_part (session : Z) (more : bool) (p : bytes) : bytes :=
  (if more then 2 else 3) :: le32 session ++ p.

Definition response_part (session : Z) (more : bool) (p : bytes) : bytes :=
  le32 session ++ (if more then 3 else 4) :: p.

Definition message_pieces (msg : bytes) : list bytes := pieces (part_count (Z.of_nat (length msg))) msg.

(** The packages of a request. *)
Definition is_big (msg : bytes) : bool := MULTI_PART <=? Z.of_nat (length msg).

Definition request_head (a : address) (session : Z) (msg : bytes) : bytes :=
  address_bytes (is_big msg) a ++ le32 session ++ if is_big msg then le32 (Z.of_nat (length msg)) else msg.

Definition request_parts (session : Z) (msg : bytes) : list bytes :=
  if is_big msg then tag_parts (request_part session) (message_pieces msg) else [].

Definition request_bodies (a : address) (session : Z) (msg : bytes) : list bytes :=
  request_head a session msg :: request_parts session msg.

(** The packages of a response; an error message is cut off. *)
Definition response_bodies (session : Z) (ok : bool) (msg : bytes) : list bytes :=
  let sz := Z.of_nat (length msg) in
  if ok && (MULTI_PART <? sz)
  then (le32 session ++ 2 :: le32 sz) :: tag_parts (response_part session) (message_pieces msg)
  else [le32 session ++ (if ok then 1 else 0) :: take (part_size) msg].

Definition address_ok (a : address) : Prop :=
  match a with
  | Anumber n => is_u32 n
  | Astring s => (1 <= length s <= 255)%nat
  | Aother => False
  end.

(** ** Buffers *)

Lemma zset_app_at (p q : bytes) (k : nat) o y :
  Z.of_nat (length p + k) = o → (k < length q)%nat → zset (p ++ q) o y = Some (p ++ <[k := y]> q).
Proof.
  intros <- Hk. rewrite zset_Some by (rewrite length_app; lia).
  rewrite Nat2Z.id, insert_app_r_alt by lia. do 3 f_equal. lia.
Qed.

Lemma fill_uint32_spec p q o n :
  Z.of_nat (length p) = o → (4 <= length q)%nat → fill_uint32 (p ++ q) o n = Some ((p ++ le32 n) ++ drop 4 q).
Proof.
  intros <- Hq. destruct q as [|q0 [|q1 [|q2 [|q3 q]]]]; try (cbn in Hq; lia). unfold fill_uint32.
  rewrite (zset_app_at p _ 0) by (cbn; lia). cbn [mbind option_bind].
  rewrite (zset_app_at p _ 1) by (cbn; lia). cbn [mbind option_bind].
  rewrite (zset_app_at p _ 2) by (cbn; lia). cbn [mbind option_bind].
  rewrite (zset_app_at p _ 3) by (cbn; lia). by rewrite <- (assoc_L (++)).
Qed.

Lemma fill_header_spec a b q n :
  n < 0x10000 → fill_header (a :: b :: q) n = Some ([Z.land (Z.shiftr n 8) 0xff; Z.land n 0xff] ++ q).
Proof.
  intros Hn. unfold fill_header, c_assert. rewrite (proj2 (Z.ltb_lt _ _)) by done. cbn [mbind option_bind].
  rewrite zset_Some by (cbn; lia). cbn [mbind option_bind Z.to_nat insert list_insert].
  by rewrite zset_Some by (rewrite length_insert; cbn [length]; lia).
Qed.

Lemma memcpy_app p q o src n :
  Z.of_nat (length p) = o → 0 <= n <= Z.of_nat (length q) → n <= Z.of_nat (length src) →
  memcpy_to (p ++ q) o src n = Some ((p ++ take (Z.to_nat n) src) ++ drop (Z.to_nat n) q).
Proof.
  intros <- Hn Hs. rewrite memcpy_to_spec by (rewrite ?length_app; lia).
  rewrite Nat2Z.id, take_app_length, <- (assoc_L (++)). do 3 f_equal.
  rewrite Z2Nat.inj_add, Nat2Z.id by lia. by rewrite drop_app_add.
Qed.

Lemma copy_out_app (p q : bytes) n : Z.of_nat (length p) = n → copy_out (p ++ q) 0 n = Some p.
Proof.
  intros <-. rewrite copy_out_spec by (rewrite ?length_app; lia). rewrite Nat2Z.id. change (Z.to_nat 0) with 0%nat.
  by rewrite drop_0, take_app_length.
Qed.

Lemma copy_out_middle (p q r : bytes) o n :
  Z.of_nat (length p) = o → Z.of_nat (length q) = n → copy_out (p ++ q ++ r) o n = Some q.
Proof.
  intros <- <-. rewrite copy_out_spec by (rewrite ?length_app; lia).
  by rewrite !Nat2Z.id, drop_app_length, take_app_length.
Qed.

Lemma le32_length n : length (le32 n) = 4%nat.
Proof. done. Qed.

Lemma unpack_le32 p q o n : Z.of_nat (length p) = o → is_u32 n → unpack_uint32 (p ++ le32 n ++ q) o = Some n.
Proof.
  intros <- Hn. unfold unpack_uint32. unfold is_u32 in Hn.
  assert (Hat : ∀ k : nat, zget (p ++ le32 n ++ q) (Z.of_nat (length p) + Z.of_nat k) = (le32 n ++ q) !! k).
  { intros k. rewrite <- Nat2Z.inj_add, zget_nat, lookup_app_r by lia. f_equal. lia. }
  rewrite <- (Z.add_0_r (Z.of_nat (length p))) at 1.
  rewrite (Hat 0%nat : zget _ (_ + 0) = _), (Hat 1%nat : zget _ (_ + 1) = _), (Hat 2%nat : zget _ (_ + 2) = _),
    (Hat 3%nat : zget _ (_ + 3) = _).
  cbn [le32 app lookup list_lookup mbind option_bind].
  f_equal. change 0xff with (2 ^ 8 - 1). rewrite !land_ones_mod, !Z.shiftr_div_pow2, !Z.shiftl_mul_pow2 by lia.
  rewrite (lor_add_high _ _ 8), (lor_add_high _ _ 16), (lor_add_high _ _ 24) by zify_div.
  rewrite u32_small; zify_div.
Qed.

Lemma zset_end (p q : bytes) o y :
  Z.of_nat (length p) = o → (1 <= length q)%nat → zset (p ++ q) o y = Some ((p ++ [y]) ++ drop 1 q).
Proof.
  intros <- Hq. destruct q as [|x q]; [cbn in Hq; lia|]. rewrite (zset_app_at p _ 0) by (cbn; lia).
  by rewrite <- (assoc_L (++)).
Qed.

Lemma framed_eq (p b : bytes) n :
  p = [Z.land (Z.shiftr n 8) 0xff; Z.land n 0xff] ++ b → Z.of_nat (length b) = n → p = framed b.
Proof. intros -> <-. done. Qed.

(** [lens]: lengths of concatenations.  [fill]: run writes at the end of what the
    buffer holds. *)
Ltac lens := repeat progress (rewrite ?length_app, ?length_take, ?length_drop, ?le32_length; cbn [length]); lia.
Ltac fill :=
  repeat first
    [ rewrite zset_end by lens | rewrite fill_uint32_spec by lens | rewrite memcpy_app by lens
    | rewrite copy_out_app by lens | progress cbn [mbind option_bind] ].

(** A buffer is big enough for every package. *)
Definition buffer_ok (stack : bytes) : Prop := Z.of_nat (length stack) = TEMP_LENGTH.

Lemma buffer_start stack : buffer_ok stack → ∃ a b rest, stack = a :: b :: rest ∧ Z.of_nat (length rest) = 0x81fe.
Proof.
  unfold buffer_ok, TEMP_LENGTH. intros H. destruct stack as [|a [|b rest]]; [done|done|].
  exists a, b, rest. split; [done|]. cbn [length] in H. lia.
Qed.

Definition part_number (msg : bytes) : Z :=
  if is_big msg then (Z.of_nat (length msg) - 1) / MULTI_PART + 1 else 0.

Lemma packreq_number_spec stack addr session msg sz :
  buffer_ok stack → Z.of_nat (length msg) = sz → 0 < session < 2 ^ 31 →
  packreq_number stack addr session msg sz = Some (framed (request_head (Anumber addr) session msg), part_number msg).
Proof.
  intros (a & b & q & -> & Hq)%buffer_start Hsz Hs. unfold packreq_number, request_head, part_number, is_big.
  rewrite Hsz, u32_small, Z.leb_antisym by lia. unfold MULTI_PART in *. case_if; cbn [negb].
  - rewrite fill_header_spec by lia. fill.
    do 2 f_equal. eapply framed_eq; [by rewrite <- !(assoc_L (++)), take_ge by lia|cbn [address_bytes]; lens].
  - rewrite fill_header_spec by lia. by fill.
Qed.

Lemma packreq_string_spec stack name session msg sz :
  buffer_ok stack → Z.of_nat (length msg) = sz → 0 < session < 2 ^ 31 → (1 <= length name <= 255)%nat →
  packreq_string stack name session msg sz = Some (framed (request_head (Astring name) session msg), part_number msg).
Proof.
  intros (a & b & q & -> & Hq)%buffer_start Hsz Hs Hn. unfold packreq_string, request_head, part_number, is_big.
  rewrite Hsz, u32_small, Z.leb_antisym by lia. unfold MULTI_PART in *.
  assert (Hu : u8 (Z.of_nat (length name)) = Z.of_nat (length name)) by (apply Z.mod_small; lia). rewrite Hu.
  case_if; cbn [negb].
  - rewrite fill_header_spec by lia. fill.
    do 2 f_equal. eapply framed_eq; [by rewrite <- !(assoc_L (++)), !take_ge by lia|cbn [address_bytes app]; lens].
  - rewrite fill_header_spec by lia. fill.
    do 2 f_equal. eapply framed_eq; [by rewrite <- !(assoc_L (++)), !take_ge by lia|cbn [address_bytes app]; lens].
Qed.

(** ** Pieces *)

Lemma part_count_small sz : 0 < sz <= MULTI_PART → part_count sz = 1%nat.
Proof. unfold part_count, MULTI_PART. intros. rewrite Z.div_small by lia. done. Qed.

Lemma part_count_step sz : MULTI_PART < sz → part_count sz = S (part_count (sz - MULTI_PART)).
Proof.
  unfold part_count, MULTI_PART. intros. rewrite <- Z2Nat.inj_succ by zify_div. f_equal. zify_div.
Qed.

Lemma message_pieces_small msg :
  0 < Z.of_nat (length msg) <= MULTI_PART → message_pieces msg = [msg].
Proof. intros H. unfold message_pieces. rewrite part_count_small by done. cbn. by rewrite (proj2 (Z.ltb_ge _ _)) by lia. Qed.

Lemma message_pieces_step msg :
  MULTI_PART < Z.of_nat (length msg) →
  message_pieces msg = take (part_size) msg :: message_pieces (drop (part_size) msg).
Proof.
  intros H. unfold message_pieces. rewrite part_count_step by done. cbn [pieces].
  rewrite (proj2 (Z.ltb_lt _ _)) by lia. rewrite length_drop. do 3 f_equal. pose proof part_size_eq. lia.
Qed.

Lemma pieces_induction (P : bytes → Prop) :
  (∀ msg, 0 < Z.of_nat (length msg) <= MULTI_PART → P msg) →
  (∀ msg, MULTI_PART < Z.of_nat (length msg) → P (drop (part_size) msg) → P msg) →
  ∀ msg, 0 < Z.of_nat (length msg) → P msg.
Proof.
  intros Hsmall Hbig msg. remember (length msg) as n eqn:Hn. revert msg Hn.
  induction (lt_wf n) as [n _ IH]. intros msg -> H0. pose proof part_size_eq. unfold MULTI_PART in *.
  destruct (decide (0x8000 < Z.of_nat (length msg))); [|apply Hsmall; lia].
  apply Hbig; [done|]. eapply IH; [|done|]; rewrite length_drop; lia.
Qed.

Lemma message_pieces_ne msg : 0 < Z.of_nat (length msg) → message_pieces msg ≠ [].
Proof.
  intros H. destruct (decide (MULTI_PART < Z.of_nat (length msg))).
  - by rewrite message_pieces_step.
  - rewrite message_pieces_small by lia. done.
Qed.

Lemma concat_pieces msg : 0 < Z.of_nat (length msg) → concat (message_pieces msg) = msg.
Proof.
  revert msg. apply pieces_induction; intros msg H.
  - rewrite message_pieces_small by done. apply app_nil_r.
  - intros IH. rewrite message_pieces_step by done. cbn [concat]. rewrite IH. apply take_drop.
Qed.

Lemma pieces_bound msg :
  0 < Z.of_nat (length msg) → Forall (λ p, Z.of_nat (length p) <= MULTI_PART) (message_pieces msg).
Proof.
  revert msg. refine (pieces_induction _ _ _); intros msg H.
  - rewrite message_pieces_small by done. constructor; [lia|done].
  - intros IH. rewrite message_pieces_step by done. constructor; [|done].
    rewrite length_take. pose proof part_size_eq. lia.
Qed.

Lemma tag_parts_step f msg :
  MULTI_PART < Z.of_nat (length msg) →
  tag_parts f (message_pieces msg)
  = f true (take (part_size) msg) :: tag_parts f (message_pieces (drop (part_size) msg)).
Proof.
  intros H. rewrite message_pieces_step by done. cbn [tag_parts]. rewrite bool_decide_false; [done|].
  apply message_pieces_ne. rewrite length_drop. pose proof part_size_eq. lia.
Qed.

(** ** The parts are written *)

Lemma part_start buf t n :
  buffer_ok buf → n < 0x10000 →
  ∃ q, Z.of_nat (length q) = 0x81fd ∧
    (buf ← zset buf 2 t; fill_header buf n) = Some ([Z.land (Z.shiftr n 8) 0xff; Z.land n 0xff; t] ++ q).
Proof.
  intros (a & b & q & -> & Hq)%buffer_start Hn. destruct q as [|c q]; [done|]. exists q. cbn [length] in Hq.
  split; [lia|]. rewrite zset_Some by (cbn [length]; lia). cbn [mbind option_bind].
  change (<[Z.to_nat 2 := t]> (a :: b :: c :: q)) with (a :: b :: t :: q). by rewrite fill_header_spec.
Qed.

Lemma option_bind_assoc {A B C} (m : option A) (f : A → option B) (g : B → option C) :
  (m ≫= λ x, f x ≫= g) = ((m ≫= f) ≫= g).
Proof. by destruct m. Qed.

(** One part, [t] saying whether it is the last one. *)
Lemma part_step buf t session msg pre p rest n :
  msg = pre ++ p ++ rest → buffer_ok buf → 0 < session < 2 ^ 31 → Z.of_nat (length p) = n → n <= MULTI_PART →
  ∃ buf', buffer_ok buf' ∧ ∀ (k : bytes → bytes → option (list bytes)),
    (buf ← zset buf 2 t;
     buf ← fill_header buf (n + 5);
     buf ← fill_uint32 buf 3 (u32 session);
     p ← copy_out msg (Z.of_nat (length pre)) n;
     buf ← memcpy_to buf 7 p n;
     str ← copy_out buf 0 (n + 7);
     k buf str) = k buf' (framed (t :: le32 session ++ p)).
Proof.
  unfold MULTI_PART. intros -> Hb Hs Hp Hn. destruct (part_start buf t (n + 5) Hb ltac:(lia)) as (q & Hq & Hw).
  exists (([Z.land (Z.shiftr (n + 5) 8) 0xff; Z.land (n + 5) 0xff; t] ++ le32 session ++ p) ++ drop (4 + length p) q).
  split; [unfold buffer_ok, TEMP_LENGTH; lens|]. intros k.
  rewrite option_bind_assoc, Hw, u32_small by lia. cbn [mbind option_bind].
  rewrite fill_uint32_spec by lens. cbn [mbind option_bind]. rewrite copy_out_middle by done. cbn [mbind option_bind].
  rewrite memcpy_app by lens. cbn [mbind option_bind]. rewrite copy_out_app by lens. cbn [mbind option_bind].
  rewrite take_ge, drop_drop by lia. f_equal.
  - rewrite <- !(assoc_L (++)). do 4 f_equal. lia.
  - eapply framed_eq; [by rewrite <- !(assoc_L (++))|lens].
Qed.

Lemma packreq_parts_spec session msg0 : 0 < session < 2 ^ 31 → ∀ msg, 0 < Z.of_nat (length msg) → ∀ pre buf,
  msg0 = pre ++ msg → buffer_ok buf → Z.of_nat (length msg) < 2 ^ 32 →
  packreq_parts (part_count (Z.of_nat (length msg))) buf session msg0 (Z.of_nat (length pre)) (Z.of_nat (length msg))
  = Some (framed <$> tag_parts (request_part session) (message_pieces msg)).
Proof.
  intros Hs. refine (pieces_induction _ _ _).
  - intros msg Hl pre buf E Hb Hlt. rewrite part_count_small, message_pieces_small by done. cbn [packreq_parts].
    rewrite (proj2 (Z.ltb_ge _ _)) by lia.
    destruct (part_step buf 3 session msg0 pre msg [] _ ltac:(by rewrite app_nil_r) Hb Hs eq_refl ltac:(lia))
      as (buf' & _ & ->). done.
  - intros msg Hl IH pre buf E Hb Hlt. pose proof part_size_eq as Hps.
    rewrite part_count_step, tag_parts_step by done. cbn [packreq_parts]. rewrite (proj2 (Z.ltb_lt _ _)) by done.
    destruct (part_step buf 2 session msg0 pre (take part_size msg) (drop part_size msg) MULTI_PART) as (buf' & Hb' & ->);
      [by rewrite take_drop|done|done|rewrite length_take; lia|done|].
    rewrite u32_small by lia.
    specialize (IH (pre ++ take part_size msg) buf' ltac:(by rewrite <- (assoc_L (++)), take_drop) Hb').
    rewrite length_app, length_take, length_drop in IH.
    replace (Z.of_nat (length msg - part_size)) with (Z.of_nat (length msg) - MULTI_PART) in IH by lia.
    replace (Z.of_nat (length pre + part_size `min` length msg)) with (Z.of_nat (length pre) + MULTI_PART) in IH by lia.
    rewrite IH by lia. done.
Qed.

(** ** Requests *)

(** The session of the next request. *)
Definition next_session (session : Z) : Z := if session =? 2 ^ 31 - 1 then 1 else session + 1.

Lemma next_session_eq session :
  0 < session < 2 ^ 31 → (if i32 (session + 1) <? 0 then 1 else i32 (session + 1)) = next_session session.
Proof.
  intros Hs. unfold next_session. case_if; case_if; bool_prop; try done.
  - rewrite i32_small in Heqb by lia. lia.
  - subst. done.
  - apply i32_small. lia.
Qed.

Lemma lpackrequest_spec stack a session msg :
  buffer_ok stack → address_ok a → 0 < session < 2 ^ 31 → Z.of_nat (length msg) < 2 ^ 32 →
  lpackrequest stack a session (Some msg) (Z.of_nat (length msg))
  = Ret (framed (request_head a session msg), next_session session,
         if is_big msg then Some (framed <$> request_parts session msg) else None).
Proof.
  intros Hb Ha Hs Hlen. unfold lpackrequest. rewrite u32_small, (i32_small session) by lia.
  rewrite (proj2 (Z.leb_gt _ _)), next_session_eq by lia.
  set (r := match a with Anumber _ => _ | Astring _ => _ | Aother => _ end).
  assert (r = Ret (framed (request_head a session msg), part_number msg)) as ->.
  { unfold r. destruct a as [n|name|]; [| |done].
    - rewrite (u32_small n), packreq_number_spec by done. done.
    - cbn in Ha. rewrite (proj2 (Nat.ltb_ge _ _)), (proj2 (Nat.ltb_ge _ _)) by lia. by rewrite packreq_string_spec. }
  cbn [mbind outcome_bind]. unfold part_number, request_parts. destruct (is_big msg) eqn:Hbig; [|done].
  unfold is_big, MULTI_PART in Hbig. bool_prop.
  assert (c_true ((Z.of_nat (length msg) - 1) / MULTI_PART + 1) = true) as ->.
  { unfold c_true, MULTI_PART. rewrite (proj2 (Z.eqb_neq _ _)); [done|]. zify_div. }
  unfold packreq_multi. rewrite u32_small by lia.
  pose proof (packreq_parts_spec session msg Hs msg ltac:(lia) [] stack eq_refl Hb Hlen) as Hparts.
  unfold part_count in Hparts. change (Z.of_nat (length [])) with 0 in Hparts. by rewrite Hparts.
Qed.

(** ** Responses *)

Lemma response_start buf t n :
  buffer_ok buf → n < 0x10000 →
  ∃ b2 b3 b4 b5 q, Z.of_nat (length q) = 0x81f9 ∧
    (buf ← zset buf 6 t; fill_header buf n)
    = Some ([Z.land (Z.shiftr n 8) 0xff; Z.land n 0xff] ++ [b2; b3; b4; b5] ++ [t] ++ q).
Proof.
  intros (a & b & q & -> & Hq)%buffer_start Hn.
  destruct q as [|b2 [|b3 [|b4 [|b5 [|b6 q]]]]]; try done. exists b2, b3, b4, b5, q. cbn [length] in Hq.
  split; [lia|]. rewrite zset_Some by (cbn [length]; lia). cbn [mbind option_bind].
  change (<[Z.to_nat 6 := t]> _) with (a :: b :: b2 :: b3 :: b4 :: b5 :: t :: q). by rewrite fill_header_spec.
Qed.

Lemma response_step buf t session msg pre p rest n :
  msg = pre ++ p ++ rest → buffer_ok buf → Z.of_nat (length p) = n → n <= MULTI_PART →
  ∃ buf', buffer_ok buf' ∧ ∀ (k : bytes → bytes → option (list bytes)),
    (buf ← zset buf 6 t;
     buf ← fill_header buf (n + 5);
     buf ← fill_uint32 buf 2 session;
     p ← copy_out msg (Z.of_nat (length pre)) n;
     buf ← memcpy_to buf 7 p n;
     str ← copy_out buf 0 (n + 7);
     k buf str) = k buf' (framed (le32 session ++ t :: p)).
Proof.
  unfold MULTI_PART. intros -> Hb Hp Hn.
  destruct (response_start buf t (n + 5) Hb ltac:(lia)) as (b2 & b3 & b4 & b5 & q & Hq & Hw).
  exists (([Z.land (Z.shiftr (n + 5) 8) 0xff; Z.land (n + 5) 0xff] ++ le32 session ++ [t] ++ p) ++ drop (length p) q).
  split; [unfold buffer_ok, TEMP_LENGTH; lens|]. intros k.
  rewrite option_bind_assoc, Hw. cbn [mbind option_bind].
  rewrite fill_uint32_spec by lens. cbn [mbind option_bind]. rewrite copy_out_middle by done. cbn [mbind option_bind].
  change (drop 4 ([b2; b3; b4; b5] ++ [t] ++ q)) with ([t] ++ q). rewrite (assoc_L (++) _ [t]).
  rewrite memcpy_app by lens. cbn [mbind option_bind]. rewrite copy_out_app by lens. cbn [mbind option_bind].
  rewrite take_ge by lia. f_equal.
  - rewrite <- !(assoc_L (++)). do 5 f_equal. lia.
  - eapply framed_eq; [by rewrite <- !(assoc_L (++))|lens].
Qed.

Lemma response_parts_spec session msg0 : ∀ msg, 0 < Z.of_nat (length msg) → ∀ pre buf,
  msg0 = pre ++ msg → buffer_ok buf →
  response_parts (part_count (Z.of_nat (length msg))) buf session msg0 (Z.of_nat (length pre)) (Z.of_nat (length msg))
  = Some (framed <$> tag_parts (response_part session) (message_pieces msg)).
Proof.
  refine (pieces_induction _ _ _).
  - intros msg Hl pre buf E Hb. rewrite part_count_small, message_pieces_small by done. cbn [response_parts].
    rewrite (proj2 (Z.ltb_ge _ _)) by lia.
    destruct (response_step buf 4 session msg0 pre msg [] _ ltac:(by rewrite app_nil_r) Hb eq_refl ltac:(lia))
      as (buf' & _ & ->). done.
  - intros msg Hl IH pre buf E Hb. pose proof part_size_eq as Hps.
    rewrite part_count_step, tag_parts_step by done. cbn [response_parts]. rewrite (proj2 (Z.ltb_lt _ _)) by done.
    destruct (response_step buf 3 session msg0 pre (take part_size msg) (drop part_size msg) MULTI_PART)
      as (buf' & Hb' & ->); [by rewrite take_drop|done|rewrite length_take; lia|done|].
    specialize (IH (pre ++ take part_size msg) buf' ltac:(by rewrite <- (assoc_L (++)), take_drop) Hb').
    rewrite length_app, length_take, length_drop in IH.
    replace (Z.of_nat (length msg - part_size)) with (Z.of_nat (length msg) - MULTI_PART) in IH by lia.
    replace (Z.of_nat (length pre + part_size `min` length msg)) with (Z.of_nat (length pre) + MULTI_PART) in IH by lia.
    by rewrite IH.
Qed.

(** The strings of a packed response. *)
Definition packed_strings (p : packed) : list bytes := match p with One s => [s] | Many l => l end.

Lemma lpackresponse_spec stack session ok m msg :
  buffer_ok stack → is_u32 session → Z.of_nat (length msg) < 2 ^ 32 →
  m = Mstring msg ∨ m = Muserdata (Some msg) (Z.of_nat (length msg)) →
  packed_strings <$> lpackresponse stack session ok m = Some (framed <$> response_bodies session ok msg).
Proof.
  intros Hb Hs Hlen Hm. unfold lpackresponse. rewrite u32_small by done.
  set (p := match m with Mstring _ => _ | Muserdata _ _ => _ end).
  assert (p = (msg, Z.of_nat (length msg))) as -> by (unfold p; destruct Hm as [-> | ->]; [done|by rewrite u64_small by lia]).
  unfold response_bodies. pose proof (buffer_start _ Hb) as (a & b & q & -> & Hq).
  destruct (ok && (MULTI_PART <? Z.of_nat (length msg))) eqn:E.
  - bool_prop. subst ok. rewrite fill_header_spec by lia. cbn [mbind option_bind].
    rewrite fill_uint32_spec by lens. cbn [mbind option_bind]. rewrite zset_end by lens. cbn [mbind option_bind].
    rewrite fill_uint32_spec by lens. cbn [mbind option_bind]. rewrite copy_out_app by lens. cbn [mbind option_bind].
    rewrite (i32_small _) by (unfold MULTI_PART; zify_div).
    pose proof (response_parts_spec session msg msg) as Hparts. unfold MULTI_PART in H0.
    specialize (Hparts ltac:(lia) []). unfold part_count in Hparts. change (Z.of_nat (length [])) with 0 in Hparts.
    rewrite Hparts; [|done|unfold buffer_ok, TEMP_LENGTH; lens].
    cbn. by rewrite u32_small by lia.
  - set (n := if MULTI_PART <? Z.of_nat (length msg) then MULTI_PART else Z.of_nat (length msg)).
    assert (Hn : 0 <= n <= MULTI_PART ∧ n <= Z.of_nat (length msg) ∧ take (Z.to_nat n) msg = take part_size msg).
    { pose proof part_size_eq. unfold n, MULTI_PART in *. case_if; split_and!; try lia; [done|].
      rewrite !take_ge by lia. done. }
    clearbody n. destruct Hn as (Hn & Hle & Et). unfold MULTI_PART in Hn.
    rewrite fill_header_spec by lia. fill. rewrite <- Et.
    cbn [fmap option_fmap option_map packed_strings list_fmap]. do 2 f_equal.
    eapply framed_eq; [by rewrite <- !(assoc_L (++))|lens].
Qed.

(** ** Reading the packages *)

Lemma unpack_number n session msg :
  is_u32 n → is_u32 session → Z.of_nat (length msg) < 2 ^ 30 →
  lunpackrequest ([0] ++ le32 n ++ le32 session ++ msg) = Ret (mkRequest (Some (Anumber n)) session (Idata msg) false).
Proof.
  intros Hn Hs Hlen. unfold lunpackrequest. rewrite i32_small by lens.
  change (zget (_ ++ [0]) 0) with (Some 0). cbn [lift mbind outcome_bind Z.eqb]. unfold unpackreq_number.
  rewrite (proj2 (Z.ltb_ge _ _)) by lens. rewrite <- !(assoc_L (++)).
  rewrite (unpack_le32 [0] _ 1) by done. cbn [mbind option_bind].
  rewrite (assoc_L (++) [0]), (unpack_le32 ([0] ++ _) _ 5) by done. cbn [mbind option_bind].
  rewrite (assoc_L (++) (_ ++ _)), copy_out_middle by lens. done.
Qed.

Lemma unpack_mnumber n session size :
  is_u32 n → is_u32 session → is_u32 size →
  lunpackrequest ([1] ++ le32 n ++ le32 session ++ le32 size)
  = Ret (mkRequest (Some (Anumber n)) session (Isize size) true).
Proof.
  intros Hn Hs Hsz. unfold lunpackrequest. rewrite i32_small by lens.
  change (zget (_ ++ [0]) 0) with (Some 1). cbn [lift mbind outcome_bind Z.eqb Pos.eqb]. unfold unpackmreq_number.
  rewrite (proj2 (Z.eqb_eq _ _)) by lens. cbn [negb]. rewrite <- !(assoc_L (++)).
  rewrite (unpack_le32 [1] _ 1) by done. cbn [mbind option_bind].
  rewrite (assoc_L (++) [1]), (unpack_le32 ([1] ++ _) _ 5) by done. cbn [mbind option_bind].
  rewrite (assoc_L (++) (_ ++ _)), (unpack_le32 (([1] ++ _) ++ _) _ 9) by done. done.
Qed.

Lemma unpack_string name session msg :
  (1 <= length name <= 255)%nat → is_u32 session → Z.of_nat (length msg) < 2 ^ 30 →
  lunpackrequest ([0x80; Z.of_nat (length name)] ++ name ++ le32 session ++ msg)
  = Ret (mkRequest (Some (Astring name)) session (Idata msg) false).
Proof.
  intros Hn Hs Hlen. unfold lunpackrequest. rewrite i32_small by lens.
  change (zget (_ ++ [0]) 0) with (Some 0x80). cbn [lift mbind outcome_bind Z.eqb Pos.eqb orb]. unfold unpackreq_string.
  rewrite (proj2 (Z.ltb_ge _ _)) by lens. change (zget (_ ++ [0]) 1) with (Some (Z.of_nat (length name))).
  cbn [lift mbind outcome_bind]. rewrite (proj2 (Z.ltb_ge _ _)) by lens. rewrite <- !(assoc_L (++)).
  rewrite (copy_out_middle [_; _] name _ 2) by done. cbn [mbind option_bind].
  rewrite (assoc_L (++) [_; _]), (unpack_le32 ([_; _] ++ name) _ (_ + 2) session) by (done || lens). cbn [mbind option_bind].
  rewrite (assoc_L (++) (_ ++ _)), copy_out_middle by lens. done.
Qed.

Lemma unpack_mstring name session size :
  (1 <= length name <= 255)%nat → is_u32 session → is_u32 size →
  lunpackrequest ([0x81; Z.of_nat (length name)] ++ name ++ le32 session ++ le32 size)
  = Ret (mkRequest (Some (Astring name)) session (Isize size) true).
Proof.
  intros Hn Hs Hsz. unfold lunpackrequest. rewrite i32_small by lens.
  change (zget (_ ++ [0]) 0) with (Some 0x81). cbn [lift mbind outcome_bind Z.eqb Pos.eqb orb]. unfold unpackmreq_string.
  rewrite (proj2 (Z.ltb_ge _ _)) by lens. change (zget (_ ++ [0]) 1) with (Some (Z.of_nat (length name))).
  cbn [lift mbind outcome_bind]. rewrite (proj2 (Z.ltb_ge _ _)) by lens. rewrite <- !(assoc_L (++)).
  rewrite (copy_out_middle [_; _] name _ 2) by done. cbn [mbind option_bind].
  rewrite (assoc_L (++) [_; _]), (unpack_le32 ([_; _] ++ name) _ (_ + 2) session) by (done || lens). cbn [mbind option_bind].
  rewrite (assoc_L (++) (_ ++ _)), (unpack_le32 _ _ _ size) by (done || lens). done.
Qed.

Lemma unpack_part session more p :
  is_u32 session → Z.of_nat (length p) <= MULTI_PART →
  lunpackrequest (request_part session more p) = Ret (mkRequest None session (Idata p) more).
Proof.
  unfold MULTI_PART. intros Hs Hp. unfold lunpackrequest, request_part. rewrite i32_small by lens.
  set (t := if more then 2 else 3). change (zget (_ ++ [0]) 0) with (Some t).
  assert (Ht : (t =? 0) = false ∧ (t =? 1) = false ∧ (t =? 2) || (t =? 3) = true ∧ (t =? 2) = more) by by destruct more.
  destruct Ht as (E0 & E1 & E2 & E3). cbn [lift mbind outcome_bind]. rewrite E0, E1, E2. unfold unpackmreq_part.
  rewrite (proj2 (Z.ltb_ge _ _)) by lens. change (zget (_ ++ [0]) 0) with (Some t). cbn [mbind option_bind].
  change ((t :: le32 session ++ p) ++ [0]) with (([t] ++ le32 session ++ p) ++ [0]). rewrite <- !(assoc_L (++)).
  rewrite unpack_le32 by done. cbn [mbind option_bind].
  rewrite (assoc_L (++) [_]), copy_out_middle by lens. cbn. by rewrite E3.
Qed.

(** The first package of a request. *)
Lemma unpack_head a session msg :
  address_ok a → is_u32 session → Z.of_nat (length msg) < 2 ^ 32 →
  lunpackrequest (request_head a session msg)
  = Ret (mkRequest (Some a) session (if is_big msg then Isize (Z.of_nat (length msg)) else Idata msg) (is_big msg)).
Proof.
  intros Ha Hs Hlen. unfold request_head. destruct (is_big msg) eqn:E; unfold is_big, MULTI_PART in E; bool_prop.
  - assert (is_u32 (Z.of_nat (length msg))) by (unfold is_u32; lia).
    destruct a; [by apply unpack_mnumber|by apply unpack_mstring|done].
  - destruct a; [apply unpack_number|apply unpack_string|]; done || lia.
Qed.

Lemma unpack_response session t p :
  is_u32 session → t ∈ [0; 1; 3; 4] →
  lunpackresponse (le32 session ++ t :: p) = Ret (Some (mkResponse session (negb (t =? 0)) (Idata p) (t =? 3))).
Proof.
  intros Hs Ht. unfold lunpackresponse. rewrite (proj2 (Z.ltb_ge _ _)) by lens.
  rewrite (unpack_le32 [] _ 0 session eq_refl Hs : unpack_uint32 (le32 session ++ _) 0 = _). cbn [lift mbind outcome_bind].
  change (zget _ 4) with (Some t). cbn [lift mbind outcome_bind].
  assert (Hc : copy_out (le32 session ++ t :: p) 5 (Z.of_nat (length (le32 session ++ t :: p)) - 5) = Some p).
  { rewrite <- (app_nil_r p) at 1. change (t :: p ++ []) with ([t] ++ p ++ []). rewrite (assoc_L (++)).
    apply copy_out_middle; [done|lens]. }
  rewrite Hc. apply list_elem_of_In in Ht as [<- | [<- | [<- | [<- | []]]]]; done.
Qed.

Lemma unpack_response_begin session size :
  is_u32 session → is_u32 size →
  lunpackresponse (le32 session ++ 2 :: le32 size) = Ret (Some (mkResponse session true (Isize size) true)).
Proof.
  intros Hs Hsz. unfold lunpackresponse. rewrite (proj2 (Z.ltb_ge _ _)) by lens.
  rewrite (unpack_le32 [] _ 0 session eq_refl Hs : unpack_uint32 (le32 session ++ _) 0 = _). cbn [lift mbind outcome_bind].
  change (zget _ 4) with (Some 2). cbn [lift mbind outcome_bind orb Z.eqb Pos.eqb].
  rewrite (proj2 (Z.eqb_eq _ _)) by lens. cbn [negb].
  pose proof (unpack_le32 (le32 session ++ [2]) [] 5 size eq_refl Hsz) as H.
  rewrite app_nil_r, <- (assoc_L (++)) in H. change ([2] ++ le32 size) with (2 :: le32 size) in H. by rewrite H.
Qed.

Lemma unpack_response_part session more p :
  is_u32 session →
  lunpackresponse (response_part session more p) = Ret (Some (mkResponse session true (Idata p) more)).
Proof. intros Hs. unfold response_part. destruct more; rewrite unpack_response by (done || set_solver); done. Qed.

(** ** Putting the parts together *)

Lemma concat_loop_spec ps : ∀ front rest,
  Z.of_nat (length front + length rest) < 2 ^ 31 →
  concat_loop (Idata <$> ps) (front ++ rest) (Z.of_nat (length front + length rest)) (Z.of_nat (length front))
  = Ret (if (length (concat ps) =? length rest)%nat then Some (front ++ concat ps) else None).
Proof.
  induction ps as [|p ps IH]; intros front rest Hlen; cbn [fmap list_fmap concat_loop concat].
  - destruct rest as [|x rest].
    + rewrite (proj2 (Z.eqb_eq _ _)) by (cbn; lia). done.
    + rewrite (proj2 (Z.eqb_neq _ _)) by (cbn; lia). done.
  - rewrite u64_small by lia. rewrite length_app. case_if.
    + rewrite (proj2 (Nat.eqb_neq _ _)) by lia. done.
    + rewrite memcpy_app by lia. cbn [lift mbind outcome_bind]. rewrite Nat2Z.id, firstn_all, i32_small by lia.
      specialize (IH (front ++ p) (drop (length p) rest)). rewrite length_app, length_drop in IH.
      replace (length front + length p + (length rest - length p))%nat with (length front + length rest)%nat in IH by lia.
      rewrite <- Nat2Z.inj_add, IH by done. rewrite <- (assoc_L (++)).
      replace (length p + length (concat ps) =? length rest)%nat with (length (concat ps) =? length rest - length p)%nat;
        [done|]. apply Bool.eq_iff_eq_true. rewrite !Nat.eqb_eq. lia.
Qed.

(** [lconcat] gives the parts back as one message exactly when they are as long
    as announced. *)
Lemma lconcat_spec n ps :
  0 <= n < 2 ^ 31 →
  lconcat (Isize n :: (Idata <$> ps)) = Ret (if Z.of_nat (length (concat ps)) =? n then Some (concat ps) else None).
Proof.
  intros Hn. cbn [lconcat]. rewrite i32_small, (proj2 (Z.ltb_ge _ _)) by lia. unfold malloc.
  pose proof (concat_loop_spec ps [] (replicate (Z.to_nat n) 0)) as H. cbn [app length] in H.
  rewrite length_replicate, Nat.add_0_l, Z2Nat.id in H by lia. change (Z.of_nat 0) with 0 in H. rewrite H by lia.
  replace (Z.of_nat (length (concat ps)) =? n) with (length (concat ps) =? Z.to_nat n)%nat; [done|].
  apply Bool.eq_iff_eq_true. rewrite Nat.eqb_eq, Z.eqb_eq. lia.
Qed.

Lemma lconcat_negative n ps : 2 ^ 31 <= n < 2 ^ 32 → lconcat (Isize n :: ps) = Stuck.
Proof.
  intros Hn. cbn [lconcat]. rewrite (proj2 (Z.ltb_lt _ _)); [done|]. unfold i32. zify_div.
Qed.
