(* ===== verification/ClusterLink.v ===== *)
(** * Calls between the nodes of a cluster (service/clusterd.lua, lualib/socketchannel.lua)

    The service [clusterd] packs the requests of its node, writes their packages
    to a connection and, on the other side, puts the parts of large requests
    together by session; responses travel back the same way, and the channel
    hands each of them to the coroutine that waits for its session.  The parts of
    large messages are written with low priority, so that packages of other
    messages come between them.  The file shows that whatever the order of the
    packages, every request reaches the service once and complete, and every
    response its coroutine; and where the tables of [clusterd] mix requests up.

    The Lua functions are translated from the scripts; what they do besides
    (configuration, names, starting services) is left out. *)

From stdpp Require Import prelude list gmap list_numbers.
From S2P Require Import Prelude Netpack Cluster.

Abbreviation bytes := (list Z) (only parsing).

(** ** Sending (clusterd.lua: send_request, socketchannel.lua: channel:request) *)

(** The strings that are written for a request. *)
Definition send_request (stack : bytes) (addr : address) (session : Z) (msg : bytes) : outcome (list bytes) :=
  '(request, _, padding) ← lpackrequest stack addr session (Some msg) (Z.of_nat (length msg));
  Ret (request :: default [] padding).

(** ** Receiving requests (clusterd.lua: command.socket) *)

(** [large_request]: the address and the table of parts of every session. *)
Abbreviation large_request := (gmap Z (option address * list item)).

(** What is done with a package: the part is kept, the peer is told that the
    large request is invalid, or a service is called. *)
Inductive action := Wait | Invalid (session : Z) | Call (addr : option address) (session : Z) (msg : item).

Definition socket_data (large : large_request) (msg : bytes) : outcome (large_request * action) :=
  q ← lunpackrequest msg;
  let session := q_session q in
  if q_padding q then
    let req := default (q_addr q, []) (large !! session) in
    Ret (<[session := (req.1, req.2 ++ [q_msg q])]> large, Wait)
  else
    match large !! session with
    | Some req =>
        m ← lconcat (req.2 ++ [q_msg q]);
        Ret (delete session large, match m with Some m => Call req.1 session (Idata m) | None => Invalid session end)
    | None => Ret (large, Call (q_addr q) session (q_msg q))
    end.

(** Any other event of a connection but [open]. *)
Definition socket_closed (large : large_request) : large_request := ∅.

(** ** Receiving responses (socketchannel.lua) *)

Inductive result := Rbool (b : bool) | Rsocket_error.

(** [__result_data] of a coroutine: a value, or a table of parts. *)
Inductive result_data := Ditem (i : item) | Dtable (l : list item).

(** Coroutines are numbers. *)
Record channel := mkChannel {
  c_thread : gmap Z Z;
  c_result : gmap Z result;
  c_data : gmap Z result_data;
  c_sock : bool
}.

#[export] Instance eta_channel : Eta channel :=
  λ c, mkChannel (c_thread c) (c_result c) (c_data c) (c_sock c).

(** [wakeup_all], with the coroutines that are woken. *)
Definition wakeup_all (c : channel) (errmsg : option bytes) : channel * list Z :=
  let cos := (map_to_list (c_thread c)).*2 in
  (c <| c_thread := ∅ |>
     <| c_result := foldr (λ co m, <[co := Rsocket_error]> m) (c_result c) cos |>
     <| c_data := foldr (λ co m, match errmsg with Some e => <[co := Ditem (Idata e)]> m | None => delete co m end)
                        (c_data c) cos |>,
   cos).

(** A pass through the loop of [dispatch_by_session]: what the function that reads
    a response returned, or the error it raised ([None] for a socket error). *)
Definition dispatch_by_session (c : channel) (read : option response + option bytes) : outcome (channel * list Z) :=
  match read with
  | inl (Some r) =>
      let session := p_session r in
      match c_thread c !! session with
      | Some co =>
          if p_padding r && p_ok r then
            match c_data c !! co with
            | Some (Ditem _) => Throw
            | Some (Dtable l) => Ret (c <| c_data := <[co := Dtable (l ++ [p_msg r])]> (c_data c) |>, [])
            | None => Ret (c <| c_data := <[co := Dtable [p_msg r]]> (c_data c) |>, [])
            end
          else
            let c := c <| c_thread := delete session (c_thread c) |>
                       <| c_result := <[co := Rbool (p_ok r)]> (c_result c) |> in
            match (if p_ok r then c_data c !! co else None) with
            | Some (Ditem _) => Throw
            | Some (Dtable l) => Ret (c <| c_data := <[co := Dtable (l ++ [p_msg r])]> (c_data c) |>, [co])
            | None => Ret (c <| c_data := <[co := Ditem (p_msg r)]> (c_data c) |>, [co])
            end
      | None => Ret (c, [])
      end
  | inl None => Ret (wakeup_all (c <| c_sock := false |>) None)
  | inr err => Ret (wakeup_all (c <| c_sock := false |>) err)
  end.

(** A package of a connection ([read_response] of clusterd.lua). *)
Definition read_response (c : channel) (msg : bytes) : outcome (channel * list Z) :=
  r ← lunpackresponse msg; dispatch_by_session c (inl r).

(** [wait_for_response] from the wakeup on: the result, or the error raised. *)
Definition wait_for_response (c : channel) (co : Z) : channel * (option result_data + option result_data) :=
  let data := c_data c !! co in
  let c' := c <| c_result := delete co (c_result c) |> <| c_data := delete co (c_data c) |> in
  match c_result c !! co with
  | Some (Rbool true) => (c', inl data)
  | _ => (c', inr data)
  end.

(** What the caller of a request gets ([command.req] of clusterd.lua): a message,
    nothing, or an error. *)
Inductive answer := Answer (msg : option bytes) | Failed (err : option result_data).

Definition command_req (c : channel) (co : Z) : outcome answer :=
  match (wait_for_response c co).2 with
  | inl (Some (Dtable t)) => m ← lconcat t; Ret (Answer m)
  | inl (Some (Ditem (Idata s))) => Ret (Answer (Some s))
  | inl (Some (Ditem (Isize _))) => Throw
  | inl None => Ret (Answer None)
  | inr err => Ret (Failed err)
  end.

(** ** Interleavings *)

(** The packages of several messages, those of one message in their order. *)
Inductive interleaving {A} : list (list A) → list A → Prop :=
  | interleaving_nil ls : Forall (λ l, l = []) ls → interleaving ls []
  | interleaving_cons ls i x l w :
      ls !! i = Some (x :: l) → interleaving (<[i := l]> ls) w → interleaving ls (x :: w).

(** A loop over packages that collects what it produces. *)
Fixpoint run_all {S B O} (step : S → B → outcome (S * list O)) (s : S) (bs : list B) : outcome (S * list O) :=
  match bs with
  | [] => Ret (s, [])
  | b :: bs => '(s, o1) ← step s b; '(s, o2) ← run_all step s bs; Ret (s, o1 ++ o2)
  end.

(** The messages of which packages are still to come. *)
Definition unfinished {R A} (rs : list R) (ls : list (list A)) : list R :=
  omap (λ x : R * list A, match x.2 with [] => None | _ => Some x.1 end) (zip rs ls).

Lemma unfinished_nil {R A} (rs : list R) (ls : list (list A)) : Forall (λ l, l = []) ls → unfinished rs ls = [].
Proof.
  revert ls. induction rs as [|r rs IH]; intros [|l ls] H; try done.
  apply Forall_cons in H as [-> H]. by apply IH.
Qed.

Lemma unfinished_step {R A} (rs : list R) (ls : list (list A)) i r x l :
  rs !! i = Some r → ls !! i = Some (x :: l) →
  unfinished rs ls ≡ₚ (match l with [] => [r] | _ => [] end) ++ unfinished rs (<[i := l]> ls).
Proof.
  revert ls i. induction rs as [|r0 rs IH]; intros [|l0 ls] [|i] Hr Hl; try done.
  - injection Hr as ->. injection Hl as ->. unfold unfinished. cbn. by destruct l.
  - cbn [lookup list_lookup] in Hr, Hl. specialize (IH ls i Hr Hl). unfold unfinished in *.
    change (<[Datatypes.S i := l]> (l0 :: ls)) with (l0 :: <[i := l]> ls). cbn [zip_with omap list_omap fst snd].
    destruct l0; [done|]. rewrite IH. destruct l; cbn; [apply perm_swap|done].
Qed.

Lemma unfinished_all {R A} (rs : list R) (ls : list (list A)) :
  length rs = length ls → Forall (λ l, l ≠ []) ls → unfinished rs ls = rs.
Proof.
  revert ls. induction rs as [|r rs IH]; intros [|l ls] Hlen H; try done.
  apply Forall_cons in H as [Hl H]. injection Hlen as Hlen. specialize (IH ls Hlen H).
  unfold unfinished in *. cbn. rewrite IH. by destruct l.
Qed.

(** A loop that keeps track of the messages separately: a package of one message
    advances that message, and leaves the messages apart from it alone. *)
Section interleaved.
Context {S R B O : Type} (step : S → B → outcome (S * list O)) (out : R → O).
Context (pend : S → R → list B → Prop) (apart : R → R → Prop) (keep : S → Prop).
Hypothesis step_ok : ∀ s r b rest, keep s → pend s r (b :: rest) →
  ∃ s', step s b = Ret (s', match rest with [] => [out r] | _ => [] end) ∧ keep s' ∧ pend s' r rest
        ∧ ∀ r' l, apart r r' → pend s r' l → pend s' r' l.

Lemma run_interleaved (rs : list R) ls w :
  interleaving ls w → (∀ i j r r', i ≠ j → rs !! i = Some r → rs !! j = Some r' → apart r r') →
  ∀ s, keep s → Forall2 (pend s) rs ls →
  ∃ s' outs, run_all step s w = Ret (s', outs) ∧ outs ≡ₚ out <$> unfinished rs ls ∧ keep s'
             ∧ Forall (λ r, pend s' r []) rs.
Proof.
  intros Hw Hap. induction Hw as [ls Hnil|ls i b rest w Hi Hw IH]; intros s Hk Hp; cbn [run_all].
  - exists s, []. rewrite unfinished_nil by done. split_and!; try done.
    clear Hap. induction Hp; [done|]. apply Forall_cons in Hnil as [-> Hnil]. constructor; auto.
  - destruct (Forall2_lookup_r _ _ _ _ _ Hp Hi) as (r & Hr & Hpr).
    destruct (step_ok s r b rest Hk Hpr) as (s1 & -> & Hk1 & Hp1 & Hothers). cbn [mbind outcome_bind].
    destruct (IH s1 Hk1) as (s' & outs & -> & Hperm & Hk' & Hdone).
    { apply Forall2_same_length_lookup_2; [rewrite length_insert; by eapply Forall2_length|].
      intros j r' l' Hj Hl'. destruct (decide (i = j)) as [<-|Hne].
      - rewrite list_lookup_insert_eq in Hl' by (by eapply lookup_lt_Some). by simplify_eq.
      - rewrite list_lookup_insert_ne in Hl' by done. apply Hothers; [by eapply (Hap i j)|].
        by eapply (Forall2_lookup_lr _ _ _ j). }
    exists s', ((match rest with [] => [out r] | _ => [] end) ++ outs). split_and!; try done.
    rewrite (unfinished_step rs ls i r b rest Hr Hi), fmap_app, Hperm. by destruct rest.
Qed.
End interleaved.

(** ** Requests *)

Record call := mkCall { k_addr : address; k_session : Z; k_msg : bytes }.

Definition call_ok (k : call) : Prop :=
  address_ok (k_addr k) ∧ 0 < k_session k < 2 ^ 31 ∧ Z.of_nat (length (k_msg k)) < 2 ^ 31.

Definition call_bodies (k : call) : list bytes := request_bodies (k_addr k) (k_session k) (k_msg k).

(** The service is called with the message. *)
Definition call_action (k : call) : action := Call (Some (k_addr k)) (k_session k) (Idata (k_msg k)).

Definition socket_step (large : large_request) (b : bytes) : outcome (large_request * list action) :=
  '(large, a) ← socket_data large b; Ret (large, match a with Wait => [] | _ => [a] end).

Section requests.
Context (sessions : gset Z) (large0 : large_request).

Definition others_kept (large : large_request) : Prop := ∀ s, s ∉ sessions → large !! s = large0 !! s.

(** The packages [rest] of a request are still to come. *)
Definition call_pending (large : large_request) (k : call) (rest : list bytes) : Prop :=
  call_ok k ∧ k_session k ∈ sessions ∧
  ((rest = call_bodies k ∧ large !! k_session k = None)
   ∨ (∃ front back, is_big (k_msg k) = true ∧ message_pieces (k_msg k) = front ++ back ∧ back ≠ []
        ∧ rest = tag_parts (request_part (k_session k)) back
        ∧ large !! k_session k
          = Some (Some (k_addr k), Isize (Z.of_nat (length (k_msg k))) :: (Idata <$> front)))
   ∨ (rest = [] ∧ large !! k_session k = None)).

Lemma call_pending_other large large' k rest :
  large' !! k_session k = large !! k_session k → call_pending large k rest → call_pending large' k rest.
Proof. unfold call_pending. by intros ->. Qed.

Lemma others_insert large s e : s ∈ sessions → others_kept large → others_kept (<[s := e]> large).
Proof. intros Hs Hk s' Hs'. rewrite lookup_insert_ne by set_solver. by apply Hk. Qed.

Lemma others_delete large s : s ∈ sessions → others_kept large → others_kept (delete s large).
Proof. intros Hs Hk s' Hs'. rewrite lookup_delete_ne by set_solver. by apply Hk. Qed.

Lemma is_big_length msg : is_big msg = true → 0 < Z.of_nat (length msg).
Proof. unfold is_big, MULTI_PART. intros. bool_prop. lia. Qed.

(** The first package of a request. *)
Lemma head_step large k :
  call_ok k → k_session k ∈ sessions → large !! k_session k = None → others_kept large →
  ∃ large', socket_step large (request_head (k_addr k) (k_session k) (k_msg k))
            = Ret (large', match request_parts (k_session k) (k_msg k) with [] => [call_action k] | _ => [] end)
    ∧ others_kept large' ∧ call_pending large' k (request_parts (k_session k) (k_msg k))
    ∧ ∀ s, s ≠ k_session k → large' !! s = large !! s.
Proof.
  intros Hok Hin Hnone Hk. pose proof Hok as (Ha & Hs & Hl). unfold socket_step, socket_data, request_parts.
  rewrite unpack_head by (done || unfold is_u32; lia). cbn [mbind outcome_bind q_padding q_session q_msg q_addr].
  destruct (is_big (k_msg k)) eqn:E.
  - rewrite Hnone. cbn [default fst snd app mbind outcome_bind]. eexists. split.
    { destruct (tag_parts _ _) eqn:Et; [|done]. exfalso.
      apply (message_pieces_ne (k_msg k)); [by apply is_big_length|]. by destruct (message_pieces (k_msg k)). }
    split; [by apply others_insert|]. split; [|intros s Hne; by apply lookup_insert_ne].
    split; [done|]. split; [done|]. right. left. exists [], (message_pieces (k_msg k)).
    split_and!; try done; [apply message_pieces_ne; by apply is_big_length|]. by rewrite lookup_insert_eq.
  - rewrite Hnone. cbn [mbind outcome_bind]. exists large. split; [done|]. split; [done|]. split; [|done].
    split; [done|]. split; [done|]. by right; right.
Qed.

(** A part of a large request. *)
Lemma part_received large k front p back :
  call_ok k → k_session k ∈ sessions → is_big (k_msg k) = true → message_pieces (k_msg k) = front ++ p :: back →
  large !! k_session k = Some (Some (k_addr k), Isize (Z.of_nat (length (k_msg k))) :: (Idata <$> front)) →
  others_kept large →
  ∃ large', socket_step large (request_part (k_session k) (negb (bool_decide (back = []))) p)
            = Ret (large', match tag_parts (request_part (k_session k)) back with [] => [call_action k] | _ => [] end)
    ∧ others_kept large' ∧ call_pending large' k (tag_parts (request_part (k_session k)) back)
    ∧ ∀ s, s ≠ k_session k → large' !! s = large !! s.
Proof.
  intros Hok Hin Hbig Hp Hreq Hk. pose proof Hok as (Ha & Hs & Hl). unfold socket_step, socket_data.
  pose proof (pieces_bound (k_msg k) (is_big_length _ Hbig)) as Hb. rewrite Hp in Hb.
  apply Forall_app in Hb as [_ Hb]. apply Forall_cons in Hb as [Hb _].
  rewrite unpack_part by (done || unfold is_u32; lia). cbn [mbind outcome_bind q_padding q_session q_msg q_addr].
  rewrite Hreq. destruct back as [|p' back].
  - rewrite bool_decide_true by done. cbn [negb fst snd tag_parts].
    rewrite <- app_comm_cons. change ([Idata p]) with (Idata <$> [p]). rewrite <- fmap_app, <- Hp, lconcat_spec by lia.
    rewrite concat_pieces, Z.eqb_refl by by apply is_big_length. cbn [mbind outcome_bind].
    eexists. split; [done|]. split; [by apply others_delete|]. split; [|intros s Hne; by apply lookup_delete_ne].
    split; [done|]. split; [done|]. right. right. by rewrite lookup_delete_eq.
  - rewrite bool_decide_false by done. cbn [negb default fst snd mbind outcome_bind].
    eexists. split; [done|]. split; [by apply others_insert|]. split; [|intros s Hne; by apply lookup_insert_ne].
    split; [done|]. split; [done|]. right. left. exists (front ++ [p]), (p' :: back).
    split_and!; try done; [by rewrite <- (assoc_L (++))|]. rewrite lookup_insert_eq, fmap_app. done.
Qed.

Lemma call_step large k b rest :
  others_kept large → call_pending large k (b :: rest) →
  ∃ large', socket_step large b = Ret (large', match rest with [] => [call_action k] | _ => [] end)
    ∧ others_kept large' ∧ call_pending large' k rest
    ∧ ∀ k' l, k_session k ≠ k_session k' → call_pending large k' l → call_pending large' k' l.
Proof.
  intros Hk (Hok & Hin & [[Hrest Hnone] | [(front & back & Hbig & Hp & Hne & Hrest & Hreq) | [Hrest _]]]); [| |done].
  - injection Hrest as -> ->. destruct (head_step large k Hok Hin Hnone Hk) as (large' & -> & Hk' & Hp' & Ho).
    exists large'. split_and!; try done. intros k' l Hne. apply call_pending_other, Ho. done.
  - destruct back as [|p back]; [done|]. injection Hrest as -> ->.
    destruct (part_received large k front p back Hok Hin Hbig Hp Hreq Hk) as (large' & -> & Hk' & Hp' & Ho).
    exists large'. split_and!; try done. intros k' l Hne'. apply call_pending_other, Ho. done.
Qed.
End requests.

(** ** Framing *)

Lemma interleaving_framed (f : bytes → bytes) (ls0 : list (list bytes)) (w : list bytes) :
  interleaving ls0 w → ∀ ls : list (list bytes), ls0 = ((λ l : list bytes, f <$> l) <$> ls) →
  ∃ w' : list bytes, w = f <$> w' ∧ interleaving ls w'.
Proof.
  induction 1 as [ls0 Hnil|ls0 i x l w Hi Hw IH]; intros ls ->.
  - exists []. split; [done|]. constructor. rewrite Forall_fmap in Hnil.
    eapply Forall_impl; [exact Hnil|]. intros l Hl. by apply fmap_nil_inv in Hl.
  - apply list_lookup_fmap_Some in Hi as ([|y l'] & [= -> ->] & Hi).
    destruct (IH (<[i := l']> ls)) as (w' & -> & Hw'); [by rewrite list_fmap_insert|].
    exists (y :: w'). split; [done|]. by econstructor.
Qed.

Lemma interleaving_Forall {A} (P : A → Prop) ls w : interleaving ls w → Forall (Forall P) ls → Forall P w.
Proof.
  induction 1 as [ls Hnil|ls i x l w Hi Hw IH]; intros H; [done|].
  pose proof (Forall_lookup_1 _ _ _ _ H Hi) as Hx. apply Forall_cons in Hx as [Hx Hl].
  constructor; [done|]. apply IH. by apply Forall_insert.
Qed.

(** Every package with its length. *)
Definition frame_all (ls : list (list bytes)) : list (list bytes) := (λ l : list bytes, framed <$> l) <$> ls.

Definition fits (b : bytes) : Prop := Z.of_nat (length b) < 0x10000.

Lemma lpack_framed b : fits b → lpack b = Some (framed b).
Proof. unfold fits. intros H. unfold lpack. by rewrite (proj2 (Z.leb_gt _ _)) by done. Qed.

Lemma tag_parts_Forall (P : bytes → Prop) f ps : Forall (λ p, ∀ more, P (f more p)) ps → Forall P (tag_parts f ps).
Proof. induction 1; cbn [tag_parts]; constructor; auto. Qed.

Lemma call_bodies_fit k : call_ok k → Forall fits (call_bodies k).
Proof.
  intros (Ha & Hs & Hl). unfold call_bodies, request_bodies, fits. constructor.
  - unfold request_head. destruct (is_big (k_msg k)) eqn:E; unfold is_big, MULTI_PART in E; bool_prop;
      destruct (k_addr k); cbn [address_ok] in Ha; try done; cbn [address_bytes]; lens.
  - unfold request_parts. destruct (is_big (k_msg k)) eqn:E; [|done]. apply tag_parts_Forall.
    eapply Forall_impl; [apply pieces_bound; by apply is_big_length|]. unfold MULTI_PART, request_part.
    intros p Hp more. lens.
Qed.

(** The packages that come out of the gate of the receiver, however the stream
    of an interleaving is cut. *)
Lemma gate_packages fd ls wire chunks :
  Forall (Forall fits) ls → interleaving (frame_all ls) wire →
  Forall (λ c, Forall is_byte c ∧ c ≠ []) chunks → concat chunks = concat wire →
  ∃ w, interleaving ls w ∧ receive_all None fd chunks = Some ((λ b, (fd, b)) <$> w).
Proof.
  intros Hfit Hw Hc Heq. destruct (interleaving_framed framed _ _ Hw ls eq_refl) as (w & -> & Hw'). exists w. split; [done|].
  rewrite (receive_all_spec chunks None ∅ fd); rewrite ?lookup_empty; [|done..]. cbn [default app]. rewrite Heq.
  rewrite (packages_packed w (framed <$> w)); [done|]. apply Forall2_fmap_r, Forall_Forall2_diag.
  eapply Forall_impl; [by eapply interleaving_Forall|]. apply lpack_framed.
Qed.

Lemma send_request_spec stack k :
  buffer_ok stack → call_ok k →
  send_request stack (k_addr k) (k_session k) (k_msg k) = Ret (framed <$> call_bodies k).
Proof.
  intros Hb (Ha & Hs & Hl). unfold send_request. rewrite lpackrequest_spec by (done || lia). cbn [mbind outcome_bind].
  unfold call_bodies, request_bodies, request_parts. by destruct (is_big (k_msg k)).
Qed.

Lemma call_pending_done sessions large k : call_pending sessions large k [] → large !! k_session k = None.
Proof.
  intros (_ & _ & [[[=] _] | [(front & back & _ & _ & Hne & Hr & _) | [_ H]]]); [|done]. by destruct back.
Qed.

Lemma NoDup_apart {A} (f : A → Z) (l : list A) i j x y :
  NoDup (f <$> l) → i ≠ j → l !! i = Some x → l !! j = Some y → f x ≠ f y.
Proof.
  intros Hnd Hne Hx Hy Heq. apply Hne. eapply (NoDup_lookup (f <$> l)); [done|by rewrite list_lookup_fmap, Hx|].
  rewrite list_lookup_fmap, Hy. cbn. by rewrite Heq.
Qed.

(** C21. Requests arrive: the requests with different sessions that are packed
    (whatever the stack holds) and written to a connection, their packages
    interleaved in any way and the stream cut into any chunks, reach the service
    they are addressed to, each once and with its whole message, and nothing of
    them is left in the table of large requests. *)
Theorem cluster_requests_arrive large ks :
  Forall call_ok ks → NoDup (k_session <$> ks) → Forall (λ k, large !! k_session k = None) ks →
  ∃ sents, Forall2 (λ k s, ∀ stack, buffer_ok stack →
                      send_request stack (k_addr k) (k_session k) (k_msg k) = Ret s) ks sents
    ∧ ∀ wire fd chunks, interleaving sents wire →
        Forall (λ c, Forall is_byte c ∧ c ≠ []) chunks → concat chunks = concat wire →
        ∃ packages calls, receive_all None fd chunks = Some ((λ b, (fd, b)) <$> packages)
          ∧ run_all socket_step large packages = Ret (large, calls) ∧ calls ≡ₚ call_action <$> ks.
Proof.
  intros Hok Hnd Hnone. exists (frame_all (call_bodies <$> ks)). split.
  { unfold frame_all. rewrite <- list_fmap_compose. apply Forall2_fmap_r, Forall_Forall2_diag.
    eapply Forall_impl; [exact Hok|]. intros k Hk stack Hb. by apply send_request_spec. }
  intros wire fd chunks Hw Hc Heq.
  destruct (gate_packages fd (call_bodies <$> ks) wire chunks) as (w & Hw' & Hrec); try done.
  { rewrite Forall_fmap. eapply Forall_impl; [exact Hok|]. apply call_bodies_fit. }
  set (sessions := list_to_set (k_session <$> ks) : gset Z).
  destruct (run_interleaved socket_step call_action (call_pending sessions) (λ k k', k_session k ≠ k_session k')
              (others_kept sessions large) (call_step sessions large) ks _ w Hw') with (s := large)
    as (large' & calls & Hrun & Hperm & Hkeep & Hdone).
  - intros i j k k' Hne Hi Hj. by eapply NoDup_apart.
  - by intros s Hs.
  - apply Forall2_fmap_r, Forall_Forall2_diag, Forall_forall. intros k Hk.
    split; [by eapply Forall_forall|]. split; [|left; split; [done|by eapply Forall_forall in Hnone]].
    apply elem_of_list_to_set. by apply list_elem_of_fmap_2.
  - exists w, calls. split; [done|]. rewrite unfinished_all in Hperm.
    + assert (large' = large) as ->; [|done]. apply map_eq. intros s. destruct (decide (s ∈ sessions)) as [Hs|Hs].
      * apply elem_of_list_to_set, list_elem_of_fmap in Hs as (k & -> & Hk).
        rewrite (proj1 (Forall_forall _ _) Hnone k Hk).
        apply (call_pending_done sessions). by eapply (proj1 (Forall_forall _ _) Hdone).
      * by apply Hkeep.
    + by rewrite length_fmap.
    + by apply Forall_fmap, Forall_true.
Qed.

Lemma cluster_requests_arrive_witness :
  ∃ sents, Forall2 (λ k s, ∀ stack, buffer_ok stack → send_request stack (k_addr k) (k_session k) (k_msg k) = Ret s)
             [mkCall (Anumber 8) 1 [65; 66]; mkCall (Astring [97]) 2 (replicate (Z.to_nat 0x8001) 7)] sents.
Proof.
  destruct (cluster_requests_arrive ∅
    [mkCall (Anumber 8) 1 [65; 66]; mkCall (Astring [97]) 2 (replicate (Z.to_nat 0x8001) 7)]) as (sents & Hsents & _).
  - repeat constructor; cbn [k_msg k_addr k_session]; rewrite ?length_replicate; cbn [length]; unfold is_u32; lia.
  - apply (bool_decide_eq_true_1 _). reflexivity.
  - repeat constructor.
  - exists sents. exact Hsents.
Defined.

(** ** Responses *)

Record reply := mkReply { r_session : Z; r_co : Z; r_ok : bool; r_msg : bytes }.

Definition reply_ok (r : reply) : Prop := is_u32 (r_session r) ∧ Z.of_nat (length (r_msg r)) < 2 ^ 31.

Definition reply_bodies (r : reply) : list bytes := response_bodies (r_session r) (r_ok r) (r_msg r).

Definition reply_big (r : reply) : bool := r_ok r && (MULTI_PART <? Z.of_nat (length (r_msg r))).

(** What is collected for the coroutine. *)
Definition reply_data (r : reply) : result_data :=
  if reply_big r then Dtable (Isize (Z.of_nat (length (r_msg r))) :: (Idata <$> message_pieces (r_msg r)))
  else Ditem (Idata (take part_size (r_msg r))).

(** What the caller gets: the message, or an error with at most 32 KB of it. *)
Definition reply_answer (r : reply) : answer :=
  if r_ok r then Answer (Some (r_msg r)) else Failed (Some (Ditem (Idata (take part_size (r_msg r))))).

Definition reply_pending (c : channel) (r : reply) (rest : list bytes) : Prop :=
  reply_ok r ∧
  ((rest = reply_bodies r ∧ c_thread c !! r_session r = Some (r_co r) ∧ c_data c !! r_co r = None)
   ∨ (∃ front back, reply_big r = true ∧ message_pieces (r_msg r) = front ++ back ∧ back ≠ []
        ∧ rest = tag_parts (response_part (r_session r)) back
        ∧ c_thread c !! r_session r = Some (r_co r)
        ∧ c_data c !! r_co r = Some (Dtable (Isize (Z.of_nat (length (r_msg r))) :: (Idata <$> front))))
   ∨ (rest = [] ∧ c_thread c !! r_session r = None ∧ c_result c !! r_co r = Some (Rbool (r_ok r))
        ∧ c_data c !! r_co r = Some (reply_data r))).

(** Only the entries of the session and of the coroutine change. *)
Definition only_for (r : reply) (c c' : channel) : Prop :=
  (∀ s, s ≠ r_session r → c_thread c' !! s = c_thread c !! s)
  ∧ ∀ co, co ≠ r_co r → c_result c' !! co = c_result c !! co ∧ c_data c' !! co = c_data c !! co.

Lemma reply_pending_other c c' r r' rest :
  only_for r c c' → r_session r ≠ r_session r' → r_co r ≠ r_co r' → reply_pending c r' rest → reply_pending c' r' rest.
Proof.
  intros [Ht Hco] Hs Hc. destruct (Hco (r_co r')) as [Hr Hd]; [done|].
  unfold reply_pending. rewrite (Ht (r_session r')) by done. by rewrite Hr, Hd.
Qed.

Lemma reply_big_length r : reply_big r = true → r_ok r = true ∧ 0 < Z.of_nat (length (r_msg r)).
Proof. unfold reply_big, MULTI_PART. intros. bool_prop. split; [done|lia]. Qed.

(** A response of one package. *)
Lemma reply_small_step c r :
  reply_ok r → reply_big r = false → c_thread c !! r_session r = Some (r_co r) → c_data c !! r_co r = None →
  ∃ c', read_response c (le32 (r_session r) ++ (if r_ok r then 1 else 0) :: take part_size (r_msg r)) = Ret (c', [r_co r])
    ∧ reply_pending c' r [] ∧ only_for r c c'.
Proof.
  intros Hok Hsmall Ht Hd. pose proof Hok as [Hs Hl]. unfold read_response.
  rewrite unpack_response by (done || destruct (r_ok r); set_solver). cbn [mbind outcome_bind].
  unfold dispatch_by_session. cbn [p_session p_padding p_ok p_msg]. rewrite Ht.
  replace (negb ((if r_ok r then 1 else 0) =? 0)) with (r_ok r) by by destruct (r_ok r).
  replace ((if r_ok r then 1 else 0) =? 3) with false by by destruct (r_ok r). cbn [andb c_data field_set].
  replace (if r_ok r then c_data c !! r_co r else None) with (@None result_data) by (rewrite Hd; by destruct (r_ok r)).
  eexists. split; [done|]. split.
  - split; [done|]. right. right. cbn. rewrite lookup_delete_eq, !lookup_insert_eq. unfold reply_data. by rewrite Hsmall.
  - split; [|split]; intros; cbn; by rewrite ?lookup_delete_ne, ?lookup_insert_ne.
Qed.

(** The first package of a large response. *)
Lemma reply_begin_step c r :
  reply_ok r → reply_big r = true → c_thread c !! r_session r = Some (r_co r) → c_data c !! r_co r = None →
  ∃ c', read_response c (le32 (r_session r) ++ 2 :: le32 (Z.of_nat (length (r_msg r)))) = Ret (c', [])
    ∧ reply_pending c' r (tag_parts (response_part (r_session r)) (message_pieces (r_msg r))) ∧ only_for r c c'.
Proof.
  intros Hok Hbig Ht Hd. pose proof Hok as [Hs Hl]. unfold read_response.
  rewrite unpack_response_begin by (done || unfold is_u32; lia). cbn [mbind outcome_bind].
  unfold dispatch_by_session. cbn [p_session p_padding p_ok p_msg andb]. rewrite Ht, Hd. eexists. split; [done|]. split.
  - split; [done|]. right. left. exists [], (message_pieces (r_msg r)). cbn. rewrite lookup_insert_eq.
    split_and!; try done. by apply message_pieces_ne, reply_big_length.
  - split; [|split]; intros; cbn; by rewrite ?lookup_insert_ne.
Qed.

(** A part of a large response. *)
Lemma reply_part_step c r front p back :
  reply_ok r → reply_big r = true → message_pieces (r_msg r) = front ++ p :: back →
  c_thread c !! r_session r = Some (r_co r) →
  c_data c !! r_co r = Some (Dtable (Isize (Z.of_nat (length (r_msg r))) :: (Idata <$> front))) →
  ∃ c', read_response c (response_part (r_session r) (negb (bool_decide (back = []))) p)
        = Ret (c', match back with [] => [r_co r] | _ => [] end)
    ∧ reply_pending c' r (tag_parts (response_part (r_session r)) back) ∧ only_for r c c'.
Proof.
  intros Hok Hbig Hp Ht Hd. pose proof Hok as [Hs Hl]. destruct (reply_big_length r Hbig) as [Hrok _]. unfold read_response.
  rewrite unpack_response_part by done. cbn [mbind outcome_bind].
  unfold dispatch_by_session. cbn [p_session p_padding p_ok p_msg c_data field_set]. rewrite Ht, Hd. destruct back as [|p' back].
  - rewrite bool_decide_true by done. cbn [negb andb tag_parts]. eexists. split; [done|]. split.
    + split; [done|]. right. right. cbn. rewrite lookup_delete_eq, !lookup_insert_eq. unfold reply_data.
      rewrite Hbig, Hp, fmap_app, Hrok. done.
    + split; [|split]; intros; cbn; by rewrite ?lookup_delete_ne, ?lookup_insert_ne.
  - rewrite bool_decide_false by done. cbn [negb andb]. eexists. split; [done|]. split.
    + split; [done|]. right. left. exists (front ++ [p]), (p' :: back). cbn. rewrite lookup_insert_eq, fmap_app.
      split_and!; try done. by rewrite <- (assoc_L (++)).
    + split; [|split]; intros; cbn; by rewrite ?lookup_insert_ne.
Qed.

Lemma reply_step c r b rest :
  True → reply_pending c r (b :: rest) →
  ∃ c', read_response c b = Ret (c', match rest with [] => [r_co r] | _ => [] end) ∧ True ∧ reply_pending c' r rest
    ∧ ∀ r' l, r_session r ≠ r_session r' ∧ r_co r ≠ r_co r' → reply_pending c r' l → reply_pending c' r' l.
Proof.
  assert (Hfin : ∀ c' o, read_response c b = Ret (c', o) → o = match rest with [] => [r_co r] | _ => [] end →
            reply_pending c' r rest → only_for r c c' →
            ∃ c', read_response c b = Ret (c', match rest with [] => [r_co r] | _ => [] end) ∧ True ∧ reply_pending c' r rest
              ∧ ∀ r' l, r_session r ≠ r_session r' ∧ r_co r ≠ r_co r' → reply_pending c r' l → reply_pending c' r' l).
  { intros c' o Hr -> Hp Ho. exists c'. split_and!; try done. intros r' l [Hs Hc]. by apply (reply_pending_other c c' r). }
  intros _ (Hok & [(Hrest & Ht & Hd) | [(front & back & Hbig & Hp & Hne & Hrest & Ht & Hd) | [Hrest _]]]); [| |done].
  - unfold reply_bodies, response_bodies in Hrest. fold (reply_big r) in Hrest.
    destruct (reply_big r) eqn:E; injection Hrest as -> ->.
    + destruct (reply_begin_step c r Hok E Ht Hd) as (c' & Hr & Hp & Ho). apply (Hfin c' _ Hr); [|done|done].
      pose proof (message_pieces_ne _ (proj2 (reply_big_length r E))). by destruct (message_pieces (r_msg r)).
    + destruct (reply_small_step c r Hok E Ht Hd) as (c' & Hr & Hp & Ho). by apply (Hfin c' _ Hr).
  - destruct back as [|p back]; [done|]. injection Hrest as -> ->.
    destruct (reply_part_step c r front p back Hok Hbig Hp Ht Hd) as (c' & Hr & Hp' & Ho).
    apply (Hfin c' _ Hr); [|done|done]. by destruct back.
Qed.

Lemma reply_done c r : reply_pending c r [] → command_req c (r_co r) = Ret (reply_answer r).
Proof.
  intros ([Hs Hl] & [[Hrest _] | [(front & back & _ & _ & Hne & Hrest & _) | (_ & _ & Hr & Hd)]]).
  - unfold reply_bodies, response_bodies in Hrest. by destruct (_ && _) in Hrest.
  - by destruct back.
  - unfold command_req, wait_for_response, reply_answer. rewrite Hr, Hd. unfold reply_data.
    destruct (reply_big r) eqn:E.
    + destruct (reply_big_length r E) as [-> Hpos]. cbn [snd]. rewrite lconcat_spec by lia.
      by rewrite concat_pieces, Z.eqb_refl by done.
    + unfold reply_big in E. destruct (r_ok r); [|done]. cbn [andb snd] in *. bool_prop.
      pose proof part_size_eq. by rewrite take_ge by lia.
Qed.

Lemma reply_bodies_fit r : reply_ok r → Forall fits (reply_bodies r).
Proof.
  intros [Hs Hl]. pose proof part_size_eq as Hps. unfold reply_bodies, response_bodies, fits, MULTI_PART in *.
  destruct (_ && _) eqn:E; (constructor; [lens|]); [|done].
  apply tag_parts_Forall. eapply Forall_impl; [apply pieces_bound; bool_prop; lia|]. unfold MULTI_PART, response_part.
  intros p Hp more. lens.
Qed.

(** C22. Responses arrive: the responses to the sessions that coroutines wait for,
    packed and written to a connection with their packages interleaved in any
    way, wake every coroutine exactly once, and each gets the whole message, or
    the error with the first 32 KB of its text. *)
Theorem cluster_responses_arrive c rs :
  Forall reply_ok rs → NoDup (r_session <$> rs) → NoDup (r_co <$> rs) →
  Forall (λ r, c_thread c !! r_session r = Some (r_co r) ∧ c_data c !! r_co r = None) rs →
  ∃ sents, Forall2 (λ r s, ∀ stack m, buffer_ok stack →
                      m = Mstring (r_msg r) ∨ m = Muserdata (Some (r_msg r)) (Z.of_nat (length (r_msg r))) →
                      packed_strings <$> lpackresponse stack (r_session r) (r_ok r) m = Some s) rs sents
    ∧ ∀ wire, interleaving sents wire →
        ∃ bodies c' woken, packages (concat wire) = (bodies, []) ∧ run_all read_response c bodies = Ret (c', woken)
          ∧ woken ≡ₚ r_co <$> rs ∧ Forall (λ r, command_req c' (r_co r) = Ret (reply_answer r)) rs.
Proof.
  intros Hok Hns Hnc Hwait. exists (frame_all (reply_bodies <$> rs)). split.
  { unfold frame_all. rewrite <- list_fmap_compose. apply Forall2_fmap_r, Forall_Forall2_diag.
    eapply Forall_impl; [exact Hok|]. intros r [Hs Hl] stack m Hb Hm. apply lpackresponse_spec; done || lia. }
  intros wire Hw. destruct (interleaving_framed framed _ _ Hw _ eq_refl) as (w & -> & Hw').
  destruct (run_interleaved read_response r_co reply_pending (λ r r', r_session r ≠ r_session r' ∧ r_co r ≠ r_co r')
              (λ _, True) reply_step rs _ w Hw') with (s := c) as (c' & woken & Hrun & Hperm & _ & Hdone).
  - intros i j r r' Hne Hi Hj. split; by eapply NoDup_apart.
  - done.
  - apply Forall2_fmap_r, Forall_Forall2_diag, Forall_forall. intros r Hr.
    split; [by eapply Forall_forall|]. left. split; [done|]. by eapply Forall_forall in Hwait.
  - exists w, c', woken. rewrite unfinished_all in Hperm.
    + split_and!; try done.
      * apply packages_packed, Forall2_fmap_r, Forall_Forall2_diag. eapply Forall_impl; [|apply lpack_framed].
        eapply interleaving_Forall; [exact Hw'|]. rewrite Forall_fmap. eapply Forall_impl; [exact Hok|]. apply reply_bodies_fit.
      * eapply Forall_impl; [exact Hdone|]. apply reply_done.
    + by rewrite length_fmap.
    + apply Forall_fmap, Forall_true. intros r. unfold compose, reply_bodies, response_bodies. by destruct (_ && _).
Qed.

Lemma cluster_responses_arrive_witness :
  ∃ sents, Forall2 (λ r s, ∀ stack m, buffer_ok stack →
                      m = Mstring (r_msg r) ∨ m = Muserdata (Some (r_msg r)) (Z.of_nat (length (r_msg r))) →
                      packed_strings <$> lpackresponse stack (r_session r) (r_ok r) m = Some s)
             [mkReply 1 11 true (replicate (Z.to_nat 0x8001) 7); mkReply 2 12 false [69]] sents.
Proof.
  destruct (cluster_responses_arrive (mkChannel {[1 := 11; 2 := 12]} ∅ ∅ true)
    [mkReply 1 11 true (replicate (Z.to_nat 0x8001) 7); mkReply 2 12 false [69]]) as (sents & Hsents & _).
  - repeat constructor; cbn [r_msg r_session]; rewrite ?length_replicate; cbn [length]; lia.
  - apply (bool_decide_eq_true_1 _). reflexivity.
  - apply (bool_decide_eq_true_1 _). reflexivity.
  - repeat constructor.
  - exists sents. exact Hsents.
Defined.

(** ** What goes wrong *)

(** C39. Large requests are kept by session, and every peer numbers its requests
    from 1: a small request of one peer that has the session of a large request
    of another peer is refused as an invalid large request, and the large request
    is forgotten. *)
Theorem cluster_sessions_clash large k k' :
  call_ok k → call_ok k' → k_session k = k_session k' → large !! k_session k = None →
  is_big (k_msg k) = true → is_big (k_msg k') = false →
  run_all socket_step large [request_head (k_addr k) (k_session k) (k_msg k);
                             request_head (k_addr k') (k_session k') (k_msg k')]
  = Ret (large, [Invalid (k_session k')]).
Proof.
  intros Hk Hk' Hs Hnone Hbig Hsmall. destruct Hk as (Ha & Hse & Hl), Hk' as (Ha' & Hse' & Hl').
  unfold run_all, socket_step, socket_data. rewrite (unpack_head (k_addr k)) by (done || unfold is_u32; lia).
  cbn [mbind outcome_bind q_padding q_session q_msg q_addr]. rewrite Hbig, Hnone. cbn [default fst snd app mbind outcome_bind].
  rewrite unpack_head by (done || unfold is_u32; lia).
  cbn [mbind outcome_bind q_padding q_session q_msg q_addr]. rewrite Hsmall, <- Hs, lookup_insert_eq. cbn [fst snd app].
  change [Isize (Z.of_nat (length (k_msg k))); Idata (k_msg k')]
    with (Isize (Z.of_nat (length (k_msg k))) :: (Idata <$> [k_msg k'])).
  rewrite lconcat_spec by lia. cbn [concat]. rewrite app_nil_r.
  unfold is_big in *. bool_prop. rewrite (proj2 (Z.eqb_neq _ _)) by lia. cbn [mbind outcome_bind app].
  by rewrite delete_insert_id.
Qed.

Lemma cluster_sessions_clash_witness :
  run_all socket_step ∅ [request_head (Anumber 8) 1 (replicate (Z.to_nat 0x8000) 7); request_head (Anumber 9) 1 [65]]
  = Ret (∅, [Invalid 1]).
Proof.
  apply (cluster_sessions_clash ∅ (mkCall (Anumber 8) 1 (replicate (Z.to_nat 0x8000) 7)) (mkCall (Anumber 9) 1 [65])).
  - split; [done|]. split; [done|]. cbn [k_msg]. rewrite length_replicate. lia.
  - split; [done|]. split; done.
  - reflexivity.
  - reflexivity.
  - vm_compute. reflexivity.
  - reflexivity.
Defined.

(** Two packages of 15 and 7 bytes end the process of the receiver: a size of 2 GB
    or more becomes a negative [int], with which memory is asked for. *)
Lemma cluster_size_aborts large n session size p :
  is_u32 n → is_u32 session → 2 ^ 31 <= size < 2 ^ 32 → Z.of_nat (length p) <= MULTI_PART → large !! session = None →
  run_all socket_step large [[1] ++ le32 n ++ le32 session ++ le32 size; request_part session false p] = Stuck.
Proof.
  intros Hn Hs Hsz Hp Hnone. unfold run_all, socket_step, socket_data. rewrite unpack_mnumber by (done || unfold is_u32; lia).
  cbn [mbind outcome_bind q_padding q_session q_msg q_addr]. rewrite Hnone. cbn [default fst snd app mbind outcome_bind].
  rewrite unpack_part by done. cbn [mbind outcome_bind q_padding q_session q_msg q_addr].
  rewrite lookup_insert_eq. cbn [fst snd app]. by rewrite lconcat_negative.
Qed.
